(* ===== verification/_CoqProject ===== *)
-Q . S2P
Prelude.v
Pool.v
Tuning.v
RingBuffer.v
WriteQueue.v
Conn.v
Utf8.v
Cipher.v
Text.v
Sha1.v
Pmd.v
WsClient.v
Handshake.v
Frame.v
Message.v
TlsStrict.v
TlsWorker.v
KtlsRecords.v
KtlsKeys.v
TlsConn.v
KtlsSetup.v
TimeWheel.v
FdTable.v
Poller.v
PollLoop.v
Dialer.v
DialMng.v
EngineConn.v
EngineTls.v
Loop.v
LoopInv.v
Framing.v
HttpUtil.v
FastHttp.v
Http.v
HttpWs.v
Server.v
Json.v
Serve.v
Sockets.v
LoopRun.v
Stop.v
Service.v
Drain.v
Wrapper.v
Net.v
Examples.v
WsMux.v
Bsd.v
BsdPoll.v
Ktlscheck.v
