(* ===== verification/Prelude.v ===== *)
(** * connaxis: a verified model of an event-driven network runtime

    connaxis is a Go library in which a few event loops, each around one epoll
    instance, serve many connections.  This library models the code of the
    repository as Rocq functions and proves what the parts promise each other and
    the application.

    ** The program and the files that model it

    - [pool/pool.go], the byte allocator: [Pool.v].  Other parts use it through the
      class [Allocator] and its laws.
    - [tuning/], the budgets and limits: [Tuning.v], as one record of globals.
    - [ringbuffer/ringbuffer.go]: [RingBuffer.v]; [contents] is the byte queue it stands for.
    - [connection/writequeue.go]: [WriteQueue.v]; [wq_data] is the byte string to send.
    - [connection/{base,conn,flush,writev_unix,fdconn}.go], the plain connection:
      [Conn.v], over the class [Kernel] of system calls.
    - [websocket/]: [Utf8.v] and [Cipher.v] (validation and masking), [Text.v] and
      [Sha1.v] (helpers and the standard library functions used), [Pmd.v]
      (permessage-deflate), [WsClient.v] (state of a client), [Handshake.v] (HTTP
      upgrade), [Frame.v] (frames in and out), [Message.v] (a conversation).
    - [connection/tls_strict.go], the check of a client hello: [TlsStrict.v].
    - [eventloop/tlsworker.go], the pool of handshake goroutines: [TlsWorker.v].
    - [internal/ktls/linux.go] and [internal/tls/tls13_suites.go], kernel TLS:
      [KtlsRecords.v] (following the records), [KtlsKeys.v] (secrets, configuration, keys,
      socket options).
    - [connection/tlsconn.go], a TLS connection in use: [TlsConn.v], over the class
      [TlsEngine], which stands for crypto/tls.
    - [connection/{ktls_linux,tlsengine,tlsconn}.go] and [ktls_policy.go], from the handshake
      to a connection, and the switch to kernel TLS: [KtlsSetup.v], over the classes
      [TlsHandshake] and [KtlsKernel].
    - [dial.go], [dial_linux.go], [dialmng.go], outgoing connections: [Dialer.v] (the output of
      one) and [DialMng.v] (the manager).  [Sockets.v] has dialling, with [listener.go]: which
      object owns which descriptor.
    - [timer/timewheel.go]: [TimeWheel.v].
    - [eventloop/{fdtable,loopUtil}.go], the descriptor table and ids: [FdTable.v].
    - [internal/poll_linux.go], epoll: [Poller.v], over the class [Epoll], and [PollLoop.v], the
      goroutine of a poller and those that wake and close it.
    - [eventloop/{loopConn,loopAccept,loop}.go], the event loop: [Loop.v] (the code),
      [LoopInv.v] (one connection), [LoopRun.v] (the whole loop), [Stop.v] (its run and its
      stop).  [Service.v] has the class [Service] of handlers that answer a byte stream and
      what their clients get back, [Drain.v] that what waits to be sent is sent.  The loop uses its
      connections through the class [EngineConn] of [EngineConn.v], whose laws the plain
      connection discharges there and a kernel TLS connection in [EngineTls.v].
    - [evhandler/], the handlers of applications: [Framing.v] (the class [Framing] of what a
      handler promises about its packets), [HttpUtil.v] ([util.go]), [FastHttp.v]
      ([evioFastHttp.go], which discharges [Framing]), [Http.v] ([evioHttp.go] and
      [response.go], over the class [Wildcat] of the parser), [HttpWs.v] ([evioHttpWs.go] and
      [evioTcpHttpWs.go], over the classes [WsEngine] and [TcpProto]), and [WsMux.v], where
      [WsEngine] is the websocket handler of [Message.v].
    - [server.go], [evio.go], [listener_open.go], [tls_config.go], [tls_session_ticket.go], the
      server: [Server.v]; [Serve.v] has the configuration, its loading from a file with the
      decoder of [Json.v], and [serve] with what it starts.
    - [internal/poll_bsd.go], [dial_bsd.go], [timer/timesource_*.go]: [Bsd.v], over the classes
      [Kqueue] and [Timerfd], and [BsdPoll.v], the goroutines around a poller.
    - [wrapper/wrapper.go], the hooks for messages and metrics: [Wrapper.v].
    - Addresses and their text, deadlines, the spin lock, pools of objects and the probe for kernel
      TLS ([internal/{socktoaddr,spinlock,ktls_support_*}.go], the rest of [connection/]): [Net.v],
      with the class [AddrConn] of what both kinds of connection do with addresses.
    - [examples/]: the echo handlers in [Service.v], the goroutines that answer requests and the
      metrics in [Examples.v].
    - [cmd/ktlscheck], the check of kernel TLS: [Ktlscheck.v], a client of [EngineConn].

    ** How the code is modelled

    A Go [int] is a [Z], a slice of bytes a [list Z]; fixed-width arithmetic is written
    out with [wrapU] and [wrapS] where it can overflow.  A panic (index or slice out of
    range, nil) is [None] of the option monad, an error of Go a value of [errno] or of a
    type of the component.  State is passed explicitly; the event loop is a state monad.
    Goroutines that share state are sequences of atomic steps in an arbitrary order
    ([TlsWorker.v], [DialMng.v], [Http.v], [HttpWs.v], [Server.v], [PollLoop.v], [BsdPoll.v],
    [Examples.v], and the calls of other goroutines in [LoopRun.v]).  Code that is not part of the repository is a class with laws (kernel, epoll, [net.Conn], crypto/tls,
    compress/flate, the application's handlers) or a parameter (HMAC, HKDF); each theorem
    that uses laws has a witness with a concrete instance.

    ** What is proved

    - Buffers: the ring buffer and the write queue are byte queues, every buffer goes
      back to the allocator exactly once, the allocator answers from the smallest class.
    - Connections: whatever the kernel answers, what was written is sent once and in
      order, within the budget of a flush; the same through TLS, where plaintext is
      queued, encrypted, buffered or sent, and reading delivers the plaintext in order.
    - Websocket: masking is RFC 6455 masking; building and parsing frames are inverse; a
      message arrives exactly once in any fragmentation; no frame, however malformed,
      breaks the client; close replies are valid; decompression is bounded; the handshake
      and the extension are negotiated as specified.
    - TLS: the precheck accepts exactly the well-formed client hellos and hides nothing
      from the handshake; the worker pool is bounded, loses no connection and stops;
      the record parser does not depend on how the stream is cut and reports the values
      of the handshake; the key log is read back; keys are those of RFC 5246 and 8446;
      both directions get the keys of their sender; configurations stay within what the
      kernel supports; a connection leaves its handshake with every decrypted byte kept and
      with the kernel holding the keys of the session exactly if it is marked so; and a
      kernel TLS connection keeps the promises the event loop relies on.
    - Event loop: its invariant is kept by every round and every call of another
      goroutine, reading conserves both streams of a connection, closing removes every
      trace of it, and no pending output is left without a wake-up.  If the peer stays and each
      write event finds room for a byte, the output that waits is sent after at most as many
      events as it has bytes (the assumptions are [healthy] and [acks_ok]).  Closing a poller ends its
      goroutine after a bounded number of steps, and never loses its wake to another.  The stop of a
      loop closes every connection it has, once.
    - Services: over the loop, a handler that answers packet by packet has sent or queued exactly the
      answers to the packets of the stream received, and an echo server the stream itself,
      after any callbacks.
    - Handlers: with stable packets the application gets the packets of the byte stream, however it is
      cut; pipelined HTTP requests arrive one by one, and every answer of the packet parser is
      one the loop can use; a request is refused or handed over with exactly its body;
      responses are sent in the order of the requests; the protocol of a connection is recognised
      exactly, and the connections of each are counted exactly; an upgrade request is answered
      by the websocket handler.
    - Server: shutdown is orderly and ends; session tickets are accepted between servers; every strategy
      chooses a loop, the one with the fewest connections or each in turn; start-up succeeds as
      a whole or leaves nothing running, and the application hears of a server only when all its
      listeners are open; with kernel TLS these take the version of the policy; no
      configuration file makes a server listen.
    - BSD: what registration does, and where the code differs from the Linux twin; a stop ends the
      poller unless another wake replaces it.
    - The rest: hooks see exactly the calls meant for them; the text of an address is always
      that of the address; a deadline is never a timeout of zero; the lock is exclusive; each request
      given to the workers of the examples is answered once.
    - Outgoing connections: the counters of the manager are exact in every interleaving of its
      goroutines, as long as no key is made inactive, and the number of connections is
      bounded; what is added to a dialer is sent once and in order.  Dialling and listening
      leave one owner for each descriptor or none open, with the exceptions that are proved.
    - The check tool reports success on both sides only if every byte of both arrived.
    - The timer wheel fires each timer exactly once, the descriptor table is a map, ids
      are injective in range, poller registration is an upsert.

    ** Fuel

    Loops that are not structural take fuel, and each theorem shows that the fuel used is
    enough or that an amount of fuel is: the pending bytes plus one ([drainWrite]), the
    length of the input plus one ([parse_loop], [feed], [lines_loop], the extension loops of
    [TlsStrict]), the read budget plus one ([processRead]: every round but the last reads a
    byte), 2^20/6 + 2 for the records of a client hello (each adds at least six bytes to a
    buffer of at most 2^20), the output limit for [inflate_loop], the number of bytes wanted
    ([ReadFull], [pHash], and [drain_loop]: every round but the last adds a byte), the length
    of a header value plus two ([token_loop]), 21 for [itoa] (an [int] has at most 19 digits), the length of the
    header for [scan_lines] and of the address for [SplitBy] (each line or part takes a byte),
    twice the length of a document plus one for the scanner of [Json.v] (shown there).  The loops of
    [Ktlscheck.v] wait for the socket: they come to an end with more fuel than bytes if every call makes
    progress.  [FlushN] of a TLS connection has no bound that its state gives,
    because crypto/tls may write any number of records; the theorem shows that there is
    one.  [Read] of a TLS connection needs one round per answer of the socket.

    ** Not modelled

    The protocol of the TLS handshake itself ([crypto/tls] is patched and not part of the
    sources), the third-party HTTP parsers and [url.Parse] (parameters), [tlsConnRecSeq], which
    reads fields of [crypto/tls] by reflection (an operation of the class [TlsHandshake]), the
    stubs of other systems than Linux and BSD, the messages and metrics that the parts report
    (the hooks they go to are modelled), the [main] functions of the programs, and
    the programs under [benchmark/]. *)

From stdpp Require Export base tactics list numbers option.
From Stdlib Require Export ZArith Lia.

#[export] Set Default Goal Selector "!".

Open Scope Z_scope.

(** ** Bytes, slices and machine integers of Go

    A Go [byte] is a [Z]; [bytes_wf] says that it is in range.  A Go [int] is a
    [Z].  A computation that panics in Go (index or slice out of range, division
    by zero) is the value [None] of the option monad; [Some] carries the result. *)

Abbreviation byte := Z (only parsing).
Abbreviation bytes := (list Z) (only parsing).

Declare Scope go_scope.
Delimit Scope go_scope with go.

(** The length of a slice as a Go [int]. *)
Abbreviation len l := (Z.of_nat (length l)) (only parsing).

Definition byte_wf (b : Z) : Prop := 0 ≤ b < 256.
Definition bytes_wf (l : list Z) : Prop := Forall byte_wf l.

Definition byte_wfb (b : Z) : bool := (0 <=? b) && (b <? 256).

(** Truncation to [w] unsigned bits, and to [w] signed bits. *)
Definition wrapU (w z : Z) : Z := z mod 2 ^ w.
Definition wrapS (w z : Z) : Z := (z + 2 ^ (w - 1)) mod 2 ^ w - 2 ^ (w - 1).

(** [l[i:j]] without the bounds check. *)
Definition sub {A} (l : list A) (i j : Z) : list A :=
  take (Z.to_nat (j - i)) (drop (Z.to_nat i) l).

(** [l[i:j]], [None] when Go panics. *)
Definition slice {A} (l : list A) (i j : Z) : option (list A) :=
  if (0 <=? i) && (i <=? j) && (j <=? len l) then Some (sub l i j) else None.

(** [l[i]], [None] when Go panics. *)
Definition index {A} (l : list A) (i : Z) : option A :=
  if 0 <=? i then l !! Z.to_nat i else None.

(** The effect of [copy(dst[i:], src)] on [dst]. *)
Definition blit {A} (dst : list A) (i : Z) (src : list A) : list A :=
  take (Z.to_nat i) dst
  ++ take (length dst - Z.to_nat i) src
  ++ drop (Z.to_nat i + length src) dst.

(** [copy(dst[i:], src)]: panics when [i] is not a valid slice bound. *)
Definition copy_at {A} (dst : list A) (i : Z) (src : list A) : option (list A) :=
  if (0 <=? i) && (i <=? len dst) then Some (blit dst i src) else None.

(** [l[i] = x]: panics when [i] is out of range. *)
Definition store {A} (l : list A) (i : Z) (x : A) : option (list A) :=
  if (0 <=? i) && (i <? len l) then Some (<[Z.to_nat i := x]> l) else None.

(** [make([]byte, n)]: zero filled. *)
Definition make_bytes (n : Z) : list Z := replicate (Z.to_nat n) 0.

(** Go's [%] and [/] on [int] truncate towards zero and panic on a zero divisor. *)
Definition go_rem (a b : Z) : option Z := if b =? 0 then None else Some (Z.rem a b).
Definition go_quot (a b : Z) : option Z := if b =? 0 then None else Some (Z.quot a b).

(** ** Errors of the runtime and of the system calls *)

Inductive errno : Set :=
| EAGAIN | EBADF | ENOMEM | EOF | ECLOSED | EIO | EINVAL | EOTHER (code : Z).

#[export] Instance errno_eq_dec : EqDecision errno.
Proof. solve_decision. Defined.

(** ** Automation *)

(** Splits the innermost test of an [if] or [match] in the goal. *)
Ltac gcase := case_match.

Ltac list_len :=
  rewrite ?length_app, ?length_take, ?length_drop, ?length_replicate,
          ?length_map, ?length_insert in *.

(** [lia] on a boolean test [b = true] or [b = false], read as a proposition first. *)
Ltac blia :=
  first [ lia
        | try (match goal with |- true = _ => symmetry | |- false = _ => symmetry end);
          rewrite ?andb_true_iff, ?andb_false_iff, ?orb_true_iff, ?orb_false_iff,
            ?negb_true_iff, ?negb_false_iff, ?Z.leb_le, ?Z.ltb_lt, ?Z.leb_gt, ?Z.ltb_ge,
            ?Z.eqb_eq, ?Z.eqb_neq; lia ].

Ltac llia := list_len; simpl length in *; blia.

(** Case analysis of boolean integer tests, closed by arithmetic. *)
Ltac zb :=
  repeat match goal with
  | |- context [if ?b then _ else _] =>
      first [ replace b with true by blia | replace b with false by blia ]
  end.

Create HintDb go discriminated.

(** ** Lists indexed by [Z] *)

Section Lists.
Context {A : Type}.
Implicit Types (l k : list A).

Lemma lookup_app_dec l k i :
  (l ++ k) !! i = if decide (i < length l)%nat then l !! i else k !! (i - length l)%nat.
Proof.
  case_decide.
  - by apply lookup_app_l.
  - apply lookup_app_r. lia.
Qed.

Lemma lookup_sub l i j n : 0 ≤ i →
  sub l i j !! n = if decide (Z.of_nat n < j - i) then l !! (Z.to_nat i + n)%nat else None.
Proof.
  intros Hi. unfold sub. rewrite lookup_take, lookup_drop.
  repeat case_decide; try done; lia.
Qed.

Lemma length_sub l i j : 0 ≤ i ≤ j → j ≤ len l → len (sub l i j) = j - i.
Proof. intros. unfold sub. llia. Qed.

Lemma length_blit l i k : 0 ≤ i ≤ len l → length (blit l i k) = length l.
Proof. intros. unfold blit. llia. Qed.

Lemma lookup_blit l i k n : 0 ≤ i ≤ len l →
  blit l i k !! n =
  if decide (i ≤ Z.of_nat n < i + len k ∧ Z.of_nat n < len l)
  then k !! (n - Z.to_nat i)%nat else l !! n.
Proof.
  intros Hi. unfold blit.
  rewrite !lookup_app_dec, !lookup_take, lookup_drop. list_len.
  repeat case_decide; try lia; try done; try (f_equal; lia).
  destruct (decide (n < length l)%nat); [f_equal; lia|].
  rewrite !lookup_ge_None_2 by lia. done.
Qed.

Lemma sub_full l : sub l 0 (len l) = l.
Proof. unfold sub. rewrite drop_0. apply take_ge. lia. Qed.

Lemma sub_nil l i j : j ≤ i → sub l i j = [].
Proof. intros. unfold sub. by replace (Z.to_nat (j - i)) with 0%nat by lia. Qed.

Lemma sub_prefix l n : sub l 0 n = take (Z.to_nat n) l.
Proof. unfold sub. rewrite drop_0. f_equal. lia. Qed.

Lemma sub_suffix l i : 0 ≤ i → sub l i (len l) = drop (Z.to_nat i) l.
Proof. intros. unfold sub. apply take_ge. llia. Qed.

Lemma sub_app l i j m : 0 ≤ i ≤ j → j ≤ m → sub l i j ++ sub l j m = sub l i m.
Proof.
  intros. unfold sub.
  replace (Z.to_nat j) with (Z.to_nat i + Z.to_nat (j - i))%nat by lia.
  replace (Z.to_nat (m - i)) with (Z.to_nat (j - i) + Z.to_nat (m - j))%nat by lia.
  rewrite <-drop_drop, take_take_drop. done.
Qed.

Lemma sub_drop l i j (k : Z) : 0 ≤ i → 0 ≤ k → drop (Z.to_nat k) (sub l i j) = sub l (i + k) j.
Proof.
  intros. unfold sub. rewrite skipn_firstn_comm, drop_drop. f_equal; [lia|]. f_equal. lia.
Qed.

Lemma slice_Some l i j : 0 ≤ i ≤ j → j ≤ len l → slice l i j = Some (sub l i j).
Proof. intros. unfold slice. by zb. Qed.

Lemma slice_inv l i j k : slice l i j = Some k → 0 ≤ i ≤ j ∧ j ≤ len l ∧ k = sub l i j.
Proof. unfold slice. gcase; intros; simplify_eq. split_and!; [lia..|done]. Qed.

Lemma copy_at_Some l i k : 0 ≤ i ≤ len l → copy_at l i k = Some (blit l i k).
Proof. intros. unfold copy_at. by zb. Qed.

Lemma index_Some l i : 0 ≤ i < len l → is_Some (index l i).
Proof. intros. unfold index. zb. apply lookup_lt_is_Some. lia. Qed.

Lemma blit_front l k : (length k ≤ length l)%nat → blit l 0 k = k ++ drop (length k) l.
Proof.
  intros. unfold blit. simpl. f_equal. apply take_ge. lia.
Qed.

(** [copy] behind a prefix, of a chunk that fits. *)
Lemma blit_app a r k : (length k ≤ length r)%nat →
  blit (a ++ r) (len a) k = a ++ k ++ drop (length k) r.
Proof.
  intros H. unfold blit. rewrite Nat2Z.id, take_app_length, length_app. f_equal. f_equal.
  - apply take_ge. lia.
  - rewrite drop_app_ge by lia. f_equal. lia.
Qed.

(** [copy] of a chunk that fits, read back. *)
Lemma sub_blit_same l i k : 0 ≤ i → i + len k ≤ len l → sub (blit l i k) i (i + len k) = k.
Proof.
  intros. apply list_eq; intros n. rewrite lookup_sub by lia.
  case_decide.
  - rewrite lookup_blit by lia. rewrite decide_True by lia. f_equal. lia.
  - symmetry. apply lookup_ge_None_2. lia.
Qed.

(** A region outside the copied chunk is unchanged. *)
Lemma sub_blit_other l i k a b :
  0 ≤ i ≤ len l → 0 ≤ a → b ≤ i ∨ i + len k ≤ a →
  sub (blit l i k) a b = sub l a b.
Proof.
  intros. apply list_eq; intros n. rewrite !lookup_sub by lia.
  case_decide; [|done]. rewrite lookup_blit by lia. rewrite decide_False by lia. done.
Qed.

End Lists.

#[export] Hint Resolve slice_Some copy_at_Some : go.

Lemma length_make_bytes n : 0 ≤ n → len (make_bytes n) = n.
Proof. intros. unfold make_bytes. llia. Qed.

Lemma go_rem_Some a b : 0 < b → 0 ≤ a → go_rem a b = Some (a mod b).
Proof. intros. unfold go_rem. zb. by rewrite Z.rem_mod_nonneg by lia. Qed.

Lemma go_quot_Some a b : 0 < b → 0 ≤ a → go_quot a b = Some (a / b).
Proof. intros. unfold go_quot. zb. by rewrite Z.quot_div_nonneg by lia. Qed.

Lemma byte_wfb_spec b : byte_wfb b = true ↔ byte_wf b.
Proof. unfold byte_wfb, byte_wf. lia. Qed.

Lemma bytes_wf_app l k : bytes_wf (l ++ k) ↔ bytes_wf l ∧ bytes_wf k.
Proof. apply Forall_app. Qed.

(** Decides that concrete bytes are in range. *)
Lemma bytes_wfb l : forallb byte_wfb l = true → bytes_wf l.
Proof.
  induction l as [|b l IH]; simpl; intros H; [constructor|]. apply andb_true_iff in H as [Hb Hl].
  constructor; [by apply byte_wfb_spec|by apply IH].
Qed.

Lemma wrapU_small w z : 0 ≤ z < 2 ^ w → wrapU w z = z.
Proof. apply Z.mod_small. Qed.

Lemma wrapS_small w z : 0 < w → - 2 ^ (w - 1) ≤ z < 2 ^ (w - 1) → wrapS w z = z.
Proof.
  intros Hw Hz. unfold wrapS.
  assert (2 ^ w = 2 * 2 ^ (w - 1)) as E.
  { rewrite <-Z.pow_succ_r by lia. f_equal. lia. }
  rewrite Z.mod_small; lia.
Qed.

(** Signed truncation commutes with addition. *)
Lemma wrapS_add_l w x y : wrapS w (wrapS w x + y) = wrapS w (x + y).
Proof.
  unfold wrapS. set (h := 2 ^ (w - 1)). set (M := 2 ^ w). f_equal.
  replace ((x + h) mod M - h + y + h) with ((x + h) mod M + y) by lia.
  rewrite Zplus_mod_idemp_l. f_equal. lia.
Qed.

Lemma wrapS_add_r w x y : wrapS w (x + wrapS w y) = wrapS w (x + y).
Proof. rewrite Z.add_comm, wrapS_add_l. f_equal. lia. Qed.

Lemma wrapS_idem w x : wrapS w (wrapS w x) = wrapS w x.
Proof. pose proof (wrapS_add_l w x 0) as H. by rewrite !Z.add_0_r in H. Qed.

(** [a << n | b] for a [b] that fits below. *)
Lemma lor_shift_add a b n : 0 ≤ n → 0 ≤ b < 2 ^ n → Z.lor (Z.shiftl a n) b = a * 2 ^ n + b.
Proof.
  intros Hn Hb. rewrite Z.shiftl_mul_pow2 by lia.
  assert (Z.land (a * 2 ^ n) b = 0) as E.
  { apply Z.bits_inj'. intros i Hi. rewrite Z.land_spec, Z.bits_0. destruct (Z.lt_ge_cases i n).
    - by rewrite Z.mul_pow2_bits_low by lia.
    - rewrite <-(Z.mod_small b (2 ^ n)), Z.mod_pow2_bits_high by lia. apply andb_false_r. }
  rewrite <-Z.lxor_lor, <-Z.add_nocarry_lxor by done. done.
Qed.

(** A decidable fact about small numbers, checked by evaluation. *)
Lemma check_below (f : Z → bool) (n : Z) : forallb f (seqZ 0 n) = true → ∀ x, 0 ≤ x < n → f x = true.
Proof.
  intros H x Hx. rewrite forallb_forall in H. apply H. apply list_elem_of_In, elem_of_seqZ. lia.
Qed.

Lemma store_lt {A} (l : list A) i x : 0 ≤ i < len l → store l i x = Some (<[Z.to_nat i := x]> l).
Proof. intros. unfold store. by zb. Qed.

Lemma make_bytes_split k n : 0 ≤ n → make_bytes (Z.of_nat k + n) = replicate k 0 ++ make_bytes n.
Proof. intros. unfold make_bytes. rewrite <-replicate_add. f_equal. lia. Qed.
