(* ===== verification/Pool.v ===== *)
(** * pool/pool.go: the size-class byte allocator

    [BytesAlloctor] keeps one [sync.Pool] per size class [2^i * step].  [Get]
    answers a request with a buffer of the smallest class that holds it, [Put]
    files a buffer under its own length.  Other components use the allocator
    through the class [Allocator] and the laws [AllocatorLaws], which the
    instance at the end of the file discharges. *)

From stdpp Require Import gmap.
From S2P Require Import Prelude.

(** ** The interface the other components rely on *)

(** [al_get p n] is [None] when Go panics, [Some (None, _)] when the allocator
    returns [nil], and [Some (Some b, _)] when it hands out the buffer [b]. *)
Class Allocator (P : Type) := {
  al_get : P → Z → option (option (list Z) * P);
  al_put : P → list Z → P;
}.

Class AllocatorLaws (P : Type) `{Allocator P} := {
  al_inv : P → Prop;
  al_max : P → Z;
  al_get_some p n : al_inv p → n ≤ al_max p →
    ∃ b p', al_get p n = Some (Some b, p') ∧ n ≤ len b ∧ 0 < len b ≤ al_max p ∧
            al_inv p' ∧ al_max p' = al_max p;
  al_get_nil p n : al_inv p → al_max p < n → al_get p n = Some (None, p);
  al_put_inv p b : al_inv p → al_inv (al_put p b) ∧ al_max (al_put p b) = al_max p;
}.

(** ** The allocator *)

(** A [sync.Pool] of byte slices: the length its [New] function makes, and the
    buffers put back and not handed out since. *)
Record SyncPool := mkSyncPool { sp_new : Z; sp_free : list (list Z) }.

Record BytesAlloctor := mkBytesAlloctor {
  ba_step : Z;
  ba_rank : Z;
  ba_max : Z;
  ba_allocorMap : gmap Z SyncPool;
  ba_tick : nat;   (* how many times a pool was asked, see [choose] *)
}.

Section Alloctor.

(** Which idle buffer a [sync.Pool] hands out: its documentation promises only
    that [Get] removes an arbitrary item or calls [New].  [choose t free] is the
    position of the item taken at the [t]-th request, [None] for a call of [New]. *)
Variable choose : nat → list (list Z) → option nat.

Definition SyncPool_Get (t : nat) (p : SyncPool) : list Z * SyncPool :=
  match choose t (sp_free p) ≫= λ i, (λ b, (i, b)) <$> sp_free p !! i with
  | Some (i, b) => (b, mkSyncPool (sp_new p) (delete i (sp_free p)))
  | None => (make_bytes (sp_new p), p)
  end.

Definition SyncPool_Put (p : SyncPool) (b : list Z) : SyncPool :=
  mkSyncPool (sp_new p) (b :: sp_free p).

(** The loop of [initialize] from index [i], [n] iterations left. *)
Fixpoint BytesAlloctor_initialize_loop (n : nat) (i : Z) (ba : BytesAlloctor) : BytesAlloctor :=
  match n with
  | O => ba
  | S n' =>
      let size := Z.shiftl 1 i * ba_step ba in
      BytesAlloctor_initialize_loop n' (i + 1)
        (mkBytesAlloctor (ba_step ba) (ba_rank ba) size
           (<[size := mkSyncPool size []]> (ba_allocorMap ba)) (ba_tick ba))
  end.

(** [None] when the step is not a power of two ([wrapper.Fatalf] exits). *)
Definition BytesAlloctor_initialize (ba : BytesAlloctor) : option BytesAlloctor :=
  if negb (Z.land (ba_step ba) (ba_step ba - 1) =? 0) then None
  else Some (BytesAlloctor_initialize_loop (Z.to_nat (ba_rank ba)) 0 ba).

(** [Setup], run once: a step of 1024 bytes and [rank] classes. *)
Definition Setup (rank : Z) : option BytesAlloctor :=
  BytesAlloctor_initialize (mkBytesAlloctor 1024 rank 0 ∅ 0%nat).

(** The search loop of [Get]: the target after the loop. *)
Fixpoint BytesAlloctor_Get_loop (n : nat) (i step size target : Z) : Z :=
  match n with
  | O => target
  | S n' =>
      let target' := Z.shiftl 1 i * step in
      if size <=? target' then target' else BytesAlloctor_Get_loop n' (i + 1) step size target'
  end.

Definition BytesAlloctor_Get_target (ba : BytesAlloctor) (size : Z) : Z :=
  if ba_step ba <? size then
    if Z.land size (size - 1) =? 0 then size
    else BytesAlloctor_Get_loop (Z.to_nat (ba_rank ba)) 0 (ba_step ba) size (ba_step ba)
  else ba_step ba.

Definition BytesAlloctor_Get (ba : BytesAlloctor) (size : Z) : option (option (list Z) * BytesAlloctor) :=
  if ba_max ba <? size then Some (None, ba)
  else
    let target := BytesAlloctor_Get_target ba size in
    pool ← ba_allocorMap ba !! target;
    let '(b, pool') := SyncPool_Get (ba_tick ba) pool in
    Some (Some b, mkBytesAlloctor (ba_step ba) (ba_rank ba) (ba_max ba)
                    (<[target := pool']> (ba_allocorMap ba)) (S (ba_tick ba))).

Definition BytesAlloctor_Put (ba : BytesAlloctor) (buf : list Z) : BytesAlloctor :=
  let size := len buf in
  if ((ba_max ba <? size) && (size <? ba_step ba))
     || negb (Z.land size (size - 1) =? 0) || (size =? 0)
  then ba
  else match ba_allocorMap ba !! size with
       | None => ba
       | Some pool =>
           mkBytesAlloctor (ba_step ba) (ba_rank ba) (ba_max ba)
             (<[size := SyncPool_Put pool buf]> (ba_allocorMap ba)) (ba_tick ba)
       end.

(** ** Invariant *)

(** Buffers filed under a class have the length of the class. *)
Definition pool_wf (key : Z) (p : SyncPool) : Prop :=
  sp_new p = key ∧ Forall (λ b, len b = key) (sp_free p).

Record BA_inv (s : Z) (ba : BytesAlloctor) : Prop := {
  bi_s : 0 ≤ s;
  bi_step : ba_step ba = 2 ^ s;
  bi_rank : 0 < ba_rank ba;
  bi_max : ba_max ba = 2 ^ (ba_rank ba - 1) * ba_step ba;
  bi_dom i : 0 ≤ i < ba_rank ba → is_Some (ba_allocorMap ba !! (2 ^ i * ba_step ba));
  bi_wf key p : ba_allocorMap ba !! key = Some p → pool_wf key p;
}.

Lemma land_pred_pow2 n : 0 < n → Z.land n (n - 1) = 0 → n = 2 ^ Z.log2 n.
Proof.
  intros Hn Hl. destruct (Z.log2_spec n Hn) as [H1 H2].
  destruct (decide (n = 2 ^ Z.log2 n)) as [|Hne]; [done|exfalso].
  assert (Z.log2 (n - 1) = Z.log2 n) as E.
  { apply Z.log2_unique; [apply Z.log2_nonneg|]. lia. }
  assert (Z.testbit (Z.land n (n - 1)) (Z.log2 n) = true) as Hb.
  { rewrite Z.land_spec, Z.bit_log2 by lia. rewrite <-E, Z.bit_log2; [done|].
    pose proof (Z.log2_nonneg n). assert (1 ≤ 2 ^ Z.log2 n); [|lia].
    change 1 with (2 ^ 0). apply Z.pow_le_mono_r; lia. }
  rewrite Hl, Z.bits_0 in Hb. done.
Qed.

(** What the search loop finds: the first class that holds the request. *)
Lemma Get_loop_spec n i step size target m :
  0 ≤ i → 0 < step → Z.of_nat n = m - i →
  (i < m → size ≤ 2 ^ (m - 1) * step) → i < m →
  (i = 0 ∨ 2 ^ (i - 1) * step < size) →
  ∃ j, i ≤ j < m ∧ BytesAlloctor_Get_loop n i step size target = 2 ^ j * step ∧
       size ≤ 2 ^ j * step ∧ (j = 0 ∨ 2 ^ (j - 1) * step < size).
Proof.
  revert i target. induction n as [|n IH]; intros i target Hi Hs Hn Hm Him Hlow; [lia|].
  simpl. rewrite Z.shiftl_1_l. gcase.
  { exists i. split_and!; [lia..|done|lia|done]. }
  destruct (decide (i + 1 = m)) as [Hlast|].
  { specialize (Hm Him). replace (m - 1) with i in Hm by lia. lia. }
  destruct (IH (i + 1) (2 ^ i * step)) as (j & ? & -> & ? & ?); [lia..| |].
  { right. replace (i + 1 - 1) with i by lia. lia. }
  exists j. split_and!; [lia..|done|lia|done].
Qed.

Lemma pow2_class s k m : 0 ≤ s → 0 ≤ m → 2 ^ s < 2 ^ k → 2 ^ k ≤ 2 ^ m * 2 ^ s →
  ∃ j, 0 < j ≤ m ∧ 2 ^ k = 2 ^ j * 2 ^ s.
Proof.
  intros Hs Hm H1 H2.
  assert (0 ≤ k) by (apply Z.nlt_ge; intros ?; rewrite (Z.pow_neg_r 2 k) in H1 by lia; lia).
  apply Z.pow_lt_mono_r_iff in H1; [|lia..].
  rewrite <-Z.pow_add_r in H2 by lia. apply Z.pow_le_mono_r_iff in H2; [|lia..].
  exists (k - s). rewrite <-Z.pow_add_r by lia. split; [lia|f_equal; lia].
Qed.

Lemma Get_target_spec s ba n : BA_inv s ba → n ≤ ba_max ba →
  ∃ j, 0 ≤ j < ba_rank ba ∧ BytesAlloctor_Get_target ba n = 2 ^ j * ba_step ba ∧
       n ≤ 2 ^ j * ba_step ba ∧ (j = 0 ∨ 2 ^ (j - 1) * ba_step ba < n).
Proof.
  intros [Hs Hst Hr Hmax Hdom Hwf] Hn. unfold BytesAlloctor_Get_target.
  assert (0 < 2 ^ s) by (apply Z.pow_pos_nonneg; lia).
  gcase; [gcase|].
  - assert (n = 2 ^ Z.log2 n) as E by (apply land_pred_pow2; lia).
    destruct (pow2_class s (Z.log2 n) (ba_rank ba - 1)) as (j & ? & Hj); [lia..|].
    rewrite Hst, E, Hj. exists j. split_and!; [lia..|done|lia|].
    right. rewrite <-!Z.pow_add_r by lia. apply Z.pow_lt_mono_r; lia.
  - apply (Get_loop_spec _ _ _ _ _ (ba_rank ba)); lia.
  - exists 0. rewrite Z.mul_1_l. split_and!; [lia..|done|lia|by left].
Qed.

Lemma SyncPool_Get_wf key t p b p' : 0 ≤ key → pool_wf key p →
  SyncPool_Get t p = (b, p') → len b = key ∧ pool_wf key p'.
Proof.
  intros Hk [Hn Hf]. unfold SyncPool_Get.
  destruct (choose t (sp_free p)) as [i|]; simpl.
  - destruct (sp_free p !! i) as [b0|] eqn:E; simpl; intros; simplify_eq.
    + split; [by eapply Forall_lookup_1 in Hf|]. split; [done|]. simpl.
      by apply Forall_delete.
    + rewrite length_make_bytes by lia. done.
  - intros; simplify_eq. rewrite length_make_bytes by lia. done.
Qed.

(** Replacing the pool of one class by a well-formed one. *)
Lemma BA_inv_update s ba key p t : BA_inv s ba → pool_wf key p →
  BA_inv s (mkBytesAlloctor (ba_step ba) (ba_rank ba) (ba_max ba)
              (<[key := p]> (ba_allocorMap ba)) t).
Proof.
  intros [Hs Hst Hr Hmax Hdom Hwf] Hp. split; simpl; try done.
  - intros i Hi. rewrite lookup_insert. case_decide; eauto.
  - intros k q. rewrite lookup_insert. case_decide; [|apply Hwf].
    intros; simplify_eq. done.
Qed.

Lemma Get_class s ba n : BA_inv s ba → n ≤ ba_max ba →
  ∃ b ba' j, BytesAlloctor_Get ba n = Some (Some b, ba') ∧ BA_inv s ba' ∧ ba_max ba' = ba_max ba ∧
    0 ≤ j < ba_rank ba ∧ len b = 2 ^ j * ba_step ba ∧ n ≤ len b ∧
    (j = 0 ∨ 2 ^ (j - 1) * ba_step ba < n).
Proof.
  intros HI Hn. destruct (Get_target_spec s ba n HI Hn) as (j & Hj & Ht & Hle & Hlow).
  pose proof HI as [Hs Hst Hr Hmax Hdom Hwf]. unfold BytesAlloctor_Get. zb.
  destruct (Hdom j Hj) as [p Hp]. rewrite Ht, Hp. simpl.
  destruct (SyncPool_Get (ba_tick ba) p) as [b p'] eqn:E.
  assert (0 < 2 ^ j * ba_step ba) by (rewrite Hst; apply Z.mul_pos_pos; apply Z.pow_pos_nonneg; lia).
  apply (SyncPool_Get_wf (2 ^ j * ba_step ba)) in E as [Hb Hp']; [|lia|by apply Hwf].
  eexists b, _, j. split; [done|]. split; [by apply BA_inv_update|].
  split_and!; [done|lia..|done].
Qed.

Lemma Put_inv s ba b : BA_inv s ba → BA_inv s (BytesAlloctor_Put ba b) ∧ ba_max (BytesAlloctor_Put ba b) = ba_max ba.
Proof.
  intros HI. unfold BytesAlloctor_Put. repeat case_match; try done. split; [|done].
  apply BA_inv_update; [done|]. destruct (bi_wf _ _ HI _ _ H0) as [? ?].
  split; [done|]. simpl. by constructor.
Qed.

Lemma initialize_loop_inv s n i ba :
  0 ≤ s → 0 ≤ i → ba_step ba = 2 ^ s → 0 < ba_rank ba →
  ba_rank ba = i + Z.of_nat n →
  (0 < i → ba_max ba = 2 ^ (i - 1) * ba_step ba) →
  (∀ j, 0 ≤ j < i → is_Some (ba_allocorMap ba !! (2 ^ j * ba_step ba))) →
  (∀ key p, ba_allocorMap ba !! key = Some p → pool_wf key p) →
  BA_inv s (BytesAlloctor_initialize_loop n i ba).
Proof.
  revert i ba. induction n as [|n IH]; intros i ba Hs Hi Hst Hr Hn Hmax Hdom Hwf; simpl.
  { assert (i = ba_rank ba) as -> by lia. split; try done. apply Hmax. lia. }
  rewrite Z.shiftl_1_l. apply IH; simpl; try lia; try done.
  - intros _. f_equal. f_equal. lia.
  - intros j Hj. rewrite lookup_insert. case_decide; [eauto|]. apply Hdom.
    assert (j ≠ i) by congruence. lia.
  - intros key p. rewrite lookup_insert. case_decide; [|apply Hwf].
    intros; simplify_eq. done.
Qed.

Lemma Setup_inv rank : 0 < rank → ∃ ba, Setup rank = Some ba ∧ BA_inv 10 ba ∧
  ba_max ba = 2 ^ (rank - 1) * 1024.
Proof.
  intros Hr. unfold Setup, BytesAlloctor_initialize. simpl.
  eexists. split; [done|].
  match goal with |- BA_inv _ ?b ∧ _ => assert (BA_inv 10 b) as HI end.
  { apply initialize_loop_inv; simpl; try done; try lia. }
  split; [done|]. destruct HI as [? Hst Hrk -> ? ?]. rewrite Hst.
  assert (∀ n i ba, ba_rank (BytesAlloctor_initialize_loop n i ba) = ba_rank ba) as ->; [|done].
  clear. induction n; intros; simpl; [done|]. by rewrite IHn.
Qed.

#[export] Instance BA_Allocator : Allocator BytesAlloctor := {
  al_get := BytesAlloctor_Get; al_put := BytesAlloctor_Put }.

#[export] Instance BA_AllocatorLaws : AllocatorLaws BytesAlloctor.
Proof.
  refine {| al_inv := λ ba, ∃ s, BA_inv s ba; al_max := ba_max |}.
  - intros p n [s HI] Hn. destruct (Get_class s p n HI Hn) as (b & p' & j & ? & ? & ? & ? & ? & ? & _).
    exists b, p'.
    assert (0 < ba_step p) by (rewrite (bi_step _ _ HI); apply Z.pow_pos_nonneg; [lia|apply HI]).
    assert (0 < len b) by (simplify_eq; match goal with H : len b = _ |- _ => rewrite H end;
                           apply Z.mul_pos_pos; [apply Z.pow_pos_nonneg; lia|done]).
    assert (len b ≤ ba_max p).
    { rewrite (bi_max _ _ HI). match goal with H : len b = _ |- _ => rewrite H end.
      apply Z.mul_le_mono_nonneg_r; [lia|]. apply Z.pow_le_mono_r; lia. }
    split_and!; [done..|by eauto|done].
  - intros p n _ Hn. simpl. unfold BytesAlloctor_Get. by zb.
  - intros p b [s HI]. destruct (Put_inv s p b HI). eauto.
Defined.

(** The states of the allocator in a process: [Setup], then any [Get] and [Put]. *)
Inductive ba_reachable (rank : Z) : BytesAlloctor → Prop :=
| ba_setup ba : Setup rank = Some ba → ba_reachable rank ba
| ba_get ba n b ba' : ba_reachable rank ba → BytesAlloctor_Get ba n = Some (b, ba') → ba_reachable rank ba'
| ba_put ba b : ba_reachable rank ba → ba_reachable rank (BytesAlloctor_Put ba b).

Lemma ba_reachable_inv rank ba : 0 < rank → ba_reachable rank ba →
  BA_inv 10 ba ∧ ba_max ba = 2 ^ (rank - 1) * 1024.
Proof.
  intros Hr. induction 1 as [ba E|ba n b ba' _ [HI Hm] E|ba b _ [HI Hm]].
  - destruct (Setup_inv rank Hr) as (ba' & E' & ?). by simplify_eq.
  - destruct (Z.le_gt_cases n (ba_max ba)) as [Hn|Hn].
    + destruct (Get_class 10 ba n HI Hn) as (? & ? & ? & E' & ? & ? & _). simplify_eq.
      split; [done|congruence].
    + unfold BytesAlloctor_Get in E. rewrite (proj2 (Z.ltb_lt _ _) Hn) in E. by simplify_eq.
  - destruct (Put_inv 10 ba b HI) as [? E]. split; [done|congruence].
Qed.

(** In every state a process can bring the allocator to, [Get n] hands out a
    buffer of the smallest size class [2^j * 1024] that holds [n] bytes (so less
    than twice the request is allocated above the first class), and returns [nil]
    exactly when [n] exceeds the largest class; it never panics on a missing
    class, whatever was [Put] before. *)
Theorem pool_get_smallest_class (rank : Z) (ba : BytesAlloctor) (n : Z) :
  0 < rank → ba_reachable rank ba →
  if 2 ^ (rank - 1) * 1024 <? n then BytesAlloctor_Get ba n = Some (None, ba)
  else ∃ b ba' j, BytesAlloctor_Get ba n = Some (Some b, ba') ∧ ba_reachable rank ba' ∧
    0 ≤ j < rank ∧ len b = 2 ^ j * 1024 ∧ n ≤ len b ∧ (j = 0 ∨ len b < 2 * n).
Proof.
  intros Hr Hba. destruct (ba_reachable_inv rank ba Hr Hba) as [HI Hm]. rewrite <-Hm. gcase.
  { unfold BytesAlloctor_Get. by zb. }
  destruct (Get_class 10 ba n HI) as (b & ba' & j & E & HI' & Hm' & Hj & Hb & Hn & Hlow); [lia|].
  pose proof (bi_step _ _ HI) as Hst. pose proof (bi_max _ _ HI) as Hmx.
  exists b, ba', j. rewrite Hst in Hb, Hlow. change (2 ^ 10) with 1024 in Hb, Hlow.
  assert (ba_rank ba = rank).
  { rewrite Hst, Hm in Hmx. change (2 ^ 10) with 1024 in Hmx.
    pose proof (bi_rank _ _ HI). assert (2 ^ (rank - 1) = 2 ^ (ba_rank ba - 1)) as Hp by lia.
    apply Z.pow_inj_r in Hp; lia. }
  split_and!; [done|by eapply ba_get|lia..|done|done|].
  destruct Hlow as [|Hlow]; [by left|]. destruct (decide (j = 0)) as [->|]; [by left|right].
  rewrite Hb. replace j with (Z.succ (j - 1)) by lia. rewrite Z.pow_succ_r by lia. lia.
Qed.

End Alloctor.

Lemma pool_get_smallest_class_witness :
  ∃ ba, Setup 17 = Some ba ∧
    ∃ b ba' j, BytesAlloctor_Get (λ _ _, None) ba 3000 = Some (Some b, ba') ∧
      ba_reachable (λ _ _, None) 17 ba' ∧
      0 ≤ j < 17 ∧ len b = 2 ^ j * 1024 ∧ 3000 ≤ len b ∧ (j = 0 ∨ len b < 2 * 3000).
Proof.
  eexists. split; [reflexivity|].
  exact (pool_get_smallest_class (λ _ _, None) 17 _ 3000 eq_refl (ba_setup _ 17 _ eq_refl)).
Defined.

(** A concrete allocator: four classes of 1024 to 8192 bytes that never reuse a buffer. *)
Definition test_pool : BytesAlloctor := default (mkBytesAlloctor 0 0 0 ∅ 0%nat) (Setup 4).
Definition test_choose (t : nat) (free : list (list Z)) : option nat := None.
Definition test_Allocator : Allocator BytesAlloctor := BA_Allocator test_choose.
Definition test_AllocatorLaws : AllocatorLaws BytesAlloctor := BA_AllocatorLaws test_choose.

#[local] Existing Instances test_Allocator test_AllocatorLaws.

Lemma test_pool_inv : al_inv test_pool.
Proof. destruct (Setup_inv 4 eq_refl) as (ba & E & HI & _). exists 10. unfold test_pool. by rewrite E. Qed.
