(* ===== verification/Tuning.v ===== *)
(** * tuning/tuning.go, tuning/websocket.go: budgets and limits

    The package's mutable globals are one record, [Globals], passed to the
    operations that read them; [Apply] and [ApplyName] are the functions that
    overwrite them. *)

From stdpp Require Import strings gmap.
From S2P Require Import Prelude.

Record EventLoop := mkEventLoop {
  MaxAcceptPerEvent : Z;
  MaxReadBytesPerEvent : Z;
  MaxFlushBytesPerEvent : Z;
  MaxCmdPerEvent : Z;
  MaxCmdFlushConnsPerEvent : Z;
  AcceptSocketNoDelay : bool;
  AcceptSocketSendBufBytes : Z;
  TlsHandshakeWorkers : Z;
  TlsHandshakeQueueSize : Z;
  TlsHandshakeMaxPending : Z;
}.

Record Connection := mkConnection {
  WriteQueueCoalesceMaxBytes : Z;
  WriteQueueCompactMaxBytes : Z;
  WriteQueueShrinkCap : Z;
}.

Record Profile := mkProfile {
  Name : string;
  p_EventLoop : EventLoop;
  p_Connection : Connection;
}.

(** The websocket knobs; 0 means unlimited. *)
Record WSKnobs := mkWSKnobs {
  WSRequireClientMask : bool;
  WSMaxFramePayloadBytes : Z;
  WSMaxMessageBytes : Z;
}.

Definition default_ws : WSKnobs := mkWSKnobs true (16 * 1024 * 1024) (16 * 1024 * 1024).

(** The live globals of the package. *)
Record Globals := mkGlobals { g_loop : EventLoop; g_conn : Connection; g_ws : WSKnobs }.

Definition initial_globals : Globals :=
  mkGlobals
    (mkEventLoop 128 (256 * 1024) (256 * 1024) 1024 1024 true 0 0 1024 4096)
    (mkConnection 128 (4 * 1024) (4 * 1024))
    default_ws.

Definition ProfileBalanced : Profile :=
  mkProfile "balanced"
    (mkEventLoop 128 (256 * 1024) (256 * 1024) 1024 1024 true 0 0 1024 4096)
    (mkConnection 128 (4 * 1024) (4 * 1024)).

Definition ProfileThroughput : Profile :=
  mkProfile "throughput"
    (mkEventLoop 256 (512 * 1024) (512 * 1024) 2048 2048 true 0 0 2048 8192)
    (mkConnection 512 (16 * 1024) (4 * 1024)).

Definition ProfileLatency : Profile :=
  mkProfile "latency"
    (mkEventLoop 64 (64 * 1024) (128 * 1024) 512 512 true 0 0 1024 4096)
    (mkConnection 256 (8 * 1024) (2 * 1024)).

Definition ProfileGateway : Profile :=
  mkProfile "gateway"
    (mkEventLoop 128 (64 * 1024) (128 * 1024) 512 512 true 0 0 1024 4096)
    (mkConnection 256 (8 * 1024) (2 * 1024)).

Definition DefProfiles : gmap string Profile :=
  {[ "balanced" := ProfileBalanced; "throughput" := ProfileThroughput;
     "latency" := ProfileLatency; "gateway" := ProfileGateway ]}.

Definition Apply (p : Profile) (g : Globals) : Globals :=
  mkGlobals (p_EventLoop p) (p_Connection p) (g_ws g).

Definition ApplyName (name : string) (g : Globals) : Globals * bool :=
  match DefProfiles !! name with
  | None => (g, false)
  | Some p => (Apply p g, true)
  end.

(** The budgets with which the event loop makes progress: each poll may accept,
    read, flush and run commands, the handshake queue has room, and small
    writes may be coalesced into the tail that compaction can move. *)
Definition budgets_ok (g : Globals) : Prop :=
  let e := g_loop g in let c := g_conn g in
  0 < MaxAcceptPerEvent e ∧ 0 < MaxReadBytesPerEvent e ∧ 0 < MaxFlushBytesPerEvent e ∧
  0 < MaxCmdPerEvent e ∧ 0 < MaxCmdFlushConnsPerEvent e ∧
  0 < TlsHandshakeQueueSize e ∧ TlsHandshakeQueueSize e ≤ TlsHandshakeMaxPending e ∧
  0 < WriteQueueCoalesceMaxBytes c ∧ WriteQueueCoalesceMaxBytes c ≤ WriteQueueCompactMaxBytes c ∧
  0 < WriteQueueShrinkCap c.

#[export] Instance budgets_ok_dec g : Decision (budgets_ok g).
Proof. unfold budgets_ok. apply _. Defined.

Lemma ApplyName_cases (name : string) g : budgets_ok g → budgets_ok (fst (ApplyName name g)).
Proof.
  intros Hg. unfold ApplyName. destruct (DefProfiles !! name) as [p|] eqn:E; [|done].
  assert (map_Forall (λ _ p, budgets_ok (Apply p g)) DefProfiles) as H.
  { unfold DefProfiles. repeat (apply map_Forall_insert_2; [vm_compute; intuition discriminate|]).
    apply map_Forall_empty. }
  apply (H name p E).
Qed.

(** Whatever sequence of profile names a program applies to the initial
    globals, known or not, every budget of the event loop stays positive and the
    handshake queue never exceeds the admission limit. *)
Theorem tuning_budgets_positive (names : list string) :
  budgets_ok (foldl (λ g n, fst (ApplyName n g)) initial_globals names).
Proof.
  assert (budgets_ok initial_globals) as H0 by (vm_compute; intuition discriminate).
  revert H0. generalize initial_globals. induction names as [|n names IH]; intros g Hg; [done|].
  simpl. by apply IH, ApplyName_cases.
Qed.
