(* ===== verification/RingBuffer.v ===== *)
(** * ringbuffer/ringbuffer.go: the circular byte buffer

    [r] and [w] are absolute positions; position [x] is stored at index
    [x % size].  The abstraction [contents] is the byte queue between [r] and
    [w]; every operation is shown to be the operation of a queue on it. *)

From S2P Require Import Prelude Pool.

Record RingBuffer := mkRingBuffer {
  rb_buf : list Z;
  rb_size : Z;
  rb_r : Z;   (* next position to read *)
  rb_w : Z;   (* next position to write *)
}.

Definition OpRead : Z := 0.
Definition OpWrite : Z := 1.

Definition RingBufferGuardByteSize : Z := 8 * 1024 * 1024.

Definition NewRingBuffer : RingBuffer := mkRingBuffer [] 0 0 0.

Definition rb_set_pos (rb : RingBuffer) (r w : Z) : RingBuffer :=
  mkRingBuffer (rb_buf rb) (rb_size rb) r w.

(** [dst] after [copy(dst, ...)] of the [n] readable bytes that start at index
    [start], in one piece or in two when they wrap: the copy that [Read],
    [AlignBytes] and [resize] make. *)
Definition copy_out (rb : RingBuffer) (dst : list Z) (start n : Z) : option (list Z) :=
  if start + n <? rb_size rb then
    s ← slice (rb_buf rb) start (start + n);
    copy_at dst 0 s
  else
    let copyed := rb_size rb - start in
    s1 ← slice (rb_buf rb) start (rb_size rb);
    d1 ← copy_at dst 0 s1;
    s2 ← slice (rb_buf rb) 0 (n - copyed);
    copy_at d1 copyed s2.

(** Result: the buffer after the call, the caller's slice after the call, and
    the value returned. *)
Definition RingBuffer_Read (rb : RingBuffer) (p : list Z) (length : Z) (update : bool) :
    option (RingBuffer * list Z * Z) :=
  if (len p =? 0) || (len p <? length) then Some (rb, p, -1)
  else if rb_w rb =? rb_r rb then Some (rb, p, 0)
  else
    let n := rb_w rb - rb_r rb in
    let n := if length <? n then length else n in
    start ← go_rem (rb_r rb) (rb_size rb);
    p' ← copy_out rb p start n;
    Some (if update then rb_set_pos rb (rb_r rb + n) (rb_w rb) else rb, p', n).

Definition RingBuffer_Forward (rb : RingBuffer) (step mode : Z) : RingBuffer * Z :=
  if mode =? OpRead then
    if rb_w rb <? rb_r rb + step then (rb, -1)
    else
      let r := rb_r rb + step in
      if r =? rb_w rb then (rb_set_pos rb 0 0, 0) else (rb_set_pos rb r (rb_w rb), 0)
  else
    if rb_size rb <? rb_w rb + step - rb_r rb then (rb, -1)
    else (rb_set_pos rb (rb_r rb) (rb_w rb + step), 0).

Definition RingBuffer_Capacity (rb : RingBuffer) : Z := rb_size rb.

Definition RingBuffer_Has (rb : RingBuffer) : Z := rb_w rb - rb_r rb.

Definition RingBuffer_Free (rb : RingBuffer) : Z := rb_size rb - (rb_w rb - rb_r rb).

Definition RingBuffer_Truncate (rb : RingBuffer) : RingBuffer := rb_set_pos rb 0 0.

(** The two slices returned by [Peek2]; [nil] is the empty list. *)
Definition RingBuffer_Peek2 (rb : RingBuffer) : option (list Z * list Z) :=
  if (rb_size rb =? 0) || (rb_w rb =? rb_r rb) then Some ([], [])
  else
    let n := rb_w rb - rb_r rb in
    start ← go_rem (rb_r rb) (rb_size rb);
    if start + n <=? rb_size rb then
      head ← slice (rb_buf rb) start (start + n); Some (head, [])
    else
      head ← slice (rb_buf rb) start (rb_size rb);
      tail ← slice (rb_buf rb) 0 (start + n - rb_size rb);
      Some (head, tail).

Section Alloc.
Context {P : Type} `{!Allocator P}.

(** A slice returned by the allocator, [nil] being the empty slice. *)
Definition buf_of (b : option (list Z)) : list Z := default [] b.

Definition RingBuffer_resize (pool : P) (rb : RingBuffer) (resize : Z) :
    option (P * RingBuffer * Z) :=
  '(b, pool) ← al_get pool resize;
  match b with
  | None => Some (pool, rb, -1)
  | Some buf =>
      let n := rb_w rb - rb_r rb in
      '(buf, w) ← (if 0 <? n then
                     start ← go_rem (rb_r rb) (rb_size rb);
                     buf' ← copy_out rb buf start n;
                     Some (buf', n)
                   else Some (buf, 0));
      let pool := al_put pool (rb_buf rb) in
      Some (pool, mkRingBuffer buf (len buf) 0 w, 0)
  end.

(** [r.buf = Get(length); r.size = len(r.buf)] when the buffer has no storage yet. *)
Definition RingBuffer_Write (pool : P) (rb : RingBuffer) (p : list Z) (length : Z)
    (update : bool) : option (P * RingBuffer * Z) :=
  '(pool, rb) ← (if rb_size rb =? 0 then
                   '(b, pool) ← al_get pool length;
                   Some (pool, mkRingBuffer (buf_of b) (len (buf_of b)) (rb_r rb) (rb_w rb))
                 else Some (pool, rb));
  if (len p =? 0) || (len p <? length) then Some (pool, rb, -1)
  else
    let avail := rb_size rb - (rb_w rb - rb_r rb) in
    '(pool, rb, rc) ← (if avail <? length
                       then RingBuffer_resize pool rb (length - avail + rb_size rb)
                       else Some (pool, rb, 0));
    if rc <? 0 then Some (pool, rb, -2)
    else
      start ← go_rem (rb_w rb) (rb_size rb);
      buf ← (if start + length <? rb_size rb then copy_at (rb_buf rb) start p
             else
               let copyed := rb_size rb - start in
               s1 ← slice p 0 copyed;
               b1 ← copy_at (rb_buf rb) start s1;
               s2 ← slice p copyed (len p);
               copy_at b1 0 s2);
      Some (pool, mkRingBuffer buf (rb_size rb) (rb_r rb)
                    (if update then rb_w rb + length else rb_w rb), length).

Definition RingBuffer_Reset (pool : P) (rb : RingBuffer) : P * RingBuffer :=
  (al_put pool (rb_buf rb), mkRingBuffer [] 0 0 0).

(** [PeekWrite] returns a window of the buffer: the offset and the length of the
    slice [r.buf[off : off+n]], [None] for [nil]. *)
Definition RingBuffer_PeekWrite (pool : P) (rb : RingBuffer) (length : Z) :
    option (P * RingBuffer * option (Z * Z)) :=
  if length <=? 0 then Some (pool, rb, None)
  else
    '(pool, rb, ok) ← (if rb_size rb =? 0 then
        '(b, pool) ← al_get pool length;
        match b with
        | None => Some (pool, mkRingBuffer [] (rb_size rb) (rb_r rb) (rb_w rb), false)
        | Some buf => Some (pool, mkRingBuffer buf (len buf) 0 0, true)
        end
      else Some (pool, rb, true));
    if negb ok then Some (pool, rb, None)
    else
      let avail := rb_size rb - (rb_w rb - rb_r rb) in
      '(pool, rb, rc) ← (if avail <? length
                         then RingBuffer_resize pool rb (length - avail + rb_size rb)
                         else Some (pool, rb, 0));
      if rc <? 0 then Some (pool, rb, None)
      else
        start ← go_rem (rb_w rb) (rb_size rb);
        if start + length <=? rb_size rb
        then Some (pool, rb, Some (start, length))
        else Some (pool, rb, Some (start, rb_size rb - start)).

(** What the caller of [PeekWrite] does with the window: it stores [data] at its
    beginning. *)
Definition fill_window (rb : RingBuffer) (off : Z) (data : list Z) : RingBuffer :=
  mkRingBuffer (blit (rb_buf rb) off data) (rb_size rb) (rb_r rb) (rb_w rb).

(** [AlignBytes] returns [r.buf] itself. *)
Definition RingBuffer_AlignBytes (pool : P) (rb : RingBuffer) :
    option (P * RingBuffer * list Z) :=
  start ← go_rem (rb_r rb) (rb_size rb);
  if start =? 0 then Some (pool, rb, rb_buf rb)
  else
    '(b, pool) ← al_get pool (rb_size rb);
    let buf := buf_of b in
    let n := rb_w rb - rb_r rb in
    '(buf, w) ← (if 0 <? n then buf' ← copy_out rb buf start n; Some (buf', n)
                 else Some (buf, 0));
    let pool := al_put pool (rb_buf rb) in
    Some (pool, mkRingBuffer buf (rb_size rb) 0 w, buf).

Definition RingBuffer_Update (pool : P) (rb : RingBuffer) (buf : list Z) : P * RingBuffer :=
  (al_put pool (rb_buf rb), mkRingBuffer buf (len buf) 0 0).

End Alloc.

(** ** The abstraction and the invariant *)

(** The readable bytes, oldest first: the storage rotated to the read index, cut
    to the number of readable bytes. *)
Definition contents (rb : RingBuffer) : list Z :=
  let start := rb_r rb mod rb_size rb in
  take (Z.to_nat (rb_w rb - rb_r rb))
    (sub (rb_buf rb) start (rb_size rb) ++ sub (rb_buf rb) 0 start).

Record rb_wf (rb : RingBuffer) : Prop := {
  rw_size : 0 ≤ rb_size rb ≤ len (rb_buf rb);
  rw_pos : 0 ≤ rb_r rb ≤ rb_w rb;
  rw_fit : rb_w rb - rb_r rb ≤ rb_size rb;
}.

(** ** Reading and writing modulo the size *)

Lemma lookup_rot (buf : list Z) size start k : 0 ≤ start < size → size ≤ len buf → 0 ≤ k < size →
  (sub buf start size ++ sub buf 0 start) !! Z.to_nat k = buf !! Z.to_nat ((start + k) mod size).
Proof.
  intros Hs Hb Hk. rewrite lookup_app_dec.
  pose proof (length_sub buf start size ltac:(lia) Hb). case_decide.
  - rewrite lookup_sub by lia. rewrite decide_True by lia.
    rewrite Z.mod_small by lia. f_equal. lia.
  - rewrite lookup_sub by lia. rewrite decide_True by lia.
    replace ((start + k) mod size) with (start + k - size); [f_equal; lia|].
    apply Z.mod_unique_pos with 1; lia.
Qed.

Lemma lookup_contents rb k : rb_wf rb →
  contents rb !! k =
  if decide (Z.of_nat k < rb_w rb - rb_r rb)
  then rb_buf rb !! Z.to_nat ((rb_r rb + Z.of_nat k) mod rb_size rb) else None.
Proof.
  intros [Hs Hp Hf]. unfold contents. rewrite lookup_take.
  repeat case_decide; try done; try lia.
  assert (0 ≤ rb_r rb mod rb_size rb < rb_size rb) by (apply Z.mod_pos_bound; lia).
  rewrite <-(Nat2Z.id k) at 1. rewrite lookup_rot by lia.
  by rewrite Zplus_mod_idemp_l.
Qed.

Lemma length_contents rb : rb_wf rb → len (contents rb) = rb_w rb - rb_r rb.
Proof.
  intros [Hs Hp Hf]. unfold contents.
  destruct (decide (rb_size rb = 0)) as [E|].
  { replace (rb_w rb - rb_r rb) with 0 by lia. done. }
  assert (0 ≤ rb_r rb mod rb_size rb < rb_size rb) by (apply Z.mod_pos_bound; lia).
  rewrite length_take, length_app.
  pose proof (length_sub (rb_buf rb) (rb_r rb mod rb_size rb) (rb_size rb) ltac:(lia) ltac:(lia)).
  pose proof (length_sub (rb_buf rb) 0 (rb_r rb mod rb_size rb) ltac:(lia) ltac:(lia)).
  lia.
Qed.

(** Two well-formed buffers have the same contents when they have as many
    readable bytes and agree on each of them. *)
Lemma contents_eq rb (l : list Z) : rb_wf rb → len l = rb_w rb - rb_r rb →
  (∀ k, (k < length l)%nat →
     rb_buf rb !! Z.to_nat ((rb_r rb + Z.of_nat k) mod rb_size rb) = l !! k) →
  contents rb = l.
Proof.
  intros Hwf Hl Hk. apply list_eq; intros k. rewrite lookup_contents by done.
  case_decide; [apply Hk; lia|]. symmetry. apply lookup_ge_None_2. lia.
Qed.

Lemma contents_nil rb : rb_w rb = rb_r rb → contents rb = [].
Proof. intros E. unfold contents. by replace (rb_w rb - rb_r rb) with 0 by lia. Qed.

(** When the read index is 0 the contents are a prefix of the storage. *)
Lemma contents_aligned rb : rb_wf rb → rb_r rb mod rb_size rb = 0 →
  contents rb = take (Z.to_nat (rb_w rb - rb_r rb)) (rb_buf rb).
Proof.
  intros [Hs Hp Hf] E. unfold contents. rewrite E, (sub_nil _ 0 0), app_nil_r by lia.
  rewrite sub_prefix, take_take. f_equal. lia.
Qed.

Lemma blit_blit (d a b : list Z) : len a + len b ≤ len d →
  blit (blit d 0 a) (len a) b = blit d 0 (a ++ b).
Proof.
  intros H. apply list_eq; intros k.
  rewrite !lookup_blit by (rewrite ?length_blit; lia).
  rewrite length_blit, length_app, lookup_app_dec by lia.
  repeat case_decide; try lia; try done. f_equal; lia.
Qed.

Lemma copy_out_contents rb dst n : rb_wf rb → 0 < n ≤ rb_w rb - rb_r rb → n ≤ len dst →
  copy_out rb dst (rb_r rb mod rb_size rb) n =
  Some (blit dst 0 (take (Z.to_nat n) (contents rb))).
Proof.
  intros [Hs Hp Hf] Hn Hd. unfold copy_out, contents.
  assert (0 ≤ rb_r rb mod rb_size rb < rb_size rb) by (apply Z.mod_pos_bound; lia).
  set (start := rb_r rb mod rb_size rb) in *. clearbody start.
  rewrite take_take, Nat.min_l by lia.
  pose proof (length_sub (rb_buf rb) start (rb_size rb) ltac:(lia) ltac:(lia)).
  gcase.
  - rewrite slice_Some by lia. simpl. rewrite copy_at_Some by lia. do 2 f_equal.
    rewrite take_app_le by lia. unfold sub. rewrite take_take. f_equal. lia.
  - rewrite (slice_Some (rb_buf rb) start) by lia. simpl. rewrite copy_at_Some by lia. simpl.
    rewrite slice_Some by lia. simpl.
    pose proof (length_sub (rb_buf rb) 0 (n - (rb_size rb - start)) ltac:(lia) ltac:(lia)).
    rewrite copy_at_Some by (rewrite length_blit; lia). f_equal.
    replace (rb_size rb - start) with (len (sub (rb_buf rb) start (rb_size rb))) at 1 by lia.
    rewrite blit_blit by lia. f_equal. rewrite take_app_ge by lia. f_equal.
    rewrite !sub_prefix, take_take. f_equal. lia.
Qed.

(** ** The operations on the queue *)

Lemma Read_spec rb p length update : rb_wf rb → 0 < length ≤ len p →
  let n := Z.min length (rb_w rb - rb_r rb) in
  ∃ rb', RingBuffer_Read rb p length update =
    Some (rb', blit p 0 (take (Z.to_nat n) (contents rb)), n) ∧
    rb_wf rb' ∧ rb_size rb' = rb_size rb ∧ rb_buf rb' = rb_buf rb ∧
    contents rb' = if update then drop (Z.to_nat n) (contents rb) else contents rb.
Proof.
  intros Hwf Hl n. unfold RingBuffer_Read. zb.
  pose proof Hwf as [Hs Hp Hf]. gcase.
  { exists rb. subst n. rewrite contents_nil by lia.
    replace (Z.min length _) with 0 by lia. split_and!; try done; [|by destruct update].
    rewrite blit_front by (simpl; lia). done. }
  rewrite go_rem_Some by lia. simpl.
  replace (if length <? _ then _ else _) with n by (subst n; gcase; lia).
  rewrite copy_out_contents by (done || lia). simpl.
  eexists. split; [done|]. destruct update; [|done]. split_and!; try done.
  { split; simpl; lia. }
  apply contents_eq; [split; simpl; lia| |].
  { pose proof (length_contents rb Hwf). simpl. llia. }
  intros k Hk. simpl. rewrite lookup_drop, lookup_contents by done.
  pose proof (length_contents rb Hwf). rewrite length_drop in Hk.
  rewrite decide_True by lia. do 3 f_equal. lia.
Qed.

Lemma Peek2_spec rb : rb_wf rb → ∃ head tail, RingBuffer_Peek2 rb = Some (head, tail) ∧
  head ++ tail = contents rb ∧ (head = [] → contents rb = []).
Proof.
  intros [Hs Hp Hf]. unfold RingBuffer_Peek2. gcase.
  { exists [], []. rewrite contents_nil by lia. done. }
  rewrite go_rem_Some by lia. simpl. unfold contents.
  assert (0 ≤ rb_r rb mod rb_size rb < rb_size rb) by (apply Z.mod_pos_bound; lia).
  set (start := rb_r rb mod rb_size rb) in *. clearbody start.
  pose proof (length_sub (rb_buf rb) start (rb_size rb) ltac:(lia) ltac:(lia)).
  set (n := rb_w rb - rb_r rb) in *. assert (0 < n) by lia. clearbody n.
  gcase.
  - rewrite slice_Some by lia. eexists _, _. split; [done|]. rewrite app_nil_r.
    rewrite take_app_le by lia.
    assert (take (Z.to_nat n) (sub (rb_buf rb) start (rb_size rb)) = sub (rb_buf rb) start (start + n)) as ->.
    { unfold sub. rewrite take_take. f_equal. lia. }
    done.
  - rewrite !slice_Some by lia. eexists _, _. split; [done|].
    rewrite take_app_ge by lia. rewrite !sub_prefix, take_take.
    split; [do 2 f_equal; lia|]. intros E. rewrite E in *. simpl in *. lia.
Qed.

Lemma Forward_read_spec rb n : rb_wf rb → 0 ≤ n ≤ rb_w rb - rb_r rb →
  ∃ rb', RingBuffer_Forward rb n OpRead = (rb', 0) ∧ rb_wf rb' ∧
    rb_size rb' = rb_size rb ∧ contents rb' = drop (Z.to_nat n) (contents rb).
Proof.
  intros Hwf Hn. pose proof Hwf as [Hs Hp Hf]. unfold RingBuffer_Forward. simpl. zb.
  pose proof (length_contents rb Hwf). gcase.
  - eexists. split; [done|]. split; [split; simpl; lia|]. split; [done|].
    rewrite contents_nil by done. symmetry. apply drop_ge. lia.
  - eexists. split; [done|]. split; [split; simpl; lia|]. split; [done|].
    apply contents_eq; [split; simpl; lia|simpl; llia|].
    intros k Hk. simpl. rewrite lookup_drop, lookup_contents by done.
    rewrite length_drop in Hk. rewrite decide_True by lia. do 3 f_equal. lia.
Qed.

(** The bytes of the window handed out by [PeekWrite], or written by [Write],
    seen from the queue: storing [p] at the write position (modulo the size)
    and moving [w] appends [p]. *)
Lemma contents_append rb (buf' p : list Z) :
  rb_wf rb → 0 < rb_size rb → rb_w rb - rb_r rb + len p ≤ rb_size rb →
  length buf' = length (rb_buf rb) →
  (∀ i, 0 ≤ i < rb_size rb →
     buf' !! Z.to_nat i =
     if decide ((i - rb_w rb) mod rb_size rb < len p)
     then p !! Z.to_nat ((i - rb_w rb) mod rb_size rb) else rb_buf rb !! Z.to_nat i) →
  let rb' := mkRingBuffer buf' (rb_size rb) (rb_r rb) (rb_w rb + len p) in
  rb_wf rb' ∧ contents rb' = contents rb ++ p.
Proof.
  intros Hwf Hs0 Hfit Hlen Hb rb'. pose proof Hwf as [Hs Hp Hf].
  assert (rb_wf rb') as Hwf' by (split; simpl; lia). split; [done|].
  pose proof (length_contents rb Hwf) as Hlc.
  apply contents_eq; [done|simpl; rewrite length_app; lia|].
  intros k Hk. rewrite length_app in Hk. simpl.
  rewrite Hb by (apply Z.mod_pos_bound; lia). rewrite Zminus_mod_idemp_l.
  rewrite lookup_app_dec. destruct (decide (k < length (contents rb))%nat).
  - assert ((rb_r rb + Z.of_nat k - rb_w rb) mod rb_size rb
            = rb_r rb + Z.of_nat k - rb_w rb + rb_size rb) as ->.
    { symmetry. apply Z.mod_unique_pos with (-1); lia. }
    rewrite decide_False by lia. rewrite lookup_contents by done.
    by rewrite decide_True by lia.
  - rewrite (Z.mod_small (rb_r rb + Z.of_nat k - rb_w rb)) by lia.
    rewrite decide_True by lia. f_equal. lia.
Qed.

Section AllocLemmas.
Context {P : Type} `{!Allocator P, !AllocatorLaws P}.
Implicit Types (pool : P).

(** Storage obtained by copying the contents to the front of a new buffer. *)
Lemma contents_front buf size n l : 0 ≤ n → n = len l → n ≤ size ≤ len buf →
  let rb' := mkRingBuffer (blit buf 0 l) size 0 n in
  rb_wf rb' ∧ contents rb' = l.
Proof.
  intros Hn -> Hs rb'. assert (rb_wf rb') as Hwf.
  { split; simpl; rewrite ?length_blit; lia. }
  split; [done|]. rewrite contents_aligned; [|done|simpl; by rewrite Zmod_0_l].
  simpl. rewrite blit_front by lia. apply take_app_length'. lia.
Qed.

(** A buffer whose storage came from the allocator. *)
Definition rb_ok pool rb : Prop := rb_wf rb ∧ rb_size rb ≤ al_max pool.

(** Whether the allocator can hold [n] more bytes than are readable. *)
Definition rb_room pool rb (n : Z) : Prop := len (contents rb) + n ≤ al_max pool.

#[local] Instance rb_room_dec pool rb n : Decision (rb_room pool rb n).
Proof. unfold rb_room. apply _. Defined.

Lemma resize_spec pool rb n : al_inv pool → rb_wf rb → rb_w rb - rb_r rb ≤ n → n ≤ al_max pool →
  ∃ pool' rb', RingBuffer_resize pool rb n = Some (pool', rb', 0) ∧ al_inv pool' ∧
    al_max pool' = al_max pool ∧ rb_ok pool rb' ∧ n ≤ rb_size rb' ∧ 0 < rb_size rb' ∧
    contents rb' = contents rb.
Proof.
  intros Hinv Hwf Hn Hmax. unfold RingBuffer_resize.
  destruct (al_get_some pool n Hinv Hmax) as (buf & pool' & -> & Hb & Hb0 & Hinv' & Hmax').
  simpl. pose proof Hwf as [Hs Hp Hf]. pose proof (length_contents rb Hwf) as Hlc.
  destruct (al_put_inv pool' (rb_buf rb) Hinv') as [? ?].
  gcase.
  - rewrite go_rem_Some by lia. simpl. rewrite copy_out_contents by (done || lia). simpl.
    rewrite length_blit by lia. rewrite (take_ge (contents rb)) by lia.
    destruct (contents_front buf (len buf) (rb_w rb - rb_r rb) (contents rb)); [lia..|].
    eexists _, _. split; [done|]. unfold rb_ok. simpl. split_and!; try done; lia || congruence.
  - simpl. eexists _, _. split; [done|]. unfold rb_ok. simpl. split_and!; try done; try (lia || congruence).
    + split; simpl; lia.
    + rewrite !contents_nil by (simpl; lia). done.
Qed.

Lemma resize_nil pool rb n : al_inv pool → al_max pool < n →
  RingBuffer_resize pool rb n = Some (pool, rb, -1).
Proof. intros. unfold RingBuffer_resize. by rewrite al_get_nil. Qed.

(** The storage after the copy of [Write], index by index. *)
Lemma write_storage rb p i : rb_wf rb → 0 < rb_size rb →
  0 < len p → rb_w rb - rb_r rb + len p ≤ rb_size rb →
  ∃ buf', (if rb_w rb mod rb_size rb + len p <? rb_size rb
           then copy_at (rb_buf rb) (rb_w rb mod rb_size rb) p
           else
             let copyed := rb_size rb - rb_w rb mod rb_size rb in
             s1 ← slice p 0 copyed;
             b1 ← copy_at (rb_buf rb) (rb_w rb mod rb_size rb) s1;
             s2 ← slice p copyed (len p);
             copy_at b1 0 s2) = Some buf' ∧
  length buf' = length (rb_buf rb) ∧
  (0 ≤ i < rb_size rb → buf' !! Z.to_nat i =
     if decide ((i - rb_w rb) mod rb_size rb < len p)
     then p !! Z.to_nat ((i - rb_w rb) mod rb_size rb) else rb_buf rb !! Z.to_nat i).
Proof.
  intros [Hs Hp Hf] Hs0 Hlp Hfit.
  rewrite <-(Zminus_mod_idemp_r i (rb_w rb)).
  assert (0 ≤ rb_w rb mod rb_size rb < rb_size rb) as Hst by (apply Z.mod_pos_bound; lia).
  set (st := rb_w rb mod rb_size rb) in *. clearbody st.
  assert (0 ≤ i < rb_size rb → (i - st) mod rb_size rb = if decide (st ≤ i) then i - st else i - st + rb_size rb) as Hmod.
  { intros Hi. case_decide; [apply Z.mod_small; lia|].
    symmetry. apply Z.mod_unique_pos with (-1); lia. }
  destruct (Z.ltb_spec (st + len p) (rb_size rb)).
  - rewrite copy_at_Some by lia. eexists. split; [done|]. rewrite length_blit by lia.
    split; [done|]. intros Hi. rewrite (Hmod Hi), lookup_blit by lia.
    repeat case_decide; try lia; try done. f_equal; lia.
  - simpl. rewrite !slice_Some by lia. simpl. rewrite copy_at_Some by lia. simpl.
    rewrite copy_at_Some by (rewrite length_blit; lia).
    eexists. split; [done|]. rewrite !length_blit by (rewrite ?length_blit; lia).
    split; [done|]. intros Hi. rewrite (Hmod Hi).
    pose proof (length_sub p 0 (rb_size rb - st) ltac:(lia) ltac:(lia)).
    pose proof (length_sub p (rb_size rb - st) (len p) ltac:(lia) ltac:(lia)).
    rewrite !lookup_blit by (rewrite ?length_blit; lia).
    rewrite !length_blit, !lookup_sub by lia.
    repeat case_decide; try lia; try done; f_equal; lia.
Qed.

Lemma grow_spec pool rb n : al_inv pool → rb_ok pool rb → 0 < n → 0 < rb_size rb → rb_room pool rb n →
  ∃ pool' rb', (if rb_size rb - (rb_w rb - rb_r rb) <? n
                then RingBuffer_resize pool rb (n - (rb_size rb - (rb_w rb - rb_r rb)) + rb_size rb)
                else Some (pool, rb, 0)) = Some (pool', rb', 0) ∧
    al_inv pool' ∧ al_max pool' = al_max pool ∧ rb_ok pool' rb' ∧ 0 < rb_size rb' ∧
    rb_w rb' - rb_r rb' + n ≤ rb_size rb' ∧ contents rb' = contents rb.
Proof.
  intros Hinv [Hwf Hcap] Hn Hs0 Hroom. unfold rb_room in Hroom.
  rewrite length_contents in Hroom by done. gcase.
  - destruct (resize_spec pool rb (n - (rb_size rb - (rb_w rb - rb_r rb)) + rb_size rb))
      as (pool' & rb' & -> & ? & Hm & [Hwf' Hcap'] & ? & ? & Hc); [done..|lia|lia|].
    exists pool', rb'. unfold rb_ok. rewrite Hm. split_and!; try done.
    pose proof (length_contents rb Hwf). pose proof (length_contents rb' Hwf'). rewrite Hc in *. lia.
  - exists pool, rb. split_and!; try done. lia.
Qed.

Lemma grow_nil pool rb n : al_inv pool → rb_ok pool rb → ¬ rb_room pool rb n →
  (if rb_size rb - (rb_w rb - rb_r rb) <? n
   then RingBuffer_resize pool rb (n - (rb_size rb - (rb_w rb - rb_r rb)) + rb_size rb)
   else Some (pool, rb, 0)) = Some (pool, rb, -1).
Proof.
  intros Hinv [Hwf Hcap] Hroom. unfold rb_room in Hroom.
  rewrite length_contents in Hroom by done. zb. apply resize_nil; [done|lia].
Qed.

(** Taking the first storage does not change the (empty) queue. *)
Lemma first_storage pool rb n : al_inv pool → rb_ok pool rb → 0 < n →
  ∃ pool' rb', (if rb_size rb =? 0 then
                  '(b, pool) ← al_get pool n;
                  Some (pool, mkRingBuffer (buf_of b) (len (buf_of b)) (rb_r rb) (rb_w rb))
                else Some (pool, rb)) = Some (pool', rb') ∧
    al_inv pool' ∧ al_max pool' = al_max pool ∧ rb_ok pool' rb' ∧ contents rb' = contents rb ∧
    (rb_size rb' = 0 → ¬ rb_room pool' rb' n).
Proof.
  intros Hinv [Hwf Hcap] Hn. pose proof Hwf as [Hs Hp Hf]. unfold rb_ok, rb_room. gcase.
  2: { exists pool, rb. split_and!; try done. lia. }
  destruct (decide (n ≤ al_max pool)) as [Hle|Hgt].
  - destruct (al_get_some pool n Hinv Hle) as (b & pool' & -> & ? & ? & ? & Hm). simpl.
    eexists _, _. split; [done|]. simpl. rewrite Hm, !contents_nil by (simpl; lia).
    split_and!; try done; try (split; simpl; lia); lia.
  - rewrite (al_get_nil pool n Hinv) by lia. simpl.
    eexists _, _. split; [done|]. simpl. rewrite !contents_nil by (simpl; lia).
    split_and!; try done; try (split; simpl; lia); simpl; lia.
Qed.

Lemma Write_spec pool rb p update : al_inv pool → rb_ok pool rb → 0 < len p →
  ∃ pool' rb' rc, RingBuffer_Write pool rb p (len p) update = Some (pool', rb', rc) ∧
    al_inv pool' ∧ al_max pool' = al_max pool ∧ rb_ok pool' rb' ∧
    ((rb_room pool rb (len p) ∧ rc = len p ∧
      contents rb' = if update then contents rb ++ p else contents rb) ∨
     (¬ rb_room pool rb (len p) ∧ rc = -2 ∧ contents rb' = contents rb)).
Proof.
  intros Hinv Hwf Hp. unfold RingBuffer_Write.
  destruct (first_storage pool rb (len p) Hinv Hwf Hp)
    as (pool1 & rb1 & -> & Hinv1 & Hm1 & Hok1 & Hc1 & Hzero). simpl. zb.
  assert (rb_room pool1 rb1 (len p) ↔ rb_room pool rb (len p)) as Hroom.
  { unfold rb_room. by rewrite Hc1, Hm1. }
  destruct (decide (rb_room pool rb (len p))) as [Hr|Hr].
  2: { rewrite grow_nil by (done || tauto). simpl. eexists _, _, _. split; [done|].
       split_and!; try done. right. done. }
  assert (0 < rb_size rb1) as Hs1.
  { pose proof (rw_size _ (proj1 Hok1)). destruct (decide (rb_size rb1 = 0)); [tauto|lia]. }
  destruct (grow_spec pool1 rb1 (len p) Hinv1 Hok1 Hp Hs1)
    as (pool2 & rb2 & -> & Hinv2 & Hm2 & [Hwf2 Hcap2] & Hs2 & Hfit & Hc2); [tauto|]. simpl.
  pose proof Hwf2 as [? ? ?]. rewrite go_rem_Some by lia. simpl.
  destruct (write_storage rb2 p 0 Hwf2) as (buf' & E & Hl & _); [lia..|]. simpl in E. rewrite E. simpl.
  eexists _, _, _. split; [done|]. split; [done|]. split; [congruence|].
  destruct (contents_append rb2 buf' p Hwf2) as [Hwf' Hc']; [lia|lia|done| |].
  { intros i Hi. destruct (write_storage rb2 p i Hwf2) as (buf'' & E' & _ & Hi'); [lia..|].
    simpl in E'. rewrite E in E'. simplify_eq. by apply Hi'. }
  unfold rb_ok. simpl.
  destruct update; [split; [done|]; left; split_and!; [done|done|congruence]|].
  split; [split; [split; simpl; lia|done]|]. left. split_and!; [done|done|].
  transitivity (contents rb2); [|congruence].
  pose proof (length_contents rb2 Hwf2).
  apply contents_eq; [split; simpl; lia|simpl; lia|].
  intros k Hk. simpl. apply (f_equal (λ l : list Z, l !! k)) in Hc'.
  rewrite lookup_contents in Hc' by done. simpl in Hc'.
  rewrite decide_True in Hc' by lia. rewrite Hc'. apply lookup_app_l. lia.
Qed.

(** The window of [PeekWrite]: some of the free bytes behind the last readable
    one; filling it and moving [w] appends to the queue. *)
Lemma PeekWrite_spec pool rb n : al_inv pool → rb_ok pool rb → 0 < n →
  ∃ pool' rb' win, RingBuffer_PeekWrite pool rb n = Some (pool', rb', win) ∧
    al_inv pool' ∧ al_max pool' = al_max pool ∧ rb_ok pool' rb' ∧ contents rb' = contents rb ∧
    match win with
    | None => ¬ rb_room pool rb n
    | Some (off, sz) =>
        rb_room pool rb n ∧ 0 < rb_size rb' ∧ off = rb_w rb' mod rb_size rb' ∧
        sz = Z.min n (rb_size rb' - off) ∧ rb_w rb' - rb_r rb' + n ≤ rb_size rb'
    end.
Proof.
  intros Hinv Hok Hn. unfold RingBuffer_PeekWrite. zb.
  assert (∃ pool1 rb1 ok,
    (if rb_size rb =? 0 then
        '(b, pool) ← al_get pool n;
        match b with
        | None => Some (pool, mkRingBuffer [] (rb_size rb) (rb_r rb) (rb_w rb), false)
        | Some buf => Some (pool, mkRingBuffer buf (len buf) 0 0, true)
        end
      else Some (pool, rb, true)) = Some (pool1, rb1, ok) ∧ al_inv pool1 ∧
    al_max pool1 = al_max pool ∧ rb_ok pool1 rb1 ∧ contents rb1 = contents rb ∧
    (if ok : bool then 0 < rb_size rb1 else ¬ rb_room pool rb n)) as
    (pool1 & rb1 & ok & -> & Hinv1 & Hm1 & Hok1 & Hc1 & Hsz1).
  { destruct Hok as [[Hs Hp Hf] Hcap]. unfold rb_ok, rb_room. gcase.
    2: { exists pool, rb, true. split_and!; try done. lia. }
    destruct (decide (n ≤ al_max pool)) as [Hle|Hgt].
    - destruct (al_get_some pool n Hinv Hle) as (b & pool' & -> & ? & ? & ? & Hm). simpl.
      eexists _, _, true. split; [done|]. simpl. rewrite Hm, !contents_nil by (simpl; lia).
      split_and!; try done; try (split; simpl; lia); lia.
    - rewrite (al_get_nil pool n Hinv) by lia. simpl. eexists _, _, false. split; [done|].
      simpl. rewrite !contents_nil by (simpl; lia).
      split_and!; try done; try (split; simpl; lia); simpl; lia. }
  simpl. destruct ok; simpl.
  2: { eexists _, _, None. split; [done|]. split_and!; done. }
  assert (rb_room pool1 rb1 n ↔ rb_room pool rb n) as Hroom by (unfold rb_room; by rewrite Hc1, Hm1).
  destruct (decide (rb_room pool rb n)) as [Hr|Hr].
  2: { rewrite grow_nil by (done || tauto). simpl. eexists _, _, None. split_and!; done. }
  destruct (grow_spec pool1 rb1 n Hinv1 Hok1 Hn Hsz1)
    as (pool2 & rb2 & -> & Hinv2 & Hm2 & Hok2 & Hs2 & Hfit & Hc2); [tauto|]. simpl.
  pose proof (proj1 Hok2) as [? ? ?]. rewrite go_rem_Some by lia. simpl.
  gcase; (eexists _, _, (Some (_, _)); split; [done|]; split_and!; try done; try congruence; lia).
Qed.

Lemma fill_window_spec pool rb n data : rb_ok pool rb → 0 < rb_size rb →
  rb_w rb - rb_r rb + n ≤ rb_size rb →
  len data ≤ Z.min n (rb_size rb - rb_w rb mod rb_size rb) →
  let '(rb', rc) := RingBuffer_Forward (fill_window rb (rb_w rb mod rb_size rb) data) (len data) OpWrite in
  rc = 0 ∧ rb_ok pool rb' ∧ contents rb' = contents rb ++ data.
Proof.
  intros [Hwf Hcap] Hs Hfit Hd. pose proof Hwf as [? ? ?].
  unfold RingBuffer_Forward, fill_window. simpl. zb. unfold rb_set_pos, rb_ok. simpl.
  split; [done|].
  assert (0 ≤ rb_w rb mod rb_size rb < rb_size rb) as Hst by (apply Z.mod_pos_bound; lia).
  destruct (contents_append rb (blit (rb_buf rb) (rb_w rb mod rb_size rb) data) data Hwf)
    as [Hwf' Hc']; [lia|lia|by rewrite length_blit by lia| |done].
  intros i Hi. rewrite <-(Zminus_mod_idemp_r i (rb_w rb)), lookup_blit by lia.
  set (st := rb_w rb mod rb_size rb) in *. clearbody st.
  assert ((i - st) mod rb_size rb = if decide (st ≤ i) then i - st else i - st + rb_size rb) as ->.
  { case_decide; [apply Z.mod_small; lia|]. symmetry. apply Z.mod_unique_pos with (-1); lia. }
  repeat case_decide; try lia; try done. f_equal; lia.
Qed.

Lemma AlignBytes_spec pool rb : al_inv pool → rb_ok pool rb → 0 < rb_size rb →
  ∃ pool' rb' out, RingBuffer_AlignBytes pool rb = Some (pool', rb', out) ∧
    al_inv pool' ∧ al_max pool' = al_max pool ∧ rb_ok pool' rb' ∧ contents rb' = contents rb ∧
    rb_size rb' = rb_size rb ∧ out = rb_buf rb' ∧ rb_r rb' mod rb_size rb' = 0 ∧
    take (length (contents rb)) out = contents rb.
Proof.
  intros Hinv [Hwf Hcap] Hs. pose proof Hwf as [Hsz Hp Hf]. pose proof (length_contents rb Hwf) as Hlc.
  unfold RingBuffer_AlignBytes. rewrite go_rem_Some by lia. simpl. gcase.
  { eexists _, _, _. split; [done|]. unfold rb_ok. split_and!; try done; [lia|].
    rewrite contents_aligned by (done || lia).
    rewrite length_take, Nat.min_l by lia. done. }
  destruct (al_get_some pool (rb_size rb) Hinv Hcap) as (b & pool' & -> & Hb & Hb0 & Hinv' & Hm). simpl.
  destruct (al_put_inv pool' (rb_buf rb) Hinv') as [? Hm'].
  unfold rb_ok. gcase.
  - rewrite copy_out_contents by (done || lia). simpl. rewrite (take_ge (contents rb)) by lia.
    destruct (contents_front b (rb_size rb) (rb_w rb - rb_r rb) (contents rb)) as [Hw Hc]; [lia..|].
    eexists _, _, _. split; [done|]. simpl. rewrite Zmod_0_l, blit_front by lia.
    rewrite blit_front in Hw, Hc by lia.
    split_and!; try done; try congruence; try lia.
    by apply take_app_length'.
  - simpl. eexists _, _, _. split; [done|]. simpl. rewrite Zmod_0_l.
    rewrite (contents_nil rb), contents_nil by (simpl; lia).
    split_and!; try done; try congruence; try lia. split; simpl; lia.
Qed.

Lemma AlignBytes_aligned pool rb : 0 < rb_size rb → rb_r rb = 0 →
  RingBuffer_AlignBytes pool rb = Some (pool, rb, rb_buf rb).
Proof. intros Hs Hr. unfold RingBuffer_AlignBytes. rewrite Hr, go_rem_Some by lia. by rewrite Zmod_0_l. Qed.

(** ** The storage never exceeds the largest buffer of the allocator *)

Lemma copy_at_length {A} (dst : list A) i src d : copy_at dst i src = Some d → length d = length dst.
Proof. unfold copy_at. gcase; intros; simplify_eq. apply length_blit. lia. Qed.

Lemma copy_out_length rb dst start n d : copy_out rb dst start n = Some d → length d = length dst.
Proof.
  unfold copy_out. gcase; intros E.
  - apply bind_Some in E as (s & _ & E). by apply copy_at_length in E.
  - apply bind_Some in E as (s1 & _ & E). apply bind_Some in E as (d1 & E1 & E).
    apply bind_Some in E as (s2 & _ & E). apply copy_at_length in E1, E. congruence.
Qed.

Lemma al_get_bound pool n b pool' : al_inv pool → 0 ≤ al_max pool → al_get pool n = Some (b, pool') →
  al_max pool' = al_max pool ∧ len (buf_of b) ≤ al_max pool.
Proof.
  intros Hi H0 E. destruct (Z.le_gt_cases n (al_max pool)) as [Hn|Hn].
  - destruct (al_get_some pool n Hi Hn) as (b' & p' & E' & ? & ? & ? & ?). simplify_eq. simpl. split; [done|lia].
  - rewrite al_get_nil in E by done. simplify_eq. done.
Qed.

Lemma resize_fit pool rb n pool' rb' rc : al_inv pool → len (rb_buf rb) ≤ al_max pool →
  RingBuffer_resize pool rb n = Some (pool', rb', rc) → len (rb_buf rb') ≤ al_max pool.
Proof.
  intros Hi Hb E. unfold RingBuffer_resize in E. apply bind_Some in E as ([b p] & Eg & E).
  destruct (al_get_bound pool n b p Hi ltac:(lia) Eg) as [Hm Hl].
  destruct b as [b|]; simplify_eq; [|done]. simpl in *. apply bind_Some in E as ([b' w] & Ec & E).
  simplify_eq. simpl. gcase; simplify_eq; [|done].
  apply bind_Some in Ec as (start & _ & Ec). apply bind_Some in Ec as (b2 & Ec & E2). simplify_eq.
  apply copy_out_length in Ec. lia.
Qed.

Lemma Write_fit pool rb p n update pool' rb' rc : al_inv pool → len (rb_buf rb) ≤ al_max pool →
  RingBuffer_Write pool rb p n update = Some (pool', rb', rc) → len (rb_buf rb') ≤ al_max pool.
Proof.
  intros Hi Hb E. unfold RingBuffer_Write in E. apply bind_Some in E as ([p1 rb1] & E1 & E).
  assert (al_inv p1 ∧ al_max p1 = al_max pool ∧ len (rb_buf rb1) ≤ al_max pool) as (Hi1 & Hm1 & Hb1).
  { clear E. destruct (rb_size rb =? 0); simplify_eq; [|done]. apply bind_Some in E1 as ([b p0] & Eg & E1). simplify_eq.
    destruct (al_get_bound pool n b p1 Hi ltac:(lia) Eg) as [Hm Hl]. split; [|done].
    destruct (Z.le_gt_cases n (al_max pool)) as [Hn|Hn].
    - destruct (al_get_some pool n Hi Hn) as (? & ? & ? & ? & ? & ? & ?). congruence.
    - rewrite al_get_nil in Eg by done. congruence. }
  destruct ((len p =? 0) || (len p <? n)); simplify_eq; [done|]. apply bind_Some in E as ([[p2 rb2] rc2] & E2 & E).
  assert (len (rb_buf rb2) ≤ al_max pool) as Hb2.
  { clear E. gcase; simplify_eq; [|done]. apply resize_fit in E2; [lia|done|lia]. }
  destruct (rc2 <? 0); simplify_eq; [done|]. apply bind_Some in E as (start & _ & E).
  apply bind_Some in E as (buf & Ec & E). simplify_eq. simpl.
  gcase; [apply copy_at_length in Ec; lia|].
  apply bind_Some in Ec as (s1 & _ & Ec). apply bind_Some in Ec as (b1 & E1' & Ec).
  apply bind_Some in Ec as (s2 & _ & Ec). apply copy_at_length in E1', Ec. lia.
Qed.

Lemma AlignBytes_fit pool rb pool' rb' out : al_inv pool → len (rb_buf rb) ≤ al_max pool →
  RingBuffer_AlignBytes pool rb = Some (pool', rb', out) → len (rb_buf rb') ≤ al_max pool.
Proof.
  intros Hi Hb E. unfold RingBuffer_AlignBytes in E. apply bind_Some in E as (start & _ & E).
  destruct (start =? 0); simplify_eq; [done|]. apply bind_Some in E as ([b p] & Eg & E).
  destruct (al_get_bound pool (rb_size rb) b p Hi ltac:(lia) Eg) as [Hm Hl].
  apply bind_Some in E as ([b' w] & Ec & E). simplify_eq. simpl. gcase; simplify_eq; [|done].
  apply bind_Some in Ec as (b2 & Ec & E2). simplify_eq. apply copy_out_length in Ec. lia.
Qed.

(** [rb_ok], and storage no larger than the allocator's largest buffer. *)
Definition rb_fit pool rb : Prop := rb_ok pool rb ∧ len (rb_buf rb) ≤ al_max pool.

End AllocLemmas.

(** ** The ring buffer refines a byte queue *)

(** The calls the runtime makes.  [CFill n data] is [PeekWrite(n)], the copy of
    as much of [data] as the window takes, and [Forward(_, OpWrite)]. *)
Inductive rb_call : Type :=
| CWrite (p : list Z)
| CFill (n : Z) (data : list Z)
| CRead (k : Z)
| CForward (k : Z)
| CPeek2
| CAlign
| CTruncate
| CReset.

(** What a call returns: the status, and the bytes handed to the caller. *)
Definition rb_run {P} `{!Allocator P} (s : P * RingBuffer) (c : rb_call) :
    option (P * RingBuffer * (Z * list Z)) :=
  let '(pool, rb) := s in
  match c with
  | CWrite p => '(pool, rb, rc) ← RingBuffer_Write pool rb p (len p) true; Some (pool, rb, (rc, []))
  | CFill n data =>
      '(pool, rb, win) ← RingBuffer_PeekWrite pool rb n;
      match win with
      | None => Some (pool, rb, (-1, []))
      | Some (off, sz) =>
          let d := take (Z.to_nat sz) data in
          let '(rb, rc) := RingBuffer_Forward (fill_window rb off d) (len d) OpWrite in
          Some (pool, rb, (if rc <? 0 then -2 else len d, []))
      end
  | CRead k =>
      '(rb, p, n) ← RingBuffer_Read rb (make_bytes k) k true;
      Some (pool, rb, (n, take (Z.to_nat n) p))
  | CForward k => let '(rb, rc) := RingBuffer_Forward rb k OpRead in Some (pool, rb, (rc, []))
  | CPeek2 => '(h, t) ← RingBuffer_Peek2 rb; Some (pool, rb, (RingBuffer_Has rb, h ++ t))
  | CAlign =>
      '(pool, rb, out) ← RingBuffer_AlignBytes pool rb;
      Some (pool, rb, (RingBuffer_Has rb, take (Z.to_nat (RingBuffer_Has rb)) out))
  | CTruncate => Some (pool, RingBuffer_Truncate rb, (0, []))
  | CReset => let '(pool, rb) := RingBuffer_Reset pool rb in Some (pool, rb, (0, []))
  end.

(** The queue: [cap] is the most it can hold.  A transition gives the queue after
    the call and what the call returns. *)
Inductive q_step (cap : Z) (q : list Z) : rb_call → list Z → Z * list Z → Prop :=
| QWrite p : 0 < len p → len q + len p ≤ cap → q_step cap q (CWrite p) (q ++ p) (len p, [])
| QWriteFull p : 0 < len p → cap < len q + len p → q_step cap q (CWrite p) q (-2, [])
| QFill n data d : 0 < n → len q + n ≤ cap → d `prefix_of` data → len d ≤ n →
    (data ≠ [] → d ≠ []) → q_step cap q (CFill n data) (q ++ d) (len d, [])
| QFillFull n data : 0 < n → cap < len q + n → q_step cap q (CFill n data) q (-1, [])
| QRead k : 0 < k → let n := Z.min k (len q) in
    q_step cap q (CRead k) (drop (Z.to_nat n) q) (n, take (Z.to_nat n) q)
| QForward k : 0 ≤ k ≤ len q → q_step cap q (CForward k) (drop (Z.to_nat k) q) (0, [])
| QForwardFail k : len q < k → q_step cap q (CForward k) q (-1, [])
| QPeek2 : q_step cap q CPeek2 q (len q, q)
| QAlign : q ≠ [] → q_step cap q CAlign q (len q, q)
| QTruncate : q_step cap q CTruncate [] (0, [])
| QReset : q_step cap q CReset [] (0, []).

(** The calls that the buffer accepts in a state: positive sizes, and
    [AlignBytes] only when there is something to read (it divides by the size). *)
Definition call_ok (q : list Z) (c : rb_call) : Prop :=
  match c with
  | CWrite p => p ≠ []
  | CFill n _ => 0 < n
  | CRead k => 0 < k
  | CForward k => 0 ≤ k
  | CAlign => q ≠ []
  | CPeek2 | CTruncate | CReset => True
  end.

Section Refinement.
Context {P : Type} `{!Allocator P, !AllocatorLaws P}.

Definition rb_sim (cap : Z) (s : P * RingBuffer) (q : list Z) : Prop :=
  al_inv (fst s) ∧ al_max (fst s) = cap ∧ rb_ok (fst s) (snd s) ∧ contents (snd s) = q.

Lemma rb_wf_truncate rb : rb_wf rb → rb_wf (RingBuffer_Truncate rb).
Proof. intros [? ? ?]. split; simpl; lia. Qed.

Lemma rb_run_write cap s q p : rb_sim cap s q → p ≠ [] →
  ∃ s' out q', rb_run s (CWrite p) = Some (s', out) ∧ q_step cap q (CWrite p) q' out ∧ rb_sim cap s' q'.
Proof.
  destruct s as [pool rb]. intros (Hinv & Hm & Hok & Hq) Hp. simpl in *.
  assert (0 < len p) as Hp' by (destruct p; simpl; [done|lia]).
  destruct (Write_spec pool rb p true Hinv Hok Hp')
    as (pool' & rb' & rc & -> & Hinv' & Hm' & Hok' & [(Hr & -> & Hc)|(Hr & -> & Hc)]); simpl;
    unfold rb_room in Hr.
  - eexists (_, _), _, (q ++ p). split; [done|].
    split; [constructor; [done|subst; lia]|]. split_and!; simpl; congruence || done.
  - eexists (_, _), _, q. split; [done|].
    split; [apply QWriteFull; [done|subst; lia]|]. split_and!; simpl; congruence || done.
Qed.

Lemma rb_run_fill cap s q n data : rb_sim cap s q → 0 < n →
  ∃ s' out q', rb_run s (CFill n data) = Some (s', out) ∧ q_step cap q (CFill n data) q' out ∧ rb_sim cap s' q'.
Proof.
  destruct s as [pool rb]. intros (Hinv & Hm & Hok & Hq) Hn. simpl in *.
  destruct (PeekWrite_spec pool rb n Hinv Hok Hn)
    as (pool' & rb' & win & -> & Hinv' & Hm' & Hok' & Hc & Hwin). simpl.
  destruct win as [[off sz]|]; unfold rb_room in Hwin.
  2: { eexists (_, _), _, q. split; [done|]. split; [apply QFillFull; [done|subst; lia]|].
       split_and!; simpl; congruence || done. }
  destruct Hwin as (Hr & Hs & -> & Hsz & Hfit). set (d := take (Z.to_nat sz) data).
  pose proof (proj1 Hok') as [? ? ?].
  assert (0 ≤ rb_w rb' mod rb_size rb' < rb_size rb') by (apply Z.mod_pos_bound; lia).
  assert (len d ≤ sz) as Hd by (subst d; rewrite length_take; lia).
  pose proof (fill_window_spec pool' rb' n d Hok' Hs Hfit ltac:(lia)) as Hfw.
  destruct (RingBuffer_Forward _ _ _) as [rb'' rc]. destruct Hfw as (-> & Hok'' & Hc'').
  eexists (_, _), _, (q ++ d). split; [done|]. split.
  - apply QFill; [done|subst; lia|apply prefix_take|lia|].
    intros Hne Hd0. apply (f_equal length) in Hd0. subst d. rewrite length_take in Hd0.
    destruct data; simpl in *; [done|lia].
  - split_and!; simpl; congruence || done.
Qed.

Lemma rb_run_step cap s q c : rb_sim cap s q → call_ok q c →
  ∃ s' out q', rb_run s c = Some (s', out) ∧ q_step cap q c q' out ∧ rb_sim cap s' q'.
Proof.
  intros Hsim Hc. destruct c as [p|n data|k|k| | | |];
    [by apply rb_run_write|by apply rb_run_fill|..];
    destruct s as [pool rb]; destruct Hsim as (Hinv & Hm & [Hwf Hcap] & Hq); simpl in *;
    pose proof (length_contents rb Hwf) as Hlc; rewrite Hq in Hlc.
  - destruct (Read_spec rb (make_bytes k) k true Hwf) as (rb' & -> & Hwf' & Hs & _ & Hc');
      [rewrite length_make_bytes by lia; lia|]. simpl.
    rewrite Hq, <-Hlc in *. eexists (_, _), _, _. split; [done|]. split; [|split_and!; [done..| |done]].
    + pose proof (length_make_bytes k ltac:(lia)).
      rewrite blit_front by llia. rewrite take_app_length' by llia. by constructor.
    + split; simpl; [done|congruence].
  - destruct (Z.le_gt_cases k (len q)).
    + destruct (Forward_read_spec rb k Hwf) as (rb' & -> & Hwf' & Hs & Hc'); [lia|].
      rewrite Hq in Hc'. eexists (_, _), _, _. split; [done|]. split; [by constructor|].
      split_and!; simpl; try done. split; simpl; [done|congruence].
    + unfold RingBuffer_Forward. simpl. zb. eexists (_, _), _, q. split; [done|].
      split; [by constructor|]. done.
  - destruct (Peek2_spec rb Hwf) as (h & t & -> & Hht & _). simpl. rewrite Hht, Hq.
    unfold RingBuffer_Has. rewrite <-Hlc.
    eexists (_, _), _, q. split; [done|]. split; [constructor|]. done.
  - assert (0 < rb_size rb) by (pose proof (rw_fit _ Hwf); destruct q; simpl in *; [done|lia]).
    destruct (AlignBytes_spec pool rb Hinv (conj Hwf Hcap)) as
      (pool' & rb' & out & -> & Hinv' & Hm' & Hok' & Hc' & _ & _ & _ & Hout); [done|]. simpl.
    unfold RingBuffer_Has. rewrite <-(length_contents rb' (proj1 Hok')), Nat2Z.id, Hc', Hout, Hq.
    eexists (_, _), _, q. split; [done|]. split; [by constructor|].
    split_and!; simpl; congruence || done.
  - eexists (_, _), _, []. split; [done|]. split; [constructor|].
    split_and!; simpl; try done. split; [by apply rb_wf_truncate|done].
  - destruct (al_put_inv pool (rb_buf rb) Hinv) as [? ?].
    eexists (_, _), _, []. split; [done|]. split; [constructor|].
    split_and!; simpl; try done; [congruence|]. split; simpl.
    + split; simpl; lia.
    + pose proof (rw_size _ Hwf). lia.
Qed.

(** A run of the code and of the queue over the same calls. *)
Fixpoint rb_runs (s : P * RingBuffer) (cs : list rb_call) : option (P * RingBuffer * list (Z * list Z)) :=
  match cs with
  | [] => Some (s, [])
  | c :: cs => '(s, out) ← rb_run s c; '(s, outs) ← rb_runs s cs; Some (s, out :: outs)
  end.

Inductive q_runs (cap : Z) : list Z → list rb_call → list Z → list (Z * list Z) → Prop :=
| QNil q : q_runs cap q [] q []
| QCons q c q1 out cs q2 outs :
    q_step cap q c q1 out → q_runs cap q1 cs q2 outs → q_runs cap q (c :: cs) q2 (out :: outs).

(** The calls of [cs] are accepted one after the other, whatever the queue does. *)
Fixpoint calls_ok (cap : Z) (q : list Z) (cs : list rb_call) : Prop :=
  match cs with
  | [] => True
  | c :: cs => call_ok q c ∧ ∀ q' out, q_step cap q c q' out → calls_ok cap q' cs
  end.

Lemma rb_runs_refine cap s q cs : rb_sim cap s q → calls_ok cap q cs →
  ∃ s' q' outs, rb_runs s cs = Some (s', outs) ∧ q_runs cap q cs q' outs ∧ rb_sim cap s' q'.
Proof.
  revert s q. induction cs as [|c cs IH]; intros s q Hsim Hok.
  { exists s, q, []. split_and!; [done|constructor|done]. }
  destruct Hok as [Hc Hcs].
  destruct (rb_run_step cap s q c Hsim Hc) as (s1 & out & q1 & E & Hq & Hsim1).
  destruct (IH s1 q1 Hsim1) as (s2 & q2 & outs & E2 & Hq2 & Hsim2); [by eapply Hcs|].
  exists s2, q2, (out :: outs). split_and!; [|by econstructor|done].
  simpl. rewrite E. simpl. by rewrite E2.
Qed.

Lemma rb_sim_new pool : al_inv pool → 0 ≤ al_max pool → rb_sim (al_max pool) (pool, NewRingBuffer) [].
Proof. intros. split_and!; try done. Qed.


(** [AlignBytes] on any well-formed buffer with storage leaves the queue
    unchanged, moves its first byte to index 0 and returns storage that starts
    with the whole queue. *)
Theorem alignbytes_linearizes (pool : P) (rb : RingBuffer) :
  al_inv pool → rb_ok pool rb → 0 < rb_size rb →
  ∃ pool' rb' out, RingBuffer_AlignBytes pool rb = Some (pool', rb', out) ∧
    rb_ok pool' rb' ∧ contents rb' = contents rb ∧ rb_r rb' mod rb_size rb' = 0 ∧
    take (length (contents rb)) out = contents rb.
Proof.
  intros H1 H2 H3. destruct (AlignBytes_spec pool rb H1 H2 H3)
    as (pool' & rb' & out & ? & ? & ? & ? & ? & ? & ? & ? & ?).
  exists pool', rb', out. done.
Qed.

End Refinement.

#[local] Existing Instances test_Allocator test_AllocatorLaws.


Lemma alignbytes_linearizes_witness :
  let rb := mkRingBuffer (make_bytes 1024) 1024 1000 1030 in
  ∃ pool' rb' out, RingBuffer_AlignBytes test_pool rb = Some (pool', rb', out) ∧
    rb_ok pool' rb' ∧ contents rb' = contents rb ∧ rb_r rb' mod rb_size rb' = 0 ∧
    take (length (contents rb)) out = contents rb.
Proof.
  apply alignbytes_linearizes.
  - apply test_pool_inv.
  - split; [split|]; vm_compute; try split; discriminate.
  - reflexivity.
Defined.
