(* ===== verification/WriteQueue.v ===== *)
(** * connection/writequeue.go: the queue of pending writes

    A connection's output is a list of buffers owned by the queue.  The
    abstraction [wq_data] is the byte string still to be sent. *)

From S2P Require Import Prelude Pool Tuning.

Record writeEntry := mkEntry { we_owner : list Z; we_size : Z; we_off : Z }.

(** [wq_cap] is [cap(q.items)], which [resetEmpty] reads. *)
Record writeQueue := mkQueue {
  wq_items : list writeEntry;
  wq_head : Z;
  wq_bytes : Z;
  wq_cap : Z;
}.

Definition wq_empty : writeQueue := mkQueue [] 0 0 0.

Section Queue.
Context {P : Type} `{!Allocator P}.

(** The capacity [append] chooses when the array is full: old capacity and
    number of elements needed.  The language leaves the growth policy open. *)
Variable grow : Z → Z → Z.
Variable T : Connection.

Definition append_items (q : writeQueue) (e : writeEntry) : writeQueue :=
  let n := len (wq_items q) + 1 in
  mkQueue (wq_items q ++ [e]) (wq_head q) (wq_bytes q)
          (if n <=? wq_cap q then wq_cap q else grow (wq_cap q) n).

Definition writeQueue_pending (q : writeQueue) : Z := wq_bytes q.

(** The compaction of the tail: its unsent bytes move to the front of its buffer. *)
Definition compact_tail (tail : writeEntry) (size : Z) : option writeEntry :=
  let avail := len (we_owner tail) - we_size tail + we_off tail in
  if (size <=? avail) && (0 <? we_off tail) && (len (we_owner tail) - we_size tail <? size) then
    if we_size tail - we_off tail <=? WriteQueueCompactMaxBytes T then
      s ← slice (we_owner tail) (we_off tail) (we_size tail);
      o ← copy_at (we_owner tail) 0 s;
      Some (mkEntry o (we_size tail - we_off tail) 0)
    else Some tail
  else Some tail.

Definition writeQueue_enqueue (pool : P) (q : writeQueue) (owner : list Z) (size : Z) :
    option (P * writeQueue) :=
  if size <=? 0 then Some (al_put pool owner, q)
  else
    let append q :=
      let q := append_items q (mkEntry owner size 0) in
      Some (pool, mkQueue (wq_items q) (wq_head q) (wq_bytes q + size) (wq_cap q)) in
    if (0 <? WriteQueueCoalesceMaxBytes T) && (size <=? WriteQueueCoalesceMaxBytes T)
       && (0 <? len (wq_items q)) then
      let tailIndex := len (wq_items q) - 1 in
      tail ← index (wq_items q) tailIndex;
      tail ← compact_tail tail size;
      items ← store (wq_items q) tailIndex tail;
      if size <=? len (we_owner tail) - we_size tail then
        s ← slice owner 0 size;
        o ← copy_at (we_owner tail) (we_size tail) s;
        items ← store items tailIndex (mkEntry o (we_size tail + size) (we_off tail));
        Some (al_put pool owner, mkQueue items (wq_head q) (wq_bytes q + size) (wq_cap q))
      else append (mkQueue items (wq_head q) (wq_bytes q) (wq_cap q))
    else append q.

(** [nil] is the empty slice. *)
Definition writeQueue_peek (q : writeQueue) : option (list Z) :=
  if wq_bytes q =? 0 then Some []
  else
    item ← index (wq_items q) (wq_head q);
    if we_size item <=? we_off item then Some []
    else slice (we_owner item) (we_off item) (we_size item).

Definition writeQueue_resetEmpty (q : writeQueue) : writeQueue :=
  if (0 <? WriteQueueShrinkCap T) && (WriteQueueShrinkCap T <? wq_cap q)
  then mkQueue [] 0 0 0
  else mkQueue [] 0 0 (wq_cap q).

Definition dead_entry : writeEntry := mkEntry [] 0 0.

(** The loop of [consume]; the flag says that it returned from inside the loop.
    Each round drops an item, so [length items] rounds are enough. *)
Fixpoint writeQueue_consume_loop (fuel : nat) (pool : P) (q : writeQueue) (n : Z) :
    option (P * writeQueue * bool) :=
  match fuel with
  | O => None
  | S fuel =>
      if (0 <? n) && (0 <? wq_bytes q) then
        item ← index (wq_items q) (wq_head q);
        let remain := we_size item - we_off item in
        if n <? remain then
          items ← store (wq_items q) (wq_head q) (mkEntry (we_owner item) (we_size item) (we_off item + n));
          Some (pool, mkQueue items (wq_head q) (wq_bytes q - n) (wq_cap q), true)
        else
          let n := n - remain in
          let pool := al_put pool (we_owner item) in
          items ← store (wq_items q) (wq_head q) dead_entry;
          let q := mkQueue items (wq_head q + 1) (wq_bytes q - remain) (wq_cap q) in
          if len (wq_items q) <=? wq_head q then Some (pool, writeQueue_resetEmpty q, true)
          else writeQueue_consume_loop fuel pool q n
      else Some (pool, q, false)
  end.

Definition writeQueue_consume (pool : P) (q : writeQueue) (n : Z) : option (P * writeQueue) :=
  if (n <=? 0) || (wq_bytes q =? 0) then Some (pool, q)
  else
    let n := if wq_bytes q <? n then wq_bytes q else n in
    '(pool, q, returned) ← writeQueue_consume_loop (S (length (wq_items q))) pool q n;
    if returned : bool then Some (pool, q)
    else if (0 <? wq_head q) && (len (wq_items q) <=? wq_head q * 2) then
      s ← slice (wq_items q) (wq_head q) (len (wq_items q));
      items ← copy_at (wq_items q) 0 s;
      items ← slice items 0 (len (wq_items q) - wq_head q);
      Some (pool, mkQueue items 0 (wq_bytes q) (wq_cap q))
    else Some (pool, q).

Fixpoint writeQueue_clear_loop (pool : P) (items : list writeEntry) : P :=
  match items with
  | [] => pool
  | item :: items => writeQueue_clear_loop (al_put pool (we_owner item)) items
  end.

Definition writeQueue_clear (pool : P) (q : writeQueue) : P * writeQueue :=
  (writeQueue_clear_loop pool (drop (Z.to_nat (wq_head q)) (wq_items q)), writeQueue_resetEmpty q).

End Queue.

(** ** The abstraction and the invariant *)

Definition entry_data (e : writeEntry) : list Z := sub (we_owner e) (we_off e) (we_size e).

Definition live (q : writeQueue) : list writeEntry := drop (Z.to_nat (wq_head q)) (wq_items q).

Definition wq_data (q : writeQueue) : list Z := live q ≫= entry_data.

Definition entry_wf (e : writeEntry) : Prop :=
  0 ≤ we_off e < we_size e ∧ we_size e ≤ len (we_owner e).

(** The queue has no items left behind: either it is empty or its head is a live
    item, so the tail that [enqueue] coalesces into is live too. *)
Record wq_inv (q : writeQueue) : Prop := {
  qi_head : 0 ≤ wq_head q;
  qi_live : (wq_items q = [] ∧ wq_head q = 0) ∨ wq_head q < len (wq_items q);
  qi_wf : Forall entry_wf (live q);
  qi_bytes : wq_bytes q = len (wq_data q);
}.

Lemma length_entry_data e : entry_wf e → len (entry_data e) = we_size e - we_off e.
Proof. intros [? ?]. unfold entry_data. apply length_sub; lia. Qed.

Lemma wq_inv_empty c : wq_inv (mkQueue [] 0 0 c).
Proof. split; try done. by left. Qed.

Lemma live_last q : wq_inv q → 0 < len (wq_items q) → ∃ pre tail,
  wq_items q = pre ++ [tail] ∧ wq_head q ≤ len pre ∧
  live q = drop (Z.to_nat (wq_head q)) pre ++ [tail] ∧ entry_wf tail.
Proof.
  intros [Hh Hl Hwf Hb] Hlen. unfold live in *.
  destruct (wq_items q) as [|x l _] using rev_ind; [simpl in *; lia|].
  rewrite length_app in *. simpl in *. exists l, x.
  destruct Hl as [[Hl _]|Hl]; [by destruct l|].
  rewrite drop_app_le in * by lia. split_and!; try done; [lia|].
  apply Forall_app in Hwf as [_ Hx]. by inversion Hx.
Qed.

Lemma wq_data_app q : wq_data q = live q ≫= entry_data.
Proof. done. Qed.

(** A queue that differs in its tail entry or behind it. *)
Lemma wq_inv_tail pre (es : list writeEntry) head bytes c :
  0 ≤ head ≤ len pre → es ≠ [] → Forall entry_wf (drop (Z.to_nat head) pre) → Forall entry_wf es →
  bytes = len (drop (Z.to_nat head) pre ≫= entry_data) + len (es ≫= entry_data) →
  let q := mkQueue (pre ++ es) head bytes c in
  wq_inv q ∧ wq_data q = (drop (Z.to_nat head) pre ≫= entry_data) ++ (es ≫= entry_data).
Proof.
  intros Hh Hne Hpre Hes Hb q. assert (wq_data q = (drop (Z.to_nat head) pre ≫= entry_data) ++ (es ≫= entry_data)) as Hd.
  { unfold wq_data, live. simpl. rewrite drop_app_le by lia. by rewrite bind_app. }
  split; [|done]. split.
  - simpl. lia.
  - right. simpl. rewrite length_app. destruct es; simpl; [done|lia].
  - unfold live. simpl. rewrite drop_app_le by lia. by apply Forall_app.
  - rewrite Hd. simpl. rewrite length_app. lia.
Qed.

Section QueueLemmas.
Context {P : Type} `{!Allocator P}.
Variable grow : Z → Z → Z.
Variable T : Connection.

Lemma compact_tail_spec tail size : entry_wf tail → ∃ tail',
  compact_tail T tail size = Some tail' ∧ entry_wf tail' ∧
  entry_data tail' = entry_data tail ∧ len (we_owner tail') = len (we_owner tail).
Proof.
  intros [Ho Hs]. unfold compact_tail. repeat gcase; try (by exists tail).
  rewrite slice_Some by lia. simpl. rewrite copy_at_Some by lia. simpl.
  pose proof (length_sub (we_owner tail) (we_off tail) (we_size tail) ltac:(lia) ltac:(lia)) as Hl.
  eexists. split; [done|]. unfold entry_wf, entry_data. simpl. rewrite length_blit by lia.
  split_and!; [lia..| |done].
  rewrite blit_front by lia. rewrite sub_prefix, take_app_length'; [done|lia].
Qed.

Lemma coalesce_data tail (owner : list Z) size : entry_wf tail → 0 < size ≤ len owner →
  size ≤ len (we_owner tail) - we_size tail →
  let e := mkEntry (blit (we_owner tail) (we_size tail) (sub owner 0 size)) (we_size tail + size) (we_off tail) in
  entry_wf e ∧ entry_data e = entry_data tail ++ take (Z.to_nat size) owner.
Proof.
  intros [Ho Hs] Hsz Hfit e. pose proof (length_sub owner 0 size ltac:(lia) ltac:(lia)) as Hl.
  split; [unfold entry_wf; simpl; rewrite length_blit by lia; lia|].
  unfold entry_data, e. simpl. rewrite <-(sub_app _ (we_off tail) (we_size tail)) by lia.
  rewrite sub_blit_other by lia. f_equal.
  rewrite <-sub_prefix. replace (we_size tail + size) with (we_size tail + len (sub owner 0 size)) by lia.
  apply sub_blit_same; lia.
Qed.

Lemma index_last (A : Type) (l : list A) x : index (l ++ [x]) (len (l ++ [x]) - 1) = Some x.
Proof.
  rewrite length_app. simpl. unfold index. zb.
  rewrite lookup_app_r by lia. replace (_ - _)%nat with 0%nat by lia. done.
Qed.

Lemma store_last (A : Type) (l : list A) x y : store (l ++ [x]) (len (l ++ [x]) - 1) y = Some (l ++ [y]).
Proof.
  rewrite length_app. simpl. unfold store. rewrite length_app. simpl. zb. f_equal.
  rewrite insert_app_r_alt by lia. replace (_ - _)%nat with 0%nat by lia. done.
Qed.

Lemma append_spec q owner size : wq_inv q → 0 < size ≤ len owner →
  let q1 := append_items grow q (mkEntry owner size 0) in
  let q' := mkQueue (wq_items q1) (wq_head q1) (wq_bytes q1 + size) (wq_cap q1) in
  wq_inv q' ∧ wq_data q' = wq_data q ++ take (Z.to_nat size) owner.
Proof.
  intros [Hh Hl Hwf Hb] Hs. unfold append_items. cbn zeta. cbn [wq_items wq_head wq_bytes wq_cap].
  assert (entry_data (mkEntry owner size 0) = take (Z.to_nat size) owner) as He by apply sub_prefix.
  unfold wq_data, live in *.
  match goal with |- wq_inv (mkQueue _ _ _ ?c) ∧ _ =>
    destruct (wq_inv_tail (wq_items q) [mkEntry owner size 0] (wq_head q) (wq_bytes q + size) c) as [Hi Hd] end.
  - destruct Hl as [[-> ->]|]; simpl; lia.
  - done.
  - done.
  - repeat constructor; simpl; lia.
  - cbn [mbind list_bind]. rewrite app_nil_r, He, length_take. lia.
  - split; [done|]. unfold wq_data, live in Hd. rewrite Hd. cbn [mbind list_bind]. by rewrite app_nil_r, He.
Qed.

(** The lengths of the buffers the queue owns. *)
Definition owners (q : writeQueue) : list Z := (λ e, len (we_owner e)) <$> live q.

(** [pool'] is [pool] after the [Put] of some buffers; with the ones the queue
    still owns, they account for the buffers in [acc]. *)
Definition puts_account (pool pool' : P) (q' : writeQueue) (acc : list Z) : Prop :=
  ∃ puts : list (list Z), pool' = foldl al_put pool puts ∧
    ((λ b, len b) <$> puts) ++ owners q' ≡ₚ acc.

Lemma enqueue_spec pool q owner size : wq_inv q → size ≤ len owner →
  ∃ pool' q', writeQueue_enqueue grow T pool q owner size = Some (pool', q') ∧ wq_inv q' ∧
    wq_data q' = wq_data q ++ take (Z.to_nat size) owner ∧
    puts_account pool pool' q' (owners q ++ [len owner]).
Proof.
  intros Hinv Hs. unfold writeQueue_enqueue. gcase.
  { eexists _, _. split; [done|]. split; [done|].
    replace (Z.to_nat size) with 0%nat by lia. rewrite take_0, app_nil_r. split; [done|].
    exists [owner]. split; [done|]. simpl. by rewrite Permutation_app_comm. }
  assert (0 < size ≤ len owner) as Hs' by lia. gcase.
  2: { eexists _, _. split; [done|]. destruct (append_spec q owner size Hinv Hs') as [? ?].
       split_and!; try done. exists []. split; [done|]. unfold owners, live. simpl.
       destruct Hinv as [? Hl ? ?]. rewrite drop_app_le by (destruct Hl as [[-> ->]|]; simpl; lia).
       by rewrite fmap_app. }
  destruct (live_last q Hinv) as (pre & tail & Hit & Hhd & Hlive & Htail); [lia|].
  pose proof Hinv as [Hh0 _ Hwf Hb]. unfold wq_data, owners in *. rewrite Hlive in *.
  apply Forall_app in Hwf as [Hpre _]. rewrite Hit, index_last. simpl.
  destruct (compact_tail_spec tail size Htail) as (tail' & -> & Htail' & Hd' & Hlo). simpl.
  rewrite store_last. simpl. rewrite bind_app in *. cbn [mbind list_bind] in *.
  rewrite app_nil_r, <-Hd' in *. rewrite length_app in Hb. rewrite fmap_app. simpl. rewrite <-Hlo. gcase.
  - rewrite slice_Some by lia. simpl. rewrite copy_at_Some by (destruct Htail'; lia). simpl.
    replace (len (pre ++ [tail])) with (len (pre ++ [tail'])) by (by rewrite !length_app).
    rewrite store_last. simpl.
    destruct (coalesce_data tail' owner size) as [He Hed]; [done|lia|lia|].
    eexists _, _. split; [done|].
    match type of He with entry_wf ?e =>
      destruct (wq_inv_tail pre [e] (wq_head q) (wq_bytes q + size) (wq_cap q)) as [Hi Hd];
      [lia|done|done|by apply Forall_singleton| |] end.
    { cbn [mbind list_bind]. rewrite app_nil_r, Hed, length_app, length_take. lia. }
    split; [done|]. split.
    { unfold wq_data in Hd. rewrite Hd. cbn [mbind list_bind]. by rewrite app_nil_r, Hed, app_assoc. }
    exists [owner]. split; [done|]. unfold owners, live. simpl.
    rewrite drop_app_le, fmap_app by lia. simpl. rewrite length_blit by (destruct Htail'; lia).
    rewrite (Permutation_app_comm _ [len owner]). done.
  - destruct (wq_inv_tail pre [tail'] (wq_head q) (wq_bytes q) (wq_cap q)) as [Hi Hd];
      [lia|done|done|by apply Forall_singleton| |].
    { cbn [mbind list_bind]. rewrite app_nil_r. lia. }
    eexists _, _. split; [done|]. destruct (append_spec _ owner size Hi Hs') as [Hi' Hd2].
    split; [done|]. split.
    { rewrite Hd in Hd2. etransitivity; [exact Hd2|]. cbn [mbind list_bind]. by rewrite app_nil_r. }
    exists []. split; [done|]. unfold owners, live. simpl. rewrite <-app_assoc.
    rewrite drop_app_le, fmap_app by lia. simpl. by rewrite <-app_assoc.
Qed.

(** The head item of a queue with pending bytes. *)
Lemma live_head q : wq_inv q → 0 < wq_bytes q → ∃ e rest,
  index (wq_items q) (wq_head q) = Some e ∧ live q = e :: rest ∧ entry_wf e ∧
  wq_head q < len (wq_items q) ∧ drop (Z.to_nat (wq_head q + 1)) (wq_items q) = rest.
Proof.
  intros [Hh Hl Hwf Hb] Hpos. destruct Hl as [[Hn ->]|Hl].
  { unfold wq_data, live in Hb. rewrite Hn, drop_nil in Hb. simpl in Hb. lia. }
  unfold live in *. destruct (wq_items q !! Z.to_nat (wq_head q)) as [e|] eqn:E.
  2: { apply lookup_ge_None_1 in E. lia. }
  exists e, (drop (Z.to_nat (wq_head q + 1)) (wq_items q)).
  replace (Z.to_nat (wq_head q + 1)) with (S (Z.to_nat (wq_head q))) by lia.
  rewrite (drop_S _ _ _ E) in *. unfold index. zb. split_and!; try done. by inversion Hwf.
Qed.

Lemma drop_insert_here (items : list writeEntry) h e : 0 ≤ h < len items →
  drop (Z.to_nat h) (<[Z.to_nat h := e]> items) = e :: drop (Z.to_nat (h + 1)) items.
Proof.
  intros. rewrite (drop_S _ e) by (apply list_lookup_insert_eq; lia). f_equal.
  replace (Z.to_nat (h + 1)) with (S (Z.to_nat h)) by lia.
  by rewrite drop_insert_lt by lia.
Qed.

Lemma resetEmpty_inv q : wq_inv (writeQueue_resetEmpty T q) ∧ live (writeQueue_resetEmpty T q) = [].
Proof.
  unfold writeQueue_resetEmpty. gcase; (split; [apply wq_inv_empty|done]).
Qed.

Lemma consume_loop_spec fuel pool q n : wq_inv q → 0 ≤ n ≤ wq_bytes q →
  len (wq_items q) - wq_head q < Z.of_nat fuel →
  ∃ pool' q' ret, writeQueue_consume_loop T fuel pool q n = Some (pool', q', ret) ∧ wq_inv q' ∧
    wq_data q' = drop (Z.to_nat n) (wq_data q) ∧ puts_account pool pool' q' (owners q).
Proof.
  revert pool q n. induction fuel as [|fuel IH]; intros pool q n Hinv Hn Hfuel.
  { pose proof (qi_live _ Hinv) as [[E1 E2]|]; [rewrite E1, E2 in Hfuel|]; simpl in *; lia. }
  simpl. destruct ((0 <? n) && (0 <? wq_bytes q)) eqn:Hgo.
  2: { exists pool, q, false. assert (n = 0) as -> by lia. split_and!; try done. by exists []. }
  destruct (live_head q Hinv) as (e & rest & -> & Hlive & He & Hlt & Hrest); [lia|]. simpl.
  pose proof (length_entry_data e He) as Hle. pose proof Hinv as [Hh Hl Hwf Hb].
  unfold wq_data in *. rewrite Hlive in *. cbn [mbind list_bind] in *. rewrite length_app in Hb.
  inversion Hwf as [|? ? _ Hrwf]; subst. rewrite !store_lt by lia. simpl.
  destruct (Z.ltb_spec n (we_size e - we_off e)).
  - eexists _, _, _. split; [done|]. set (e' := mkEntry _ _ _).
    assert (entry_wf e') as He' by (destruct He; split; simpl; lia).
    assert (entry_data e' = drop (Z.to_nat n) (entry_data e)) as Hd'.
    { unfold entry_data, e'. simpl. destruct He. by rewrite sub_drop by lia. }
    match goal with |- wq_inv ?x ∧ _ => set (q1 := x) end.
    assert (live q1 = e' :: drop (Z.to_nat (wq_head q + 1)) (wq_items q)) as Hlive1
      by (by apply drop_insert_here).
    unfold puts_account, owners. rewrite Hlive1, Hlive. split_and!; [| |by exists []].
    + split; unfold wq_data; rewrite ?Hlive1; cbn [q1 wq_items wq_head wq_bytes mbind list_bind];
        rewrite ?length_insert; [done|by right|by constructor|].
      rewrite Hd', length_app, length_drop. lia.
    + cbn [mbind list_bind]. by rewrite Hd', drop_app_le by lia.
  - rewrite length_insert.
    assert (∃ k, n = len (entry_data e) + k ∧ 0 ≤ k) as (k & Hk & Hk0) by (exists (n - len (entry_data e)); lia).
    assert (drop (Z.to_nat n) (entry_data e ++ (drop (Z.to_nat (wq_head q + 1)) (wq_items q) ≫= entry_data))
            = drop (Z.to_nat k) (drop (Z.to_nat (wq_head q + 1)) (wq_items q) ≫= entry_data)) as Hdrop.
    { rewrite drop_app_ge by lia. f_equal. lia. }
    destruct (Z.leb_spec (len (wq_items q)) (wq_head q + 1)).
    + eexists _, _, _. split; [done|]. unfold wq_data, puts_account, owners.
      destruct (resetEmpty_inv (mkQueue (<[Z.to_nat (wq_head q):=dead_entry]> (wq_items q)) (wq_head q + 1)
        (wq_bytes q - (we_size e - we_off e)) (wq_cap q))) as [Hri Hrl].
      rewrite Hrl, Hlive, Hdrop. rewrite (drop_ge (wq_items q)) by lia.
      split_and!; [done|simpl; by rewrite drop_nil|]. by exists [we_owner e].
    + set (q1 := mkQueue _ _ _ _).
      assert (live q1 = drop (Z.to_nat (wq_head q + 1)) (wq_items q)) as Hlive1.
      { unfold live, q1. simpl. by rewrite drop_insert_lt by lia. }
      assert (wq_inv q1) as Hinv1.
      { split; rewrite ?Hlive1; unfold wq_data; rewrite ?Hlive1; simpl; rewrite ?length_insert; try done; try lia. }
      destruct (IH (al_put pool (we_owner e)) q1 (n - (we_size e - we_off e)) Hinv1)
        as (pool' & q' & ret & -> & Hi' & Hd' & Hacc); [simpl; lia|simpl; rewrite length_insert; lia|].
      exists pool', q', ret. split; [done|]. split; [done|]. split.
      { unfold wq_data in *. rewrite Hd', Hlive1, Hdrop. f_equal. lia. }
      destruct Hacc as (puts & -> & Hp). exists (we_owner e :: puts). split; [done|].
      unfold owners at 2. rewrite Hlive. unfold owners in Hp at 2. rewrite Hlive1 in Hp. simpl. by rewrite Hp.
Qed.

Lemma consume_spec pool q n : wq_inv q →
  ∃ pool' q', writeQueue_consume T pool q n = Some (pool', q') ∧ wq_inv q' ∧
    wq_data q' = drop (Z.to_nat n) (wq_data q) ∧ puts_account pool pool' q' (owners q).
Proof.
  intros Hinv. pose proof Hinv as [Hh Hl Hwf Hb]. unfold writeQueue_consume. gcase.
  { eexists _, _. split; [done|]. split_and!; [done| |by exists []].
    destruct (Z.leb_spec n 0); [by replace (Z.to_nat n) with 0%nat by lia|].
    assert (wq_data q = []) as -> by (apply length_zero_iff_nil; lia). by rewrite drop_nil. }
  set (m := if wq_bytes q <? n then _ else _).
  assert (m = Z.min n (wq_bytes q)) as Hm by (subst m; gcase; lia).
  destruct (consume_loop_spec (S (length (wq_items q))) pool q m Hinv)
    as (pool' & q' & ret & -> & Hi' & Hd' & Hacc); [lia|lia|].
  assert (drop (Z.to_nat m) (wq_data q) = drop (Z.to_nat n) (wq_data q)) as Hmd.
  { destruct (decide (n ≤ wq_bytes q)); [f_equal; lia|]. rewrite !drop_ge by lia. done. }
  rewrite Hmd in Hd'. simpl.
  destruct ret; [by exists pool', q'|]. gcase; [|by exists pool', q'].
  pose proof Hi' as [Hh' Hl' Hwf' Hb'].
  assert (wq_head q' < len (wq_items q')) as Hlt by (destruct Hl' as [[E1 E2]|]; [rewrite E1 in *; simpl in *; lia|done]).
  rewrite slice_Some by lia. simpl. rewrite copy_at_Some by lia. simpl.
  rewrite slice_Some by (rewrite ?length_blit; lia). simpl.
  assert (sub (blit (wq_items q') 0 (sub (wq_items q') (wq_head q') (len (wq_items q')))) 0
            (len (wq_items q') - wq_head q') = live q') as ->.
  { rewrite sub_suffix by lia. unfold live.
    rewrite blit_front by (rewrite length_drop; lia). rewrite sub_prefix.
    apply take_app_length'. rewrite length_drop. lia. }
  eexists _, _. split; [done|]. unfold wq_data, live, puts_account, owners in *. cbn [wq_items wq_head].
  rewrite drop_0. split_and!; [|done|done].
  split; unfold wq_data, live in *; cbn [wq_items wq_head wq_bytes]; rewrite ?drop_0; try done.
  right. rewrite length_drop. lia.
Qed.

Lemma clear_loop_puts pool items :
  writeQueue_clear_loop pool items = foldl al_put pool (we_owner <$> items).
Proof. revert pool. induction items as [|e items IH]; intros pool; simpl; [done|]. by rewrite IH. Qed.

Lemma clear_spec pool q : ∃ pool' q', writeQueue_clear T pool q = (pool', q') ∧ wq_inv q' ∧
  wq_data q' = [] ∧ puts_account pool pool' q' (owners q).
Proof.
  unfold writeQueue_clear. eexists _, _. split; [done|].
  destruct (resetEmpty_inv q) as [Hi Hl]. split; [done|]. unfold wq_data. rewrite Hl. split; [done|].
  exists (we_owner <$> live q). split; [apply clear_loop_puts|].
  unfold owners. rewrite Hl, app_nil_r, <-list_fmap_compose. done.
Qed.

Lemma peek_spec q : wq_inv q → ∃ b, writeQueue_peek q = Some b ∧ b `prefix_of` wq_data q ∧
  (b = [] ↔ wq_data q = []).
Proof.
  intros Hinv. pose proof (qi_bytes _ Hinv) as Hb. unfold writeQueue_peek. gcase.
  { exists []. assert (wq_data q = []) as -> by (apply length_zero_iff_nil; lia). done. }
  destruct (live_head q Hinv) as (e & rest & -> & Hlive & He & _); [lia|]. simpl.
  pose proof He as [? ?]. zb. rewrite slice_Some by lia. eexists. split; [done|].
  unfold wq_data. rewrite Hlive. cbn [mbind list_bind]. pose proof (length_entry_data e He) as Hle.
  fold (entry_data e). split; [by apply prefix_app_r|].
  destruct (entry_data e); simpl in *; [lia|done].
Qed.

(** ** The queue over a life of a connection *)

Inductive wq_call : Type :=
| QEnqueue (owner : list Z) (size : Z)
| QConsume (n : Z).

Definition wq_call_ok (c : wq_call) : Prop :=
  match c with QEnqueue owner size => size ≤ len owner | QConsume _ => True end.

Definition wq_run (s : P * writeQueue) (c : wq_call) : option (P * writeQueue) :=
  match c with
  | QEnqueue owner size => writeQueue_enqueue grow T (fst s) (snd s) owner size
  | QConsume n => writeQueue_consume T (fst s) (snd s) n
  end.

Fixpoint wq_runs (s : P * writeQueue) (cs : list wq_call) : option (P * writeQueue) :=
  match cs with [] => Some s | c :: cs => s ← wq_run s c; wq_runs s cs end.

(** The specification: a string of bytes, and the buffers handed to the queue. *)
Definition spec_data (d : list Z) (c : wq_call) : list Z :=
  match c with
  | QEnqueue owner size => d ++ take (Z.to_nat size) owner
  | QConsume n => drop (Z.to_nat n) d
  end.

Definition given (c : wq_call) : list Z :=
  match c with QEnqueue owner _ => [len owner] | QConsume _ => [] end.

Lemma puts_account_trans pool pool1 pool2 q1 q2 acc l :
  puts_account pool pool1 q1 acc → puts_account pool1 pool2 q2 (owners q1 ++ l) →
  puts_account pool pool2 q2 (acc ++ l).
Proof.
  intros (p1 & -> & H1) (p2 & -> & H2). exists (p1 ++ p2). rewrite foldl_app. split; [done|].
  rewrite fmap_app, <-app_assoc, H2, app_assoc, H1. done.
Qed.

Lemma wq_run_spec pool q c : wq_inv q → wq_call_ok c →
  ∃ pool' q', wq_run (pool, q) c = Some (pool', q') ∧ wq_inv q' ∧
    wq_data q' = spec_data (wq_data q) c ∧ puts_account pool pool' q' (owners q ++ given c).
Proof.
  intros Hinv Hc. destruct c as [owner size|n]; simpl in *; [by apply enqueue_spec|].
  rewrite app_nil_r. by apply consume_spec.
Qed.

Lemma wq_runs_spec pool q cs : wq_inv q → Forall wq_call_ok cs →
  ∃ pool' q', wq_runs (pool, q) cs = Some (pool', q') ∧ wq_inv q' ∧
    wq_data q' = foldl spec_data (wq_data q) cs ∧
    puts_account pool pool' q' (owners q ++ (cs ≫= given)).
Proof.
  revert pool q. induction cs as [|c cs IH]; intros pool q Hinv Hok.
  { exists pool, q. split_and!; try done. exists []. split; [done|]. simpl. by rewrite app_nil_r. }
  inversion Hok as [|? ? Hc Hcs]; subst.
  destruct (wq_run_spec pool q c Hinv Hc) as (pool1 & q1 & E & Hi1 & Hd1 & Ha1).
  destruct (IH pool1 q1 Hi1 Hcs) as (pool2 & q2 & E2 & Hi2 & Hd2 & Ha2).
  exists pool2, q2. simpl in *. rewrite E. simpl. split_and!; [done|done|by rewrite Hd2, Hd1|].
  rewrite app_assoc. by eapply puts_account_trans.
Qed.

(** C12: for any sequence of [enqueue] and [consume] on a new queue (coalescing
    into the tail, compacting it, and shifting the item array included) nothing
    panics, the pending bytes are exactly those of a FIFO byte string, [pending]
    is their number, and [peek] returns a prefix of them that is empty only when
    nothing is pending. *)
Theorem writequeue_refines_fifo (pool : P) (cs : list wq_call) : Forall wq_call_ok cs →
  ∃ pool' q' b, wq_runs (pool, wq_empty) cs = Some (pool', q') ∧ wq_inv q' ∧
    wq_data q' = foldl spec_data [] cs ∧ writeQueue_pending q' = len (foldl spec_data [] cs) ∧
    writeQueue_peek q' = Some b ∧ b `prefix_of` foldl spec_data [] cs ∧
    (b = [] ↔ foldl spec_data [] cs = []).
Proof.
  intros Hok. destruct (wq_runs_spec pool wq_empty cs (wq_inv_empty 0) Hok)
    as (pool' & q' & E & Hi & Hd & _).
  destruct (peek_spec q' Hi) as (b & Hp & Hpre & Hn). exists pool', q', b.
  change (wq_data wq_empty) with (@nil Z) in Hd. rewrite <-Hd. split_and!; try done. apply Hi.
Qed.

(** C28: buffer ownership.  After any such sequence, [clear] (run when the
    connection closes) has returned every buffer given to [enqueue] to the
    allocator exactly once, coalesced and empty ones included: the [Put]s made
    are, up to order, the buffers given, so none leaks and none is put twice. *)
Theorem writequeue_puts_every_buffer_once (pool : P) (cs : list wq_call) : Forall wq_call_ok cs →
  ∃ pool1 q1 pool2 q2 puts, wq_runs (pool, wq_empty) cs = Some (pool1, q1) ∧
    writeQueue_clear T pool1 q1 = (pool2, q2) ∧ wq_data q2 = [] ∧
    pool2 = foldl al_put pool puts ∧ ((λ b, len b) <$> puts) ≡ₚ (cs ≫= given).
Proof.
  intros Hok. destruct (wq_runs_spec pool wq_empty cs (wq_inv_empty 0) Hok)
    as (pool1 & q1 & E & Hi & _ & Ha).
  destruct (clear_spec pool1 q1) as (pool2 & q2 & Ec & _ & Hd & Ha2).
  rewrite <-(app_nil_r (owners q1)) in Ha2.
  destruct (puts_account_trans _ _ _ _ _ _ _ Ha Ha2) as (puts & -> & Hp).
  exists pool1, q1, (foldl al_put pool puts), q2, puts. split_and!; try done.
  assert (owners q2 = []) as Ho.
  { unfold writeQueue_clear in Ec. simplify_eq. unfold owners. by rewrite (proj2 (resetEmpty_inv q1)). }
  rewrite Ho, !app_nil_r in Hp. exact Hp.
Qed.

End QueueLemmas.

Lemma puts_inv {P} `{AllocatorLaws P} (pool : P) puts : al_inv pool →
  al_inv (foldl al_put pool puts) ∧ al_max (foldl al_put pool puts) = al_max pool.
Proof.
  revert pool. induction puts as [|b puts IH]; intros pool Hinv; simpl; [done|].
  destruct (al_put_inv pool b Hinv) as [Hi Hm]. destruct (IH _ Hi) as [? ?]. split; [done|congruence].
Qed.

Lemma puts_account_inv {P} `{AllocatorLaws P} (pool pool' : P) q acc : al_inv pool → puts_account pool pool' q acc →
  al_inv pool' ∧ al_max pool' = al_max pool.
Proof. intros Hi (puts & -> & _). by apply puts_inv. Qed.

#[local] Existing Instances test_Allocator test_AllocatorLaws.

(** The calls of the witnesses: a write, a small one coalesced into the first
    buffer after a partial send, and an empty one. *)
Definition test_calls : list wq_call :=
  [QEnqueue (make_bytes 16) 10; QConsume 6; QEnqueue [7; 8; 9] 3; QEnqueue [1] 0; QConsume 2].

Lemma writequeue_refines_fifo_witness :
  ∃ pool' q' b, wq_runs (λ c n, n) (g_conn initial_globals) (test_pool, wq_empty) test_calls = Some (pool', q') ∧
    wq_inv q' ∧ wq_data q' = [0; 0; 7; 8; 9] ∧ writeQueue_pending q' = 5 ∧
    writeQueue_peek q' = Some b ∧ b `prefix_of` [0; 0; 7; 8; 9] ∧ (b = [] ↔ [0; 0; 7; 8; 9] = @nil Z).
Proof.
  apply (writequeue_refines_fifo (λ c n, n) (g_conn initial_globals) test_pool test_calls).
  repeat constructor; vm_compute; discriminate.
Defined.

Lemma writequeue_puts_every_buffer_once_witness :
  ∃ pool1 q1 pool2 q2 puts,
    wq_runs (λ c n, n) (g_conn initial_globals) (test_pool, wq_empty) test_calls = Some (pool1, q1) ∧
    writeQueue_clear (g_conn initial_globals) pool1 q1 = (pool2, q2) ∧ wq_data q2 = [] ∧
    pool2 = foldl al_put test_pool puts ∧ ((λ b, len b) <$> puts) ≡ₚ [16; 3; 1].
Proof.
  apply (writequeue_puts_every_buffer_once (λ c n, n) (g_conn initial_globals) test_pool test_calls).
  repeat constructor; vm_compute; discriminate.
Defined.
