(* ===== verification/Conn.v ===== *)
(** * connection/{base,conn,flush,writev_unix,fdconn}.go: a plain TCP connection

    The operating system is the class [Kernel]: its system calls act on a state
    [K]; [k_out k fd] is the byte string the kernel has accepted for [fd] and
    [k_in k fd] the one it has handed out.
    [flushWriteQueue] sends the pending bytes with [writev]. *)

From stdpp Require Import strings.
From S2P Require Import Prelude Pool Tuning WriteQueue RingBuffer.

(** ** The operating system *)

(** [read] gives the bytes stored at the front of the caller's buffer of [n]
    bytes; the returned count is their number, or -1 with an error. *)
Class Kernel (K : Type) := {
  sys_read : K → Z → Z → K * list Z * Z * option errno;
  sys_write : K → Z → list Z → K * Z * option errno;
  sys_writev : K → Z → list (list Z) → K * Z * option errno;
  sys_shutdown : K → Z → K * option errno;
  sys_close : K → Z → K * option errno;
  k_out : K → Z → list Z;
  k_in : K → Z → list Z;
}.

(** What [write(2)], [writev(2)] and [read(2)] promise: a call either fails with
    -1 and accepts nothing, or accepts a prefix of what it was given, and touches
    no other descriptor. *)
Class KernelLaws (K : Type) `{Kernel K} : Prop := {
  sys_writev_ok k fd bs : let '(k', n, e) := sys_writev k fd bs in
    (∀ fd', fd' ≠ fd → k_out k' fd' = k_out k fd') ∧ (∀ fd', k_in k' fd' = k_in k fd') ∧
    match e with
    | Some _ => n = -1 ∧ k_out k' fd = k_out k fd
    | None => 0 ≤ n ≤ len (concat bs) ∧ k_out k' fd = k_out k fd ++ take (Z.to_nat n) (concat bs)
    end;
  sys_write_ok k fd b : let '(k', n, e) := sys_write k fd b in
    (∀ fd', fd' ≠ fd → k_out k' fd' = k_out k fd') ∧ (∀ fd', k_in k' fd' = k_in k fd') ∧
    match e with
    | Some _ => n = -1 ∧ k_out k' fd = k_out k fd
    | None => 0 ≤ n ≤ len b ∧ k_out k' fd = k_out k fd ++ take (Z.to_nat n) b
    end;
  sys_read_ok k fd m : let '(k', d, n, e) := sys_read k fd m in
    (∀ fd', k_out k' fd' = k_out k fd') ∧ (∀ fd', fd' ≠ fd → k_in k' fd' = k_in k fd') ∧
    k_in k' fd = k_in k fd ++ d ∧
    match e with
    | Some _ => n = -1 ∧ d = []
    | None => n = len d ∧ len d ≤ Z.max 0 m
    end;
  sys_close_ok k fd : ∀ fd', k_out (fst (sys_close k fd)) fd' = k_out k fd' ∧
                             k_in (fst (sys_close k fd)) fd' = k_in k fd';
}.

(** ** Connection state *)

Definition TYPE_CONN : Z := 0.
Definition TYPE_CONN_OPENSSL : Z := 1.
Definition TYPE_CONN_TLS : Z := 2.

Definition CMD_NOP : Z := 0.
Definition CMD_DATA : Z := 1.
Definition CMD_CLOSE : Z := 2.

Definition maxWritevIovecs : Z := 64.

(** [Base].  [H] is the type of packet handlers, [A] of addresses; [ctx] and
    [ep] are opaque values of type [X]. *)
Record Base (H A X : Type) := mkBase {
  b_ctx : option X;
  b_fd : Z;
  b_id : Z;
  b_loopID : Z;
  b_h : option H;
  b_recvbuf : option RingBuffer;
  b_local : option A;
  b_remote : option A;
  b_localAddr : string;
  b_remoteAddr : string;
  b_acceptAddr : string;
  b_Client : bool;
  b_ep : option X;
  b_recv : Z;      (* int32 *)
  b_send : Z;      (* int32 *)
  b_lastRecv : Z;
  b_wq : writeQueue;
}.
Arguments mkBase {H A X}.
Arguments b_ctx {H A X}. Arguments b_fd {H A X}. Arguments b_id {H A X}.
Arguments b_loopID {H A X}. Arguments b_h {H A X}. Arguments b_recvbuf {H A X}.
Arguments b_local {H A X}. Arguments b_remote {H A X}. Arguments b_localAddr {H A X}.
Arguments b_remoteAddr {H A X}. Arguments b_acceptAddr {H A X}. Arguments b_Client {H A X}.
Arguments b_ep {H A X}. Arguments b_recv {H A X}. Arguments b_send {H A X}.
Arguments b_lastRecv {H A X}. Arguments b_wq {H A X}.

Section Base.
Context {H A X : Type}.
Implicit Types (c : Base H A X).

Definition Base_SetFd c fd : Base H A X :=
  mkBase (b_ctx c) fd (b_id c) (b_loopID c) (b_h c) (b_recvbuf c) (b_local c) (b_remote c)
    (b_localAddr c) (b_remoteAddr c) (b_acceptAddr c) (b_Client c) (b_ep c) (b_recv c) (b_send c)
    (b_lastRecv c) (b_wq c).

Definition Base_SetID c id : Base H A X :=
  mkBase (b_ctx c) (b_fd c) id (b_loopID c) (b_h c) (b_recvbuf c) (b_local c) (b_remote c)
    (b_localAddr c) (b_remoteAddr c) (b_acceptAddr c) (b_Client c) (b_ep c) (b_recv c) (b_send c)
    (b_lastRecv c) (b_wq c).

Definition Base_SetLoopID c loopID : Base H A X :=
  mkBase (b_ctx c) (b_fd c) (b_id c) loopID (b_h c) (b_recvbuf c) (b_local c) (b_remote c)
    (b_localAddr c) (b_remoteAddr c) (b_acceptAddr c) (b_Client c) (b_ep c) (b_recv c) (b_send c)
    (b_lastRecv c) (b_wq c).

Definition Base_SetRecvbuf c buf : Base H A X :=
  mkBase (b_ctx c) (b_fd c) (b_id c) (b_loopID c) (b_h c) (Some buf) (b_local c) (b_remote c)
    (b_localAddr c) (b_remoteAddr c) (b_acceptAddr c) (b_Client c) (b_ep c) (b_recv c) (b_send c)
    (b_lastRecv c) (b_wq c).

Definition Base_SetContext c ctx : Base H A X :=
  mkBase ctx (b_fd c) (b_id c) (b_loopID c) (b_h c) (b_recvbuf c) (b_local c) (b_remote c)
    (b_localAddr c) (b_remoteAddr c) (b_acceptAddr c) (b_Client c) (b_ep c) (b_recv c) (b_send c)
    (b_lastRecv c) (b_wq c).

Definition Base_UpdatePktHandler c h : Base H A X :=
  mkBase (b_ctx c) (b_fd c) (b_id c) (b_loopID c) (Some h) (b_recvbuf c) (b_local c) (b_remote c)
    (b_localAddr c) (b_remoteAddr c) (b_acceptAddr c) (b_Client c) (b_ep c) (b_recv c) (b_send c)
    (b_lastRecv c) (b_wq c).

Definition Base_SetPktHandler c h : Base H A X :=
  match b_h c with None => Base_UpdatePktHandler c h | Some _ => c end.

Definition Base_set_counters c recv send : Base H A X :=
  mkBase (b_ctx c) (b_fd c) (b_id c) (b_loopID c) (b_h c) (b_recvbuf c) (b_local c) (b_remote c)
    (b_localAddr c) (b_remoteAddr c) (b_acceptAddr c) (b_Client c) (b_ep c) recv send
    (b_lastRecv c) (b_wq c).

Definition Base_SetLastRecv c ts : Base H A X :=
  mkBase (b_ctx c) (b_fd c) (b_id c) (b_loopID c) (b_h c) (b_recvbuf c) (b_local c) (b_remote c)
    (b_localAddr c) (b_remoteAddr c) (b_acceptAddr c) (b_Client c) (b_ep c) (b_recv c) (b_send c)
    ts (b_wq c).

Definition Base_set_wq c wq : Base H A X :=
  mkBase (b_ctx c) (b_fd c) (b_id c) (b_loopID c) (b_h c) (b_recvbuf c) (b_local c) (b_remote c)
    (b_localAddr c) (b_remoteAddr c) (b_acceptAddr c) (b_Client c) (b_ep c) (b_recv c) (b_send c)
    (b_lastRecv c) wq.

(** [atomic.AddInt32(&x, d)] wraps at 32 bits. *)
Definition AddInt32 (x d : Z) : Z := wrapS 32 (x + wrapS 32 d).

Definition Base_GetSend c (reset : bool) : Base H A X * Z :=
  let val := b_send c in
  (if reset then Base_set_counters c (b_recv c) (AddInt32 (b_send c) (- val)) else c, val).

Definition Base_GetRecv c (reset : bool) : Base H A X * Z :=
  let val := b_recv c in
  (if reset then Base_set_counters c (AddInt32 (b_recv c) (- val)) (b_send c) else c, val).

Definition Base_PendingWrite c : Z := writeQueue_pending (b_wq c).

Context {P : Type} `{!Allocator P}.
Variable grow : Z → Z → Z.
Variable T : Connection.

Definition Base_EnqueueWrite (pool : P) c (buf : list Z) (size : Z) : option (P * Base H A X) :=
  '(pool, wq) ← writeQueue_enqueue grow T pool (b_wq c) buf size;
  Some (pool, Base_set_wq c wq).

Definition Base_peekWrite c : option (list Z) := writeQueue_peek (b_wq c).

Definition Base_consumeWrite (pool : P) c n : option (P * Base H A X) :=
  '(pool, wq) ← writeQueue_consume T pool (b_wq c) n; Some (pool, Base_set_wq c wq).

Definition Base_clearWrite (pool : P) c : P * Base H A X :=
  let '(pool, wq) := writeQueue_clear T pool (b_wq c) in (pool, Base_set_wq c wq).

(** The [ICmdRecv] the connection sends its commands to, and what it answers. *)
Definition Base_AddCmd {R E} (add : R → Z → Z → bool → Z → list Z → R * E) (r : R) c (cmd : Z) (data : list Z) : R * E :=
  add r cmd (b_fd c) (b_Client c) (b_id c) data.

End Base.

(** ** Flushing the write queue *)

Section Flush.
Context {P K : Type} `{!Allocator P, !Kernel K}.
Variable T : Connection.

(** The loop that fills the [iovecs] array from the items at index [head] on;
    [iovcnt] slots are used already. *)
Fixpoint build_iovecs (items : list writeEntry) (maxBytes remaining : Z) (iovcnt : Z) :
    option (list (list Z)) :=
  match items with
  | [] => Some []
  | item :: items =>
      if maxWritevIovecs <=? iovcnt then Some []
      else if we_size item <=? we_off item then build_iovecs items maxBytes remaining iovcnt
      else
        b ← slice (we_owner item) (we_off item) (we_size item);
        if 0 <? maxBytes then
          if remaining <=? 0 then Some []
          else
            let b := if remaining <? len b then take (Z.to_nat remaining) b else b in
            rest ← build_iovecs items maxBytes (remaining - len b) (iovcnt + 1);
            Some (b :: rest)
        else
          rest ← build_iovecs items maxBytes remaining (iovcnt + 1);
          Some (b :: rest)
  end.

Definition writev (k : K) (fd : Z) (iovecs : list (list Z)) : K * Z * option errno :=
  match iovecs with [] => (k, 0, None) | _ => sys_writev k fd iovecs end.

(** Result: allocator, kernel, queue, the send counter, and the pair returned. *)
Definition flushWriteQueue (pool : P) (k : K) (fd : Z) (wq : writeQueue) (maxBytes send : Z) :
    option (P * K * writeQueue * Z * (Z * option errno)) :=
  if fd =? 0 then Some (pool, k, wq, send, (0, Some EBADF))
  else if writeQueue_pending wq =? 0 then Some (pool, k, wq, send, (0, None))
  else
    iovecs ← build_iovecs (drop (Z.to_nat (wq_head wq)) (wq_items wq)) maxBytes maxBytes 0;
    match iovecs with
    | [] => Some (pool, k, wq, send, (0, None))
    | _ =>
        let '(k, n, err) := writev k fd iovecs in
        let n := if bool_decide (err = Some EAGAIN) && (n <? 0) then 0 else n in
        if n <=? 0 then Some (pool, k, wq, send, (n, err))
        else
          '(pool, wq) ← writeQueue_consume T pool wq n;
          Some (pool, k, wq, AddInt32 send n, (n, err))
    end.

End Flush.

(** ** conn.go *)

(** [Conn]: the callbacks [opencb] and [closecb] are calls the application sees;
    they are recorded in a log by the operations that make them. *)
Record Conn (H A X : Type) := mkConn {
  c_base : Base H A X; c_closecb : bool; c_opencb : bool }.
Arguments mkConn {H A X}. Arguments c_base {H A X}. Arguments c_closecb {H A X}. Arguments c_opencb {H A X}.

Section Conn.
Context {P K H A X : Type} `{!Allocator P, !Kernel K}.
Variable grow : Z → Z → Z.
Variable T : Connection.
Variable String : A → string.   (* net.Addr.String *)
Implicit Types (c : Conn H A X).

Definition Conn_with_base c (b : Base H A X) : Conn H A X := mkConn b (c_closecb c) (c_opencb c).

Definition Base_set_addrs (b : Base H A X) local remote localAddr remoteAddr : Base H A X :=
  mkBase (b_ctx b) (b_fd b) (b_id b) (b_loopID b) (b_h b) (b_recvbuf b) local remote
    localAddr remoteAddr (b_acceptAddr b) (b_Client b) (b_ep b) (b_recv b) (b_send b)
    (b_lastRecv b) (b_wq b).

Definition Conn_SetRemote c (addr : option A) : Conn H A X :=
  Conn_with_base c (Base_set_addrs (c_base c) (b_local (c_base c)) addr (b_localAddr (c_base c)) "").

Definition Conn_SetLocal c (addr : option A) : Conn H A X :=
  Conn_with_base c (Base_set_addrs (c_base c) addr (b_remote (c_base c)) "" (b_remoteAddr (c_base c))).

Definition Conn_GetLocalAddr c : Conn H A X * string :=
  let b := c_base c in
  match b_local b with
  | None => (c, "")
  | Some a =>
      let s := if String.eqb (b_localAddr b) "" then String a else b_localAddr b in
      (Conn_with_base c (Base_set_addrs b (b_local b) (b_remote b) s (b_remoteAddr b)), s)
  end.

Definition Conn_GetRemoteAddr c : Conn H A X * string :=
  let b := c_base c in
  match b_remote b with
  | None => (c, "")
  | Some a =>
      let s := if String.eqb (b_remoteAddr b) "" then String a else b_remoteAddr b in
      (Conn_with_base c (Base_set_addrs b (b_local b) (b_remote b) (b_localAddr b) s), s)
  end.

(** [Read] into a buffer of [n] bytes: the bytes stored in it, and the pair returned. *)
Definition Conn_Read (k : K) c (n : Z) : K * Conn H A X * list Z * (Z * option errno) :=
  let b := c_base c in
  let '(k, d, r, e) := sys_read k (b_fd b) n in
  let r := if bool_decide (e = Some EAGAIN) then 0 else r in
  let b := if 0 <? r then Base_set_counters b (AddInt32 (b_recv b) r) (b_send b) else b in
  (k, Conn_with_base c b, d, (r, e)).

Definition Conn_Write (k : K) c (p : list Z) : K * Conn H A X * (Z * option errno) :=
  let b := c_base c in
  if b_fd b =? 0 then (k, c, (0, Some EBADF))
  else
    let '(k, n, e) := sys_write k (b_fd b) p in
    let b := if 0 <? n then Base_set_counters b (b_recv b) (AddInt32 (b_send b) n) else b in
    (k, Conn_with_base c b, (n, e)).

(** The last component says whether [closecb.OnClose] ran. *)
Definition Conn_Close (pool : P) (k : K) c : P * K * Conn H A X * option errno * bool :=
  let '(pool, b) := Base_clearWrite T pool (c_base c) in
  let '(k, err) := sys_close k (b_fd b) in
  (pool, k, Conn_with_base c (Base_SetFd b 0), err, c_closecb c).

Definition Conn_GetType c : Z := TYPE_CONN.

Definition Conn_FlushN (pool : P) (k : K) c (maxBytes : Z) :
    option (P * K * Conn H A X * (Z * option errno)) :=
  let b := c_base c in
  '(pool, k, wq, send, r) ← flushWriteQueue T pool k (b_fd b) (b_wq b) maxBytes (b_send b);
  Some (pool, k, Conn_with_base c (Base_set_counters (Base_set_wq b wq) (b_recv b) send), r).

End Conn.

(** ** fdconn.go *)

(** [fdConn]'s [Read]/[Write]: negative counts become 0 and EAGAIN becomes a
    timeout error, here [EOTHER 0]. *)
Definition fdTimeoutError : errno := EOTHER 0.

Definition fdConn_result (n : Z) (e : option errno) : Z * option errno :=
  let n := if n <? 0 then 0 else n in
  if bool_decide (e = Some EAGAIN) then (n, Some fdTimeoutError) else (n, e).

Definition fdConn_Read {K} `{!Kernel K} (k : K) (fd n : Z) : K * list Z * (Z * option errno) :=
  let '(k, d, r, e) := sys_read k fd n in (k, d, fdConn_result r e).

Definition fdConn_Write {K} `{!Kernel K} (k : K) (fd : Z) (p : list Z) : K * (Z * option errno) :=
  let '(k, n, e) := sys_write k fd p in (k, fdConn_result n e).

(** ** What a flush does to the byte stream *)

Section FlushLemmas.
Context {P K : Type} `{!Allocator P, !Kernel K, !KernelLaws K}.
Variable grow : Z → Z → Z.
Variable T : Connection.

Lemma build_iovecs_spec items maxBytes remaining iovcnt :
  Forall entry_wf items → 0 ≤ iovcnt →
  ∃ iovs, build_iovecs items maxBytes remaining iovcnt = Some iovs ∧
    concat iovs `prefix_of` (items ≫= entry_data) ∧
    Forall (λ b, b ≠ []) iovs ∧
    len iovs ≤ Z.max 0 (maxWritevIovecs - iovcnt) ∧
    (0 < maxBytes → len (concat iovs) ≤ Z.max 0 remaining) ∧
    (items ≠ [] → iovcnt < maxWritevIovecs → maxBytes ≤ 0 ∨ 0 < remaining → iovs ≠ []).
Proof.
  revert remaining iovcnt. induction items as [|e items IH]; intros remaining iovcnt Hwf Hcnt.
  { exists []. split_and!; try done; simpl; lia. }
  inversion Hwf as [|? ? He Hrest]; subst. pose proof He as [? ?]. simpl.
  pose proof (length_entry_data e He) as Hle. fold (entry_data e) in *.
  gcase.
  { exists []. split_and!; try done; [apply prefix_nil|simpl; lia..|lia]. }
  zb. rewrite slice_Some by lia. simpl. fold (entry_data e).
  destruct (Z.ltb_spec 0 maxBytes) as [Hmax|Hmax].
  - destruct (Z.leb_spec remaining 0).
    { exists []. split_and!; try done; [apply prefix_nil|simpl; lia..|lia]. }
    destruct (Z.ltb_spec remaining (len (entry_data e))) as [Hcut|Hcut].
    + set (b := take _ _). assert (len b = remaining) as Hb by (unfold b; rewrite length_take; lia).
      destruct (IH (remaining - len b) (iovcnt + 1) Hrest) as (iovs & -> & Hpre & Hne & Hn & Hm & Hsome); [lia|].
      assert (concat iovs = []) as Hnil by (apply length_zero_iff_nil; lia).
      assert (iovs = []) as ->.
      { destruct iovs as [|x iovs]; [done|]. apply Forall_cons_1 in Hne as [? _]. simpl in Hnil.
        apply app_eq_nil in Hnil as [? _]. done. }
      eexists. split; [done|]. simpl. rewrite app_nil_r. split_and!; try done.
      * unfold b. apply prefix_app_r, prefix_take.
      * constructor; [|done]. intros E. rewrite E in Hb. simpl in *. lia.
      * lia.
      * lia.
    + destruct (IH (remaining - len (entry_data e)) (iovcnt + 1) Hrest) as (iovs & -> & Hpre & Hne & Hn & Hm & Hsome); [lia|].
      eexists. split; [done|]. simpl. split_and!; try done.
      * by apply prefix_app.
      * constructor; [|done]. intros E. rewrite E in Hle. simpl in *. lia.
      * lia.
      * rewrite length_app. lia.
  - destruct (IH remaining (iovcnt + 1) Hrest) as (iovs & -> & Hpre & Hne & Hn & Hm & Hsome); [lia|].
    eexists. split; [done|]. simpl. split_and!; try done.
    * by apply prefix_app.
    * constructor; [|done]. intros E. rewrite E in Hle. simpl in *. lia.
    * lia.
    * lia.
Qed.

(** One flush moves the front of the queue to the kernel. *)
Record flush_effect (fd maxBytes send : Z) (pool : P) (k : K) (wq : writeQueue)
    (pool' : P) (k' : K) (wq' : writeQueue) (send' n : Z) (err : option errno) : Prop := {
  fe_inv : wq_inv wq';
  fe_data : wq_data wq' = drop (Z.to_nat n) (wq_data wq);
  fe_out : k_out k' fd = k_out k fd ++ take (Z.to_nat n) (wq_data wq);
  fe_other fd' : fd' ≠ fd → k_out k' fd' = k_out k fd';
  fe_in fd' : k_in k' fd' = k_in k fd';
  fe_le : n ≤ len (wq_data wq);
  fe_max : 0 < maxBytes → n ≤ maxBytes;
  fe_neg : n < 0 → n = -1 ∧ err ≠ None ∧ err ≠ Some EAGAIN;
  fe_send : wrapS 32 send = send → send' = wrapS 32 (send + Z.max 0 n);
  fe_puts : puts_account pool pool' wq' (owners wq);
}.

Lemma flush_nothing fd maxBytes send pool k wq n err : wq_inv wq → n ≤ 0 →
  (n < 0 → n = -1 ∧ err ≠ None ∧ err ≠ Some EAGAIN) →
  flush_effect fd maxBytes send pool k wq pool k wq send n err.
Proof.
  intros Hinv Hn Hneg. assert (Z.to_nat n = 0%nat) as Hz by lia.
  split; rewrite ?Hz, ?take_0, ?app_nil_r; try done; try lia.
  - intros E. by replace (send + Z.max 0 n) with send by lia.
  - by exists [].
Qed.

Lemma flush_spec pool k fd wq maxBytes send : wq_inv wq → fd ≠ 0 →
  ∃ pool' k' wq' send' n err,
    flushWriteQueue T pool k fd wq maxBytes send = Some (pool', k', wq', send', (n, err)) ∧
    flush_effect fd maxBytes send pool k wq pool' k' wq' send' n err.
Proof.
  intros Hinv Hfd. unfold flushWriteQueue. zb. unfold writeQueue_pending. gcase.
  { eexists _, _, _, _, _, _. split; [done|]. apply flush_nothing; [done|lia..]. }
  pose proof Hinv as [Hh Hl Hwf Hb].
  destruct (build_iovecs_spec (live wq) maxBytes maxBytes 0 Hwf)
    as (iovs & E & [rest Hpre] & Hne & Hn & Hm & Hsome); [lia|].
  fold (live wq). rewrite E. cbn [mbind option_bind].
  fold (wq_data wq) in Hpre.
  destruct iovs as [|b iovs].
  { eexists _, _, _, _, _, _. split; [done|]. apply flush_nothing; [done|lia..]. }
  cbn [writev].
  pose proof (sys_writev_ok k fd (b :: iovs)) as Hw.
  destruct (sys_writev k fd (b :: iovs)) as [[k' n] err]. destruct Hw as (Hother & Hin & Hres).
  destruct err as [er|].
  - destruct Hres as [-> Hk].
    assert (∀ n', n' ≤ 0 → (n' < 0 → n' = -1 ∧ Some er ≠ None ∧ Some er ≠ Some EAGAIN) →
      flush_effect fd maxBytes send pool k wq pool k' wq send n' (Some er)) as Heff.
    { intros n' Hn' Hneg. destruct (flush_nothing fd maxBytes send pool k wq n' (Some er) Hinv Hn' Hneg).
      split; try done; [congruence]. }
    case_bool_decide as Her; simpl; (eexists _, _, _, _, _, _; split; [done|]); apply Heff; try lia.
    intros _. split_and!; done.
  - destruct Hres as [Hle Hk]. rewrite bool_decide_false by done. simpl.
    destruct (Z.leb_spec n 0).
    { assert (n = 0) as -> by lia. eexists _, _, _, _, _, _. split; [done|].
      destruct (flush_nothing fd maxBytes send pool k wq 0 None Hinv) as []; [lia..|].
      rewrite take_0, app_nil_r in Hk. split; try done. by rewrite Hk, take_0, app_nil_r. }
    destruct (consume_spec T pool wq n Hinv) as (pool' & wq' & -> & Hi' & Hd' & Ha). simpl.
    eexists _, _, _, _, _, _. split; [done|].
    assert (n ≤ len (wq_data wq)) by (rewrite Hpre, length_app; lia).
    split; try done; try lia.
    + rewrite Hk, Hpre. by rewrite (take_app_le (concat (b :: iovs)) rest) by lia.
    + unfold AddInt32. rewrite wrapS_add_r. intros _. f_equal. lia.
Qed.

(** ** The output of a connection *)

Inductive out_call : Type :=
| OEnqueue (buf : list Z) (size : Z)
| OFlush (maxBytes : Z).

Context {H A X : Type}.

Definition out_run (s : P * K * Conn H A X) (c : out_call) : option (P * K * Conn H A X) :=
  let '(pool, k, cn) := s in
  match c with
  | OEnqueue buf size =>
      '(pool, b) ← Base_EnqueueWrite grow T pool (c_base cn) buf size; Some (pool, k, Conn_with_base cn b)
  | OFlush m => '(pool, k, cn, _) ← Conn_FlushN T pool k cn m; Some (pool, k, cn)
  end.

Fixpoint out_runs (s : P * K * Conn H A X) (cs : list out_call) : option (P * K * Conn H A X) :=
  match cs with [] => Some s | c :: cs => s ← out_run s c; out_runs s cs end.

Definition out_given (c : out_call) : list Z :=
  match c with OEnqueue buf size => take (Z.to_nat size) buf | OFlush _ => [] end.

Definition out_call_ok (c : out_call) : Prop :=
  match c with OEnqueue buf size => size ≤ len buf | OFlush _ => True end.

(** [sent] bytes have been handed to the kernel since the connection was new. *)
Definition out_inv (k0 k : K) (cn : Conn H A X) (given : list Z) : Prop :=
  wq_inv (b_wq (c_base cn)) ∧ ∃ sent, k_out k (b_fd (c_base cn)) = k_out k0 (b_fd (c_base cn)) ++ sent ∧
  sent ++ wq_data (b_wq (c_base cn)) = given ∧ b_send (c_base cn) = wrapS 32 (len sent).

Lemma out_run_spec k0 pool k cn given c : b_fd (c_base cn) ≠ 0 → out_call_ok c →
  out_inv k0 k cn given →
  ∃ pool' k' cn', out_run (pool, k, cn) c = Some (pool', k', cn') ∧
    b_fd (c_base cn') = b_fd (c_base cn) ∧ out_inv k0 k' cn' (given ++ out_given c).
Proof.
  intros Hfd Hok (Hinv & sent & Hk & Hgiven & Hsend). destruct c as [buf size|m]; simpl in *.
  - unfold Base_EnqueueWrite.
    destruct (enqueue_spec grow T pool (b_wq (c_base cn)) buf size Hinv Hok) as (pool' & q' & -> & Hi & Hd & _).
    simpl. eexists _, _, _. split; [done|]. split; [done|]. split; [done|].
    exists sent. simpl. rewrite Hd, app_assoc, Hgiven. done.
  - unfold Conn_FlushN.
    destruct (flush_spec pool k (b_fd (c_base cn)) (b_wq (c_base cn)) m (b_send (c_base cn)) Hinv Hfd)
      as (pool' & k' & wq' & send' & n & err & -> & [Hi Hd Ho _ _ Hle _ _ Hs _]). simpl.
    eexists _, _, _. split; [done|]. split; [done|]. split; [done|]. simpl.
    exists (sent ++ take (Z.to_nat n) (wq_data (b_wq (c_base cn)))).
    rewrite Ho, Hk, Hd, app_assoc. split; [done|]. rewrite <-(app_assoc sent), take_drop, app_nil_r.
    split; [done|]. rewrite Hs by (rewrite Hsend; apply wrapS_idem).
    rewrite Hsend, wrapS_add_l. f_equal. rewrite length_app, length_take. lia.
Qed.

Lemma out_runs_spec k0 pool k cn given cs : b_fd (c_base cn) ≠ 0 → Forall out_call_ok cs →
  out_inv k0 k cn given →
  ∃ pool' k' cn', out_runs (pool, k, cn) cs = Some (pool', k', cn') ∧
    b_fd (c_base cn') = b_fd (c_base cn) ∧ out_inv k0 k' cn' (given ++ (cs ≫= out_given)).
Proof.
  revert pool k cn given. induction cs as [|c cs IH]; intros pool k cn given Hfd Hok Hinv.
  { exists pool, k, cn. simpl. by rewrite app_nil_r. }
  inversion Hok as [|? ? Hc Hcs]; subst.
  destruct (out_run_spec k0 pool k cn given c Hfd Hc Hinv) as (pool1 & k1 & cn1 & E & Hfd1 & Hi1).
  destruct (IH pool1 k1 cn1 (given ++ out_given c)) as (pool2 & k2 & cn2 & E2 & Hfd2 & Hi2); [congruence|done..|].
  exists pool2, k2, cn2. change (out_runs (pool, k, cn) (c :: cs)) with (s ← out_run (pool, k, cn) c; out_runs s cs).
  rewrite E. simpl. split; [done|]. split; [congruence|]. simpl. by rewrite app_assoc.
Qed.

(** C10: the output stream of a connection.  On a connection with an open
    descriptor and an empty queue, for any interleaving of [EnqueueWrite] and
    [FlushN] calls, and whatever the kernel accepts at each [writev] (short
    writes, EAGAIN, errors), no call panics, and the bytes the kernel received
    followed by the bytes still queued are the enqueued bytes: none lost, none
    sent twice, in order.  [GetSend] counts the bytes sent modulo 2^32. *)
Theorem conn_output_in_order (pool : P) (k : K) (cn : Conn H A X) (cs : list out_call) :
  b_fd (c_base cn) ≠ 0 → b_wq (c_base cn) = wq_empty → b_send (c_base cn) = 0 → Forall out_call_ok cs →
  ∃ pool' k' cn' sent, out_runs (pool, k, cn) cs = Some (pool', k', cn') ∧
    k_out k' (b_fd (c_base cn)) = k_out k (b_fd (c_base cn)) ++ sent ∧
    sent ++ wq_data (b_wq (c_base cn')) = cs ≫= out_given ∧
    Base_PendingWrite (c_base cn') = len (cs ≫= out_given) - len sent ∧
    snd (Base_GetSend (c_base cn') false) = wrapS 32 (len sent).
Proof.
  intros Hfd Hwq Hsend Hok.
  destruct (out_runs_spec k pool k cn [] cs Hfd Hok) as (pool' & k' & cn' & E & Hfd' & (Hi & sent & Ho & Hg & Hs)).
  { split; [rewrite Hwq; apply wq_inv_empty|]. exists []. rewrite Hwq, app_nil_r. done. }
  exists pool', k', cn', sent. rewrite Hfd' in Ho. simpl in Hg. split_and!; try done.
  unfold Base_PendingWrite, writeQueue_pending. rewrite (qi_bytes _ Hi), <-Hg, length_app. lia.
Qed.

(** One [FlushN] hands the kernel at most [maxBytes] bytes (when a positive
    budget is given), consumes from the queue exactly what the kernel accepted,
    touches no other descriptor, and returns a negative count only with -1 and an
    error other than EAGAIN. *)
Theorem flush_respects_budget (pool : P) (k : K) (fd maxBytes send : Z) (wq : writeQueue) :
  wq_inv wq → fd ≠ 0 →
  ∃ pool' k' wq' send' n err,
    flushWriteQueue T pool k fd wq maxBytes send = Some (pool', k', wq', send', (n, err)) ∧
    (0 < maxBytes → n ≤ maxBytes) ∧ wq_inv wq' ∧ wq_data wq' = drop (Z.to_nat n) (wq_data wq) ∧
    k_out k' fd = k_out k fd ++ take (Z.to_nat n) (wq_data wq) ∧
    (∀ fd', fd' ≠ fd → k_out k' fd' = k_out k fd') ∧
    (n < 0 → n = -1 ∧ err ≠ None ∧ err ≠ Some EAGAIN).
Proof.
  intros Hinv Hfd. destruct (flush_spec pool k fd wq maxBytes send Hinv Hfd)
    as (pool' & k' & wq' & send' & n & err & E & []).
  exists pool', k', wq', send', n, err. done.
Qed.

End FlushLemmas.

(** ** A kernel for the witnesses *)

(** Every write is accepted up to [tk_win] bytes; an odd call number gives EAGAIN.
    Reads consume [tk_inp], then give EAGAIN. *)
Record TestKernel := mkTK {
  tk_win : nat; tk_calls : nat; tk_inp : list Z; tk_out : list (Z * list Z); tk_got : list (Z * list Z) }.

Definition tk_get (log : list (Z * list Z)) (fd : Z) : list Z :=
  concat (snd <$> filter (λ p, fst p = fd) log).

Definition tk_send (k : TestKernel) (fd : Z) (b : list Z) : TestKernel * Z * option errno :=
  if Nat.odd (tk_calls k) then (mkTK (tk_win k) (S (tk_calls k)) (tk_inp k) (tk_out k) (tk_got k), -1, Some EAGAIN)
  else (mkTK (tk_win k) (S (tk_calls k)) (tk_inp k) (tk_out k ++ [(fd, take (tk_win k) b)]) (tk_got k),
        len (take (tk_win k) b), None).

Definition tk_recv (k : TestKernel) (fd n : Z) : TestKernel * list Z * Z * option errno :=
  match tk_inp k with
  | [] => (k, [], -1, Some EAGAIN)
  | inp =>
      let d := take (Z.to_nat n) inp in
      (mkTK (tk_win k) (tk_calls k) (drop (Z.to_nat n) inp) (tk_out k) (tk_got k ++ [(fd, d)]), d, len d, None)
  end.

#[export] Instance TK_Kernel : Kernel TestKernel := {
  sys_read := tk_recv;
  sys_write := tk_send;
  sys_writev k fd bs := tk_send k fd (concat bs);
  sys_shutdown k fd := (k, None);
  sys_close k fd := (k, None);
  k_out k := tk_get (tk_out k);
  k_in k := tk_get (tk_got k);
}.

Lemma tk_get_app log p fd : tk_get (log ++ [p]) fd =
  tk_get log fd ++ (if decide (fst p = fd) then snd p else []).
Proof.
  unfold tk_get. rewrite list.filter_app, fmap_app, concat_app. f_equal.
  destruct p as [f d]. rewrite list.filter_cons. simpl. case_decide; [simpl; by rewrite app_nil_r|done].
Qed.

Lemma tk_send_ok k fd b : let '(k', n, e) := tk_send k fd b in
    (∀ fd', fd' ≠ fd → tk_get (tk_out k') fd' = tk_get (tk_out k) fd') ∧
    (∀ fd', tk_get (tk_got k') fd' = tk_get (tk_got k) fd') ∧
    match e with
    | Some _ => n = -1 ∧ tk_get (tk_out k') fd = tk_get (tk_out k) fd
    | None => 0 ≤ n ≤ len b ∧ tk_get (tk_out k') fd = tk_get (tk_out k) fd ++ take (Z.to_nat n) b
    end.
Proof.
  unfold tk_send. destruct (Nat.odd (tk_calls k)); [done|]. split; [|split; [done|]].
  - intros fd' Hne. simpl. rewrite tk_get_app. simpl. rewrite decide_False by done. by rewrite app_nil_r.
  - rewrite length_take. split; [lia|]. simpl. rewrite tk_get_app. simpl. rewrite decide_True by done.
    f_equal. rewrite Nat2Z.id. rewrite <-take_take. by rewrite (take_ge b (length b)) by lia.
Qed.

#[export] Instance TK_KernelLaws : KernelLaws TestKernel.
Proof.
  split.
  - intros k fd bs. apply tk_send_ok.
  - intros k fd b. apply tk_send_ok.
  - intros k fd m. simpl. unfold tk_recv. destruct (tk_inp k) as [|x l]; [by rewrite app_nil_r|].
    split; [done|]. split.
    { intros fd' Hne. simpl. rewrite tk_get_app. simpl. rewrite decide_False by done. by rewrite app_nil_r. }
    split; [simpl; rewrite tk_get_app; simpl; by rewrite decide_True|].
    split; [done|]. rewrite length_take. lia.
  - done.
Qed.

#[local] Existing Instances test_Allocator test_AllocatorLaws.

Definition test_conn : Conn unit unit unit :=
  mkConn (mkBase None 7 1 0 None None None None "" "" "" false None 0 0 0 wq_empty) false false.

Definition test_out_calls : list out_call :=
  [OEnqueue [1; 2; 3; 4; 5] 5; OFlush 3; OEnqueue (make_bytes 200) 200; OFlush 0; OFlush 0].

Lemma conn_output_in_order_witness :
  let k0 := mkTK 64 0 [] [] [] in
  ∃ pool' k' cn' sent,
    out_runs (λ c n, n) (g_conn initial_globals) (test_pool, k0, test_conn) test_out_calls = Some (pool', k', cn') ∧
    k_out k' 7 = k_out k0 7 ++ sent ∧
    sent ++ wq_data (b_wq (c_base cn')) = test_out_calls ≫= out_given ∧
    Base_PendingWrite (c_base cn') = 205 - len sent ∧
    snd (Base_GetSend (c_base cn') false) = wrapS 32 (len sent).
Proof.
  apply (conn_output_in_order (λ c n, n) (g_conn initial_globals) test_pool (mkTK 64 0 [] [] []) test_conn test_out_calls).
  - discriminate.
  - reflexivity.
  - reflexivity.
  - repeat constructor; vm_compute; discriminate.
Defined.

Definition test_wq : writeQueue := mkQueue [mkEntry [1; 2; 3; 4] 4 1] 0 3 1.

Lemma flush_respects_budget_witness :
  let k0 := mkTK 64 0 [] [] [] in
  ∃ pool' k' wq' send' n err,
    flushWriteQueue (g_conn initial_globals) test_pool k0 7 test_wq 2 0 = Some (pool', k', wq', send', (n, err)) ∧
    (0 < 2 → n ≤ 2) ∧ wq_inv wq' ∧ wq_data wq' = drop (Z.to_nat n) (wq_data test_wq) ∧
    k_out k' 7 = k_out k0 7 ++ take (Z.to_nat n) (wq_data test_wq) ∧
    (∀ fd', fd' ≠ 7 → k_out k' fd' = k_out k0 fd') ∧
    (n < 0 → n = -1 ∧ err ≠ None ∧ err ≠ Some EAGAIN).
Proof.
  apply (flush_respects_budget (g_conn initial_globals) test_pool (mkTK 64 0 [] [] []) 7 2 0 test_wq).
  - split; [vm_compute; discriminate|by right|by repeat constructor|reflexivity].
  - discriminate.
Defined.
