(* ===== verification/Utf8.v ===== *)
(** * UTF-8: the functions of Go's unicode/utf8 that the websocket code calls,
    and the incremental scanner of websocket/frame.go

    [accept] is the table [first]/[acceptRanges] of the library: for a leading
    byte, the length of its encoding and the range of the second byte. *)

From S2P Require Import Prelude.

Definition RuneSelf : Z := 0x80.

Definition between (lo hi x : Z) : bool := (lo <=? x) && (x <=? hi).

(** [None]: the byte cannot start an encoding of more than one byte. *)
Definition accept (x : Z) : option (Z * Z * Z) :=
  if between 0xC2 0xDF x then Some (2, 0x80, 0xBF)
  else if x =? 0xE0 then Some (3, 0xA0, 0xBF)
  else if between 0xE1 0xEC x then Some (3, 0x80, 0xBF)
  else if x =? 0xED then Some (3, 0x80, 0x9F)
  else if between 0xEE 0xEF x then Some (3, 0x80, 0xBF)
  else if x =? 0xF0 then Some (4, 0x90, 0xBF)
  else if between 0xF1 0xF3 x then Some (4, 0x80, 0xBF)
  else if x =? 0xF4 then Some (4, 0x80, 0x8F)
  else None.

Definition cont (x : Z) : bool := between 0x80 0xBF x.

(** The size returned by [utf8.DecodeRune]: 0 on the empty slice, 1 for an ASCII
    byte and for every invalid or short encoding. *)
Definition DecodeRune (p : list Z) : Z :=
  match p with
  | [] => 0
  | p0 :: p =>
      match accept p0 with
      | None => 1
      | Some (sz, lo, hi) =>
          if len p + 1 <? sz then 1
          else match p with
          | [] => 1
          | b1 :: p =>
              if negb (between lo hi b1) then 1
              else if sz <=? 2 then 2
              else match p with
              | [] => 1
              | b2 :: p =>
                  if negb (cont b2) then 1
                  else if sz <=? 3 then 3
                  else match p with
                  | [] => 1
                  | b3 :: _ => if negb (cont b3) then 1 else 4
                  end
              end
          end
      end
  end.

(** [utf8.FullRune]: the bytes begin with a full encoding, an invalid one being
    a full error. *)
Definition FullRune (p : list Z) : bool :=
  match p with
  | [] => false
  | p0 :: p =>
      match accept p0 with
      | None => true
      | Some (sz, lo, hi) =>
          if sz <=? len p + 1 then true
          else match p with
          | [] => false
          | b1 :: p =>
              if negb (between lo hi b1) then true
              else match p with
              | [] => false
              | b2 :: _ => negb (cont b2)
              end
          end
      end
  end.

(** One round of the loop of [utf8.Valid]: the bytes left after a valid
    encoding, [None] when it returns false. *)
Definition Valid_step (p0 : Z) (p : list Z) : option (list Z) :=
  if p0 <? RuneSelf then Some p
  else match accept p0 with
  | None => None
  | Some (sz, lo, hi) =>
      if len p + 1 <? sz then None
      else match p with
      | [] => None
      | b1 :: p =>
          if negb (between lo hi b1) then None
          else if sz =? 2 then Some p
          else match p with
          | [] => None
          | b2 :: p =>
              if negb (cont b2) then None
              else if sz =? 3 then Some p
              else match p with
              | [] => None
              | b3 :: p => if negb (cont b3) then None else Some p
              end
          end
      end
  end.

Fixpoint Valid_loop (fuel : nat) (p : list Z) : bool :=
  match p with
  | [] => true
  | p0 :: p =>
      match fuel with
      | O => false
      | S fuel => match Valid_step p0 p with None => false | Some p => Valid_loop fuel p end
      end
  end.

Definition Valid (p : list Z) : bool := Valid_loop (length p) p.

(** ** websocket/frame.go: scanUTF8Prefix *)

(** The loop from position [checked]; [inp] is [in[checked:]]. *)
Fixpoint scanUTF8Prefix_loop (fuel : nat) (inp : list Z) (checked : Z) : Z * bool * bool :=
  match fuel, inp with
  | _, [] => (checked, true, true)
  | O, _ => (checked, false, false)
  | S fuel, x :: inp' =>
      if x <? RuneSelf then scanUTF8Prefix_loop fuel inp' (checked + 1)
      else
        let size := DecodeRune inp in
        if size =? 1 then
          if FullRune inp then (checked, false, false) else (checked, false, true)
        else scanUTF8Prefix_loop fuel (drop (Z.to_nat size) inp) (checked + size)
  end.

Definition scanUTF8Prefix (inp : list Z) : Z * bool * bool :=
  scanUTF8Prefix_loop (length inp) inp 0.

(** ** Facts *)

Ltac accept_cases H :=
  unfold accept in H;
  repeat match type of H with (if ?b then _ else _) = _ => destruct b end; simplify_eq.

Lemma accept_size x sz lo hi : accept x = Some (sz, lo, hi) → sz = 2 ∨ sz = 3 ∨ sz = 4.
Proof. intros H. accept_cases H; lia. Qed.

Lemma accept_ascii x : x < RuneSelf → accept x = None.
Proof. unfold RuneSelf, accept, between. intros. by zb. Qed.

Lemma Valid_step_length p0 p p' : Valid_step p0 p = Some p' → (length p' ≤ length p)%nat.
Proof.
  unfold Valid_step. intros. repeat case_match; simplify_eq; simpl; lia.
Qed.

Lemma Valid_loop_fuel n m p : (length p ≤ n)%nat → (length p ≤ m)%nat → Valid_loop n p = Valid_loop m p.
Proof.
  revert m p. induction n as [|n IH]; intros m p Hn Hm.
  { destruct p; simpl in *; [by destruct m|lia]. }
  destruct p as [|p0 p]; [by destruct m|]. destruct m as [|m]; simpl in *; [lia|].
  destruct (Valid_step p0 p) as [p'|] eqn:E; [|done].
  apply Valid_step_length in E. apply IH; lia.
Qed.

Lemma Valid_cons p0 p :
  Valid (p0 :: p) = match Valid_step p0 p with None => false | Some p' => Valid p' end.
Proof.
  unfold Valid. simpl. destruct (Valid_step p0 p) as [p'|] eqn:E; [|done].
  apply Valid_step_length in E. apply Valid_loop_fuel; lia.
Qed.

Lemma Valid_ascii x p : x < RuneSelf → Valid (x :: p) = Valid p.
Proof. intros. rewrite Valid_cons. unfold Valid_step. by zb. Qed.

(** Decides the tests of a decoder on a leading byte of known class, following
    the bytes of the input as far as the encoding goes. *)
Ltac decode_step :=
  match goal with
  | |- context [Z.ltb ?a ?b] => destruct (Z.ltb_spec a b); try (simpl in *; lia)
  | |- context [Z.leb ?a ?b] => destruct (Z.leb_spec a b); try (simpl in *; lia)
  | |- context [match ?p with [] => _ | _ :: _ => _ end] => is_var p; destruct p; simpl app; try (simpl in *; lia)
  | |- context [if negb (between ?a ?b ?c) then _ else _] => destruct (between a b c); simpl negb
  | |- context [if negb (cont ?c) then _ else _] => destruct (cont c); simpl negb
  end.

Ltac decode :=
  repeat (cbn [Z.eqb Pos.eqb] in *; first [done | decode_step]); try done.

(** A decoded rune of more than one byte is skipped by [Valid]. *)
Lemma DecodeRune_valid x p r : RuneSelf ≤ x → DecodeRune (x :: p) ≠ 1 →
  1 < DecodeRune (x :: p) ≤ len (x :: p) ∧
  Valid ((x :: p) ++ r) = Valid (drop (Z.to_nat (DecodeRune (x :: p))) (x :: p) ++ r).
Proof.
  intros Hx. simpl app. rewrite Valid_cons. unfold Valid_step. zb. unfold DecodeRune.
  destruct (accept x) as [[[sz lo] hi]|] eqn:Ha; [|done]. rewrite length_app.
  destruct (accept_size _ _ _ _ Ha) as [->|[->| ->]]; decode; simpl; (split; [lia|done]).
Qed.

(** A full but undecodable rune is invalid whatever follows. *)
Lemma FullRune_invalid x p r : RuneSelf ≤ x → DecodeRune (x :: p) = 1 → FullRune (x :: p) = true →
  Valid ((x :: p) ++ r) = false.
Proof.
  intros Hx. simpl app. rewrite Valid_cons. unfold Valid_step. zb. unfold DecodeRune, FullRune.
  destruct (accept x) as [[[sz lo] hi]|] eqn:Ha; [|done]. rewrite length_app.
  destruct (accept_size _ _ _ _ Ha) as [->|[->| ->]]; decode.
Qed.

(** An incomplete rune is not valid by itself. *)
Lemma short_invalid x p : RuneSelf ≤ x → DecodeRune (x :: p) = 1 → Valid (x :: p) = false.
Proof.
  intros Hx Hd. destruct (FullRune (x :: p)) eqn:Hf.
  { pose proof (FullRune_invalid x p [] Hx Hd Hf) as H. by rewrite app_nil_r in H. }
  rewrite Valid_cons. unfold Valid_step. zb. simpl in Hf.
  destruct (accept x) as [[[sz lo] hi]|]; [|done].
  destruct (Z.leb_spec sz (len p + 1)); [done|]. by zb.
Qed.

(** What the scanner returns: the checked prefix does not influence validity; the
    rest is empty, or the beginning of a rune, or invalid however it continues. *)
Record scan_ok (inp : list Z) (c : Z) (complete ok : bool) : Prop := {
  so_bound : 0 ≤ c ≤ len inp;
  so_skip r : Valid (inp ++ r) = Valid (drop (Z.to_nat c) inp ++ r);
  so_complete : complete = true → ok = true ∧ c = len inp;
  so_bad : ok = false → ∀ r, Valid (drop (Z.to_nat c) inp ++ r) = false;
  so_partial : complete = false → Valid (drop (Z.to_nat c) inp) = false;
}.

Lemma scan_ok_shift pre inp c complete ok k : k = len pre →
  (∀ r, Valid ((pre ++ inp) ++ r) = Valid (inp ++ r)) →
  scan_ok inp c complete ok → scan_ok (pre ++ inp) (k + c) complete ok.
Proof.
  intros -> Hpre [Hb Hs Hc Hbad Hp].
  assert (drop (Z.to_nat (len pre + c)) (pre ++ inp) = drop (Z.to_nat c) inp) as E.
  { rewrite drop_app_ge by lia. f_equal. lia. }
  split; rewrite ?E; try done.
  - rewrite length_app. lia.
  - intros r. by rewrite Hpre, Hs.
  - intros H. destruct (Hc H). split; [done|]. rewrite length_app. lia.
Qed.

Lemma scan_loop_spec fuel inp k : (length inp ≤ fuel)%nat →
  ∃ c complete ok, scanUTF8Prefix_loop fuel inp k = (k + c, complete, ok) ∧ scan_ok inp c complete ok.
Proof.
  revert inp k. induction fuel as [|fuel IH]; intros [|x p] k Hf; simpl in Hf; try lia;
    try (exists 0, true, true; simpl; rewrite Z.add_0_r; by split).
  cbn [scanUTF8Prefix_loop]. destruct (Z.ltb_spec x RuneSelf).
  - destruct (IH p (k + 1)) as (c & complete & ok & -> & Hok); [lia|].
    exists (1 + c), complete, ok. split; [by rewrite Z.add_assoc|].
    apply (scan_ok_shift [x] p); [done| |done]. intros r. simpl. by apply Valid_ascii.
  - destruct (Z.eqb_spec (DecodeRune (x :: p)) 1) as [Hd|Hd].
    + exists 0, false, (negb (FullRune (x :: p))).
      rewrite Z.add_0_r. split; [by destruct (FullRune (x :: p))|].
      split; simpl drop; try done.
      * intros Hf' r. apply FullRune_invalid; [lia|done|by destruct (FullRune (x :: p))].
      * intros _. apply short_invalid; [lia|done].
    + destruct (DecodeRune_valid x p [] ltac:(lia) Hd) as [Hsz _].
      set (sz := DecodeRune (x :: p)) in *.
      destruct (IH (drop (Z.to_nat sz) (x :: p)) (k + sz)) as (c & complete & ok & E & Hok).
      { rewrite length_drop. simpl length in *. lia. }
      exists (sz + c), complete, ok. split; [rewrite E; by rewrite Z.add_assoc|].
      rewrite <-(take_drop (Z.to_nat sz) (x :: p)) at 1.
      apply scan_ok_shift; [rewrite length_take; simpl length in *; lia| |done].
      intros r. rewrite take_drop. apply (DecodeRune_valid x p r); [lia|done].
Qed.

Lemma scan_spec inp : ∃ c complete ok,
  scanUTF8Prefix inp = (c, complete, ok) ∧ scan_ok inp c complete ok.
Proof.
  destruct (scan_loop_spec (length inp) inp 0) as (c & complete & ok & E & H); [done|].
  exists c, complete, ok. by rewrite Z.add_0_l in E.
Qed.
