(* ===== verification/Cipher.v ===== *)
(** * websocket/cipher.go: masking of websocket payloads

    [cipher] xors the payload with the repeated 4-byte mask, eight bytes at a
    time through an [unsafe] cast to [uint64].  The byte order of the machine is
    the argument [big]; the result is shown not to depend on it. *)

From S2P Require Import Prelude.

(** ** Words in memory *)

Fixpoint le_word (l : list Z) : Z :=
  match l with [] => 0 | b :: l => b + 256 * le_word l end.

Fixpoint le_bytes (n : nat) (w : Z) : list Z :=
  match n with O => [] | S n => w mod 256 :: le_bytes n (w / 256) end.

(** The word stored in the bytes [l], and the bytes of an [n]-byte word. *)
Definition load_word (big : bool) (l : list Z) : Z := le_word (if big then rev l else l).
Definition word_bytes (big : bool) (n : nat) (w : Z) : list Z :=
  let l := le_bytes n w in if big then rev l else l.

(** ** The code *)

Definition remain : list Z := [0; 3; 2; 1].

(** [payload[i] ^= mask[(base+i)%4]] for [n] indices from [i] on. *)
Fixpoint xor_bytes (n : nat) (i base : Z) (mask payload : list Z) : option (list Z) :=
  match n with
  | O => Some payload
  | S n =>
      b ← index payload i;
      j ← go_rem (base + i) 4;
      m ← index mask j;
      payload ← store payload i (Z.lxor b m);
      xor_bytes n (i + 1) base mask payload
  end.

(** The word loop: [n] words, the first one with index [i]. *)
Fixpoint xor_words (big : bool) (n : nat) (i ln m2 : Z) (payload : list Z) : option (list Z) :=
  match n with
  | O => Some payload
  | S n =>
      let off := ln + Z.shiftl i 3 in
      v ← slice payload off (off + 8);
      payload ← copy_at payload off (word_bytes big 8 (Z.lxor (load_word big v) m2));
      xor_words big n (i + 1) ln m2 payload
  end.

Definition cipher (big : bool) (payload mask : list Z) (offset : Z) : option (list Z) :=
  let n := len payload in
  if n <? 8 then xor_bytes (Z.to_nat n) 0 offset mask payload
  else
    mpos ← go_rem offset 4;
    ln ← index remain mpos;
    rn ← go_rem (n - ln) 8;
    payload ← xor_bytes (Z.to_nat ln) 0 mpos mask payload;
    payload ← xor_bytes (Z.to_nat rn) (n - rn) mpos mask payload;
    let m := load_word big mask in
    let m2 := Z.lor (wrapU 64 (Z.shiftl m 32)) m in
    xor_words big (Z.to_nat (Z.shiftr (n - ln - rn) 3)) 0 ln m2 payload.

(** The masking algorithm of RFC 6455, 5.3. *)
Definition mask_at (mask : list Z) (i : Z) : Z := mask !!! Z.to_nat (i mod 4).
Definition mask_spec (payload mask : list Z) (offset : Z) : list Z :=
  imap (λ i b, Z.lxor b (mask_at mask (offset + Z.of_nat i))) payload.

(** ** Words *)

Lemma lxor_mod_256 u v : Z.lxor u v mod 256 = Z.lxor (u mod 256) (v mod 256).
Proof.
  change 256 with (2 ^ 8). rewrite <-!Z.land_ones by lia.
  apply Z.bits_inj'. intros n Hn. rewrite Z.lxor_spec, !Z.land_spec, Z.lxor_spec.
  by destruct (Z.testbit u n), (Z.testbit v n), (Z.testbit (Z.ones 8) n).
Qed.

Lemma lxor_div_256 u v : Z.lxor u v / 256 = Z.lxor (u / 256) (v / 256).
Proof. change 256 with (2 ^ 8). rewrite <-!Z.shiftr_div_pow2 by lia. apply Z.shiftr_lxor. Qed.

Lemma le_bytes_lxor n u v : le_bytes n (Z.lxor u v) = zip_with Z.lxor (le_bytes n u) (le_bytes n v).
Proof.
  revert u v. induction n as [|n IH]; intros u v; simpl; [done|].
  by rewrite lxor_mod_256, lxor_div_256, IH.
Qed.

Lemma length_le_bytes n w : length (le_bytes n w) = n.
Proof. revert w. induction n; intros; simpl; auto. Qed.

Lemma le_bytes_wf n w : bytes_wf (le_bytes n w).
Proof.
  revert w. induction n as [|n IH]; intros w; simpl; [constructor|]. constructor; [|apply IH].
  apply Z.mod_pos_bound. lia.
Qed.

Lemma le_bytes_word l : bytes_wf l → le_bytes (length l) (le_word l) = l.
Proof.
  induction 1 as [|b l Hb Hl IH]; simpl; [done|]. unfold byte_wf in Hb. f_equal.
  - rewrite Z.mul_comm, Z_mod_plus_full. apply Z.mod_small. lia.
  - rewrite Z.mul_comm, Z_div_plus_full, (Z.div_small b) by lia. by rewrite Z.add_0_l.
Qed.

Lemma le_word_bytes n w : le_word (le_bytes n w) = w mod 256 ^ Z.of_nat n.
Proof.
  revert w. induction n as [|n IH]; intros w; [simpl; by rewrite Z.mod_1_r|].
  cbn [le_bytes le_word]. rewrite IH, Nat2Z.inj_succ, Z.pow_succ_r by lia.
  by rewrite (Z.rem_mul_r w 256) by lia.
Qed.

Lemma le_word_app l k : le_word (l ++ k) = le_word l + 256 ^ len l * le_word k.
Proof.
  induction l as [|b l IH]; [simpl; lia|].
  cbn [app le_word length]. rewrite IH, Nat2Z.inj_succ, Z.pow_succ_r by lia. lia.
Qed.

Lemma le_word_bound l : bytes_wf l → 0 ≤ le_word l < 256 ^ len l.
Proof.
  induction 1 as [|b l Hb Hl IH]; [simpl; lia|].
  cbn [le_word length]. rewrite Nat2Z.inj_succ, Z.pow_succ_r by lia. unfold byte_wf in Hb. lia.
Qed.

Lemma double_mask m : 0 ≤ m < 2 ^ 32 → Z.lor (wrapU 64 (Z.shiftl m 32)) m = m + 2 ^ 32 * m.
Proof.
  intros Hm. rewrite wrapU_small by (rewrite Z.shiftl_mul_pow2 by lia; lia).
  rewrite lor_shift_add by lia. lia.
Qed.

(** Xoring a word of the payload with the doubled mask xors its bytes with the
    mask, on either kind of machine. *)
Lemma word_xor big v mask : length v = 8%nat → length mask = 4%nat → bytes_wf v → bytes_wf mask →
  word_bytes big 8 (Z.lxor (load_word big v) (Z.lor (wrapU 64 (Z.shiftl (load_word big mask) 32)) (load_word big mask)))
  = zip_with Z.lxor v (mask ++ mask).
Proof.
  intros Hv Hm Hvw Hmw.
  assert (∀ x k, length x = 8%nat → length k = 4%nat → bytes_wf x → bytes_wf k →
    le_bytes 8 (Z.lxor (le_word x) (Z.lor (wrapU 64 (Z.shiftl (le_word k) 32)) (le_word k)))
    = zip_with Z.lxor x (k ++ k)) as Hle.
  { intros x k Hx Hk Hxw Hkw. pose proof (le_word_bound k Hkw) as Hb. rewrite Hk in Hb.
    rewrite double_mask by (simpl in Hb; lia).
    assert (le_word k + 2 ^ 32 * le_word k = le_word (k ++ k)) as ->.
    { rewrite le_word_app, Hk. done. }
    rewrite le_bytes_lxor. rewrite <-Hx at 1. rewrite le_bytes_word by done.
    replace 8%nat with (length (k ++ k)) by (rewrite length_app, Hk; done).
    rewrite le_bytes_word; [done|]. by apply bytes_wf_app. }
  unfold load_word, word_bytes. destruct big; [|by apply Hle].
  rewrite Hle; rewrite ?length_rev; try done; try (by apply Forall_rev).
  rewrite <-rev_app_distr, <-(rev_involutive (zip_with Z.lxor v (mask ++ mask))). f_equal.
  clear -Hv Hm.
  do 9 (destruct v as [|? v]; try done). do 5 (destruct mask as [|? mask]; try done).
Qed.

(** ** The loops *)

Section Loops.
Context (mask : list Z) (Hmask : length mask = 4%nat).

Lemma mask_index z : index mask (z mod 4) = Some (mask_at mask z).
Proof.
  unfold index, mask_at. pose proof (Z.mod_pos_bound z 4 ltac:(lia)). zb.
  destruct (lookup_lt_is_Some_2 mask (Z.to_nat (z mod 4))) as [m E]; [lia|].
  rewrite E. f_equal. symmetry. by apply list_lookup_total_correct.
Qed.

(** [p'] is [p] with the bytes of indices in [lo, hi) xored with the mask, byte
    [j] with the mask byte [base + j]. *)
Definition masked (base lo hi : Z) (p p' : list Z) : Prop :=
  length p' = length p ∧
  ∀ j, p' !! j = if decide (lo ≤ Z.of_nat j < hi)
                 then (λ b, Z.lxor b (mask_at mask (base + Z.of_nat j))) <$> p !! j else p !! j.

Lemma masked_refl base lo p : masked base lo lo p p.
Proof. split; [done|]. intros j. by rewrite decide_False by lia. Qed.

Lemma masked_trans base lo mid hi p p1 p2 : lo ≤ mid ≤ hi →
  masked base lo mid p p1 → masked base mid hi p1 p2 → masked base lo hi p p2.
Proof.
  intros Hm [L1 H1] [L2 H2]. split; [congruence|]. intros j. rewrite H2, H1.
  repeat case_decide; try done; lia.
Qed.

Lemma xor_bytes_spec n i base payload : 0 ≤ i → 0 ≤ base → i + Z.of_nat n ≤ len payload →
  ∃ p', xor_bytes n i base mask payload = Some p' ∧ masked base i (i + Z.of_nat n) payload p'.
Proof.
  revert i payload. induction n as [|n IH]; intros i payload Hi Hb Hl.
  { exists payload. split; [done|]. rewrite Z.add_0_r. apply masked_refl. }
  cbn [xor_bytes]. destruct (index_Some payload i) as [b Eb]; [lia|]. rewrite Eb. cbn [mbind option_bind].
  rewrite go_rem_Some by lia. cbn [mbind option_bind]. rewrite mask_index. cbn [mbind option_bind].
  unfold store. zb. cbn [mbind option_bind].
  destruct (IH (i + 1) (<[Z.to_nat i:=Z.lxor b (mask_at mask (base + i))]> payload))
    as (p' & E & Hm); [lia|lia|rewrite length_insert; lia|].
  exists p'. split; [done|]. replace (i + Z.of_nat (S n)) with (i + 1 + Z.of_nat n) by lia.
  eapply masked_trans; [|split|exact Hm]; [lia|by rewrite length_insert|].
  intros j. rewrite list_lookup_insert. unfold index in Eb. rewrite (proj2 (Z.leb_le _ _) Hi) in Eb.
  destruct (decide (Z.of_nat j = i)) as [<-|].
  - rewrite Nat2Z.id in *. rewrite !decide_True by lia. by rewrite Eb.
  - rewrite !decide_False by lia. done.
Qed.

Lemma xor_words_spec big n i ln payload : 0 ≤ i → 0 ≤ ln → bytes_wf mask → bytes_wf payload →
  ln + 8 * (i + Z.of_nat n) ≤ len payload →
  let m := load_word big mask in
  ∃ p', xor_words big n i ln (Z.lor (wrapU 64 (Z.shiftl m 32)) m) payload = Some p' ∧
    masked (- ln) (ln + 8 * i) (ln + 8 * (i + Z.of_nat n)) payload p'.
Proof.
  intros Hi Hln Hmw. revert i payload Hi. induction n as [|n IH]; intros i payload Hi Hpw Hl m.
  { exists payload. split; [done|]. rewrite Z.add_0_r. apply masked_refl. }
  cbn [xor_words]. rewrite (Z.shiftl_mul_pow2 i 3) by lia. change (2 ^ 3) with 8.
  rewrite slice_Some by lia. simpl.
  set (off := ln + i * 8). set (v := sub payload off (off + 8)).
  assert (length v = 8%nat) as Hv.
  { pose proof (length_sub payload off (off + 8) ltac:(lia) ltac:(lia)). unfold v. lia. }
  assert (bytes_wf v) as Hvw by (apply Forall_take, Forall_drop, Hpw).
  subst m. rewrite word_xor by done. rewrite copy_at_Some by lia. simpl.
  set (p1 := blit payload off _).
  assert (length (zip_with Z.lxor v (mask ++ mask)) = 8%nat) as Hz.
  { rewrite length_zip_with, length_app. lia. }
  assert (masked (- ln) (ln + 8 * i) (ln + 8 * (i + 1)) payload p1) as Hm1.
  { split; [apply length_blit; lia|]. intros j. unfold p1. rewrite lookup_blit, Hz by lia.
    repeat case_decide; try lia; [|done]. rewrite lookup_zip_with.
    unfold v. rewrite lookup_sub, decide_True by lia.
    replace (Z.to_nat off + (j - Z.to_nat off))%nat with j by lia.
    destruct (payload !! j) as [b|] eqn:Ej; [|done]. simpl.
    set (r := (j - Z.to_nat off)%nat). assert (r < 8)%nat by lia.
    assert ((mask ++ mask) !! r = Some (mask_at mask (- ln + Z.of_nat j))) as ->; [|done].
    replace (- ln + Z.of_nat j) with (Z.of_nat r + 2 * i * 4) by lia.
    rewrite <-(mask_index (Z.of_nat r + 2 * i * 4)), Z_mod_plus_full. unfold index.
    pose proof (Z.mod_pos_bound (Z.of_nat r) 4 ltac:(lia)). zb.
    rewrite lookup_app_dec, Hmask. case_decide; f_equal.
    - rewrite Z.mod_small by lia. lia.
    - rewrite <-(Z.mod_unique_pos (Z.of_nat r) 4 1 (Z.of_nat r - 4)) by lia. lia. }
  assert (bytes_wf p1) as Hp1w.
  { unfold p1, blit. apply bytes_wf_app; split; [by apply Forall_take|].
    apply bytes_wf_app; split; [|by apply Forall_drop]. apply Forall_take.
    rewrite <-word_xor with (big := false) by done. apply le_bytes_wf. }
  destruct (IH (i + 1) p1) as (p' & E & Hm); [lia|done|unfold p1; rewrite length_blit; lia|].
  exists p'. split; [exact E|].
  replace (ln + 8 * (i + Z.of_nat (S n))) with (ln + 8 * (i + 1 + Z.of_nat n)) by lia.
  eapply masked_trans; [|exact Hm1|exact Hm]. lia.
Qed.

Lemma masked_full offset p p' : masked offset 0 (len p) p p' → p' = mask_spec p mask offset.
Proof.
  intros [Hl Hj]. apply list_eq; intros j. rewrite Hj. unfold mask_spec. rewrite list_lookup_imap.
  case_decide; [done|]. by rewrite lookup_ge_None_2 by lia.
Qed.

(** The mask byte depends on the position modulo 4 only. *)
Lemma masked_rebase base base' lo hi p p' : base mod 4 = base' mod 4 →
  masked base lo hi p p' → masked base' lo hi p p'.
Proof.
  intros Hb [Hl Hj]. split; [done|]. intros j. rewrite Hj.
  assert (mask_at mask (base + Z.of_nat j) = mask_at mask (base' + Z.of_nat j)) as ->; [|done].
  unfold mask_at. by rewrite <-Zplus_mod_idemp_l, Hb, Zplus_mod_idemp_l.
Qed.

End Loops.

Lemma remain_spec mpos : 0 ≤ mpos < 4 → ∃ ln, index remain mpos = Some ln ∧ 0 ≤ ln < 4 ∧ (mpos + ln) mod 4 = 0.
Proof.
  intros H. assert (mpos = 0 ∨ mpos = 1 ∨ mpos = 2 ∨ mpos = 3) as [->|[->|[->| ->]]] by lia;
    eexists; (split; [reflexivity|]); split; (lia || reflexivity).
Qed.

Lemma masked_wf mask base lo hi p p' : bytes_wf mask → length mask = 4%nat →
  bytes_wf p → masked mask base lo hi p p' → bytes_wf p'.
Proof.
  intros Hmw Hm Hp [Hl Hj]. apply Forall_lookup_2. intros j b Eb. rewrite Hj in Eb.
  assert (∀ x, p !! j = Some x → byte_wf x) as Hx by (intros x; apply Forall_lookup_1, Hp).
  case_decide; [|by apply Hx]. destruct (p !! j) as [x|]; simpl in Eb; [|done]. simplify_eq.
  specialize (Hx x eq_refl). unfold byte_wf in *.
  pose proof (mask_index mask Hm (base + Z.of_nat j)) as Hi. unfold index in Hi.
  case_match; [|done]. apply (Forall_lookup_1 _ _ _ _ Hmw) in Hi. unfold byte_wf in Hi.
  set (m := mask_at mask _) in *. clearbody m. split; [apply Z.lxor_nonneg; lia|].
  assert (Z.lxor x m = Z.lxor x m mod 256) as -> by (rewrite lxor_mod_256, !Z.mod_small by lia; done).
  apply Z.mod_pos_bound. lia.
Qed.

Lemma cipher_spec big payload mask offset : 0 ≤ offset → length mask = 4%nat →
  bytes_wf payload → bytes_wf mask → cipher big payload mask offset = Some (mask_spec payload mask offset).
Proof.
  intros Ho Hm Hp Hmw. unfold cipher. gcase.
  { destruct (xor_bytes_spec mask Hm (Z.to_nat (len payload)) 0 offset payload) as (p' & -> & Hx); [lia..|].
    f_equal. apply masked_full; [done|]. by rewrite Z2Nat.id in Hx by lia. }
  rewrite go_rem_Some by lia. cbn [mbind option_bind].
  pose proof (Z.mod_pos_bound offset 4 ltac:(lia)). set (mpos := offset mod 4) in *.
  destruct (remain_spec mpos) as (ln & -> & Hln & Hal); [lia|]. cbn [mbind option_bind].
  rewrite go_rem_Some by lia. cbn [mbind option_bind].
  pose proof (Z.mod_pos_bound (len payload - ln) 8 ltac:(lia)) as Hrn.
  pose proof (Z.div_mod (len payload - ln) 8 ltac:(lia)) as Hdm.
  set (rn := (len payload - ln) mod 8) in *. set (q := (len payload - ln) / 8) in *.
  destruct (xor_bytes_spec mask Hm (Z.to_nat ln) 0 mpos payload) as (p1 & -> & H1); [lia..|].
  cbn [mbind option_bind]. rewrite Z2Nat.id, Z.add_0_l in H1 by lia.
  destruct (xor_bytes_spec mask Hm (Z.to_nat rn) (len payload - rn) mpos p1) as (p2 & -> & H2); [lia..| |].
  { rewrite (proj1 H1). lia. }
  cbn [mbind option_bind]. rewrite Z2Nat.id in H2 by lia.
  rewrite Z.shiftr_div_pow2 by lia. change (2 ^ 3) with 8.
  replace (len payload - ln - rn) with (q * 8) by lia. rewrite Z.div_mul by lia.
  destruct (xor_words_spec mask Hm big (Z.to_nat q) 0 ln p2) as (p3 & -> & H3); try done; try lia.
  { eapply masked_wf; [done..| |exact H2]. by eapply masked_wf; [done..| |exact H1]. }
  { rewrite (proj1 H2), (proj1 H1). lia. }
  f_equal. apply masked_full; [done|].
  apply (masked_rebase mask mpos); [apply Z.mod_mod; lia|].
  assert (masked mask mpos ln (ln + 8 * q) p2 p3) as H3'.
  { rewrite Z.mul_0_r, Z.add_0_r, Z.add_0_l, Z2Nat.id in H3 by lia.
    eapply masked_rebase; [|exact H3].
    replace (- ln) with (mpos + - (mpos + ln)) by lia. rewrite <-Zplus_mod_idemp_r.
    rewrite Z.mod_opp_l_z by (lia || done). by rewrite Z.add_0_r. }
  destruct H1 as [L1 J1], H2 as [L2 J2], H3' as [L3 J3]. split; [congruence|].
  intros j. rewrite J3, J2, J1. repeat case_decide; try done; lia.
Qed.

Lemma mask_spec_involutive payload mask offset :
  mask_spec (mask_spec payload mask offset) mask offset = payload.
Proof.
  apply list_eq; intros j. unfold mask_spec. rewrite !list_lookup_imap.
  destruct (payload !! j) as [b|]; [|done]. simpl.
  by rewrite Z.lxor_assoc, Z.lxor_nilpotent, Z.lxor_0_r.
Qed.

Lemma mask_spec_wf payload mask offset : length mask = 4%nat → bytes_wf mask →
  bytes_wf payload → bytes_wf (mask_spec payload mask offset).
Proof.
  intros Hm Hmw Hp. eapply (masked_wf mask offset 0 (len payload) payload); [done..|].
  split; [unfold mask_spec; by rewrite length_imap|]. intros j. unfold mask_spec. rewrite list_lookup_imap.
  case_decide; [done|]. by rewrite lookup_ge_None_2 by lia.
Qed.

(** C29: on any payload, mask and offset, and on little- and big-endian machines
    alike, the word-at-a-time [cipher] computes the byte-by-byte masking of
    RFC 6455 (byte [i] is xored with mask byte [(offset+i) mod 4]) and touches
    no memory outside the payload. *)
Theorem cipher_is_rfc_masking (big : bool) (payload mask : list Z) (offset : Z) :
  0 ≤ offset → length mask = 4%nat → bytes_wf payload → bytes_wf mask →
  cipher big payload mask offset = Some (mask_spec payload mask offset).
Proof. apply cipher_spec. Qed.

(** Masking a message in chunks, each with the offset where it starts, gives
    the masking of the whole, and applying [cipher] twice restores the payload. *)
Theorem cipher_chunks_and_roundtrip (big : bool) (p1 p2 mask : list Z) (offset : Z) :
  0 ≤ offset → length mask = 4%nat → bytes_wf p1 → bytes_wf p2 → bytes_wf mask →
  ∃ c1 c2, cipher big p1 mask offset = Some c1 ∧ cipher big p2 mask (offset + len p1) = Some c2 ∧
    cipher big (p1 ++ p2) mask offset = Some (c1 ++ c2) ∧
    cipher big (c1 ++ c2) mask offset = Some (p1 ++ p2).
Proof.
  intros Ho Hm H1 H2 Hmw.
  assert (mask_spec (p1 ++ p2) mask offset = mask_spec p1 mask offset ++ mask_spec p2 mask (offset + len p1)) as E.
  { unfold mask_spec. rewrite imap_app. f_equal. apply imap_ext. intros i x _. simpl.
    do 2 f_equal. lia. }
  assert (bytes_wf (p1 ++ p2)) by (by apply bytes_wf_app).
  eexists _, _. split; [by apply cipher_spec|]. split; [apply cipher_spec; (done || lia)|].
  rewrite <-E. split; [by apply cipher_spec|].
  rewrite cipher_spec; [by rewrite mask_spec_involutive|done..| |done]. by apply mask_spec_wf.
Qed.

Lemma cipher_is_rfc_masking_witness :
  cipher false (seqZ 0 21) [1; 2; 3; 255] 6 = Some (mask_spec (seqZ 0 21) [1; 2; 3; 255] 6).
Proof.
  apply cipher_is_rfc_masking; [lia|reflexivity|apply bytes_wfb; reflexivity|apply bytes_wfb; reflexivity].
Defined.

Lemma cipher_chunks_and_roundtrip_witness :
  ∃ c1 c2, cipher true (seqZ 0 9) [1; 2; 3; 255] 1 = Some c1 ∧
    cipher true (seqZ 100 10) [1; 2; 3; 255] 10 = Some c2 ∧
    cipher true (seqZ 0 9 ++ seqZ 100 10) [1; 2; 3; 255] 1 = Some (c1 ++ c2) ∧
    cipher true (c1 ++ c2) [1; 2; 3; 255] 1 = Some (seqZ 0 9 ++ seqZ 100 10).
Proof.
  apply (cipher_chunks_and_roundtrip true (seqZ 0 9) (seqZ 100 10) [1; 2; 3; 255] 1);
    [lia|reflexivity|apply bytes_wfb; reflexivity..].
Defined.
