(* ===== verification/Text.v ===== *)
(** * Byte-string helpers of websocket/{handshake,util}.go and of the Go
    standard library functions they call ([bytes.Index], [bytes.IndexByte],
    [bytes.Contains], [bytes.Split], [strconv.Atoi]) *)

From stdpp Require Import strings.
From S2P Require Import Prelude.

(** The bytes of a string literal. *)
Fixpoint str (s : string) : list Z :=
  match s with
  | EmptyString => []
  | String c s => Z.of_nat (Ascii.nat_of_ascii c) :: str s
  end.

Definition SP : Z := 32.
Definition TAB : Z := 9.
Definition CR : Z := 13.
Definition LF : Z := 10.

(** ** The standard library *)

(** [bytes.IndexByte], -1 when the byte does not occur. *)
Fixpoint IndexByte (l : list Z) (c : Z) : Z :=
  match l with
  | [] => -1
  | x :: l => if x =? c then 0 else let r := IndexByte l c in if r <? 0 then -1 else r + 1
  end.

Fixpoint is_prefix (p l : list Z) : bool :=
  match p, l with
  | [], _ => true
  | x :: p, y :: l => (x =? y) && is_prefix p l
  | _, [] => false
  end.

(** [bytes.Contains] *)
Fixpoint Contains (l p : list Z) : bool :=
  is_prefix p l || match l with [] => false | _ :: l => Contains l p end.

(** [bytes.Split(l, []byte{c})] *)
Fixpoint Split (l : list Z) (c : Z) : list (list Z) :=
  match l with
  | [] => [[]]
  | x :: l =>
      if x =? c then [] :: Split l c
      else match Split l c with [] => [[x]] | w :: ws => (x :: w) :: ws end
  end.

Definition digit_of (c : Z) : option Z := if (48 <=? c) && (c <=? 57) then Some (c - 48) else None.

Fixpoint digits (acc : Z) (l : list Z) : option Z :=
  match l with
  | [] => Some acc
  | c :: l => d ← digit_of c; digits (10 * acc + d) l
  end.

(** [strconv.Atoi]: an optional sign and digits, within an [int]. *)
Definition Atoi (s : list Z) : option Z :=
  let '(neg, ds) := match s with
                    | 43 :: ds => (false, ds)
                    | 45 :: ds => (true, ds)
                    | _ => (false, s)
                    end in
  if len ds =? 0 then None
  else
    n ← digits 0 ds;
    let n := if neg : bool then - n else n in
    if (- 2 ^ 63 <=? n) && (n <? 2 ^ 63) then Some n else None.

(** [bytes.Index], -1 when [p] does not occur. *)
Fixpoint Index (l p : list Z) : Z :=
  if is_prefix p l then 0
  else match l with
       | [] => -1
       | _ :: l => let r := Index l p in if r <? 0 then -1 else r + 1
       end.

(** ** The helpers of the package *)

Definition lower (c : Z) : Z := if (65 <=? c) && (c <=? 90) then c + 32 else c.

Definition equal (a b : list Z) : bool := bool_decide (a = b).

Fixpoint equalFoldASCII (a b : list Z) : bool :=
  match a, b with
  | [], [] => true
  | x :: a, y :: b => (lower x =? lower y) && equalFoldASCII a b
  | _, _ => false
  end.

Definition is_blank (c : Z) : bool := (c =? SP) || (c =? TAB).

Fixpoint trim_left (l : list Z) : list Z :=
  match l with [] => [] | c :: l' => if is_blank c then trim_left l' else l end.

(** [trim] drops blanks on the left, then on the right of what is left. *)
Definition trim (l : list Z) : list Z := rev (trim_left (rev (trim_left l))).

(** The loop over the elements of a comma-separated list; [fuel] bounds the
    number of elements (each round drops at least one byte). *)
Fixpoint containsTokenFoldASCII_loop (fuel : nat) (headerVal token : list Z) : bool :=
  match fuel with
  | O => false
  | S fuel =>
      match headerVal with
      | [] => false
      | _ =>
          let idx := IndexByte headerVal 44 in
          let '(seg, rest) :=
            if 0 <=? idx then (take (Z.to_nat idx) headerVal, drop (Z.to_nat (idx + 1)) headerVal)
            else (headerVal, []) in
          let seg := trim seg in
          if (len seg =? 0) then containsTokenFoldASCII_loop fuel rest token
          else if equalFoldASCII seg token then true
          else containsTokenFoldASCII_loop fuel rest token
      end
  end.

Definition containsTokenFoldASCII (headerVal token : list Z) : bool :=
  containsTokenFoldASCII_loop (S (length headerVal)) headerVal token.

(** [canonicalizeBytes], in place: first letters upper case, the others lower. *)
Fixpoint canonicalize_from (upper : bool) (k : list Z) : list Z :=
  match k with
  | [] => []
  | c :: k =>
      (if upper && (97 <=? c) && (c <=? 122) then c - 32
       else if negb upper && (65 <=? c) && (c <=? 90) then c + 32 else c)
      :: canonicalize_from (c =? 45) k
  end.

Definition canonicalizeBytes (k : list Z) : list Z := canonicalize_from true k.

(** ** Facts *)

Lemma IndexByte_bound l c : -1 ≤ IndexByte l c < len l.
Proof.
  induction l as [|x l IH]; simpl; [lia|]. repeat gcase; lia.
Qed.

Lemma IndexByte_nonneg l c : 0 ≤ IndexByte l c →
  ∃ pre post, l = pre ++ c :: post ∧ len pre = IndexByte l c ∧ c ∉ pre.
Proof.
  induction l as [|x l IH]; simpl; [lia|]. destruct (Z.eqb_spec x c) as [->|Hne].
  - intros _. exists [], l. split_and!; try done. apply not_elem_of_nil.
  - gcase; [lia|]. intros _. destruct IH as (pre & post & -> & Hl & Hn); [lia|].
    exists (x :: pre), post. split_and!; [done|simpl; lia|]. rewrite elem_of_cons. by intros [?|?]; [congruence|].
Qed.

Lemma IndexByte_none l c : IndexByte l c < 0 → c ∉ l.
Proof.
  induction l as [|x l IH]; simpl; [intros _; apply not_elem_of_nil|].
  destruct (Z.eqb_spec x c); [lia|]. gcase; [|lia]. intros _. rewrite elem_of_cons.
  intros [->|?]; [done|]. apply IH; [lia|done].
Qed.

Lemma length_trim_left l : (length (trim_left l) ≤ length l)%nat.
Proof. induction l as [|x l IH]; simpl; [done|]. gcase; simpl; lia. Qed.

Lemma length_trim l : (length (trim l) ≤ length l)%nat.
Proof.
  unfold trim. rewrite length_rev. etransitivity; [apply length_trim_left|].
  rewrite length_rev. apply length_trim_left.
Qed.

(** Canonicalising twice is canonicalising once (the header keys of a request
    are rewritten in the receive buffer, which may be parsed again). *)
Lemma canonicalize_idem k : canonicalizeBytes (canonicalizeBytes k) = canonicalizeBytes k.
Proof.
  unfold canonicalizeBytes. generalize true as upper. induction k as [|c k IH]; intros upper; [done|].
  cbn [canonicalize_from].
  set (c' := if upper && (97 <=? c) && (c <=? 122) then c - 32 else _).
  assert ((c' =? 45) = (c =? 45)) as ->.
  { unfold c'. repeat gcase; lia. }
  rewrite IH. f_equal. unfold c'. destruct upper; simpl; repeat gcase; lia.
Qed.

(** The list test is the one of the splitting at commas. *)
Lemma Split_IndexByte l c :
  Split l c = if IndexByte l c <? 0 then [l]
              else take (Z.to_nat (IndexByte l c)) l :: Split (drop (Z.to_nat (IndexByte l c + 1)) l) c.
Proof.
  induction l as [|x l IH]; [done|]. simpl. destruct (Z.eqb_spec x c); [done|].
  rewrite IH. pose proof (IndexByte_bound l c). destruct (Z.ltb_spec (IndexByte l c) 0); [by zb|].
  zb. replace (Z.to_nat (IndexByte l c + 1)) with (S (Z.to_nat (IndexByte l c))) by lia.
  replace (Z.to_nat (IndexByte l c + 1 + 1)) with (S (S (Z.to_nat (IndexByte l c)))) by lia. done.
Qed.

Lemma containsToken_loop_spec fuel v token : (length v < fuel)%nat →
  containsTokenFoldASCII_loop fuel v token =
  match v with [] => false | _ => existsb (λ s, negb (len (trim s) =? 0) && equalFoldASCII (trim s) token) (Split v 44) end.
Proof.
  revert v. induction fuel as [|fuel IH]; intros v Hf; [lia|].
  destruct v as [|x v']; [done|]. set (v := x :: v') in *. cbn [containsTokenFoldASCII_loop].
  change (match v with [] => false | _ => _ end) with
    (let idx := IndexByte v 44 in
     let '(seg, rest) := if 0 <=? idx then (take (Z.to_nat idx) v, drop (Z.to_nat (idx + 1)) v) else (v, []) in
     let seg := trim seg in
     if (len seg =? 0) then containsTokenFoldASCII_loop fuel rest token
     else if equalFoldASCII seg token then true
     else containsTokenFoldASCII_loop fuel rest token).
  cbn zeta. rewrite Split_IndexByte. pose proof (IndexByte_bound v 44) as Hb.
  destruct (Z.ltb_spec (IndexByte v 44) 0) as [Hi|Hi].
  - replace (0 <=? IndexByte v 44) with false by lia.
    rewrite IH by (simpl in *; lia). simpl existsb. rewrite orb_false_r.
    destruct (len (trim v) =? 0); [done|]. by destruct (equalFoldASCII (trim v) token).
  - replace (0 <=? IndexByte v 44) with true by lia.
    rewrite IH by (rewrite length_drop; lia). cbn [existsb].
    set (rest := drop _ v).
    assert (match rest with [] => false | _ => existsb (λ s, negb (len (trim s) =? 0) && equalFoldASCII (trim s) token) (Split rest 44) end
      = existsb (λ s, negb (len (trim s) =? 0) && equalFoldASCII (trim s) token) (Split rest 44)) as ->.
    { by destruct rest. }
    destruct (len (trim _) =? 0); simpl; [done|]. by destruct (equalFoldASCII _ token).
Qed.

Lemma containsToken_spec v token : containsTokenFoldASCII v token =
  existsb (λ s, negb (len (trim s) =? 0) && equalFoldASCII (trim s) token) (Split v 44).
Proof.
  unfold containsTokenFoldASCII. rewrite containsToken_loop_spec by lia. by destruct v.
Qed.

(** ** [Index]: the first occurrence, which more input does not move *)

Lemma is_prefix_app p l : is_prefix p l = true ↔ ∃ r, l = p ++ r.
Proof.
  revert l. induction p as [|x p IH]; intros l; simpl; [split; [by exists l|done]|]. destruct l as [|y l].
  - split; [done|]. by intros (r & [=]).
  - rewrite andb_true_iff, IH, Z.eqb_eq. split.
    + intros [-> (r & ->)]. by exists r.
    + intros (r & [= -> ->]). split; [done|by exists r].
Qed.

Lemma is_prefix_more p l r : is_prefix p l = true → is_prefix p (l ++ r) = true.
Proof. rewrite !is_prefix_app. intros (x & ->). exists (x ++ r). by rewrite app_assoc. Qed.

Lemma Index_bound l p : -1 ≤ Index l p.
Proof. induction l as [|x l IH]; simpl; repeat gcase; lia. Qed.

Lemma Index_spec l p : 0 ≤ Index l p → ∃ pre post, l = pre ++ p ++ post ∧ len pre = Index l p.
Proof.
  induction l as [|x l IH]; cbn [Index]; destruct (is_prefix p _) eqn:E.
  - intros _. apply is_prefix_app in E as (r & E). by exists [], r.
  - lia.
  - intros _. apply is_prefix_app in E as (r & E). by exists [], r.
  - gcase; [lia|]. intros _. destruct IH as (pre & post & -> & Hl); [lia|]. exists (x :: pre), post. split; [done|]. simpl. lia.
Qed.

Lemma Index_fits l p : 0 ≤ Index l p → Index l p + len p ≤ len l.
Proof. intros H. destruct (Index_spec l p H) as (pre & post & -> & Hl). rewrite !length_app. lia. Qed.

Lemma Index_more l p r : 0 ≤ Index l p → Index (l ++ r) p = Index l p.
Proof.
  induction l as [|x l IH].
  - cbn [Index]. destruct (is_prefix p []) eqn:E; [|lia]. destruct p; [|done]. by destruct r.
  - cbn [Index app]. destruct (is_prefix p (x :: l)) eqn:E.
    + rewrite app_comm_cons, (is_prefix_more _ _ r E). done.
    + destruct (Z.ltb_spec (Index l p) 0); [lia|]. intros _. rewrite IH by lia. pose proof (Index_fits l p ltac:(lia)).
      assert (is_prefix p (x :: l ++ r) = false) as ->; [|by zb].
      apply not_true_is_false. rewrite is_prefix_app. intros (y & Hy). rewrite app_comm_cons in Hy. apply not_true_iff_false in E.
      apply E. apply is_prefix_app. exists (drop (length p) (x :: l)).
      transitivity (take (length p) (x :: l) ++ drop (length p) (x :: l)); [by rewrite take_drop|]. f_equal.
      transitivity (take (length p) ((x :: l) ++ r)); [by rewrite take_app_le by (simpl; lia)|]. by rewrite Hy, take_app_length.
Qed.
