(* ===== verification/Sha1.v ===== *)
(** * crypto/sha1 and encoding/base64, as the websocket handshake uses them

    FIPS 180-4 SHA-1 on byte strings, and RFC 4648 standard base64 with padding. *)

From S2P Require Import Prelude Cipher.

Definition w32 (x : Z) : Z := wrapU 32 x.
Definition rotl (x n : Z) : Z := Z.lor (w32 (Z.shiftl x n)) (Z.shiftr x (32 - n)).

(** Big-endian bytes of an [n]-byte word, and back. *)
Definition be_bytes (n : nat) (w : Z) : list Z := rev (le_bytes n w).
Definition be_word (l : list Z) : Z := le_word (rev l).

Definition sha1_pad (m : list Z) : list Z :=
  m ++ [0x80] ++ replicate (Z.to_nat ((55 - len m) mod 64)) 0 ++ be_bytes 8 (8 * len m).

(** Cuts a list in groups of [k]. *)
Fixpoint groups (fuel k : nat) (l : list Z) : list (list Z) :=
  match fuel, l with
  | S fuel, _ :: _ => take k l :: groups fuel k (drop k l)
  | _, _ => []
  end.

(** The message schedule, newest word first. *)
Fixpoint schedule (n : nat) (ws : list Z) : list Z :=
  match n with
  | O => ws
  | S n =>
      let x := Z.lxor (Z.lxor (ws !!! 2%nat) (ws !!! 7%nat)) (Z.lxor (ws !!! 13%nat) (ws !!! 15%nat)) in
      schedule n (rotl x 1 :: ws)
  end.

Definition sha1_f (t : Z) (b c d : Z) : Z :=
  if t <? 20 then Z.lor (Z.land b c) (Z.land (Z.lxor b 0xFFFFFFFF) d)
  else if t <? 40 then Z.lxor (Z.lxor b c) d
  else if t <? 60 then Z.lor (Z.lor (Z.land b c) (Z.land b d)) (Z.land c d)
  else Z.lxor (Z.lxor b c) d.

Definition sha1_k (t : Z) : Z :=
  if t <? 20 then 0x5A827999 else if t <? 40 then 0x6ED9EBA1
  else if t <? 60 then 0x8F1BBCDC else 0xCA62C1D6.

Fixpoint sha1_rounds (t : Z) (ws : list Z) (s : Z * Z * Z * Z * Z) : Z * Z * Z * Z * Z :=
  match ws with
  | [] => s
  | w :: ws =>
      let '(a, b, c, d, e) := s in
      sha1_rounds (t + 1) ws
        (w32 (rotl a 5 + sha1_f t b c d + e + sha1_k t + w), a, rotl b 30, c, d)
  end.

Definition sha1_block (h : Z * Z * Z * Z * Z) (block : list Z) : Z * Z * Z * Z * Z :=
  let ws := rev (schedule 64 (rev (be_word <$> groups 16 4 block))) in
  let '(h0, h1, h2, h3, h4) := h in
  let '(a, b, c, d, e) := sha1_rounds 0 ws h in
  (w32 (h0 + a), w32 (h1 + b), w32 (h2 + c), w32 (h3 + d), w32 (h4 + e)).

(** [sha1.Sum]: the 20-byte digest. *)
Definition sha1_Sum (m : list Z) : list Z :=
  let padded := sha1_pad m in
  let '(h0, h1, h2, h3, h4) :=
    foldl sha1_block (0x67452301, 0xEFCDAB89, 0x98BADCFE, 0x10325476, 0xC3D2E1F0)
      (groups (length padded) 64 padded) in
  be_bytes 4 h0 ++ be_bytes 4 h1 ++ be_bytes 4 h2 ++ be_bytes 4 h3 ++ be_bytes 4 h4.

(** The alphabet of base64.StdEncoding. *)
Definition b64_char (i : Z) : Z :=
  if i <? 26 then 65 + i else if i <? 52 then 97 + (i - 26) else if i <? 62 then 48 + (i - 52)
  else if i =? 62 then 43 else 47.

Definition b64_group (g : list Z) : list Z :=
  match g with
  | [a; b; c] => [b64_char (a / 4); b64_char ((a mod 4) * 16 + b / 16); b64_char ((b mod 16) * 4 + c / 64); b64_char (c mod 64)]
  | [a; b] => [b64_char (a / 4); b64_char ((a mod 4) * 16 + b / 16); b64_char ((b mod 16) * 4); 61]
  | [a] => [b64_char (a / 4); b64_char ((a mod 4) * 16); 61; 61]
  | _ => []
  end.

(** [base64.StdEncoding.Encode] *)
Definition b64_encode (l : list Z) : list Z := concat (b64_group <$> groups (length l) 3 l).

Lemma length_be_bytes n w : length (be_bytes n w) = n.
Proof. unfold be_bytes. by rewrite length_rev, length_le_bytes. Qed.

Lemma length_sha1_Sum m : length (sha1_Sum m) = 20%nat.
Proof.
  unfold sha1_Sum. destruct (foldl _ _ _) as [[[[h0 h1] h2] h3] h4].
  by rewrite !length_app, !length_be_bytes.
Qed.

Lemma length_b64_group g : (1 ≤ length g ≤ 3)%nat → length (b64_group g) = 4%nat.
Proof. destruct g as [|? [|? [|? [|? ?]]]]; simpl; lia. Qed.

Lemma length_b64_20 l : length l = 20%nat → length (b64_encode l) = 28%nat.
Proof.
  intros H. do 20 (destruct l as [|? l]; [done|]). destruct l; [|done]. reflexivity.
Qed.

Lemma be_word_bytes n w : 0 ≤ w < 256 ^ Z.of_nat n → be_word (be_bytes n w) = w.
Proof.
  intros H. unfold be_word, be_bytes. rewrite rev_involutive, le_word_bytes. by apply Z.mod_small.
Qed.
