(* ===== verification/Pmd.v ===== *)
(** * websocket/permessage_deflate.go: negotiation and decompression

    The decompressor itself ([compress/flate]) is the class [Flate]: a reader
    over a byte string that yields chunks and then an error or EOF. *)

From stdpp Require Import strings.
From S2P Require Import Prelude Text.

Definition extPermessageDeflateToken : list Z := str "permessage-deflate".
Definition extClientNoContextTakeover : list Z := str "client_no_context_takeover".
Definition extServerNoContextTakeover : list Z := str "server_no_context_takeover".
Definition extClientMaxWindowBits : list Z := str "client_max_window_bits".
Definition extServerMaxWindowBits : list Z := str "server_max_window_bits".
Definition extPermessageDeflateServerLine : list Z :=
  str "Sec-WebSocket-Extensions: permessage-deflate; server_no_context_takeover; client_no_context_takeover"
  ++ [CR; LF].
Definition extPMDDecodeTail : list Z := [0x00; 0x00; 0xff; 0xff; 0x01; 0x00; 0x00; 0xff; 0xff].

(** ** Negotiation *)

(** The digit loop, [value] read so far. *)
Fixpoint validPMDWindowBits_loop (l : list Z) (value : Z) : bool :=
  match l with
  | [] => (8 <=? value) && (value <=? 15)
  | ch :: l =>
      if (ch <? 48) || (57 <? ch) then false
      else
        let value := value * 10 + (ch - 48) in
        if 15 <? value then false else validPMDWindowBits_loop l value
  end.

Definition validPMDWindowBits (l : list Z) : bool :=
  if len l =? 0 then false else validPMDWindowBits_loop l 0.

(** A quoted value loses its quotes. *)
Definition unquote (value : list Z) : list Z :=
  if (2 <=? len value) && bool_decide (index value 0 = Some 34)
     && bool_decide (index value (len value - 1) = Some 34)
  then sub value 1 (len value - 1) else value.

(** One parameter of an offer: whether it is acceptable, and whether it is
    [client_no_context_takeover]. *)
Definition pmd_param (param : list Z) : bool * bool :=
  let idx := IndexByte param 61 in
  let '(name, value, hasValue) :=
    if 0 <=? idx then
      (trim (take (Z.to_nat idx) param), unquote (trim (drop (Z.to_nat (idx + 1)) param)), true)
    else (param, [], false) in
  if equalFoldASCII name extClientNoContextTakeover then
    if hasValue : bool then (false, false) else (true, true)
  else if equalFoldASCII name extServerNoContextTakeover then (negb hasValue, false)
  else if equalFoldASCII name extClientMaxWindowBits then (negb (hasValue && negb (validPMDWindowBits value)), false)
  else if equalFoldASCII name extServerMaxWindowBits then (negb (negb hasValue || negb (validPMDWindowBits value)), false)
  else (false, false).

(** The loop over the parameters: [valid] and [hasClientNoContextTakeover]. *)
Fixpoint pmd_params (parts : list (list Z)) (hasClient : bool) : bool * bool :=
  match parts with
  | [] => (true, hasClient)
  | raw :: parts =>
      let param := trim raw in
      if len param =? 0 then pmd_params parts hasClient
      else
        let '(valid, cnct) := pmd_param param in
        if negb valid then (false, hasClient || cnct)
        else pmd_params parts (hasClient || cnct)
  end.

(** The body of the outer loop: an offer that makes the function return true. *)
Definition pmd_offer (offer : list Z) : bool :=
  let offer := trim offer in
  if len offer =? 0 then false
  else match Split offer 59 with
  | [] => false
  | p0 :: parts =>
      if negb (equalFoldASCII (trim p0) extPermessageDeflateToken) then false
      else let '(valid, hasClient) := pmd_params parts false in valid && hasClient
  end.

Fixpoint negotiatePermessageDeflate_loop (fuel : nat) (headerVal : list Z) : bool :=
  match fuel with
  | O => false
  | S fuel =>
      if len headerVal =? 0 then false
      else
        let idx := IndexByte headerVal 44 in
        let '(offer, rest) :=
          if 0 <=? idx then (take (Z.to_nat idx) headerVal, drop (Z.to_nat (idx + 1)) headerVal)
          else (headerVal, []) in
        if pmd_offer offer then true else negotiatePermessageDeflate_loop fuel rest
  end.

(** Each round drops at least one byte of the header. *)
Definition negotiatePermessageDeflate (headerVal : list Z) : bool :=
  negotiatePermessageDeflate_loop (S (length headerVal)) headerVal.

(** ** Decompression *)

Inductive flate_err : Set := FlateEOF | FlateCorrupt.
Inductive pmd_err : Set := errPMDMessageTooLarge | errPMDCorrupt.

#[export] Instance flate_err_eq_dec : EqDecision flate_err.
Proof. solve_decision. Defined.

(** [flate.NewReader], [Resetter.Reset], [Close] and [Read] into a buffer of [n] bytes. *)
Class Flate (F : Type) := {
  flate_new : list Z → F;
  flate_reset : F → list Z → F;
  flate_close : F → F;
  flate_read : F → Z → list Z * option flate_err * F;
}.

(** Documented behaviour of a reader: at most [n] bytes per call, and a finite
    stream (the measure [flate_left] decreases until EOF or an error); [Reset]
    makes the reader equivalent to a new one ([flate_text] is what it yields). *)
Class FlateLaws (F : Type) `{Flate F} := {
  flate_left : F → nat;
  flate_text : F → list Z * bool;   (* the bytes to come, and whether EOF ends them *)
  flate_read_ok r n : 0 < n → let '(d, e, r') := flate_read r n in
    len d ≤ n ∧
    match e with
    | None => (flate_left r' < flate_left r)%nat ∧ flate_text r = (d ++ fst (flate_text r'), snd (flate_text r'))
    | Some FlateEOF => flate_text r = (d, true)
    | Some FlateCorrupt => flate_text r = (d, false)
    end;
  flate_reset_ok r l : flate_text (flate_reset r l) = flate_text (flate_new l) ∧
                       flate_left (flate_reset r l) = flate_left (flate_new l);
}.

Section Inflate.
Context {F : Type} `{!Flate F}.

(** [i_reset]: the reader implements [flate.Resetter].  [i_outBuf] is what the
    returned slice aliases. *)
Record pmdInflater := mkInflater {
  i_reader : option F;
  i_reset : bool;
  i_encBuf : list Z;
  i_tmpBuf : list Z;
  i_outBuf : list Z;
}.

Definition pmdInflater_new : pmdInflater := mkInflater None false [] [] [].

Definition pmdInflater_close (i : pmdInflater) : pmdInflater :=
  mkInflater None (match i_reader i with Some _ => false | None => i_reset i end) [] [] [].

(** The read loop: [tmp] is [len(tmpBuf)], [out] what was written, [total] its length. *)
Fixpoint inflate_loop (fuel : nat) (r : F) (tmp : Z) (maxSize : Z) (out : list Z) (total : Z) :
    option (F * (list Z * option pmd_err)) :=
  match fuel with
  | O => None
  | S fuel =>
      let '(d, e, r) := flate_read r tmp in
      let n := len d in
      let total := if 0 <? n then total + n else total in
      if (0 <? n) && (0 <? maxSize) && (maxSize <? total)
      then Some (r, (out, Some errPMDMessageTooLarge))
      else
        let out := out ++ d in
        match e with
        | Some FlateEOF => Some (r, (out, None))
        | Some FlateCorrupt => Some (r, (out, Some errPMDCorrupt))
        | None => inflate_loop fuel r tmp maxSize out total
        end
  end.

(** [flate.NewReader]'s result implements [Resetter].  [None] is only the end of
    the fuel. *)
Definition pmdInflater_inflate (fuel : nat) (i : pmdInflater) (payload : list Z) (maxSize : Z) :
    option (pmdInflater * (list Z + pmd_err)) :=
  let need := len payload + len extPMDDecodeTail in
  let encBuf := if len (i_encBuf i) <? need then make_bytes need else i_encBuf i in
  let encBuf := blit (blit encBuf 0 payload) (len payload) extPMDDecodeTail in
  let encoded := take (Z.to_nat need) encBuf in
  let '(reader, reset) :=
    match i_reader i with
    | None => (flate_new encoded, true)
    | Some r => if i_reset i then (flate_reset r encoded, true) else (flate_new encoded, true)
    end in
  let tmpBuf := if len (i_tmpBuf i) =? 0 then make_bytes 4096 else i_tmpBuf i in
  '(reader, (out, err)) ← inflate_loop fuel reader (len tmpBuf) maxSize [] 0;
  let i := mkInflater (Some reader) reset encBuf tmpBuf out in
  Some (i, match err with None => inl out | Some e => inr e end).

End Inflate.
Arguments pmdInflater F : clear implicits.

(** ** Negotiation is a search in the comma-separated offers *)

Lemma pmd_offer_nil : pmd_offer [] = false.
Proof. done. Qed.

Lemma negotiate_loop_spec fuel v : (length v < fuel)%nat →
  negotiatePermessageDeflate_loop fuel v = existsb pmd_offer (Split v 44).
Proof.
  revert v. induction fuel as [|fuel IH]; intros v Hf; [lia|].
  cbn [negotiatePermessageDeflate_loop]. gcase.
  { destruct v; [done|]. simpl in *. lia. }
  rewrite Split_IndexByte. pose proof (IndexByte_bound v 44) as Hb.
  destruct (Z.ltb_spec (IndexByte v 44) 0) as [Hi|Hi].
  - replace (0 <=? IndexByte v 44) with false by lia. rewrite IH by (simpl; lia).
    cbn [existsb Split]. rewrite pmd_offer_nil, !orb_false_r. by destruct (pmd_offer v).
  - replace (0 <=? IndexByte v 44) with true by lia. rewrite IH by (rewrite length_drop; lia).
    cbn [existsb]. by destruct (pmd_offer _).
Qed.

(** Decimal value of a digit string. *)
Definition digit (c : Z) : bool := (48 <=? c) && (c <=? 57).
Definition decimal (l : list Z) : Z := foldl (λ v c, v * 10 + (c - 48)) 0 l.

Lemma decimal_ge l v : forallb digit l = true → 0 ≤ v → v ≤ foldl (λ v c, v * 10 + (c - 48)) v l.
Proof.
  revert v. induction l as [|c l IH]; intros v; simpl; [lia|]. unfold digit at 1.
  intros [Hc Hl]%andb_true_iff Hv. etransitivity; [|apply IH; [done|lia]]. lia.
Qed.

Lemma window_bits_loop l v : 0 ≤ v →
  validPMDWindowBits_loop l v =
  forallb digit l && (8 <=? foldl (λ v c, v * 10 + (c - 48)) v l) && (foldl (λ v c, v * 10 + (c - 48)) v l <=? 15).
Proof.
  revert v. induction l as [|c l IH]; intros v Hv; [done|].
  cbn [validPMDWindowBits_loop forallb foldl].
  replace (digit c) with (negb ((c <? 48) || (57 <? c))) by (unfold digit; lia).
  destruct ((c <? 48) || (57 <? c)) eqn:Hc; [done|]. simpl negb.
  destruct (Z.ltb_spec 15 (v * 10 + (c - 48))); [|by rewrite IH by lia].
  destruct (forallb digit l) eqn:Hl; [|done]. simpl.
  pose proof (decimal_ge l (v * 10 + (c - 48)) Hl ltac:(lia)). lia.
Qed.

(** ** Decompression *)

Section InflateLemmas.
Context {F : Type} `{!Flate F, !FlateLaws F}.

(** The outcome of reading the whole text of a reader. *)
Definition inflate_result (text : list Z * bool) (maxSize : Z) (r : list Z + pmd_err) : Prop :=
  match r with
  | inl out => text = (out, true) ∧ (0 < maxSize → len out ≤ maxSize)
  | inr errPMDMessageTooLarge => 0 < maxSize ∧ maxSize < len (fst text)
  | inr errPMDCorrupt => snd text = false
  end.

Lemma inflate_loop_spec fuel r tmp maxSize out : 0 < tmp → (flate_left r < fuel)%nat →
  (0 < maxSize → len out ≤ maxSize) →
  ∃ r' out' err, inflate_loop fuel r tmp maxSize out (len out) = Some (r', (out', err)) ∧
    inflate_result (out ++ fst (flate_text r), snd (flate_text r)) maxSize
      (match err with None => inl out' | Some e => inr e end) ∧
    (0 < maxSize → len out' ≤ maxSize).
Proof.
  revert r out. induction fuel as [|fuel IH]; intros r out Htmp Hf Hout; [lia|].
  cbn [inflate_loop]. pose proof (flate_read_ok r tmp Htmp) as Hr.
  destruct (flate_read r tmp) as [[d e] r']. destruct Hr as [Hd He].
  replace (if 0 <? len d then len out + len d else len out) with (len (out ++ d))
    by (rewrite length_app; destruct (Z.ltb_spec 0 (len d)); lia).
  destruct ((0 <? len d) && (0 <? maxSize) && (maxSize <? len (out ++ d))) eqn:Hbig.
  { rewrite !andb_true_iff, !Z.ltb_lt in Hbig. eexists _, _, _. split; [done|]. split; [|done]. simpl.
    assert (d `prefix_of` fst (flate_text r)) as [k Hk].
    { destruct e as [[]|]; [rewrite He; done|rewrite He; done|].
      destruct He as [_ ->]. apply prefix_app_r. done. }
    rewrite Hk. rewrite !length_app in *. lia. }
  assert (0 < maxSize → len (out ++ d) ≤ maxSize) as Hout'.
  { rewrite !andb_false_iff, !Z.ltb_ge in Hbig. intros Hm. rewrite length_app in *. specialize (Hout Hm). lia. }
  destruct e as [[]|].
  - eexists _, _, _. split; [done|]. simpl. rewrite He. done.
  - eexists _, _, _. split; [done|]. simpl. rewrite He. done.
  - destruct He as [Hlt Ht].
    destruct (IH r' (out ++ d)) as (r2 & out2 & err & -> & Hres & Hlen); [done|lia|done|].
    eexists _, _, _. split; [done|]. rewrite Ht. simpl. rewrite app_assoc. done.
Qed.

Lemma inflate_encoded (payload buf : list Z) :
  len payload + 9 ≤ len buf →
  take (Z.to_nat (len payload + len extPMDDecodeTail))
    (blit (blit buf 0 payload) (len payload) extPMDDecodeTail) = payload ++ extPMDDecodeTail.
Proof.
  intros H. apply list_eq; intros j. rewrite lookup_take, !lookup_blit, lookup_app_dec
    by (rewrite ?length_blit; simpl; lia).
  rewrite length_blit by lia. change (len extPMDDecodeTail) with 9.
  repeat case_decide; try lia; try (f_equal; lia).
  symmetry. apply lookup_ge_None_2. change (length extPMDDecodeTail) with 9%nat. lia.
Qed.

(** Enough fuel for one message: the length of the stream that a new reader
    yields for it. *)
Definition inflate_fuel (payload : list Z) : nat :=
  S (flate_left (flate_new (payload ++ extPMDDecodeTail))).

Lemma inflate_spec fuel (i : pmdInflater F) payload maxSize : (inflate_fuel payload ≤ fuel)%nat →
  ∃ i' r, pmdInflater_inflate fuel i payload maxSize = Some (i', r) ∧
    inflate_result (flate_text (flate_new (payload ++ extPMDDecodeTail))) maxSize r ∧
    (0 < maxSize → len (i_outBuf i') ≤ maxSize).
Proof.
  intros Hf. unfold pmdInflater_inflate.
  rewrite inflate_encoded.
  2: { change (len extPMDDecodeTail) with 9. gcase; [rewrite length_make_bytes by lia|]; lia. }
  set (enc := payload ++ extPMDDecodeTail) in *.
  destruct (match i_reader i with
    | None => (flate_new enc, true)
    | Some r => if i_reset i then (flate_reset r enc, true) else (flate_new enc, true)
    end) as [reader reset] eqn:Er.
  assert (flate_text reader = flate_text (flate_new enc) ∧ flate_left reader = flate_left (flate_new enc)) as [Ht Hl].
  { destruct (i_reader i) as [r|]; [destruct (i_reset i)|]; simplify_eq; try done. apply flate_reset_ok. }
  destruct (inflate_loop_spec fuel reader (len (if len (i_tmpBuf i) =? 0 then make_bytes 4096 else i_tmpBuf i)) maxSize [])
    as (r' & out & err & E & Hres & Hlen).
  - destruct (Z.eqb_spec (len (i_tmpBuf i)) 0); [by rewrite length_make_bytes|lia].
  - unfold inflate_fuel in Hf. fold enc in Hf. lia.
  - simpl. lia.
  - change (len (@nil Z)) with 0 in E. rewrite E. cbn [mbind option_bind]. eexists _, _. split; [done|].
    simpl in Hres. rewrite <-surjective_pairing, Ht in Hres. done.
Qed.

(** C30: decompression of a permessage-deflate message terminates and is bounded:
    with fuel for the stream of a fresh reader (the reused reader is reset to it),
    [inflate] either returns the whole decompressed text of payload + tail, which
    fits a positive limit, or reports too large only for a text above a positive
    limit, or an error only for a corrupt stream; it never buffers more than the
    limit. *)
Theorem inflate_bounded_and_total (fuel : nat) (i : pmdInflater F) (payload : list Z) (maxSize : Z) :
  (inflate_fuel payload ≤ fuel)%nat →
  ∃ i' r, pmdInflater_inflate fuel i payload maxSize = Some (i', r) ∧
    (0 < maxSize → len (i_outBuf i') ≤ maxSize) ∧
    match r with
    | inl out => flate_text (flate_new (payload ++ extPMDDecodeTail)) = (out, true) ∧
                 (0 < maxSize → len out ≤ maxSize)
    | inr errPMDMessageTooLarge =>
        0 < maxSize ∧ maxSize < len (fst (flate_text (flate_new (payload ++ extPMDDecodeTail))))
    | inr errPMDCorrupt => snd (flate_text (flate_new (payload ++ extPMDDecodeTail))) = false
    end.
Proof.
  intros Hf. destruct (inflate_spec fuel i payload maxSize Hf) as (i' & r & E & Hres & Hlen).
  exists i', r. done.
Qed.

End InflateLemmas.

(** The extension is negotiated exactly when some offer of the comma-separated
    header is an acceptable one, and [validPMDWindowBits] accepts exactly the
    non-empty digit strings whose decimal value is between 8 and 15 (without
    overflow: it stops at the first prefix above 15). *)
Theorem pmd_negotiation_spec (v bits : list Z) :
  negotiatePermessageDeflate v = existsb pmd_offer (Split v 44) ∧
  (validPMDWindowBits bits = true ↔
     bits ≠ [] ∧ forallb digit bits = true ∧ 8 ≤ decimal bits ≤ 15).
Proof.
  split; [apply negotiate_loop_spec; lia|]. unfold validPMDWindowBits, decimal.
  destruct bits as [|c l]; [split; [done|by intros [? _]]|].
  replace (len (c :: l) =? 0) with false by (simpl; lia).
  rewrite window_bits_loop by lia. rewrite !andb_true_iff, !Z.leb_le. split; [by intros [[? ?] ?]|by intros (_ & ? & ? & ?)].
Qed.

(** A reader for the witnesses that yields stored bytes unchanged, 2 at a time. *)
Definition TestFlate : Type := list Z.
#[export] Instance TF_Flate : Flate TestFlate := {
  flate_new l := l;
  flate_reset _ l := l;
  flate_close r := r;
  flate_read r n :=
    if len r <=? Z.min 2 n then (r, Some FlateEOF, []) else (take (Z.to_nat (Z.min 2 n)) r, None, drop (Z.to_nat (Z.min 2 n)) r);
}.

#[export] Instance TF_FlateLaws : FlateLaws TestFlate.
Proof.
  refine {| flate_left r := length r; flate_text r := (r, true) |}.
  - intros r n Hn. simpl. destruct (Z.leb_spec (len r) (Z.min 2 n)).
    + split; [lia|done].
    + rewrite length_take, length_drop. split; [lia|]. split; [lia|]. by rewrite take_drop.
  - done.
Defined.

Lemma inflate_bounded_and_total_witness :
  ∃ i' r, pmdInflater_inflate 20 (pmdInflater_new (F := TestFlate)) [1; 2; 3] 100 = Some (i', r) ∧
    (0 < 100 → len (i_outBuf i') ≤ 100) ∧
    match r with
    | inl out => flate_text (flate_new ([1; 2; 3] ++ extPMDDecodeTail)) = (out, true) ∧ (0 < 100 → len out ≤ 100)
    | inr errPMDMessageTooLarge =>
        0 < 100 ∧ 100 < len (fst (flate_text (flate_new ([1; 2; 3] ++ extPMDDecodeTail))))
    | inr errPMDCorrupt => snd (flate_text (flate_new ([1; 2; 3] ++ extPMDDecodeTail))) = false
    end.
Proof.
  apply (inflate_bounded_and_total 20 (pmdInflater_new (F := TestFlate)) [1; 2; 3] 100).
  vm_compute. lia.
Defined.
