(* ===== verification/WsClient.v ===== *)
(** * websocket/wsclient.go: the state of a websocket client

    [clientBuf] collects the fragments of a message in a buffer of the allocator;
    [checkOffset] is how far its text was validated. *)

From S2P Require Import Prelude Pool Pmd.

Record clientBuf := mkClientBuf { cb_buf : list Z; cb_writeOffset : Z; cb_checkOffset : Z }.

Definition clientBuf_new : clientBuf := mkClientBuf [] 0 0.

(** [F]: the decompressor; [UD]: the application's data. *)
Record WsClient (F UD : Type) := mkWsClient {
  ws_Upgraded : bool;
  ws_Cid : Z;
  ws_AllowPlainHTTP : bool;
  ws_PlainHTTP : bool;
  ws_nonce : list Z;
  ws_firstop : Z;
  ws_perMessageDeflate : bool;
  ws_fragmentCompressed : bool;
  ws_buf : option clientBuf;
  ws_inflater : pmdInflater F;
  ws_UserData : option UD;
}.
Arguments mkWsClient {F UD}.
Arguments ws_Upgraded {F UD}. Arguments ws_Cid {F UD}. Arguments ws_AllowPlainHTTP {F UD}.
Arguments ws_PlainHTTP {F UD}. Arguments ws_nonce {F UD}. Arguments ws_firstop {F UD}.
Arguments ws_perMessageDeflate {F UD}. Arguments ws_fragmentCompressed {F UD}.
Arguments ws_buf {F UD}. Arguments ws_inflater {F UD}. Arguments ws_UserData {F UD}.

Section Client.
Context {P F UD : Type} `{!Allocator P, !Flate F}.
Implicit Types (c : WsClient F UD).

(** The fields that frames change: opcode of the first fragment, its compression
    flag, the buffer and the inflater. *)
Definition ws_set_msg c firstop compressed buf inflater : WsClient F UD :=
  mkWsClient (ws_Upgraded c) (ws_Cid c) (ws_AllowPlainHTTP c) (ws_PlainHTTP c) (ws_nonce c)
    firstop (ws_perMessageDeflate c) compressed buf inflater (ws_UserData c).

(** The fields that the handshake changes. *)
Definition ws_set_http c upgraded plain nonce pmd : WsClient F UD :=
  mkWsClient upgraded (ws_Cid c) (ws_AllowPlainHTTP c) plain nonce
    (ws_firstop c) pmd (ws_fragmentCompressed c) (ws_buf c) (ws_inflater c) (ws_UserData c).

Definition clientBuf_write (pool : P) (b : clientBuf) (inp : list Z) : option (P * clientBuf * bool) :=
  let left := len (cb_buf b) - cb_writeOffset b in
  if len inp <=? left then
    buf ← copy_at (cb_buf b) (cb_writeOffset b) inp;
    Some (pool, mkClientBuf buf (cb_writeOffset b + len inp) (cb_checkOffset b), true)
  else
    '(nb, pool) ← al_get pool (cb_writeOffset b + len inp);
    match nb with
    | None => Some (pool, b, false)
    | Some buf =>
        buf ← (if 0 <? cb_writeOffset b
               then s ← slice (cb_buf b) 0 (cb_writeOffset b); copy_at buf 0 s
               else Some buf);
        buf ← copy_at buf (cb_writeOffset b) inp;
        let pool := al_put pool (cb_buf b) in
        Some (pool, mkClientBuf buf (cb_writeOffset b + len inp) (cb_checkOffset b), true)
    end.

Definition clientBuf_bytes (b : clientBuf) : option (list Z) :=
  if cb_writeOffset b =? 0 then Some [] else slice (cb_buf b) 0 (cb_writeOffset b).

Definition clientBuf_size (b : clientBuf) : Z := cb_writeOffset b.

Definition clientBuf_reset (pool : P) (b : clientBuf) : P * clientBuf :=
  (al_put pool (cb_buf b), mkClientBuf [] 0 0).

Definition WsClient_resetBuf (pool : P) c : P * WsClient F UD :=
  match ws_buf c with
  | None => (pool, c)
  | Some b =>
      let '(pool, b) := clientBuf_reset pool b in
      (pool, ws_set_msg c (ws_firstop c) (ws_fragmentCompressed c) (Some b) (ws_inflater c))
  end.

Definition WsClient_resetMessageState (pool : P) c : P * WsClient F UD :=
  WsClient_resetBuf pool (ws_set_msg c 0 false (ws_buf c) (ws_inflater c)).

Definition WsClient_closePMD c : WsClient F UD :=
  ws_set_msg c (ws_firstop c) (ws_fragmentCompressed c) (ws_buf c) (pmdInflater_close (ws_inflater c)).

(** ** The buffer as a byte string *)

(** The bytes collected so far. *)
Definition cb_data (b : clientBuf) : list Z := take (Z.to_nat (cb_writeOffset b)) (cb_buf b).

Definition cb_wf (b : clientBuf) : Prop :=
  0 ≤ cb_checkOffset b ≤ cb_writeOffset b ∧ cb_writeOffset b ≤ len (cb_buf b).

Lemma cb_wf_new : cb_wf clientBuf_new.
Proof. by split. Qed.

Lemma length_cb_data b : cb_wf b → len (cb_data b) = cb_writeOffset b.
Proof. intros [? ?]. unfold cb_data. llia. Qed.

Lemma clientBuf_bytes_spec b : cb_wf b → clientBuf_bytes b = Some (cb_data b).
Proof.
  intros [? ?]. unfold clientBuf_bytes, cb_data. gcase.
  - by replace (Z.to_nat (cb_writeOffset b)) with 0%nat by lia.
  - rewrite slice_Some by lia. by rewrite sub_prefix.
Qed.

Lemma take_blit_app (buf l inp : list Z) : l `prefix_of` buf → len l + len inp ≤ len buf →
  take (Z.to_nat (len l + len inp)) (blit buf (len l) inp) = l ++ inp.
Proof.
  intros [k ->] Hl. rewrite length_app in Hl. apply list_eq; intros j.
  rewrite lookup_take, lookup_blit, !lookup_app_dec by (rewrite length_app; lia).
  rewrite length_app. repeat case_decide; try lia; try done.
  - f_equal. lia.
  - symmetry. apply lookup_ge_None_2. lia.
Qed.

Context `{!AllocatorLaws P}.

(** A write appends, or fails without a change when the allocator has no buffer
    for the message. *)
Lemma clientBuf_write_spec pool b inp : al_inv pool → cb_wf b →
  ∃ pool' b' ok, clientBuf_write pool b inp = Some (pool', b', ok) ∧ al_inv pool' ∧
    al_max pool' = al_max pool ∧ cb_wf b' ∧ cb_checkOffset b' = cb_checkOffset b ∧
    cb_data b' = (if ok : bool then cb_data b ++ inp else cb_data b) ∧
    (len (cb_data b) + len inp ≤ al_max pool → ok = true).
Proof.
  intros Hinv Hwf. pose proof (length_cb_data b Hwf) as Hl. pose proof Hwf as [Hc Hw].
  unfold clientBuf_write. destruct (Z.leb_spec (len inp) (len (cb_buf b) - cb_writeOffset b)).
  - rewrite copy_at_Some by lia. simpl. eexists _, _, _. split; [done|]. split; [done|]. split; [done|]. split.
    { unfold cb_wf. simpl. rewrite length_blit by lia. lia. }
    split; [done|]. split; [|done].
    unfold cb_data at 1. simpl. rewrite <-Hl. apply take_blit_app; [apply prefix_take|lia].
  - destruct (Z.le_gt_cases (cb_writeOffset b + len inp) (al_max pool)) as [Hm|Hm].
    2: { rewrite al_get_nil by done. simpl. eexists _, _, _. split_and!; try done. lia. }
    destruct (al_get_some pool _ Hinv Hm) as (buf & pool' & -> & Hb & _ & Hinv' & Hm'). simpl.
    destruct (al_put_inv pool' (cb_buf b) Hinv') as [? ?].
    assert ((if 0 <? cb_writeOffset b then s ← slice (cb_buf b) 0 (cb_writeOffset b); copy_at buf 0 s else Some buf)
            = Some (blit buf 0 (cb_data b))) as ->.
    { destruct (Z.ltb_spec 0 (cb_writeOffset b)).
      - rewrite slice_Some by lia. simpl. rewrite copy_at_Some by lia. by rewrite sub_prefix.
      - unfold cb_data. replace (Z.to_nat _) with 0%nat by lia. by rewrite take_0, blit_front by (simpl; lia). }
    simpl. rewrite copy_at_Some by (rewrite length_blit; lia). simpl.
    eexists _, _, _. split; [done|]. split; [done|]. split; [congruence|]. split.
    { unfold cb_wf. simpl. rewrite !length_blit by (rewrite ?length_blit; lia). lia. }
    split; [done|]. split; [|done].
    unfold cb_data at 1. simpl. rewrite <-Hl at 1 2. apply take_blit_app.
    + rewrite blit_front by lia. by apply prefix_app_r.
    + rewrite length_blit by lia. lia.
Qed.

End Client.
