(* ===== verification/Handshake.v ===== *)
(** * websocket/{handshake,http}.go: the opening handshake

    [parseHandshake] reads an HTTP request up to its blank line and records the
    key and the negotiated extension in the client; [processHandshake] answers. *)

From stdpp Require Import strings.
From S2P Require Import Prelude Pool Cipher Text Sha1 Pmd WsClient.

Definition headerHost : list Z := str "Host".
Definition headerUpgrade : list Z := str "Upgrade".
Definition headerConnection : list Z := str "Connection".
Definition headerSecVersion : list Z := str "Sec-Websocket-Version".
Definition headerSecKey : list Z := str "Sec-Websocket-Key".
Definition headerSecExtensions : list Z := str "Sec-Websocket-Extensions".

Definition headerSeenHost : Z := 1.
Definition headerSeenUpgrade : Z := 2.
Definition headerSeenConnection : Z := 4.
Definition headerSeenSecVersion : Z := 8.
Definition headerSeenSecKey : Z := 16.
Definition headerSeenAll : Z :=
  Z.lor (Z.lor (Z.lor (Z.lor headerSeenHost headerSeenUpgrade) headerSeenConnection)
     headerSeenSecVersion) headerSeenSecKey.

Definition specHeaderValueWsLower : list Z := str "websocket".
Definition specHeaderValueUpgradeLower : list Z := str "upgrade".
Definition specHeaderValueSecVersion : list Z := str "13".

Definition httpGet : list Z := str "GET".
Definition CRLF : list Z := [CR; LF].
Definition upgrade : list Z :=
  str "HTTP/1.1 101 Switching Protocols" ++ CRLF ++ str "Upgrade: websocket" ++ CRLF
  ++ str "Connection: Upgrade" ++ CRLF ++ str "Sec-WebSocket-Accept: ".
Definition plainHTTPResponse : list Z :=
  str "HTTP/1.1 200 OK" ++ CRLF ++ str "Content-Type: text/plain" ++ CRLF
  ++ str "Content-Length: 3" ++ CRLF ++ str "Connection: close" ++ CRLF ++ CRLF ++ str "ok" ++ [LF].

Record httpRequestLine := mkReqLine {
  rl_method : list Z; rl_uri : list Z; rl_major : Z; rl_minor : Z }.

Definition magic : list Z := str "258EAFA5-E914-47DA-95CA-C5AB0DC85B11".

(** [writeAcceptKey(dst, nonce)]: [dst] after the call and the count returned. *)
Definition writeAcceptKey (dst nonce : list Z) : list Z * Z :=
  if len dst <? 28 then (dst, 0)
  else if negb (len nonce =? 24) then (dst, 0)
  else (blit dst 0 (b64_encode (sha1_Sum (nonce ++ magic))), 28).

(** The line without its end, and the position of the LF; -1 if there is none. *)
Definition getLine (inp : list Z) : option (list Z * Z) :=
  let pos := IndexByte inp LF in
  if 0 <=? pos then
    if 0 <? pos then
      c ← index inp (pos - 1);
      if c =? CR then l ← slice inp 0 (pos - 1); Some (l, pos)
      else l ← slice inp 0 pos; Some (l, pos)
    else l ← slice inp 0 pos; Some (l, pos)
  else Some ([], -1).

(** Outer [None]: a panic; inner [None]: [nil]. *)
Definition parseRequestLine (inp : list Z) (allowHTTP10 : bool) : option (option httpRequestLine) :=
  let pos1 := IndexByte inp SP in
  if (pos1 <=? 0) || (len inp <=? pos1 + 1) then Some None
  else
    rest ← slice inp (pos1 + 1) (len inp);
    let pos2 := IndexByte rest SP in
    if pos2 <=? 0 then Some None
    else
      method ← slice inp 0 pos1;
      uri ← slice inp (pos1 + 1) (pos2 + pos1 + 1);
      proto ← slice inp (pos1 + pos2 + 2) (len inp);
      if len proto <? 8 then Some None
      else
        let pos := IndexByte proto 46 in
        if (pos <=? 0) || (len proto <=? pos + 1) then Some None
        else
          a ← index proto (pos - 1);
          b ← index proto (pos + 1);
          if (a <? 48) || (57 <? a) || (b <? 48) || (57 <? b) then Some None
          else
            let major := a - 48 in
            let minor := b - 48 in
            if negb (major =? 1) || (minor <? 0) then Some None
            else if negb allowHTTP10 && (minor <? 1) then Some None
            else if negb (equal method httpGet) then Some None
            else Some (Some (mkReqLine method uri major minor)).

(** [None] when the line has no colon (both results are [nil]). *)
Definition parseHeaderLine (inp : list Z) : option (list Z * list Z) :=
  let pos := IndexByte inp 58 in
  if pos =? -1 then None
  else Some (canonicalizeBytes (trim (take (Z.to_nat pos) inp)), trim (drop (Z.to_nat (pos + 1)) inp)).

Section Handshake.
Context {F UD : Type} `{!Flate F}.
Implicit Types (cli : WsClient F UD).

(** The effect of one header on the client and on [state]; [None]: return (-1, -1). *)
Definition handshake_header cli (state : Z) (key val : list Z) : option (WsClient F UD * Z) :=
  let state := if equal key headerHost then Z.lor state headerSeenHost else state in
  if equal key headerUpgrade && negb (equalFoldASCII val specHeaderValueWsLower) then None
  else
    let state := if equal key headerUpgrade then Z.lor state headerSeenUpgrade else state in
    if equal key headerConnection && negb (containsTokenFoldASCII val specHeaderValueUpgradeLower)
       && negb (ws_AllowPlainHTTP cli) then None
    else
      let state := if equal key headerConnection && containsTokenFoldASCII val specHeaderValueUpgradeLower
                   then Z.lor state headerSeenConnection else state in
      if equal key headerSecVersion && negb (equal val specHeaderValueSecVersion) then None
      else
        let state := if equal key headerSecVersion then Z.lor state headerSeenSecVersion else state in
        if equal key headerSecKey && negb (len val =? 24) then None
        else
          let '(cli, state) :=
            if equal key headerSecKey
            then (ws_set_http cli (ws_Upgraded cli) (ws_PlainHTTP cli) val (ws_perMessageDeflate cli),
                  Z.lor state headerSeenSecKey)
            else (cli, state) in
          let cli :=
            if equal key headerSecExtensions && negb (ws_perMessageDeflate cli) && negotiatePermessageDeflate val
            then ws_set_http cli (ws_Upgraded cli) (ws_PlainHTTP cli) (ws_nonce cli) true else cli in
          Some (cli, state).

(** How the header loop ends. *)
Inductive hs_end : Type :=
| HsDone (size state : Z)
| HsReturn (length expect : Z).

(** The loop from offset [size]; a round consumes a line, so [length inp] rounds
    are enough.  [None] is a panic or the end of the fuel. *)
Fixpoint parseHandshake_loop (fuel : nat) cli (inp : list Z) (size state : Z) :
    option (WsClient F UD * hs_end) :=
  match fuel with
  | O => None
  | S fuel =>
      rest ← slice inp size (len inp);
      if len rest =? 0 then Some (cli, HsDone size state)
      else
        '(line, pos) ← getLine rest;
        if pos =? -1 then Some (cli, HsReturn 0 (-1))
        else
          let size := size + pos + 1 in
          if len line =? 0 then Some (cli, HsDone size state)
          else match parseHeaderLine line with
          | None => Some (cli, HsReturn (-1) (-1))
          | Some (key, val) =>
              match handshake_header cli state key val with
              | None => Some (cli, HsReturn (-1) (-1))
              | Some (cli, state) => parseHandshake_loop fuel cli inp size state
              end
          end
  end.

Definition parseHandshake cli (inp : list Z) : option (WsClient F UD * (Z * Z)) :=
  if negb (Contains inp (CRLF ++ CRLF)) then Some (cli, (0, len inp + 1))
  else
    let cli := ws_set_http cli (ws_Upgraded cli) false (ws_nonce cli) false in
    '(line, pos) ← getLine inp;
    if pos =? -1 then Some (cli, (0, len inp + 1))
    else
      rl ← parseRequestLine line (ws_AllowPlainHTTP cli);
      match rl with
      | None => Some (cli, (-1, -1))
      | Some reqLine =>
          '(cli, e) ← parseHandshake_loop (S (length inp)) cli inp (pos + 1) 0;
          match e with
          | HsReturn l ex => Some (cli, (l, ex))
          | HsDone size state =>
              if state =? headerSeenAll then
                if rl_minor reqLine <? 1 then Some (cli, (-1, -1)) else Some (cli, (size, size))
              else if ws_AllowPlainHTTP cli &&
                (Z.land state (Z.lor (Z.lor (Z.lor headerSeenUpgrade headerSeenConnection)
                                       headerSeenSecVersion) headerSeenSecKey) =? 0) &&
                ((rl_minor reqLine =? 0) || negb (Z.land state headerSeenHost =? 0))
              then Some (ws_set_http cli (ws_Upgraded cli) true (ws_nonce cli) (ws_perMessageDeflate cli), (size, size))
              else Some (cli, (-1, -1))
          end
      end.

(** [pos += copy(buf[pos:], src)] *)
Definition put (s : list Z * Z) (src : list Z) : option (list Z * Z) :=
  let '(buf, pos) := s in
  buf' ← copy_at buf pos src;
  Some (buf', pos + Z.min (len buf - pos) (len src)).

Definition processHandshake cli : option (WsClient F UD * (list Z * bool)) :=
  if ws_PlainHTTP cli then
    Some (ws_set_http cli (ws_Upgraded cli) false [] (ws_perMessageDeflate cli), (plainHTTPResponse, true))
  else
    let size := len upgrade + 28 + 2 + 2 in
    let size := if ws_perMessageDeflate cli then size + len extPermessageDeflateServerLine else size in
    '(buf, pos) ← put (make_bytes size, 0) upgrade;
    dst ← slice buf pos (len buf);
    let '(dst, n) := writeAcceptKey dst (ws_nonce cli) in
    buf ← copy_at buf pos dst;
    s ← put (buf, pos + n) CRLF;
    s ← (if ws_perMessageDeflate cli then put s extPermessageDeflateServerLine else Some s);
    '(buf, pos) ← put s CRLF;
    out ← slice buf 0 pos;
    Some (ws_set_http cli true (ws_PlainHTTP cli) [] (ws_perMessageDeflate cli), (out, false)).

(** The response of the protocol for a key of 24 bytes. *)
Definition response101 (nonce : list Z) (pmd : bool) : list Z :=
  upgrade ++ b64_encode (sha1_Sum (nonce ++ magic)) ++ CRLF
  ++ (if pmd then extPermessageDeflateServerLine else []) ++ CRLF.

End Handshake.

(** ** No panic, progress, and what was seen *)

Lemma getLine_spec inp : ∃ line pos, getLine inp = Some (line, pos) ∧
  ((pos = -1 ∧ LF ∉ inp) ∨ (0 ≤ pos < len inp ∧ index inp pos = Some LF ∧ len line ≤ pos)).
Proof.
  unfold getLine. pose proof (IndexByte_bound inp LF) as Hb.
  destruct (Z.leb_spec 0 (IndexByte inp LF)) as [Hp|Hp].
  2: { exists [], (-1). split; [done|]. left. split; [done|]. by apply IndexByte_none. }
  assert (index inp (IndexByte inp LF) = Some LF) as Hlf.
  { destruct (IndexByte_nonneg inp LF Hp) as (pre & post & Hi & Hl & _).
    unfold index. zb. rewrite <-Hl, Hi, Nat2Z.id. by apply list_lookup_middle. }
  destruct (Z.ltb_spec 0 (IndexByte inp LF)).
  - destruct (index_Some inp (IndexByte inp LF - 1)) as [c ->]; [lia|]. simpl.
    gcase; rewrite slice_Some by lia; simpl; eexists _, _; (split; [done|]); right;
      (split; [lia|]); (split; [done|]); rewrite length_sub; lia.
  - rewrite slice_Some by lia. simpl. eexists _, _. split; [done|]. right.
    split; [lia|]. split; [done|]. rewrite length_sub; lia.
Qed.

Lemma parseRequestLine_total inp allow : is_Some (parseRequestLine inp allow).
Proof.
  unfold parseRequestLine. pose proof (IndexByte_bound inp SP). gcase; [by eexists|].
  rewrite (slice_Some inp (IndexByte inp SP + 1)) by lia. simpl.
  set (rest := sub inp (IndexByte inp SP + 1) (len inp)).
  pose proof (length_sub inp (IndexByte inp SP + 1) (len inp) ltac:(lia) ltac:(lia)) as Hr. fold rest in Hr.
  pose proof (IndexByte_bound rest SP). gcase; [by eexists|].
  rewrite !slice_Some by lia. simpl.
  set (proto := sub inp _ (len inp)). gcase; [by eexists|].
  pose proof (IndexByte_bound proto 46).
  destruct ((IndexByte proto 46 <=? 0) || (len proto <=? IndexByte proto 46 + 1)) eqn:?; [by eexists|].
  destruct (index_Some proto (IndexByte proto 46 - 1)) as [a ->]; [lia|]. simpl.
  destruct (index_Some proto (IndexByte proto 46 + 1)) as [b ->]; [lia|]. simpl.
  repeat case_match; by eexists.
Qed.

Section HandshakeLemmas.
Context {F UD : Type} `{!Flate F}.
Implicit Types (cli : WsClient F UD).

(** The fields a handshake never changes while parsing. *)
Definition hs_same cli cli' : Prop :=
  ws_Upgraded cli' = ws_Upgraded cli ∧ ws_AllowPlainHTTP cli' = ws_AllowPlainHTTP cli ∧
  ws_PlainHTTP cli' = ws_PlainHTTP cli.

(** The key was seen only with a value of the right length. *)
Definition key_inv cli (state : Z) : Prop := Z.testbit state 4 = true → len (ws_nonce cli) = 24.

Lemma key_inv_lor cli state m : Z.testbit m 4 = false → key_inv cli state → key_inv cli (Z.lor state m).
Proof. intros Hm H. unfold key_inv. by rewrite Z.lor_spec, Hm, orb_false_r. Qed.

Lemma handshake_header_spec cli state key val cli' state' :
  key_inv cli state → handshake_header cli state key val = Some (cli', state') →
  key_inv cli' state' ∧ hs_same cli cli'.
Proof.
  intros HK. unfold handshake_header.
  set (s1 := if equal key headerHost then _ else _).
  assert (key_inv cli s1) as K1 by (unfold s1; gcase; [by apply key_inv_lor|done]).
  clearbody s1. gcase; [done|].
  set (s2 := if equal key headerUpgrade then _ else _).
  assert (key_inv cli s2) as K2 by (unfold s2; gcase; [by apply key_inv_lor|done]).
  clearbody s2. gcase; [done|].
  set (s3 := if _ && containsTokenFoldASCII val _ then _ else _).
  assert (key_inv cli s3) as K3 by (unfold s3; gcase; [by apply key_inv_lor|done]).
  clearbody s3. gcase; [done|].
  set (s4 := if equal key headerSecVersion then _ else _).
  assert (key_inv cli s4) as K4 by (unfold s4; gcase; [by apply key_inv_lor|done]).
  clearbody s4. destruct (equal key headerSecKey); simpl.
  - destruct (Z.eqb_spec (len val) 24); simpl; [|done].
    case_match; intros; simplify_eq; (split; [by intros _|done]).
  - case_match; intros; simplify_eq; (split; [exact K4|done]).
Qed.

Lemma parseHandshake_loop_spec fuel cli inp size state :
  0 ≤ size ≤ len inp → len inp - size < Z.of_nat fuel → key_inv cli state →
  ∃ cli' e, parseHandshake_loop fuel cli inp size state = Some (cli', e) ∧ hs_same cli cli' ∧
    match e with
    | HsReturn l _ => l ≤ 0
    | HsDone size' state' => size ≤ size' ≤ len inp ∧ key_inv cli' state'
    end.
Proof.
  revert cli size state. induction fuel as [|fuel IH]; intros cli size state Hs Hf HK; [lia|].
  cbn [parseHandshake_loop]. rewrite slice_Some by lia. cbn [mbind option_bind].
  pose proof (length_sub inp size (len inp) ltac:(lia) ltac:(lia)) as Hr.
  set (rest := sub inp size (len inp)) in *. clearbody rest.
  destruct (Z.eqb_spec (len rest) 0); [eexists _, _; split; [done|]; split; [done|]; split; [lia|done]|].
  destruct (getLine_spec rest) as (line & pos & -> & [[-> _]|(Hp & _ & _)]); cbn [mbind option_bind].
  { eexists _, _. split_and!; done. }
  replace (pos =? -1) with false by lia.
  destruct (Z.eqb_spec (len line) 0); [eexists _, _; split; [done|]; split; [done|]; split; [lia|done]|].
  destruct (parseHeaderLine line) as [[key val]|]; [|eexists _, _; split_and!; done].
  destruct (handshake_header cli state key val) as [[cli1 state1]|] eqn:E; [|eexists _, _; split_and!; done].
  apply handshake_header_spec in E as [HK1 (?&?&?)]; [|done].
  destruct (IH cli1 (size + pos + 1) state1) as (cli' & e & -> & (?&?&?) & He); [lia|lia|done|].
  exists cli', e. split; [done|]. split; [split_and!; congruence|]. destruct e; [split; [lia|apply He]|done].
Qed.

Lemma put_spec (pre rest src : list Z) : len src ≤ len rest →
  put (pre ++ rest, len pre) src = Some ((pre ++ src) ++ drop (length src) rest, len (pre ++ src)).
Proof.
  intros H. unfold put. rewrite copy_at_Some by (rewrite length_app; lia). simpl. f_equal. f_equal.
  - by rewrite blit_app, app_assoc by lia.
  - rewrite !length_app. lia.
Qed.

Lemma put_first (rest src : list Z) : len src ≤ len rest →
  put (rest, 0) src = Some (src ++ drop (length src) rest, len src).
Proof. apply (put_spec []). Qed.

Lemma processHandshake_spec cli : ws_PlainHTTP cli = false → len (ws_nonce cli) = 24 →
  ∃ cli', processHandshake cli = Some (cli', (response101 (ws_nonce cli) (ws_perMessageDeflate cli), false)) ∧
    ws_Upgraded cli' = true ∧ ws_perMessageDeflate cli' = ws_perMessageDeflate cli ∧ ws_nonce cli' = [].
Proof.
  intros Hp Hn. unfold processHandshake. rewrite Hp.
  set (pmd := ws_perMessageDeflate cli).
  set (size := if pmd then _ else _).
  assert (size = len upgrade + 32 + if pmd then len extPermessageDeflateServerLine else 0) as Hsize
    by (unfold size; destruct pmd; lia).
  clearbody size. pose proof (length_make_bytes size) as Hmk.
  assert (0 ≤ size) by (destruct pmd; lia). specialize (Hmk ltac:(lia)).
  set (buf := make_bytes size) in *. clearbody buf.
  rewrite put_first by (destruct pmd; lia). cbn [mbind option_bind].
  set (rest := drop (length upgrade) buf).
  assert (len rest = 32 + if pmd then len extPermessageDeflateServerLine else 0) as Hrest.
  { unfold rest. rewrite length_drop. destruct pmd; lia. }
  clearbody rest. rewrite slice_Some by (rewrite length_app; lia). cbn [mbind option_bind].
  rewrite sub_suffix by lia. rewrite Nat2Z.id, drop_app_length.
  unfold writeAcceptKey. rewrite Hn. replace (len rest <? 28) with false by (destruct pmd; lia).
  simpl negb. cbn iota.
  set (key := b64_encode (sha1_Sum (ws_nonce cli ++ magic))).
  assert (length key = 28%nat) as Hkey by (apply length_b64_20, length_sha1_Sum).
  rewrite blit_front by (destruct pmd; lia).
  rewrite copy_at_Some by (rewrite length_app; lia). cbn [mbind option_bind].
  assert (blit (upgrade ++ rest) (len upgrade) (key ++ drop (length key) rest)
          = (upgrade ++ key) ++ drop (length key) rest) as ->.
  { rewrite blit_app by (rewrite length_app, length_drop; destruct pmd; lia).
    rewrite (drop_ge rest (length (key ++ _))) by (rewrite length_app, length_drop; destruct pmd; lia).
    by rewrite app_nil_r, app_assoc. }
  replace (len upgrade + 28) with (len (upgrade ++ key)) by (rewrite length_app; lia).
  rewrite put_spec by (rewrite length_drop; change (length CRLF) with 2%nat; destruct pmd; lia).
  cbn [mbind option_bind]. rewrite drop_drop.
  destruct pmd.
  - rewrite put_spec by (rewrite length_drop; change (length CRLF) with 2%nat; lia).
    cbn [mbind option_bind]. rewrite drop_drop.
    rewrite put_spec by (rewrite length_drop; change (length CRLF) with 2%nat; lia).
    cbn [mbind option_bind]. rewrite drop_drop, (drop_ge rest) by (change (length CRLF) with 2%nat; lia).
    rewrite app_nil_r, slice_Some by lia. cbn [mbind option_bind]. eexists.
    split; [rewrite sub_full; unfold response101; fold key; rewrite <-!app_assoc; reflexivity|done].
  - cbn [mbind option_bind]. rewrite put_spec by (rewrite length_drop; change (length CRLF) with 2%nat; lia).
    cbn [mbind option_bind]. rewrite drop_drop, (drop_ge rest) by (change (length CRLF) with 2%nat; lia).
    rewrite app_nil_r, slice_Some by lia. cbn [mbind option_bind]. eexists.
    split; [rewrite sub_full; unfold response101; fold key; rewrite <-!app_assoc; reflexivity|done].
Qed.

(** The answer to a handshake. *)
Lemma handshake_answer (cli : WsClient F UD) (inp : list Z) :
  ∃ cli1 length expect, parseHandshake cli inp = Some (cli1, (length, expect)) ∧
    (0 < length → length ≤ len inp ∧ expect = length ∧ ws_Upgraded cli1 = ws_Upgraded cli ∧
      ∃ cli2 out close, processHandshake cli1 = Some (cli2, (out, close)) ∧
        if ws_PlainHTTP cli1
        then ws_AllowPlainHTTP cli = true ∧ out = plainHTTPResponse ∧ close = true
        else out = response101 (ws_nonce cli1) (ws_perMessageDeflate cli1) ∧ close = false ∧
             ws_Upgraded cli2 = true).
Proof.
  unfold parseHandshake. destruct (negb (Contains inp (CRLF ++ CRLF))).
  { eexists _, _, _. split; [done|]. lia. }
  set (cli0 := ws_set_http cli _ _ _ _).
  destruct (getLine_spec inp) as (line & pos & -> & [[-> _]|(Hp & _ & _)]); cbn [mbind option_bind].
  { eexists _, _, _. split; [done|]. lia. }
  replace (pos =? -1) with false by lia.
  destruct (parseRequestLine_total line (ws_AllowPlainHTTP cli0)) as [rl ->]. cbn [mbind option_bind].
  destruct rl as [rl|]; [|eexists _, _, _; split; [done|lia]].
  destruct (parseHandshake_loop_spec (S (length inp)) cli0 inp (pos + 1) 0)
    as (cli1 & e & -> & (Hu & Ha & Hpl) & He); [lia|lia|by intros ?|]. cbn [mbind option_bind].
  simpl in Ha, Hpl. destruct e as [size state|l ex].
  2: { eexists _, _, _. split; [done|]. lia. }
  destruct He as [Hsize HK]. destruct (Z.eqb_spec state headerSeenAll) as [->|].
  - destruct (rl_minor rl <? 1); [eexists _, _, _; split; [done|lia]|].
    eexists _, _, _. split; [done|]. intros _. split; [lia|]. split; [done|]. split; [done|].
    destruct (processHandshake_spec cli1 Hpl (HK eq_refl)) as (cli2 & -> & Hup & _).
    rewrite Hpl. eexists _, _, _. done.
  - destruct (ws_AllowPlainHTTP cli1) eqn:Hallow; simpl andb; [|eexists _, _, _; split; [done|lia]].
    case_match; [|eexists _, _, _; split; [done|lia]].
    eexists _, _, _. split; [done|]. intros _. split; [lia|]. split; [done|]. split; [done|].
    eexists _, _, _. split; [done|]. simpl. split_and!; congruence || done.
Qed.


End HandshakeLemmas.

(** The example of RFC 6455, 1.2. *)
Definition rfc_request : list Z :=
  str "GET /chat HTTP/1.1" ++ CRLF ++ str "Host: server.example.com" ++ CRLF
  ++ str "Upgrade: websocket" ++ CRLF ++ str "Connection: Upgrade" ++ CRLF
  ++ str "Sec-WebSocket-Key: dGhlIHNhbXBsZSBub25jZQ==" ++ CRLF
  ++ str "Sec-WebSocket-Version: 13" ++ CRLF ++ CRLF.

Example rfc_accept_key :
  b64_encode (sha1_Sum (str "dGhlIHNhbXBsZSBub25jZQ==" ++ magic)) = str "s3pPLMBiTxaQ9kYGzzhZRbK+xOo=".
Proof. vm_compute. reflexivity. Qed.

Example rfc_request_parses :
  let cli := mkWsClient (F := TestFlate) (UD := unit) false 1 false false [] 0 false false None pmdInflater_new None in
  option_map snd (parseHandshake cli (rfc_request ++ [1; 2; 3])) = Some (len rfc_request, len rfc_request).
Proof. vm_compute. reflexivity. Qed.
