(* ===== verification/Frame.v ===== *)
(** * websocket/frame.go: framing, reassembly and validation of messages

    [parseFrame] delimits frames, [processFrame] runs one frame against the
    state of the client, [buildFrame] writes frames.  The application's handler
    and the decompressor are parameters. *)

From S2P Require Import Prelude Pool Tuning Utf8 Cipher Sha1 Pmd WsClient.

Definition WSHeaderMinSize : Z := 2.
Definition MessageNone : Z := 0.
Definition MessageText : Z := 1.
Definition MessageBinary : Z := 2.

Record Header := mkHeader {
  Fin : bool; Rsv : Z; OpCode : Z; Masked : bool; Mask : list Z; Length : Z }.

(** ** Sizes and parsing *)

Definition calcHeaderSize (b : Z) : Z :=
  let size := 2 in
  let size := if negb (Z.land b 0x80 =? 0) then size + 4 else size in
  if Z.land b 0x7f =? 126 then size + 2
  else if Z.land b 0x7f =? 127 then size + 8 else size.

(** [binary.BigEndian.Uint16/Uint64] *)
Definition be_uint (l : list Z) : Z := be_word l.

Definition parseFrame (ws : WSKnobs) (inp : list Z) : option (Z * Z) :=
  if len inp <? WSHeaderMinSize then Some (0, WSHeaderMinSize)
  else
    b1 ← index inp 1;
    let headerSize := calcHeaderSize b1 in
    if len inp <? headerSize then Some (0, headerSize)
    else
      length ← (if Z.land b1 0x7f =? 126 then s ← slice inp 2 4; Some (be_uint s)
                else if Z.land b1 0x7f =? 127 then s ← slice inp 2 10; Some (wrapS 64 (be_uint s))
                else Some (Z.land b1 0x7f));
      if (Z.land b1 0x7f =? 127) && (length <? 0) then Some (-1, -1)
      else if (0 <? WSMaxFramePayloadBytes ws) && (WSMaxFramePayloadBytes ws <? length) then Some (-1, -1)
      else
        let total := wrapS 64 (length + headerSize) in
        if len inp <? total then Some (0, total) else Some (total, total).

(** ** Writing *)

(** Total size and header size, as [int64]. *)
Definition calcPktSize (h : Header) : Z * Z :=
  let size := 2 in
  let size := if Masked h then size + 4 else size in
  let size := if (125 <? Length h) && (Length h <=? 65535) then size + 2
              else if 65535 <? Length h then size + 8 else size in
  (wrapS 64 (size + Length h), size).

Definition writeHeader (h : Header) (hsize : Z) (buf : list Z) : option (list Z) :=
  let b0 := Z.land (OpCode h) 0x0f in
  let b0 := if Fin h then Z.lor b0 0x80 else b0 in
  let b0 := Z.lor b0 (wrapU 8 (Z.shiftl (Z.land (Rsv h) 0x7) 4)) in
  buf ← store buf 0 b0;
  buf ← (if Length h <=? 125 then store buf 1 (wrapU 8 (Length h))
         else if Length h <=? 65535 then
           buf ← store buf 1 126;
           _ ← slice buf 2 4; copy_at buf 2 (be_bytes 2 (wrapU 16 (Length h)))
         else
           buf ← store buf 1 127;
           _ ← slice buf 2 10; copy_at buf 2 (be_bytes 8 (wrapU 64 (Length h))));
  if Masked h then
    b1 ← index buf 1;
    buf ← store buf 1 (Z.lor b1 0x80);
    m0 ← index (Mask h) 0; buf ← store buf (hsize - 4) m0;
    m1 ← index (Mask h) 1; buf ← store buf (hsize - 3) m1;
    m2 ← index (Mask h) 2; buf ← store buf (hsize - 2) m2;
    m3 ← index (Mask h) 3; store buf (hsize - 1) m3
  else Some buf.

(** Inner [None]: [nil]. *)
Definition buildFrame (h : Header) (pl : list Z) : option (option (list Z)) :=
  let '(size, hsize) := calcPktSize h in
  if (size <=? 0) || (hsize <=? 0) then Some None
  else if 2 ^ 63 - 1 <? size then Some None
  else
    buf ← writeHeader h hsize (make_bytes size);
    buf ← copy_at buf hsize pl;
    Some (Some buf).

Definition BuildWsPkt (pl : list Z) (code : Z) : option (list Z) :=
  let h := mkHeader true 0 code false [0; 0; 0; 0] (len pl) in
  let '(size, hsize) := calcPktSize h in
  buf ← writeHeader h hsize (make_bytes size);
  copy_at buf hsize pl.

Definition isValidCloseCode (code : Z) : bool :=
  if (3000 <=? code) && (code <=? 4999) then true
  else if (1000 <=? code) && (code <=? 1014) && negb (code =? 1004) && negb (code =? 1005) && negb (code =? 1006)
  then true else false.

Definition control_header (op : Z) (pl : list Z) : Header := mkHeader true 0 op false [0; 0; 0; 0] (len pl).

(** [buildClose] and [buildCloseWithCode] call each other; the second call of
    [buildClose] is with the valid code 1002, so one level of nesting is all. *)
Definition close_echo (payload : list Z) : option (option (list Z)) :=
  buildFrame (control_header 8 payload) payload.

Definition buildCloseWithCode (code : Z) : option (option (list Z)) :=
  close_echo [wrapU 8 (Z.shiftr code 8); wrapU 8 code].

Definition buildClose (payload : list Z) : option (option (list Z)) :=
  if 0 <? len payload then
    if len payload <? 2 then buildCloseWithCode 1002
    else
      c0 ← index payload 0;
      c1 ← index payload 1;
      let code := Z.lor (Z.shiftl c0 8) c1 in
      if negb (isValidCloseCode code) then buildCloseWithCode 1002
      else if (2 <? len payload) && negb (Valid (drop 2 payload)) then close_echo []
      else close_echo payload
  else close_echo payload.

Definition buildPong (pl : list Z) : option (option (list Z)) :=
  buildFrame (control_header 10 pl) pl.

(** ** Text validation *)

(** The buffer with its new [checkOffset], and the verdict. *)
Definition validateBufferedText (b : clientBuf) (final : bool) : option (clientBuf * bool) :=
  if cb_writeOffset b =? 0 then Some (b, true)
  else
    segment ← slice (cb_buf b) (cb_checkOffset b) (cb_writeOffset b);
    let '(checked, complete, ok) := scanUTF8Prefix segment in
    let b := mkClientBuf (cb_buf b) (cb_writeOffset b) (cb_checkOffset b + checked) in
    if negb ok then Some (b, false) else Some (b, complete || negb final).

(** ** Processing *)

Section Process.
Context {P F UD U : Type} `{!Allocator P, !Flate F}.

Variable ws : WSKnobs.
Variable big : bool.                                  (* byte order of the machine *)
Variable fuel : nat.                                  (* for the decompressor *)
Variable OnUserData : U → Z → list Z → U * option (list Z).   (* the application *)
Implicit Types (cli : WsClient F UD).

(** State threaded through a frame: allocator, application, client. *)
Definition wst : Type := P * U * WsClient F UD.

(** What [processFrame] returns: the bytes to send ([None] is [nil]) and [close]. *)
Definition wout : Type := option (list Z) * bool.

(** [return buildCloseWithCode(code), true] *)
Definition fail_with (s : wst) (code : Z) : option (wst * wout) :=
  f ← buildCloseWithCode code; Some (s, (f, true)).

(** [cli.resetMessageState(); return buildCloseWithCode(code), true] *)
Definition reset_fail (s : wst) (code : Z) : option (wst * wout) :=
  let '(pool, u, cli) := s in
  let '(pool, cli) := WsClient_resetMessageState pool cli in
  fail_with (pool, u, cli) code.

Definition processUserdata (u : U) (id : Z) (data : list Z) (opCode : Z) : option (U * option (list Z)) :=
  let '(u, out) := OnUserData u id data in
  match out with
  | None => Some (u, None)
  | Some out =>
      if negb (opCode =? MessageText) && negb (opCode =? MessageBinary) then Some (u, None)
      else f ← buildFrame (mkHeader true 0 opCode false [0; 0; 0; 0] (len out)) out; Some (u, f)
  end.

(** The part of [processFrame] behind reassembly: decompression, the size limit,
    UTF-8, and the call of the application. *)
Definition deliver (s : wst) (payload : list Z) (opCode : Z) (compressed fragmentedText : bool) :
    option (wst * wout) :=
  let '(pool, u, cli) := s in
  '(cli, r) ← (if compressed then
      '(inf, r) ← pmdInflater_inflate fuel (ws_inflater cli) payload (WSMaxMessageBytes ws);
      Some (ws_set_msg cli (ws_firstop cli) (ws_fragmentCompressed cli) (ws_buf cli) inf, r)
    else Some (cli, inl payload));
  match r with
  | inr errPMDMessageTooLarge => reset_fail (pool, u, cli) 1009
  | inr errPMDCorrupt => reset_fail (pool, u, cli) 1002
  | inl payload =>
      if (0 <? WSMaxMessageBytes ws) && (WSMaxMessageBytes ws <? len payload)
      then reset_fail (pool, u, cli) 1009
      else if (opCode =? MessageText) && negb fragmentedText && negb (Valid payload)
      then reset_fail (pool, u, cli) 1007
      else
        '(u, out) ← processUserdata u (ws_Cid cli) payload opCode;
        let '(pool, cli) := WsClient_resetBuf pool cli in
        Some ((pool, u, cli), (out, false))
  end.

(** The part for a data frame of a fragmented message ([cli.firstop != 0]): the
    payload is collected; the last fragment delivers the message. *)
Definition reassemble (s : wst) (payload : list Z) (fin fragmentedText : bool) : option (wst * wout) :=
  let '(pool, u, cli) := s in
  let buf := default clientBuf_new (ws_buf cli) in
  let cli := ws_set_msg cli (ws_firstop cli) (ws_fragmentCompressed cli) (Some buf) (ws_inflater cli) in
  if (0 <? WSMaxMessageBytes ws) && (WSMaxMessageBytes ws <? clientBuf_size buf + len payload)
  then reset_fail (pool, u, cli) 1009
  else
    '(pool, buf, ok) ← clientBuf_write pool buf payload;
    let cli := ws_set_msg cli (ws_firstop cli) (ws_fragmentCompressed cli) (Some buf) (ws_inflater cli) in
    if negb ok then reset_fail (pool, u, cli) 1009
    else
      '(buf, valid) ← (if (ws_firstop cli =? MessageText) && negb (ws_fragmentCompressed cli)
                       then validateBufferedText buf fin else Some (buf, true));
      let cli := ws_set_msg cli (ws_firstop cli) (ws_fragmentCompressed cli) (Some buf) (ws_inflater cli) in
      if negb valid then reset_fail (pool, u, cli) 1007
      else if negb fin then Some ((pool, u, cli), (None, false))
      else
        payload ← clientBuf_bytes buf;
        let opCode := ws_firstop cli in
        let compressed := ws_fragmentCompressed cli in
        let cli := ws_set_msg cli 0 false (Some buf) (ws_inflater cli) in
        deliver (pool, u, cli) payload opCode compressed fragmentedText.

(** A control frame; [None] for the opcodes below 8, which fall in the reserved case too. *)
Definition control (s : wst) (fin rsv1 : bool) (opCode : Z) (payload : list Z) : option (wst * wout) :=
  if rsv1 then fail_with s 1002
  else if (125 <? len payload) || negb fin then fail_with s 1002
  else if opCode =? 8 then f ← buildClose payload; Some (s, (f, true))
  else if opCode =? 9 then f ← buildPong payload; Some (s, (f, false))
  else if opCode =? 10 then Some (s, (None, false))
  else fail_with s 1002.

(** A data frame: opcode 0, 1 or 2. *)
Definition data_frame (s : wst) (fin rsv1 : bool) (opCode : Z) (payload : list Z) (fragmentedText : bool) :
    option (wst * wout) :=
  let '(pool, u, cli) := s in
  if (opCode =? 0) && rsv1 then fail_with s 1002
  else if negb (opCode =? 0) && rsv1
          && (negb (ws_perMessageDeflate cli)
              || (negb (opCode =? MessageText) && negb (opCode =? MessageBinary)))
  then fail_with s 1002
  else
    let compressed := if opCode =? 0 then ws_fragmentCompressed cli else rsv1 in
    let pass := ((ws_firstop cli =? 0) && negb (opCode =? 0)) || (negb (ws_firstop cli =? 0) && (opCode =? 0)) in
    if negb pass then fail_with s 1002
    else
      let cli := if negb (opCode =? 0) && negb fin
                 then ws_set_msg cli opCode compressed (ws_buf cli) (ws_inflater cli) else cli in
      if negb (ws_firstop cli =? 0) then reassemble (pool, u, cli) payload fin fragmentedText
      else
        let cli := if negb (opCode =? 0) && fin
                   then ws_set_msg cli (ws_firstop cli) false (ws_buf cli) (ws_inflater cli) else cli in
        deliver (pool, u, cli) payload opCode compressed fragmentedText.

(** The whole handler; [inp] is one frame as delimited by [parseFrame]. *)
Definition processFrame (s : wst) (inp : list Z) : option (wst * wout) :=
  let '(pool, u, cli) := s in
  b1 ← index inp 1;
  let headerSize := calcHeaderSize b1 in
  payload ← slice inp headerSize (len inp);
  let fragmentedText := (ws_firstop cli =? MessageText) && negb (ws_fragmentCompressed cli) in
  let masked := negb (Z.land b1 0x80 =? 0) in
  if WSRequireClientMask ws && negb masked then fail_with s 1002
  else
    payload ← (if masked && (0 <? len payload) then
                 mask ← slice inp (headerSize - 4) headerSize;
                 cipher big payload mask 0
               else Some payload);
    b0 ← index inp 0;
    let fin := negb (Z.land b0 0x80 =? 0) in
    let rsv1 := negb (Z.land b0 0x40 =? 0) in
    let rsv23 := Z.land b0 0x30 in
    let opCode := Z.land b0 0x0f in
    if negb (rsv23 =? 0) then fail_with s 1002
    else if 3 <=? opCode then control s fin rsv1 opCode payload
    else data_frame s fin rsv1 opCode payload fragmentedText.

End Process.

(** ** The bytes of a frame *)

(** Length field of the second byte, and the extended length. *)
Definition len_field (n : Z) : Z * list Z :=
  if n <=? 125 then (n, []) else if n <=? 65535 then (126, be_bytes 2 n) else (127, be_bytes 8 n).

Definition first_byte (h : Header) : Z :=
  Z.lor (if Fin h then Z.lor (Z.land (OpCode h) 0x0f) 0x80 else Z.land (OpCode h) 0x0f)
        (wrapU 8 (Z.shiftl (Z.land (Rsv h) 0x7) 4)).

Definition second_byte (h : Header) : Z :=
  if Masked h then Z.lor (fst (len_field (Length h))) 0x80 else fst (len_field (Length h)).

Definition header_bytes (h : Header) : list Z :=
  first_byte h :: second_byte h :: snd (len_field (Length h)) ++ (if Masked h then Mask h else []).

Definition header_wf (h : Header) : Prop :=
  0 ≤ OpCode h < 16 ∧ 0 ≤ Rsv h < 8 ∧ 0 ≤ Length h < 2 ^ 62 ∧ length (Mask h) = 4%nat ∧ bytes_wf (Mask h).

Lemma length_header_bytes h : header_wf h →
  len (header_bytes h) = snd (calcPktSize h) ∧ 2 ≤ snd (calcPktSize h) ≤ 14.
Proof.
  intros (_ & _ & Hl & Hm & _). unfold header_bytes, calcPktSize, len_field.
  destruct (Z.leb_spec (Length h) 125), (Z.leb_spec (Length h) 65535), (Masked h); try lia; simpl;
    rewrite ?length_app, ?length_be_bytes, ?Hm; zb; simpl; lia.
Qed.

Lemma be_bytes_2 n : be_bytes 2 n = [n / 256 mod 256; n mod 256].
Proof. done. Qed.

(** A store into a list with a known beginning. *)
Lemma store_at {A} (pre post : list A) x y i : i = len pre →
  store (pre ++ x :: post) i y = Some (pre ++ y :: post).
Proof.
  intros ->. rewrite store_lt by (rewrite length_app; simpl; lia).
  by rewrite Nat2Z.id, insert_app_r_alt, Nat.sub_diag by lia.
Qed.

Lemma store_0 {A} (l : list A) x y : store (x :: l) 0 y = Some (y :: l).
Proof. by apply (store_at []). Qed.

Lemma store_1 {A} (l : list A) a x y : store (a :: x :: l) 1 y = Some (a :: y :: l).
Proof. by apply (store_at [a]). Qed.

(** The mask stored at the end of the header. *)
Lemma store_mask (pre rest m : list Z) x0 x1 x2 x3 hsize : length m = 4%nat → hsize = len pre + 4 →
  (m0 ← index m 0; buf ← store (pre ++ x0 :: x1 :: x2 :: x3 :: rest) (hsize - 4) m0;
   m1 ← index m 1; buf ← store buf (hsize - 3) m1;
   m2 ← index m 2; buf ← store buf (hsize - 2) m2;
   m3 ← index m 3; store buf (hsize - 1) m3) = Some (pre ++ m ++ rest).
Proof.
  intros Hm ->. destruct m as [|m0 [|m1 [|m2 [|m3 [|]]]]]; try done.
  change (index [m0; m1; m2; m3] 0) with (Some m0). change (index [m0; m1; m2; m3] 1) with (Some m1).
  change (index [m0; m1; m2; m3] 2) with (Some m2). change (index [m0; m1; m2; m3] 3) with (Some m3).
  cbn [mbind option_bind].
  rewrite store_at by lia. cbn [mbind option_bind].
  rewrite (cons_middle m0 pre), app_assoc, store_at by (rewrite length_app; simpl; lia). cbn [mbind option_bind].
  rewrite (cons_middle m1 (pre ++ [m0])), app_assoc, store_at by (rewrite !length_app; simpl; lia). cbn [mbind option_bind].
  rewrite (cons_middle m2 ((pre ++ [m0]) ++ [m1])), app_assoc, store_at by (rewrite !length_app; simpl; lia).
  by rewrite <-!app_assoc.
Qed.

(** The first two bytes and the extended length. *)
Lemma writeHeader_len h (rest : list Z) k : header_wf h → k = length (snd (len_field (Length h))) →
  (buf ← store (0 :: 0 :: replicate k 0 ++ rest) 0 (first_byte h);
   (if Length h <=? 125 then store buf 1 (wrapU 8 (Length h))
    else if Length h <=? 65535 then
      buf ← store buf 1 126;
      _ ← slice buf 2 4; copy_at buf 2 (be_bytes 2 (wrapU 16 (Length h)))
    else
      buf ← store buf 1 127;
      _ ← slice buf 2 10; copy_at buf 2 (be_bytes 8 (wrapU 64 (Length h)))))
  = Some (first_byte h :: fst (len_field (Length h)) :: snd (len_field (Length h)) ++ rest).
Proof.
  intros (_ & _ & Hl & _ & _) ->. rewrite store_0. cbn [mbind option_bind app].
  set (b0 := first_byte h). unfold len_field. repeat gcase; cbn [fst snd].
  - simpl replicate. rewrite store_1. by rewrite wrapU_small by lia.
  - rewrite length_be_bytes, store_1. cbn [mbind option_bind app].
    rewrite slice_Some by (simpl; lia). cbn [mbind option_bind].
    rewrite copy_at_Some by (simpl; lia). rewrite wrapU_small by lia.
    change (b0 :: 126 :: replicate 2 0 ++ rest) with ([b0; 126] ++ (replicate 2 0 ++ rest)).
    change 2 with (len [b0; 126]) at 1. by rewrite blit_app by (rewrite length_app, length_be_bytes; simpl; lia).
  - rewrite length_be_bytes, store_1. cbn [mbind option_bind app].
    rewrite slice_Some by (simpl; lia). cbn [mbind option_bind].
    rewrite copy_at_Some by (simpl; lia). rewrite wrapU_small by lia.
    change (b0 :: 127 :: replicate 8 0 ++ rest) with ([b0; 127] ++ (replicate 8 0 ++ rest)).
    change 2 with (len [b0; 127]) at 1. by rewrite blit_app by (rewrite length_app, length_be_bytes; simpl; lia).
Qed.

Lemma calcPktSize_len h : header_wf h →
  snd (calcPktSize h) = 2 + len (snd (len_field (Length h))) + if Masked h then 4 else 0.
Proof.
  intros Hwf. destruct (length_header_bytes h Hwf) as [<- _]. destruct Hwf as (_ & _ & _ & Hm & _).
  unfold header_bytes. cbn [length]. rewrite length_app. destruct (Masked h); simpl; lia.
Qed.

Lemma writeHeader_spec h : header_wf h →
  writeHeader h (snd (calcPktSize h)) (make_bytes (snd (calcPktSize h) + Length h))
  = Some (header_bytes h ++ make_bytes (Length h)).
Proof.
  intros Hwf. pose proof (calcPktSize_len h Hwf) as Hs. pose proof Hwf as (_ & _ & Hl & Hm & _).
  set (k := length (snd (len_field (Length h)))) in *.
  set (mk := if Masked h then 4%nat else 0%nat).
  assert (make_bytes (snd (calcPktSize h) + Length h)
          = 0 :: 0 :: replicate k 0 ++ (replicate mk 0 ++ make_bytes (Length h))) as ->.
  { replace (snd (calcPktSize h) + Length h) with (Z.of_nat (2 + k + mk) + Length h)
      by (unfold mk; destruct (Masked h); lia).
    rewrite make_bytes_split by lia. rewrite !replicate_add. by rewrite <-!app_assoc. }
  pose proof (writeHeader_len h (replicate mk 0 ++ make_bytes (Length h)) k Hwf eq_refl) as Hw.
  unfold writeHeader. fold (first_byte h).
  destruct (store (0 :: 0 :: _) 0 (first_byte h)) as [buf0|]; [|done]. cbn [mbind option_bind] in Hw |- *.
  rewrite Hw. cbn [mbind option_bind]. unfold header_bytes, second_byte, mk.
  destruct (Masked h); [|simpl; by rewrite app_nil_r].
  set (b0 := first_byte h). set (lf := fst (len_field (Length h))). set (ext := snd (len_field (Length h))) in *.
  change (index (b0 :: lf :: ext ++ replicate 4 0 ++ make_bytes (Length h)) 1) with (Some lf).
  cbn [mbind option_bind]. rewrite store_1. cbn [mbind option_bind].
  pose proof (store_mask (b0 :: Z.lor lf 128 :: ext) (make_bytes (Length h)) (Mask h) 0 0 0 0 (snd (calcPktSize h)) Hm) as Hmask.
  cbn [app] in Hmask |- *. simpl replicate. cbn [app]. rewrite Hmask by (simpl length; lia).
  by rewrite <-app_assoc.
Qed.

(** [buildFrame] writes the header and the payload. *)
Lemma buildFrame_spec h pl : header_wf h → Length h = len pl →
  buildFrame h pl = Some (Some (header_bytes h ++ pl)).
Proof.
  intros Hwf Hl. destruct (length_header_bytes h Hwf) as [Hh Hb]. pose proof Hwf as (_ & _ & Hlen & _ & _).
  unfold buildFrame. pose proof (writeHeader_spec h Hwf) as Hw.
  assert (fst (calcPktSize h) = snd (calcPktSize h) + Length h) as Hsz.
  { unfold calcPktSize in *. cbn [fst snd] in *. apply wrapS_small; [lia|]. lia. }
  destruct (calcPktSize h) as [size hsize]. cbn [fst snd] in *. subst size. zb.
  rewrite Hw. cbn [mbind option_bind]. rewrite copy_at_Some by (rewrite length_app; lia).
  cbn [mbind option_bind]. do 2 f_equal. rewrite <-Hh.
  pose proof (length_make_bytes (Length h) ltac:(lia)).
  rewrite blit_app by lia. by rewrite (drop_ge (make_bytes _)), app_nil_r by lia.
Qed.

(** ** Parsing what was built *)

Definition second_ok (lf : Z) : bool :=
  (Z.land lf 0x7f =? lf) && (Z.land lf 0x80 =? 0) &&
  (Z.land (Z.lor lf 0x80) 0x7f =? lf) && negb (Z.land (Z.lor lf 0x80) 0x80 =? 0).

Lemma len_field_bound n : 0 ≤ n → 0 ≤ fst (len_field n) < 128.
Proof. intros. unfold len_field. repeat gcase; simpl; lia. Qed.

(** The bits of the second byte. *)
Lemma second_byte_bits h : header_wf h →
  Z.land (second_byte h) 0x7f = fst (len_field (Length h)) ∧
  negb (Z.land (second_byte h) 0x80 =? 0) = Masked h.
Proof.
  intros (_ & _ & Hl & _ & _). pose proof (len_field_bound (Length h) ltac:(lia)) as Hb.
  assert (second_ok (fst (len_field (Length h))) = true) as H.
  { apply (check_below second_ok 128); [vm_compute; reflexivity|done]. }
  unfold second_ok in H. rewrite !andb_true_iff, !Z.eqb_eq in H. destruct H as [[[H1 H2] H3] H4].
  unfold second_byte. destruct (Masked h); [done|]. by rewrite H1, H2.
Qed.

Lemma calcHeaderSize_spec h : header_wf h → calcHeaderSize (second_byte h) = snd (calcPktSize h).
Proof.
  intros Hwf. destruct (second_byte_bits h Hwf) as [H1 H2]. rewrite calcPktSize_len by done.
  unfold calcHeaderSize. rewrite H1, H2. destruct Hwf as (_ & _ & Hl & _ & _).
  unfold len_field. destruct (Z.leb_spec (Length h) 125), (Z.leb_spec (Length h) 65535), (Masked h);
    cbn [fst snd]; rewrite ?length_be_bytes; zb; simpl; lia.
Qed.

(** The length field, read back. *)
Lemma parse_length h rest : header_wf h →
  let b1 := second_byte h in
  (if Z.land b1 0x7f =? 126 then s ← slice (header_bytes h ++ rest) 2 4; Some (be_uint s)
   else if Z.land b1 0x7f =? 127 then s ← slice (header_bytes h ++ rest) 2 10; Some (wrapS 64 (be_uint s))
   else Some (Z.land b1 0x7f)) = Some (Length h).
Proof.
  intros Hwf b1. destruct (second_byte_bits h Hwf) as [H1 _]. unfold b1. rewrite H1.
  destruct Hwf as (_ & _ & Hl & _ & _).
  assert (∀ (x y : Z) (ext more : list Z), sub (x :: y :: ext ++ more) 2 (2 + len ext) = ext) as Hsub.
  { intros x y ext more. unfold sub. replace (Z.to_nat (2 + len ext - 2)) with (length ext) by lia.
    change (Z.to_nat 2) with 2%nat. cbn [drop]. by apply take_app_length. }
  unfold header_bytes. cbn [app]. rewrite <-app_assoc. unfold len_field.
  destruct (Z.leb_spec (Length h) 125); [cbn [fst snd]; by zb|].
  destruct (Z.leb_spec (Length h) 65535); cbn [fst snd].
  - simpl Z.eqb. cbn iota. rewrite slice_Some by (simpl; lia). cbn [mbind option_bind]. f_equal.
    pose proof (Hsub (first_byte h) (second_byte h) (be_bytes 2 (Length h))) as Hs.
    rewrite length_be_bytes in Hs. change (2 + Z.of_nat 2) with 4 in Hs. rewrite Hs.
    apply be_word_bytes. lia.
  - simpl Z.eqb. cbn iota. rewrite slice_Some by (simpl; lia). cbn [mbind option_bind]. f_equal.
    pose proof (Hsub (first_byte h) (second_byte h) (be_bytes 8 (Length h))) as Hs.
    rewrite length_be_bytes in Hs. change (2 + Z.of_nat 8) with 10 in Hs. rewrite Hs.
    unfold be_uint. rewrite be_word_bytes by lia. apply wrapS_small; lia.
Qed.

(** The limit on one frame. *)
Definition frame_allowed (ws : WSKnobs) (n : Z) : Prop :=
  0 < WSMaxFramePayloadBytes ws → n ≤ WSMaxFramePayloadBytes ws.

Lemma parseFrame_header ws h rest : header_wf h → frame_allowed ws (Length h) →
  let hs := snd (calcPktSize h) in
  parseFrame ws (header_bytes h ++ rest) =
  Some (if len rest <? Length h then 0 else hs + Length h, hs + Length h).
Proof.
  intros Hwf Hmax hs. destruct (length_header_bytes h Hwf) as [Hh Hb]. fold hs in Hh, Hb.
  pose proof Hwf as (_ & _ & Hl & _ & _).
  unfold parseFrame. rewrite length_app. unfold WSHeaderMinSize. zb.
  change (index (header_bytes h ++ rest) 1) with (Some (second_byte h)). cbn [mbind option_bind].
  rewrite calcHeaderSize_spec by done. fold hs. zb.
  rewrite parse_length by done. cbn [mbind option_bind].
  replace (Length h <? 0) with false by lia. rewrite andb_false_r.
  replace ((0 <? WSMaxFramePayloadBytes ws) && _) with false
    by (unfold frame_allowed in Hmax; symmetry; apply andb_false_iff; rewrite !Z.ltb_ge; lia).
  rewrite wrapS_small by lia. rewrite (Z.add_comm (Length h)).
  destruct (Z.ltb_spec (len rest) (Length h)); zb; done.
Qed.

(** Too few bytes for the header: it waits for at most the size of the header. *)
Lemma parseFrame_short ws h n : header_wf h → 0 ≤ n < snd (calcPktSize h) →
  ∃ e, parseFrame ws (take (Z.to_nat n) (header_bytes h)) = Some (0, e) ∧ n < e ≤ snd (calcPktSize h).
Proof.
  intros Hwf Hn. destruct (length_header_bytes h Hwf) as [Hh Hb].
  assert (len (take (Z.to_nat n) (header_bytes h)) = n) as Hlt by (rewrite length_take; lia).
  unfold parseFrame. rewrite Hlt. unfold WSHeaderMinSize.
  destruct (Z.ltb_spec n 2); [exists 2; split; [done|lia]|].
  assert (index (take (Z.to_nat n) (header_bytes h)) 1 = Some (second_byte h)) as ->.
  { unfold index. simpl Z.leb. cbn iota. rewrite lookup_take, decide_True by lia. done. }
  cbn [mbind option_bind]. rewrite calcHeaderSize_spec by done. zb.
  eexists. split; [done|]. lia.
Qed.

(** C13: framing round trip.  For every header with a payload of the announced
    length, [parseFrame] recognises what [buildFrame] wrote, whatever bytes follow
    it, with exactly its length; and on every proper prefix it reports a partial
    frame with a size hint that is more than is there and never more than the
    frame. *)
Theorem frame_build_parse_roundtrip (ws : WSKnobs) (h : Header) (pl : list Z) :
  header_wf h → Length h = len pl → frame_allowed ws (len pl) →
  ∃ frame, buildFrame h pl = Some (Some frame) ∧
    (∀ rest, parseFrame ws (frame ++ rest) = Some (len frame, len frame)) ∧
    (∀ n, 0 ≤ n < len frame → ∃ e,
       parseFrame ws (take (Z.to_nat n) frame) = Some (0, e) ∧ n < e ≤ len frame).
Proof.
  intros Hwf Hl Hmax. exists (header_bytes h ++ pl).
  destruct (length_header_bytes h Hwf) as [Hh Hb].
  split; [by apply buildFrame_spec|]. rewrite <-Hl in Hmax. split.
  - intros rest. rewrite <-app_assoc, parseFrame_header by done. rewrite !length_app.
    replace (_ <? _) with false by blia. do 2 f_equal; lia.
  - intros n Hn. rewrite length_app in *. destruct (Z.lt_ge_cases n (len (header_bytes h))).
    + rewrite take_app_le by lia. destruct (parseFrame_short ws h n Hwf) as (e & -> & He); [lia|].
      exists e. split; [done|]. lia.
    + rewrite take_app_ge, parseFrame_header by (done || lia).
      rewrite length_take. replace (_ <? _) with true by blia. eexists. split; [done|]. lia.
Qed.

Lemma frame_build_parse_roundtrip_witness :
  let h := mkHeader true 0 2 true [1; 2; 3; 4] 300 in
  let pl := make_bytes 300 in
  ∃ frame, buildFrame h pl = Some (Some frame) ∧
    (∀ rest, parseFrame default_ws (frame ++ rest) = Some (len frame, len frame)) ∧
    (∀ n, 0 ≤ n < len frame → ∃ e,
       parseFrame default_ws (take (Z.to_nat n) frame) = Some (0, e) ∧ n < e ≤ len frame).
Proof.
  apply frame_build_parse_roundtrip.
  - split_and!; try (vm_compute; done). apply bytes_wfb. reflexivity.
  - reflexivity.
  - intros _. vm_compute. discriminate.
Defined.
