(* ===== verification/Message.v ===== *)
(** * websocket/{frame,wsHandler}.go: a conversation of frames

    What the frames of one client do to the application: fragments are
    reassembled, control frames may be interleaved, text is validated
    incrementally.  [WsHandler] dispatches between handshake and frames. *)

From S2P Require Import Prelude Pool Tuning Utf8 Cipher Sha1 Pmd WsClient Handshake Frame.

(** ** A masked frame of a client *)

Definition client_header (fin : bool) (op : Z) (mask : list Z) (n : Z) : Header := mkHeader fin 0 op true mask n.

Definition client_frame (fin : bool) (op : Z) (mask pl : list Z) : list Z :=
  header_bytes (client_header fin op mask (len pl)) ++ mask_spec pl mask 0.

Definition mask_wf (mask : list Z) : Prop := length mask = 4%nat ∧ bytes_wf mask.

Definition first_ok (fin : bool) (op : Z) : bool :=
  let b0 := first_byte (client_header fin op [] 0) in
  Bool.eqb (negb (Z.land b0 0x80 =? 0)) fin && (Z.land b0 0x40 =? 0) && (Z.land b0 0x30 =? 0) && (Z.land b0 0x0f =? op).

Lemma first_byte_bits fin op mask n : 0 ≤ op < 16 →
  let b0 := first_byte (client_header fin op mask n) in
  negb (Z.land b0 0x80 =? 0) = fin ∧ Z.land b0 0x40 = 0 ∧ Z.land b0 0x30 = 0 ∧ Z.land b0 0x0f = op.
Proof.
  intros Hop b0. assert (first_ok fin op = true) as H.
  { destruct fin; apply (check_below (first_ok _) 16); try done; vm_compute; reflexivity. }
  unfold first_ok in H. change (first_byte (client_header fin op [] 0)) with b0 in H.
  rewrite !andb_true_iff, !Z.eqb_eq in H. destruct H as [[[H1 H2] H3] H4].
  apply Bool.eqb_prop in H1. done.
Qed.

Lemma client_header_wf fin op mask (pl : list Z) : 0 ≤ op < 16 → mask_wf mask → len pl < 2 ^ 62 →
  header_wf (client_header fin op mask (len pl)).
Proof. intros ? [? ?] ?. split_and!; simpl; try lia; done. Qed.

Section Conversation.
Context {P F UD U : Type} `{!Allocator P, !AllocatorLaws P, !Flate F}.
Variable ws : WSKnobs.
Variable big : bool.
Variable fuel : nat.
Variable OnUserData : U → Z → list Z → U * option (list Z).
Implicit Types (cli : WsClient F UD) (pool : P) (u : U).

Local Abbreviation processFrame := (processFrame ws big fuel OnUserData).
Local Abbreviation data_frame := (data_frame ws fuel OnUserData).
Local Abbreviation reassemble := (reassemble ws fuel OnUserData).
Local Abbreviation deliver := (deliver ws fuel OnUserData).

(** A masked frame is dispatched with its payload unmasked. *)
Lemma processFrame_client (pool : P) u cli fin op mask (pl : list Z) :
  0 ≤ op < 16 → mask_wf mask → len pl < 2 ^ 62 → bytes_wf pl →
  processFrame (pool, u, cli) (client_frame fin op mask pl) =
  if 3 <=? op then control (pool, u, cli) fin false op pl
  else data_frame (pool, u, cli) fin false op pl
         ((ws_firstop cli =? MessageText) && negb (ws_fragmentCompressed cli)).
Proof.
  intros Hop Hm Hl Hpl. set (h := client_header fin op mask (len pl)).
  assert (header_wf h) as Hwf by (by apply client_header_wf).
  destruct (length_header_bytes h Hwf) as [Hh Hb]. destruct (second_byte_bits h Hwf) as [_ Hmk].
  pose proof (calcPktSize_len h Hwf) as Hsz. change (Masked h) with true in Hsz. cbn iota in Hsz.
  destruct (first_byte_bits fin op mask (len pl) Hop) as (B1 & B2 & B3 & B4). fold h in B1, B2, B3, B4.
  destruct Hm as [Hm4 Hmw]. set (body := mask_spec pl mask 0).
  assert (length body = length pl) as Hbody by (unfold body, mask_spec; by rewrite length_imap).
  unfold Frame.processFrame, client_frame. fold h body.
  change (index (header_bytes h ++ body) 1) with (Some (second_byte h)).
  change (index (header_bytes h ++ body) 0) with (Some (first_byte h)). cbn [mbind option_bind].
  rewrite calcHeaderSize_spec by done. rewrite Hmk. rewrite <-Hh.
  rewrite (slice_Some _ (len (header_bytes h)) (len (header_bytes h ++ body))) by (rewrite ?length_app; lia).
  cbn [mbind option_bind]. rewrite sub_suffix, Nat2Z.id, drop_app_length by lia.
  change (Masked h) with true. cbn [negb andb]. rewrite andb_false_r.
  assert ((if 0 <? len body then
      mask0 ← slice (header_bytes h ++ body) (len (header_bytes h) - 4) (len (header_bytes h));
      cipher big body mask0 0 else Some body) = Some pl) as ->.
  { destruct (Z.ltb_spec 0 (len body)).
    2: { f_equal. destruct pl, body; simpl in *; (done || lia). }
    rewrite slice_Some by (rewrite ?length_app; lia). cbn [mbind option_bind].
    assert (sub (header_bytes h ++ body) (len (header_bytes h) - 4) (len (header_bytes h)) = mask) as ->.
    { set (hb := first_byte h :: second_byte h :: snd (len_field (Length h))).
      assert (header_bytes h = hb ++ mask) as E by done. rewrite E.
      rewrite !length_app. unfold sub. rewrite <-app_assoc.
      replace (Z.to_nat (Z.of_nat (length hb + length mask) - 4)) with (length hb) by lia.
      rewrite drop_app_length. replace (Z.to_nat _) with (length mask) by lia. by apply take_app_length. }
    rewrite cipher_spec; [|lia|done|by apply mask_spec_wf|done].
    unfold body. by rewrite mask_spec_involutive. }
  cbn [mbind option_bind]. rewrite B1, B2, B3, B4. done.
Qed.

(** ** Client states between frames *)

Definition empty_buf (b : option clientBuf) : Prop := match b with None => True | Some b => b = clientBuf_new end.

(** No message in progress. *)
Record idle cli : Prop := {
  id_op : ws_firstop cli = 0;
  id_comp : ws_fragmentCompressed cli = false;
  id_buf : empty_buf (ws_buf cli);
}.

(** The text checked so far does not influence what is still to check. *)
Definition text_ok (op : Z) (b : clientBuf) : Prop :=
  op = MessageText → ∀ r, Valid (cb_data b ++ r) = Valid (drop (Z.to_nat (cb_checkOffset b)) (cb_data b) ++ r).

(** An uncompressed message with first opcode [op] in progress, [D] received. *)
Definition in_message cli (op : Z) (D : list Z) : Prop :=
  ws_firstop cli = op ∧ op ≠ 0 ∧ ws_fragmentCompressed cli = false ∧
  ∃ b, (ws_buf cli = Some b ∨ (ws_buf cli = None ∧ b = clientBuf_new)) ∧ cb_wf b ∧ cb_data b = D ∧ text_ok op b.

(** The fields of the client that frames do not change. *)
Definition same_client cli cli' : Prop :=
  ws_Cid cli' = ws_Cid cli ∧ ws_perMessageDeflate cli' = ws_perMessageDeflate cli.

Lemma validate_spec b final op : cb_wf b → text_ok MessageText b → op = MessageText →
  ∃ b' ok, validateBufferedText b final = Some (b', ok) ∧ cb_wf b' ∧ cb_data b' = cb_data b ∧
    (ok = true → text_ok op b' ∧ (final = true → Valid (cb_data b) = true)) ∧
    (ok = false → (final = true → Valid (cb_data b) = false) ∧ (final = false → ∀ r, Valid (cb_data b ++ r) = false)).
Proof.
  intros Hwf Ht ->. pose proof (length_cb_data b Hwf) as Hlen. pose proof Hwf as [Hc Hw].
  unfold validateBufferedText. destruct (Z.eqb_spec (cb_writeOffset b) 0) as [E|E].
  { exists b, true. assert (cb_data b = []) as Hnil by (apply length_zero_iff_nil; lia).
    split_and!; try done. intros _. split; [done|]. by rewrite Hnil. }
  rewrite slice_Some by lia. cbn [mbind option_bind].
  assert (sub (cb_buf b) (cb_checkOffset b) (cb_writeOffset b) = drop (Z.to_nat (cb_checkOffset b)) (cb_data b)) as ->.
  { unfold cb_data. rewrite <-sub_prefix, sub_drop by lia. done. }
  set (seg := drop _ (cb_data b)) in *.
  destruct (scan_spec seg) as (c & complete & ok & -> & [Sb Ss Sc Sbad Sp]).
  assert (len seg = cb_writeOffset b - cb_checkOffset b) as Hseg by (unfold seg; rewrite length_drop; lia).
  set (b1 := mkClientBuf _ _ _).
  assert (cb_wf b1 ∧ cb_data b1 = cb_data b) as [Hwf1 Hd1] by (split; [split; simpl; lia|done]).
  assert (text_ok MessageText b1) as Ht1.
  { intros _ r. rewrite Hd1. simpl. rewrite (Ht eq_refl). fold seg. rewrite Ss. unfold seg.
    rewrite drop_drop. do 3 f_equal. lia. }
  assert (∀ r, Valid (cb_data b ++ r) = Valid (drop (Z.to_nat c) seg ++ r)) as Hall.
  { intros r. rewrite (Ht eq_refl). by rewrite Ss. }
  pose proof (Hall []) as Hnow. rewrite !app_nil_r in Hnow.
  destruct ok; simpl negb; cbn iota.
  - exists b1, (complete || negb final). split_and!; try done.
    + intros Hok. split; [done|]. intros ->. simpl in Hok. rewrite orb_false_r in Hok.
      destruct (Sc Hok) as [_ ->]. rewrite Hnow, drop_ge by lia. done.
    + intros Hok. apply orb_false_iff in Hok as [Hok Hf]. split.
      * intros _. rewrite Hnow. by apply Sp.
      * intros ->. done.
  - exists b1, false. split_and!; try done. intros _. split.
    + intros _. rewrite Hnow. pose proof (Sbad eq_refl []) as Hb0. by rewrite app_nil_r in Hb0.
    + intros _ r. rewrite Hall. by apply Sbad.
Qed.

(** ** Frames the server sends *)

Definition close_frame (code : Z) : list Z :=
  let pl := [wrapU 8 (Z.shiftr code 8); wrapU 8 code] in header_bytes (control_header 8 pl) ++ pl.

Definition pong_frame (pl : list Z) : list Z := header_bytes (control_header 10 pl) ++ pl.

Definition user_frame (op : Z) (out : list Z) : list Z :=
  header_bytes (mkHeader true 0 op false [0; 0; 0; 0] (len out)) ++ out.

Lemma zero_mask_wf : length [0; 0; 0; 0] = 4%nat ∧ bytes_wf [0; 0; 0; 0].
Proof. split; [done|]. by apply bytes_wfb. Qed.

Lemma fail_with_spec (s : wst (P := P) (F := F) (UD := UD) (U := U)) code :
  fail_with s code = Some (s, (Some (close_frame code), true)).
Proof.
  unfold fail_with, buildCloseWithCode, close_echo. rewrite buildFrame_spec; [done| |done].
  destruct zero_mask_wf. split_and!; simpl; try lia; done.
Qed.

Lemma reset_client pool cli : al_inv pool →
  ∃ pool' cli', WsClient_resetMessageState pool cli = (pool', cli') ∧ al_inv pool' ∧
    al_max pool' = al_max pool ∧ idle cli' ∧ same_client cli cli'.
Proof.
  intros Hinv. unfold WsClient_resetMessageState, WsClient_resetBuf, clientBuf_reset. simpl.
  destruct (ws_buf cli) as [b|]; simpl.
  - destruct (al_put_inv pool (cb_buf b) Hinv). eexists _, _. split; [done|]. split_and!; try done.
  - eexists _, _. split; [done|]. split_and!; try done.
Qed.

Lemma reset_fail_spec pool u cli code : al_inv pool →
  ∃ pool' cli', reset_fail (pool, u, cli) code = Some ((pool', u, cli'), (Some (close_frame code), true)) ∧
    al_inv pool' ∧ al_max pool' = al_max pool ∧ idle cli' ∧ same_client cli cli'.
Proof.
  intros Hinv. unfold reset_fail. destruct (reset_client pool cli Hinv) as (pool' & cli' & -> & ?).
  rewrite fail_with_spec. eexists _, _. done.
Qed.

(** ** The application *)

Hypothesis user_fits : ∀ u id d u' o, OnUserData u id d = (u', Some o) → len o < 2 ^ 62.

Lemma processUserdata_spec u id d op : op = MessageText ∨ op = MessageBinary →
  processUserdata OnUserData u id d op =
  Some (fst (OnUserData u id d), user_frame op <$> snd (OnUserData u id d)).
Proof.
  intros Hop. unfold processUserdata. destruct (OnUserData u id d) as [u' [o|]] eqn:E; [|done].
  apply user_fits in E. replace (_ && _) with false by (destruct Hop as [->| ->]; done).
  rewrite buildFrame_spec; [done| |done]. destruct zero_mask_wf.
  destruct Hop as [->| ->]; split_and!; simpl; unfold MessageText, MessageBinary; try lia; done.
Qed.

(** The size of a message is within the limit and the allocator's classes. *)
Definition fits pool (n : Z) : Prop :=
  (0 < WSMaxMessageBytes ws → n ≤ WSMaxMessageBytes ws) ∧ n ≤ al_max pool.

Lemma resetBuf_idle pool cli : al_inv pool → ws_firstop cli = 0 → ws_fragmentCompressed cli = false →
  ∃ pool' cli', WsClient_resetBuf pool cli = (pool', cli') ∧ al_inv pool' ∧
    al_max pool' = al_max pool ∧ idle cli' ∧ same_client cli cli'.
Proof.
  intros Hinv H1 H2. unfold WsClient_resetBuf, clientBuf_reset. destruct (ws_buf cli) as [b|] eqn:E; simpl.
  - destruct (al_put_inv pool (cb_buf b) Hinv). eexists _, _. split; [done|]. split_and!; try done.
  - eexists _, _. split; [done|]. split_and!; try done. split; [done..|]. by rewrite E.
Qed.

(** An uncompressed message that reached [deliver]. *)
Lemma deliver_spec pool u cli D op ft : al_inv pool → op = MessageText ∨ op = MessageBinary →
  ws_firstop cli = 0 → ws_fragmentCompressed cli = false → fits pool (len D) →
  (ft = false → op = MessageText → Valid D = true) →
  ∃ pool' cli', deliver (pool, u, cli) D op false ft =
    Some ((pool', fst (OnUserData u (ws_Cid cli) D), cli'), (user_frame op <$> snd (OnUserData u (ws_Cid cli) D), false)) ∧
    al_inv pool' ∧ al_max pool' = al_max pool ∧ idle cli' ∧ same_client cli cli'.
Proof.
  intros Hinv Hop H1 H2 [Hmax _] Hv. unfold Frame.deliver. cbn [mbind option_bind].
  replace ((0 <? WSMaxMessageBytes ws) && _) with false
    by (symmetry; apply andb_false_iff; rewrite !Z.ltb_ge; lia).
  replace ((op =? MessageText) && negb ft && negb (Valid D)) with false.
  2: { symmetry. destruct (Z.eqb_spec op MessageText); [|done]. destruct ft; [done|].
       by rewrite (Hv eq_refl). }
  rewrite processUserdata_spec by done. cbn [mbind option_bind].
  destruct (resetBuf_idle pool cli Hinv H1 H2) as (pool' & cli' & -> & ?). by exists pool', cli'.
Qed.

(** One fragment of an uncompressed message. *)
Lemma reassemble_spec pool u cli op D p fin : al_inv pool → op = MessageText ∨ op = MessageBinary →
  in_message cli op D → fits pool (len (D ++ p)) →
  ∃ pool' cli', al_inv pool' ∧ al_max pool' = al_max pool ∧ same_client cli cli' ∧
    ((op = MessageText ∧ (if fin : bool then Valid (D ++ p) = false else ∀ r, Valid ((D ++ p) ++ r) = false) ∧
      idle cli' ∧
      reassemble (pool, u, cli) p fin (op =? MessageText) = Some ((pool', u, cli'), (Some (close_frame 1007), true)))
     ∨
     (fin = false ∧ in_message cli' op (D ++ p) ∧
      reassemble (pool, u, cli) p fin (op =? MessageText) = Some ((pool', u, cli'), (None, false)))
     ∨
     (fin = true ∧ (op = MessageText → Valid (D ++ p) = true) ∧ idle cli' ∧
      let r := OnUserData u (ws_Cid cli) (D ++ p) in
      reassemble (pool, u, cli) p fin (op =? MessageText)
      = Some ((pool', fst r, cli'), (user_frame op <$> snd r, false)))).
Proof.
  intros Hinv Hop (Hf & Hne & Hcmp & b & Hb & Hwf & Hd & Ht) Hfit. unfold Frame.reassemble.
  assert (default clientBuf_new (ws_buf cli) = b) as -> by (destruct Hb as [->|[-> ->]]; done).
  pose proof (length_cb_data b Hwf) as Hlb. rewrite Hd in Hlb. pose proof Hfit as [Hf1 Hf2]. rewrite length_app in Hf1, Hf2.
  replace ((0 <? WSMaxMessageBytes ws) && _) with false
    by (symmetry; apply andb_false_iff; rewrite !Z.ltb_ge; unfold clientBuf_size; lia).
  destruct (clientBuf_write_spec pool b p Hinv Hwf) as (pool1 & b1 & ok & -> & Hinv1 & Hm1 & Hwf1 & Hc1 & Hd1 & Hok).
  rewrite Hd in Hok, Hd1. rewrite Hok in * by lia. cbn [mbind option_bind negb].
  cbn [ws_firstop ws_fragmentCompressed ws_set_msg ws_inflater ws_buf]. rewrite Hf, Hcmp. cbn [negb]. rewrite andb_true_r.
  assert (text_ok op b1) as Ht1.
  { intros E r. rewrite Hd1, <-app_assoc, <-Hd, (Ht E), Hc1, app_assoc. do 2 f_equal.
    rewrite Hd. rewrite drop_app_le; [done|]. destruct Hwf. lia. }
  assert (∃ b2 valid, (if op =? MessageText then validateBufferedText b1 fin else Some (b1, true)) = Some (b2, valid) ∧
    cb_wf b2 ∧ cb_data b2 = D ++ p ∧
    (valid = true → text_ok op b2 ∧ (fin = true → op = MessageText → Valid (D ++ p) = true)) ∧
    (valid = false → op = MessageText ∧ (fin = true → Valid (D ++ p) = false) ∧
                     (fin = false → ∀ r, Valid ((D ++ p) ++ r) = false)))
    as (b2 & valid & -> & Hwf2 & Hd2 & Hv & Hnv).
  { destruct (Z.eqb_spec op MessageText) as [E|E].
    - destruct (validate_spec b1 fin op Hwf1) as (b2 & valid & -> & ? & ? & Hv & Hnv); [by rewrite E in Ht1|done|].
      rewrite Hd1 in *. exists b2, valid. split_and!; try done; tauto.
    - exists b1, true. split_and!; try done. }
  cbn [mbind option_bind]. destruct valid; cbn [negb]; cbn iota.
  2: { destruct (Hnv eq_refl) as (E & Hn1 & Hn2).
       match goal with |- context [reset_fail (pool1, u, ?c)] =>
         destruct (reset_fail_spec pool1 u c 1007 Hinv1) as (pool' & cli' & -> & Hi' & Hm' & Hid & Hs') end.
       exists pool', cli'. split_and!; try done; [congruence|]. left. split_and!; try done.
       destruct fin; [by apply Hn1|by apply Hn2]. }
  destruct (Hv eq_refl) as [Ht2 Hvf]. destruct fin; cbn [negb]; cbn iota.
  - rewrite clientBuf_bytes_spec, Hd2 by done. cbn [mbind option_bind].
    match goal with |- context [deliver (pool1, u, ?c) _ _ _ ?ft] =>
      destruct (deliver_spec pool1 u c (D ++ p) op ft Hinv1 Hop) as (pool' & cli' & -> & Hi' & Hm' & Hid & Hs') end.
    + done.
    + done.
    + unfold fits. by rewrite Hm1, length_app.
    + intros _ E. by apply Hvf.
    + exists pool', cli'. split_and!; try done; [congruence|]. right. right. split_and!; try done. by apply Hvf.
  - match goal with |- context [Some ((pool1, u, ?c), (None, false))] => exists pool1, c end.
    split; [done|]. split; [done|]. split; [done|]. right. left. split; [done|]. split; [|done].
    split_and!; try done. exists b2. split_and!; try done. by left.
Qed.

(** ** Conversations *)

(** Processing frames in order until one closes; the frames to send, and whether
    the connection closes. *)
Fixpoint run_frames (s : wst (P := P) (F := F) (UD := UD) (U := U)) (frames : list (list Z)) :
    option (wst (P := P) (F := F) (UD := UD) (U := U) * list (list Z) * bool) :=
  match frames with
  | [] => Some (s, [], false)
  | f :: frames =>
      '(s, (out, close)) ← processFrame s f;
      let outs := match out with None => [] | Some o => [o] end in
      if close : bool then Some (s, outs, true)
      else '(s, outs', c) ← run_frames s frames; Some (s, outs ++ outs', c)
  end.

(** What may come between the first and the last fragment of a message. *)
Inductive item : Type :=
| IFrag (mask pl : list Z)
| IPing (mask pl : list Z)
| IPong (mask pl : list Z).

Definition item_frame (i : item) : list Z :=
  match i with
  | IFrag m pl => client_frame false 0 m pl
  | IPing m pl => client_frame true 9 m pl
  | IPong m pl => client_frame true 10 m pl
  end.

Definition payload_wf (mask pl : list Z) : Prop := mask_wf mask ∧ bytes_wf pl ∧ len pl < 2 ^ 62.

Definition item_wf (i : item) : Prop :=
  match i with
  | IFrag m pl => payload_wf m pl
  | IPing m pl | IPong m pl => payload_wf m pl ∧ len pl ≤ 125
  end.

Definition item_data (i : item) : list Z := match i with IFrag _ pl => pl | _ => [] end.
Definition item_out (i : item) : list (list Z) := match i with IPing _ pl => [pong_frame pl] | _ => [] end.

Definition opt_frame (o : option (list Z)) : list (list Z) := match o with None => [] | Some f => [f] end.

Lemma control_ping s pl : len pl ≤ 125 →
  control (P := P) (F := F) (UD := UD) (U := U) s true false 9 pl = Some (s, (Some (pong_frame pl), false)).
Proof.
  intros H. unfold control. cbn iota. replace (125 <? len pl) with false by lia. simpl orb. cbn iota.
  simpl Z.eqb. cbn iota. unfold buildPong. rewrite buildFrame_spec; [done| |done].
  destruct zero_mask_wf. split_and!; simpl; try lia; done.
Qed.

Lemma control_pong s pl : len pl ≤ 125 →
  control (P := P) (F := F) (UD := UD) (U := U) s true false 10 pl = Some (s, (None, false)).
Proof. intros H. unfold control. cbn iota. by replace (125 <? len pl) with false by lia. Qed.

(** A continuation frame while a message is in progress is reassembled. *)
Lemma continuation pool u cli op D fin m pl : in_message cli op D → payload_wf m pl →
  processFrame (pool, u, cli) (client_frame fin 0 m pl) = reassemble (pool, u, cli) pl fin (op =? MessageText).
Proof.
  intros (Hf & Hne & Hcmp & _) (Hm & Hw & Hl).
  rewrite processFrame_client by (done || lia). change (3 <=? 0) with false. cbn iota.
  unfold Frame.data_frame. simpl Z.eqb. cbn [andb negb]. rewrite Hf, Hcmp. cbn [negb]. rewrite andb_true_r.
  replace (op =? 0) with false by lia. cbn [negb andb orb]. by rewrite andb_true_r.
Qed.

(** The outcome of a message [D] that is run to its end. *)
Definition outcome (u u' : U) (cid : Z) (op : Z) (D : list Z) (pongs outs : list (list Z)) (closed : bool) : Prop :=
  if (op =? MessageText) && negb (Valid D)
  then closed = true ∧ u' = u ∧ ∃ sent, sent `prefix_of` pongs ∧ outs = sent ++ [close_frame 1007]
  else closed = false ∧ u' = fst (OnUserData u cid D) ∧
       outs = pongs ++ opt_frame (user_frame op <$> snd (OnUserData u cid D)).

Lemma outcome_pong u u' cid op D o pongs outs closed :
  outcome u u' cid op D pongs outs closed → outcome u u' cid op D (o ++ pongs) (o ++ outs) closed.
Proof.
  unfold outcome. gcase.
  - intros (? & ? & sent & ? & ->). split_and!; try done. exists (o ++ sent).
    split; [by apply prefix_app|by rewrite app_assoc].
  - intros (? & ? & ->). split_and!; try done. by rewrite app_assoc.
Qed.

Lemma outcome_invalid u cid D pongs : Valid D = false →
  outcome u u cid MessageText D pongs [close_frame 1007] true.
Proof.
  intros H. unfold outcome. rewrite H. simpl. split_and!; try done. exists []. split; [apply prefix_nil|done].
Qed.

(** From the middle of a message: the remaining items and the last fragment. *)
Lemma run_rest pool u cli op D items m pl : al_inv pool → op = MessageText ∨ op = MessageBinary →
  in_message cli op D → Forall item_wf items → payload_wf m pl →
  fits pool (len (D ++ (items ≫= item_data) ++ pl)) →
  ∃ pool' u' cli' outs closed,
    run_frames (pool, u, cli) ((item_frame <$> items) ++ [client_frame true 0 m pl])
      = Some ((pool', u', cli'), outs, closed) ∧
    idle cli' ∧ al_inv pool' ∧
    outcome u u' (ws_Cid cli) op (D ++ (items ≫= item_data) ++ pl) (items ≫= item_out) outs closed.
Proof.
  revert pool cli D. induction items as [|i items IH]; intros pool cli D Hinv Hop Hin Hwf Hp Hfit.
  - cbn [fmap list_fmap mbind list_bind app run_frames] in *. rewrite (continuation pool u cli op D) by done.
    destruct (reassemble_spec pool u cli op D pl true Hinv Hop Hin Hfit)
      as (pool' & cli' & Hinv' & _ & _ & [(-> & Hv & Hid & ->)|[[? _]|(_ & Hv & Hid & ->)]]); [| done |].
    + simpl. eexists _, _, _, _, _. split; [done|]. split_and!; try done. by apply outcome_invalid.
    + simpl. eexists _, _, _, _, _. split; [done|]. split_and!; try done.
      unfold outcome. replace (_ && _) with false.
      2: { destruct (Z.eqb_spec op MessageText) as [E|]; [by rewrite (Hv E)|done]. }
      split_and!; try done. simpl. by rewrite app_nil_r.
  - inversion Hwf as [|? ? Hi Hrest]; subst. cbn [fmap list_fmap mbind list_bind app run_frames] in *.
    destruct i as [im ipl|im ipl|im ipl]; simpl in Hi; cbn [item_frame item_data item_out app] in *.
    + rewrite (continuation pool u cli op D) by done. rewrite <-app_assoc in *.
      destruct (reassemble_spec pool u cli op D ipl false Hinv Hop Hin)
        as (pool1 & cli1 & Hinv1 & Hm1 & [Hcid _] & [(-> & Hv & Hid & ->)|[(_ & Hin1 & ->)|[? _]]]); [| | |done].
      { destruct Hfit as [H1 H2]. unfold fits. rewrite !length_app in *. split; lia. }
      * simpl. eexists _, _, _, _, _. split; [done|]. split_and!; try done. apply outcome_invalid.
        rewrite app_assoc. apply Hv.
      * cbn [mbind option_bind].
        destruct (IH pool1 cli1 (D ++ ipl)) as (pool' & u' & cli' & outs & closed & E & Hid & Hi' & Hout); try done.
        { unfold fits. by rewrite Hm1, <-app_assoc. }
        rewrite E. simpl. eexists _, _, _, _, _. split; [done|]. split_and!; try done.
        rewrite Hcid, <-app_assoc in Hout. done.
    + destruct Hi as [(Hm & Hw & Hl) Hlen]. rewrite processFrame_client by (done || lia).
      change (3 <=? 9) with true. cbn iota. rewrite control_ping by done. cbn [mbind option_bind].
      destruct (IH pool cli D) as (pool' & u' & cli' & outs & closed & -> & Hid & Hi' & Hout); try done.
      simpl. eexists _, _, _, _, _. split; [done|]. split_and!; try done. by apply (outcome_pong _ _ _ _ _ [_]).
    + destruct Hi as [(Hm & Hw & Hl) Hlen]. rewrite processFrame_client by (done || lia).
      change (3 <=? 10) with true. cbn iota. rewrite control_pong by done. cbn [mbind option_bind].
      destruct (IH pool cli D) as (pool' & u' & cli' & outs & closed & -> & Hid & Hi' & Hout); try done.
      simpl. eexists _, _, _, _, _. split; [done|]. split_and!; done.
Qed.

(** ** Messages *)

Inductive message : Type :=
| Single (mask pl : list Z)
| Fragmented (mask pl : list Z) (items : list item) (mask' pl' : list Z).

Definition message_frames (op : Z) (msg : message) : list (list Z) :=
  match msg with
  | Single m pl => [client_frame true op m pl]
  | Fragmented m pl items m' pl' =>
      client_frame false op m pl :: (item_frame <$> items) ++ [client_frame true 0 m' pl']
  end.

Definition message_data (msg : message) : list Z :=
  match msg with
  | Single _ pl => pl
  | Fragmented _ pl items _ pl' => pl ++ (items ≫= item_data) ++ pl'
  end.

Definition message_pongs (msg : message) : list (list Z) :=
  match msg with Single _ _ => [] | Fragmented _ _ items _ _ => items ≫= item_out end.

Definition message_wf (msg : message) : Prop :=
  match msg with
  | Single m pl => payload_wf m pl
  | Fragmented m pl items m' pl' => payload_wf m pl ∧ Forall item_wf items ∧ payload_wf m' pl'
  end.

(** The first frame of a fragmented message. *)
Lemma first_fragment pool u cli op m pl : idle cli → op = MessageText ∨ op = MessageBinary → payload_wf m pl →
  ∃ cli0, in_message cli0 op [] ∧ same_client cli cli0 ∧
    processFrame (pool, u, cli) (client_frame false op m pl) = reassemble (pool, u, cli0) pl false (op =? MessageText).
Proof.
  intros [H1 H2 H3] Hop (Hm & Hw & Hl).
  exists (ws_set_msg cli op false (ws_buf cli) (ws_inflater cli)). split_and!; try done.
  - unfold in_message. simpl. split; [done|]. split; [destruct Hop as [->| ->]; done|]. split; [done|].
    exists clientBuf_new. split_and!; try done. destruct (ws_buf cli); [left; by f_equal|by right].
  - rewrite processFrame_client by (destruct Hop as [->| ->]; unfold MessageText, MessageBinary; done || lia).
    replace (3 <=? op) with false by (destruct Hop as [->| ->]; done).
    unfold Frame.data_frame. rewrite H1.
    replace (op =? 0) with false by (destruct Hop as [->| ->]; done). simpl andb. cbn [negb orb ws_firstop ws_set_msg].
    replace (op =? 0) with false by (destruct Hop as [->| ->]; done). done.
Qed.

Lemma single_frame pool u cli op m pl : al_inv pool → idle cli → op = MessageText ∨ op = MessageBinary →
  payload_wf m pl → fits pool (len pl) →
  ∃ pool' u' cli' outs closed,
    run_frames (pool, u, cli) [client_frame true op m pl] = Some ((pool', u', cli'), outs, closed) ∧
    idle cli' ∧ al_inv pool' ∧ outcome u u' (ws_Cid cli) op pl [] outs closed.
Proof.
  intros Hinv [H1 H2 H3] Hop (Hm & Hw & Hl) Hfit. cbn [run_frames].
  rewrite processFrame_client by (destruct Hop as [->| ->]; unfold MessageText, MessageBinary; done || lia).
  replace (3 <=? op) with false by (destruct Hop as [->| ->]; done).
  unfold Frame.data_frame. rewrite H1.
  replace (op =? 0) with false by (destruct Hop as [->| ->]; done). simpl andb. cbn [negb orb andb]. rewrite H1.
  simpl Z.eqb. cbn [negb]. cbn iota.
  set (cli1 := ws_set_msg cli 0 false (ws_buf cli) (ws_inflater cli)).
  destruct ((op =? MessageText) && negb (Valid pl)) eqn:Ev.
  - apply andb_true_iff in Ev as [->%Z.eqb_eq Hv%negb_true_iff].
    assert (deliver (pool, u, cli1) pl MessageText false false = reset_fail (pool, u, cli1) 1007) as ->.
    { unfold Frame.deliver. cbn [mbind option_bind]. destruct Hfit as [Hmax _].
      replace ((0 <? WSMaxMessageBytes ws) && _) with false
        by (symmetry; apply andb_false_iff; rewrite !Z.ltb_ge; lia).
      by rewrite Hv. }
    destruct (reset_fail_spec pool u cli1 1007 Hinv) as (pool' & cli' & -> & Hi' & _ & Hid & _).
    simpl. eexists _, _, _, _, _. split; [done|]. split_and!; try done. by apply outcome_invalid.
  - destruct (deliver_spec pool u cli1 pl op false Hinv Hop) as (pool' & cli' & -> & Hi' & _ & Hid & _); try done.
    { intros _ ->. simpl in Ev. by apply negb_false_iff in Ev. }
    simpl. eexists _, _, _, _, _. split; [done|]. split_and!; try done.
    unfold outcome. rewrite Ev. split_and!; try done. simpl. by rewrite app_nil_r.
Qed.

Lemma run_message pool u cli op msg : al_inv pool → idle cli → op = MessageText ∨ op = MessageBinary →
  message_wf msg → fits pool (len (message_data msg)) →
  ∃ pool' u' cli' outs closed,
    run_frames (pool, u, cli) (message_frames op msg) = Some ((pool', u', cli'), outs, closed) ∧
    idle cli' ∧ al_inv pool' ∧ outcome u u' (ws_Cid cli) op (message_data msg) (message_pongs msg) outs closed.
Proof.
  destruct msg as [m pl|m pl items m' pl']; cbn [message_frames message_data message_pongs message_wf]; intros Hinv Hid Hop Hwf Hfit; [by apply (single_frame _ _ _ _ m)|].
  destruct Hwf as (Hw1 & Hwi & Hw2).
  destruct (first_fragment pool u cli op m pl Hid Hop Hw1) as (cli0 & Hin & [Hcid0 _] & E).
  cbn [run_frames]. rewrite E.
  destruct (reassemble_spec pool u cli0 op [] pl false Hinv Hop Hin)
    as (pool1 & cli1 & Hinv1 & Hm1 & [Hcid _] & [(-> & Hv & Hid' & ->)|[(_ & Hin1 & ->)|[? _]]]); [| | |done].
  { destruct Hfit as [F1 F2]. unfold fits. rewrite !length_app in *. simpl. split; lia. }
  - simpl. eexists _, _, _, _, _. split; [done|]. split_and!; try done. apply outcome_invalid. apply Hv.
  - cbn [mbind option_bind].
    destruct (run_rest pool1 u cli1 op pl items m' pl') as (pool' & u' & cli' & outs & closed & -> & Hid' & Hi' & Hout); try done.
    { unfold fits. by rewrite Hm1. }
    simpl. eexists _, _, _, _, _. split; [done|]. split_and!; try done. by rewrite Hcid, Hcid0 in Hout.
Qed.

(** C3: messages reach the application whole.  An idle client's uncompressed text
    or binary message, sent as one frame or as any number of masked fragments with
    pings and pongs between them, and within the size limits, runs without a panic
    and leaves the client idle: if it is binary, or valid UTF-8 as a whole, the
    application is called exactly once with the concatenation of the fragments
    (runes split across fragments included), every ping is answered in order by a
    pong with its payload, and the application's answer is framed; an invalid text
    never reaches the application and the connection closes with code 1007. *)
Theorem ws_message_reassembly (pool : P) (u : U) (cli : WsClient F UD) (op : Z) (msg : message) :
  al_inv pool → idle cli → op = MessageText ∨ op = MessageBinary →
  message_wf msg → fits pool (len (message_data msg)) →
  ∃ pool' u' cli' outs closed,
    run_frames (pool, u, cli) (message_frames op msg) = Some ((pool', u', cli'), outs, closed) ∧ idle cli' ∧
    if (op =? MessageText) && negb (Valid (message_data msg))
    then closed = true ∧ u' = u ∧
         ∃ sent, sent `prefix_of` message_pongs msg ∧ outs = sent ++ [close_frame 1007]
    else closed = false ∧ u' = fst (OnUserData u (ws_Cid cli) (message_data msg)) ∧
         outs = message_pongs msg
                ++ opt_frame (user_frame op <$> snd (OnUserData u (ws_Cid cli) (message_data msg))).
Proof.
  intros H1 H2 H3 H4 H5.
  destruct (run_message pool u cli op msg H1 H2 H3 H4 H5) as (pool' & u' & cli' & outs & closed & E & Hid & _ & Ho).
  exists pool', u', cli', outs, closed. done.
Qed.

(** ** Any frame, any state *)

Context `{!FlateLaws F}.

(** What holds of a client between frames, whatever it was sent. *)
Record client_inv cli : Prop := {
  ci_op : 0 ≤ ws_firstop cli ≤ 2;
  ci_idle : ws_firstop cli = 0 → empty_buf (ws_buf cli);
  ci_buf b : ws_buf cli = Some b → cb_wf b ∧
    (ws_firstop cli = MessageText → ws_fragmentCompressed cli = false → text_ok MessageText b) ∧
    (0 < WSMaxMessageBytes ws → len (cb_data b) ≤ WSMaxMessageBytes ws);
}.

(** The bytes of the message in progress. *)
Definition buffered cli : Z := match ws_buf cli with None => 0 | Some b => len (cb_data b) end.

(** What a frame may do to the application: nothing, or one call with a message
    within the limit that is valid UTF-8 if it is text; the answer is framed with
    the opcode of the message. *)
Definition app_effect (cid : Z) (u u' : U) (out : wout) : Prop :=
  u' = u ∨
  ∃ op D, (op = MessageText ∨ op = MessageBinary) ∧
    u' = fst (OnUserData u cid D) ∧ out = (user_frame op <$> snd (OnUserData u cid D), false) ∧
    (0 < WSMaxMessageBytes ws → len D ≤ WSMaxMessageBytes ws) ∧ (op = MessageText → Valid D = true).

(** A result that keeps the invariants. *)
Definition safe_result pool u cli (r : option (wst (P := P) (F := F) (UD := UD) (U := U) * wout)) : Prop :=
  ∃ pool' u' cli' out, r = Some ((pool', u', cli'), out) ∧ al_inv pool' ∧ al_max pool' = al_max pool ∧
    client_inv cli' ∧ same_client cli cli' ∧ app_effect (ws_Cid cli) u u' out.

Lemma same_client_trans cli1 cli2 cli3 : same_client cli1 cli2 → same_client cli2 cli3 → same_client cli1 cli3.
Proof. intros [? ?] [? ?]. split; congruence. Qed.

Lemma idle_inv cli : idle cli → client_inv cli.
Proof.
  intros [H1 H2 H3]. split; [rewrite H1; lia|done|]. intros b Hb. rewrite Hb in H3. simpl in H3. subst b.
  split; [apply cb_wf_new|]. split; [done|]. simpl. lia.
Qed.

Lemma fail_safe pool u cli cli0 code : al_inv pool → client_inv cli → same_client cli0 cli →
  safe_result pool u cli0 (fail_with (pool, u, cli) code).
Proof.
  intros Hp Hc Hs. rewrite fail_with_spec. exists pool, u, cli, (Some (close_frame code), true).
  split_and!; try done; [apply Hs..|by left].
Qed.

Lemma reset_fail_safe pool0 pool u cli cli0 code : al_inv pool → al_max pool = al_max pool0 → same_client cli0 cli →
  safe_result pool0 u cli0 (reset_fail (pool, u, cli) code).
Proof.
  intros Hp Hm Hs. destruct (reset_fail_spec pool u cli code Hp) as (pool' & cli' & -> & Hi & Hm' & Hid & Hs').
  exists pool', u, cli', (Some (close_frame code), true).
  split; [done|]. split; [done|]. split; [congruence|]. split; [by apply idle_inv|].
  split; [by eapply same_client_trans|by left].
Qed.

Lemma deliver_safe pool0 pool u cli cli0 payload op compressed ft :
  al_inv pool → al_max pool = al_max pool0 → op = MessageText ∨ op = MessageBinary →
  ws_firstop cli = 0 → same_client cli0 cli →
  (∀ b, ws_buf cli = Some b → cb_wf b) →
  (compressed = true → ft = false ∧ (inflate_fuel payload ≤ fuel)%nat) →
  (ft = true → op = MessageText → Valid payload = true) →
  safe_result pool0 u cli0 (deliver (pool, u, cli) payload op compressed ft).
Proof.
  intros Hp Hm Hop H1 Hs Hb Hcomp Hft. unfold Frame.deliver.
  assert (∃ cli1 r, (if compressed then
      '(inf, r) ← pmdInflater_inflate fuel (ws_inflater cli) payload (WSMaxMessageBytes ws);
      Some (ws_set_msg cli (ws_firstop cli) (ws_fragmentCompressed cli) (ws_buf cli) inf, r)
    else Some (cli, inl payload)) = Some (cli1, r) ∧ ws_firstop cli1 = 0 ∧ ws_buf cli1 = ws_buf cli ∧
    ws_fragmentCompressed cli1 = ws_fragmentCompressed cli ∧
    same_client cli0 cli1 ∧ (∀ d, r = inl d → ft = true → d = payload)) as (cli1 & r & -> & H1' & Hb' & Hc' & Hs' & Hr).
  { destruct compressed.
    - destruct (Hcomp eq_refl) as [-> Hf].
      destruct (inflate_spec fuel (ws_inflater cli) payload (WSMaxMessageBytes ws) Hf) as (i' & r & -> & _).
      cbn [mbind option_bind]. eexists _, _. split; [done|]. split_and!; try done; apply Hs.
    - eexists _, _. split; [done|]. split_and!; try done; [apply Hs..|]. by intros d [= ->]. }
  cbn [mbind option_bind]. destruct r as [d|[]]; [|by apply reset_fail_safe..].
  destruct ((0 <? WSMaxMessageBytes ws) && (WSMaxMessageBytes ws <? len d)) eqn:Hmax; [by apply reset_fail_safe|].
  destruct ((op =? MessageText) && negb ft && negb (Valid d)) eqn:Hval; [by apply reset_fail_safe|].
  rewrite processUserdata_spec by done. cbn [mbind option_bind].
  assert (∃ pool' cli', WsClient_resetBuf pool cli1 = (pool', cli') ∧ al_inv pool' ∧ al_max pool' = al_max pool ∧
    client_inv cli' ∧ same_client cli1 cli') as (pool' & cli' & -> & Hi & Hm' & Hci & Hs2).
  { unfold WsClient_resetBuf, clientBuf_reset. destruct (ws_buf cli1) as [b|] eqn:Eb; simpl.
    - destruct (al_put_inv pool (cb_buf b) Hp). eexists _, _. split; [done|]. split_and!; try done.
      split; simpl; [lia|done|]. intros b' [= <-]. split; [apply cb_wf_new|]. split; [done|]. simpl. lia.
    - eexists _, _. split; [done|]. split_and!; try done. split; [lia|by rewrite Eb|]. by rewrite Eb. }
  assert (ws_Cid cli1 = ws_Cid cli0) as Hcid by apply Hs'.
  eexists _, _, _, _. split; [done|]. split; [done|]. split; [congruence|]. split; [done|]. split.
  - by eapply same_client_trans.
  - right. exists op, d. rewrite <-Hcid. split_and!; try done.
    + intros H0. apply andb_false_iff in Hmax. rewrite !Z.ltb_ge in Hmax. lia.
    + intros ->. simpl in Hval. destruct ft; simpl in Hval; [|by apply negb_false_iff in Hval].
      rewrite (Hr d eq_refl eq_refl). by apply Hft.
Qed.

(** A fragment of any message, compressed or not, of any size. *)
Lemma reassemble_safe pool u cli cli0 p fin ft : al_inv pool → client_inv cli → ws_firstop cli ≠ 0 →
  same_client cli0 cli →
  (fin = true → ft = (ws_firstop cli =? MessageText) && negb (ws_fragmentCompressed cli)) →
  (∀ d, len d ≤ buffered cli + len p → (inflate_fuel d ≤ fuel)%nat) →
  safe_result pool u cli0 (reassemble (pool, u, cli) p fin ft).
Proof.
  intros Hp [Cop Cid Cb] Hne Hs Hft Hfuel. unfold Frame.reassemble.
  set (b := default clientBuf_new (ws_buf cli)).
  assert (cb_wf b ∧ (ws_firstop cli = MessageText → ws_fragmentCompressed cli = false → text_ok MessageText b) ∧
          buffered cli = len (cb_data b)) as (Hwf & Ht & Hbuf).
  { unfold b, buffered. destruct (ws_buf cli) as [b0|]; simpl; [|split_and!; try done].
    destruct (Cb b0 eq_refl) as (? & ? & _). done. }
  clearbody b. pose proof (length_cb_data b Hwf) as Hlb. unfold clientBuf_size. rewrite <-Hlb.
  destruct ((0 <? WSMaxMessageBytes ws) && (WSMaxMessageBytes ws <? len (cb_data b) + len p)) eqn:Hmax;
    [by apply reset_fail_safe|].
  destruct (clientBuf_write_spec pool b p Hp Hwf) as (pool1 & b1 & ok & -> & Hinv1 & Hm1 & Hwf1 & Hc1 & Hd1 & _).
  cbn [mbind option_bind ws_firstop ws_fragmentCompressed ws_set_msg ws_inflater ws_buf].
  destruct ok; cbn [negb]; cbn iota; [|by apply reset_fail_safe].
  set (isText := (ws_firstop cli =? MessageText) && negb (ws_fragmentCompressed cli)).
  assert (isText = true → text_ok MessageText b1) as Ht1.
  { intros [E1%Z.eqb_eq E2%negb_true_iff]%andb_true_iff _ r.
    rewrite Hd1, <-app_assoc, (Ht E1 E2 eq_refl), Hc1, app_assoc. do 2 f_equal.
    rewrite drop_app_le; [done|]. destruct Hwf. lia. }
  assert (∃ b2 valid, (if isText then validateBufferedText b1 fin else Some (b1, true)) = Some (b2, valid) ∧
    cb_wf b2 ∧ cb_data b2 = cb_data b ++ p ∧
    (valid = true → isText = true → text_ok MessageText b2 ∧ (fin = true → Valid (cb_data b ++ p) = true)))
    as (b2 & valid & -> & Hwf2 & Hd2 & Hv).
  { destruct isText.
    - destruct (validate_spec b1 fin MessageText Hwf1) as (b2 & valid & -> & ? & ? & Hv & _); [by apply Ht1|done|].
      rewrite Hd1 in *. exists b2, valid. split_and!; try done. intros Ev _. by apply Hv.
    - exists b1, true. split_and!; done. }
  cbn [mbind option_bind]. destruct valid; cbn [negb]; cbn iota; [|by apply reset_fail_safe].
  destruct fin; cbn [negb]; cbn iota.
  - rewrite clientBuf_bytes_spec, Hd2 by done. cbn [mbind option_bind]. apply deliver_safe; try done.
    + unfold MessageText, MessageBinary. lia.
    + simpl. intros b' [= <-]. done.
    + intros Hcmp. split; [rewrite Hft by done; by rewrite Hcmp, andb_false_r|].
      apply Hfuel. rewrite Hbuf, length_app. lia.
    + intros E _. rewrite Hft in E by done. by apply Hv.
  - match goal with |- safe_result _ _ _ (Some ((pool1, u, ?c), (None, false))) =>
      exists pool1, u, c, (None, false) end.
    split; [done|]. split; [done|]. split; [done|]. split; [|split; [exact Hs|by left]].
    split; [done|done|]. simpl. intros b' [= <-].
    split; [done|]. split.
    + intros E1 E2. apply Hv; [done|]. unfold isText. by rewrite E1, E2.
    + intros H0. rewrite Hd2, length_app. apply andb_false_iff in Hmax. rewrite !Z.ltb_ge in Hmax. lia.
Qed.

Lemma data_frame_safe pool u cli fin rsv1 op pl : al_inv pool → client_inv cli → 0 ≤ op < 3 →
  (∀ d, len d ≤ buffered cli + len pl → (inflate_fuel d ≤ fuel)%nat) →
  safe_result pool u cli (data_frame (pool, u, cli) fin rsv1 op pl
    ((ws_firstop cli =? MessageText) && negb (ws_fragmentCompressed cli))).
Proof.
  intros Hp Hc Hop Hfuel. pose proof Hc as [Cop Cid Cb]. unfold Frame.data_frame.
  destruct ((op =? 0) && rsv1) eqn:E1; [by apply fail_safe|].
  destruct (negb (op =? 0) && rsv1 && _) eqn:E2; [by apply fail_safe|].
  destruct (((ws_firstop cli =? 0) && negb (op =? 0)) || (negb (ws_firstop cli =? 0) && (op =? 0))) eqn:E3;
    cbn [negb]; cbn iota; [|by apply fail_safe].
  destruct (Z.eqb_spec op 0) as [->|Hop0]; cbn [negb andb] in *.
  - rewrite andb_false_r in E3. simpl orb in E3. destruct (Z.eqb_spec (ws_firstop cli) 0); [done|].
    simpl negb. cbn iota. by apply reassemble_safe.
  - rewrite !andb_true_r, andb_false_r, orb_false_r in E3. apply Z.eqb_eq in E3.
    assert (op = MessageText ∨ op = MessageBinary) as Hop' by (unfold MessageText, MessageBinary; lia).
    rewrite E3. destruct fin; cbn [negb andb]; cbn iota.
    + rewrite E3. cbn [Z.eqb negb]. cbn iota. apply deliver_safe; try done.
      * simpl. intros b Hb. by apply Cb.
      * intros _. split; [done|]. apply Hfuel. unfold buffered. destruct (ws_buf cli); lia.
    + cbn [ws_firstop ws_set_msg]. replace (op =? 0) with false by lia. cbn [negb]. cbn iota.
      apply reassemble_safe; try done. split; simpl; [lia|lia|].
      intros b Hb. specialize (Cid E3). rewrite Hb in Cid. simpl in Cid. subst b.
      split; [apply cb_wf_new|]. split; [intros _ _; by intros _ r|]. simpl. lia.
Qed.

Lemma cipher_total payload mask : length mask = 4%nat → bytes_wf payload → bytes_wf mask →
  ∃ p', cipher big payload mask 0 = Some p' ∧ length p' = length payload.
Proof.
  intros. rewrite cipher_spec by done. eexists. split; [done|]. unfold mask_spec. by rewrite length_imap.
Qed.

Lemma control_safe pool u cli fin rsv1 op pl : al_inv pool → client_inv cli → bytes_wf pl →
  safe_result pool u cli (control (pool, u, cli) fin rsv1 op pl).
Proof.
  intros Hp Hc Hpl. unfold control. destruct rsv1; [by apply fail_safe|].
  destruct ((125 <? len pl) || negb fin) eqn:E; [by apply fail_safe|].
  apply orb_false_iff in E as [Hl%Z.ltb_ge _]. destruct zero_mask_wf as [Hz1 Hz2].
  assert (∀ op pl', 0 ≤ op < 16 → len pl' ≤ 125 → ∃ f, buildFrame (control_header op pl') pl' = Some (Some f)) as Hbuild.
  { intros op' pl' Ho Hl'. eexists. apply buildFrame_spec; [|done]. split_and!; simpl; try lia; done. }
  assert (∀ f close, safe_result pool u cli (Some ((pool, u, cli), (f, close)))) as Hsafe.
  { intros f close. exists pool, u, cli, (f, close). split_and!; try done. by left. }
  destruct (op =? 8).
  { assert (∃ f, buildClose pl = Some f) as [f ->]; [|by apply Hsafe].
    unfold buildClose, buildCloseWithCode, close_echo.
    destruct (Z.ltb_spec 0 (len pl)); [|destruct (Hbuild 8 pl) as [f ->]; [lia..|]; eauto].
    destruct (Hbuild 8 [wrapU 8 (Z.shiftr 1002 8); wrapU 8 1002]) as [f0 Hf0]; [lia|simpl; lia|].
    destruct (Z.ltb_spec (len pl) 2); [rewrite Hf0; eauto|].
    destruct (index_Some pl 0) as [c0 ->]; [lia|]. destruct (index_Some pl 1) as [c1 ->]; [lia|].
    cbn [mbind option_bind]. destruct (negb _); [rewrite Hf0; eauto|].
    destruct (_ && _); [destruct (Hbuild 8 []) as [f ->]; [lia|simpl; lia|]; eauto|].
    destruct (Hbuild 8 pl) as [f ->]; [lia..|]. eauto. }
  destruct (op =? 9).
  { unfold buildPong. destruct (Hbuild 10 pl) as [f ->]; [lia..|]. apply Hsafe. }
  destruct (op =? 10); [by apply Hsafe|by apply fail_safe].
Qed.

(** An accepted frame has at least its header. *)
Lemma parseFrame_accepts inp n : parseFrame ws inp = Some (n, n) → n = len inp → 0 < n →
  ∃ b1, index inp 1 = Some b1 ∧ 2 ≤ calcHeaderSize b1 ≤ len inp ∧
    (negb (Z.land b1 0x80 =? 0) = true → 6 ≤ calcHeaderSize b1).
Proof.
  intros E Hn Hpos. unfold parseFrame in E.
  destruct (Z.ltb_spec (len inp) WSHeaderMinSize) as [|H2]; [by injection E; lia|]. unfold WSHeaderMinSize in *.
  destruct (index_Some inp 1) as [b1 Hb1]; [lia|]. rewrite Hb1 in E. cbn [mbind option_bind] in E.
  exists b1. split; [done|].
  assert (2 ≤ calcHeaderSize b1 ∧ (negb (Z.land b1 0x80 =? 0) = true → 6 ≤ calcHeaderSize b1)) as [? ?].
  { unfold calcHeaderSize. destruct (negb _); repeat case_match; split; lia. }
  destruct (Z.ltb_spec (len inp) (calcHeaderSize b1)); [injection E; lia|]. split; [lia|done].
Qed.

Lemma processFrame_safe pool u cli inp : al_inv pool → client_inv cli → bytes_wf inp →
  parseFrame ws inp = Some (len inp, len inp) → 0 < len inp →
  (∀ d, len d ≤ buffered cli + len inp → (inflate_fuel d ≤ fuel)%nat) →
  safe_result pool u cli (processFrame (pool, u, cli) inp).
Proof.
  intros Hp Hc Hw Hparse Hpos Hfuel.
  destruct (parseFrame_accepts inp (len inp) Hparse eq_refl Hpos) as (b1 & Hb1 & Hhs & Hmk).
  unfold Frame.processFrame. rewrite Hb1. cbn [mbind option_bind].
  rewrite (slice_Some inp (calcHeaderSize b1) (len inp)) by lia. cbn [mbind option_bind].
  set (pl := sub inp (calcHeaderSize b1) (len inp)).
  assert (bytes_wf pl) as Hplw by (apply Forall_take, Forall_drop, Hw).
  assert (len pl ≤ len inp) as Hpl by (unfold pl; rewrite length_sub; lia).
  destruct (WSRequireClientMask ws && _); [by apply fail_safe|].
  assert (∃ p', (if negb (Z.land b1 0x80 =? 0) && (0 <? len pl) then
      mask ← slice inp (calcHeaderSize b1 - 4) (calcHeaderSize b1); cipher big pl mask 0
      else Some pl) = Some p' ∧ length p' = length pl ∧ bytes_wf p') as (p' & -> & Hp' & Hpw').
  { destruct (negb (Z.land b1 0x80 =? 0)) eqn:Em; cbn [andb]; cbn iota; [|eauto].
    destruct (0 <? len pl); [|eauto]. specialize (Hmk eq_refl).
    rewrite slice_Some by lia. cbn [mbind option_bind].
    set (mask := sub inp (calcHeaderSize b1 - 4) (calcHeaderSize b1)).
    assert (length mask = 4%nat) as Hm4.
    { pose proof (length_sub inp (calcHeaderSize b1 - 4) (calcHeaderSize b1) ltac:(lia) ltac:(lia)).
      unfold mask. lia. }
    assert (bytes_wf mask) as Hmw by (apply Forall_take, Forall_drop, Hw).
    rewrite cipher_spec by done. eexists. split; [done|]. unfold mask_spec at 1. rewrite length_imap.
    split; [done|]. by apply mask_spec_wf. }
  cbn [mbind option_bind].
  destruct (index_Some inp 0) as [b0 ->]; [lia|]. cbn [mbind option_bind].
  destruct (negb (Z.land b0 0x30 =? 0)); [by apply fail_safe|].
  destruct (Z.leb_spec 3 (Z.land b0 0x0f)); [by apply control_safe|].
  apply data_frame_safe; try done.
  - split; [|lia]. apply Z.land_nonneg. lia.
  - intros d Hd. apply Hfuel. lia.
Qed.

(** C14: no frame breaks the server.  For any client state the invariant allows
    and any bytes that [parseFrame] delimits as a frame, however malformed its
    content, [processFrame] returns without a panic, keeps the invariant (the
    message in progress stays within the limit, its checked text prefix is sound),
    and calls the application at most once, only with a message within
    [WSMaxMessageBytes] which, for text, is valid UTF-8, compressed messages
    included. *)
Theorem ws_any_frame_is_safe (pool : P) (u : U) (cli : WsClient F UD) (inp : list Z) :
  al_inv pool → client_inv cli → bytes_wf inp →
  parseFrame ws inp = Some (len inp, len inp) → 0 < len inp →
  (∀ d, len d ≤ buffered cli + len inp → (inflate_fuel d ≤ fuel)%nat) →
  ∃ pool' u' cli' out, processFrame (pool, u, cli) inp = Some ((pool', u', cli'), out) ∧
    al_inv pool' ∧ client_inv cli' ∧ app_effect (ws_Cid cli) u u' out.
Proof.
  intros H1 H2 H3 H4 H5 H6.
  destruct (processFrame_safe pool u cli inp H1 H2 H3 H4 H5 H6) as (pool' & u' & cli' & out & E & Hi & _ & Hc & _ & Ha).
  exists pool', u', cli', out. done.
Qed.

End Conversation.

(** ** The handler of a connection *)

Section Handler.
Context {P F UD U : Type} `{!Allocator P, !Flate F}.
Variable ws : WSKnobs.
Variable big : bool.
Variable fuel : nat.
Variable OnUserData : U → Z → list Z → U * option (list Z).

Definition WsHandler_OnConnected (enablePlainHTTP : bool) (id : Z) : WsClient F UD :=
  mkWsClient false id enablePlainHTTP false [] 0 false false None pmdInflater_new None.

Definition WsHandler_OnClosed (pool : P) (cli : WsClient F UD) : P * WsClient F UD :=
  let '(pool, cli) := WsClient_resetMessageState pool cli in (pool, WsClient_closePMD cli).

Definition WsHandler_ParsePacket (cli : WsClient F UD) (inp : list Z) : option (WsClient F UD * (Z * Z)) :=
  if negb (ws_Upgraded cli) then parseHandshake cli inp
  else r ← parseFrame ws inp; Some (cli, r).

Definition WsHandler_OnData (s : wst (P := P) (F := F) (UD := UD) (U := U)) (inp : list Z) :
    option (wst (P := P) (F := F) (UD := UD) (U := U) * wout) :=
  let '(pool, u, cli) := s in
  if negb (ws_Upgraded cli) then
    '(cli, (out, close)) ← processHandshake cli; Some ((pool, u, cli), (Some out, close))
  else processFrame ws big fuel OnUserData s inp.

End Handler.

(** ** Close frames *)

Definition close_code (pl : list Z) : Z := Z.lor (Z.shiftl (pl !!! 0%nat) 8) (pl !!! 1%nat).

(** A close payload that may be put on the wire: empty, or a valid code and a
    valid UTF-8 reason. *)
Definition close_payload_ok (pl : list Z) : Prop :=
  pl = [] ∨ (2 ≤ len pl ∧ isValidCloseCode (close_code pl) = true ∧ (2 < len pl → Valid (drop 2 pl) = true)).

Lemma buildClose_spec pl : len pl ≤ 125 →
  ∃ pl', buildClose pl = Some (Some (header_bytes (control_header 8 pl') ++ pl')) ∧
    close_payload_ok pl' ∧ (close_payload_ok pl → pl' = pl).
Proof.
  intros Hl. destruct zero_mask_wf as [Hz1 Hz2].
  assert (∀ q, len q ≤ 125 → close_echo q = Some (Some (header_bytes (control_header 8 q) ++ q))) as Hecho.
  { intros q Hq. apply buildFrame_spec; [|done]. split_and!; simpl; try lia; done. }
  set (bad := [wrapU 8 (Z.shiftr 1002 8); wrapU 8 1002]).
  assert (close_payload_ok bad) as Hbad by (right; vm_compute; split_and!; done).
  unfold buildClose, buildCloseWithCode. fold bad.
  destruct (Z.ltb_spec 0 (len pl)).
  2: { assert (pl = []) as -> by (destruct pl; simpl in *; [done|lia]).
       exists []. rewrite Hecho by (simpl; lia). split_and!; try done. by left. }
  destruct (Z.ltb_spec (len pl) 2).
  { exists bad. rewrite Hecho by (simpl; lia). split_and!; try done.
    intros [->|[? _]]; [simpl in *; lia|lia]. }
  destruct pl as [|c0 [|c1 rest]]; [simpl in *; lia..|].
  change (index (c0 :: c1 :: rest) 0) with (Some c0). change (index (c0 :: c1 :: rest) 1) with (Some c1).
  cbn [mbind option_bind]. destruct (isValidCloseCode (Z.lor (Z.shiftl c0 8) c1)) eqn:Ev; cbn [negb]; cbn iota.
  2: { exists bad. rewrite Hecho by (simpl; lia). split_and!; try done.
       intros [?|(_ & Hc & _)]; [done|]. unfold close_code in Hc. simpl in Hc. congruence. }
  destruct ((2 <? len (c0 :: c1 :: rest)) && negb (Valid (drop 2 (c0 :: c1 :: rest)))) eqn:Er.
  - apply andb_true_iff in Er as [E1%Z.ltb_lt E2%negb_true_iff].
    exists []. rewrite Hecho by (simpl; lia). split_and!; try done; [by left|].
    intros [?|(_ & _ & Hv)]; [done|]. rewrite Hv in E2 by done. done.
  - exists (c0 :: c1 :: rest). rewrite Hecho by done. split_and!; try done. right. split_and!; try done.
    intros H2. apply andb_false_iff in Er as [E|E]; [lia|]. by apply negb_false_iff in E.
Qed.

(** The answer to a close frame is always a well-formed close frame: its
    payload is empty or a permitted status code with a valid UTF-8 reason (a
    malformed or forbidden code is answered with 1002), and a correct close is
    echoed unchanged. *)
Theorem close_reply_is_valid (pl : list Z) : len pl ≤ 125 →
  ∃ pl', buildClose pl = Some (Some (header_bytes (control_header 8 pl') ++ pl')) ∧
    close_payload_ok pl' ∧ (close_payload_ok pl → pl' = pl).
Proof. apply buildClose_spec. Qed.

Lemma close_reply_is_valid_witness :
  ∃ pl', buildClose [3; 236; 65] = Some (Some (header_bytes (control_header 8 pl') ++ pl')) ∧
    close_payload_ok pl' ∧ (close_payload_ok [3; 236; 65] → pl' = [3; 236; 65]).
Proof. apply (close_reply_is_valid [3; 236; 65]). simpl. lia. Defined.


#[local] Existing Instances test_Allocator test_AllocatorLaws.

(** An application that records the messages and echoes them. *)
Definition echo (u : list (list Z)) (id : Z) (d : list Z) : list (list Z) * option (list Z) := (u ++ [d], Some (take 100 d)).

Lemma echo_fits u id d u' o : echo u id d = (u', Some o) → len o < 2 ^ 62.
Proof. intros E. unfold echo in E. simplify_eq. rewrite length_take. lia. Qed.

Definition test_client : WsClient TestFlate unit :=
  mkWsClient true 5 false false [] 0 false false None pmdInflater_new None.

(** The euro sign split after its first byte, a ping in between. *)
Definition test_message : message :=
  Fragmented [1; 2; 3; 4] [0x41; 0xE2] [IPing [9; 9; 9; 9] [7]; IFrag [0; 0; 0; 0] [0x82]] [5; 6; 7; 8] [0xAC].

Lemma ws_message_reassembly_witness :
  ∃ pool' u' cli' outs closed,
    run_frames default_ws false 10 echo (test_pool, [], test_client) (message_frames 1 test_message)
      = Some ((pool', u', cli'), outs, closed) ∧ idle cli' ∧
    closed = false ∧ u' = [[0x41; 0xE2; 0x82; 0xAC]] ∧
    outs = [pong_frame [7]; user_frame 1 [0x41; 0xE2; 0x82; 0xAC]].
Proof.
  apply (ws_message_reassembly default_ws false 10 echo echo_fits).
  - apply test_pool_inv.
  - by split.
  - by left.
  - repeat (split || constructor); try (apply bytes_wfb); vm_compute; (done || lia).
  - split; [intros _|]; vm_compute; discriminate.
Defined.

Lemma ws_any_frame_is_safe_witness :
  let inp := client_frame true 5 [1; 2; 3; 4] [10; 20] in
  ∃ pool' u' cli' out, processFrame default_ws true 100 echo (test_pool, [], test_client) inp = Some ((pool', u', cli'), out) ∧
    al_inv pool' ∧ client_inv default_ws cli' ∧ app_effect default_ws echo 5 [] u' out.
Proof.
  apply (ws_any_frame_is_safe default_ws true 100 echo echo_fits).
  - apply test_pool_inv.
  - apply idle_inv. by split.
  - apply bytes_wfb. vm_compute. reflexivity.
  - vm_compute. reflexivity.
  - vm_compute. reflexivity.
  - intros d Hd. unfold inflate_fuel. simpl. rewrite length_app. simpl.
    assert (len d ≤ 8) by (etransitivity; [exact Hd|vm_compute; discriminate]). lia.
Defined.
