(* ===== verification/TlsStrict.v ===== *)
(** * connection/tls_strict.go: the precheck of a TLS 1.3 client hello

    Before a TLS 1.3 only server starts its handshake, it reads the records of
    the client hello itself, parses it, refuses it with an alert when it is
    malformed, and otherwise hands the connection on behind a [replayConn] that
    returns the bytes already read.  The network connection is a parameter with
    the contract of [net.Conn]. *)

From Stdlib Require Import Strings.String.
From S2P Require Import Prelude Cipher Sha1.
Open Scope string_scope.
Open Scope list_scope.
Open Scope Z_scope.

Definition tlsRecordTypeAlert : Z := 21.
Definition tlsRecordTypeHandshake : Z := 22.
Definition tlsHandshakeTypeClientHello : Z := 1.
Definition tlsAlertLevelFatal : Z := 2.
Definition tlsAlertDecodeError : Z := 50.
Definition tlsAlertProtocolVersion : Z := 70.
Definition tlsAlertMissingExt : Z := 109.
Definition maxStrictClientHelloBytes : Z := Z.shiftl 1 20.

(** The constants of crypto/tls. *)
Definition VersionTLS10 : Z := 0x0301.
Definition VersionTLS12 : Z := 0x0303.
Definition VersionTLS13 : Z := 0x0304.

Inductive tls_error : Set :=
| EMsg (msg : string)
| ERecordType (typ : Z)
| ENotClientHello (typ : Z)
| ELegacyVersion (v : Z)
| ERead (e : errno).

(** ** net.Conn and io.ReadFull *)

(** [nc_in] and [nc_out] are the bytes read from and written to the peer so far. *)
Class NetConn (N : Type) := {
  nc_read : N → Z → N * list Z * option errno;
  nc_write : N → list Z → N * (Z * option errno);
  nc_SetReadDeadline : N → option Z → N;
  nc_in : N → list Z;
  nc_out : N → list Z;
}.

(** The contract of [net.Conn]: [Read] returns at most the bytes asked for, and an
    error when it returns none; [Write] sends a prefix. *)
Class NetConnLaws (N : Type) `{NetConn N} : Prop := {
  nc_read_ok c n : let '(c', d, e) := nc_read c n in
    nc_in c' = nc_in c ++ d ∧ nc_out c' = nc_out c ∧ bytes_wf d ∧
    len d ≤ Z.max 0 n ∧ (0 < n → d = [] → e ≠ None);
  nc_write_ok c b : let '(c', (n, e)) := nc_write c b in
    nc_in c' = nc_in c ∧ 0 ≤ n ≤ len b ∧ nc_out c' = nc_out c ++ take (Z.to_nat n) b;
  nc_deadline_ok c t :
    nc_in (nc_SetReadDeadline c t) = nc_in c ∧ nc_out (nc_SetReadDeadline c t) = nc_out c;
}.

Definition ErrUnexpectedEOF : errno := EOTHER 1.

Record strictClientHelloInfo := mkHello {
  legacyVersion : Z; offersTLS13 : bool; hasSupportedGroup : bool;
  hasKeyShare : bool; hasPreSharedKey : bool }.

Definition set_offers (o : strictClientHelloInfo) :=
  mkHello (legacyVersion o) true (hasSupportedGroup o) (hasKeyShare o) (hasPreSharedKey o).
Definition set_group (o : strictClientHelloInfo) :=
  mkHello (legacyVersion o) (offersTLS13 o) true (hasKeyShare o) (hasPreSharedKey o).
Definition set_share (o : strictClientHelloInfo) :=
  mkHello (legacyVersion o) (offersTLS13 o) (hasSupportedGroup o) true (hasPreSharedKey o).
Definition set_psk (o : strictClientHelloInfo) :=
  mkHello (legacyVersion o) (offersTLS13 o) (hasSupportedGroup o) (hasKeyShare o) true.

(** ** Parsing.  The outer [None] is a panic; the error is part of the result. *)

Definition Uint16 (l : list Z) (i : Z) : option Z := s ← slice l i (i + 2); Some (be_word s).

Definition parseUint16PairListExt (extData : list Z) (name : string) : option (option tls_error) :=
  if len extData <? 2 then Some (Some (EMsg ("tls: malformed " ++ name ++ " extension")%string))
  else
    listLen ← Uint16 extData 0;
    if negb (listLen =? len extData - 2) || (listLen =? 0) || negb (Z.rem listLen 2 =? 0)
    then Some (Some (EMsg ("tls: malformed " ++ name ++ " extension payload")%string))
    else Some None.

(** The loop over the versions of a supported_versions extension. *)
Fixpoint versions_loop (fuel : nat) (extData : list Z) (i : Z) : option bool :=
  if i + 1 <? len extData then
    match fuel with
    | O => None
    | S fuel =>
        v ← Uint16 extData i;
        if v =? VersionTLS13 then Some true else versions_loop fuel extData (i + 2)
    end
  else Some false.

(** The [switch] on the type of an extension. *)
Definition parse_ext (out : strictClientHelloInfo) (extType : Z) (extData : list Z) :
    option (strictClientHelloInfo * option tls_error) :=
  if extType =? 43 then
    if len extData <? 1 then Some (out, Some (EMsg "tls: malformed supported_versions extension"))
    else
      versionsLen ← index extData 0;
      if negb (versionsLen =? len extData - 1) || negb (Z.rem versionsLen 2 =? 0)
      then Some (out, Some (EMsg "tls: malformed supported_versions extension payload"))
      else
        found ← versions_loop (length extData) extData 1;
        Some (if (found : bool) then set_offers out else out, None)
  else if extType =? 10 then Some (set_group out, None)
  else if extType =? 13 then
    err ← parseUint16PairListExt extData "signature_algorithms"; Some (out, err)
  else if extType =? 50 then
    err ← parseUint16PairListExt extData "signature_algorithms_cert"; Some (out, err)
  else if extType =? 51 then
    if len extData <? 2 then Some (out, Some (EMsg "tls: malformed key_share extension"))
    else
      keyShareLen ← Uint16 extData 0;
      if negb (keyShareLen =? len extData - 2)
      then Some (out, Some (EMsg "tls: malformed key_share extension payload"))
      else Some (set_share out, None)
  else if extType =? 41 then Some (set_psk out, None)
  else Some (out, None).

(** The loop over the extensions: each one takes at least four bytes. *)
Fixpoint extensions_loop (fuel : nat) (body : list Z) (off : Z) (out : strictClientHelloInfo) :
    option (strictClientHelloInfo * option tls_error) :=
  if off <? len body then
    match fuel with
    | O => None
    | S fuel =>
        if len body <? off + 4 then Some (out, Some (EMsg "tls: malformed client_hello extension header"))
        else
          extType ← Uint16 body off;
          extLen ← Uint16 body (off + 2);
          let off := off + 4 in
          if len body <? off + extLen then Some (out, Some (EMsg "tls: malformed client_hello extension body"))
          else
            extData ← slice body off (off + extLen);
            let off := off + extLen in
            '(out, err) ← parse_ext out extType extData;
            match err with
            | Some e => Some (out, Some e)
            | None => extensions_loop fuel body off out
            end
    end
  else Some (out, None).

Definition parse_extensions (body : list Z) (off : Z) (out : strictClientHelloInfo) :
    option (strictClientHelloInfo * option tls_error) :=
  if off =? len body then Some (out, None)
  else if len body <? off + 2 then Some (out, Some (EMsg "tls: malformed client_hello extensions length"))
  else
    extTotalLen ← Uint16 body off;
    let off := off + 2 in
    if negb (off + extTotalLen =? len body) then Some (out, Some (EMsg "tls: malformed client_hello extensions"))
    else extensions_loop (length body) body off out.

Definition hello_zero : strictClientHelloInfo := mkHello 0 false false false false.

Definition parseClientHello (msg : list Z) : option (strictClientHelloInfo * option tls_error) :=
  let fail out m := Some (out, Some (EMsg m)) in
  m0 ← (if len msg <? 4 then Some 0 else index msg 0);
  if (len msg <? 4) || negb (m0 =? tlsHandshakeTypeClientHello)
  then fail hello_zero "tls: malformed client_hello handshake message"
  else
    body ← slice msg 4 (len msg);
    if len body <? 2 + 32 + 1 then fail hello_zero "tls: short client_hello body"
    else
      let off := 0 in
      v ← Uint16 body off;
      let out := mkHello v false false false false in
      let off := off + (2 + 32) in
      sessionIDLen ← index body off;
      let off := off + 1 in
      if len body <? off + sessionIDLen then fail out "tls: malformed client_hello session id"
      else
        let off := off + sessionIDLen in
        if len body <? off + 2 then fail out "tls: malformed client_hello cipher suites length"
        else
          cipherSuitesLen ← Uint16 body off;
          let off := off + 2 in
          if (cipherSuitesLen <=? 0) || negb (Z.rem cipherSuitesLen 2 =? 0) || (len body <? off + cipherSuitesLen)
          then fail out "tls: malformed client_hello cipher suites"
          else
            let off := off + cipherSuitesLen in
            if len body <? off + 1 then fail out "tls: malformed client_hello compression methods length"
            else
              compressionLen ← index body off;
              let off := off + 1 in
              if (compressionLen <=? 0) || (len body <? off + compressionLen)
              then fail out "tls: malformed client_hello compression methods"
              else parse_extensions body (off + compressionLen) out.

(** ** Reading the records *)

Section Strict.
Context {N : Type} `{!NetConn N}.

(** [io.ReadFull(conn, buf)] with [len(buf) = need]: [got] is what was read so far.
    Each round reads at least one byte or ends, so [S need] rounds do. *)
Fixpoint ReadFull_loop (fuel : nat) (c : N) (need : Z) (got : list Z) (err : option errno) :
    option (N * list Z * option errno) :=
  if (len got <? need) && bool_decide (err = None) then
    match fuel with
    | O => None
    | S fuel =>
        let '(c, d, e) := nc_read c (need - len got) in
        ReadFull_loop fuel c need (got ++ d) e
    end
  else
    Some (c, got,
      if need <=? len got then None
      else if (0 <? len got) && bool_decide (err = Some EOF) then Some ErrUnexpectedEOF else err).

Definition ReadFull (c : N) (need : Z) : option (N * list Z * option errno) :=
  ReadFull_loop (S (Z.to_nat need)) c need [] None.

(** What [readClientHelloRecords] returns beside the connection. *)
Definition hello_result : Type := list Z * list Z * Z * option tls_error.

(** The length of the message, once its first four bytes are there. *)
Definition message_length (handshakeBytes : list Z) (msgLen : Z) : option (Z * option tls_error) :=
  if (msgLen <? 0) && (4 <=? len handshakeBytes) then
    h0 ← index handshakeBytes 0;
    if negb (h0 =? tlsHandshakeTypeClientHello) then Some (msgLen, Some (ENotClientHello h0))
    else
      h1 ← index handshakeBytes 1; h2 ← index handshakeBytes 2; h3 ← index handshakeBytes 3;
      let msgLen := Z.lor (Z.lor (Z.shiftl h1 16) (Z.shiftl h2 8)) h3 in
      if (msgLen <=? 0) || (maxStrictClientHelloBytes <? msgLen)
      then Some (msgLen, Some (EMsg "tls: invalid client_hello length in strict handshake precheck"))
      else Some (msgLen, None)
  else Some (msgLen, None).

(** The loop of [readClientHelloRecords]; a round that does not return adds at least
    six bytes to [recordBuf], which is bounded. *)
Fixpoint records_loop (fuel : nat) (c : N) (recordBuf handshakeBytes : list Z) (msgLen recordVersion : Z) :
    option (N * hello_result) :=
  match fuel with
  | O => None
  | S fuel =>
      '(c, hdr, err) ← ReadFull c 5;
      match err with
      | Some e => Some (c, ([], [], recordVersion, Some (ERead e)))
      | None =>
          typ ← index hdr 0;
          vers ← Uint16 hdr 1;
          let recordVersion := if recordVersion =? 0 then vers else recordVersion in
          recLen ← Uint16 hdr 3;
          if recLen <=? 0 then
            Some (c, ([], [], recordVersion, Some (EMsg "tls: invalid tls record length in strict handshake precheck")))
          else
            '(c, rec, err) ← ReadFull c recLen;
            match err with
            | Some e => Some (c, ([], [], recordVersion, Some (ERead e)))
            | None =>
                let recordBuf := recordBuf ++ hdr ++ rec in
                if maxStrictClientHelloBytes <? len recordBuf then
                  Some (c, ([], [], recordVersion, Some (EMsg "tls: client hello precheck exceeded max buffered size")))
                else if negb (typ =? tlsRecordTypeHandshake) then
                  Some (c, ([], [], recordVersion, Some (ERecordType typ)))
                else
                  let handshakeBytes := handshakeBytes ++ rec in
                  '(msgLen, err) ← message_length handshakeBytes msgLen;
                  match err with
                  | Some e => Some (c, ([], [], recordVersion, Some e))
                  | None =>
                      if (0 <=? msgLen) && (4 + msgLen <=? len handshakeBytes) then
                        hello ← slice handshakeBytes 0 (4 + msgLen);
                        Some (c, (recordBuf, hello, recordVersion, None))
                      else records_loop fuel c recordBuf handshakeBytes msgLen recordVersion
                  end
            end
      end
  end.

Definition records_fuel : nat := Z.to_nat (maxStrictClientHelloBytes / 6 + 2).

(** [timeout] stands for the deadline computed from it; the deferred call clears it. *)
Definition readClientHelloRecords (c : N) (timeout : Z) : option (N * hello_result) :=
  let c := if 0 <? timeout then nc_SetReadDeadline c (Some timeout) else c in
  '(c, res) ← records_loop records_fuel c [] [] (-1) 0;
  Some (if 0 <? timeout then nc_SetReadDeadline c None else c, res).

Definition sendFatalAlert (c : N) (vers desc : Z) : N :=
  let vers := if (vers <? VersionTLS10) || (VersionTLS13 <? vers) then VersionTLS12 else vers in
  fst (nc_write c [tlsRecordTypeAlert; wrapU 8 (Z.shiftr vers 8); wrapU 8 vers; 0; 2; tlsAlertLevelFatal; desc]).

(** ** The precheck *)

(** The fields of [tls.Config] that the check reads. *)
Record tlsConfig := mkTlsConfig { MinVersion : Z; MaxVersion : Z }.

Definition shouldStrictTLS13Check (cfg : option tlsConfig) : bool :=
  match cfg with
  | None => false
  | Some cfg =>
      if negb (MinVersion cfg =? VersionTLS13) then false
      else (MaxVersion cfg =? 0) || (MaxVersion cfg =? VersionTLS13)
  end.

Record replayConn := mkReplay { rc_conn : N; rc_preRead : list Z }.

Definition replayConn_Read (c : replayConn) (n : Z) : replayConn * list Z * option errno :=
  if 0 <? len (rc_preRead c) then
    let d := take (Z.to_nat n) (rc_preRead c) in
    (mkReplay (rc_conn c) (drop (length d) (rc_preRead c)), d, None)
  else
    let '(k, d, e) := nc_read (rc_conn c) n in
    (mkReplay k (rc_preRead c), d, e).

(** The connection itself, the connection behind a [replayConn], or an error. *)
Inductive wrapped : Type :=
| WPlain (c : N)
| WReplay (c : replayConn)
| WError (c : N) (e : tls_error).

Definition missing_extensions (h : strictClientHelloInfo) : bool :=
  negb (Bool.eqb (hasSupportedGroup h) (hasKeyShare h))
  || (negb (hasPreSharedKey h) && (negb (hasSupportedGroup h) || negb (hasKeyShare h))).

Definition maybeWrapStrictTLS13ServerConn (TlsHandshakeTimeout : Z) (c : N) (cfg : option tlsConfig) :
    option wrapped :=
  if negb (shouldStrictTLS13Check cfg) then Some (WPlain c)
  else
    '(c, (recordBuf, helloMsg, recordVersion, err)) ← readClientHelloRecords c TlsHandshakeTimeout;
    match err with
    | Some e => Some (WError (sendFatalAlert c recordVersion tlsAlertDecodeError) e)
    | None =>
        '(helloInfo, err) ← parseClientHello helloMsg;
        match err with
        | Some e => Some (WError (sendFatalAlert c recordVersion tlsAlertDecodeError) e)
        | None =>
            if legacyVersion helloInfo <=? 0x0300 then
              Some (WError (sendFatalAlert c recordVersion tlsAlertProtocolVersion)
                           (ELegacyVersion (legacyVersion helloInfo)))
            else if offersTLS13 helloInfo && missing_extensions helloInfo then
              Some (WError (sendFatalAlert c recordVersion tlsAlertMissingExt)
                     (EMsg "tls: client hello missing required tls1.3 key_share/supported_groups extensions"))
            else Some (WReplay (mkReplay c recordBuf))
        end
    end.

End Strict.
Arguments wrapped : clear implicits.
Arguments replayConn : clear implicits.

(** ** The wire format of a client hello *)

(** A client hello (RFC 8446, 4.1.2): the extensions may be absent altogether. *)
Record ClientHello := mkCH {
  ch_version : Z; ch_random : list Z; ch_session : list Z; ch_suites : list Z;
  ch_compression : list Z; ch_exts : option (list (Z * list Z)) }.

Definition enc_ext (e : Z * list Z) : list Z := be_bytes 2 (fst e) ++ be_bytes 2 (len (snd e)) ++ snd e.
Definition enc_exts (es : list (Z * list Z)) : list Z := es ≫= enc_ext.

Definition enc_opt_exts (oes : option (list (Z * list Z))) : list Z :=
  match oes with
  | None => []
  | Some es => be_bytes 2 (len (enc_exts es)) ++ enc_exts es
  end.

Definition enc_hello (ch : ClientHello) : list Z :=
  be_bytes 2 (ch_version ch) ++ ch_random ch
  ++ [len (ch_session ch)] ++ ch_session ch
  ++ be_bytes 2 (len (ch_suites ch)) ++ ch_suites ch
  ++ [len (ch_compression ch)] ++ ch_compression ch
  ++ enc_opt_exts (ch_exts ch).

(** A non-empty list of 16-bit values behind its length in bytes. *)
Definition pair_list_ok (d : list Z) : bool :=
  match d with
  | a :: b :: vs => (be_word [a; b] =? len vs) && negb (len vs =? 0) && Z.even (len vs)
  | _ => false
  end.

(** The content that the precheck asks of an extension. *)
Definition ext_ok (e : Z * list Z) : bool :=
  let '(t, d) := e in
  if t =? 43 then match d with n :: vs => (n =? len vs) && Z.even n | [] => false end
  else if (t =? 13) || (t =? 50) then pair_list_ok d
  else if t =? 51 then match d with a :: b :: ks => be_word [a; b] =? len ks | _ => false end
  else true.

Fixpoint pairs (l : list Z) : list Z :=
  match l with a :: b :: l => be_word [a; b] :: pairs l | _ => [] end.

Definition offers13 (e : Z * list Z) : bool :=
  (fst e =? 43) && existsb (λ v, v =? VersionTLS13) (pairs (tail (snd e))).
Definition has_ext (t : Z) (es : list (Z * list Z)) : bool := existsb (λ e, fst e =? t) es.

Definition u16 (v : Z) : Prop := 0 ≤ v < 65536.

Definition ext_wf (e : Z * list Z) : Prop := u16 (fst e) ∧ u16 (len (snd e)) ∧ bytes_wf (snd e).

Definition exts_ok (oes : option (list (Z * list Z))) : Prop :=
  ∀ es, oes = Some es → u16 (len (enc_exts es)) ∧ Forall ext_wf es ∧ forallb ext_ok es = true.

Record hello_ok (ch : ClientHello) : Prop := {
  ho_version : u16 (ch_version ch);
  ho_random : len (ch_random ch) = 32;
  ho_session : len (ch_session ch) < 256;
  ho_suites : 0 < len (ch_suites ch) < 65536 ∧ Z.even (len (ch_suites ch)) = true;
  ho_compression : 0 < len (ch_compression ch) < 256;
  ho_exts : exts_ok (ch_exts ch);
}.

(** What the precheck reports of a client hello. *)
Definition hello_info (ch : ClientHello) : strictClientHelloInfo :=
  let es := default [] (ch_exts ch) in
  mkHello (ch_version ch) (existsb offers13 es) (has_ext 10 es) (has_ext 51 es) (has_ext 41 es).

(** ** A cursor in a byte string *)

Lemma be_bytes_word l : bytes_wf l → be_bytes (length l) (be_word l) = l.
Proof.
  intros H. unfold be_bytes, be_word. rewrite <-(length_rev l), le_bytes_word.
  - apply rev_involutive.
  - apply Forall_rev, H.
Qed.

Lemma u16_word l : bytes_wf l → len l = 2 → u16 (be_word l).
Proof.
  intros H Hl. unfold be_word. pose proof (le_word_bound (rev l) (Forall_rev H)) as B.
  rewrite length_rev, Hl in B. exact B.
Qed.

(** Moving the cursor over a known chunk [a]. *)
Lemma cursor_skip (l a r : list Z) off : 0 ≤ off → drop (Z.to_nat off) l = a ++ r → a ≠ [] ∨ off ≤ len l →
  slice l off (off + len a) = Some a ∧ drop (Z.to_nat (off + len a)) l = r ∧
  off + len a + len r = len l.
Proof.
  intros Ho E Ha.
  assert (off ≤ len l) as Hle.
  { destruct Ha as [Ha|]; [|done]. destruct (decide (off ≤ len l)); [done|].
    rewrite drop_ge in E by lia. symmetry in E. apply app_eq_nil in E as [-> _]. done. }
  assert (length l - Z.to_nat off = length a + length r)%nat as L.
  { rewrite <-length_drop, E, length_app. done. }
  split_and!; [|..].
  - rewrite slice_Some by lia. unfold sub. rewrite E. f_equal.
    replace (Z.to_nat (off + len a - off)) with (length a) by lia. by rewrite take_app_length.
  - replace (Z.to_nat (off + len a)) with (Z.to_nat off + length a)%nat by lia.
    by rewrite <-drop_drop, E, drop_app_length.
  - lia.
Qed.

Lemma cursor_u16 (l : list Z) v r off : 0 ≤ off → u16 v → drop (Z.to_nat off) l = be_bytes 2 v ++ r →
  Uint16 l off = Some v ∧ drop (Z.to_nat (off + 2)) l = r ∧ off + 2 + len r = len l.
Proof.
  intros Ho Hv E.
  destruct (cursor_skip l (be_bytes 2 v) r off Ho E) as (S1 & S2 & S3).
  { left. intros Z. apply (f_equal length) in Z. rewrite length_be_bytes in Z. done. }
  rewrite length_be_bytes in *. unfold Uint16. change (Z.of_nat 2) with 2 in *. rewrite S1. simpl.
  rewrite be_word_bytes by exact Hv. done.
Qed.

Lemma cursor_u8 (l : list Z) v r off : 0 ≤ off → drop (Z.to_nat off) l = v :: r →
  index l off = Some v ∧ drop (Z.to_nat (off + 1)) l = r ∧ off + 1 + len r = len l.
Proof.
  intros Ho E. destruct (cursor_skip l [v] r off Ho E) as (S1 & S2 & S3); [by left|].
  split_and!; [|done..]. unfold index. zb. rewrite <-(Nat.add_0_r (Z.to_nat off)), <-lookup_drop, E. done.
Qed.

(** The chunks at the cursor of an unknown string. *)
Lemma take_chunk (l : list Z) n off : 0 ≤ off → 0 ≤ n → off + n ≤ len l → bytes_wf l →
  ∃ a, drop (Z.to_nat off) l = a ++ drop (Z.to_nat (off + n)) l ∧ len a = n ∧ bytes_wf a.
Proof.
  intros Ho Hn Hle Hwf. exists (take (Z.to_nat n) (drop (Z.to_nat off) l)). split_and!.
  - replace (Z.to_nat (off + n)) with (Z.to_nat off + Z.to_nat n)%nat by lia.
    by rewrite <-drop_drop, take_drop.
  - llia.
  - apply Forall_take, Forall_drop, Hwf.
Qed.

Lemma take_u16 l off : 0 ≤ off → off + 2 ≤ len l → bytes_wf l →
  ∃ v, u16 v ∧ drop (Z.to_nat off) l = be_bytes 2 v ++ drop (Z.to_nat (off + 2)) l ∧ Uint16 l off = Some v.
Proof.
  intros Ho Hle Hwf. destruct (take_chunk l 2 off) as (a & Ea & La & Ha); try done; [lia..|].
  exists (be_word a). pose proof (u16_word a Ha La) as U.
  assert (be_bytes 2 (be_word a) = a) as Eb.
  { replace 2%nat with (length a) by lia. by apply be_bytes_word. }
  rewrite Eb. split_and!; try done. rewrite <-Eb in Ea. by apply (cursor_u16 l _ _ off) in Ea as (-> & _).
Qed.

Lemma take_u8 l off : 0 ≤ off → off + 1 ≤ len l → bytes_wf l →
  ∃ v, byte_wf v ∧ drop (Z.to_nat off) l = v :: drop (Z.to_nat (off + 1)) l ∧ index l off = Some v.
Proof.
  intros Ho Hle Hwf. destruct (take_chunk l 1 off) as (a & Ea & La & Ha); try done; [lia..|].
  destruct a as [|v [|? ?]]; simpl in La; try lia. exists v. split_and!; try done.
  - by inversion Ha.
  - by apply (cursor_u8 l _ _ off) in Ea as (-> & _).
Qed.

(** ** The parser accepts exactly the encodings *)

(** What an accepted extension adds to the report. *)
Definition add_ext (out : strictClientHelloInfo) (e : Z * list Z) : strictClientHelloInfo :=
  mkHello (legacyVersion out) (offersTLS13 out || offers13 e) (hasSupportedGroup out || (fst e =? 10))
    (hasKeyShare out || (fst e =? 51)) (hasPreSharedKey out || (fst e =? 41)).

Lemma add_ext_set out t d : (t =? 43) = false →
  add_ext out (t, d) =
  if t =? 10 then set_group out else if t =? 51 then set_share out
  else if t =? 41 then set_psk out else out.
Proof.
  intros H43. unfold add_ext, offers13. cbn [fst snd]. rewrite H43, andb_false_l.
  destruct out as [v o g s p]. simpl.
  destruct (Z.eqb_spec t 10); [subst; by rewrite !orb_false_r, orb_true_r|].
  destruct (Z.eqb_spec t 51); [subst; by rewrite !orb_false_r, orb_true_r|].
  destruct (Z.eqb_spec t 41); [subst; by rewrite !orb_false_r, orb_true_r|].
  by rewrite !orb_false_r.
Qed.

Lemma foldl_add_ext es out :
  foldl add_ext out es =
  mkHello (legacyVersion out) (offersTLS13 out || existsb offers13 es)
    (hasSupportedGroup out || has_ext 10 es) (hasKeyShare out || has_ext 51 es)
    (hasPreSharedKey out || has_ext 41 es).
Proof.
  revert out. induction es as [|e es IH]; intros out; simpl.
  - rewrite !orb_false_r. by destruct out.
  - rewrite IH. simpl. by rewrite <-!orb_assoc.
Qed.

Lemma Uint16_cons a b l : Uint16 (a :: b :: l) 0 = Some (be_word [a; b]).
Proof. unfold Uint16. rewrite slice_Some by (simpl; lia). done. Qed.

Lemma rem2_even n : 0 ≤ n → (Z.rem n 2 =? 0) = Z.even n.
Proof.
  intros. rewrite Z.rem_mod_nonneg by lia. rewrite Zmod_even. by destruct (Z.even n).
Qed.

Lemma versions_loop_spec fuel d i : 0 ≤ i → (len d ≤ i + 2 * Z.of_nat fuel) →
  versions_loop fuel d i = Some (existsb (λ v, v =? VersionTLS13) (pairs (drop (Z.to_nat i) d))).
Proof.
  revert i. induction fuel as [|fuel IH]; intros i Hi Hf; simpl.
  all: destruct (Z.ltb_spec (i + 1) (len d)) as [Hlt|Hge].
  all: try (destruct (drop (Z.to_nat i) d) as [|a [|b l]] eqn:E; [done|done|exfalso];
            apply (f_equal length) in E; rewrite length_drop in E; simpl in E; lia).
  - lia.
  - destruct (drop (Z.to_nat i) d) as [|a [|b l]] eqn:E.
    1,2: apply (f_equal length) in E; rewrite length_drop in E; simpl in E; lia.
    destruct (cursor_skip d [a; b] l i Hi E) as (S1 & S2 & _); [by left|].
    change (len [a; b]) with 2 in S1, S2. unfold Uint16. rewrite S1. cbn [mbind option_bind pairs existsb].
    destruct (be_word [a; b] =? VersionTLS13); [done|]. rewrite IH by lia.
    by rewrite S2.
Qed.

Lemma pair_list_spec d name : bytes_wf d → ∃ err, parseUint16PairListExt d name = Some err ∧
  if pair_list_ok d then err = None else err ≠ None.
Proof.
  intros Hd. unfold parseUint16PairListExt, pair_list_ok. destruct d as [|a [|b vs]]; [by eexists..|].
  rewrite Uint16_cons. simpl length.
  destruct (Z.ltb_spec (Z.of_nat (S (S (length vs)))) 2); [lia|]. cbn [mbind option_bind].
  replace (Z.of_nat (S (S (length vs))) - 2) with (len vs) by lia.
  destruct (Z.eqb_spec (be_word [a; b]) (len vs)) as [->|]; simpl; [|by eexists].
  rewrite rem2_even by lia.
  destruct (len vs =? 0); simpl; [by eexists|]. by destruct (Z.even _); eexists.
Qed.

Lemma parse_ext_spec out t d : bytes_wf d → ∃ o err, parse_ext out t d = Some (o, err) ∧
  if ext_ok (t, d) then err = None ∧ o = add_ext out (t, d) else err ≠ None.
Proof.
  intros Hd. unfold parse_ext, ext_ok. destruct (Z.eqb_spec t 43) as [->|N43].
  { destruct d as [|n vs]; [by eexists _, _|]. simpl length.
    destruct (Z.ltb_spec (Z.of_nat (S (length vs))) 1); [lia|].
    change (index (n :: vs) 0) with (Some n). cbn [mbind option_bind].
    replace (Z.of_nat (S (length vs)) - 1) with (len vs) by lia.
    destruct (Z.eqb_spec n (len vs)) as [->|]; cbn [negb orb andb]; [|by eexists _, _].
    rewrite rem2_even by lia. destruct (Z.even _); cbn [negb orb andb]; [|by eexists _, _].
    rewrite (versions_loop_spec (S (length vs)) (len vs :: vs) 1) by (simpl; lia). cbn [mbind option_bind].
    eexists _, _. split; [done|]. split; [done|]. unfold add_ext, offers13, set_offers. simpl.
    destruct out as [v o g s p], (existsb _ _); simpl; by rewrite ?orb_false_r, ?orb_true_r. }
  apply Z.eqb_neq in N43. rewrite add_ext_set by done.
  destruct (Z.eqb_spec t 10) as [->|N10]; [by eexists _, _|].
  destruct (Z.eqb_spec t 13) as [->|N13]; cbn [orb].
  { destruct (pair_list_spec d "signature_algorithms" Hd) as (err & -> & E). simpl.
    eexists _, _; split; [done|]. by destruct (pair_list_ok d). }
  destruct (Z.eqb_spec t 50) as [->|N50].
  { destruct (pair_list_spec d "signature_algorithms_cert" Hd) as (err & -> & E). simpl.
    eexists _, _; split; [done|]. by destruct (pair_list_ok d). }
  destruct (Z.eqb_spec t 51) as [->|N51].
  { destruct d as [|a [|b ks]]; [by eexists _, _..|]. rewrite Uint16_cons. simpl length.
    destruct (Z.ltb_spec (Z.of_nat (S (S (length ks)))) 2); [lia|]. cbn [mbind option_bind].
    replace (Z.of_nat (S (S (length ks))) - 2) with (len ks) by lia.
    destruct (be_word [a; b] =? len ks); by eexists _, _. }
  destruct (t =? 41); by eexists _, _.
Qed.

Lemma extensions_loop_sound fuel body off out : 0 ≤ off ≤ len body → bytes_wf body →
  len body - off ≤ 4 * Z.of_nat fuel →
  ∃ o err, extensions_loop fuel body off out = Some (o, err) ∧
    (err = None → ∃ es, drop (Z.to_nat off) body = enc_exts es ∧ Forall ext_wf es ∧
                        forallb ext_ok es = true ∧ o = foldl add_ext out es).
Proof.
  revert off out. induction fuel as [|fuel IH]; intros off out Ho Hwf Hf; cbn [extensions_loop].
  all: destruct (Z.ltb_spec off (len body)) as [Hlt|Hge].
  2,4: eexists _, _; split; [done|]; intros _; exists []; rewrite drop_ge by lia;
       split_and!; [done|constructor|done|done].
  - lia.
  - destruct (Z.ltb_spec (len body) (off + 4)); [by eexists _, _|].
    destruct (take_u16 body off) as (t & Ht & D1 & U1); try done; [lia..|].
    destruct (take_u16 body (off + 2)) as (n & Hn & D2 & U2); try done; [lia..|].
    replace (off + 2 + 2) with (off + 4) in D2 by lia. unfold u16 in Hn.
    rewrite U1, U2. cbn [mbind option_bind].
    destruct (Z.ltb_spec (len body) (off + 4 + n)); [by eexists _, _|].
    destruct (take_chunk body n (off + 4)) as (d & D3 & Ld & Hd); try done; [lia..|].
    destruct (cursor_skip body d _ (off + 4) ltac:(lia) D3) as (S1 & _ & _); [right; lia|].
    rewrite Ld in S1. rewrite S1. cbn [mbind option_bind].
    destruct (parse_ext_spec out t d Hd) as (o1 & err & -> & He). cbn [mbind option_bind].
    destruct err as [e|]; [by eexists _, _|].
    destruct (IH (off + 4 + n) o1) as (o2 & err2 & -> & H2); [lia|done|lia|].
    eexists _, _; split; [done|]. intros E2. destruct (H2 E2) as (es & E & W & K & ->).
    exists ((t, d) :: es). destruct (ext_ok (t, d)) eqn:Hok; [|done]. destruct He as [_ ->].
    split_and!; [|constructor; [|done]|cbn [forallb]; by rewrite Hok|done].
    + rewrite D1, D2, D3, E. cbn [enc_exts mbind list_bind]. unfold enc_ext. cbn [fst snd].
      rewrite Ld. by rewrite <-!app_assoc.
    + split_and!; [done|cbn [snd]; unfold u16; lia|done].
Qed.

Lemma extensions_loop_complete fuel body off out es : 0 ≤ off ≤ len body →
  len body - off ≤ 4 * Z.of_nat fuel →
  drop (Z.to_nat off) body = enc_exts es → Forall ext_wf es → forallb ext_ok es = true →
  extensions_loop fuel body off out = Some (foldl add_ext out es, None).
Proof.
  revert off out es. induction fuel as [|fuel IH]; intros off out es Ho Hf E W K; cbn [extensions_loop].
  all: assert (len body - off = len (enc_exts es)) as L by (rewrite <-E; llia).
  all: destruct es as [|[t d] es]; [destruct (Z.ltb_spec off (len body)); [simpl in L; lia|done]|].
  all: inversion W as [|? ? (Ht & Hn & Hd) W']; subst; cbn [fst snd] in *.
  all: cbn [enc_exts mbind list_bind] in E, L; unfold enc_ext in E, L; cbn [fst snd] in E, L.
  all: rewrite !length_app, !length_be_bytes in L.
  - lia.
  - destruct (Z.ltb_spec off (len body)); [|lia]. destruct (Z.ltb_spec (len body) (off + 4)); [lia|].
    rewrite <-!app_assoc in E.
    apply cursor_u16 in E as (-> & E & _); [|lia|done].
    apply cursor_u16 in E as (-> & E & _); [|lia|done]. cbn [mbind option_bind].
    replace (off + 2 + 2) with (off + 4) in E by lia.
    destruct (Z.ltb_spec (len body) (off + 4 + len d)); [lia|].
    apply cursor_skip in E as (-> & E & _); [|lia|right; lia]. cbn [mbind option_bind].
    destruct (parse_ext_spec out t d Hd) as (o1 & err & -> & He). cbn [mbind option_bind].
    cbn [forallb] in K. apply andb_true_iff in K as [K1 K2]. rewrite K1 in He. destruct He as [-> ->].
    cbn [foldl]. apply IH; try done; lia.
Qed.

Lemma parse_extensions_sound body off out : 0 ≤ off ≤ len body → bytes_wf body →
  ∃ o err, parse_extensions body off out = Some (o, err) ∧
    (err = None → ∃ oes, drop (Z.to_nat off) body = enc_opt_exts oes ∧ exts_ok oes ∧
                         o = foldl add_ext out (default [] oes)).
Proof.
  intros Ho Hwf. unfold parse_extensions. destruct (Z.eqb_spec off (len body)) as [->|Hne].
  { eexists _, _; split; [done|]. intros _. exists None. by rewrite drop_ge by lia. }
  destruct (Z.ltb_spec (len body) (off + 2)); [by eexists _, _|].
  destruct (take_u16 body off) as (n & Hn & D1 & ->); try done; [lia..|]. cbn [mbind option_bind].
  destruct (Z.eqb_spec (off + 2 + n) (len body)) as [En|]; [|by eexists _, _]. cbn [negb].
  destruct (extensions_loop_sound (length body) body (off + 2) out) as (o & err & -> & HL); [lia|done|lia|].
  eexists _, _; split; [done|]. intros E. destruct (HL E) as (es & D2 & W & K & ->). exists (Some es).
  assert (n = len (enc_exts es)) as -> by (rewrite <-D2; llia).
  split_and!; [by rewrite D1, D2| |done]. intros ? [= <-]. done.
Qed.

Lemma parse_extensions_complete body off out oes : 0 ≤ off ≤ len body →
  drop (Z.to_nat off) body = enc_opt_exts oes → exts_ok oes →
  parse_extensions body off out = Some (foldl add_ext out (default [] oes), None).
Proof.
  intros Ho E K. unfold parse_extensions.
  assert (len body - off = len (enc_opt_exts oes)) as L by (rewrite <-E; llia).
  destruct oes as [es|]; cbn [enc_opt_exts] in E, L; [|by destruct (Z.eqb_spec off (len body)); [|simpl in L; lia]].
  rewrite length_app, length_be_bytes in L. destruct (K es eq_refl) as (Hn & W & K').
  destruct (Z.eqb_spec off (len body)); [lia|]. destruct (Z.ltb_spec (len body) (off + 2)); [lia|].
  apply cursor_u16 in E as (-> & E & _); [|lia|done]. cbn [mbind option_bind].
  destruct (Z.eqb_spec (off + 2 + len (enc_exts es)) (len body)); [|lia]. cbn [negb].
  apply extensions_loop_complete; try done; lia.
Qed.

(** A handshake message of type client hello: its type, its length in three bytes, which
    [parseClientHello] does not read, and the client hello. *)
Definition hello_msg (lens : list Z) (ch : ClientHello) : list Z :=
  tlsHandshakeTypeClientHello :: lens ++ enc_hello ch.

Lemma parseClientHello_sound msg : bytes_wf msg →
  ∃ o err, parseClientHello msg = Some (o, err) ∧
    (err = None → ∃ lens ch, len lens = 3 ∧ hello_ok ch ∧ msg = hello_msg lens ch ∧ o = hello_info ch).
Proof.
  intros Hwf. unfold parseClientHello. destruct (Z.ltb_spec (len msg) 4) as [|L4]; [by eexists _, _|].
  destruct msg as [|m0 [|m1 [|m2 [|m3 body]]]]; try (simpl in L4; lia).
  change (index _ 0) with (Some m0). cbn [mbind option_bind orb].
  destruct (Z.eqb_spec m0 tlsHandshakeTypeClientHello) as [->|Hne]; [|by eexists _, _]. cbn [negb].
  rewrite slice_Some by (simpl; lia). rewrite sub_suffix by lia. cbn [mbind option_bind].
  change (drop (Z.to_nat 4) _) with body.
  assert (bytes_wf body) as Hb by (do 4 (inversion Hwf as [|? ? _ Hwf']; subst; clear Hwf; rename Hwf' into Hwf); done).
  clear Hwf L4. destruct (Z.ltb_spec (len body) (2 + 32 + 1)); [by eexists _, _|].
  destruct (take_u16 body 0) as (v & Hv & D0 & ->); try done; [lia..|]. cbn [mbind option_bind].
  destruct (take_chunk body 32 (0 + 2)) as (rnd & D1 & Lr & _); try done; [lia..|].
  replace (0 + 2 + 32) with (0 + (2 + 32)) in D1 by lia.
  destruct (take_u8 body (0 + (2 + 32))) as (s & Hs & D2 & ->); try done; [lia..|]. cbn [mbind option_bind].
  set (o1 := 0 + (2 + 32) + 1) in *. unfold byte_wf in Hs.
  destruct (Z.ltb_spec (len body) (o1 + s)); [by eexists _, _|].
  destruct (take_chunk body s o1) as (sid & D3 & Ls & _); try done; [lia..|].
  destruct (Z.ltb_spec (len body) (o1 + s + 2)); [by eexists _, _|].
  destruct (take_u16 body (o1 + s)) as (n & Hn & D4 & ->); try done; [lia..|]. cbn [mbind option_bind].
  set (o2 := o1 + s + 2) in *. unfold u16 in Hn.
  destruct (Z.leb_spec n 0); [by eexists _, _|]. rewrite rem2_even by lia.
  destruct (Z.even n) eqn:Hev; [|by eexists _, _].
  destruct (Z.ltb_spec (len body) (o2 + n)); [by eexists _, _|]. cbn [negb orb].
  destruct (take_chunk body n o2) as (suites & D5 & Ln & _); try done; [lia..|].
  destruct (Z.ltb_spec (len body) (o2 + n + 1)); [by eexists _, _|].
  destruct (take_u8 body (o2 + n)) as (cl & Hc & D6 & ->); try done; [lia..|]. cbn [mbind option_bind].
  set (o3 := o2 + n + 1) in *. unfold byte_wf in Hc.
  destruct (Z.leb_spec cl 0); [by eexists _, _|].
  destruct (Z.ltb_spec (len body) (o3 + cl)); [by eexists _, _|]. cbn [orb].
  destruct (take_chunk body cl o3) as (comp & D7 & Lc & _); try done; [lia..|].
  destruct (parse_extensions_sound body (o3 + cl) (mkHello v false false false false)) as (o & err & -> & HE);
    [lia|done|].
  eexists _, _; split; [done|]. intros E. destruct (HE E) as (oes & D8 & K & ->).
  exists [m1; m2; m3], (mkCH v rnd sid suites comp oes). split_and!; [done|
    split; simpl; rewrite ?Ls, ?Ln, ?Lc; unfold u16 in *; try done; try split; try done; lia| |].
  - unfold hello_msg, enc_hello. cbn [ch_version ch_random ch_session ch_suites ch_compression ch_exts].
    rewrite <-D8, Lc, Ls, Ln. cbn [app]. do 4 f_equal.
    by rewrite <-D7, <-D6, <-D5, <-D4, <-D3, <-D2, <-D1, <-D0.
  - by rewrite foldl_add_ext.
Qed.

Lemma parseClientHello_complete lens ch : len lens = 3 → hello_ok ch →
  parseClientHello (hello_msg lens ch) = Some (hello_info ch, None).
Proof.
  intros Hl [Hv Hr Hs [Hn Hev] Hc He]. destruct lens as [|m1 [|m2 [|m3 [|? ?]]]]; simpl in Hl; try lia.
  unfold hello_msg, parseClientHello. remember (enc_hello ch) as body eqn:Eb. cbn [app].
  destruct (Z.ltb_spec (len (tlsHandshakeTypeClientHello :: m1 :: m2 :: m3 :: body)) 4) as [L4|_];
    [simpl in L4; lia|].
  change (index _ 0) with (Some tlsHandshakeTypeClientHello). cbn [mbind option_bind orb].
  rewrite Z.eqb_refl. cbn [negb].
  rewrite slice_Some by (simpl; lia). rewrite sub_suffix by lia. cbn [mbind option_bind].
  change (drop (Z.to_nat 4) _) with body.
  assert (drop (Z.to_nat 0) body = enc_hello ch) as E by exact Eb. unfold enc_hello in E.
  apply cursor_u16 in E as (-> & E & L); [|lia|done]. cbn [mbind option_bind].
  rewrite !length_app in L. change (len [_]) with 1 in L. rewrite !length_be_bytes in L. simpl length in L.
  apply cursor_skip in E as (_ & E & _); [|lia|right; lia]. rewrite Hr in E. cbn [app] in E.
  replace (0 + 2 + 32) with (0 + (2 + 32)) in E by lia.
  destruct (Z.ltb_spec (len body) (2 + 32 + 1)); [lia|].
  apply cursor_u8 in E as (-> & E & _); [|lia]. cbn [mbind option_bind].
  destruct (Z.ltb_spec (len body) (0 + (2 + 32) + 1 + len (ch_session ch))); [lia|].
  apply cursor_skip in E as (_ & E & _); [|lia|right; lia].
  destruct (Z.ltb_spec (len body) (0 + (2 + 32) + 1 + len (ch_session ch) + 2)); [lia|].
  apply cursor_u16 in E as (-> & E & _); [|lia|unfold u16; lia]. cbn [mbind option_bind].
  rewrite rem2_even, Hev by lia. destruct (Z.leb_spec (len (ch_suites ch)) 0); [lia|]. cbn [orb negb].
  destruct (Z.ltb_spec (len body) (0 + (2 + 32) + 1 + len (ch_session ch) + 2 + len (ch_suites ch))); [lia|].
  apply cursor_skip in E as (_ & E & _); [|lia|right; lia]. cbn [app] in E.
  match goal with |- context [len body <? ?x] => destruct (Z.ltb_spec (len body) x); [lia|] end.
  apply cursor_u8 in E as (-> & E & _); [|lia]. cbn [mbind option_bind].
  destruct (Z.leb_spec (len (ch_compression ch)) 0); [lia|]. cbn [orb].
  match goal with |- context [len body <? ?x] => destruct (Z.ltb_spec (len body) x); [lia|] end.
  apply cursor_skip in E as (_ & E & _); [|lia|right; lia].
  rewrite (parse_extensions_complete _ _ _ (ch_exts ch)); [|lia|done|done]. by rewrite foldl_add_ext.
Qed.

(** ** Reading and replaying *)

(** A handshake record: type, version, length and content. *)
Definition enc_record (r : Z * list Z) : list Z :=
  tlsRecordTypeHandshake :: be_bytes 2 (fst r) ++ be_bytes 2 (len (snd r)) ++ snd r.

Section StrictLemmas.
Context {N : Type} `{!NetConn N, !NetConnLaws N}.

(** The connection [c'] is [c] after [d] was read from it. *)
Definition after_read (c c' : N) (d : list Z) : Prop :=
  nc_in c' = nc_in c ++ d ∧ nc_out c' = nc_out c.

Lemma after_read_trans c1 c2 c3 d e : after_read c1 c2 d → after_read c2 c3 e → after_read c1 c3 (d ++ e).
Proof. intros [E1 O1] [E2 O2]. split; [by rewrite E2, E1, <-app_assoc|congruence]. Qed.

Lemma after_deadline c c' d t : after_read c c' d → after_read c (nc_SetReadDeadline c' t) d.
Proof. intros [E1 O1]. destruct (nc_deadline_ok c' t) as [E2 O2]. split; congruence. Qed.

Lemma ReadFull_loop_spec fuel c need got err : len got ≤ need → bytes_wf got →
  need - len got < Z.of_nat fuel ∨ err ≠ None →
  ∃ c' d e, ReadFull_loop fuel c need got err = Some (c', got ++ d, e) ∧ after_read c c' d ∧
    bytes_wf (got ++ d) ∧ len (got ++ d) ≤ need ∧ (e = None → len (got ++ d) = need).
Proof.
  revert c got err. induction fuel as [|fuel IH]; intros c got err Hg Hwf Hf; cbn [ReadFull_loop].
  all: destruct ((len got <? need) && bool_decide (err = None)) eqn:B.
  2,4: eexists c, [], _; rewrite app_nil_r; split; [done|]; split_and!; try done;
       [split; [by rewrite app_nil_r|done]|]; destruct (Z.leb_spec need (len got)); [lia|];
       apply andb_false_iff in B as [B|B]; [lia|]; apply bool_decide_eq_false in B;
       destruct (_ && _); done.
  all: apply andb_true_iff in B as [B1 B2]; apply bool_decide_eq_true in B2; destruct Hf as [Hf|]; [|done].
  - lia.
  - pose proof (nc_read_ok c (need - len got)) as R.
    destruct (nc_read c (need - len got)) as [[c1 d] e]. destruct R as (Ri & Ro & Rw & Rl & Rn).
    destruct (IH c1 (got ++ d) e) as (c' & d' & e' & -> & A & W & L & F).
    + llia.
    + by apply bytes_wf_app.
    + destruct d; [right; apply Rn; [lia|done]|left; llia].
    + exists c', (d ++ d'), e'. rewrite app_assoc. split_and!; try done. by apply (after_read_trans _ c1).
Qed.

Lemma ReadFull_spec c need : 0 ≤ need →
  ∃ c' d e, ReadFull c need = Some (c', d, e) ∧ after_read c c' d ∧ bytes_wf d ∧
    len d ≤ need ∧ (e = None → len d = need).
Proof.
  intros. destruct (ReadFull_loop_spec (S (Z.to_nat need)) c need [] None) as (c' & d & e & ? & ? & ? & ? & ?);
    [simpl; lia|constructor|left; simpl; lia|]. by exists c', d, e.
Qed.

Lemma lor_bytes h1 h2 h3 : byte_wf h1 → byte_wf h2 → byte_wf h3 →
  Z.lor (Z.lor (Z.shiftl h1 16) (Z.shiftl h2 8)) h3 = be_word [h1; h2; h3].
Proof.
  unfold byte_wf. intros H1 H2 H3. unfold be_word. cbn [rev app le_word].
  replace (Z.shiftl h1 16) with (Z.shiftl (Z.shiftl h1 8) 8) by (by rewrite Z.shiftl_shiftl by lia).
  rewrite <-Z.shiftl_lor, !lor_shift_add by lia. lia.
Qed.

(** What the loop knows of the bytes of the handshake collected so far. *)
Definition msgLen_ok (hs : list Z) (msgLen : Z) : Prop :=
  (msgLen = -1 ∧ len hs < 4) ∨
  (0 < msgLen ≤ maxStrictClientHelloBytes ∧
   ∃ rest, hs = tlsHandshakeTypeClientHello :: be_bytes 3 msgLen ++ rest).

(** The records of [recordBuf] and their contents. *)
Definition collected (rs : list (Z * list Z)) (recordBuf hs : list Z) : Prop :=
  recordBuf = (rs ≫= enc_record) ∧ hs = (rs ≫= snd) ∧ bytes_wf hs.

(** What [readClientHelloRecords] returns after it read [d]. *)
Definition hello_post (d : list Z) (res : hello_result) : Prop :=
  let '(recordBuf, hello, _, err) := res in
  len d ≤ maxStrictClientHelloBytes + 5 + 65535 ∧
  (err = None →
     recordBuf = d ∧ len d ≤ maxStrictClientHelloBytes ∧
     ∃ rs hs n body, collected rs recordBuf hs ∧ hello `prefix_of` hs ∧
       hello = tlsHandshakeTypeClientHello :: be_bytes 3 n ++ body ∧ len body = n).

Lemma message_length_spec hs rec msgLen : msgLen_ok hs msgLen → bytes_wf (hs ++ rec) →
  ∃ ml err, message_length (hs ++ rec) msgLen = Some (ml, err) ∧ (err = None → msgLen_ok (hs ++ rec) ml).
Proof.
  intros Hm Hwf. unfold message_length. destruct Hm as [[-> Hl]|[Hm (rest & ->)]].
  - destruct (Z.leb_spec 4 (len (hs ++ rec))) as [L4|L4]; cbn [Z.ltb Z.compare andb].
    2: { eexists _, _; split; [done|]. left. lia. }
    destruct (hs ++ rec) as [|h0 [|h1 [|h2 [|h3 rest]]]]; simpl in L4; try lia.
    change (index _ 0) with (Some h0). change (index _ 1) with (Some h1).
    change (index _ 2) with (Some h2). change (index _ 3) with (Some h3). cbn [mbind option_bind].
    destruct (Z.eqb_spec h0 tlsHandshakeTypeClientHello) as [->|]; [|by eexists _, _]. cbn [negb].
    unfold bytes_wf in Hwf. rewrite !list.Forall_cons in Hwf. destruct Hwf as (_ & B1 & B2 & B3 & _).
    assert (be_bytes 3 (be_word [h1; h2; h3]) = [h1; h2; h3]) as EB
      by (apply (be_bytes_word [h1; h2; h3]); unfold bytes_wf; by rewrite !list.Forall_cons).
    rewrite lor_bytes by done. destruct (Z.leb_spec (be_word [h1; h2; h3]) 0); [by eexists _, _|].
    destruct (Z.ltb_spec maxStrictClientHelloBytes (be_word [h1; h2; h3])); [by eexists _, _|]. cbn [orb].
    eexists _, _; split; [done|]. intros _. right. split; [lia|]. exists rest.
    by rewrite EB.
  - destruct (Z.ltb_spec msgLen 0); [lia|]. cbn [andb]. eexists _, _; split; [done|]. intros _. right.
    split; [done|]. exists (rest ++ rec). cbn [app]. by rewrite <-app_assoc.
Qed.

(** A header read in full. *)
Lemma header_fields hdr : bytes_wf hdr → len hdr = 5 → ∃ typ vers recLen,
  index hdr 0 = Some typ ∧ Uint16 hdr 1 = Some vers ∧ Uint16 hdr 3 = Some recLen ∧ u16 recLen ∧
  hdr = typ :: be_bytes 2 vers ++ be_bytes 2 recLen.
Proof.
  intros W L. destruct (take_u8 hdr 0) as (t & _ & D0 & I0); try done; [lia|].
  destruct (take_u16 hdr (0 + 1)) as (v & _ & D1 & U1); try done; [lia|].
  destruct (take_u16 hdr (0 + 1 + 2)) as (n & Hn & D2 & U2); try done; [lia|].
  exists t, v, n. split_and!; try done. rewrite D1, D2 in D0. rewrite (drop_ge hdr (Z.to_nat (0 + 1 + 2 + 2))) in D0 by lia.
  by rewrite app_nil_r in D0.
Qed.

Lemma collected_snoc rs buf hs vers rec : collected rs buf hs → bytes_wf rec →
  collected (rs ++ [(vers, rec)]) (buf ++ (tlsRecordTypeHandshake :: be_bytes 2 vers ++ be_bytes 2 (len rec)) ++ rec)
    (hs ++ rec).
Proof.
  intros (-> & -> & W) Wr. split_and!.
  - rewrite bind_app. f_equal. cbn [mbind list_bind]. rewrite app_nil_r. unfold enc_record. cbn [fst snd app].
    by rewrite <-app_assoc.
  - rewrite bind_app. cbn [mbind list_bind snd]. by rewrite app_nil_r.
  - by apply bytes_wf_app.
Qed.

Lemma records_loop_spec fuel c0 c rs buf hs msgLen v : after_read c0 c buf → collected rs buf hs →
  msgLen_ok hs msgLen → len buf ≤ maxStrictClientHelloBytes →
  maxStrictClientHelloBytes - len buf < 6 * Z.of_nat fuel →
  ∃ c' d res, records_loop fuel c buf hs msgLen v = Some (c', res) ∧ after_read c0 c' d ∧ hello_post d res.
Proof.
  revert c rs buf hs msgLen v. induction fuel as [|fuel IH]; intros c rs buf hs msgLen v A Co Hm Hb Hf; [lia|].
  cbn [records_loop].
  assert (∀ c' d v' e, after_read c0 c' d → len d ≤ maxStrictClientHelloBytes + 5 + 65535 →
    ∃ c'' d' res, Some (c', ([], [], v', Some e)) = Some (c'', res) ∧ after_read c0 c'' d' ∧ hello_post d' res) as Err.
  { intros c' d v' e A' L. exists c', d, ([], [], v', Some e). done. }
  destruct (ReadFull_spec c 5) as (c1 & hdr & e1 & -> & A1 & W1 & L1 & F1); [lia|]. cbn [mbind option_bind].
  pose proof (after_read_trans _ _ _ _ _ A A1) as A01.
  destruct e1 as [e1|]; [eapply Err; [done|llia]|]. specialize (F1 eq_refl).
  destruct (header_fields hdr W1 F1) as (typ & vers & recLen & -> & -> & -> & HrL & Eh). cbn [mbind option_bind].
  unfold u16 in HrL. destruct (Z.leb_spec recLen 0); [eapply Err; [done|llia]|].
  destruct (ReadFull_spec c1 recLen) as (c2 & rec & e2 & -> & A2 & W2 & L2 & F2); [lia|]. cbn [mbind option_bind].
  pose proof (after_read_trans _ _ _ _ _ A01 A2) as A02. rewrite <-app_assoc in A02.
  destruct e2 as [e2|]; [eapply Err; [done|llia]|]. specialize (F2 eq_refl).
  destruct (Z.ltb_spec maxStrictClientHelloBytes (len (buf ++ hdr ++ rec))); [eapply Err; [done|llia]|].
  destruct (Z.eqb_spec typ tlsRecordTypeHandshake) as [->|]; [|eapply Err; [done|llia]]. cbn [negb].
  pose proof (collected_snoc rs buf hs vers rec Co W2) as Co'. rewrite F2, <-Eh in Co'.
  destruct (message_length_spec hs rec msgLen Hm (proj2 (proj2 Co'))) as (ml & err & -> & Hml). cbn [mbind option_bind].
  destruct err as [err|]; [eapply Err; [done|llia]|]. specialize (Hml eq_refl).
  destruct (Z.leb_spec 0 ml); cbn [andb]; [destruct (Z.leb_spec (4 + ml) (len (hs ++ rec)))|].
  2,3: apply (IH _ (rs ++ [(vers, rec)])); try done; llia.
  rewrite slice_Some by lia. cbn [mbind option_bind]. eexists _, _, _; split; [done|]. split; [done|].
  split; [llia|]. intros _. split; [done|]. split; [lia|]. destruct Hml as [[-> _]|[Hml (rest & Er)]]; [lia|].
  rewrite sub_prefix. exists (rs ++ [(vers, rec)]), (hs ++ rec), ml, (take (Z.to_nat ml) rest).
  assert (len (hs ++ rec) = 4 + len rest) as Lr
    by (rewrite Er; cbn [length]; rewrite length_app, length_be_bytes; lia).
  split_and!; [done|apply prefix_take| |llia].
  rewrite Er. replace (Z.to_nat (4 + ml)) with (S (3 + Z.to_nat ml)) by lia. cbn [take]. f_equal.
Qed.

Lemma readClientHelloRecords_spec c timeout :
  ∃ c' d res, readClientHelloRecords c timeout = Some (c', res) ∧ after_read c c' d ∧ hello_post d res.
Proof.
  unfold readClientHelloRecords. set (c1 := if 0 <? timeout then _ else c).
  assert (after_read c c1 []) as A1.
  { unfold c1. destruct (0 <? timeout); [apply after_deadline|]; split; by rewrite ?app_nil_r. }
  destruct (records_loop_spec records_fuel c c1 [] [] [] (-1) 0) as (c' & d & res & -> & A & Po).
  - done.
  - split_and!; [done..|constructor].
  - by left.
  - done.
  - unfold records_fuel. rewrite Z2Nat.id by done. reflexivity.
  - cbn [mbind option_bind]. eexists _, d, res; split; [done|]. split; [|done].
    by destruct (0 <? timeout); [apply after_deadline|].
Qed.

(** Reads through the [replayConn] with buffers of the given sizes: the bytes returned. *)
Fixpoint replay_reads (r : replayConn N) (ns : list Z) : replayConn N * list Z :=
  match ns with
  | [] => (r, [])
  | n :: ns =>
      let '(r, d, _) := replayConn_Read r n in
      let '(r, ds) := replay_reads r ns in (r, d ++ ds)
  end.

Lemma replay_reads_spec r ns : let '(r', d) := replay_reads r ns in
  ∃ more, nc_in (rc_conn r') = nc_in (rc_conn r) ++ more ∧ rc_preRead r ++ more = d ++ rc_preRead r'.
Proof.
  revert r. induction ns as [|n ns IH]; intros r; cbn [replay_reads].
  { exists []. by rewrite !app_nil_r. }
  unfold replayConn_Read. destruct (Z.ltb_spec 0 (len (rc_preRead r))) as [Hp|Hp].
  - specialize (IH (mkReplay (rc_conn r) (drop (length (take (Z.to_nat n) (rc_preRead r))) (rc_preRead r)))).
    destruct (replay_reads _ ns) as [r' ds]. destruct IH as (more & E1 & E2). exists more. split; [done|].
    cbn [rc_preRead] in E2. rewrite <-app_assoc, <-E2, app_assoc, length_take. f_equal.
    destruct (decide (Z.to_nat n ≤ length (rc_preRead r))%nat).
    + by rewrite Nat.min_l, take_drop by lia.
    + rewrite Nat.min_r, take_ge, drop_ge, app_nil_r by lia. done.
  - pose proof (nc_read_ok (rc_conn r) n) as R. destruct (nc_read (rc_conn r) n) as [[k d] e].
    destruct R as (Ri & _). assert (rc_preRead r = []) as Ep by (destruct (rc_preRead r); [done|simpl in Hp; lia]).
    specialize (IH (mkReplay k (rc_preRead r))). destruct (replay_reads _ ns) as [r' ds].
    destruct IH as (more & E1 & E2). cbn [rc_conn rc_preRead] in E1, E2. exists (d ++ more).
    rewrite E1, Ri, <-!app_assoc. split; [done|]. rewrite <-E2, Ep. done.
Qed.

(** An alert record of [sendFatalAlert], of which the peer gets a prefix. *)
Definition alerted (c c' : N) (desc : Z) : Prop :=
  ∃ v s, s `prefix_of` [tlsRecordTypeAlert; wrapU 8 (Z.shiftr v 8); wrapU 8 v; 0; 2; tlsAlertLevelFatal; desc] ∧
    VersionTLS10 ≤ v ≤ VersionTLS13 ∧ nc_out c' = nc_out c ++ s.

Lemma sendFatalAlert_spec c0 c v desc : nc_out c = nc_out c0 → alerted c0 (sendFatalAlert c v desc) desc.
Proof.
  intros Ho. unfold sendFatalAlert, alerted.
  set (v' := if (v <? VersionTLS10) || (VersionTLS13 <? v) then VersionTLS12 else v).
  match goal with |- context [nc_write c ?b] => pose proof (nc_write_ok c b) as W; destruct (nc_write c b) as [c' [n e]] end.
  destruct W as (_ & _ & Es). eexists v', _. split; [apply prefix_take|]. split; [|rewrite <-Ho; exact Es].
  unfold v', VersionTLS10, VersionTLS12, VersionTLS13 in *.
  destruct (Z.ltb_spec v 0x301), (Z.ltb_spec 0x304 v); cbn [orb]; lia.
Qed.

Definition precheck_alerts : list Z := [tlsAlertDecodeError; tlsAlertProtocolVersion; tlsAlertMissingExt].

Lemma refusal c0 c v desc : nc_out c = nc_out c0 → desc ∈ precheck_alerts →
  ∃ desc', desc' ∈ precheck_alerts ∧ alerted c0 (sendFatalAlert c v desc) desc'.
Proof. intros. exists desc. split; [done|]. by apply sendFatalAlert_spec. Qed.

Lemma maybeWrap_total timeout c cfg : is_Some (maybeWrapStrictTLS13ServerConn timeout c cfg).
Proof.
  unfold maybeWrapStrictTLS13ServerConn. destruct (shouldStrictTLS13Check cfg); [|by eexists]. cbn [negb].
  destruct (readClientHelloRecords_spec c timeout) as (c' & d & [[[buf hello] v] err] & -> & _ & _ & Po).
  cbn [mbind option_bind]. destruct err as [err|]; [by eexists|].
  destruct (Po eq_refl) as (_ & _ & rs & hs & n & body & (_ & _ & Wh) & [rest Hpre] & _ & _).
  destruct (parseClientHello_sound hello) as (o & err & -> & _).
  { rewrite Hpre in Wh. by apply bytes_wf_app in Wh as [? _]. }
  cbn [mbind option_bind]. destruct err; [by eexists|]. repeat case_match; by eexists.
Qed.

(** C33: the precheck returns on every connection and configuration.  Without a TLS 1.3
    only configuration it leaves the connection alone.  When it refuses, it has written
    nothing but (a prefix of) a fatal alert.  When it accepts, it has written nothing,
    what it read is a sequence of handshake records of bounded size that starts with a
    well-formed client hello of a version above SSL 3.0, with its key share and groups when
    it offers TLS 1.3, and whoever reads the [replayConn], in any sizes, gets exactly
    the bytes of the client, in order. *)
Theorem strict_precheck_transparent (timeout : Z) (c : N) (cfg : option tlsConfig) :
  ∃ w, maybeWrapStrictTLS13ServerConn timeout c cfg = Some w ∧
  match w with
  | WPlain c' => shouldStrictTLS13Check cfg = false ∧ c' = c
  | WError c' _ => shouldStrictTLS13Check cfg = true ∧
      ∃ desc, desc ∈ precheck_alerts ∧ alerted c c' desc
  | WReplay r => shouldStrictTLS13Check cfg = true ∧
      nc_out (rc_conn r) = nc_out c ∧ len (rc_preRead r) ≤ maxStrictClientHelloBytes ∧
      (∃ rs ch rest, rc_preRead r = (rs ≫= enc_record) ∧
         (rs ≫= snd) = hello_msg (be_bytes 3 (len (enc_hello ch))) ch ++ rest ∧ hello_ok ch ∧
         0x0300 < ch_version ch ∧
         (offersTLS13 (hello_info ch) = true → missing_extensions (hello_info ch) = false)) ∧
      ∀ ns, let '(r', d) := replay_reads r ns in
        nc_in (rc_conn r') = nc_in c ++ d ++ rc_preRead r'
  end.
Proof.
  unfold maybeWrapStrictTLS13ServerConn. destruct (shouldStrictTLS13Check cfg); [|by eexists]. cbn [negb].
  destruct (readClientHelloRecords_spec c timeout) as (c' & d & [[[buf hello] v] err] & -> & [Ai Ao] & Po).
  destruct Po as [_ Po]. cbn [mbind option_bind].
  destruct err as [err|].
  { eexists; split; [done|]. split; [done|]. apply refusal; [done|unfold precheck_alerts; rewrite !list.elem_of_cons; tauto]. }
  destruct (Po eq_refl) as (-> & Hlen & rs & hs & n & body & (Eb & Eh & Wh) & [rest Hpre] & Ehello & Hn).
  destruct (parseClientHello_sound hello) as (o & err & -> & Sound).
  { rewrite Hpre in Wh. by apply bytes_wf_app in Wh as [? _]. }
  cbn [mbind option_bind]. destruct err as [err|].
  { eexists; split; [done|]. split; [done|]. apply refusal; [done|unfold precheck_alerts; rewrite !list.elem_of_cons; tauto]. }
  destruct (Sound eq_refl) as (lens & ch & Hlens & Hch & Emsg & ->).
  destruct (Z.leb_spec (legacyVersion (hello_info ch)) 0x0300).
  { eexists; split; [done|]. split; [done|]. apply refusal; [done|unfold precheck_alerts; rewrite !list.elem_of_cons; tauto]. }
  destruct (offersTLS13 (hello_info ch) && missing_extensions (hello_info ch)) eqn:Hmiss.
  { eexists; split; [done|]. split; [done|]. apply refusal; [done|unfold precheck_alerts; rewrite !list.elem_of_cons; tauto]. }
  eexists; split; [done|]. cbn [rc_conn rc_preRead]. split_and!; try done.
  - exists rs, ch, rest. split_and!; try done.
    + rewrite <-Eh, Hpre, Emsg. f_equal. rewrite Emsg in Ehello. unfold hello_msg in *. apply (f_equal tail) in Ehello. cbn [tail] in Ehello.
      apply app_inj_1 in Ehello as [-> ->]; [by rewrite Hn|]. rewrite length_be_bytes. lia.
    + destruct (offersTLS13 _); [|done]. done.
  - intros ns. pose proof (replay_reads_spec (mkReplay c' d) ns) as R.
    destruct (replay_reads (mkReplay c' d) ns) as [r' ds]. destruct R as (more & E1 & E2).
    cbn [rc_conn rc_preRead] in E1, E2. by rewrite E1, Ai, <-app_assoc, E2.
Qed.

End StrictLemmas.

(** C34: [parseClientHello] never panics, accepts exactly the handshake messages of type
    client hello that are the encoding of a well-formed client hello, and reports
    of it the version, whether it offers TLS 1.3, and which of the three extensions it has. *)
Theorem parseClientHello_accepts_exactly (msg : list Z) : bytes_wf msg →
  ∃ o err, parseClientHello msg = Some (o, err) ∧
    (err = None ↔ ∃ lens ch, len lens = 3 ∧ hello_ok ch ∧ msg = hello_msg lens ch) ∧
    (∀ lens ch, len lens = 3 → hello_ok ch → msg = hello_msg lens ch → o = hello_info ch).
Proof.
  intros W. destruct (parseClientHello_sound msg W) as (o & err & E & S). exists o, err.
  split; [done|]. split; [split|].
  - intros En. destruct (S En) as (lens & ch & ? & ? & ? & _). by exists lens, ch.
  - intros (lens & ch & Hl & Hc & ->). rewrite parseClientHello_complete in E by done. by simplify_eq.
  - intros lens ch Hl Hc ->. rewrite parseClientHello_complete in E by done. by simplify_eq.
Qed.

(** ** A connection to run the precheck on *)

(** The peer's bytes, delivered at most [tn_chunk] at a time, then the end of the stream. *)
Record TestNet := mkTN { tn_input : list Z; tn_chunk : Z; tn_in : list Z; tn_out : list Z }.

Definition tn_read (c : TestNet) (n : Z) : TestNet * list Z * option errno :=
  let m := Z.to_nat (Z.min n (Z.max 1 (tn_chunk c))) in
  let d := (λ b, b mod 256) <$> take m (tn_input c) in
  (mkTN (drop m (tn_input c)) (tn_chunk c) (tn_in c ++ d) (tn_out c), d,
   match d with [] => Some EOF | _ => None end).

#[export] Instance TN_NetConn : NetConn TestNet := {|
  nc_read := tn_read;
  nc_write c b := (mkTN (tn_input c) (tn_chunk c) (tn_in c) (tn_out c ++ b), (len b, None));
  nc_SetReadDeadline c _ := c;
  nc_in := tn_in;
  nc_out := tn_out |}.

#[export] Instance TN_NetConnLaws : NetConnLaws TestNet.
Proof.
  split.
  - intros c n. unfold nc_read, nc_in, nc_out, TN_NetConn, tn_read. cbn [tn_in tn_out].
    set (m := Z.to_nat _). split_and!; try done.
    + apply Forall_fmap, Forall_true. intros b. by apply Z.mod_pos_bound.
    + rewrite length_fmap, length_take. lia.
    + intros Hn Hd. by rewrite Hd.
  - intros c b. split; [done|]. split; [lia|]. cbn [nc_out TN_NetConn tn_out]. by rewrite take_ge by lia.
  - done.
Qed.

Definition test_hello : ClientHello :=
  mkCH 0x0303 (replicate 32 7) [1; 2; 3] [0x13; 0x01] [0]
    (Some [(43, [2; 3; 4]); (10, [0; 2; 0; 29]); (13, [0; 2; 4; 3]); (51, [0; 0])]).

Definition test_hello_msg : list Z := hello_msg (be_bytes 3 (len (enc_hello test_hello))) test_hello.

(** The client hello in two records, and a third record behind it. *)
Definition test_records : list (Z * list Z) :=
  [(0x0301, take 20 test_hello_msg); (0x0303, drop 20 test_hello_msg)].
Definition test_net : TestNet := mkTN ((test_records ≫= enc_record) ++ [20; 3; 3; 0; 1; 1]) 7 [] [].
Definition test_cfg : option tlsConfig := Some (mkTlsConfig VersionTLS13 0).

Lemma test_hello_ok : hello_ok test_hello.
Proof.
  split; unfold u16; try done.
  intros es [= <-]. split; [done|]. split; [|done].
  rewrite !list.Forall_cons. unfold ext_wf, u16. cbn [fst snd]. split_and!; try done; by apply bytes_wfb.
Qed.

Example strict_precheck_accepts : ∃ r,
  maybeWrapStrictTLS13ServerConn 1 test_net test_cfg = Some (WReplay r) ∧
  rc_preRead r = (test_records ≫= enc_record) ∧ tn_input (rc_conn r) = [20; 3; 3; 0; 1; 1].
Proof. eexists. split; [vm_compute; reflexivity|]. by split; vm_compute. Qed.

(** A client hello without its key share is refused with missing_extension. *)
Example strict_precheck_refuses :
  let ch := mkCH 0x0303 (replicate 32 7) [] [0x13; 0x01] [0] (Some [(43, [2; 3; 4]); (10, [0; 2; 0; 29])]) in
  let c := mkTN (enc_record (0x0301, hello_msg (be_bytes 3 (len (enc_hello ch))) ch)) 1000 [] [] in
  match maybeWrapStrictTLS13ServerConn 1 c test_cfg with
  | Some (WError c' _) => tn_out c' = [21; 3; 1; 0; 2; 2; 109]
  | _ => False
  end.
Proof. vm_compute. reflexivity. Qed.

Lemma strict_precheck_transparent_witness : ∃ w, maybeWrapStrictTLS13ServerConn 1 test_net test_cfg = Some w ∧
  match w with
  | WReplay r => let '(r', d) := replay_reads r [3; 1000; 10] in
                 tn_in (rc_conn r') = d ++ rc_preRead r'
  | _ => True
  end.
Proof.
  destruct (strict_precheck_transparent 1 test_net test_cfg) as (w & E & H). exists w. split; [exact E|].
  destruct w as [c|r|c e]; [exact I| |exact I]. destruct H as (_ & _ & _ & _ & H). exact (H [3; 1000; 10]).
Defined.

Lemma parseClientHello_accepts_exactly_witness : bytes_wf test_hello_msg ∧
  parseClientHello test_hello_msg = Some (mkHello 0x0303 true true true false, None).
Proof.
  assert (bytes_wf test_hello_msg) as W by (apply bytes_wfb; vm_compute; reflexivity).
  split; [exact W|].
  destruct (parseClientHello_accepts_exactly test_hello_msg W) as (o & err & -> & [_ A] & I).
  rewrite (I _ test_hello (eq_refl : len (be_bytes 3 (len (enc_hello test_hello))) = 3) test_hello_ok eq_refl).
  rewrite A; [reflexivity|]. exists (be_bytes 3 (len (enc_hello test_hello))), test_hello.
  split; [reflexivity|]. split; [exact test_hello_ok|reflexivity].
Defined.
