(* ===== verification/TlsWorker.v ===== *)
(** * eventloop/tlsworker.go: the pool of TLS handshake goroutines

    [Submit] starts one goroutine per connection as long as the pool has room; the
    goroutine completes the handshake, hands the connection to the loop that
    accepted it or closes it, returns its place in the pool and ends.  The steps of
    the goroutines interleave arbitrarily with each other, with [Submit] and with
    [Stop]; each step is one critical section or one atomic operation of the code. *)

From S2P Require Import Prelude.

Definition defaultTLSHandshakePoolSize : Z := 128.
Definition defaultTLSHandshakePoolMinActive : Z := 8.

(** [loops] is the number of event loops, [wg] the counter of the [sync.WaitGroup]. *)
Record TLSHandshakeWorker := mkWorker {
  loops : Z; maxWorkers : Z; minWorkers : Z; workers : Z; idleWorkers : Z;
  pending : Z; stopping : bool; wg : Z }.

Definition NewTLSHandshakeWorker (maxWorkers loops : Z) : TLSHandshakeWorker :=
  let maxWorkers := if (maxWorkers <=? 0) || (defaultTLSHandshakePoolSize <? maxWorkers)
                    then defaultTLSHandshakePoolSize else maxWorkers in
  let minWorkers := defaultTLSHandshakePoolMinActive in
  let minWorkers := if maxWorkers <? minWorkers then maxWorkers else minWorkers in
  mkWorker loops maxWorkers minWorkers 0 0 0 false 0.

Definition set_pool (workers idle : Z) (w : TLSHandshakeWorker) : TLSHandshakeWorker :=
  mkWorker (loops w) (maxWorkers w) (minWorkers w) workers idle (pending w) (stopping w) (wg w).
Definition set_pending (n : Z) (w : TLSHandshakeWorker) : TLSHandshakeWorker :=
  mkWorker (loops w) (maxWorkers w) (minWorkers w) (workers w) (idleWorkers w) n (stopping w) (wg w).
Definition set_wg (n : Z) (w : TLSHandshakeWorker) : TLSHandshakeWorker :=
  mkWorker (loops w) (maxWorkers w) (minWorkers w) (workers w) (idleWorkers w) (pending w) (stopping w) n.

Definition Start (w : TLSHandshakeWorker) : TLSHandshakeWorker := set_pool (minWorkers w) (minWorkers w) w.

(** The critical section of [Stop]; [Stop] then waits for the counter [wg] to be 0. *)
Definition Stop (w : TLSHandshakeWorker) : TLSHandshakeWorker :=
  mkWorker (loops w) (maxWorkers w) (minWorkers w) (workers w) (idleWorkers w) (pending w) true (wg w).

(** A connection, with the loop that accepted it. *)
Record PendingConn := mkPending { pc_id : nat; AcceptLoopID : Z }.

Inductive submit_error := ErrNilConn | ErrStopped | ErrPoolFull.

(** [atomic.AddInt32] *)
Definition add32 (a b : Z) : Z := wrapS 32 (a + b).

(** [Submit]: the state after its critical section; with [None] for the error, it starts
    a goroutine for the connection. *)
Definition Submit (w : TLSHandshakeWorker) (c : option PendingConn) : TLSHandshakeWorker * option submit_error :=
  match c with
  | None => (w, Some ErrNilConn)
  | Some _ =>
      if stopping w then (w, Some ErrStopped)
      else
        let started w := (set_wg (wg w + 1) (set_pending (add32 (pending w) 1) w), None) in
        if 0 <? idleWorkers w then started (set_pool (workers w) (idleWorkers w - 1) w)
        else if workers w <? maxWorkers w then started (set_pool (workers w + 1) (idleWorkers w) w)
        else (w, Some ErrPoolFull)
  end.

Definition Pending (w : TLSHandshakeWorker) : Z := pending w.

Definition Stats (w : TLSHandshakeWorker) : Z * Z * Z * Z :=
  (pending w, maxWorkers w, workers w, idleWorkers w).

Definition recycleWorker (w : TLSHandshakeWorker) : TLSHandshakeWorker :=
  if stopping w then w
  else if idleWorkers w <? workers w then set_pool (workers w) (idleWorkers w + 1) w
  else w.

(** ** A goroutine of the pool *)

(** Where the goroutine is: in [CompleteServerHandshake]; about to call [AddClient];
    about to call [recycleWorker]; about to call [wg.Done]. *)
Inductive phase := Handshaking | Adding | Recycling | Finishing.

#[export] Instance phase_eq_dec : EqDecision phase.
Proof. solve_decision. Defined.

Inductive outcome := Added (c : PendingConn) | Closed (c : PendingConn).

Definition outcome_conn (o : outcome) : PendingConn := match o with Added c | Closed c => c end.

(** One step of the goroutine; [ok] is the result of the call it makes, the handshake or
    [AddClient].  The outer [None] is the panic of [w.loops] out of range.  The
    next phase is [None] when the goroutine ends. *)
Definition goroutine_step (w : TLSHandshakeWorker) (c : PendingConn) (p : phase) (ok : bool) :
    option (TLSHandshakeWorker * option phase * option outcome) :=
  match p with
  | Handshaking =>
      if ok then
        if (0 <=? AcceptLoopID c) && (AcceptLoopID c <? loops w)
        then Some (set_pending (add32 (pending w) (-1)) w, Some Adding, None)
        else None
      else Some (set_pending (add32 (pending w) (-1)) w, Some Recycling, Some (Closed c))
  | Adding => Some (w, Some Recycling, Some (if ok then Added c else Closed c))
  | Recycling => Some (recycleWorker w, Some Finishing, None)
  | Finishing => Some (set_wg (wg w - 1) w, None, None)
  end.

(** ** The pool with its goroutines *)

Record HandshakePool := mkPool {
  po_w : TLSHandshakeWorker;
  po_jobs : list (PendingConn * phase);
  po_taken : list PendingConn;      (* the connections for which [Submit] returned nil *)
  po_done : list outcome }.

Inductive action :=
| ASubmit (c : option PendingConn)
| AStep (i : nat) (ok : bool)
| AStop.

Definition remove_at {A} (i : nat) (l : list A) : list A := take i l ++ drop (S i) l.

Definition pool_step (s : HandshakePool) (a : action) : option HandshakePool :=
  let '(mkPool w jobs taken done) := s in
  match a with
  | ASubmit c =>
      match Submit w c, c with
      | (w, None), Some c => Some (mkPool w (jobs ++ [(c, Handshaking)]) (taken ++ [c]) done)
      | (w, _), _ => Some (mkPool w jobs taken done)
      end
  | AStep i ok =>
      match jobs !! i with
      | None => Some s
      | Some (c, p) =>
          '(w, next, o) ← goroutine_step w c p ok;
          Some (mkPool w
                  (match next with Some p => <[i := (c, p)]> jobs | None => remove_at i jobs end)
                  taken (done ++ option_list o))
      end
  | AStop => Some (mkPool (Stop w) jobs taken done)
  end.

Fixpoint pool_run (s : HandshakePool) (acts : list action) : option HandshakePool :=
  match acts with
  | [] => Some s
  | a :: acts => s ← pool_step s a; pool_run s acts
  end.

Definition new_pool (n k : Z) : HandshakePool := mkPool (Start (NewTLSHandshakeWorker n k)) [] [] [].

(** ** The invariant *)

Definition holds_place (j : PendingConn * phase) : Prop := snd j ≠ Finishing.
Definition unresolved (j : PendingConn * phase) : Prop := snd j = Handshaking ∨ snd j = Adding.
Definition handshaking (j : PendingConn * phase) : Prop := snd j = Handshaking.

#[export] Instance holds_place_dec j : Decision (holds_place j).
Proof. unfold holds_place. apply _. Defined.
#[export] Instance unresolved_dec j : Decision (unresolved j).
Proof. unfold unresolved. apply _. Defined.
#[export] Instance handshaking_dec j : Decision (handshaking j).
Proof. unfold handshaking. apply _. Defined.

(** The number of goroutines that hold a place in the pool. *)
Definition active (s : HandshakePool) : Z := len (filter holds_place (po_jobs s)).

Definition loop_ok (w : TLSHandshakeWorker) (c : PendingConn) : Prop := 0 ≤ AcceptLoopID c < loops w.

Record pool_inv (s : HandshakePool) : Prop := {
  pi_max : 0 < maxWorkers (po_w s) ≤ defaultTLSHandshakePoolSize;
  pi_workers : 0 ≤ idleWorkers (po_w s) ≤ workers (po_w s) ∧ workers (po_w s) ≤ maxWorkers (po_w s);
  pi_active : active s ≤ workers (po_w s) - idleWorkers (po_w s);
  pi_exact : stopping (po_w s) = false → active s = workers (po_w s) - idleWorkers (po_w s);
  pi_pending : pending (po_w s) = len (filter handshaking (po_jobs s));
  pi_wg : wg (po_w s) = len (po_jobs s);
  pi_taken : po_taken s ≡ₚ (fst <$> filter unresolved (po_jobs s)) ++ (outcome_conn <$> po_done s);
  pi_loops : Forall (λ j, loop_ok (po_w s) (fst j)) (po_jobs s);
}.

Definition action_ok (k : Z) (a : action) : Prop :=
  match a with ASubmit (Some c) => 0 ≤ AcceptLoopID c < k | _ => True end.

Lemma filter_handshaking_active (jobs : list (PendingConn * phase)) :
  (length (filter handshaking jobs) ≤ length (filter holds_place jobs))%nat.
Proof.
  induction jobs as [|[c p] jobs IH]; [done|]. rewrite !filter_cons. unfold handshaking, holds_place in *.
  cbn [snd]. repeat case_decide; subst; simpl; try done; lia.
Qed.

Lemma add32_small a b : -100000 ≤ a + b ≤ 100000 → add32 a b = a + b.
Proof. intros. unfold add32. apply wrapS_small; lia. Qed.

(** Counting after the goroutine at [i] moves from one phase to the next, or ends. *)
Ltac count_phase :=
  unfold active in *; cbn [po_w po_jobs po_done po_taken] in *;
  rewrite ?list.filter_app, ?filter_cons, ?filter_nil in *;
  repeat first [rewrite (decide_True (P := handshaking _)) in * by done
               |rewrite (decide_False (P := handshaking _)) in * by done
               |rewrite (decide_True (P := holds_place _)) in * by done
               |rewrite (decide_False (P := holds_place _)) in * by (let F := fresh in intros F; by apply F)
               |rewrite (decide_True (P := unresolved _)) in * by (first [by left|by right])
               |rewrite (decide_False (P := unresolved _)) in * by (intros [|]; done)];
  rewrite ?length_app in *; cbn [length] in *.

Lemma pending_small s : pool_inv s → 0 ≤ pending (po_w s) ≤ 128.
Proof.
  intros [M W A _ P _ _ _]. pose proof (filter_handshaking_active (po_jobs s)). unfold active in A.
  unfold defaultTLSHandshakePoolSize in M. lia.
Qed.

Lemma Submit_inv s c : pool_inv s → loop_ok (po_w s) c →
  ∃ s', pool_step s (ASubmit (Some c)) = Some s' ∧ pool_inv s' ∧ loops (po_w s') = loops (po_w s).
Proof.
  intros I Hc. pose proof (pending_small s I) as Hp. pose proof I as [M W A X P G T L].
  destruct s as [w jobs taken dn]. unfold pool_step, Submit. cbn [po_w po_jobs po_taken po_done] in *.
  destruct (stopping w) eqn:St; [by eexists|]. specialize (X eq_refl).
  destruct (Z.ltb_spec 0 (idleWorkers w)); [|destruct (Z.ltb_spec (workers w) (maxWorkers w)); [|by eexists]].
  all: eexists; split; [done|]; split; [|done]; split; cbn [po_w po_jobs po_taken po_done set_wg set_pending set_pool
         maxWorkers workers idleWorkers pending wg loops stopping]; count_phase; rewrite ?add32_small by lia; try lia.
  all: try (apply Forall_app; split; [done|]; by constructor).
  all: rewrite T, fmap_app; cbn; solve_Permutation.
Qed.

Lemma job_at (jobs : list (PendingConn * phase)) i c p : jobs !! i = Some (c, p) →
  ∃ l1 l2, jobs = l1 ++ (c, p) :: l2 ∧ remove_at i jobs = l1 ++ l2 ∧
           ∀ p', <[i := (c, p')]> jobs = l1 ++ (c, p') :: l2.
Proof.
  intros Hj. exists (take i jobs), (drop (S i) jobs). split; [by rewrite take_drop_middle|]. split; [done|].
  intros p'. apply insert_take_drop. by apply lookup_lt_Some in Hj.
Qed.

Lemma Step_inv s i ok : pool_inv s →
  ∃ s', pool_step s (AStep i ok) = Some s' ∧ pool_inv s' ∧ loops (po_w s') = loops (po_w s).
Proof.
  intros I. pose proof (pending_small s I) as Hp. pose proof I as [M W A X P G T L].
  destruct s as [w jobs taken dn]. unfold pool_step. cbn [po_w po_jobs po_taken po_done] in *.
  destruct (jobs !! i) as [[c p]|] eqn:Hj; [|by eexists].
  assert (loop_ok w c) as Hc by (by apply (Forall_lookup_1 _ _ _ _ L) in Hj). unfold loop_ok in Hc.
  destruct (job_at jobs i c p Hj) as (l1 & l2 & Ej & Er & Ei). clear Hj I.
  rewrite Ej in L. apply Forall_app in L as [L1 L2]. apply list.Forall_cons in L2 as [Lc L2].
  destruct p; unfold goroutine_step; [destruct ok; [zb|]|destruct ok| |]; cbn [mbind option_bind].
  5: unfold recycleWorker; destruct (stopping w) eqn:St; [|destruct (Z.ltb_spec (idleWorkers w) (workers w))].
  all: eexists; split; [reflexivity|]; split; [|done]; rewrite ?Ei, ?Er; clear Ei Er; subst jobs.
  all: split; cbn [po_w po_jobs po_taken po_done set_wg set_pending set_pool option_list
         maxWorkers workers idleWorkers pending wg loops stopping]; count_phase.
  all: rewrite ?add32_small by lia; try (intros; lia).
  all: try (intros Hs; first [congruence|specialize (X ltac:(congruence)); lia]).
  all: try (apply Forall_app; split; [done|]; by try constructor).
  all: rewrite T, ?fmap_app, ?app_nil_r; cbn; solve_Permutation.
Qed.

Lemma step_inv k s a : pool_inv s → loops (po_w s) = k → action_ok k a →
  ∃ s', pool_step s a = Some s' ∧ pool_inv s' ∧ loops (po_w s') = k.
Proof.
  intros I <- Ha. destruct a as [[c|]|i ok|].
  - by apply Submit_inv.
  - exists s. by destruct s.
  - by apply Step_inv.
  - destruct s as [w jobs taken dn]. eexists; split; [done|]. split; [|done].
    destruct I as [M W A X P G T L]. by split.
Qed.

Lemma run_inv k s acts : pool_inv s → loops (po_w s) = k → Forall (action_ok k) acts →
  ∃ s', pool_run s acts = Some s' ∧ pool_inv s' ∧ loops (po_w s') = k.
Proof.
  revert s. induction acts as [|a acts IH]; intros s I E F; [by exists s|]. apply list.Forall_cons in F as [Fa F].
  destruct (step_inv k s a I E Fa) as (s1 & Hs & I1 & E1). cbn [pool_run]. rewrite Hs. by apply IH.
Qed.

Lemma new_pool_inv n k : pool_inv (new_pool n k) ∧ loops (po_w (new_pool n k)) = k.
Proof.
  split; [|done]. unfold new_pool, Start, NewTLSHandshakeWorker, active.
  unfold defaultTLSHandshakePoolSize, defaultTLSHandshakePoolMinActive.
  destruct (Z.leb_spec n 0), (Z.ltb_spec 128 n); cbn [orb]; [lia| | |].
  all: try (split; try done; cbn; lia).
  destruct (Z.ltb_spec n 8); split; unfold active, defaultTLSHandshakePoolSize; try done; cbn; lia.
Qed.

(** C35: whatever the interleaving of [Submit], [Stop] and the steps of the goroutines,
    the pool never panics, never runs more than [maxWorkers] (at most 128) handshakes,
    its counters are exact, and [Submit] accepts a connection exactly when the pool is
    not stopping and a place is free. *)
Theorem tls_pool_bounded (n k : Z) (acts : list action) (c : PendingConn) : Forall (action_ok k) acts →
  ∃ s, pool_run (new_pool n k) acts = Some s ∧
    let w := po_w s in
    0 ≤ idleWorkers w ≤ workers w ∧ workers w ≤ maxWorkers w ≤ 128 ∧
    active s ≤ maxWorkers w ∧ (stopping w = false → workers w - idleWorkers w = active s) ∧
    Pending w = len (filter handshaking (po_jobs s)) ∧
    (snd (Submit w (Some c)) = None ↔ stopping w = false ∧ active s < maxWorkers w).
Proof.
  intros F. destruct (new_pool_inv n k) as [I0 E0].
  destruct (run_inv k _ acts I0 E0 F) as (s & R & I & _). exists s. split; [done|]. cbv zeta.
  destruct I as [M W A X P G T L]. unfold defaultTLSHandshakePoolSize in M. split_and!; try lia; try done.
  - intros Hs. specialize (X Hs). lia.
  - unfold Submit. destruct (stopping (po_w s)); [split; [done|intros [? _]; done]|]. specialize (X eq_refl).
    destruct (Z.ltb_spec 0 (idleWorkers (po_w s))); [split; [split; [done|lia]|done]|].
    destruct (Z.ltb_spec (workers (po_w s)) (maxWorkers (po_w s))); (split; [|try done; lia]); [|done].
    intros _. split; [done|]. lia.
Qed.

(** ** Every connection is resolved, and [Stop] returns *)


(** The steps that are left to the goroutines. *)
Definition phase_left (p : phase) : nat :=
  match p with Handshaking => 4 | Adding => 3 | Recycling => 2 | Finishing => 1 end.
Definition steps_left (s : HandshakePool) : nat := sum_list (phase_left ∘ snd <$> po_jobs s).

Lemma steps_left_app (l1 l2 : list (PendingConn * phase)) :
  sum_list (phase_left ∘ snd <$> l1 ++ l2) = (sum_list (phase_left ∘ snd <$> l1) + sum_list (phase_left ∘ snd <$> l2))%nat.
Proof. rewrite fmap_app. apply sum_list_with_app. Qed.

Lemma steps_left_cons c p (l : list (PendingConn * phase)) :
  sum_list (phase_left ∘ snd <$> (c, p) :: l) = (phase_left p + sum_list (phase_left ∘ snd <$> l))%nat.
Proof. done. Qed.

Lemma step_decreases s i ok s' : (i < length (po_jobs s))%nat → pool_step s (AStep i ok) = Some s' →
  (steps_left s' < steps_left s)%nat ∧ stopping (po_w s') = stopping (po_w s).
Proof.
  intros Hi E. destruct s as [w jobs taken dn]. unfold pool_step in E. cbn [po_jobs] in Hi.
  destruct (lookup_lt_is_Some_2 jobs i Hi) as [[c p] Hj]. rewrite Hj in E.
  destruct (job_at jobs i c p Hj) as (l1 & l2 & Ej & Er & Ei). unfold steps_left. cbn [po_jobs po_w].
  destruct p; unfold goroutine_step, recycleWorker in E;
    repeat case_match; simplify_eq/=; rewrite ?Ei, ?Er, !steps_left_app, !steps_left_cons;
    cbn [phase_left]; (split; [lia|done]).
Qed.

(** Once [Stop] has set its flag no connection is taken any more, every step of a
    goroutine makes the work that is left smaller, and a goroutine that has not ended can always
    take its step, however its handshake or [AddClient] turns out: the counter that
    [Stop] waits for reaches 0 after at most four steps per goroutine. *)
Theorem tls_pool_stop_terminates (n k : Z) (acts : list action) : Forall (action_ok k) acts →
  ∃ s, pool_run (new_pool n k) acts = Some s ∧
    (stopping (po_w s) = true → ∀ c, pool_step s (ASubmit c) = Some s) ∧
    (∀ i ok, (i < length (po_jobs s))%nat → ∃ s', pool_step s (AStep i ok) = Some s' ∧
       (steps_left s' < steps_left s)%nat ∧ stopping (po_w s') = stopping (po_w s)) ∧
    (steps_left s ≤ 4 * length (po_jobs s))%nat ∧
    (steps_left s = 0%nat ↔ wg (po_w s) = 0).
Proof.
  intros F. destruct (new_pool_inv n k) as [I0 E0].
  destruct (run_inv k _ acts I0 E0 F) as (s & R & I & _). exists s. split; [done|]. split_and!.
  - intros St c. destruct s as [w jobs taken dn]. unfold pool_step, Submit. cbn [po_w] in St.
    destruct c; [|done]. by rewrite St.
  - intros i ok Hi. destruct (Step_inv s i ok I) as (s' & Es & _ & _). exists s'. split; [done|].
    by apply (step_decreases s i ok).
  - unfold steps_left. induction (po_jobs s) as [|[c p] l IH]; [done|].
    rewrite steps_left_cons. cbn [length]. destruct p; cbn [phase_left]; lia.
  - rewrite (pi_wg s I). unfold steps_left. destruct (po_jobs s) as [|[c p] l]; [done|].
    rewrite steps_left_cons. cbn [length]. destruct p; cbn [phase_left]; split; lia.
Qed.

(** ** A run *)

Definition test_actions : list action :=
  let c i := mkPending i 1 in
  [ASubmit (Some (c 1%nat)); ASubmit (Some (c 2%nat)); ASubmit (Some (c 3%nat)); ASubmit None;
   AStep 1 true; AStep 0 false; AStep 1 true; AStep 0 true; AStep 0 true; AStop; ASubmit (Some (c 4%nat));
   AStep 0 true; AStep 0 true].

(** A pool of two places: the third connection is refused, the first fails its
    handshake and is closed, the second is handed over, [Stop] then waits for nothing. *)
Example tls_pool_run_test :
  (λ s, (wg (po_w s), po_done s, pc_id <$> po_taken s)) <$> pool_run (new_pool 2 4) test_actions
  = Some (0, [Closed (mkPending 1 1); Added (mkPending 2 1)], [1; 2]%nat).
Proof. vm_compute. reflexivity. Qed.

Lemma pool_actions_ok : Forall (action_ok 4) test_actions.
Proof. unfold test_actions. rewrite !list.Forall_cons. simpl. split_and!; try done; lia. Qed.

Lemma tls_pool_bounded_witness : ∃ s, pool_run (new_pool 2 4) test_actions = Some s ∧
  active s ≤ maxWorkers (po_w s) ≤ 128.
Proof.
  destruct (tls_pool_bounded 2 4 test_actions (mkPending 5 0) pool_actions_ok) as (s & E & _ & (_ & M) & A & _).
  exists s. split; [exact E|]. split; [exact A|exact M].
Defined.


Lemma tls_pool_stop_terminates_witness : ∃ s, pool_run (new_pool 2 4) test_actions = Some s ∧
  (steps_left s = 0%nat ↔ wg (po_w s) = 0).
Proof.
  destruct (tls_pool_stop_terminates 2 4 test_actions pool_actions_ok) as (s & E & _ & _ & _ & T).
  exists s. split; [exact E|exact T].
Defined.
