(* ===== verification/KtlsRecords.v ===== *)
(** * internal/ktls/linux.go: following the records of a handshake

    To hand a TLS connection to the kernel, the program watches the bytes of the
    handshake in both directions: [recordConn] feeds what it reads and writes to two
    [recordParser]s, which find the random values of the two hello messages and count
    the encrypted records. *)

From S2P Require Import Prelude Cipher Sha1 TlsStrict.

Definition recordTypeChangeCipherSpec : Z := 20.
Definition recordTypeHandshake : Z := 22.
Definition handshakeTypeClientHello : Z := 1.
Definition handshakeTypeServerHello : Z := 2.

Record recordParser := mkParser {
  rp_buf : list Z; rp_hs : list Z; rp_cipherOn : bool; rp_seq : Z;
  rp_gotClientRandom : bool; rp_gotServerRandom : bool;
  rp_clientRandom : list Z; rp_serverRandom : list Z }.

(** The zero value. *)
Definition newParser : recordParser := mkParser [] [] false 0 false false (make_bytes 32) (make_bytes 32).

Definition set_buf (p : recordParser) (b : list Z) : recordParser :=
  mkParser b (rp_hs p) (rp_cipherOn p) (rp_seq p) (rp_gotClientRandom p) (rp_gotServerRandom p)
    (rp_clientRandom p) (rp_serverRandom p).
Definition set_hs (p : recordParser) (b : list Z) : recordParser :=
  mkParser (rp_buf p) b (rp_cipherOn p) (rp_seq p) (rp_gotClientRandom p) (rp_gotServerRandom p)
    (rp_clientRandom p) (rp_serverRandom p).
Definition set_cipher (p : recordParser) (on : bool) (seq : Z) : recordParser :=
  mkParser (rp_buf p) (rp_hs p) on seq (rp_gotClientRandom p) (rp_gotServerRandom p)
    (rp_clientRandom p) (rp_serverRandom p).
Definition set_clientRandom (p : recordParser) (r : list Z) : recordParser :=
  mkParser (rp_buf p) (rp_hs p) (rp_cipherOn p) (rp_seq p) true (rp_gotServerRandom p) r (rp_serverRandom p).
Definition set_serverRandom (p : recordParser) (r : list Z) : recordParser :=
  mkParser (rp_buf p) (rp_hs p) (rp_cipherOn p) (rp_seq p) (rp_gotClientRandom p) true (rp_clientRandom p) r.

Definition handleHandshake (p : recordParser) (typ : Z) (body : list Z) : option recordParser :=
  if typ =? handshakeTypeClientHello then
    if rp_gotClientRandom p || (len body <? 34) then Some p
    else s ← slice body 2 34; r ← copy_at (rp_clientRandom p) 0 s; Some (set_clientRandom p r)
  else if typ =? handshakeTypeServerHello then
    if rp_gotServerRandom p || (len body <? 34) then Some p
    else s ← slice body 2 34; r ← copy_at (rp_serverRandom p) 0 s; Some (set_serverRandom p r)
  else Some p.

(** The loop of [handleRecord] over the complete messages of [hs]; a round takes at
    least four bytes. *)
Fixpoint messages_loop (fuel : nat) (p : recordParser) : option recordParser :=
  if 4 <=? len (rp_hs p) then
    match fuel with
    | O => None
    | S fuel =>
        hsType ← index (rp_hs p) 0;
        b1 ← index (rp_hs p) 1; b2 ← index (rp_hs p) 2; b3 ← index (rp_hs p) 3;
        let hsLen := Z.lor (Z.lor (Z.shiftl b1 16) (Z.shiftl b2 8)) b3 in
        if len (rp_hs p) <? 4 + hsLen then Some p
        else
          body ← slice (rp_hs p) 4 (4 + hsLen);
          p ← handleHandshake p hsType body;
          rest ← slice (rp_hs p) (4 + hsLen) (len (rp_hs p));
          messages_loop fuel (set_hs p rest)
    end
  else Some p.

Definition handleRecord (p : recordParser) (typ : Z) (payload : list Z) : option recordParser :=
  if typ =? recordTypeChangeCipherSpec then Some (set_cipher p true (rp_seq p))
  else if rp_cipherOn p then Some (set_cipher p (rp_cipherOn p) (wrapU 64 (rp_seq p + 1)))
  else if negb (typ =? recordTypeHandshake) then Some p
  else
    let p := set_hs p (rp_hs p ++ payload) in
    messages_loop (length (rp_hs p)) p.

(** The loop of [feed] over the complete records of [buf]; a round takes at least five bytes. *)
Fixpoint feed_loop (fuel : nat) (p : recordParser) : option recordParser :=
  if 5 <=? len (rp_buf p) then
    match fuel with
    | O => None
    | S fuel =>
        typ ← index (rp_buf p) 0;
        b3 ← index (rp_buf p) 3; b4 ← index (rp_buf p) 4;
        let length := Z.lor (Z.shiftl b3 8) b4 in
        if len (rp_buf p) <? 5 + length then Some p
        else
          payload ← slice (rp_buf p) 5 (5 + length);
          rest ← slice (rp_buf p) (5 + length) (len (rp_buf p));
          p ← handleRecord (set_buf p rest) typ payload;
          feed_loop fuel p
    end
  else Some p.

Definition feed (p : recordParser) (data : list Z) : option recordParser :=
  if len data =? 0 then Some p
  else
    let p := set_buf p (rp_buf p ++ data) in
    feed_loop (length (rp_buf p)) p.

(** ** [recordConn] *)

Section RecordConn.
Context {N : Type} `{!NetConn N}.

Record recordConn := mkRC { rc_Conn : N; rc_in : recordParser; rc_out : recordParser }.

Definition newRecordConn (conn : N) : recordConn := mkRC conn newParser newParser.

Definition recordConn_Read (c : recordConn) (n : Z) : option (recordConn * list Z * option errno) :=
  let '(k, d, e) := nc_read (rc_Conn c) n in
  p ← (if 0 <? len d then feed (rc_in c) d else Some (rc_in c));
  Some (mkRC k p (rc_out c), d, e).

Definition recordConn_Write (c : recordConn) (b : list Z) : option (recordConn * (Z * option errno)) :=
  let '(k, (n, e)) := nc_write (rc_Conn c) b in
  p ← (if 0 <? n then s ← slice b 0 n; feed (rc_out c) s else Some (rc_out c));
  Some (mkRC k (rc_in c) p, (n, e)).

(** [nil] is [None]. *)
Definition clientRandom (c : recordConn) : option (list Z) :=
  if rp_gotClientRandom (rc_in c) then Some (rp_clientRandom (rc_in c))
  else if rp_gotClientRandom (rc_out c) then Some (rp_clientRandom (rc_out c))
  else None.

Definition serverRandom (c : recordConn) : option (list Z) :=
  if rp_gotServerRandom (rc_in c) then Some (rp_serverRandom (rc_in c))
  else if rp_gotServerRandom (rc_out c) then Some (rp_serverRandom (rc_out c))
  else None.

Definition inSeq (c : recordConn) : Z := rp_seq (rc_in c).
Definition outSeq (c : recordConn) : Z := rp_seq (rc_out c).

End RecordConn.
Arguments recordConn : clear implicits.

(** ** Complete frames of a byte string

    Records and handshake messages are both frames: a header of [h] bytes that says how
    many bytes follow it. *)

Section Frames.
Variable h : nat.
Variable size : list Z → Z.
Hypothesis Hh : (0 < h)%nat.
Hypothesis size_header : ∀ l k, (h ≤ length l)%nat → size (l ++ k) = size l.
Hypothesis size_nonneg : ∀ l, bytes_wf l → 0 ≤ size l.

Definition complete (l : list Z) : bool := (Z.of_nat h <=? len l) && (Z.of_nat h + size l <=? len l).
Definition frame_len (l : list Z) : nat := (h + Z.to_nat (size l))%nat.

(** The complete frames at the front of [l], and what follows them. *)
Fixpoint frames_fuel (fuel : nat) (l : list Z) : list (list Z) * list Z :=
  match fuel with
  | O => ([], l)
  | S fuel =>
      if complete l then
        let '(fs, r) := frames_fuel fuel (drop (frame_len l) l) in (take (frame_len l) l :: fs, r)
      else ([], l)
  end.

Definition frames (l : list Z) : list (list Z) * list Z := frames_fuel (length l) l.

Lemma complete_len l : complete l = true → bytes_wf l → (0 < frame_len l ≤ length l)%nat.
Proof.
  unfold complete, frame_len. intros H W. pose proof (size_nonneg l W). apply andb_true_iff in H. lia.
Qed.

Lemma frames_fuel_enough f1 f2 l : bytes_wf l → (length l ≤ f1)%nat → (length l ≤ f2)%nat →
  frames_fuel f1 l = frames_fuel f2 l.
Proof.
  revert f2 l. induction f1 as [|f1 IH]; intros f2 l W H1 H2.
  - destruct l as [|? ?]; [|simpl in H1; lia]. destruct f2 as [|f2]; [done|].
    cbn [frames_fuel]. destruct (complete []) eqn:E; [|done]. apply complete_len in E; [simpl in E; lia|done].
  - cbn [frames_fuel]. destruct (complete l) eqn:E.
    + pose proof (complete_len l E W). destruct f2 as [|f2]; [lia|]. cbn [frames_fuel]. rewrite E.
      rewrite (IH f2); [done|by apply Forall_drop|rewrite length_drop; lia..].
    + destruct f2 as [|f2]; [done|]. cbn [frames_fuel]. by rewrite E.
Qed.

Lemma frames_stop l : complete l = false → frames l = ([], l).
Proof. intros E. unfold frames. destruct (length l); [done|]. cbn [frames_fuel]. by rewrite E. Qed.

Lemma frames_next l : complete l = true → bytes_wf l →
  frames l = (take (frame_len l) l :: fst (frames (drop (frame_len l) l)), snd (frames (drop (frame_len l) l))).
Proof.
  intros E W. pose proof (complete_len l E W). unfold frames at 1.
  rewrite (frames_fuel_enough (length l) (S (length l)) l) by (done || lia). cbn [frames_fuel]. rewrite E.
  assert (frames_fuel (length l) (drop (frame_len l) l) = frames (drop (frame_len l) l)) as ->.
  { apply frames_fuel_enough; [by apply Forall_drop|rewrite length_drop; lia..]. }
  by destruct (frames _).
Qed.

Lemma complete_app l k : complete l = true → bytes_wf l → complete (l ++ k) = true ∧ frame_len (l ++ k) = frame_len l.
Proof.
  intros E W. pose proof E as E'. unfold complete in E'. apply andb_true_iff in E' as [E1 E2].
  unfold complete, frame_len. rewrite size_header by lia. split; [|done]. rewrite length_app. blia.
Qed.

(** Cutting off the complete frames commutes with the arrival of more bytes. *)
Lemma frames_app l k : bytes_wf (l ++ k) →
  frames (l ++ k) = (fst (frames l) ++ fst (frames (snd (frames l) ++ k)), snd (frames (snd (frames l) ++ k))).
Proof.
  remember (length l) as n eqn:En. revert l En. induction n as [n IH] using (well_founded_induction lt_wf).
  intros l -> W. pose proof W as W'. apply bytes_wf_app in W' as [Wl Wk]. destruct (complete l) eqn:E.
  - pose proof (complete_len l E Wl) as Hl. destruct (complete_app l k E Wl) as [Ea El].
    rewrite (frames_next l E Wl), (frames_next (l ++ k) Ea W), El. cbn [fst snd].
    rewrite drop_app_le, take_app_le by lia.
    rewrite (IH (length (drop (frame_len l) l))); [done|rewrite length_drop; lia|done|].
    apply bytes_wf_app. split; [by apply Forall_drop|done].
  - rewrite (frames_stop l E). cbn [fst snd app]. by destruct (frames (l ++ k)).
Qed.

(** No complete frame is left over. *)
Lemma frames_rest l : bytes_wf l → complete (snd (frames l)) = false ∧ bytes_wf (snd (frames l)).
Proof.
  remember (length l) as n eqn:En. revert l En. induction n as [n IH] using (well_founded_induction lt_wf).
  intros l -> W. destruct (complete l) eqn:E; [|by rewrite frames_stop].
  rewrite frames_next by done. cbn [snd]. pose proof (complete_len l E W).
  apply (IH (length (drop (frame_len l) l))); [rewrite length_drop; lia|done|by apply Forall_drop].
Qed.

(** Frames written one after the other are found again. *)
Lemma frames_concat fs r : Forall (λ f, complete f = true ∧ frame_len f = length f ∧ bytes_wf f) fs →
  complete r = false → bytes_wf r → frames (concat fs ++ r) = (fs, r).
Proof.
  intros F Hr Wr. induction F as [|f fs (Ec & El & Wf) F IH]; cbn [concat app]; [by apply frames_stop|].
  assert (bytes_wf (concat fs ++ r)) as W.
  { apply bytes_wf_app. split; [|done]. clear -F. induction F as [|f fs (_ & _ & Wf) F IH]; [constructor|].
    cbn [concat]. by apply bytes_wf_app. }
  rewrite <-app_assoc. destruct (complete_app f (concat fs ++ r) Ec Wf) as [Ea El'].
  rewrite frames_next; [|done|by apply bytes_wf_app]. rewrite El', El, drop_app_length, take_app_length, IH. done.
Qed.

End Frames.

Definition rec_size (l : list Z) : Z := be_word (take 2 (drop 3 l)).
Definition msg_size (l : list Z) : Z := be_word (take 3 (drop 1 l)).

Lemma be_word_nonneg l : bytes_wf l → 0 ≤ be_word l.
Proof. intros W. unfold be_word. apply (le_word_bound (rev l)). by apply Forall_rev. Qed.

Lemma rec_size_header l k : (5 ≤ length l)%nat → rec_size (l ++ k) = rec_size l.
Proof. intros. unfold rec_size. rewrite drop_app_le, take_app_le by (rewrite ?length_drop; lia). done. Qed.
Lemma msg_size_header l k : (4 ≤ length l)%nat → msg_size (l ++ k) = msg_size l.
Proof. intros. unfold msg_size. rewrite drop_app_le, take_app_le by (rewrite ?length_drop; lia). done. Qed.
Lemma rec_size_nonneg l : bytes_wf l → 0 ≤ rec_size l.
Proof. intros. by apply be_word_nonneg, Forall_take, Forall_drop. Qed.
Lemma msg_size_nonneg l : bytes_wf l → 0 ≤ msg_size l.
Proof. intros. by apply be_word_nonneg, Forall_take, Forall_drop. Qed.

Abbreviation records := (frames 5 rec_size).
Abbreviation messages := (frames 4 msg_size).

Definition records_next := frames_next 5 rec_size ltac:(lia) rec_size_nonneg.
Definition messages_next := frames_next 4 msg_size ltac:(lia) msg_size_nonneg.
Definition records_app := frames_app 5 rec_size ltac:(lia) rec_size_header rec_size_nonneg.
Definition messages_app := frames_app 4 msg_size ltac:(lia) msg_size_header msg_size_nonneg.
Definition records_rest := frames_rest 5 rec_size ltac:(lia) rec_size_nonneg.
Definition messages_rest := frames_rest 4 msg_size ltac:(lia) msg_size_nonneg.

(** The effect of one handshake message and of one record, given as frames. *)
Definition step_message (p : recordParser) (m : list Z) : recordParser :=
  default p (handleHandshake p (hd 0 m) (drop 4 m)).
Definition step_record (p : recordParser) (f : list Z) : recordParser :=
  default p (handleRecord p (hd 0 f) (drop 5 f)).

(** ** The loops run over the frames *)

Lemma copy_at_0 {A} (l k : list A) : copy_at l 0 k = Some (blit l 0 k).
Proof. unfold copy_at. zb. done. Qed.

(** What a handshake message does, without the checks that cannot fail. *)
Definition greet (p : recordParser) (typ : Z) (body : list Z) : recordParser :=
  if (typ =? handshakeTypeClientHello) && negb (rp_gotClientRandom p) && (34 <=? len body)
  then set_clientRandom p (blit (rp_clientRandom p) 0 (sub body 2 34))
  else if (typ =? handshakeTypeServerHello) && negb (rp_gotServerRandom p) && (34 <=? len body)
  then set_serverRandom p (blit (rp_serverRandom p) 0 (sub body 2 34))
  else p.

Lemma handleHandshake_greet p typ body : handleHandshake p typ body = Some (greet p typ body).
Proof.
  unfold handleHandshake, greet. destruct (Z.eqb_spec typ handshakeTypeClientHello) as [->|].
  - destruct (rp_gotClientRandom p); [done|]. cbn [negb orb andb].
    destruct (Z.ltb_spec (len body) 34), (Z.leb_spec 34 (len body)); try lia; [done|].
    rewrite slice_Some by lia. cbn [mbind option_bind]. by rewrite copy_at_0.
  - cbn [andb]. destruct (Z.eqb_spec typ handshakeTypeServerHello) as [->|]; [|done].
    destruct (rp_gotServerRandom p); [done|]. cbn [negb orb andb].
    destruct (Z.ltb_spec (len body) 34), (Z.leb_spec 34 (len body)); try lia; [done|].
    rewrite slice_Some by lia. cbn [mbind option_bind]. by rewrite copy_at_0.
Qed.

Lemma step_message_greet p m : step_message p m = greet p (hd 0 m) (drop 4 m).
Proof. unfold step_message. by rewrite handleHandshake_greet. Qed.

Lemma greet_set_hs p s typ body : greet (set_hs p s) typ body = set_hs (greet p typ body) s.
Proof.
  unfold greet. change (rp_gotClientRandom (set_hs p s)) with (rp_gotClientRandom p).
  change (rp_gotServerRandom (set_hs p s)) with (rp_gotServerRandom p). by repeat (destruct (_ && _)).
Qed.

Lemma greet_set_buf p b typ body : greet (set_buf p b) typ body = set_buf (greet p typ body) b.
Proof.
  unfold greet. change (rp_gotClientRandom (set_buf p b)) with (rp_gotClientRandom p).
  change (rp_gotServerRandom (set_buf p b)) with (rp_gotServerRandom p). by repeat (destruct (_ && _)).
Qed.

Lemma fold_greet_set_hs ms p s : foldl step_message (set_hs p s) ms = set_hs (foldl step_message p ms) s.
Proof.
  revert p. induction ms as [|m ms IH]; intros p; cbn [foldl]; [done|].
  by rewrite !step_message_greet, greet_set_hs, IH.
Qed.

(** The bytes of a header that is there. *)
Lemma header_3 l : (4 ≤ length l)%nat → bytes_wf l → ∃ t b1 b2 b3,
  index l 0 = Some t ∧ index l 1 = Some b1 ∧ index l 2 = Some b2 ∧ index l 3 = Some b3 ∧ hd 0 l = t ∧
  Z.lor (Z.lor (Z.shiftl b1 16) (Z.shiftl b2 8)) b3 = msg_size l.
Proof.
  intros H W. destruct l as [|t [|b1 [|b2 [|b3 l]]]]; simpl in H; try lia. exists t, b1, b2, b3.
  split_and!; try done. unfold bytes_wf in W. rewrite !list.Forall_cons in W. destruct W as (_ & ? & ? & ? & _).
  by rewrite lor_bytes.
Qed.

Lemma frame_head (h : nat) (l : list Z) n : (0 < h)%nat → hd 0 (take (h + n) l) = hd 0 l.
Proof. destruct h; [lia|]. by destruct l. Qed.

Lemma frame_body (h : nat) (l : list Z) n : 0 ≤ n →
  drop h (take (h + Z.to_nat n) l) = sub l (Z.of_nat h) (Z.of_nat h + n).
Proof. intros. unfold sub. rewrite skipn_firstn_comm. f_equal; [lia|]. f_equal. lia. Qed.

Lemma messages_loop_frames fuel p : bytes_wf (rp_hs p) → (length (rp_hs p) ≤ fuel)%nat →
  messages_loop fuel p =
  Some (set_hs (foldl step_message p (fst (messages (rp_hs p)))) (snd (messages (rp_hs p)))).
Proof.
  revert p. induction fuel as [|fuel IH]; intros p W Hf; cbn [messages_loop].
  - destruct (rp_hs p) eqn:E; [|simpl in Hf; lia]. cbn. rewrite <-E. by destruct p.
  - destruct (Z.leb_spec 4 (len (rp_hs p))) as [L|L].
    2: { rewrite (frames_stop 4 msg_size); [by destruct p|]. unfold complete. apply andb_false_iff. left. blia. }
    destruct (header_3 (rp_hs p)) as (t & b1 & b2 & b3 & -> & -> & -> & -> & Et & Es); [lia|done|].
    cbn [mbind option_bind]. rewrite Es. pose proof (msg_size_nonneg _ W) as Hn.
    destruct (Z.ltb_spec (len (rp_hs p)) (4 + msg_size (rp_hs p))) as [Hs|Hs].
    { rewrite (frames_stop 4 msg_size); [by destruct p|]. unfold complete. apply andb_false_iff. right. blia. }
    rewrite slice_Some by lia. cbn [mbind option_bind]. rewrite handleHandshake_greet. cbn [mbind option_bind].
    assert (rp_hs (greet p t (sub (rp_hs p) 4 (4 + msg_size (rp_hs p)))) = rp_hs p) as Eh.
    { unfold greet. by repeat (destruct (_ && _)). }
    rewrite Eh, slice_Some by lia. cbn [mbind option_bind]. rewrite sub_suffix by lia.
    rewrite IH; cbn [set_hs rp_hs]; [|by apply Forall_drop|rewrite length_drop; lia].
    rewrite (messages_next (rp_hs p)) by (done || unfold complete; blia).
    cbn [fst snd foldl]. unfold frame_len. replace (Z.to_nat (4 + msg_size (rp_hs p)))
      with (4 + Z.to_nat (msg_size (rp_hs p)))%nat by lia.
    rewrite fold_greet_set_hs, step_message_greet.
    rewrite (frame_body 4 (rp_hs p) (msg_size (rp_hs p))), (frame_head 4 (rp_hs p)), Et by lia. done.
Qed.

Lemma fold_message_same ms p :
  rp_cipherOn (foldl step_message p ms) = rp_cipherOn p ∧ rp_seq (foldl step_message p ms) = rp_seq p.
Proof.
  revert p. induction ms as [|m ms IH]; intros p; cbn [foldl]; [done|]. destruct (IH (step_message p m)) as [-> ->].
  rewrite step_message_greet. unfold greet. by repeat (destruct (_ && _)).
Qed.

Lemma fold_message_set_buf ms p b : foldl step_message (set_buf p b) ms = set_buf (foldl step_message p ms) b.
Proof.
  revert p. induction ms as [|m ms IH]; intros p; cbn [foldl]; [done|].
  by rewrite !step_message_greet, greet_set_buf, IH.
Qed.

(** [handleRecord], as a total function. *)
Lemma handleRecord_total p typ payload : bytes_wf (rp_hs p) → bytes_wf payload →
  ∃ p', handleRecord p typ payload = Some p' ∧ bytes_wf (rp_hs p') ∧
    ∀ b, handleRecord (set_buf p b) typ payload = Some (set_buf p' b).
Proof.
  intros W Wp. unfold handleRecord. destruct (typ =? recordTypeChangeCipherSpec); [by eexists|].
  cbn [set_buf rp_cipherOn rp_hs]. destruct (rp_cipherOn p); [by eexists|].
  destruct (negb _); [by eexists|].
  assert (bytes_wf (rp_hs p ++ payload)) as W' by (by apply bytes_wf_app).
  rewrite messages_loop_frames by (cbn [set_hs rp_hs]; done || lia). cbn [set_hs rp_hs].
  eexists. split; [done|]. split; [apply messages_rest, W'|]. intros b.
  rewrite messages_loop_frames by (cbn [set_hs set_buf rp_hs]; done || lia). cbn [set_hs set_buf rp_hs].
  f_equal. exact (f_equal (λ q, set_hs q _) (fold_message_set_buf _ (set_hs p (rp_hs p ++ payload)) b)).
Qed.

Lemma step_record_total p f : bytes_wf (rp_hs p) → bytes_wf f →
  handleRecord p (hd 0 f) (drop 5 f) = Some (step_record p f) ∧ bytes_wf (rp_hs (step_record p f)) ∧
  ∀ b, step_record (set_buf p b) f = set_buf (step_record p f) b.
Proof.
  intros W Wf. destruct (handleRecord_total p (hd 0 f) (drop 5 f) W) as (p' & E & W' & Hb); [by apply Forall_drop|].
  unfold step_record. rewrite E. split_and!; [done..|]. intros b. by rewrite Hb.
Qed.

Lemma fold_record_set_buf fs p b : bytes_wf (rp_hs p) → Forall bytes_wf fs →
  foldl step_record (set_buf p b) fs = set_buf (foldl step_record p fs) b ∧ bytes_wf (rp_hs (foldl step_record p fs)).
Proof.
  intros W F. revert p W. induction F as [|f fs Wf F IH]; intros p W; cbn [foldl]; [done|].
  destruct (step_record_total p f W Wf) as (_ & W' & Hb). rewrite Hb. by apply IH.
Qed.

Lemma records_wf l : bytes_wf l → Forall bytes_wf (fst (records l)).
Proof.
  remember (length l) as n eqn:En. revert l En. induction n as [n IH] using (well_founded_induction lt_wf).
  intros l -> W. destruct (complete 5 rec_size l) eqn:E; [|by rewrite frames_stop].
  rewrite records_next by done. cbn [fst]. constructor; [by apply Forall_take|].
  pose proof (complete_len 5 rec_size ltac:(lia) rec_size_nonneg l E W).
  apply (IH (length (drop (frame_len 5 rec_size l) l))); [rewrite length_drop; lia|done|by apply Forall_drop].
Qed.

Lemma header_5 l : (5 ≤ length l)%nat → bytes_wf l → ∃ t b3 b4,
  index l 0 = Some t ∧ index l 3 = Some b3 ∧ index l 4 = Some b4 ∧ hd 0 l = t ∧
  Z.lor (Z.shiftl b3 8) b4 = rec_size l.
Proof.
  intros H W. destruct l as [|t [|b1 [|b2 [|b3 [|b4 l]]]]]; simpl in H; try lia. exists t, b3, b4.
  split_and!; try done. unfold bytes_wf in W. rewrite !list.Forall_cons in W. destruct W as (_ & _ & _ & B3 & B4 & _).
  unfold byte_wf in *. rewrite lor_shift_add by lia. unfold rec_size, be_word. simpl. lia.
Qed.

Lemma feed_loop_frames fuel p : bytes_wf (rp_buf p) → bytes_wf (rp_hs p) → (length (rp_buf p) ≤ fuel)%nat →
  feed_loop fuel p = Some (set_buf (foldl step_record p (fst (records (rp_buf p)))) (snd (records (rp_buf p)))).
Proof.
  revert p. induction fuel as [|fuel IH]; intros p W Wh Hf; cbn [feed_loop].
  - destruct (rp_buf p) eqn:E; [|simpl in Hf; lia]. cbn. rewrite <-E. by destruct p.
  - destruct (Z.leb_spec 5 (len (rp_buf p))) as [L|L].
    2: { rewrite (frames_stop 5 rec_size); [by destruct p|]. unfold complete. apply andb_false_iff. left. blia. }
    destruct (header_5 (rp_buf p)) as (t & b3 & b4 & -> & -> & -> & Et & Es); [lia|done|].
    cbn [mbind option_bind]. rewrite Es. pose proof (rec_size_nonneg _ W) as Hn.
    destruct (Z.ltb_spec (len (rp_buf p)) (5 + rec_size (rp_buf p))) as [Hs|Hs].
    { rewrite (frames_stop 5 rec_size); [by destruct p|]. unfold complete. apply andb_false_iff. right. blia. }
    rewrite !slice_Some by lia. cbn [mbind option_bind]. rewrite sub_suffix by lia.
    set (f := take (5 + Z.to_nat (rec_size (rp_buf p))) (rp_buf p)).
    assert (bytes_wf f) as Wf by (by apply Forall_take).
    destruct (step_record_total p f Wh Wf) as (Hh & W1 & Hb).
    assert (handleRecord (set_buf p (drop (Z.to_nat (5 + rec_size (rp_buf p))) (rp_buf p))) t
      (sub (rp_buf p) 5 (5 + rec_size (rp_buf p))) = Some (set_buf (step_record p f) (drop (Z.to_nat (5 + rec_size (rp_buf p))) (rp_buf p)))) as ->.
    { destruct (step_record_total (set_buf p (drop (Z.to_nat (5 + rec_size (rp_buf p))) (rp_buf p))) f Wh Wf) as (Hh' & _ & _).
      rewrite <-Hb, <-Hh'. unfold f. by rewrite (frame_body 5), (frame_head 5), Et by lia. }
    cbn [mbind option_bind]. rewrite IH; cbn [set_buf rp_buf rp_hs]; [|by apply Forall_drop|done|rewrite length_drop; lia].
    rewrite (records_next (rp_buf p)) by (done || unfold complete; blia).
    cbn [fst snd foldl]. unfold frame_len. replace (Z.to_nat (5 + rec_size (rp_buf p)))
      with (5 + Z.to_nat (rec_size (rp_buf p)))%nat by lia. fold f.
    f_equal. destruct (fold_record_set_buf (fst (records (drop (5 + Z.to_nat (rec_size (rp_buf p))) (rp_buf p))))
      (step_record p f) (drop (5 + Z.to_nat (rec_size (rp_buf p))) (rp_buf p)) W1) as [E _];
      [by apply records_wf, Forall_drop|].
    exact (f_equal (λ q, set_buf q _) E).
Qed.

(** ** The parser as a function of the bytes seen *)

(** The state after the bytes [s]. *)
Definition parsed (s : list Z) : recordParser :=
  set_buf (foldl step_record newParser (fst (records s))) (snd (records s)).

Lemma parsed_wf s : bytes_wf s → bytes_wf (rp_hs (parsed s)) ∧ bytes_wf (rp_buf (parsed s)).
Proof.
  intros W. split.
  - apply (fold_record_set_buf (fst (records s)) newParser []); [constructor|by apply records_wf].
  - by apply records_rest.
Qed.

Lemma feed_parsed s d : bytes_wf (s ++ d) → feed (parsed s) d = Some (parsed (s ++ d)).
Proof.
  intros W. pose proof W as W'. apply bytes_wf_app in W' as [Ws Wd]. unfold feed. destruct d as [|b d].
  { by rewrite (app_nil_r s). }
  destruct (parsed_wf s Ws) as [Wh Wb].
  replace (len (b :: d) =? 0) with false by (symmetry; apply Z.eqb_neq; simpl; lia).
  rewrite feed_loop_frames; cbn [set_buf rp_buf rp_hs]; [|by apply bytes_wf_app|done|lia].
  f_equal. change (rp_buf (parsed s)) with (snd (records s)).
  assert (parsed (s ++ b :: d) = set_buf (foldl step_record (foldl step_record newParser (fst (records s)))
    (fst (records (snd (records s) ++ b :: d)))) (snd (records (snd (records s) ++ b :: d)))) as ->.
  { unfold parsed. rewrite (records_app s (b :: d)) by done; cbn [fst snd]; rewrite foldl_app; done. }
  assert (bytes_wf (rp_hs (foldl step_record newParser (fst (records s))))) as Wf by exact Wh.
  destruct (fold_record_set_buf (fst (records (snd (records s) ++ b :: d))) (foldl step_record newParser (fst (records s)))
    (snd (records s) ++ b :: d) Wf) as [E _].
  { apply records_wf, bytes_wf_app. split; [apply records_rest, Ws|done]. }
  exact (f_equal (λ q, set_buf q _) E).
Qed.

(** Feeding the chunks one after the other. *)
Fixpoint feeds (p : recordParser) (chunks : list (list Z)) : option recordParser :=
  match chunks with
  | [] => Some p
  | d :: chunks => p ← feed p d; feeds p chunks
  end.

Lemma feeds_parsed s chunks : bytes_wf (s ++ concat chunks) → feeds (parsed s) chunks = Some (parsed (s ++ concat chunks)).
Proof.
  revert s. induction chunks as [|d chunks IH]; intros s W; cbn [feeds concat]; [by rewrite app_nil_r|].
  cbn [concat] in W. rewrite app_assoc in W. pose proof W as W'. apply bytes_wf_app in W' as [Wd _].
  rewrite feed_parsed by done. cbn [mbind option_bind]. by rewrite IH, <-app_assoc.
Qed.

(** ** What the parser knows *)

Definition is_ccs (f : list Z) : bool := hd 0 f =? recordTypeChangeCipherSpec.
Definition is_hs (f : list Z) : bool := hd 0 f =? recordTypeHandshake.

(** The records before the first change_cipher_spec, and those from it on. *)
Fixpoint plain_part (fs : list (list Z)) : list (list Z) :=
  match fs with f :: fs => if is_ccs f then [] else f :: plain_part fs | [] => [] end.
Fixpoint cipher_part (fs : list (list Z)) : list (list Z) :=
  match fs with f :: fs => if is_ccs f then f :: fs else cipher_part fs | [] => [] end.

Definition sealed (fs : list (list Z)) : list (list Z) := List.filter (λ f, negb (is_ccs f)) (cipher_part fs).

(** The handshake messages sent in the clear. *)
Definition clear_handshake (fs : list (list Z)) : list Z := List.filter is_hs (plain_part fs) ≫= drop 5.
Definition clear_messages (fs : list (list Z)) : list (list Z) := fst (messages (clear_handshake fs)).

(** The random value of the first hello of the given type. *)
Fixpoint hello_random (typ : Z) (ms : list (list Z)) : option (list Z) :=
  match ms with
  | [] => None
  | m :: ms => if (hd 0 m =? typ) && (38 <=? len m) then Some (sub m 6 38) else hello_random typ ms
  end.

Definition known_client (p : recordParser) : option (list Z) :=
  if rp_gotClientRandom p then Some (rp_clientRandom p) else None.
Definition known_server (p : recordParser) : option (list Z) :=
  if rp_gotServerRandom p then Some (rp_serverRandom p) else None.

Definition randoms_wf (p : recordParser) : Prop :=
  length (rp_clientRandom p) = 32%nat ∧ length (rp_serverRandom p) = 32%nat.

Lemma greet_known p m : randoms_wf p →
  let p' := greet p (hd 0 m) (drop 4 m) in
  randoms_wf p' ∧
  known_client p' = match known_client p with Some r => Some r | None => hello_random handshakeTypeClientHello [m] end ∧
  known_server p' = match known_server p with Some r => Some r | None => hello_random handshakeTypeServerHello [m] end.
Proof.
  intros [H1 H2]. unfold greet, known_client, known_server, hello_random, randoms_wf. cbv zeta.
  assert (∀ r : list Z, length r = 32%nat → 34 ≤ len (drop 4 m) →
    blit r 0 (sub (drop 4 m) 2 34) = sub m 6 38 ∧ length (sub m 6 38) = 32%nat) as Hb.
  { intros r Hr Hm. assert (sub (drop 4 m) 2 34 = sub m 6 38) as -> by (unfold sub; by rewrite drop_drop).
    rewrite length_drop in Hm. assert (len (sub m 6 38) = 32) as L by (rewrite length_sub; lia).
    split; [|lia]. rewrite blit_front by lia. rewrite drop_ge, app_nil_r by lia. done. }
  replace (34 <=? len (drop 4 m)) with (38 <=? len m) by (rewrite length_drop;
    destruct (Z.leb_spec 38 (len m)), (Z.leb_spec 34 (Z.of_nat (length m - 4))); try done; lia).
  destruct (Z.eqb_spec (hd 0 m) handshakeTypeClientHello) as [->|]; [|destruct (Z.eqb_spec (hd 0 m) handshakeTypeServerHello) as [E2|E2]].
  all: cbn [andb]; destruct (Z.leb_spec 38 (len m)); rewrite ?andb_true_r, ?andb_false_r.
  all: try (by destruct (rp_gotClientRandom p), (rp_gotServerRandom p)).
  - destruct (rp_gotClientRandom p) eqn:E; cbn [negb andb]; [change (handshakeTypeClientHello =? handshakeTypeServerHello) with false; cbn [andb]; rewrite E; by destruct (rp_gotServerRandom p)|].
    destruct (Hb (rp_clientRandom p) H1) as [Eb Lb]; [rewrite length_drop; lia|]. rewrite Eb.
    change (handshakeTypeClientHello =? handshakeTypeServerHello) with false. cbn. split_and!; try done. by destruct (rp_gotServerRandom p).
  - destruct (rp_gotServerRandom p) eqn:E; cbn [negb andb]; [rewrite E; by destruct (rp_gotClientRandom p)|].
    destruct (Hb (rp_serverRandom p) H2) as [Eb Lb]; [rewrite length_drop; lia|]. rewrite Eb.
    cbn. split_and!; try done. by destruct (rp_gotClientRandom p).
Qed.

Definition or_else {A} (o o' : option A) : option A := match o with Some x => Some x | None => o' end.

Lemma hello_random_app t a b : hello_random t (a ++ b) = or_else (hello_random t a) (hello_random t b).
Proof. induction a as [|m a IH]; [done|]. cbn [app hello_random]. by destruct (_ && _). Qed.

Lemma fold_greet_known ms p : randoms_wf p →
  randoms_wf (foldl step_message p ms) ∧
  known_client (foldl step_message p ms) = or_else (known_client p) (hello_random handshakeTypeClientHello ms) ∧
  known_server (foldl step_message p ms) = or_else (known_server p) (hello_random handshakeTypeServerHello ms).
Proof.
  revert p. induction ms as [|m ms IH]; intros p W; cbn [foldl].
  { unfold or_else. by destruct (known_client p), (known_server p). }
  rewrite step_message_greet. destruct (greet_known p m W) as (W1 & Ec & Es). cbv zeta in *.
  destruct (IH _ W1) as (W2 & Ec2 & Es2). split; [done|].
  rewrite Ec2, Es2, Ec, Es, !(hello_random_app _ [m] ms : hello_random _ (m :: ms) = _).
  unfold or_else. by destruct (known_client p), (known_server p).
Qed.

Lemma parts_snoc fs f :
  plain_part (fs ++ [f]) = (if existsb is_ccs fs || is_ccs f then plain_part fs else plain_part fs ++ [f]) ∧
  cipher_part (fs ++ [f]) = (if existsb is_ccs fs || is_ccs f then cipher_part fs ++ [f] else cipher_part fs).
Proof.
  induction fs as [|g fs [IH1 IH2]]; cbn [app plain_part cipher_part existsb orb].
  - by destruct (is_ccs f).
  - destruct (is_ccs g); [done|]. cbn [orb]. rewrite IH1, IH2. by destruct (_ || _).
Qed.

Lemma cipher_part_nil fs : existsb is_ccs fs = false → cipher_part fs = [].
Proof.
  induction fs as [|f fs IH]; cbn [existsb cipher_part]; [done|]. destruct (is_ccs f); [done|]. exact IH.
Qed.

(** What the parser knows after the records [fs]. *)
Record tracks (fs : list (list Z)) (p : recordParser) : Prop := {
  tr_on : rp_cipherOn p = existsb is_ccs fs;
  tr_seq : rp_seq p = wrapU 64 (len (sealed fs));
  tr_hs : rp_hs p = snd (messages (clear_handshake fs));
  tr_randoms : randoms_wf p;
  tr_client : known_client p = hello_random handshakeTypeClientHello (clear_messages fs);
  tr_server : known_server p = hello_random handshakeTypeServerHello (clear_messages fs);
}.

Lemma clear_handshake_wf fs : Forall bytes_wf fs → bytes_wf (clear_handshake fs).
Proof.
  intros F. unfold clear_handshake. induction F as [|f fs Wf F IH]; cbn [plain_part]; [constructor|].
  destruct (is_ccs f); [constructor|]. cbn [List.filter]. destruct (is_hs f); [|done].
  cbn [mbind list_bind]. apply bytes_wf_app. split; [by apply Forall_drop|done].
Qed.

Lemma tracks_snoc fs f p : tracks fs p → Forall bytes_wf fs → bytes_wf f → tracks (fs ++ [f]) (step_record p f).
Proof.
  intros [On Sq Hs R Cl Se] F Wf. destruct (parts_snoc fs f) as [Pp Cp].
  assert (existsb is_ccs (fs ++ [f]) = existsb is_ccs fs || is_ccs f) as Ex
    by (rewrite existsb_app; cbn [existsb]; by rewrite orb_false_r).
  unfold step_record, handleRecord, from_option, id. fold (is_ccs f). fold (is_hs f). destruct (is_ccs f) eqn:Ef.
  { rewrite orb_true_r in Pp, Cp, Ex.
    split; unfold clear_messages, clear_handshake, sealed in *; rewrite ?Pp; try done.
    cbn [set_cipher rp_seq]. by rewrite Cp, List.filter_app, Sq; cbn [List.filter]; rewrite Ef, app_nil_r. }
  rewrite orb_false_r in Pp, Cp, Ex. rewrite On. destruct (existsb is_ccs fs) eqn:On'.
  { split; unfold clear_messages, clear_handshake, sealed in *; rewrite ?Pp; try done.
    cbn [set_cipher rp_seq]. rewrite Cp, List.filter_app, Sq. cbn [List.filter]. rewrite Ef. cbn [negb].
    rewrite length_app. unfold wrapU. rewrite Zplus_mod_idemp_l. f_equal. cbn [length]. lia. }
  assert (sealed (fs ++ [f]) = sealed fs) as Hsl by (unfold sealed; by rewrite Cp).
  destruct (is_hs f) eqn:Eh; cbn [negb].
  2: { assert (clear_handshake (fs ++ [f]) = clear_handshake fs) as Ec.
       { unfold clear_handshake. rewrite Pp, List.filter_app. cbn [List.filter]. by rewrite Eh, app_nil_r. }
       split; unfold clear_messages in *; rewrite ?Ec, ?Hsl, ?Ex; done. }
  assert (clear_handshake (fs ++ [f]) = clear_handshake fs ++ drop 5 f) as Ec.
  { unfold clear_handshake. rewrite Pp, List.filter_app. cbn [List.filter]. rewrite Eh, bind_app. cbn [mbind list_bind].
    by rewrite app_nil_r. }
  pose proof (clear_handshake_wf fs F) as Wc.
  assert (bytes_wf (clear_handshake fs ++ drop 5 f)) as Wcf by (apply bytes_wf_app; split; [done|by apply Forall_drop]).
  rewrite messages_loop_frames; cbn [set_hs rp_hs]; [|rewrite Hs; apply bytes_wf_app; split;
    [by apply messages_rest|by apply Forall_drop]|lia].
  change (mkParser (rp_buf p) ?x _ _ _ _ _ _) with (set_hs p x). rewrite fold_greet_set_hs. rewrite Hs.
  destruct (fold_greet_known (fst (messages (snd (messages (clear_handshake fs)) ++ drop 5 f))) p R) as (R' & Cl' & Se').
  split; unfold clear_messages in *; rewrite ?Ec, ?Hsl, ?Ex, ?(messages_app _ _ Wcf); cbn [fst snd]; try done.
  1,2: destruct (fold_message_same (fst (messages (snd (messages (clear_handshake fs)) ++ drop 5 f))) p) as [E1 E2];
    cbn [set_hs rp_cipherOn rp_seq]; congruence.
  all: rewrite hello_random_app, <-?Cl, <-?Se; done.
Qed.

Lemma tracks_records fs : Forall bytes_wf fs → tracks fs (foldl step_record newParser fs).
Proof.
  induction fs as [|f fs IH] using rev_ind; intros F; [by split|].
  apply Forall_app in F as [F Ff]. apply list.Forall_cons in Ff as [Wf _].
  rewrite foldl_app. cbn [foldl]. apply tracks_snoc; [by apply IH|done..].
Qed.

(** the record parser does not depend on how the stream is cut: fed with any
    chunks, it never fails and ends in the state it has after their concatenation. *)
Theorem record_parser_chunk_independent (chunks : list (list Z)) : bytes_wf (concat chunks) →
  ∃ p, feeds newParser chunks = Some p ∧ feed newParser (concat chunks) = Some p ∧
       complete 5 rec_size (rp_buf p) = false.
Proof.
  intros W. exists (parsed (concat chunks)). split_and!.
  - exact (feeds_parsed [] chunks W).
  - exact (feed_parsed [] (concat chunks) W).
  - apply (records_rest (concat chunks) W).
Qed.

(** After any chunks of a stream the parser knows of it: whether encryption was
    switched on, the number of encrypted records since (as a uint64), and the random
    values of the first client hello and the first server hello among the handshake
    messages sent in the clear, which may span records. *)
Theorem record_parser_tracks_handshake (chunks : list (list Z)) : bytes_wf (concat chunks) →
  let fs := fst (records (concat chunks)) in
  ∃ p, feeds newParser chunks = Some p ∧
    rp_cipherOn p = existsb is_ccs fs ∧
    rp_seq p = wrapU 64 (len (sealed fs)) ∧
    known_client p = hello_random handshakeTypeClientHello (clear_messages fs) ∧
    known_server p = hello_random handshakeTypeServerHello (clear_messages fs).
Proof.
  intros W. exists (parsed (concat chunks)). split; [exact (feeds_parsed [] chunks W)|].
  destruct (tracks_records (fst (records (concat chunks)))) as [On Sq _ _ Cl Se]; [by apply records_wf|].
  split_and!; done.
Qed.

(** ** Examples *)

(** A client hello in two records of which the second also starts the next message, then
    change_cipher_spec and two encrypted records, the last one incomplete. *)
Definition test_stream : list Z :=
  let hello := test_hello_msg in
  [22; 3; 1; 0; 10] ++ take 10 hello
  ++ [22; 3; 1; 0; len hello - 10 + 3] ++ drop 10 hello ++ [11; 0; 0]
  ++ [20; 3; 3; 0; 1; 1] ++ [23; 3; 3; 0; 2; 9; 9] ++ [23; 3; 3; 0; 9; 1].

Definition test_chunks : list (list Z) := [take 3 test_stream; take 40 (drop 3 test_stream); drop 43 test_stream].

Example record_parser_test :
  (λ p, (rp_cipherOn p, rp_seq p, known_client p, rp_buf p, rp_hs p)) <$> feeds newParser test_chunks
  = Some (true, 1, Some (replicate 32 7), [23; 3; 3; 0; 9; 1], [11; 0; 0]).
Proof. vm_compute. reflexivity. Qed.

Lemma test_chunks_wf : bytes_wf (concat test_chunks).
Proof. apply bytes_wfb. vm_compute. reflexivity. Qed.

Lemma record_parser_chunk_independent_witness : ∃ p,
  feeds newParser test_chunks = Some p ∧ feed newParser (concat test_chunks) = Some p.
Proof.
  destruct (record_parser_chunk_independent test_chunks test_chunks_wf) as (p & E & F & _).
  exists p. split; [exact E|exact F].
Defined.

Lemma record_parser_tracks_handshake_witness : ∃ p,
  feeds newParser test_chunks = Some p ∧ known_client p = Some (replicate 32 7).
Proof.
  destruct (record_parser_tracks_handshake test_chunks test_chunks_wf) as (p & E & _ & _ & C & _).
  exists p. split; [exact E|]. rewrite C. vm_compute. reflexivity.
Defined.
