(* ===== verification/KtlsKeys.v ===== *)
(** * internal/ktls/linux.go: secrets, keys and the switch to kernel TLS

    [keyLogWriter] collects the secrets that crypto/tls writes to its key log,
    [prepareKTLSConfig] narrows a configuration to what the kernel supports,
    [deriveTLS12Keys] and [deriveTLS13Keys] compute the traffic keys, and [enableKTLS]
    and [enableKTLS13] hand them to the kernel.  HMAC and HKDF-Expand are parameters,
    the kernel is given by its two socket options. *)

From Stdlib Require Import Strings.String.
From S2P Require Import Prelude Cipher Sha1 Text TlsStrict.
Open Scope string_scope.
Open Scope list_scope.
Open Scope Z_scope.

(** ** strings and encoding/hex, on ASCII strings *)

(** The white space of [strings.TrimSpace] and [strings.Fields]. *)
Definition is_space (c : Z) : bool := (c =? 32) || ((9 <=? c) && (c <=? 13)).

Fixpoint trim_space_left (l : list Z) : list Z :=
  match l with c :: l' => if is_space c then trim_space_left l' else l | [] => [] end.
Definition TrimSpace (l : list Z) : list Z := rev (trim_space_left (rev (trim_space_left l))).

(** [strings.Fields]: [cur] is the field being read, backwards. *)
Fixpoint fields_from (cur l : list Z) : list (list Z) :=
  match l with
  | [] => match cur with [] => [] | _ => [rev cur] end
  | c :: l =>
      if is_space c then match cur with [] => fields_from [] l | _ => rev cur :: fields_from [] l end
      else fields_from (c :: cur) l
  end.
Definition Fields (l : list Z) : list (list Z) := fields_from [] l.

Definition hex_digit (c : Z) : option Z :=
  if (48 <=? c) && (c <=? 57) then Some (c - 48)
  else if (97 <=? c) && (c <=? 102) then Some (c - 87)
  else if (65 <=? c) && (c <=? 70) then Some (c - 55)
  else None.

(** [hex.DecodeString]; [None] is its error. *)
Fixpoint DecodeString (l : list Z) : option (list Z) :=
  match l with
  | [] => Some []
  | a :: b :: l => x ← hex_digit a; y ← hex_digit b; r ← DecodeString l; Some (16 * x + y :: r)
  | [_] => None
  end.

(** ** The key log *)

(** [io.Writer]s: one of the caller's, [io.MultiWriter] of two, or the key log writer. *)
Inductive writer := WDst (id : nat) | WMulti (a b : writer) | WKeyLog.

Record keyLogWriter := mkKLW {
  kl_buf : list Z; kl_masterSecret : list Z; kl_clientRandom : list Z;
  kl_clientTrafficSecret : list Z; kl_serverTrafficSecret : list Z; kl_writer : option writer }.

Definition newKeyLogWriter (dst : option writer) : keyLogWriter := mkKLW [] [] [] [] [] dst.

Definition kl_set_buf (w : keyLogWriter) (b : list Z) : keyLogWriter :=
  mkKLW b (kl_masterSecret w) (kl_clientRandom w) (kl_clientTrafficSecret w) (kl_serverTrafficSecret w) (kl_writer w).
Definition kl_set_master (w : keyLogWriter) (cr ms : list Z) : keyLogWriter :=
  mkKLW (kl_buf w) ms cr (kl_clientTrafficSecret w) (kl_serverTrafficSecret w) (kl_writer w).
Definition kl_set_traffic (w : keyLogWriter) (isClient : bool) (s : list Z) : keyLogWriter :=
  if isClient
  then mkKLW (kl_buf w) (kl_masterSecret w) (kl_clientRandom w) s (kl_serverTrafficSecret w) (kl_writer w)
  else mkKLW (kl_buf w) (kl_masterSecret w) (kl_clientRandom w) (kl_clientTrafficSecret w) s (kl_writer w).

Definition parseTrafficSecret (w : keyLogWriter) (line : list Z) (isClient : bool) : keyLogWriter :=
  match Fields line with
  | _ :: _ :: p2 :: _ =>
      match DecodeString p2 with
      | None => w
      | Some secret => kl_set_traffic w isClient secret
      end
  | _ => w
  end.

Definition parseLine (w : keyLogWriter) (line : list Z) : keyLogWriter :=
  if negb (is_prefix (str "CLIENT_RANDOM ") line) then
    if is_prefix (str "CLIENT_TRAFFIC_SECRET_0 ") line then parseTrafficSecret w line true
    else if is_prefix (str "SERVER_TRAFFIC_SECRET_0 ") line then parseTrafficSecret w line false
    else w
  else
    match Fields line with
    | _ :: p1 :: p2 :: _ =>
        match DecodeString p1 with
        | None => w
        | Some clientRandom =>
            match DecodeString p2 with
            | None => w
            | Some masterSecret => kl_set_master w clientRandom masterSecret
            end
        end
    | _ => w
    end.

(** The loop of [Write] over the complete lines; a round takes at least the newline. *)
Fixpoint lines_loop (fuel : nat) (w : keyLogWriter) : option keyLogWriter :=
  let idx := IndexByte (kl_buf w) LF in
  if idx <? 0 then Some w
  else
    match fuel with
    | O => None
    | S fuel =>
        l ← slice (kl_buf w) 0 idx;
        let line := TrimSpace l in
        rest ← slice (kl_buf w) (idx + 1) (len (kl_buf w));
        lines_loop fuel (parseLine (kl_set_buf w rest) line)
    end.

(** [Write]; the second component is what is passed on to the writer, if there is one. *)
Definition keyLogWriter_Write (w : keyLogWriter) (p : list Z) :
    option (keyLogWriter * option (writer * list Z) * (Z * option errno)) :=
  let fwd := (λ d, (d, p)) <$> kl_writer w in
  let w := kl_set_buf w (kl_buf w ++ p) in
  w ← lines_loop (length (kl_buf w)) w;
  Some (w, fwd, (len p, None)).

Definition secrets (w : keyLogWriter) : option (list Z * list Z) :=
  if len (kl_masterSecret w) =? 0 then None else Some (kl_clientRandom w, kl_masterSecret w).

Definition trafficSecrets (w : keyLogWriter) : option (list Z * list Z) :=
  if (len (kl_clientTrafficSecret w) =? 0) || (len (kl_serverTrafficSecret w) =? 0) then None
  else Some (kl_clientTrafficSecret w, kl_serverTrafficSecret w).

Definition addKeyLogWriter (klw : keyLogWriter) (dst : option writer) : keyLogWriter :=
  match dst with
  | None => klw
  | Some d =>
      mkKLW (kl_buf klw) (kl_masterSecret klw) (kl_clientRandom klw) (kl_clientTrafficSecret klw)
        (kl_serverTrafficSecret klw)
        (Some match kl_writer klw with None => d | Some w => WMulti w d end)
  end.

(** ** Configuration *)

(** The cipher suites of crypto/tls that the program names. *)
Definition TLS_ECDHE_RSA_WITH_AES_128_GCM_SHA256 : Z := 0xc02f.
Definition TLS_ECDHE_RSA_WITH_AES_256_GCM_SHA384 : Z := 0xc030.
Definition TLS_ECDHE_ECDSA_WITH_AES_128_GCM_SHA256 : Z := 0xc02b.
Definition TLS_ECDHE_ECDSA_WITH_AES_256_GCM_SHA384 : Z := 0xc02c.
Definition TLS_RSA_WITH_AES_128_GCM_SHA256 : Z := 0x009c.
Definition TLS_RSA_WITH_AES_256_GCM_SHA384 : Z := 0x009d.
Definition TLS_AES_128_GCM_SHA256 : Z := 0x1301.
Definition TLS_AES_256_GCM_SHA384 : Z := 0x1302.

Definition ktlsCipherSuites : list Z :=
  [TLS_ECDHE_RSA_WITH_AES_128_GCM_SHA256; TLS_ECDHE_RSA_WITH_AES_256_GCM_SHA384;
   TLS_ECDHE_ECDSA_WITH_AES_128_GCM_SHA256; TLS_ECDHE_ECDSA_WITH_AES_256_GCM_SHA384;
   TLS_RSA_WITH_AES_128_GCM_SHA256; TLS_RSA_WITH_AES_256_GCM_SHA384;
   TLS_AES_128_GCM_SHA256; TLS_AES_256_GCM_SHA384].

Definition isKTLSCipher (suite : Z) : bool :=
  bool_decide (suite ∈ [TLS_ECDHE_RSA_WITH_AES_128_GCM_SHA256; TLS_ECDHE_RSA_WITH_AES_256_GCM_SHA384;
    TLS_ECDHE_ECDSA_WITH_AES_128_GCM_SHA256; TLS_ECDHE_ECDSA_WITH_AES_256_GCM_SHA384;
    TLS_RSA_WITH_AES_128_GCM_SHA256; TLS_RSA_WITH_AES_256_GCM_SHA384;
    TLS_AES_128_GCM_SHA256; TLS_AES_256_GCM_SHA384]).

Definition filterKTLSCipherSuites (inp : list Z) : list Z :=
  if len inp =? 0 then ktlsCipherSuites else List.filter isKTLSCipher inp.

(** The fields of [tls.ClientHelloInfo] that are read. *)
Record ClientHelloInfo := mkCHI { SupportedVersions : list Z; CipherSuites : list Z }.

Definition clientHelloHasTLS13AESGCM (chi : option ClientHelloInfo) : bool :=
  match chi with
  | None => true
  | Some chi =>
      if negb (existsb (Z.eqb VersionTLS13) (SupportedVersions chi)) then true
      else existsb (λ s, (s =? TLS_AES_128_GCM_SHA256) || (s =? TLS_AES_256_GCM_SHA384)) (CipherSuites chi)
  end.

(** internal/tls/tls13_suites.go: the suites of TLS 1.3, a variable of crypto/tls.
    The new list and the number returned. *)
Definition SetTLS13CipherSuites (cipherSuitesTLS13 ids : list Z) : list Z * Z :=
  if len ids =? 0 then (cipherSuitesTLS13, 0)
  else
    let out := List.filter (λ id, bool_decide (id ∈ cipherSuitesTLS13)) ids in
    if len out =? 0 then (cipherSuitesTLS13, 0) else (out, len out).

Definition ForceTLS13AESGCM (cipherSuitesTLS13 : list Z) : list Z * Z :=
  SetTLS13CipherSuites cipherSuitesTLS13 [TLS_AES_128_GCM_SHA256; TLS_AES_256_GCM_SHA384].

Record KtlsKnobs := mkKtlsKnobs {
  KTLSPreferTLS12IfNoAESGCM : bool; KTLSForceTLS13AESGCM : bool; KTLSEnableRX : bool; KTLSDisableSessionTickets : bool;
  KTLSClientPostHandshakeTimeout : Z; KTLSClientPostHandshakeReadMaxBytes : Z }.

(** Durations are in nanoseconds. *)
Definition default_ktls : KtlsKnobs := mkKtlsKnobs true true false false (10 * 1000000) (64 * 1024).

(** The package state: the suites of TLS 1.3 and whether [tls13AESGCMOnce] was done. *)
Record ktlsGlobals := mkKG { kg_suites : list Z; tls13AESGCMOnce : bool }.

Definition maybeForceTLS13AESGCM (G : KtlsKnobs) (g : ktlsGlobals) : ktlsGlobals :=
  if negb (KTLSForceTLS13AESGCM G) then g
  else if tls13AESGCMOnce g then g
  else mkKG (fst (ForceTLS13AESGCM (kg_suites g))) true.

(** A function value of [GetConfigForClient]: the caller's, the one that wraps [orig], or
    the one that applies the client policy to the configuration it is a field of, [base]
    without that field. *)
Inductive callback (C : Type) : Type :=
| CbUser (f : option ClientHelloInfo → option C * option errno)
| CbWrapped (orig : callback C)
| CbPolicy (base : C).
Arguments CbUser {C}. Arguments CbWrapped {C}. Arguments CbPolicy {C}.

(** [tls.Config] with the fields that are read or written. *)
Inductive Config : Type := mkConfig {
  cf_MinVersion : Z; cf_MaxVersion : Z; cf_CipherSuites : list Z; cf_KeyLogWriter : option writer;
  cf_SessionTicketsDisabled : bool; cf_ClientSessionCache : bool; cf_GetConfigForClient : option (callback Config) }.

Definition cf_set_callback (c : Config) (cb : option (callback Config)) : Config :=
  mkConfig (cf_MinVersion c) (cf_MaxVersion c) (cf_CipherSuites c) (cf_KeyLogWriter c)
    (cf_SessionTicketsDisabled c) (cf_ClientSessionCache c) cb.
Definition cf_set_max (c : Config) (v : Z) : Config :=
  mkConfig (cf_MinVersion c) v (cf_CipherSuites c) (cf_KeyLogWriter c)
    (cf_SessionTicketsDisabled c) (cf_ClientSessionCache c) (cf_GetConfigForClient c).

Section Config.
Variable G : KtlsKnobs.

Definition prepareKTLSConfig (g : ktlsGlobals) (cfg : Config) (klw : keyLogWriter) : ktlsGlobals * Config * keyLogWriter :=
  let min := if (cf_MinVersion cfg =? 0) || (cf_MinVersion cfg <? VersionTLS12) then VersionTLS12 else cf_MinVersion cfg in
  let min := if VersionTLS13 <? min then VersionTLS13 else min in
  let max := if (cf_MaxVersion cfg =? 0) || (VersionTLS13 <? cf_MaxVersion cfg) then VersionTLS13 else cf_MaxVersion cfg in
  let max := if max <? VersionTLS12 then VersionTLS12 else max in
  let max := if max <? min then min else max in
  let klw := addKeyLogWriter klw (cf_KeyLogWriter cfg) in
  let g := maybeForceTLS13AESGCM G g in
  let notickets := if KTLSDisableSessionTickets G then true else cf_SessionTicketsDisabled cfg in
  let cache := if KTLSDisableSessionTickets G then false else cf_ClientSessionCache cfg in
  let c := mkConfig min max (filterKTLSCipherSuites (cf_CipherSuites cfg)) (Some WKeyLog) notickets cache None in
  let get := match cf_GetConfigForClient cfg with
             | Some orig => Some (CbWrapped orig)
             | None => if KTLSPreferTLS12IfNoAESGCM G && (min <? VersionTLS13) then Some (CbPolicy c) else None
             end in
  (g, cf_set_callback c get, klw).

Definition applyClientPolicy (base : Config) (chi : option ClientHelloInfo) : Config :=
  if negb (KTLSPreferTLS12IfNoAESGCM G) then base
  else if VersionTLS13 <=? cf_MinVersion base then base
  else if clientHelloHasTLS13AESGCM chi then base
  else cf_set_max base VersionTLS12.

(** A call of the callback. *)
Fixpoint call_callback (g : ktlsGlobals) (klw : keyLogWriter) (cb : callback Config) (chi : option ClientHelloInfo) :
    ktlsGlobals * keyLogWriter * (option Config * option errno) :=
  match cb with
  | CbUser f => (g, klw, f chi)
  | CbWrapped orig =>
      let '(g, klw, r) := call_callback g klw orig chi in
      match r with
      | (Some cfg2, None) =>
          let '(g, cfg2, klw) := prepareKTLSConfig g cfg2 klw in (g, klw, (Some (applyClientPolicy cfg2 chi), None))
      | _ => (g, klw, r)
      end
  | CbPolicy base => (g, klw, (Some (applyClientPolicy (cf_set_callback base (Some (CbPolicy base))) chi), None))
  end.

End Config.

(** ** Key derivation *)

Inductive hash := SHA256 | SHA384.

Record Keys := mkKeys {
  clientKey : list Z; serverKey : list Z; clientIV : list Z; serverIV : list Z; k_hash : hash }.

(** The key length and hash of a suite of TLS 1.2 and of TLS 1.3. *)
Definition suite12 (suite : Z) : option (Z * hash) :=
  if bool_decide (suite ∈ [TLS_ECDHE_RSA_WITH_AES_128_GCM_SHA256; TLS_ECDHE_ECDSA_WITH_AES_128_GCM_SHA256;
                           TLS_RSA_WITH_AES_128_GCM_SHA256]) then Some (16, SHA256)
  else if bool_decide (suite ∈ [TLS_ECDHE_RSA_WITH_AES_256_GCM_SHA384; TLS_ECDHE_ECDSA_WITH_AES_256_GCM_SHA384;
                                TLS_RSA_WITH_AES_256_GCM_SHA384]) then Some (32, SHA384)
  else None.
Definition suite13 (suite : Z) : option (Z * hash) :=
  if suite =? TLS_AES_128_GCM_SHA256 then Some (16, SHA256)
  else if suite =? TLS_AES_256_GCM_SHA384 then Some (32, SHA384)
  else None.

Section Keys.
Variable hmac : hash → list Z → list Z → list Z.
(** [hkdf.Expand]; [None] is its error. *)
Variable hkdf_Expand : hash → list Z → list Z → Z → option (list Z).

(** The loop of [pHash]: each round copies at least one byte. *)
Fixpoint pHash_loop (fuel : nat) (h : hash) (secret seed result a : list Z) (offset length : Z) : option (list Z) :=
  if offset <? length then
    match fuel with
    | O => None
    | S fuel =>
        let a := hmac h secret a in
        let sum := hmac h secret (a ++ seed) in
        result' ← copy_at result offset sum;
        let n := Z.min (len sum) (len result - offset) in
        pHash_loop fuel h secret seed result' a (offset + n) length
    end
  else Some result.

Definition pHash (secret seed : list Z) (length : Z) (h : hash) : option (list Z) :=
  pHash_loop (Z.to_nat length) h secret seed (make_bytes length) seed 0 length.

Definition tls12PRF (secret label seed : list Z) (length : Z) (h : hash) : option (list Z) :=
  pHash secret (label ++ seed) length h.

(** The inner [None] is the error of an unsupported suite. *)
Definition deriveTLS12Keys (masterSecret clientRandom serverRandom : list Z) (suite : Z) : option (option Keys) :=
  match suite12 suite with
  | None => Some None
  | Some (keyLen, h) =>
      let ivLen := 4 in
      let keyBlockLen := 2 * keyLen + 2 * ivLen in
      keyBlock ← tls12PRF masterSecret (str "key expansion") (serverRandom ++ clientRandom) keyBlockLen h;
      let offset := 0 in
      clientKey ← slice keyBlock offset (offset + keyLen);
      let offset := offset + keyLen in
      serverKey ← slice keyBlock offset (offset + keyLen);
      let offset := offset + keyLen in
      clientIV ← slice keyBlock offset (offset + ivLen);
      let offset := offset + ivLen in
      serverIV ← slice keyBlock offset (offset + ivLen);
      Some (Some (mkKeys clientKey serverKey clientIV serverIV h))
  end.

(** The [HkdfLabel] that [hkdfExpandLabel] builds. *)
Definition hkdfLabel (label context : list Z) (length : Z) : option (list Z) :=
  let fullLabel := str "tls13 " ++ label in
  let info := make_bytes (2 + 1 + len fullLabel + 1 + len context) in
  info ← copy_at info 0 (be_bytes 2 (wrapU 16 length));
  info ← store info 2 (wrapU 8 (len fullLabel));
  info ← copy_at info 3 fullLabel;
  let idx := 3 + len fullLabel in
  info ← store info idx (wrapU 8 (len context));
  copy_at info (idx + 1) context.

(** [nil] is the empty list. *)
Definition hkdfExpandLabel (secret : list Z) (h : hash) (label context : list Z) (length : Z) : option (list Z) :=
  info ← hkdfLabel label context length;
  Some (default [] (hkdf_Expand h secret info length)).

Definition deriveTLS13Keys (clientSecret serverSecret : list Z) (suite : Z) : option (option Keys) :=
  match suite13 suite with
  | None => Some None
  | Some (keyLen, h) =>
      let ivLen := 12 in
      clientKey ← hkdfExpandLabel clientSecret h (str "key") [] keyLen;
      clientIV ← hkdfExpandLabel clientSecret h (str "iv") [] ivLen;
      serverKey ← hkdfExpandLabel serverSecret h (str "key") [] keyLen;
      serverIV ← hkdfExpandLabel serverSecret h (str "iv") [] ivLen;
      Some (Some (mkKeys clientKey serverKey clientIV serverIV h))
  end.

End Keys.

(** ** Handing the keys to the kernel *)

Definition ktlsVersion12 : Z := 0x0303.
Definition ktlsVersion13 : Z := 0x0304.
Definition ktlsCipherAESGCM128 : Z := 51.
Definition ktlsCipherAESGCM256 : Z := 52.

(** [tls12CryptoInfoAESGCM128] and [...256], which differ in the size of the key. *)
Record cryptoInfo := mkInfo {
  ci_Version : Z; ci_CipherType : Z; ci_IV : list Z; ci_Key : list Z; ci_Salt : list Z; ci_RecSeq : list Z }.

Definition info_IV (i : cryptoInfo) (salt iv : list Z) : cryptoInfo :=
  mkInfo (ci_Version i) (ci_CipherType i) iv (ci_Key i) salt (ci_RecSeq i).

(** [copy(dst[:], src)] into a zero array of [n] bytes. *)
Definition fill (n : Z) (src : list Z) : list Z := blit (make_bytes n) 0 (take (Z.to_nat n) src).

Definition fillRecSeq (seq : Z) : list Z := be_bytes 8 (wrapU 64 seq).
Definition fillIVFromSeq (seq : Z) : list Z := be_bytes 8 (wrapU 64 seq).

(** The new values of [salt] and [explicit]. *)
Definition splitIV (iv salt explicit : list Z) : list Z * list Z :=
  (if 4 <=? len iv then blit salt 0 (sub iv 0 4) else salt,
   if 12 <=? len iv then blit explicit 0 (sub iv 4 12) else explicit).
Definition splitIVAlt (iv salt explicit : list Z) : list Z * list Z :=
  if 12 <=? len iv then (blit salt 0 (sub iv 8 12), blit explicit 0 (sub iv 0 8)) else (salt, explicit).

(** [setsockopt] with TCP_ULP "tls", and with SOL_TLS; [kt_tx] and [kt_rx] are the
    parameters the kernel has for a descriptor. *)
Class KtlsKernel (K : Type) := {
  sys_set_ulp : K → Z → K * option errno;
  sys_set_tls : K → Z → bool → cryptoInfo → K * option errno;   (* true: TX, false: RX *)
  kt_get : K → Z → bool → option cryptoInfo;
}.

Inductive ktls_error := KUnsupported | KErrno (e : errno).

Section Enable.
Context {K : Type} `{!KtlsKernel K}.
Variable G : KtlsKnobs.

(** [setsockopt] once, and again with [alt] when the kernel says EINVAL. *)
Definition set_retry (k : K) (fd : Z) (tx : bool) (i alt : cryptoInfo) : K * option errno :=
  let '(k, err) := sys_set_tls k fd tx i in
  match err with
  | None => (k, None)
  | Some e => if bool_decide (e = EINVAL) then sys_set_tls k fd tx alt else (k, Some e)
  end.

(** TX, and RX when it is enabled. *)
Definition set_both (k : K) (fd : Z) (tx txAlt rx rxAlt : cryptoInfo) : K * option ktls_error :=
  let '(k, err) := set_retry k fd true tx txAlt in
  match err with
  | Some e => (k, Some (KErrno e))
  | None =>
      if KTLSEnableRX G then
        let '(k, err) := set_retry k fd false rx rxAlt in (k, KErrno <$> err)
      else (k, None)
  end.

Definition info12 (cipher keyLen : Z) (key iv : list Z) (seq : Z) : cryptoInfo :=
  mkInfo ktlsVersion12 cipher (make_bytes 8) (fill keyLen key) (fill 4 iv) (fillRecSeq seq).
Definition info12_alt (i : cryptoInfo) (seq : Z) : cryptoInfo := info_IV i (ci_Salt i) (fillIVFromSeq seq).

Definition info13 (cipher keyLen : Z) (key iv seq : list Z) : cryptoInfo :=
  let '(salt, explicit) := splitIV iv (make_bytes 4) (make_bytes 8) in
  mkInfo ktlsVersion13 cipher explicit (fill keyLen key) salt seq.
Definition info13_alt (i : cryptoInfo) (iv : list Z) : cryptoInfo :=
  let '(salt, explicit) := splitIVAlt iv (ci_Salt i) (ci_IV i) in info_IV i salt explicit.

(** The kernel's cipher and the key length of a suite. *)
Definition cipher12 (suite : Z) : option (Z * Z) :=
  if bool_decide (suite ∈ [TLS_ECDHE_RSA_WITH_AES_128_GCM_SHA256; TLS_ECDHE_ECDSA_WITH_AES_128_GCM_SHA256;
                           TLS_RSA_WITH_AES_128_GCM_SHA256]) then Some (ktlsCipherAESGCM128, 16)
  else if bool_decide (suite ∈ [TLS_ECDHE_RSA_WITH_AES_256_GCM_SHA384; TLS_ECDHE_ECDSA_WITH_AES_256_GCM_SHA384;
                                TLS_RSA_WITH_AES_256_GCM_SHA384]) then Some (ktlsCipherAESGCM256, 32)
  else None.
Definition cipher13 (suite : Z) : option (Z * Z) :=
  if suite =? TLS_AES_128_GCM_SHA256 then Some (ktlsCipherAESGCM128, 16)
  else if suite =? TLS_AES_256_GCM_SHA384 then Some (ktlsCipherAESGCM256, 32)
  else None.

Definition enableKTLS (k : K) (fd : Z) (isClient : bool) (suite : Z) (keys : Keys) (inSeq outSeq : Z) :
    K * option ktls_error :=
  let '(k, err) := sys_set_ulp k fd in
  match err with
  | Some e => (k, Some (KErrno e))
  | None =>
      let '(txKey, txIV, rxKey, rxIV) :=
        if isClient then (clientKey keys, clientIV keys, serverKey keys, serverIV keys)
        else (serverKey keys, serverIV keys, clientKey keys, clientIV keys) in
      match cipher12 suite with
      | None => (k, Some KUnsupported)
      | Some (cipher, keyLen) =>
          let tx := info12 cipher keyLen txKey txIV outSeq in
          let rx := info12 cipher keyLen rxKey rxIV inSeq in
          set_both k fd tx (info12_alt tx outSeq) rx (info12_alt rx inSeq)
      end
  end.

Definition enableKTLS13 (k : K) (fd : Z) (isClient : bool) (suite : Z) (keys : Keys) (inSeq outSeq : list Z) :
    K * option ktls_error :=
  let '(k, err) := sys_set_ulp k fd in
  match err with
  | Some e => (k, Some (KErrno e))
  | None =>
      let '(txKey, txIV, rxKey, rxIV) :=
        if isClient then (clientKey keys, clientIV keys, serverKey keys, serverIV keys)
        else (serverKey keys, serverIV keys, clientKey keys, clientIV keys) in
      match cipher13 suite with
      | None => (k, Some KUnsupported)
      | Some (cipher, keyLen) =>
          let tx := info13 cipher keyLen txKey txIV outSeq in
          let rx := info13 cipher keyLen rxKey rxIV inSeq in
          set_both k fd tx (info13_alt tx txIV) rx (info13_alt rx rxIV)
      end
  end.

End Enable.

(** ** The key log is read back as it was written *)

(** The complete lines of a string, and what follows the last newline. *)
Fixpoint lines (s : list Z) : list (list Z) * list Z :=
  match s with
  | [] => ([], [])
  | c :: s =>
      let '(ls, r) := lines s in
      if c =? LF then ([] :: ls, r)
      else match ls with [] => ([], c :: r) | l :: ls => ((c :: l) :: ls, r) end
  end.

Lemma lines_app a b :
  lines (a ++ b) = (fst (lines a) ++ fst (lines (snd (lines a) ++ b)), snd (lines (snd (lines a) ++ b))).
Proof.
  induction a as [|c a IH]; cbn [app lines fst snd]; [by destruct (lines b)|].
  rewrite IH. destruct (lines a) as [la ra] eqn:Ea. cbn [fst snd] in *.
  destruct (c =? LF) eqn:Ec; [done|]. destruct la as [|l la]; [|done]. cbn [app fst snd lines]. rewrite Ec.
  destruct (lines (ra ++ b)) as [ls r]. cbn [fst snd]. by destruct ls.
Qed.

Lemma lines_index s :
  if IndexByte s LF <? 0 then lines s = ([], s)
  else 0 ≤ IndexByte s LF < len s ∧
       lines s = (take (Z.to_nat (IndexByte s LF)) s :: fst (lines (drop (S (Z.to_nat (IndexByte s LF))) s)),
                  snd (lines (drop (S (Z.to_nat (IndexByte s LF))) s))).
Proof.
  induction s as [|c s IH]; cbn [IndexByte lines]; [done|]. destruct (c =? LF).
  { cbn. split; [lia|]. change (Z.to_nat 0) with 0%nat. rewrite drop_0. by destruct (lines s). }
  destruct (Z.ltb_spec (IndexByte s LF) 0) as [H|H]; [by rewrite IH|].
  destruct IH as [Hb E]. destruct (Z.ltb_spec (IndexByte s LF + 1) 0); [lia|]. split; [cbn [length]; lia|].
  rewrite E at 1. replace (Z.to_nat (IndexByte s LF + 1)) with (S (Z.to_nat (IndexByte s LF))) by lia. done.
Qed.

Lemma parseLine_set_buf w b l : parseLine (kl_set_buf w b) l = kl_set_buf (parseLine w l) b.
Proof.
  unfold parseLine, parseTrafficSecret, kl_set_traffic.
  destruct (negb _), (is_prefix (str "CLIENT_TRAFFIC_SECRET_0 ") l), (is_prefix (str "SERVER_TRAFFIC_SECRET_0 ") l);
    try done; destruct (Fields l) as [|? [|p1 [|p2 ?]]]; try done; by repeat destruct (DecodeString _).
Qed.

Definition parse_lines (w : keyLogWriter) (ls : list (list Z)) : keyLogWriter :=
  foldl (λ w l, parseLine w (TrimSpace l)) w ls.

Lemma parse_lines_set_buf ls w b : parse_lines (kl_set_buf w b) ls = kl_set_buf (parse_lines w ls) b.
Proof.
  unfold parse_lines. revert w. induction ls as [|l ls IH]; intros w; cbn [foldl]; [done|].
  by rewrite parseLine_set_buf, IH.
Qed.

Lemma lines_loop_spec fuel w : (length (kl_buf w) ≤ fuel)%nat →
  lines_loop fuel w = Some (kl_set_buf (parse_lines w (fst (lines (kl_buf w)))) (snd (lines (kl_buf w)))).
Proof.
  revert w. induction fuel as [|fuel IH]; intros w Hf; cbn [lines_loop]; pose proof (lines_index (kl_buf w)) as L;
    destruct (Z.ltb_spec (IndexByte (kl_buf w) LF) 0) as [Hn|Hn].
  1,3: rewrite L; by destruct w.
  - destruct L as [L _]. lia.
  - destruct L as [Hb E]. rewrite !slice_Some by lia. cbn [mbind option_bind].
    rewrite IH; cbn [kl_buf]; rewrite ?parseLine_set_buf; cbn [kl_set_buf kl_buf].
    2: { rewrite sub_suffix by lia. rewrite length_drop. lia. }
    rewrite E, sub_prefix, sub_suffix by lia.
    replace (Z.to_nat (IndexByte (kl_buf w) LF + 1)) with (S (Z.to_nat (IndexByte (kl_buf w) LF))) by lia.
    cbn [fst snd]. unfold parse_lines at 2. cbn [foldl]. fold (parse_lines (parseLine w (TrimSpace (take (Z.to_nat (IndexByte (kl_buf w) LF)) (kl_buf w))))).
    f_equal. set (b := drop _ _). set (w1 := parseLine w _).
    exact (f_equal (λ q, kl_set_buf q _) (parse_lines_set_buf (fst (lines b)) w1 b)).
Qed.

Fixpoint log_writes (w : keyLogWriter) (chunks : list (list Z)) : option keyLogWriter :=
  match chunks with
  | [] => Some w
  | p :: chunks => '(w, _, _) ← keyLogWriter_Write w p; log_writes w chunks
  end.

(** The state after the bytes [s]. *)
Definition logged (d : option writer) (s : list Z) : keyLogWriter :=
  kl_set_buf (parse_lines (newKeyLogWriter d) (fst (lines s))) (snd (lines s)).

Lemma Write_logged d s p : ∃ fwd, keyLogWriter_Write (logged d s) p = Some (logged d (s ++ p), fwd, (len p, None)).
Proof.
  unfold keyLogWriter_Write. rewrite lines_loop_spec by done. cbn [mbind option_bind kl_set_buf kl_buf]. eexists.
  f_equal. f_equal. f_equal. change (kl_buf (logged d s)) with (snd (lines s)).
  assert (logged d (s ++ p) = kl_set_buf (parse_lines (parse_lines (newKeyLogWriter d) (fst (lines s)))
    (fst (lines (snd (lines s) ++ p)))) (snd (lines (snd (lines s) ++ p)))) as ->.
  { unfold logged, parse_lines. rewrite lines_app. cbn [fst snd]. by rewrite foldl_app. }
  exact (f_equal (λ q, kl_set_buf q _) (parse_lines_set_buf (fst (lines (snd (lines s) ++ p)))
    (parse_lines (newKeyLogWriter d) (fst (lines s))) (snd (lines s) ++ p))).
Qed.

Lemma log_writes_logged d s chunks : log_writes (logged d s) chunks = Some (logged d (s ++ concat chunks)).
Proof.
  revert s. induction chunks as [|p chunks IH]; intros s; cbn [log_writes concat]; [by rewrite app_nil_r|].
  destruct (Write_logged d s p) as [fwd ->]. cbn [mbind option_bind]. by rewrite IH, <-app_assoc.
Qed.

(** *** The lines of crypto/tls: a label, the client random and a secret, in hex *)

Inductive key_label := LMaster | LClientHandshake | LServerHandshake | LClientTraffic | LServerTraffic.

Definition label_name (l : key_label) : list Z :=
  str match l with
      | LMaster => "CLIENT_RANDOM"
      | LClientHandshake => "CLIENT_HANDSHAKE_TRAFFIC_SECRET"
      | LServerHandshake => "SERVER_HANDSHAKE_TRAFFIC_SECRET"
      | LClientTraffic => "CLIENT_TRAFFIC_SECRET_0"
      | LServerTraffic => "SERVER_TRAFFIC_SECRET_0"
      end.

Definition hex_char (x : Z) : Z := if x <? 10 then 48 + x else 87 + x.
Definition hex_encode (l : list Z) : list Z := l ≫= λ b, [hex_char (b / 16); hex_char (b mod 16)].

Definition key_line (e : key_label * list Z * list Z) : list Z :=
  let '(l, random, secret) := e in label_name l ++ [SP] ++ hex_encode random ++ [SP] ++ hex_encode secret.

Definition entry_ok (e : key_label * list Z * list Z) : Prop :=
  let '(_, random, secret) := e in bytes_wf random ∧ bytes_wf secret ∧ random ≠ [] ∧ secret ≠ [].

(** What the writer should know after an entry. *)
Definition log_entry (w : keyLogWriter) (e : key_label * list Z * list Z) : keyLogWriter :=
  let '(l, random, secret) := e in
  match l with
  | LMaster => kl_set_master w random secret
  | LClientTraffic => kl_set_traffic w true secret
  | LServerTraffic => kl_set_traffic w false secret
  | _ => w
  end.

Definition no_space (l : list Z) : Prop := Forall (λ c, is_space c = false) l.

Lemma hex_char_ok x : 0 ≤ x < 16 → hex_digit (hex_char x) = Some x ∧ is_space (hex_char x) = false.
Proof.
  intros H. pose proof (check_below (λ x, bool_decide (hex_digit (hex_char x) = Some x ∧ is_space (hex_char x) = false)) 16
    eq_refl x H) as C. by apply bool_decide_eq_true in C.
Qed.

Lemma hex_roundtrip l : bytes_wf l → DecodeString (hex_encode l) = Some l ∧ no_space (hex_encode l).
Proof.
  induction l as [|b l IH]; intros W; [by split; [|constructor]|].
  apply list.Forall_cons in W as [Hb W]. unfold byte_wf in Hb. destruct (IH W) as [E N].
  change (hex_encode (b :: l)) with (hex_char (b / 16) :: hex_char (b mod 16) :: hex_encode l).
  destruct (hex_char_ok (b / 16)) as [E1 N1]; [split; [apply Z.div_pos; lia|apply Z.div_lt_upper_bound; lia]|].
  destruct (hex_char_ok (b mod 16)) as [E2 N2]; [apply Z.mod_pos_bound; lia|].
  cbn [DecodeString]. rewrite E1, E2, E. cbn [mbind option_bind]. split.
  - f_equal. f_equal. symmetry. apply Z.div_mod. lia.
  - constructor; [done|]. by constructor.
Qed.

Lemma fields_word cur w l : no_space w → rev cur ++ w ≠ [] →
  fields_from cur (w ++ SP :: l) = (rev cur ++ w) :: fields_from [] l.
Proof.
  intros N. revert cur. induction N as [|c w Hc N IH]; intros cur Hne; cbn [app fields_from].
  - change (is_space SP) with true. cbv iota. rewrite app_nil_r in *. by destruct cur.
  - rewrite Hc, IH; cbn [rev]; rewrite <-app_assoc; done.
Qed.

Lemma fields_last cur w : no_space w → rev cur ++ w ≠ [] → fields_from cur w = [rev cur ++ w].
Proof.
  intros N. revert cur. induction N as [|c w Hc N IH]; intros cur Hne; cbn [fields_from].
  - rewrite app_nil_r in *. by destruct cur.
  - rewrite Hc, IH; cbn [rev]; rewrite <-app_assoc; done.
Qed.

Lemma TrimSpace_id c l d : is_space c = false → is_space d = false → TrimSpace (c :: l ++ [d]) = c :: l ++ [d].
Proof.
  intros Hc Hd. unfold TrimSpace. cbn [trim_space_left]. rewrite Hc.
  change (c :: l ++ [d]) with ((c :: l) ++ [d]). rewrite rev_app_distr. cbn [rev app trim_space_left]. rewrite Hd.
  cbn [rev]. rewrite rev_app_distr, rev_involutive. done.
Qed.

Lemma hex_nonempty l : l ≠ [] → hex_encode l ≠ [].
Proof. by destruct l. Qed.

Lemma no_spaceb l : forallb (λ c, negb (is_space c)) l = true → no_space l.
Proof.
  induction l as [|c l IH]; cbn [forallb]; intros H; [constructor|]. apply andb_true_iff in H as [Hc Hl].
  constructor; [by apply negb_true_iff|by apply IH].
Qed.

Lemma parse_key_line w e : entry_ok e → parseLine w (TrimSpace (key_line e)) = log_entry w e.
Proof.
  destruct e as [[l random] secret]. intros (Wr & Ws & Nr & Ns). cbn [key_line log_entry].
  destruct (hex_roundtrip random Wr) as [Dr Sr]. destruct (hex_roundtrip secret Ws) as [Ds Ss].
  apply hex_nonempty in Nr, Ns.
  assert (no_space (label_name l) ∧ label_name l ≠ []) as [Sl Nl].
  { split; [apply no_spaceb|]; by destruct l. }
  assert (TrimSpace (label_name l ++ [SP] ++ hex_encode random ++ [SP] ++ hex_encode secret)
    = label_name l ++ [SP] ++ hex_encode random ++ [SP] ++ hex_encode secret) as ->.
  { destruct (exists_last Ns) as (s' & d & Es). rewrite Es in *.
    destruct (label_name l) as [|c lab]; [done|]. cbn [app]. rewrite !app_comm_cons, !app_assoc.
    apply TrimSpace_id; [by apply list.Forall_cons in Sl as [? _]|].
    apply Forall_app in Ss as [_ Ss]. by apply list.Forall_cons in Ss as [? _]. }
  assert (Fields (label_name l ++ [SP] ++ hex_encode random ++ [SP] ++ hex_encode secret)
    = [label_name l; hex_encode random; hex_encode secret]) as EF.
  { unfold Fields. cbn [app]. rewrite fields_word by done. rewrite fields_word by done. by rewrite fields_last. }
  unfold parseLine, parseTrafficSecret. rewrite EF, Dr, Ds. destruct l; reflexivity.
Qed.

Lemma lines_line l s : Forall (λ c, c ≠ LF) l → lines (l ++ LF :: s) = (l :: fst (lines s), snd (lines s)).
Proof.
  induction 1 as [|c l Hc F IH]; cbn [app lines].
  - change (LF =? LF) with true. by destruct (lines s).
  - rewrite IH. destruct (Z.eqb_spec c LF); done.
Qed.

Lemma lines_none r : Forall (λ c, c ≠ LF) r → lines r = ([], r).
Proof.
  induction 1 as [|c l Hc F IH]; cbn [lines]; [done|]. rewrite IH. by destruct (Z.eqb_spec c LF).
Qed.

Lemma no_space_LF l : no_space l → Forall (λ c, c ≠ LF) l.
Proof. induction 1 as [|c l Hc N IH]; constructor; [by intros ->|done]. Qed.

Lemma key_line_LF e : entry_ok e → Forall (λ c, c ≠ LF) (key_line e).
Proof.
  destruct e as [[l random] secret]. intros (Wr & Ws & _ & _). cbn [key_line]. rewrite !Forall_app.
  split_and!; try (by repeat constructor); apply no_space_LF; try apply hex_roundtrip; try done.
  apply no_spaceb. by destruct l.
Qed.

Definition key_log (es : list (key_label * list Z * list Z)) : list Z := es ≫= λ e, key_line e ++ [LF].

Lemma lines_key_log es r : Forall entry_ok es → Forall (λ c, c ≠ LF) r →
  lines (key_log es ++ r) = (key_line <$> es, r).
Proof.
  intros F Hr. induction F as [|e es He F IH]; [by apply lines_none|].
  change (key_log (e :: es)) with ((key_line e ++ [LF]) ++ key_log es). rewrite <-!app_assoc. cbn [app].
  rewrite lines_line, IH by (by apply key_line_LF). done.
Qed.

Lemma parse_key_log es w : Forall entry_ok es → parse_lines w (key_line <$> es) = foldl log_entry w es.
Proof.
  unfold parse_lines. intros F. revert w. induction F as [|e es He F IH]; intros w; cbn [fmap list_fmap foldl]; [done|].
  by rewrite parse_key_line.
Qed.

(** The last entry with a label. *)
Definition last_entry (l : key_label) (es : list (key_label * list Z * list Z)) : option (list Z * list Z) :=
  foldl (λ o '(l', random, secret),
    match l, l' with
    | LMaster, LMaster | LClientTraffic, LClientTraffic | LServerTraffic, LServerTraffic => Some (random, secret)
    | _, _ => o
    end) None es.

Lemma last_entry_fields d es : Forall entry_ok es →
  let w := foldl log_entry (newKeyLogWriter d) es in
  match last_entry LMaster es with
  | Some (r, s) => kl_clientRandom w = r ∧ kl_masterSecret w = s ∧ s ≠ []
  | None => kl_masterSecret w = []
  end ∧
  match last_entry LClientTraffic es with
  | Some (_, s) => kl_clientTrafficSecret w = s ∧ s ≠ [] | None => kl_clientTrafficSecret w = [] end ∧
  match last_entry LServerTraffic es with
  | Some (_, s) => kl_serverTrafficSecret w = s ∧ s ≠ [] | None => kl_serverTrafficSecret w = [] end.
Proof.
  induction es as [|e es IH] using rev_ind; intros F; [done|].
  apply Forall_app in F as [F Fe]. apply list.Forall_cons in Fe as [He _]. specialize (IH F). cbv zeta in *.
  unfold last_entry in *. rewrite !foldl_app. cbn [foldl]. destruct e as [[l r] s]. destruct He as (_ & _ & _ & Hs).
  destruct l; cbn [log_entry]; try exact IH; destruct IH as (I1 & I2 & I3); split_and!; try done.
Qed.

(** The key log that crypto/tls writes is read back: whatever the entries, the
    chunks they arrive in and an incomplete line at the end, the secrets reported are those
    of the last entry with the label, and nothing when there is none. *)
Theorem keylog_roundtrip (d : option writer) (es : list (key_label * list Z * list Z)) (r : list Z)
    (chunks : list (list Z)) :
  Forall entry_ok es → Forall (λ c, c ≠ LF) r → concat chunks = key_log es ++ r →
  ∃ w, log_writes (newKeyLogWriter d) chunks = Some w ∧ kl_buf w = r ∧
    secrets w = last_entry LMaster es ∧
    trafficSecrets w = match last_entry LClientTraffic es, last_entry LServerTraffic es with
                       | Some (_, c), Some (_, s) => Some (c, s)
                       | _, _ => None
                       end.
Proof.
  intros F Hr E. exists (logged d (key_log es ++ r)). rewrite <-E. split; [exact (log_writes_logged d [] chunks)|].
  rewrite E. unfold logged. rewrite lines_key_log by done. cbn [fst snd]. rewrite parse_key_log by done.
  split; [done|]. destruct (last_entry_fields d es F) as (H1 & H2 & H3). cbv zeta in *.
  assert (∀ l : list Z, (len l =? 0) = match l with [] => true | _ => false end) as L0 by (by intros []).
  unfold secrets, trafficSecrets. cbn [kl_set_buf kl_masterSecret kl_clientRandom kl_clientTrafficSecret kl_serverTrafficSecret].
  rewrite !L0. split.
  - destruct (last_entry LMaster es) as [[a b]|]; [|by rewrite H1]. destruct H1 as (-> & -> & N). by destruct b.
  - destruct (last_entry LClientTraffic es) as [[a b]|]; [|by rewrite H2]. destruct H2 as [-> N].
    destruct b; [done|]. cbn [orb]. destruct (last_entry LServerTraffic es) as [[a' b']|]; [|by rewrite H3].
    destruct H3 as [-> N']. by destruct b'.
Qed.

Definition test_entries : list (key_label * list Z * list Z) :=
  [(LClientHandshake, [1; 2], [3]); (LClientTraffic, [1; 2], [171; 205]); (LServerTraffic, [1; 2], [0; 255]);
   (LMaster, [1; 2], [7])].

Lemma keylog_roundtrip_witness : ∃ w,
  log_writes (newKeyLogWriter None) [take 11 (key_log test_entries); drop 11 (key_log test_entries) ++ [67]] = Some w ∧
  secrets w = Some ([1; 2], [7]) ∧ trafficSecrets w = Some ([171; 205], [0; 255]).
Proof.
  destruct (keylog_roundtrip None test_entries [67] [take 11 (key_log test_entries); drop 11 (key_log test_entries) ++ [67]])
    as (w & E & _ & S & T).
  - unfold test_entries. rewrite !list.Forall_cons. unfold entry_ok.
    split_and!; try done; by apply bytes_wfb.
  - repeat constructor; done.
  - vm_compute. reflexivity.
  - exists w. split; [exact E|]. split; [rewrite S|rewrite T]; vm_compute; reflexivity.
Defined.

(** ** What the configuration promises *)

Definition config_ok (c : Config) : Prop :=
  VersionTLS12 ≤ cf_MinVersion c ∧ cf_MinVersion c ≤ cf_MaxVersion c ∧ cf_MaxVersion c ≤ VersionTLS13 ∧
  Forall (λ s, isKTLSCipher s = true) (cf_CipherSuites c) ∧ cf_KeyLogWriter c = Some WKeyLog.

(** A config that leaves no client without AES-GCM in TLS 1.3, when it can help it. *)
Definition policy_ok (G : KtlsKnobs) (c : Config) (chi : option ClientHelloInfo) : Prop :=
  KTLSPreferTLS12IfNoAESGCM G = true → clientHelloHasTLS13AESGCM chi = false →
  cf_MinVersion c < VersionTLS13 → cf_MaxVersion c = VersionTLS12.

Lemma filter_suites_ok l : Forall (λ s, isKTLSCipher s = true) (filterKTLSCipherSuites l).
Proof.
  unfold filterKTLSCipherSuites. destruct (len l =? 0).
  - unfold ktlsCipherSuites. rewrite !list.Forall_cons. by split_and!.
  - apply List.Forall_forall. intros s Hs. apply filter_In in Hs. tauto.
Qed.

(** Case analysis of nested tests, innermost first. *)
Ltac inner_ifs :=
  repeat match goal with
  | |- context [if ?b then _ else _] => lazymatch b with context [if _ then _ else _] => fail | _ => destruct b eqn:? end
  end.

Lemma prepare_ok G g c klw : config_ok (prepareKTLSConfig G g c klw).1.2.
Proof.
  unfold prepareKTLSConfig, config_ok, VersionTLS12, VersionTLS13.
  cbn [fst snd cf_set_callback cf_MinVersion cf_MaxVersion cf_CipherSuites cf_KeyLogWriter].
  split_and!; [..|apply filter_suites_ok|done].
  all: inner_ifs; lia.
Qed.

Lemma policy_config_ok G c chi : config_ok c → config_ok (applyClientPolicy G c chi) ∧ policy_ok G (applyClientPolicy G c chi) chi.
Proof.
  intros (H1 & H2 & H3 & H4 & H5). unfold applyClientPolicy, policy_ok.
  destruct (KTLSPreferTLS12IfNoAESGCM G); cbn [negb]; [|by split].
  destruct (Z.leb_spec VersionTLS13 (cf_MinVersion c)); [split; [done|]; intros; lia|].
  destruct (clientHelloHasTLS13AESGCM chi); [by split|]. split; [|done].
  unfold config_ok, VersionTLS12, VersionTLS13 in *. cbn. split_and!; try done; lia.
Qed.

Definition is_aes_gcm (s : Z) : Prop := s = TLS_AES_128_GCM_SHA256 ∨ s = TLS_AES_256_GCM_SHA384.

Lemma force_suites_ok l : (∃ s, is_aes_gcm s ∧ s ∈ l) → Forall is_aes_gcm (fst (ForceTLS13AESGCM l)).
Proof.
  intros (s & Hs & Hin). unfold ForceTLS13AESGCM, SetTLS13CipherSuites. change (len [_; _] =? 0) with false. cbv iota.
  set (out := List.filter _ _).
  assert (s ∈ out) as Ho.
  { apply list_elem_of_In, filter_In. split; [destruct Hs as [->| ->]; simpl; auto|]. by apply bool_decide_eq_true. }
  destruct (Z.eqb_spec (len out) 0) as [E|_]; [destruct out; [by apply not_elem_of_nil in Ho|simpl in E; lia]|].
  cbn [fst]. apply List.Forall_forall. intros x Hx. apply filter_In in Hx as [[<-|[<-|[]]] _]; [by left|by right].
Qed.

(** [prepareKTLSConfig] keeps a configuration within what kernel TLS supports: versions
    1.2 and 1.3 only, with the caller's bounds where they are within them, AES-GCM suites
    only, its own key log writer; the configuration any client gets through the callback
    is within the same limits and, if wanted, forces TLS 1.2 on a client that offers TLS 1.3
    without AES-GCM.  Without a callback of the caller's, one is installed whenever the
    policy can have an effect; the caller's callback, itself perhaps the result of an
    earlier [prepareKTLSConfig], is asked first, and a nil configuration or an error of it
    is passed on.  The first call restricts the suites of TLS 1.3 to AES-GCM, if wanted. *)
Theorem ktls_config_supported (G : KtlsKnobs) (g : ktlsGlobals) (cfg : Config) (klw : keyLogWriter) :
  let '(g', c, klw') := prepareKTLSConfig G g cfg klw in
  config_ok c ∧
  (VersionTLS12 ≤ cf_MinVersion cfg ≤ VersionTLS13 → cf_MinVersion c = cf_MinVersion cfg) ∧
  (cf_MinVersion c ≤ cf_MaxVersion cfg ≤ VersionTLS13 → cf_MaxVersion c = cf_MaxVersion cfg) ∧
  (KTLSForceTLS13AESGCM G = true → tls13AESGCMOnce g = false → (∃ s, is_aes_gcm s ∧ s ∈ kg_suites g) →
    Forall is_aes_gcm (kg_suites g')) ∧
  match cf_GetConfigForClient cfg, cf_GetConfigForClient c with
  | None, None => ∀ chi, policy_ok G c chi
  | None, Some cb => ∀ g1 klw1 chi, ∃ c2,
      call_callback G g1 klw1 cb chi = (g1, klw1, (Some c2, None)) ∧ config_ok c2 ∧ policy_ok G c2 chi
  | Some orig, Some cb => ∀ g1 klw1 chi,
      match call_callback G g1 klw1 orig chi, call_callback G g1 klw1 cb chi with
      | (_, _, (Some _, None)), (_, _, (Some c2, None)) => config_ok c2 ∧ policy_ok G c2 chi
      | r, r' => r' = r
      end
  | _, _ => False
  end.
Proof.
  pose proof (prepare_ok G g cfg klw) as Hok. destruct (prepareKTLSConfig G g cfg klw) as [[g' c] klw'] eqn:E. cbn [fst snd] in Hok.
  split; [done|]. unfold prepareKTLSConfig in E. injection E as Eg Ec _. split_and!.
  - intros H. subst c. cbn [cf_set_callback cf_MinVersion]. unfold VersionTLS12, VersionTLS13 in *. inner_ifs; lia.
  - subst c. cbn [cf_set_callback cf_MinVersion cf_MaxVersion]. unfold VersionTLS12, VersionTLS13. inner_ifs; lia.
  - intros Hf Ho Hs. rewrite <-Eg. unfold maybeForceTLS13AESGCM. rewrite Hf, Ho. by apply force_suites_ok.
  - destruct (cf_GetConfigForClient cfg) as [orig|] eqn:Ecb.
    + assert (cf_GetConfigForClient c = Some (CbWrapped orig)) as -> by (by subst c). intros g1 klw1 chi. cbn [call_callback].
      destruct (call_callback G g1 klw1 orig chi) as [[g2 klw2] [[c2|] [e|]]]; try done.
      pose proof (prepare_ok G g2 c2 klw2) as Hok2. destruct (prepareKTLSConfig G g2 c2 klw2) as [[g3 c3] klw3]. by apply policy_config_ok.
    + set (base := mkConfig _ _ _ _ _ _ None) in Ec.
      assert (cf_GetConfigForClient c = if KTLSPreferTLS12IfNoAESGCM G && (cf_MinVersion c <? VersionTLS13)
        then Some (CbPolicy base) else None) as -> by (by subst c).
      destruct (KTLSPreferTLS12IfNoAESGCM G) eqn:Ep; cbn [andb]; [|by intros ? ?; rewrite Ep in *].
      destruct (Z.ltb_spec (cf_MinVersion c) VersionTLS13) as [Hm|Hm]; [|intros chi _ _ Hlt; lia].
      intros g1 klw1 chi. eexists. split; [done|]. apply policy_config_ok. by subst c.
Qed.

(** ** The keys are those of RFC 5246 and RFC 8446 *)

Definition hash_len (h : hash) : Z := match h with SHA256 => 32 | SHA384 => 48 end.

Section KeyLemmas.
Variable hmac : hash → list Z → list Z → list Z.
Variable hkdf_Expand : hash → list Z → list Z → Z → option (list Z).

(** P_hash of RFC 5246, section 5: the first [n] blocks behind [a]. *)
Fixpoint p_blocks (n : nat) (h : hash) (secret seed a : list Z) : list Z :=
  match n with
  | O => []
  | S n => let a := hmac h secret a in hmac h secret (a ++ seed) ++ p_blocks n h secret seed a
  end.
Definition P_hash (h : hash) (secret seed : list Z) (length : nat) : list Z :=
  take length (p_blocks length h secret seed seed).

(** HkdfLabel of RFC 8446, section 7.1. *)
Definition HkdfLabel (length : Z) (label context : list Z) : list Z :=
  be_bytes 2 length ++ [6 + len label] ++ (str "tls13 " ++ label) ++ [len context] ++ context.

Hypothesis hmac_len : ∀ h s m, len (hmac h s m) = hash_len h.

Lemma pHash_loop_spec fuel h secret seed dn a m : (m ≤ fuel)%nat →
  pHash_loop hmac fuel h secret seed (dn ++ replicate m 0) a (len dn) (len dn + Z.of_nat m)
  = Some (dn ++ take m (p_blocks fuel h secret seed a)).
Proof.
  revert dn a m. induction fuel as [|fuel IH]; intros dn a m Hm; cbn [pHash_loop p_blocks].
  - destruct (Z.ltb_spec (len dn) (len dn + Z.of_nat m)); [lia|]. replace m with 0%nat by lia. by rewrite take_0.
  - destruct (Z.ltb_spec (len dn) (len dn + Z.of_nat m)).
    2: { replace m with 0%nat by lia. by rewrite take_0. }
    set (a1 := hmac h secret a). set (sum := hmac h secret (a1 ++ seed)).
    assert (0 < len sum) as Hs by (unfold sum; rewrite hmac_len; by destruct h).
    rewrite copy_at_Some by llia. cbn [mbind option_bind]. rewrite length_app, length_replicate.
    destruct (decide (length sum ≤ m)%nat) as [Hl|Hl].
    + rewrite blit_app by (rewrite length_replicate; lia). rewrite drop_replicate, app_assoc.
      replace (len dn + Z.min (len sum) (Z.of_nat (length dn + m) - len dn)) with (len (dn ++ sum)) by llia.
      replace (len dn + Z.of_nat m) with (len (dn ++ sum) + Z.of_nat (m - length sum)) by llia.
      rewrite IH by lia. f_equal. rewrite <-app_assoc. f_equal. rewrite take_app, (take_ge sum) by lia. done.
    + assert (blit (dn ++ replicate m 0) (len dn) sum = dn ++ take m sum) as ->.
      { unfold blit. rewrite Nat2Z.id, take_app_length, length_app, length_replicate.
        rewrite (drop_ge _ (length dn + length sum)) by llia. rewrite app_nil_r. f_equal. f_equal. lia. }
      replace (len dn + Z.min (len sum) (Z.of_nat (length dn + m) - len dn)) with (len (dn ++ take m sum)) by llia.
      replace (len dn + Z.of_nat m) with (len (dn ++ take m sum) + Z.of_nat 0) by llia.
      rewrite <-(app_nil_r (dn ++ take m sum)) at 1. change [] with (replicate 0 0 : list Z) at 1.
      rewrite IH by lia. rewrite take_0, app_nil_r. f_equal. f_equal. rewrite take_app_le by lia. done.
Qed.

Lemma pHash_spec secret seed length h : 0 ≤ length →
  pHash hmac secret seed length h = Some (P_hash h secret seed (Z.to_nat length)).
Proof.
  intros Hl. unfold pHash, P_hash.
  pose proof (pHash_loop_spec (Z.to_nat length) h secret seed [] seed (Z.to_nat length) ltac:(lia)) as E.
  cbn [app Datatypes.length] in E. change (Z.of_nat 0) with 0 in E.
  replace (0 + Z.of_nat (Z.to_nat length)) with length in E by lia. exact E.
Qed.

Lemma length_p_blocks n h secret seed a : (n ≤ length (p_blocks n h secret seed a))%nat.
Proof.
  revert a. induction n as [|n IH]; intros a; cbn [p_blocks]; [lia|]. rewrite length_app.
  specialize (IH (hmac h secret a)). pose proof (hmac_len h secret (hmac h secret a ++ seed)).
  assert (0 < hash_len h) by (by destruct h). lia.
Qed.

Lemma hkdfLabel_spec : ∀ n label, (n, label) ∈ [(16, str "key"); (32, str "key"); (12, str "iv")] →
  hkdfLabel label [] n = Some (HkdfLabel n label []).
Proof.
  intros n label H. repeat (apply list.elem_of_cons in H as [H|H]; [by simplify_eq|]). by apply not_elem_of_nil in H.
Qed.

(** [hkdf.Expand] fails only for keys longer than 255 digests. *)
Hypothesis hkdf_len : ∀ h s i n, 0 ≤ n ≤ 255 * hash_len h →
  ∃ k, hkdf_Expand h s i n = Some k ∧ len k = n.

Lemma hkdfExpandLabel_spec secret h n label : (n, label) ∈ [(16, str "key"); (32, str "key"); (12, str "iv")] →
  ∃ k, hkdfExpandLabel hkdf_Expand secret h label [] n = Some k ∧ len k = n ∧
       hkdf_Expand h secret (HkdfLabel n label []) n = Some k.
Proof.
  intros H. unfold hkdfExpandLabel. rewrite (hkdfLabel_spec n label H). cbn [mbind option_bind].
  destruct (hkdf_len h secret (HkdfLabel n label []) n) as (k & -> & Hk).
  { repeat (apply list.elem_of_cons in H as [H|H]; [simplify_eq; by destruct h|]). by apply not_elem_of_nil in H. }
  by exists k.
Qed.

Lemma derive12_spec (master clientRandom serverRandom : list Z) (suite : Z) :
  match suite12 suite with
  | Some (n, h) => ∃ keys,
      deriveTLS12Keys hmac master clientRandom serverRandom suite = Some (Some keys) ∧
      clientKey keys ++ serverKey keys ++ clientIV keys ++ serverIV keys
        = P_hash h master (str "key expansion" ++ serverRandom ++ clientRandom) (Z.to_nat (2 * n + 8)) ∧
      len (clientKey keys) = n ∧ len (serverKey keys) = n ∧ len (clientIV keys) = 4 ∧ len (serverIV keys) = 4
  | None => deriveTLS12Keys hmac master clientRandom serverRandom suite = Some None
  end.
Proof.
  unfold deriveTLS12Keys. destruct (suite12 suite) as [[n h]|] eqn:E; [|done].
  assert (n = 16 ∨ n = 32) as Hn by (unfold suite12 in E; repeat case_match; simplify_eq; tauto).
  unfold tls12PRF. rewrite pHash_spec by lia. cbn [mbind option_bind]. set (B := P_hash _ _ _ _).
  assert (len B = 2 * n + 2 * 4) as LB.
  { unfold B, P_hash. rewrite length_take.
    pose proof (length_p_blocks (Z.to_nat (2 * n + 2 * 4)) h master (str "key expansion" ++ serverRandom ++ clientRandom)
      (str "key expansion" ++ serverRandom ++ clientRandom)). lia. }
  rewrite !slice_Some by lia. cbn [mbind option_bind]. eexists. split; [done|].
  cbn [clientKey serverKey clientIV serverIV]. rewrite !length_sub by lia. split_and!; try lia.
  rewrite !sub_app by lia. replace (0 + n + n + 4 + 4) with (len B) by lia. rewrite sub_full. done.
Qed.

Lemma derive13_spec (clientSecret serverSecret : list Z) (suite : Z) :
  match suite13 suite with
  | Some (n, h) => ∃ keys,
      deriveTLS13Keys hkdf_Expand clientSecret serverSecret suite = Some (Some keys) ∧
      hkdf_Expand h clientSecret (HkdfLabel n (str "key") []) n = Some (clientKey keys) ∧
      hkdf_Expand h serverSecret (HkdfLabel n (str "key") []) n = Some (serverKey keys) ∧
      hkdf_Expand h clientSecret (HkdfLabel 12 (str "iv") []) 12 = Some (clientIV keys) ∧
      hkdf_Expand h serverSecret (HkdfLabel 12 (str "iv") []) 12 = Some (serverIV keys) ∧
      len (clientKey keys) = n ∧ len (serverKey keys) = n ∧ len (clientIV keys) = 12 ∧ len (serverIV keys) = 12
  | None => deriveTLS13Keys hkdf_Expand clientSecret serverSecret suite = Some None
  end.
Proof.
  unfold deriveTLS13Keys. destruct (suite13 suite) as [[n h]|] eqn:E; [|done].
  assert (n = 16 ∨ n = 32) as Hn by (unfold suite13 in E; repeat case_match; simplify_eq; tauto).
  assert ((n, str "key") ∈ [(16, str "key"); (32, str "key"); (12, str "iv")]) as Hk
    by (rewrite !list.elem_of_cons; destruct Hn as [->| ->]; tauto).
  assert ((12, str "iv") ∈ [(16, str "key"); (32, str "key"); (12, str "iv")]) as Hi
    by (rewrite !list.elem_of_cons; tauto).
  destruct (hkdfExpandLabel_spec clientSecret h n _ Hk) as (ck & -> & L1 & E1).
  destruct (hkdfExpandLabel_spec clientSecret h 12 _ Hi) as (ci & -> & L2 & E2).
  destruct (hkdfExpandLabel_spec serverSecret h n _ Hk) as (sk & -> & L3 & E3).
  destruct (hkdfExpandLabel_spec serverSecret h 12 _ Hi) as (si & -> & L4 & E4).
  cbn [mbind option_bind]. eexists. split; [done|]. by split_and!.
Qed.

(** The keys handed to the kernel are those of the standards: for TLS 1.2 the
    key block of RFC 5246 cut in client key, server key, client IV and server IV; for
    TLS 1.3 the HKDF-Expand-Label of RFC 8446 of the two traffic secrets; of the length
    the suite has; no other suite is accepted, and nothing panics. *)
Theorem ktls_keys_are_standard (master clientRandom serverRandom clientSecret serverSecret : list Z) (suite : Z) :
  match suite12 suite with
  | Some (n, h) => ∃ keys,
      deriveTLS12Keys hmac master clientRandom serverRandom suite = Some (Some keys) ∧
      clientKey keys ++ serverKey keys ++ clientIV keys ++ serverIV keys
        = P_hash h master (str "key expansion" ++ serverRandom ++ clientRandom) (Z.to_nat (2 * n + 8)) ∧
      len (clientKey keys) = n ∧ len (serverKey keys) = n ∧ len (clientIV keys) = 4 ∧ len (serverIV keys) = 4
  | None => deriveTLS12Keys hmac master clientRandom serverRandom suite = Some None
  end ∧
  match suite13 suite with
  | Some (n, h) => ∃ keys,
      deriveTLS13Keys hkdf_Expand clientSecret serverSecret suite = Some (Some keys) ∧
      hkdf_Expand h clientSecret (HkdfLabel n (str "key") []) n = Some (clientKey keys) ∧
      hkdf_Expand h serverSecret (HkdfLabel n (str "key") []) n = Some (serverKey keys) ∧
      hkdf_Expand h clientSecret (HkdfLabel 12 (str "iv") []) 12 = Some (clientIV keys) ∧
      hkdf_Expand h serverSecret (HkdfLabel 12 (str "iv") []) 12 = Some (serverIV keys) ∧
      len (clientKey keys) = n ∧ len (serverKey keys) = n ∧ len (clientIV keys) = 12 ∧ len (serverIV keys) = 12
  | None => deriveTLS13Keys hkdf_Expand clientSecret serverSecret suite = Some None
  end.
Proof. split; [apply derive12_spec|apply derive13_spec]. Qed.

End KeyLemmas.

(** Stand-ins for HMAC and HKDF-Expand with the right lengths. *)
Definition test_hmac (h : hash) (s m : list Z) : list Z := replicate (Z.to_nat (hash_len h)) (len s + len m).
Definition test_hkdf (h : hash) (s i : list Z) (n : Z) : option (list Z) :=
  if (0 <=? n) && (n <=? 255 * hash_len h) then Some (replicate (Z.to_nat n) (len s + len i)) else None.

Lemma ktls_keys_are_standard_witness : ∃ keys,
  deriveTLS12Keys test_hmac [1; 2; 3] (make_bytes 32) (make_bytes 32) TLS_RSA_WITH_AES_128_GCM_SHA256 = Some (Some keys) ∧
  len (clientKey keys) = 16 ∧ len (serverIV keys) = 4.
Proof.
  destruct (ktls_keys_are_standard test_hmac test_hkdf) with (master := [1; 2; 3]) (clientRandom := make_bytes 32)
    (serverRandom := make_bytes 32) (clientSecret := [4]) (serverSecret := [5]) (suite := TLS_RSA_WITH_AES_128_GCM_SHA256)
    as [(keys & E & _ & L1 & _ & _ & L4) _].
  - intros h s m. unfold test_hmac. rewrite length_replicate. destruct h; reflexivity.
  - intros h s i n Hn. unfold test_hkdf. exists (replicate (Z.to_nat n) (len s + len i)).
    replace ((0 <=? n) && (n <=? 255 * hash_len h)) with true by blia. split; [reflexivity|].
    rewrite length_replicate. lia.
  - exists keys. split; [exact E|]. split; [exact L1|exact L4].
Defined.

(** ** What the kernel gets *)

(** A successful [setsockopt] sets the parameters of one direction of one descriptor, a
    failed one changes nothing. *)
Class KtlsKernelLaws (K : Type) `{KtlsKernel K} : Prop := {
  sys_set_ulp_ok k fd fd' tx' : kt_get (fst (sys_set_ulp k fd)) fd' tx' = kt_get k fd' tx';
  sys_set_tls_ok k fd tx i : let '(k', e) := sys_set_tls k fd tx i in
    kt_get k' fd tx = (if bool_decide (e = None) then Some i else kt_get k fd tx) ∧
    ∀ fd' tx', (fd', tx') ≠ (fd, tx) → kt_get k' fd' tx' = kt_get k fd' tx';
}.

Section EnableLemmas.
Context {K : Type} `{!KtlsKernel K, !KtlsKernelLaws K}.
Variable G : KtlsKnobs.

(** The parameters of the direction from the client, or from the server. *)
Definition dir12 (fromClient : bool) (cipher keyLen : Z) (keys : Keys) (seq : Z) : cryptoInfo :=
  if fromClient then info12 cipher keyLen (clientKey keys) (clientIV keys) seq
  else info12 cipher keyLen (serverKey keys) (serverIV keys) seq.
Definition dir13 (fromClient : bool) (cipher keyLen : Z) (keys : Keys) (seq : list Z) : cryptoInfo :=
  if fromClient then info13 cipher keyLen (clientKey keys) (clientIV keys) seq
  else info13 cipher keyLen (serverKey keys) (serverIV keys) seq.
Definition dir_iv (fromClient : bool) (keys : Keys) : list Z := if fromClient then clientIV keys else serverIV keys.

Lemma set_retry_spec k fd tx i alt : let '(k', e) := set_retry k fd tx i alt in
  (e = None → kt_get k' fd tx = Some i ∨ kt_get k' fd tx = Some alt) ∧
  (e ≠ None → kt_get k' fd tx = kt_get k fd tx) ∧
  ∀ fd' tx', (fd', tx') ≠ (fd, tx) → kt_get k' fd' tx' = kt_get k fd' tx'.
Proof.
  unfold set_retry. pose proof (sys_set_tls_ok k fd tx i) as R. destruct (sys_set_tls k fd tx i) as [k1 [e|]].
  - destruct R as [S O]. rewrite bool_decide_eq_false_2 in S by done. case_bool_decide; [|done].
    pose proof (sys_set_tls_ok k1 fd tx alt) as R1. destruct (sys_set_tls k1 fd tx alt) as [k2 e2].
    destruct R1 as [G1 O1]. split_and!; [intros ->; by right| |intros fd' tx' Hne; by rewrite O1, O].
    intros He. by rewrite bool_decide_eq_false_2, S in G1.
  - destruct R as [G1 O]. split; [by left|done].
Qed.

(** The sending direction carries [tx] in one of its layouts, the receiving one [rx] if it
    is switched too. *)
Definition both_set (k k' : K) (fd : Z) (tx txAlt rx rxAlt : cryptoInfo) : Prop :=
  (kt_get k' fd true = Some tx ∨ kt_get k' fd true = Some txAlt) ∧
  (if KTLSEnableRX G then kt_get k' fd false = Some rx ∨ kt_get k' fd false = Some rxAlt
   else kt_get k' fd false = kt_get k fd false).

Definition both_effect (k k' : K) (fd : Z) (err : option ktls_error) (tx txAlt rx rxAlt : cryptoInfo) : Prop :=
  (err = None → both_set k k' fd tx txAlt rx rxAlt) ∧
  (err ≠ None → KTLSEnableRX G = false → ∀ d, kt_get k' fd d = kt_get k fd d) ∧
  ∀ fd' d, fd' ≠ fd → kt_get k' fd' d = kt_get k fd' d.

Lemma set_both_spec k fd tx txAlt rx rxAlt : let '(k', e) := set_both G k fd tx txAlt rx rxAlt in
  both_effect k k' fd e tx txAlt rx rxAlt.
Proof.
  unfold set_both, both_effect, both_set. pose proof (set_retry_spec k fd true tx txAlt) as R.
  destruct (set_retry k fd true tx txAlt) as [k1 [e|]]; destruct R as (R1 & F1 & O1).
  { split_and!; [done|intros _ _ []; [by apply F1|by apply O1]|]. intros fd' d Hne. apply O1. by intros [= ->]. }
  specialize (R1 eq_refl). destruct (KTLSEnableRX G).
  - pose proof (set_retry_spec k1 fd false rx rxAlt) as R. destruct (set_retry k1 fd false rx rxAlt) as [k2 e2].
    destruct R as (R2 & _ & O2). split_and!; [|done|].
    + intros E. destruct e2; [done|]. split; [|by apply R2]. by rewrite O2.
    + intros fd' d Hne. rewrite O2, O1; [done|by intros [= ->]..].
  - split_and!; [intros _; split; [done|by apply O1]|done|]. intros fd' d Hne. apply O1. by intros [= ->].
Qed.

(** The two ways into [set_both]: the sender's parameters go out, the other's come in. *)
Lemma enable12_spec k fd isClient suite keys inSeq outSeq :
  let '(k', err) := enableKTLS G k fd isClient suite keys inSeq outSeq in
  (∀ cipher keyLen, cipher12 suite = Some (cipher, keyLen) →
    let out := dir12 isClient cipher keyLen keys outSeq in
    let inp := dir12 (negb isClient) cipher keyLen keys inSeq in
    both_effect k k' fd err out (info12_alt out outSeq) inp (info12_alt inp inSeq)) ∧
  (cipher12 suite = None → err ≠ None ∧ ∀ fd' d, kt_get k' fd' d = kt_get k fd' d).
Proof.
  unfold enableKTLS. pose proof (sys_set_ulp_ok k fd) as U. destruct (sys_set_ulp k fd) as [k1 [e|]]; cbn [fst] in U.
  { split; [intros; split_and!; [done|intros; apply U|intros; apply U]|done]. }
  destruct (cipher12 suite) as [[cipher keyLen]|] eqn:Ec; [|destruct isClient; by split].
  destruct isClient; match goal with |- context [set_both G k1 fd ?a ?b ?c ?d] =>
    pose proof (set_both_spec k1 fd a b c d) as R; destruct (set_both G k1 fd a b c d) as [k2 e2] end;
    (split; [|done]); intros ? ? [= <- <-]; unfold both_effect, both_set in *; rewrite !U in R;
    (destruct R as (R1 & R2 & R3); split_and!; [exact R1|intros He Hr d; by rewrite R2, U|intros; by rewrite R3, U]).
Qed.

Lemma enable13_spec k fd isClient suite keys inSeq outSeq :
  let '(k', err) := enableKTLS13 G k fd isClient suite keys inSeq outSeq in
  (∀ cipher keyLen, cipher13 suite = Some (cipher, keyLen) →
    let out := dir13 isClient cipher keyLen keys outSeq in
    let inp := dir13 (negb isClient) cipher keyLen keys inSeq in
    both_effect k k' fd err out (info13_alt out (dir_iv isClient keys)) inp (info13_alt inp (dir_iv (negb isClient) keys))) ∧
  (cipher13 suite = None → err ≠ None ∧ ∀ fd' d, kt_get k' fd' d = kt_get k fd' d).
Proof.
  unfold enableKTLS13. pose proof (sys_set_ulp_ok k fd) as U. destruct (sys_set_ulp k fd) as [k1 [e|]]; cbn [fst] in U.
  { split; [intros; split_and!; [done|intros; apply U|intros; apply U]|done]. }
  destruct (cipher13 suite) as [[cipher keyLen]|] eqn:Ec; [|destruct isClient; by split].
  destruct isClient; match goal with |- context [set_both G k1 fd ?a ?b ?c ?d] =>
    pose proof (set_both_spec k1 fd a b c d) as R; destruct (set_both G k1 fd a b c d) as [k2 e2] end;
    (split; [|done]); intros ? ? [= <- <-]; unfold both_effect, both_set in *; rewrite !U in R;
    (destruct R as (R1 & R2 & R3); split_and!; [exact R1|intros He Hr d; by rewrite R2, U|intros; by rewrite R3, U]).
Qed.

(** When the switch to kernel TLS succeeds, the kernel encrypts what this side sends
    with the keys, salt and record number of its own direction, and, if RX is enabled,
    decrypts with those of the other, so that the two ends of a connection install the
    same parameters for each direction (possibly in the layout of the second attempt);
    without RX the receiving side is untouched, other descriptors always are, and an
    unsupported suite is refused. *)
Theorem ktls_directions_agree (k : K) (fd : Z) (isClient : bool) (suite : Z) (keys : Keys)
    (inSeq outSeq : Z) (inSeq13 outSeq13 : list Z) :
  (let '(k', err) := enableKTLS G k fd isClient suite keys inSeq outSeq in
   (∀ fd' d, fd' ≠ fd → kt_get k' fd' d = kt_get k fd' d) ∧
   (err = None → ∃ cipher keyLen, cipher12 suite = Some (cipher, keyLen) ∧
      let out := dir12 isClient cipher keyLen keys outSeq in
      let inp := dir12 (negb isClient) cipher keyLen keys inSeq in
      (kt_get k' fd true = Some out ∨ kt_get k' fd true = Some (info12_alt out outSeq)) ∧
      if KTLSEnableRX G then kt_get k' fd false = Some inp ∨ kt_get k' fd false = Some (info12_alt inp inSeq)
      else kt_get k' fd false = kt_get k fd false)) ∧
  (let '(k', err) := enableKTLS13 G k fd isClient suite keys inSeq13 outSeq13 in
   (∀ fd' d, fd' ≠ fd → kt_get k' fd' d = kt_get k fd' d) ∧
   (err = None → ∃ cipher keyLen, cipher13 suite = Some (cipher, keyLen) ∧
      let out := dir13 isClient cipher keyLen keys outSeq13 in
      let inp := dir13 (negb isClient) cipher keyLen keys inSeq13 in
      (kt_get k' fd true = Some out ∨ kt_get k' fd true = Some (info13_alt out (dir_iv isClient keys))) ∧
      if KTLSEnableRX G
      then kt_get k' fd false = Some inp ∨ kt_get k' fd false = Some (info13_alt inp (dir_iv (negb isClient) keys))
      else kt_get k' fd false = kt_get k fd false)).
Proof.
  pose proof (enable12_spec k fd isClient suite keys inSeq outSeq) as R12.
  pose proof (enable13_spec k fd isClient suite keys inSeq13 outSeq13) as R13. split.
  - destruct (enableKTLS _ _ _ _ _ _ _ _) as [k' err]. destruct R12 as [R F].
    destruct (cipher12 suite) as [[cipher keyLen]|] eqn:Ec; [|destruct (F eq_refl); split; [by auto|done]].
    destruct (R cipher keyLen eq_refl) as (S & _ & O). split; [exact O|]. intros E. exists cipher, keyLen. split; [done|]. exact (S E).
  - destruct (enableKTLS13 _ _ _ _ _ _ _ _) as [k' err]. destruct R13 as [R F].
    destruct (cipher13 suite) as [[cipher keyLen]|] eqn:Ec; [|destruct (F eq_refl); split; [by auto|done]].
    destruct (R cipher keyLen eq_refl) as (S & _ & O). split; [exact O|]. intros E. exists cipher, keyLen. split; [done|]. exact (S E).
Qed.

End EnableLemmas.

(** A kernel that refuses the first layout of TLS 1.3 parameters. *)
Definition TestTls : Type := list (Z * bool * cryptoInfo).

#[export] Instance TT_KtlsKernel : KtlsKernel TestTls := {|
  sys_set_ulp k _ := (k, None);
  sys_set_tls k fd tx i :=
    if bool_decide (ci_Salt i = [1; 2; 3; 4]) then (k, Some EINVAL) else ((fd, tx, i) :: k, None);
  kt_get k fd tx := snd <$> List.find (λ e, (fst (fst e) =? fd) && Bool.eqb (snd (fst e)) tx) k |}.

#[export] Instance TT_KtlsKernelLaws : KtlsKernelLaws TestTls.
Proof.
  split; [done|]. intros k fd tx i. cbn [sys_set_tls TT_KtlsKernel]. case_bool_decide.
  - split; [|done]. by rewrite bool_decide_eq_false_2 by done.
  - rewrite bool_decide_eq_true_2 by done. cbn [kt_get TT_KtlsKernel List.find fst snd]. split.
    + rewrite Z.eqb_refl, Bool.eqb_reflx. done.
    + intros fd' tx' Hne. destruct (Z.eqb_spec fd fd') as [->|]; [|done]. cbn [andb].
      destruct (Bool.eqb tx tx') eqn:E; [|done]. apply Bool.eqb_prop in E as ->. done.
Qed.

Definition test_keys : Keys :=
  mkKeys (replicate 16 5) (replicate 16 6) [1; 2; 3; 4; 5; 6; 7; 8; 9; 10; 11; 12] [9; 9; 9; 9; 5; 6; 7; 8; 9; 10; 11; 12] SHA256.

Lemma ktls_directions_agree_witness :
  let '(k', err) := enableKTLS13 (mkKtlsKnobs true true true false 0 0) ([] : TestTls) 4 false TLS_AES_128_GCM_SHA256 test_keys
                      (replicate 8 1) (replicate 8 2) in
  err = None ∧ ∀ fd' d, fd' ≠ 4 → kt_get k' fd' d = None.
Proof.
  pose proof (ktls_directions_agree (mkKtlsKnobs true true true false 0 0) ([] : TestTls) 4 false TLS_AES_128_GCM_SHA256 test_keys
    0 0 (replicate 8 1) (replicate 8 2)) as [_ H].
  split; [vm_compute; reflexivity|]. intros fd' d Hne. exact (proj1 H fd' d Hne).
Defined.
