(* ===== verification/TlsConn.v ===== *)
(** * connection/tlsconn.go: TLS on top of the event loop

    [ATLSConn] runs crypto/tls over [tlsBufferConn], a pair of ring buffers: ciphertext
    that arrived waits in [cin] for the engine to read it, ciphertext the engine
    writes waits in [cout] to be sent.  With kernel TLS the socket carries plaintext
    and the queue is flushed directly.  The engine, crypto/tls, is a parameter: a
    program that reads from and writes to the connection below it.  The handshake is
    in [KtlsSetup.v]; [direct], the connection it runs on, is kept because [Read] and
    [Write] test it. *)

From stdpp Require Import strings.
From S2P Require Import Prelude Pool Tuning WriteQueue RingBuffer Conn TlsStrict.

Definition tlsCipherReadSize : Z := 32 * 1024.
Definition tlsWriteChunkSize : Z := 16 * 1024.
Definition tlsMaxWritevIovecs : Z := 2.

Definition errWouldBlock : errno := EOTHER 2.
Definition errEof : errno := EOTHER 3.         (* errors.New("eof") *)
Definition errNoBuffer : errno := EOTHER 4.    (* "tls buffer conn not initialized" *)

(** ** crypto/tls *)

(** A call into the engine: it reads and writes the connection below, gets what those
    calls return, and returns. *)
Inductive tprog (R : Type) : Type :=
| TRet (r : R)
| TRead (n : nat) (cont : list Z → option errno → tprog R)
| TWrite (b : list Z) (cont : Z → option errno → tprog R).
Arguments TRet {R}. Arguments TRead {R}. Arguments TWrite {R}.

(** [tls.Conn]; the last four are for specification: the application bytes taken and
    delivered, the ciphertext written and read. *)
Class TlsEngine (E : Type) := {
  te_Read : E → Z → tprog (E * list Z * option errno);
  te_Write : E → list Z → tprog (E * Z * option errno);
  te_Close : E → tprog (E * option errno);
  te_taken : E → list Z;
  te_given : E → list Z;
  te_out : E → list Z;
  te_in : E → list Z;
}.

(** ** tlsBufferConn *)

Record tlsBufferConn (N A : Type) := mkTB {
  tb_direct : option N; tb_cin : RingBuffer; tb_cout : RingBuffer; tb_local : option A; tb_remote : option A }.
Arguments mkTB {N A}. Arguments tb_direct {N A}. Arguments tb_cin {N A}. Arguments tb_cout {N A}.
Arguments tb_local {N A}. Arguments tb_remote {N A}.

Section Buffer.
Context {P N A : Type} `{!Allocator P, !NetConn N}.
Implicit Types (b : tlsBufferConn N A).

Definition newTLSBufferConn : tlsBufferConn N A := mkTB None NewRingBuffer NewRingBuffer None None.

Definition tb_setDirect b (conn : option N) : tlsBufferConn N A :=
  mkTB conn (tb_cin b) (tb_cout b) (tb_local b) (tb_remote b).
Definition clearDirect b : tlsBufferConn N A := tb_setDirect b None.
Definition tb_set_cin b rb : tlsBufferConn N A := mkTB (tb_direct b) rb (tb_cout b) (tb_local b) (tb_remote b).
Definition tb_set_cout b rb : tlsBufferConn N A := mkTB (tb_direct b) (tb_cin b) rb (tb_local b) (tb_remote b).

(** [Read] into a buffer of [n] bytes. *)
Definition tlsBufferConn_Read b (n : nat) : option (tlsBufferConn N A * list Z * option errno) :=
  match n with
  | O => Some (b, [], None)
  | _ =>
      match tb_direct b with
      | Some d => let '(d, data, e) := nc_read d (Z.of_nat n) in Some (tb_setDirect b (Some d), data, e)
      | None =>
          if RingBuffer_Has (tb_cin b) =? 0 then Some (b, [], Some errWouldBlock)
          else
            '(cin, p, m) ← RingBuffer_Read (tb_cin b) (replicate n 0) (Z.of_nat n) true;
            if m <=? 0 then Some (tb_set_cin b cin, [], Some errWouldBlock)
            else Some (tb_set_cin b cin, take (Z.to_nat m) p, None)
      end
  end.

Definition tlsBufferConn_Write (pool : P) b (p : list Z) : option (P * tlsBufferConn N A * (Z * option errno)) :=
  if len p =? 0 then Some (pool, b, (0, None))
  else
    match tb_direct b with
    | Some d => let '(d, r) := nc_write d p in Some (pool, tb_setDirect b (Some d), r)
    | None =>
        '(pool, cout, rc) ← RingBuffer_Write pool (tb_cout b) p (len p) true;
        Some (pool, tb_set_cout b cout, if rc <? 0 then (0, Some ENOMEM) else (len p, None))
    end.

(** Running the engine over the buffers. *)
Fixpoint run_tls {R} (pool : P) b (t : tprog R) : option (P * tlsBufferConn N A * R) :=
  match t with
  | TRet r => Some (pool, b, r)
  | TRead n cont => '(b, d, e) ← tlsBufferConn_Read b n; run_tls pool b (cont d e)
  | TWrite p cont => '(pool, b, (n, e)) ← tlsBufferConn_Write pool b p; run_tls pool b (cont n e)
  end.

End Buffer.

(** ** ATLSConn *)

Record ATLSConn (H A X N E : Type) := mkATLS {
  a_base : Base H A X; a_closecb : bool; a_opencb : bool; a_Conn : option E; a_buf : option (tlsBufferConn N A);
  a_ktls : bool; a_ktlsRX : bool; a_preRead : list Z; a_preReadOff : Z; a_acceptLoopID : Z }.
Arguments mkATLS {H A X N E}. Arguments a_base {H A X N E}. Arguments a_closecb {H A X N E}.
Arguments a_opencb {H A X N E}. Arguments a_Conn {H A X N E}. Arguments a_buf {H A X N E}.
Arguments a_ktls {H A X N E}. Arguments a_ktlsRX {H A X N E}. Arguments a_preRead {H A X N E}.
Arguments a_preReadOff {H A X N E}. Arguments a_acceptLoopID {H A X N E}.

Section ATLS.
Context {P K H A X N E : Type} `{!Allocator P, !Kernel K, !NetConn N, !TlsEngine E}.
Variable T : Connection.
Implicit Types (c : ATLSConn H A X N E).

Definition a_set_base c (b : Base H A X) : ATLSConn H A X N E :=
  mkATLS b (a_closecb c) (a_opencb c) (a_Conn c) (a_buf c) (a_ktls c) (a_ktlsRX c) (a_preRead c) (a_preReadOff c) (a_acceptLoopID c).
Definition a_set_tls c (e : E) (b : tlsBufferConn N A) : ATLSConn H A X N E :=
  mkATLS (a_base c) (a_closecb c) (a_opencb c) (Some e) (Some b) (a_ktls c) (a_ktlsRX c) (a_preRead c) (a_preReadOff c) (a_acceptLoopID c).
Definition a_set_buf c (b : tlsBufferConn N A) : ATLSConn H A X N E :=
  mkATLS (a_base c) (a_closecb c) (a_opencb c) (a_Conn c) (Some b) (a_ktls c) (a_ktlsRX c) (a_preRead c) (a_preReadOff c) (a_acceptLoopID c).
Definition a_set_preRead c (p : list Z) (off : Z) : ATLSConn H A X N E :=
  mkATLS (a_base c) (a_closecb c) (a_opencb c) (a_Conn c) (a_buf c) (a_ktls c) (a_ktlsRX c) p off (a_acceptLoopID c).

Definition a_add_recv c (n : Z) : ATLSConn H A X N E :=
  let b := a_base c in a_set_base c (Base_set_counters b (AddInt32 (b_recv b) n) (b_send b)).
Definition a_add_send c (n : Z) : ATLSConn H A X N E :=
  let b := a_base c in a_set_base c (Base_set_counters b (b_recv b) (AddInt32 (b_send b) n)).

Definition ATLSConn_SetAcceptLoopID c (loopID : Z) : ATLSConn H A X N E :=
  mkATLS (a_base c) (a_closecb c) (a_opencb c) (a_Conn c) (a_buf c) (a_ktls c) (a_ktlsRX c) (a_preRead c) (a_preReadOff c) loopID.
Definition ATLSConn_AcceptLoopID c : Z := a_acceptLoopID c.

(** The address the connection keeps is also that of its buffers. *)
Definition tb_set_addrs (b : tlsBufferConn N A) (local remote : option A) : tlsBufferConn N A :=
  mkTB (tb_direct b) (tb_cin b) (tb_cout b) local remote.
Definition a_set_bufs c (f : tlsBufferConn N A → tlsBufferConn N A) : ATLSConn H A X N E :=
  mkATLS (a_base c) (a_closecb c) (a_opencb c) (a_Conn c) (f <$> a_buf c) (a_ktls c) (a_ktlsRX c) (a_preRead c) (a_preReadOff c) (a_acceptLoopID c).

Definition ATLSConn_SetRemote c (addr : option A) : ATLSConn H A X N E :=
  let b := a_base c in
  a_set_bufs (a_set_base c (Base_set_addrs b (b_local b) addr (b_localAddr b) "")) (λ t, tb_set_addrs t (tb_local t) addr).
Definition ATLSConn_SetLocal c (addr : option A) : ATLSConn H A X N E :=
  let b := a_base c in
  a_set_bufs (a_set_base c (Base_set_addrs b addr (b_remote b) "" (b_remoteAddr b))) (λ t, tb_set_addrs t addr (tb_remote t)).

Definition ATLSConn_GetType c : Z := TYPE_CONN_TLS.
Definition IsKTLS c : bool := a_ktls c.
Definition IsKTLSRX c : bool := a_ktls c && a_ktlsRX c.

Definition BufferedPlaintextLen c : Z :=
  if len (a_preRead c) <=? a_preReadOff c then 0 else len (a_preRead c) - a_preReadOff c.

Definition ATLSConn_PendingWrite c : Z :=
  Base_PendingWrite (a_base c) + match a_buf c with Some b => RingBuffer_Has (tb_cout b) | None => 0 end.

Definition readCiphertext (pool : P) (k : K) c : option (P * K * ATLSConn H A X N E * (Z * option errno)) :=
  b ← a_buf c;
  '(pool, cin, win) ← RingBuffer_PeekWrite pool (tb_cin b) tlsCipherReadSize;
  match win with
  | None => Some (pool, k, a_set_buf c (tb_set_cin b cin), (0, Some ENOMEM))
  | Some (off, sz) =>
      if sz =? 0 then Some (pool, k, a_set_buf c (tb_set_cin b cin), (0, Some ENOMEM))
      else
        let '(k, d, n, err) := sys_read k (b_fd (a_base c)) sz in
        let c := if 0 <? n
                 then a_add_recv (a_set_buf c (tb_set_cin b (fst (RingBuffer_Forward (fill_window cin off d) n OpWrite)))) n
                 else a_set_buf c (tb_set_cin b cin) in
        match err with
        | Some e =>
            if bool_decide (e = EAGAIN) then Some (pool, k, c, (if n <? 0 then 0 else n, Some EAGAIN))
            else Some (pool, k, c, (n, Some e))
        | None => if n =? 0 then Some (pool, k, c, (0, Some errEof)) else Some (pool, k, c, (n, None))
        end
  end.

(** The loop of [Read] into a buffer of [m] bytes: one round per read of the socket. *)
Fixpoint read_loop (fuel : nat) (pool : P) (k : K) c (m : Z) :
    option (P * K * ATLSConn H A X N E * list Z * (Z * option errno)) :=
  match fuel with
  | O => None
  | S fuel =>
      e ← a_Conn c; b ← a_buf c;
      '(pool, b, (e, d, err)) ← run_tls pool b (te_Read e m);
      let c := a_set_tls c e b in
      if 0 <? len d then Some (pool, k, c, d, (len d, None))
      else
        match err with
        | None => Some (pool, k, c, [], (0, Some EAGAIN))
        | Some err =>
            if negb (bool_decide (err = errWouldBlock)) then Some (pool, k, c, [], (0, Some err))
            else
              '(pool, k, c, (_, rerr)) ← readCiphertext pool k c;
              match rerr with
              | Some e => Some (pool, k, c, [], (0, Some e))
              | None => read_loop fuel pool k c m
              end
        end
  end.

(** [Read] and [Write] when the kernel has the direction. *)
Definition ktls_Read (k : K) c (m : Z) : K * ATLSConn H A X N E * list Z * (Z * option errno) :=
  let '(k, d, n, err) := sys_read k (b_fd (a_base c)) m in
  let n := if n <? 0 then 0 else n in
  let n := if bool_decide (err = Some EAGAIN) then 0 else n in
  if bool_decide (err = Some EIO) then (k, c, d, (0, Some EOF))
  else if (n =? 0) && bool_decide (err = None) then (k, c, d, (0, Some EOF))
  else (k, (if 0 <? n then a_add_recv c n else c), d, (n, err)).

Definition ktls_Write (k : K) c (p : list Z) : K * ATLSConn H A X N E * (Z * option errno) :=
  let '(k, n, err) := sys_write k (b_fd (a_base c)) p in
  let n := if n <? 0 then 0 else n in
  let n := if bool_decide (err = Some EAGAIN) then 0 else n in
  (k, (if 0 <? n then a_add_send c n else c), (n, err)).

(** [Read] into a buffer of [m] bytes: the bytes stored in it and the pair returned. *)
Definition ATLSConn_Read (fuel : nat) (pool : P) (k : K) c (m : Z) :
    option (P * K * ATLSConn H A X N E * list Z * (Z * option errno)) :=
  if b_fd (a_base c) =? 0 then Some (pool, k, c, [], (0, Some EBADF))
  else if m =? 0 then Some (pool, k, c, [], (0, None))
  else
    s ← slice (a_preRead c) (Z.min (a_preReadOff c) (len (a_preRead c))) (len (a_preRead c));
    let d := take (Z.to_nat m) s in
    let n := len d in
    if (a_preReadOff c <? len (a_preRead c)) && (0 <? n) then
      let off := a_preReadOff c + n in
      let c := if len (a_preRead c) <=? off then a_set_preRead c [] 0 else a_set_preRead c (a_preRead c) off in
      Some (pool, k, a_add_recv c n, d, (n, None))
    else if a_ktls c && a_ktlsRX c then
      let '(k, c, d, r) := ktls_Read k c m in Some (pool, k, c, d, r)
    else read_loop fuel pool k c m.

Definition ATLSConn_Write (pool : P) (k : K) c (p : list Z) : option (P * K * ATLSConn H A X N E * (Z * option errno)) :=
  if b_fd (a_base c) =? 0 then Some (pool, k, c, (0, Some EBADF))
  else if len p =? 0 then Some (pool, k, c, (0, None))
  else if a_ktls c then
    let '(k, c, r) := ktls_Write k c p in Some (pool, k, c, r)
  else
    e ← a_Conn c; b ← a_buf c;
    '(pool, b, (e, n, err)) ← run_tls pool b (te_Write e p);
    Some (pool, k, a_set_tls c e b, (n, err)).

Definition reset_bufs (pool : P) c : P * ATLSConn H A X N E :=
  match a_buf c with
  | Some b =>
      let '(pool, cin) := RingBuffer_Reset pool (tb_cin b) in
      let '(pool, cout) := RingBuffer_Reset pool (tb_cout b) in
      (pool, a_set_buf c (tb_set_cout (tb_set_cin b cin) cout))
  | None => (pool, c)
  end.

(** The last component says whether [closecb.OnClose] ran.  An engine is never without
    its buffers. *)
Definition ATLSConn_Close (pool : P) (k : K) c : option (P * K * ATLSConn H A X N E * option errno * bool) :=
  let '(pool, base) := Base_clearWrite T pool (a_base c) in
  let c := a_set_base c base in
  '(pool, c) ← (match a_Conn c, a_buf c with
                | Some e, Some b => '(pool, b, (e, _)) ← run_tls pool b (te_Close e); Some (pool, a_set_tls c e b)
                | Some _, None => None
                | None, _ => Some (pool, c)
                end);
  let '(pool, c) := reset_bufs pool c in
  let '(k, err) := sys_close k (b_fd (a_base c)) in
  Some (pool, k, a_set_base c (Base_SetFd (a_base c) 0), err, a_closecb c).

(** The slices of [cout] to send, cut to [remaining] bytes when there is a limit. *)
Definition cut_slices (limit : bool) (remaining : Z) (head tail : list Z) : option (list Z * list Z) :=
  if limit then
    if remaining <? len head then h ← slice head 0 remaining; Some (h, [])
    else if remaining <? len head + len tail then t ← slice tail 0 (remaining - len head); Some (head, t)
    else Some (head, tail)
  else Some (head, tail).

Definition slice_iovecs (head tail : list Z) : list (list Z) :=
  (if 0 <? len head then [head] else []) ++ (if 0 <? len tail then [tail] else []).

(** The loop of [FlushN]: a round sends from [cout] or encrypts from the queue. *)
Fixpoint flush_loop (fuel : nat) (pool : P) (k : K) c (limit : bool) (remaining flushed : Z) :
    option (P * K * ATLSConn H A X N E * (Z * option errno)) :=
  match fuel with
  | O => None
  | S fuel =>
      if limit && (remaining <=? 0) then Some (pool, k, c, (flushed, None))
      else
        b ← a_buf c;
        if 0 <? RingBuffer_Has (tb_cout b) then
          '(head, tail) ← RingBuffer_Peek2 (tb_cout b);
          '(head, tail) ← cut_slices limit remaining head tail;
          let '(k, n, err) := writev k (b_fd (a_base c)) (slice_iovecs head tail) in
          let n := if bool_decide (err = Some EAGAIN) && (n <? 0) then 0 else n in
          if 0 <? n then
            let c := a_add_send (a_set_buf c (tb_set_cout b (fst (RingBuffer_Forward (tb_cout b) n OpRead)))) n in
            flush_loop fuel pool k c limit (if limit then remaining - n else remaining) (flushed + n)
          else Some (pool, k, c, (flushed, err))
        else
          buf ← Base_peekWrite (a_base c);
          if len buf =? 0 then Some (pool, k, c, (flushed, None))
          else
            let chunkLimit := tlsWriteChunkSize in
            let chunkLimit := if limit && (remaining <? chunkLimit) then remaining else chunkLimit in
            if chunkLimit <=? 0 then Some (pool, k, c, (flushed, None))
            else
              src ← (if chunkLimit <? len buf then slice buf 0 chunkLimit else Some buf);
              e ← a_Conn c;
              '(pool, b, (e, n, err)) ← run_tls pool b (te_Write e src);
              let c := a_set_tls c e b in
              '(pool, base) ← (if 0 <? n then Base_consumeWrite T pool (a_base c) n else Some (pool, a_base c));
              let c := a_set_base c base in
              match err with
              | Some err => Some (pool, k, c, (flushed, Some err))
              | None => flush_loop fuel pool k c limit remaining flushed
              end
  end.

Definition ATLSConn_FlushN (fuel : nat) (pool : P) (k : K) c (maxBytes : Z) :
    option (P * K * ATLSConn H A X N E * (Z * option errno)) :=
  if b_fd (a_base c) =? 0 then Some (pool, k, c, (0, Some EBADF))
  else if a_ktls c then
    let b := a_base c in
    '(pool, k, wq, send, r) ← flushWriteQueue T pool k (b_fd b) (b_wq b) maxBytes (b_send b);
    Some (pool, k, a_set_base c (Base_set_counters (Base_set_wq b wq) (b_recv b) send), r)
  else
    match a_buf c with
    | None => Some (pool, k, c, (0, Some errNoBuffer))
    | Some _ => flush_loop fuel pool k c (0 <? maxBytes) maxBytes 0
    end.

End ATLS.

(** ** What the engine promises *)

(** [t], whatever the connection below returns within the contract of [net.Conn],
    ends with a result for which [Post] holds; [rd] and [wr] are the bytes read and
    written so far. *)
Fixpoint tprog_spec {R} (t : tprog R) (rd wr : list Z) (Post : R → list Z → list Z → Prop) : Prop :=
  match t with
  | TRet r => Post r rd wr
  | TRead n cont => ∀ d e, (length d ≤ n)%nat → ((0 < n)%nat → d = [] → e ≠ None) →
      tprog_spec (cont d e) (rd ++ d) wr Post
  | TWrite b cont => ∀ n e, 0 ≤ n ≤ len b → (e = None → n = len b) →
      tprog_spec (cont n e) rd (wr ++ take (Z.to_nat n) b) Post
  end.

(** The streams of [e'] are those of [e] with these bytes added. *)
Definition engine_step {E} `{!TlsEngine E} (e e' : E) (taken given rd wr : list Z) : Prop :=
  te_taken e' = te_taken e ++ taken ∧ te_given e' = te_given e ++ given ∧
  te_in e' = te_in e ++ rd ∧ te_out e' = te_out e ++ wr.

(** [Write] takes a prefix, all of it when it reports no error; [Read] delivers at most
    what was asked for.  Both may read and write records. *)
Class TlsEngineLaws (E : Type) `{TlsEngine E} : Prop := {
  te_Write_ok e b : tprog_spec (te_Write e b) [] [] (λ '(e', n, err) rd wr,
    0 ≤ n ≤ len b ∧ (err = None → n = len b) ∧ engine_step e e' (take (Z.to_nat n) b) [] rd wr);
  te_Read_ok e m : tprog_spec (te_Read e m) [] [] (λ '(e', d, err) rd wr,
    len d ≤ Z.max 0 m ∧ engine_step e e' [] d rd wr);
}.

Section BufferLemmas.
Context {P N A : Type} `{AL : AllocatorLaws P, !NetConn N}.
Implicit Types (b : tlsBufferConn N A).

(** After the handshake. *)
Record tb_wf (pool : P) b : Prop := {
  tw_direct : tb_direct b = None;
  tw_cin : rb_ok pool (tb_cin b);
  tw_cout : rb_ok pool (tb_cout b);
}.

(** The buffers after [rd] was read and [wr] written. *)
Record tb_step (pool : P) b (pool' : P) b' (rd wr : list Z) : Prop := {
  ts_inv : al_inv pool'; ts_max : al_max pool' = al_max pool; ts_wf : tb_wf pool' b';
  ts_in : contents (tb_cin b) = rd ++ contents (tb_cin b');
  ts_out : contents (tb_cout b') = contents (tb_cout b) ++ wr;
}.

Lemma tb_step_refl pool b : al_inv pool → tb_wf pool b → tb_step pool b pool b [] [].
Proof. intros. split; try done. by rewrite app_nil_r. Qed.

Lemma tb_step_trans pool1 b1 pool2 b2 pool3 b3 rd wr rd' wr' :
  tb_step pool1 b1 pool2 b2 rd wr → tb_step pool2 b2 pool3 b3 rd' wr' →
  tb_step pool1 b1 pool3 b3 (rd ++ rd') (wr ++ wr').
Proof.
  intros [I1 M1 W1 E1 O1] [I2 M2 W2 E2 O2]. split; try done.
  - congruence.
  - by rewrite E1, E2, app_assoc.
  - by rewrite O2, O1, app_assoc.
Qed.

Lemma Read_step pool b n : al_inv pool → tb_wf pool b →
  ∃ b' d e, tlsBufferConn_Read b n = Some (b', d, e) ∧ tb_step pool b pool b' d [] ∧
    (length d ≤ n)%nat ∧ ((0 < n)%nat → d = [] → e ≠ None).
Proof.
  intros Hi Hw. pose proof Hw as [Hd [Hin Hcap] Hout]. unfold tlsBufferConn_Read. destruct n as [|n].
  { exists b, [], None. split; [done|]. split; [by apply tb_step_refl|]. split; [simpl; lia|lia]. }
  rewrite Hd. pose proof (length_contents _ Hin) as L. unfold RingBuffer_Has.
  destruct (Z.eqb_spec (rb_w (tb_cin b) - rb_r (tb_cin b)) 0) as [H0|H0].
  { exists b, [], (Some errWouldBlock). split; [done|]. split; [by apply tb_step_refl|]. split; [simpl; lia|done]. }
  destruct (Read_spec (tb_cin b) (replicate (S n) 0) (Z.of_nat (S n)) true Hin) as (cin' & -> & Hw' & Hs' & _ & Hc');
    [rewrite length_replicate; lia|].
  cbn [mbind option_bind]. set (m := Z.min (Z.of_nat (S n)) (rb_w (tb_cin b) - rb_r (tb_cin b))) in *.
  pose proof (rw_pos _ Hin). destruct (Z.leb_spec m 0); [lia|].
  assert (take (Z.to_nat m) (blit (replicate (S n) 0) 0 (take (Z.to_nat m) (contents (tb_cin b))))
    = take (Z.to_nat m) (contents (tb_cin b))) as ->.
  { rewrite blit_front by (rewrite length_take, length_replicate; lia). apply take_app_length'. rewrite length_take. lia. }
  eexists _, _, _. split; [done|]. split; [|split].
  - split; try done; cbn [tb_set_cin tb_cin tb_cout].
    + split; try done. cbn [tb_cin tb_set_cin]. split; [done|]. lia.
    + by rewrite Hc', take_drop.
    + by rewrite app_nil_r.
  - rewrite length_take. lia.
  - intros _ E. apply (f_equal length) in E. rewrite length_take in E. simpl in E. lia.
Qed.

Lemma Write_step pool b p : al_inv pool → tb_wf pool b →
  ∃ pool' b' n e, tlsBufferConn_Write pool b p = Some (pool', b', (n, e)) ∧
    tb_step pool b pool' b' [] (take (Z.to_nat n) p) ∧ 0 ≤ n ≤ len p ∧ (e = None → n = len p).
Proof.
  intros Hi Hw. pose proof Hw as [Hd Hin Hout]. unfold tlsBufferConn_Write.
  destruct (Z.eqb_spec (len p) 0) as [H0|H0].
  { exists pool, b, 0, None. split; [done|]. split; [by apply tb_step_refl|]. split; [lia|]. intros _. lia. }
  rewrite Hd. destruct (Write_spec pool (tb_cout b) p true Hi Hout) as (pool' & cout' & rc & -> & Hi' & Hm & Hok & Hcase); [lia|].
  cbn [mbind option_bind].
  assert (rb_ok pool' (tb_cin b)) as Hin' by (destruct Hin; split; [done|by rewrite Hm]).
  destruct Hcase as [(_ & -> & Hc)|(_ & -> & Hc)].
  - destruct (Z.ltb_spec (len p) 0); [lia|]. exists pool', (tb_set_cout b cout'), (len p), None.
    split; [done|]. split; [|split; [lia|done]]. split; try done. cbn [tb_set_cout tb_cout]. by rewrite Hc, take_ge by lia.
  - change (-2 <? 0) with true. exists pool', (tb_set_cout b cout'), 0, (Some ENOMEM).
    split; [done|]. split; [|split; [lia|done]]. split; try done. cbn [tb_set_cout tb_cout]. by rewrite Hc, take_0, app_nil_r.
Qed.

(** Running a program of the engine over the buffers. *)
Lemma run_tls_spec {R} (t : tprog R) pool b rd wr Post : al_inv pool → tb_wf pool b → tprog_spec t rd wr Post →
  ∃ pool' b' r rd' wr', run_tls pool b t = Some (pool', b', r) ∧ tb_step pool b pool' b' rd' wr' ∧
    Post r (rd ++ rd') (wr ++ wr').
Proof.
  revert pool b rd wr. induction t as [r|n cont IH|p cont IH]; intros pool b rd wr Hi Hw Hs; cbn [run_tls tprog_spec] in *.
  - exists pool, b, r, [], []. rewrite !app_nil_r. split; [done|]. split; [by apply tb_step_refl|done].
  - destruct (Read_step pool b n Hi Hw) as (b1 & d & e & -> & S1 & Hl & He). cbn [mbind option_bind].
    destruct (IH d e pool b1 (rd ++ d) wr) as (pool2 & b2 & r & rd2 & wr2 & -> & S2 & HP);
      [apply S1|apply S1|by apply Hs|].
    exists pool2, b2, r, (d ++ rd2), wr2. split; [done|]. split; [exact (tb_step_trans _ _ _ _ _ _ _ _ _ _ S1 S2)|].
    by rewrite app_assoc.
  - destruct (Write_step pool b p Hi Hw) as (pool1 & b1 & n & e & -> & S1 & Hl & He). cbn [mbind option_bind].
    destruct (IH n e pool1 b1 rd (wr ++ take (Z.to_nat n) p)) as (pool2 & b2 & r & rd2 & wr2 & -> & S2 & HP);
      [apply S1|apply S1|by apply Hs|].
    exists pool2, b2, r, rd2, (take (Z.to_nat n) p ++ wr2). split; [done|].
    split; [exact (tb_step_trans _ _ _ _ _ _ _ _ _ _ S1 S2)|]. by rewrite app_assoc.
Qed.

End BufferLemmas.

Section FlushLemmas.
Context {P K H A X N E : Type} `{AL : AllocatorLaws P, KL : KernelLaws K, !NetConn N, EL : TlsEngineLaws E}.
Variable T : Connection.
Implicit Types (c : ATLSConn H A X N E) (b : tlsBufferConn N A) (e : E).

(** A connection in use, with its engine [e] and its buffers [b]. *)
Record atls (pool : P) c e b : Prop := {
  at_inv : al_inv pool;
  at_fd : b_fd (a_base c) ≠ 0;
  at_wq : wq_inv (b_wq (a_base c));
  at_Conn : a_Conn c = Some e;
  at_buf : a_buf c = Some b;
  at_tb : tb_wf pool b;
}.

(** What a call moved: [m_taken] from the write queue into the engine, [m_given] from
    the engine to the caller, [m_read] from [cin] into the engine, [m_written] from the
    engine to [cout], [m_sent] from [cout] to the socket, [m_got] from it to [cin]. *)
Record moves := mkMoves {
  m_taken : list Z; m_given : list Z; m_read : list Z; m_written : list Z; m_sent : list Z; m_got : list Z }.

Definition no_moves : moves := mkMoves [] [] [] [] [] [].
Definition moves_app (x y : moves) : moves :=
  mkMoves (m_taken x ++ m_taken y) (m_given x ++ m_given y) (m_read x ++ m_read y) (m_written x ++ m_written y)
    (m_sent x ++ m_sent y) (m_got x ++ m_got y).

Record flow pool k c e b pool' k' c' e' b' (x : moves) : Prop := {
  fl_atls : atls pool' c' e' b';
  fl_max : al_max pool' = al_max pool;
  fl_fd : b_fd (a_base c') = b_fd (a_base c);
  fl_engine : engine_step e e' (m_taken x) (m_given x) (m_read x) (m_written x);
  fl_queue : wq_data (b_wq (a_base c)) = m_taken x ++ wq_data (b_wq (a_base c'));
  fl_cin : contents (tb_cin b) ++ m_got x = m_read x ++ contents (tb_cin b');
  fl_cout : contents (tb_cout b) ++ m_written x = m_sent x ++ contents (tb_cout b');
  fl_sent : k_out k' (b_fd (a_base c)) = k_out k (b_fd (a_base c)) ++ m_sent x;
  fl_got : k_in k' (b_fd (a_base c)) = k_in k (b_fd (a_base c)) ++ m_got x;
  fl_other fd : fd ≠ b_fd (a_base c) → k_out k' fd = k_out k fd ∧ k_in k' fd = k_in k fd;
}.

Lemma engine_step_refl e : engine_step e e [] [] [] [].
Proof. unfold engine_step. by rewrite !app_nil_r. Qed.

Lemma engine_step_trans e1 e2 e3 p d r w p' d' r' w' :
  engine_step e1 e2 p d r w → engine_step e2 e3 p' d' r' w' → engine_step e1 e3 (p ++ p') (d ++ d') (r ++ r') (w ++ w').
Proof. intros (A1 & A2 & A3 & A4) (B1 & B2 & B3 & B4). unfold engine_step. by rewrite B1, B2, B3, B4, A1, A2, A3, A4, !app_assoc. Qed.

Lemma flow_refl pool k c e b : atls pool c e b → flow pool k c e b pool k c e b no_moves.
Proof. intros. split; try done; cbn [no_moves m_got m_written m_sent]; rewrite ?app_nil_r; try done. apply engine_step_refl. Qed.

Lemma flow_trans pool1 k1 c1 e1 b1 pool2 k2 c2 e2 b2 pool3 k3 c3 e3 b3 x y :
  flow pool1 k1 c1 e1 b1 pool2 k2 c2 e2 b2 x → flow pool2 k2 c2 e2 b2 pool3 k3 c3 e3 b3 y →
  flow pool1 k1 c1 e1 b1 pool3 k3 c3 e3 b3 (moves_app x y).
Proof.
  intros [A1 M1 F1 E1 Q1 I1 O1 S1 G1 T1] [A2 M2 F2 E2 Q2 I2 O2 S2 G2 T2]. rewrite F1 in S2, G2, T2.
  split; try done; cbn [moves_app m_taken m_given m_read m_written m_sent m_got].
  - congruence.
  - congruence.
  - by apply (engine_step_trans _ e2).
  - by rewrite Q1, Q2, app_assoc.
  - by rewrite app_assoc, I1, <-!app_assoc, I2.
  - by rewrite app_assoc, O1, <-!app_assoc, O2.
  - by rewrite S2, S1, app_assoc.
  - by rewrite G2, G1, app_assoc.
  - intros fd Hfd. destruct (T1 fd Hfd), (T2 fd Hfd). split; congruence.
Qed.

(** The slices cut to the limit are a prefix of the contents, not empty when those are not. *)
Lemma cut_slices_spec limit remaining head tail : (limit = true → 0 < remaining) → head ≠ [] →
  ∃ h t, cut_slices limit remaining head tail = Some (h, t) ∧ (h ++ t) `prefix_of` (head ++ tail) ∧ h ≠ [] ∧
    (limit = true → len (h ++ t) ≤ remaining).
Proof.
  intros Hr Hh. unfold cut_slices. destruct limit; [|by exists head, tail]. specialize (Hr eq_refl).
  assert (0 < len head) by (destruct head; [done|simpl; lia]).
  destruct (Z.ltb_spec remaining (len head)).
  { rewrite slice_Some by lia. cbn [mbind option_bind]. eexists _, _. split; [done|]. rewrite sub_prefix, app_nil_r.
    split; [by apply prefix_app_r, prefix_take|]. split; [|intros _; rewrite length_take; lia].
    intros E0. apply (f_equal length) in E0. rewrite length_take in E0. simpl in E0. lia. }
  destruct (Z.ltb_spec remaining (len head + len tail)); [|exists head, tail; split_and!; try done; intros _; rewrite length_app; lia].
  rewrite slice_Some by lia. cbn [mbind option_bind]. eexists _, _. split; [done|]. rewrite sub_prefix.
  split; [apply prefix_app, prefix_take|]. split; [done|]. intros _. rewrite length_app, length_take. lia.
Qed.

Lemma slice_iovecs_concat head tail : head ≠ [] → concat (slice_iovecs head tail) = head ++ tail ∧ slice_iovecs head tail ≠ [].
Proof.
  intros Hh. unfold slice_iovecs. destruct head as [|x head]; [done|]. destruct (Z.ltb_spec 0 (len (x :: head))); [|simpl in *; lia].
  destruct tail as [|y tail]; [done|]. destruct (Z.ltb_spec 0 (len (y :: tail))); [|simpl in *; lia].
  cbn [app concat]. by rewrite app_nil_r.
Qed.

(** A round that sends. *)
Lemma send_round pool k c e b limit remaining : atls pool c e b → (limit = true → 0 < remaining) →
  0 < RingBuffer_Has (tb_cout b) →
  ∃ head tail h t k' n err,
    RingBuffer_Peek2 (tb_cout b) = Some (head, tail) ∧ cut_slices limit remaining head tail = Some (h, t) ∧
    concat (slice_iovecs h t) ≠ [] ∧ writev k (b_fd (a_base c)) (slice_iovecs h t) = (k', n, err) ∧
    let n := if bool_decide (err = Some EAGAIN) && (n <? 0) then 0 else n in
    let rb := fst (RingBuffer_Forward (tb_cout b) n OpRead) in
    if 0 <? n then
      let c' := a_add_send (a_set_buf c (tb_set_cout b rb)) n in
      let s := take (Z.to_nat n) (contents (tb_cout b)) in
      flow pool k c e b pool k' c' e (tb_set_cout b rb) (mkMoves [] [] [] [] s []) ∧ len s = n ∧ (limit = true → n ≤ remaining) ∧
      wq_data (b_wq (a_base c')) = wq_data (b_wq (a_base c)) ∧
      (length (contents rb) < length (contents (tb_cout b)))%nat
    else flow pool k c e b pool k' c e b no_moves.
Proof.
  intros Hat Hr Hhas. pose proof Hat as [Hi Hfd Hwq HC HB [Hd Hin Hout]]. pose proof Hout as [Hwf Hcap].
  pose proof (length_contents _ Hwf) as L. unfold RingBuffer_Has in Hhas.
  destruct (Peek2_spec _ Hwf) as (head & tail & Hp & Hht & Hh0).
  assert (head ≠ []) as Hh. { intros E0. apply Hh0 in E0. rewrite E0 in L. simpl in L. lia. }
  destruct (cut_slices_spec limit remaining head tail Hr Hh) as (h & t & Hc & [rest Hpre] & Hne & Hlim).
  destruct (slice_iovecs_concat h t Hne) as [Hcat Hnil].
  assert (writev k (b_fd (a_base c)) (slice_iovecs h t) = sys_writev k (b_fd (a_base c)) (slice_iovecs h t)) as Hwv
    by (unfold writev; by destruct (slice_iovecs h t)).
  pose proof (sys_writev_ok k (b_fd (a_base c)) (slice_iovecs h t)) as Hk. rewrite <-Hwv in Hk.
  destruct (writev k (b_fd (a_base c)) (slice_iovecs h t)) as [[k' n] err] eqn:Ek. destruct Hk as (Ho & Hg & Hres).
  exists head, tail, h, t, k', n, err. split; [done|]. split; [done|]. split; [rewrite Hcat; by destruct h|]. split; [done|]. cbv zeta.
  rewrite Hcat in Hres. rewrite Hht in Hpre.
  assert (n = -1 ∧ k_out k' (b_fd (a_base c)) = k_out k (b_fd (a_base c)) ∨
          0 ≤ n ≤ len (h ++ t) ∧ k_out k' (b_fd (a_base c)) = k_out k (b_fd (a_base c)) ++ take (Z.to_nat n) (h ++ t)) as Hn.
  { destruct err; [left; tauto|right; tauto]. }
  assert (len (h ++ t) ≤ len (contents (tb_cout b))) as Hle by (rewrite Hpre, (length_app (h ++ t)); lia).
  set (n' := if bool_decide (err = Some EAGAIN) && (n <? 0) then 0 else n).
  assert (n' = n ∨ n' = 0 ∧ n < 0) as Hn'.
  { unfold n'. destruct (bool_decide _); cbn [andb]; [|by left]. destruct (Z.ltb_spec n 0); [by right|by left]. }
  destruct (Z.ltb_spec 0 n') as [Hpos|Hpos].
  - destruct Hn' as [->|]; [|lia]. destruct Hn as [[-> _]|[Hnr Hs]]; [lia|].
    destruct (Forward_read_spec (tb_cout b) n Hwf) as (rb' & -> & Hwf' & Hs' & Hc'); [lia|]. cbn [fst].
    assert (take (Z.to_nat n) (contents (tb_cout b)) = take (Z.to_nat n) (h ++ t)) as Et
      by (rewrite Hpre; apply take_app_le; lia).
    split_and!.
    + split; try done; cbn [a_add_send a_set_base a_set_buf a_base a_Conn a_buf Base_set_counters b_fd b_wq tb_set_cout tb_cin tb_cout].
      * split; try done. split; try done. split; [done|]. cbn [tb_cout tb_set_cout]. lia.
      * apply engine_step_refl.
      * cbn [m_got m_read]. by rewrite app_nil_r.
      * cbn [m_written m_sent]. by rewrite app_nil_r, Hc', take_drop.
      * cbn [m_sent]. by rewrite Et.
      * cbn [m_got]. by rewrite Hg, app_nil_r.
      * intros fd Hne0. split; [by apply Ho|apply Hg].
    + rewrite length_take. lia.
    + intros E0. specialize (Hlim E0). lia.
    + done.
    + rewrite Hc', length_drop. lia.
  - split; try done; cbn [no_moves m_written m_sent m_got]; rewrite ?app_nil_r; try done.
    + apply engine_step_refl.
    + destruct Hn as [[_ E0]|[Hnr E0]]; [done|]. rewrite E0. replace (Z.to_nat n) with 0%nat by lia. by rewrite take_0, app_nil_r.
    + intros fd Hne0. split; [by apply Ho|apply Hg].
Qed.

(** A round that encrypts: all queued bytes are older than what it takes. *)
Lemma encrypt_round pool k c e b limit remaining : atls pool c e b → (limit = true → 0 < remaining) →
  contents (tb_cout b) = [] → wq_data (b_wq (a_base c)) ≠ [] →
  let chunk := if limit && (remaining <? tlsWriteChunkSize) then remaining else tlsWriteChunkSize in
  ∃ buf src pool1 b1 e1 n err pool2 base p rd w, Base_peekWrite (a_base c) = Some buf ∧ 0 < len buf ∧ 0 < chunk ∧
    (if chunk <? len buf then slice buf 0 chunk else Some buf) = Some src ∧
    run_tls pool b (te_Write e src) = Some (pool1, b1, (e1, n, err)) ∧
    (if 0 <? n then Base_consumeWrite T pool1 (a_base c) n else Some (pool1, a_base c)) = Some (pool2, base) ∧
    flow pool k c e b pool2 k (a_set_base (a_set_tls c e1 b1) base) e1 b1 (mkMoves p [] rd w [] []) ∧
    (err = None → (length (wq_data (b_wq base)) < length (wq_data (b_wq (a_base c))))%nat).
Proof.
  intros Hat Hr Hc0 Hq chunk. pose proof Hat as [Hi Hfd Hwq HC HB Htb].
  assert (0 < chunk) as Hch.
  { unfold chunk, tlsWriteChunkSize. destruct limit; cbn [andb]; [|lia]. specialize (Hr eq_refl).
    destruct (Z.ltb_spec remaining (16 * 1024)); lia. }
  destruct (peek_spec _ Hwq) as (buf & Hp & [rest Hpre] & Hnil).
  assert (0 < len buf) as Hb. { destruct buf; [by destruct Hq, Hnil; auto|simpl; lia]. }
  assert (∃ src, (if chunk <? len buf then slice buf 0 chunk else Some buf) = Some src ∧ src `prefix_of` buf ∧ 0 < len src)
    as (src & Hsrc & [rest' Hpre'] & Hs0).
  { destruct (Z.ltb_spec chunk (len buf)); [|by exists buf]. rewrite slice_Some by lia. eexists. split; [done|].
    rewrite sub_prefix. split; [apply prefix_take|]. rewrite length_take. lia. }
  destruct (run_tls_spec (te_Write e src) pool b [] [] _ Hi Htb (te_Write_ok e src))
    as (pool1 & b1 & [[e1 n] err] & rd & wr & Hrun & [I1 M1 W1 In1 Out1] & Hn & Herr & Hstep).
  cbn [app] in Hstep.
  destruct (consume_spec T pool1 (b_wq (a_base c)) n Hwq) as (pool2 & q' & Hcs & Hwq' & Hd' & Hacc).
  destruct (puts_account_inv _ _ _ _ I1 Hacc) as [I2 M2].
  assert (take (Z.to_nat n) src = take (Z.to_nat n) (wq_data (b_wq (a_base c)))) as Hts.
  { rewrite Hpre, Hpre', <-app_assoc, take_app_le by lia. done. }
  exists buf, src, pool1, b1, e1, n, err.
  assert (∃ pool3 base, (if 0 <? n then Base_consumeWrite T pool1 (a_base c) n else Some (pool1, a_base c)) = Some (pool3, base) ∧
    al_inv pool3 ∧ al_max pool3 = al_max pool1 ∧ wq_inv (b_wq base) ∧ b_fd base = b_fd (a_base c) ∧
    wq_data (b_wq base) = drop (Z.to_nat n) (wq_data (b_wq (a_base c)))) as (pool3 & base & Hcons & I3 & M3 & Hw3 & Hf3 & Hd3).
  { destruct (Z.ltb_spec 0 n).
    - unfold Base_consumeWrite. rewrite Hcs. cbn [mbind option_bind]. eexists _, _. by split_and!.
    - replace (Z.to_nat n) with 0%nat by lia. rewrite drop_0. eexists _, _. by split_and!. }
  exists pool3, base, (take (Z.to_nat n) src), rd, wr. split_and!; try done.
  - split; try done; cbn [a_set_base a_set_tls a_base].
    + split; try done; cbn [a_set_base a_set_tls a_base]; [by rewrite Hf3|]. destruct W1 as [? [? ?] [? ?]].
      split; [done| |]; split; try done; lia.
    + lia.
    + cbn [m_taken]. by rewrite Hd3, Hts, take_drop.
    + cbn [m_got m_read]. by rewrite app_nil_r.
    + cbn [m_sent]. by rewrite app_nil_r.
    + cbn [m_got]. by rewrite app_nil_r.
  - intros E0. specialize (Herr E0). rewrite Hd3, length_drop. apply (f_equal length) in Hpre, Hpre'.
    rewrite length_app in Hpre, Hpre'. lia.
Qed.

(** When [FlushN] reports no error: the budget is spent, nothing is pending, or the
    socket took nothing. *)
Definition flush_end (limit : bool) (remaining n : Z) c b (err : option errno) : Prop :=
  err = None →
  limit = true ∧ remaining ≤ n ∨
  wq_data (b_wq (a_base c)) = [] ∧ contents (tb_cout b) = [] ∨
  ∃ (k1 k2 : K) iov m, concat iov ≠ [] ∧ writev k1 (b_fd (a_base c)) iov = (k2, m, None) ∧ m ≤ 0.

Definition flush_result pool k c e b (limit : bool) (remaining flushed : Z) : Prop :=
  ∃ fuel0 pool' k' c' e' b' x err,
    (∀ fuel, (fuel0 ≤ fuel)%nat →
      flush_loop T fuel pool k c limit remaining flushed = Some (pool', k', c', (flushed + len (m_sent x), err))) ∧
    flow pool k c e b pool' k' c' e' b' x ∧ m_given x = [] ∧ m_got x = [] ∧
    (limit = true → len (m_sent x) ≤ Z.max 0 remaining) ∧ flush_end limit remaining (len (m_sent x)) c' b' err.

Lemma flush_stop pool k c e b k' c' limit remaining flushed err : flow pool k c e b pool k' c' e b no_moves →
  (∀ fuel, flush_loop T (S fuel) pool k c limit remaining flushed = Some (pool, k', c', (flushed, err))) →
  flush_end limit remaining 0 c' b err → flush_result pool k c e b limit remaining flushed.
Proof.
  intros Hf He Hend. exists 1%nat, pool, k', c', e, b, no_moves, err. split_and!; try done.
  - intros fuel Hfuel. destruct fuel as [|fuel]; [lia|]. rewrite He. cbn [no_moves m_sent length]. by rewrite Z.add_0_r.
  - cbn [no_moves m_sent length]. lia.
Qed.

Lemma flush_next pool k c e b pool1 k1 c1 e1 b1 x (limit : bool) (remaining flushed : Z) :
  flow pool k c e b pool1 k1 c1 e1 b1 x → m_given x = [] → m_got x = [] →
  let remaining' := if limit then remaining - len (m_sent x) else remaining in
  (limit = true → len (m_sent x) ≤ Z.max 0 remaining) →
  (∀ fuel, flush_loop T (S fuel) pool k c limit remaining flushed =
    flush_loop T fuel pool1 k1 c1 limit remaining' (flushed + len (m_sent x))) →
  flush_result pool1 k1 c1 e1 b1 limit remaining' (flushed + len (m_sent x)) → flush_result pool k c e b limit remaining flushed.
Proof.
  intros Hf Hd Hg rem' Hlim He (fuel0 & pool2 & k2 & c2 & e2 & b2 & y & err & Hl & Hf2 & Hd2 & Hg2 & Hlim2 & Hend).
  exists (S fuel0), pool2, k2, c2, e2, b2, (moves_app x y), err. cbn [moves_app m_sent m_given m_got].
  rewrite length_app, Nat2Z.inj_add, Hd, Hd2, Hg, Hg2. split_and!; try done.
  - intros fuel Hfuel. destruct fuel as [|fuel]; [lia|]. rewrite He, Hl by lia. by rewrite Z.add_assoc.
  - by apply (flow_trans _ _ _ _ _ pool1 k1 c1 e1 b1).
  - intros E0. specialize (Hlim E0). specialize (Hlim2 E0). unfold rem' in Hlim2. rewrite E0 in Hlim2. lia.
  - intros E0. destruct (Hend E0) as [[E1 E2]|Hr]; [left|by right]. split; [done|]. unfold rem' in E2. rewrite E1 in E2. lia.
Qed.

Lemma cout_ready pool c e b : atls pool c e b → RingBuffer_Has (tb_cout b) = len (contents (tb_cout b)).
Proof. intros Hat. symmetry. apply length_contents, Hat. Qed.

(** A round with bytes in [cout] sends, and the loop goes on with a shorter [cout]. *)
Lemma flush_send pool k c e b (limit : bool) (remaining flushed : Z) : atls pool c e b → (limit = true → 0 < remaining) →
  contents (tb_cout b) ≠ [] →
  (∀ pool1 k1 c1 b1 rem fl, atls pool1 c1 e b1 → wq_data (b_wq (a_base c1)) = wq_data (b_wq (a_base c)) →
    (length (contents (tb_cout b1)) < length (contents (tb_cout b)))%nat → flush_result pool1 k1 c1 e b1 limit rem fl) →
  flush_result pool k c e b limit remaining flushed.
Proof.
  intros Hat Hr Hc IH. pose proof (cout_ready _ _ _ _ Hat) as L.
  assert (0 < RingBuffer_Has (tb_cout b)) as Hh by (rewrite L; destruct (contents (tb_cout b)); [done|simpl; lia]).
  assert (limit && (remaining <=? 0) = false) as Hg by (destruct limit; [specialize (Hr eq_refl); blia|done]).
  destruct (send_round pool k c e b limit remaining Hat Hr Hh) as (head & tail & h & t & k' & n & err & Hp & Hcut & Hcat & Hwv & Hsend).
  cbv zeta in Hsend. set (n' := if bool_decide (err = Some EAGAIN) && (n <? 0) then 0 else n) in *.
  assert (∀ fuel, flush_loop T (S fuel) pool k c limit remaining flushed =
    if 0 <? n' then flush_loop T fuel pool k' (a_add_send (a_set_buf c (tb_set_cout b (fst (RingBuffer_Forward (tb_cout b) n' OpRead)))) n')
      limit (if limit then remaining - n' else remaining) (flushed + n')
    else Some (pool, k', c, (flushed, err))) as He.
  { intros fuel. cbn [flush_loop]. rewrite Hg, (at_buf _ _ _ _ Hat). cbn [mbind option_bind]. rewrite (proj2 (Z.ltb_lt _ _) Hh), Hp.
    cbn [mbind option_bind]. rewrite Hcut. cbn [mbind option_bind]. by rewrite Hwv. }
  destruct (Z.ltb_spec 0 n') as [Hn|Hn].
  - destruct Hsend as (Hf & Hs & Hlim & Hsame & Hlt).
    apply (flush_next _ _ _ _ _ _ _ _ _ _ _ _ _ _ Hf); cbn [m_sent]; rewrite ?Hs;
      [done|done|intros E0; specialize (Hlim E0); lia|done|].
    refine (IH _ _ _ _ _ _ (fl_atls _ _ _ _ _ _ _ _ _ _ _ Hf) Hsame Hlt).
  - apply (flush_stop _ _ _ _ _ k' c _ _ _ err); [done|done|]. intros ->. right; right.
    exists k, k', (slice_iovecs h t), n. split_and!; [done|done|].
    unfold n' in Hn. by rewrite bool_decide_false in Hn by done.
Qed.

(** A round with [cout] empty encrypts, and the loop goes on with a shorter queue. *)
Lemma flush_encrypt pool k c e b (limit : bool) (remaining flushed : Z) : atls pool c e b → (limit = true → 0 < remaining) →
  contents (tb_cout b) = [] →
  (∀ pool1 c1 e1 b1 rem fl, atls pool1 c1 e1 b1 →
    (length (wq_data (b_wq (a_base c1))) < length (wq_data (b_wq (a_base c))))%nat → flush_result pool1 k c1 e1 b1 limit rem fl) →
  flush_result pool k c e b limit remaining flushed.
Proof.
  intros Hat Hr Hc IH. pose proof (cout_ready _ _ _ _ Hat) as L. rewrite Hc in L. cbn [length] in L.
  assert (limit && (remaining <=? 0) = false) as Hg by (destruct limit; [specialize (Hr eq_refl); blia|done]).
  destruct (decide (wq_data (b_wq (a_base c)) = [])) as [Hq0|Hq0].
  { apply (flush_stop _ _ _ _ _ k c _ _ _ None); [by apply flow_refl| |by right; left].
    intros fuel. cbn [flush_loop]. rewrite Hg, (at_buf _ _ _ _ Hat). cbn [mbind option_bind]. rewrite L.
    change (0 <? Z.of_nat 0) with false. cbv iota.
    destruct (peek_spec _ (at_wq _ _ _ _ Hat)) as (buf & Hp & _ & Hnil). unfold Base_peekWrite. rewrite Hp. cbn [mbind option_bind].
    by rewrite (proj2 Hnil Hq0). }
  destruct (encrypt_round pool k c e b limit remaining Hat Hr Hc Hq0)
    as (buf & src & pool1 & b1 & e1 & n & err & pool2 & base & p & rd & w & Hp & Hb & Hch & Hsrc & Hrun & Hcons & Hf & Hlt).
  set (c2 := a_set_base (a_set_tls c e1 b1) base) in *.
  assert (∀ fuel, flush_loop T (S fuel) pool k c limit remaining flushed =
    match err with Some err => Some (pool2, k, c2, (flushed, Some err)) | None => flush_loop T fuel pool2 k c2 limit remaining flushed end) as He.
  { intros fuel. cbn [flush_loop]. rewrite Hg, (at_buf _ _ _ _ Hat). cbn [mbind option_bind]. rewrite L.
    change (0 <? Z.of_nat 0) with false. cbv iota.
    rewrite Hp. cbn [mbind option_bind]. destruct (Z.eqb_spec (len buf) 0); [lia|]. cbv zeta. rewrite (proj2 (Z.leb_gt _ _) Hch), Hsrc.
    cbn [mbind option_bind]. rewrite (at_Conn _ _ _ _ Hat). cbn [mbind option_bind]. rewrite Hrun. cbn [mbind option_bind a_set_tls a_base].
    by rewrite Hcons. }
  destruct err as [err|].
  - exists 1%nat, pool2, k, c2, e1, b1, (mkMoves p [] rd w [] []), (Some err). cbn [m_sent length]. split_and!; try done; [|lia].
    intros fuel Hfuel. destruct fuel; [lia|]. by rewrite He, Z.add_0_r.
  - apply (flush_next _ _ _ _ _ _ _ _ _ _ _ _ _ _ Hf); cbn [m_sent length].
    + done.
    + done.
    + lia.
    + intros fuel. rewrite He, Z.sub_0_r, Z.add_0_r. by destruct limit.
    + apply IH; [by apply Hf|by apply Hlt].
Qed.

(** The loop ends: a round either shortens [cout] or, with [cout] empty, the queue. *)
Lemma flush_loop_ends nq : ∀ nc pool k c e b limit remaining flushed, atls pool c e b →
  length (wq_data (b_wq (a_base c))) = nq → length (contents (tb_cout b)) = nc →
  flush_result pool k c e b limit remaining flushed.
Proof.
  induction (lt_wf nq) as [nq _ IHq]. intros nc. induction (lt_wf nc) as [nc _ IHc].
  intros pool k c e b limit remaining flushed Hat Hq Hc.
  destruct (decide (limit = true ∧ remaining ≤ 0)) as [[-> Hr]|Hr].
  { apply (flush_stop _ _ _ _ _ k c _ _ _ None); [by apply flow_refl| |by left].
    intros fuel. cbn [flush_loop andb]. by rewrite (proj2 (Z.leb_le _ _) Hr). }
  assert (limit = true → 0 < remaining) as Hr' by (intros E0; destruct (decide (remaining ≤ 0)); [by destruct Hr|lia]).
  destruct (decide (contents (tb_cout b) = [])) as [Hc0|Hc0].
  - apply flush_encrypt; [done..|]. intros pool1 c1 e1 b1 rem fl Hat1 Hlt. rewrite Hq in Hlt. by apply (IHq _ Hlt (length (contents (tb_cout b1))) pool1 k c1 e1 b1).
  - apply flush_send; [done..|]. intros pool1 k1 c1 b1 rem fl Hat1 Hsame Hlt. rewrite Hc in Hlt.
    apply (IHc _ Hlt pool1 k1 c1 e b1); [done| |done]. by rewrite Hsame.
Qed.

(** ** Reading *)

(** The socket answers at most [m] reads with data before one fails or reports the end. *)
Fixpoint quiet (m : nat) (fd : Z) (k : K) : Prop :=
  ∀ sz, 0 < sz → let '(k', d, n, err) := sys_read k fd sz in
    err = None → 0 < n → match m with O => False | S m => quiet m fd k' end.

(** [readCiphertext] fills [cin] by what it read from the socket; it fails when it read nothing. *)
Lemma readCiphertext_spec pool k c e b m : atls pool c e b → quiet m (b_fd (a_base c)) k →
  ∃ pool' k' c' b' n err g, readCiphertext pool k c = Some (pool', k', c', (n, err)) ∧
    flow pool k c e b pool' k' c' e b' (mkMoves [] [] [] [] [] g) ∧
    a_preRead c' = a_preRead c ∧ a_preReadOff c' = a_preReadOff c ∧
    match err with Some _ => g = [] | None => match m with O => False | S m => quiet m (b_fd (a_base c)) k' end end.
Proof.
  intros Hat Hq. pose proof Hat as [Hi Hfd Hwq HC HB [Hd Hin Hout]]. unfold readCiphertext. rewrite HB. cbn [mbind option_bind].
  destruct (PeekWrite_spec pool (tb_cin b) tlsCipherReadSize Hi Hin) as (pool' & cin & win & -> & I1 & M1 & Hin1 & Hc1 & Hwin); [done|].
  cbn [mbind option_bind].
  assert (∀ k' cin', rb_ok pool' cin' → ∀ g, contents cin' = contents cin ++ g → (∀ fd, k_out k' fd = k_out k fd) →
    (∀ fd, fd ≠ b_fd (a_base c) → k_in k' fd = k_in k fd) → k_in k' (b_fd (a_base c)) = k_in k (b_fd (a_base c)) ++ g →
    ∀ c', a_base c' = Base_set_counters (a_base c) (b_recv (a_base c')) (b_send (a_base c)) → a_Conn c' = a_Conn c →
      a_buf c' = Some (tb_set_cin b cin') → flow pool k c e b pool' k' c' e (tb_set_cin b cin') (mkMoves [] [] [] [] [] g)) as Hflow.
  { intros k' cin' Hok g Hg Ho Hi' Hg' c' Hb' HC' HB'. assert (b_fd (a_base c') = b_fd (a_base c)) as Ef by (by rewrite Hb').
    assert (b_wq (a_base c') = b_wq (a_base c)) as Ew by (by rewrite Hb').
    split; cbn [m_taken m_given m_read m_written m_sent m_got tb_set_cin tb_cin tb_cout app]; rewrite ?app_nil_r; try done.
    - split; try done; [by rewrite Ef|by rewrite Ew|by rewrite HC'|]. split; [done|done|]. destruct Hout. split; [done|]. cbn [tb_set_cin tb_cout]. lia.
    - apply engine_step_refl.
    - by rewrite Ew.
    - by rewrite Hg, Hc1.
    - intros fd Hne. split; [apply Ho|by apply Hi']. }
  assert (flow pool k c e b pool' k (a_set_buf c (tb_set_cin b cin)) e (tb_set_cin b cin) (mkMoves [] [] [] [] [] [])) as Hnone.
  { apply Hflow; rewrite ?app_nil_r; try done. by destruct c, a_base0. }
  destruct win as [[off sz]|]; [|eexists _, _, _, _, _, _, []; split_and!; try done].
  destruct Hwin as (_ & Hsz & -> & -> & Hfit).
  assert (0 ≤ rb_w cin mod rb_size cin < rb_size cin) by (apply Z.mod_pos_bound; lia).
  set (sz := tlsCipherReadSize `min` (rb_size cin - rb_w cin mod rb_size cin)) in *.
  assert (0 < sz) as Hsz0 by (unfold sz, tlsCipherReadSize; lia).
  destruct (Z.eqb_spec sz 0) as [|_]; [lia|].
  assert (let '(k', d, n, err) := sys_read k (b_fd (a_base c)) sz in
    err = None → 0 < n → match m with O => False | S m => quiet m (b_fd (a_base c)) k' end) as Hq' by (destruct m; by apply Hq).
  pose proof (sys_read_ok k (b_fd (a_base c)) sz) as Hk. destruct (sys_read k (b_fd (a_base c)) sz) as [[[k' d] n] err].
  destruct Hk as (Ho & Hother & Hg & Hres). destruct err as [err|].
  { destruct Hres as [-> ->]. rewrite app_nil_r in Hg. change (0 <? -1) with false. change (-1 <? 0) with true. cbv iota.
    destruct (bool_decide (err = EAGAIN)); (eexists _, k', _, _, _, _, []; split; [done|]; split_and!; try done;
      apply Hflow; rewrite ?app_nil_r; try done; by destruct c, a_base0). }
  destruct Hres as [-> Hl]. pose proof (fill_window_spec pool' cin tlsCipherReadSize d Hin1 Hsz Hfit) as Hfill.
  destruct (RingBuffer_Forward _ (len d) OpWrite) as [cin' rc]. destruct Hfill as (_ & Hok' & Hc'); [unfold sz in *; lia|]. cbn [fst].
  destruct (Z.ltb_spec 0 (len d)) as [Hd0|Hd0].
  - destruct (Z.eqb_spec (len d) 0); [lia|]. eexists _, k', _, _, _, _, d. split; [done|]. split_and!; try done; [|by apply Hq'].
    by apply Hflow.
  - destruct d; [|simpl in Hd0; lia]. rewrite app_nil_r in Hg. change (len [] =? 0) with true. cbv iota. eexists _, k', _, _, _, _, []. split; [done|]. split_and!; try done.
    apply (Hflow k' cin); rewrite ?app_nil_r; try done. by destruct c, a_base0.
Qed.

(** The engine's turn in a read. *)
Lemma engine_read pool k c e b m : atls pool c e b →
  ∃ pool' b' e' d err rd w, run_tls pool b (te_Read e m) = Some (pool', b', (e', d, err)) ∧ len d ≤ Z.max 0 m ∧
    flow pool k c e b pool' k (a_set_tls c e' b') e' b' (mkMoves [] d rd w [] []).
Proof.
  intros [Hi Hfd Hwq HC HB Htb].
  destruct (run_tls_spec (te_Read e m) pool b [] [] _ Hi Htb (te_Read_ok e m))
    as (pool1 & b1 & [[e1 d] err] & rd & wr & Hrun & [I1 M1 W1 In1 Out1] & Hd & Hstep). cbn [app] in Hstep.
  exists pool1, b1, e1, d, err, rd, wr. split_and!; [done|done|]. split; try done; cbn [m_got m_read m_written m_sent]; rewrite ?app_nil_r; done.
Qed.

Definition read_result pool k c e b m pool' k' c' e' b' x (err : option errno) : Prop :=
  flow pool k c e b pool' k' c' e' b' x ∧ m_taken x = [] ∧ m_sent x = [] ∧ len (m_given x) ≤ Z.max 0 m ∧
  (err = None ↔ m_given x ≠ []) ∧ a_preRead c' = a_preRead c ∧ a_preReadOff c' = a_preReadOff c.

(** A round ends the read or takes one answer of the socket. *)
Lemma read_round q pool k c e b m : atls pool c e b → quiet q (b_fd (a_base c)) k →
  (∃ pool' k' c' e' b' x err, (∀ fuel, read_loop (S fuel) pool k c m = Some (pool', k', c', m_given x, (len (m_given x), err))) ∧
    read_result pool k c e b m pool' k' c' e' b' x err) ∨
  (∃ q' pool' k' c' e' b' x, q = S q' ∧ (∀ fuel, read_loop (S fuel) pool k c m = read_loop fuel pool' k' c' m) ∧
    read_result pool k c e b m pool' k' c' e' b' x (Some errWouldBlock) ∧ quiet q' (b_fd (a_base c)) k').
Proof.
  intros Hat Hq. destruct (engine_read pool k c e b m Hat) as (pool1 & b1 & e1 & d & err & rd & w & Hrun & Hd & Hf).
  assert (∀ fuel, read_loop (S fuel) pool k c m =
    let c := a_set_tls c e1 b1 in
    if 0 <? len d then Some (pool1, k, c, d, (len d, None))
    else match err with
      | None => Some (pool1, k, c, [], (0, Some EAGAIN))
      | Some err => if negb (bool_decide (err = errWouldBlock)) then Some (pool1, k, c, [], (0, Some err))
          else '(pool, k, c, (_, rerr)) ← readCiphertext pool1 k c;
            match rerr with Some e => Some (pool, k, c, [], (0, Some e)) | None => read_loop fuel pool k c m end
      end) as He.
  { intros fuel. cbn [read_loop]. rewrite (at_Conn _ _ _ _ Hat), (at_buf _ _ _ _ Hat). cbn [mbind option_bind]. by rewrite Hrun. }
  cbv zeta in He. destruct d as [|z d].
  2: { left. exists pool1, k, (a_set_tls c e1 b1), e1, b1, (mkMoves [] (z :: d) rd w [] []), None. by split_and!. }
  change (0 <? len []) with false in He. cbv iota in He.
  destruct (decide (err = Some errWouldBlock)) as [->|Hend]; cycle 1.
  { left. exists pool1, k, (a_set_tls c e1 b1), e1, b1, (mkMoves [] [] rd w [] []), (Some (default EAGAIN err)). split; [|by split_and!].
    intros fuel. rewrite He. destruct err as [err|]; [|done]. rewrite bool_decide_false by (by intros ->). done. }
  destruct (readCiphertext_spec pool1 k (a_set_tls c e1 b1) e1 b1 q) as (pool2 & k2 & c2 & b2 & n2 & err2 & g & Hrc & Hf2 & Hp & Ho & Hnext);
    [by apply Hf|done|].
  pose proof (flow_trans _ _ _ _ _ _ _ _ _ _ _ _ _ _ _ _ _ Hf Hf2) as Hff.
  rewrite bool_decide_true in He by done. cbn [negb] in He. rewrite Hrc in He. cbn [mbind option_bind] in He.
  destruct err2 as [err2|].
  - left. eexists pool2, k2, c2, e1, b2, _, (Some err2). split; cycle 1; [split; [exact Hff|by split_and!]|exact He].
  - right. destruct q as [|q]; [done|]. eexists q, pool2, k2, c2, e1, b2, _. split; [done|]. split; [exact He|]. split; [|done]. split; [exact Hff|by split_and!].
Qed.

Lemma read_loop_ends q : ∀ pool k c e b m, atls pool c e b → quiet q (b_fd (a_base c)) k →
  ∃ pool' k' c' e' b' x err,
    (∀ fuel, (q < fuel)%nat → read_loop fuel pool k c m = Some (pool', k', c', m_given x, (len (m_given x), err))) ∧
    read_result pool k c e b m pool' k' c' e' b' x err.
Proof.
  induction q as [q IH] using lt_wf_ind. intros pool k c e b m Hat Hq.
  destruct (read_round q pool k c e b m Hat Hq) as [(pool1 & k1 & c1 & e1 & b1 & x & err & He & Hres)|
    (q' & pool1 & k1 & c1 & e1 & b1 & x & -> & He & (Hf & Ht & Hs & Hl & Hg & Hp & Ho) & Hq')].
  { exists pool1, k1, c1, e1, b1, x, err. split; [|done]. intros [|fuel] Hfuel; [lia|apply He]. }
  assert (m_given x = []) as Hx by (destruct (m_given x); [done|destruct Hg as [_ Hg]; by discriminate Hg]).
  destruct (IH q' ltac:(lia) pool1 k1 c1 e1 b1 m) as (pool2 & k2 & c2 & e2 & b2 & y & err & He2 & Hf2 & Ht2 & Hs2 & Hl2 & Hg2 & Hp2 & Ho2);
    [apply Hf|by rewrite (fl_fd _ _ _ _ _ _ _ _ _ _ _ Hf)|].
  assert (m_given (moves_app x y) = m_given y) as Hxy by (unfold moves_app; cbn [m_given]; by rewrite Hx).
  exists pool2, k2, c2, e2, b2, (moves_app x y), err. rewrite Hxy. split.
  { intros [|fuel] Hfuel; [lia|]. rewrite He. apply He2. lia. }
  unfold read_result. rewrite Hxy. split_and!; try done; [by apply (flow_trans _ _ _ _ _ pool1 k1 c1 e1 b1)| | |congruence|congruence].
  - unfold moves_app. cbn [m_taken]. by rewrite Ht, Ht2.
  - unfold moves_app. cbn [m_sent]. by rewrite Hs, Hs2.
Qed.

(** The streams of a connection to which the program has written [given]: what was not
    taken by the engine is queued, what the engine wrote was sent or waits in [cout],
    what arrived was read by the engine or waits in [cin]. *)
Record tls_streams k c e b (given : list Z) : Prop := {
  st_given : te_taken e ++ wq_data (b_wq (a_base c)) = given;
  st_out : te_out e = k_out k (b_fd (a_base c)) ++ contents (tb_cout b);
  st_in : te_in e ++ contents (tb_cin b) = k_in k (b_fd (a_base c));
}.

Lemma flow_streams pool k c e b pool' k' c' e' b' x given :
  flow pool k c e b pool' k' c' e' b' x → tls_streams k c e b given → tls_streams k' c' e' b' given.
Proof.
  intros [A1 M1 F1 (E1 & E2 & E3 & E4) Q1 I1 O1 S1 G1 T1] [Hg Ho Hi]. split.
  - by rewrite E1, <-app_assoc, <-Q1.
  - by rewrite E4, Ho, F1, S1, <-!app_assoc, O1.
  - by rewrite E3, F1, G1, <-Hi, <-!app_assoc, I1.
Qed.

(** The plaintext [Read] has not delivered yet. *)
Definition unread c : list Z := drop (Z.to_nat (a_preReadOff c)) (a_preRead c).

(** [n] bytes of the plaintext kept from the hand-over, delivered. *)
Definition preRead_step c (n : Z) : ATLSConn H A X N E :=
  let off := a_preReadOff c + n in
  a_add_recv (if len (a_preRead c) <=? off then a_set_preRead c [] 0 else a_set_preRead c (a_preRead c) off) n.

Lemma preRead_step_spec pool k c e b (n : Z) given : atls pool c e b → tls_streams k c e b given → 0 ≤ a_preReadOff c → 0 ≤ n →
  let c' := preRead_step c n in
  atls pool c' e b ∧ tls_streams k c' e b given ∧ unread c = take (Z.to_nat n) (unread c) ++ unread c' ∧ 0 ≤ a_preReadOff c'.
Proof.
  intros [] [] Hoff Hn c'. unfold c', preRead_step, unread.
  destruct (Z.leb_spec (len (a_preRead c)) (a_preReadOff c + n));
    cbn [a_add_recv a_set_preRead a_set_base a_base a_Conn a_buf a_preRead a_preReadOff Base_set_counters b_fd b_wq].
  - split_and!; [done..| |done]. rewrite drop_0, app_nil_r, take_ge by (rewrite length_drop; lia). done.
  - split_and!; [done..| |lia]. rewrite Z2Nat.inj_add, <-drop_drop by lia. by rewrite take_drop.
Qed.

(** C31: [FlushN] of a TLS connection without kernel TLS returns, however the socket and
    the engine behave within their contracts: there is an amount of fuel from which on
    the result is the same.  The count it returns is the number of ciphertext bytes the
    socket took, never more than a positive budget.  No byte is lost, repeated or
    reordered: the engine's input is still a prefix of what the program wrote, the rest
    is queued, and what the engine produced was sent or waits in [cout].  With no error
    it stopped because the budget is spent, because nothing is pending, or because the
    socket took nothing. *)
Theorem atls_flush_conserves pool k c e b maxBytes given :
  atls pool c e b → a_ktls c = false → tls_streams k c e b given →
  ∃ fuel0 pool' k' c' e' b' sent err,
    (∀ fuel, (fuel0 ≤ fuel)%nat → ATLSConn_FlushN T fuel pool k c maxBytes = Some (pool', k', c', (len sent, err))) ∧
    atls pool' c' e' b' ∧ tls_streams k' c' e' b' given ∧
    k_out k' (b_fd (a_base c)) = k_out k (b_fd (a_base c)) ++ sent ∧ te_given e' = te_given e ∧
    (0 < maxBytes → len sent ≤ maxBytes) ∧ flush_end (0 <? maxBytes) maxBytes (len sent) c' b' err.
Proof.
  intros Hat Hk Hst.
  destruct (flush_loop_ends _ _ pool k c e b (0 <? maxBytes) maxBytes 0 Hat eq_refl eq_refl)
    as (fuel0 & pool' & k' & c' & e' & b' & x & err & Hl & Hf & Hg & _ & Hlim & Hend).
  exists fuel0, pool', k', c', e', b', (m_sent x), err. split_and!; try apply Hf.
  - intros fuel Hfuel. unfold ATLSConn_FlushN. rewrite Hk, (at_buf _ _ _ _ Hat).
    destruct (Z.eqb_spec (b_fd (a_base c)) 0) as [E0|_]; [by destruct (at_fd _ _ _ _ Hat)|]. by apply Hl.
  - by apply (flow_streams _ _ _ _ _ _ _ _ _ _ _ _ Hf).
  - destruct (fl_engine _ _ _ _ _ _ _ _ _ _ _ Hf) as (_ & -> & _). by rewrite Hg, app_nil_r.
  - intros Hpos. rewrite (proj2 (Z.ltb_lt _ _) Hpos) in Hlim. specialize (Hlim eq_refl). lia.
  - done.
Qed.

(** C32: [Read] of a TLS connection that decrypts itself returns after at most as many
    rounds as the socket has answers, delivers what was read before the hand-over first,
    then what the engine decrypts, at most the size of the buffer, and reports an error
    exactly when it delivers nothing.  Neither plaintext nor ciphertext is lost on the
    way: the bytes delivered are the next ones of the plaintext the engine gave, and what
    arrived was read by the engine or waits in [cin]. *)
Theorem atls_read_delivers q pool k c e b m given :
  atls pool c e b → a_ktls c && a_ktlsRX c = false → 0 < m → 0 ≤ a_preReadOff c → quiet q (b_fd (a_base c)) k →
  tls_streams k c e b given →
  ∃ pool' k' c' e' b' d dec err,
    (∀ fuel, (q < fuel)%nat → ATLSConn_Read fuel pool k c m = Some (pool', k', c', d, (len d, err))) ∧
    atls pool' c' e' b' ∧ tls_streams k' c' e' b' given ∧ te_given e' = te_given e ++ dec ∧
    unread c ++ dec = d ++ unread c' ∧ len d ≤ m ∧ (err = None ↔ d ≠ []) ∧ (unread c ≠ [] → dec = []) ∧ 0 ≤ a_preReadOff c'.
Proof.
  intros Hat Hk Hm Hoff Hq Hst. unfold ATLSConn_Read.
  destruct (Z.eqb_spec (b_fd (a_base c)) 0) as [E0|_]; [by destruct (at_fd _ _ _ _ Hat)|].
  destruct (Z.eqb_spec m 0) as [|_]; [lia|]. rewrite slice_Some by lia. cbn [mbind option_bind].
  assert (sub (a_preRead c) (Z.min (a_preReadOff c) (len (a_preRead c))) (len (a_preRead c)) = unread c) as ->.
  { rewrite sub_suffix by lia. unfold unread. destruct (decide (a_preReadOff c ≤ len (a_preRead c))); [by rewrite Z.min_l by lia|].
    rewrite !drop_ge by lia. done. }
  assert (len (unread c) = Z.max 0 (len (a_preRead c) - a_preReadOff c)) as Hlu by (unfold unread; rewrite length_drop; lia).
  set (d := take (Z.to_nat m) (unread c)). assert (len d = Z.min m (len (unread c))) as Hd by (unfold d; rewrite length_take; lia).
  destruct (Z.ltb_spec (a_preReadOff c) (len (a_preRead c))) as [Hlt|Hge].
  - destruct (Z.ltb_spec 0 (len d)); [|lia]. cbn [andb].
    destruct (preRead_step_spec pool k c e b (len d) given Hat Hst Hoff) as (Hat' & Hst' & Hu & Hoff'); [lia|].
    exists pool, k, (preRead_step c (len d)), e, b, d, [], None. rewrite !app_nil_r. split_and!; try done; [|lia|].
    + rewrite Hu at 1. f_equal. unfold d. rewrite length_take, Nat2Z.id. by rewrite <-take_take, (take_ge (unread c) (length (unread c))) by lia.
    + split; [intros _ E0; rewrite E0 in *; simpl in *; lia|done].
  - cbn [andb]. rewrite Hk. assert (unread c = []) as Hu by (apply drop_ge; lia).
    destruct (read_loop_ends q pool k c e b m Hat Hq)
      as (pool' & k' & c' & e' & b' & x & err & Hl & Hf & _ & _ & Hlen & Herr & Hp & Ho).
    exists pool', k', c', e', b', (m_given x), (m_given x), err. rewrite Hu. unfold unread. rewrite Hp, Ho. fold (unread c). rewrite Hu.
    split_and!; try done; try apply Hf.
    + by apply (flow_streams _ _ _ _ _ _ _ _ _ _ _ _ Hf).
    + by rewrite app_nil_r.
    + lia.
Qed.

End FlushLemmas.

(** ** An engine for the witnesses *)

(** The null cipher: a record is its plaintext. *)
Record NullTls := mkNT { nt_taken : list Z; nt_given : list Z; nt_out : list Z; nt_in : list Z }.

Definition nt_Read (e : NullTls) (m : Z) : tprog (NullTls * list Z * option errno) :=
  TRead (Z.to_nat m) (λ d err, TRet (mkNT (nt_taken e) (nt_given e ++ d) (nt_out e) (nt_in e ++ d), d, err)).
Definition nt_Write (e : NullTls) (b : list Z) : tprog (NullTls * Z * option errno) :=
  TWrite b (λ n err, let p := take (Z.to_nat n) b in TRet (mkNT (nt_taken e ++ p) (nt_given e) (nt_out e ++ p) (nt_in e), n, err)).

#[export] Instance NullTls_Engine : TlsEngine NullTls := {
  te_Read := nt_Read; te_Write := nt_Write; te_Close e := TRet (e, None);
  te_taken := nt_taken; te_given := nt_given; te_out := nt_out; te_in := nt_in;
}.

#[export] Instance NullTls_Laws : TlsEngineLaws NullTls.
Proof.
  split.
  - intros e b. cbn [te_Write NullTls_Engine nt_Write tprog_spec]. intros n err Hn Herr.
    split; [done|]. split; [done|]. unfold engine_step. cbn. by rewrite !app_nil_r.
  - intros e m. cbn [te_Read NullTls_Engine nt_Read tprog_spec]. intros d err Hd _.
    split; [lia|]. unfold engine_step. cbn. by rewrite !app_nil_r.
Qed.

#[local] Existing Instances test_Allocator test_AllocatorLaws.

#[local] Instance unit_NetConn : NetConn unit := {
  nc_read c n := (c, [], Some EOF); nc_write c b := (c, (0, Some EBADF)); nc_SetReadDeadline c t := c;
  nc_in _ := []; nc_out _ := [] }.

(** Seven classes, of 1024 to 65536 bytes. *)
Definition tls_pool : BytesAlloctor := default (mkBytesAlloctor 0 0 0 ∅ 0%nat) (Setup 7).

Lemma tls_pool_inv : al_inv tls_pool.
Proof. destruct (Setup_inv 7 eq_refl) as (ba & E & HI & _). exists 10. unfold tls_pool. by rewrite E. Qed.

Definition test_tls (wq : writeQueue) (ktls : bool) (cout : RingBuffer) : ATLSConn unit unit unit unit NullTls :=
  mkATLS (mkBase None 7 1 0 None None None None "" "" "" false None 0 0 0 wq) false false
    (Some (mkNT [] [] [] [])) (Some (mkTB None NewRingBuffer cout None None)) ktls false [] 0 (-1).

Lemma test_tls_atls wq : wq_inv wq → atls tls_pool (test_tls wq false NewRingBuffer) (mkNT [] [] [] [])
  (mkTB None NewRingBuffer NewRingBuffer None None).
Proof.
  intros Hwq. split; [apply tls_pool_inv|done..|].
  assert (rb_ok tls_pool NewRingBuffer) by (split; [split; cbn; lia|done]). by split.
Qed.

Lemma test_wq_inv : wq_inv test_wq.
Proof. split; [vm_compute; discriminate|by right|by repeat constructor|reflexivity]. Qed.

Lemma tk_quiet fd (k : TestKernel) : quiet (length (tk_inp k)) fd k.
Proof.
  remember (length (tk_inp k)) as m eqn:Hm. assert (length (tk_inp k) ≤ m)%nat as Hle by lia. clear Hm. revert k Hle.
  induction m as [|m IH]; intros k Hle; cbn [quiet sys_read TK_Kernel]; intros sz Hsz; unfold tk_recv;
    destruct (tk_inp k) as [|x l] eqn:E; try done; cbn [length] in Hle; [lia|].
  intros _ _. apply IH. cbn [tk_inp]. rewrite length_drop. cbn [length]. lia.
Qed.

Lemma atls_flush_conserves_witness :
  let c := test_tls test_wq false NewRingBuffer in
  let k := mkTK 2 0 [] [] [] in
  ∃ fuel0 pool' k' c' e' b' sent err,
    (∀ fuel, (fuel0 ≤ fuel)%nat → ATLSConn_FlushN (g_conn initial_globals) fuel tls_pool k c 64 = Some (pool', k', c', (len sent, err))) ∧
    atls pool' c' e' b' ∧ tls_streams k' c' e' b' [2; 3; 4] ∧
    k_out k' 7 = k_out k 7 ++ sent ∧ te_given e' = [] ∧
    (0 < 64 → len sent ≤ 64) ∧ flush_end (K := TestKernel) (0 <? 64) 64 (len sent) c' b' err.
Proof.
  intros c k. refine (atls_flush_conserves (g_conn initial_globals) tls_pool (mkTK 2 0 [] [] []) (test_tls test_wq false NewRingBuffer)
    (mkNT [] [] [] []) (mkTB None NewRingBuffer NewRingBuffer None None) 64 [2; 3; 4] _ _ _).
  - apply test_tls_atls, test_wq_inv.
  - reflexivity.
  - split; reflexivity.
Defined.

Lemma atls_read_delivers_witness :
  let c := test_tls wq_empty false NewRingBuffer in
  let k := mkTK 2 0 [5; 6; 7] [] [] in
  ∃ pool' k' c' e' b' d dec err,
    (∀ fuel, (3 < fuel)%nat → ATLSConn_Read fuel tls_pool k c 2 = Some (pool', k', c', d, (len d, err))) ∧
    atls pool' c' e' b' ∧ tls_streams k' c' e' b' [] ∧ te_given e' = [] ++ dec ∧
    unread c ++ dec = d ++ unread c' ∧ len d ≤ 2 ∧ (err = None ↔ d ≠ []) ∧ (unread c ≠ [] → dec = []) ∧ 0 ≤ a_preReadOff c'.
Proof.
  intros c k. refine (atls_read_delivers 3 tls_pool (mkTK 2 0 [5; 6; 7] [] []) (test_tls wq_empty false NewRingBuffer)
    (mkNT [] [] [] []) (mkTB None NewRingBuffer NewRingBuffer None None) 2 [] _ _ _ _ _ _).
  - apply test_tls_atls, wq_inv_empty.
  - reflexivity.
  - reflexivity.
  - vm_compute; discriminate.
  - exact (tk_quiet 7 (mkTK 2 0 [5; 6; 7] [] [])).
  - split; reflexivity.
Defined.

Example read_decrypts :
  (λ '(_, _, _, d, r), (d, r)) <$> ATLSConn_Read 4 tls_pool (mkTK 2 0 [5; 6; 7] [] []) (test_tls wq_empty false NewRingBuffer) 2
  = Some ([5; 6], (2, None)).
Proof. vm_compute. reflexivity. Qed.

(** With kernel TLS for sending only, [FlushN] leaves [cout] alone although
    [PendingWrite] counts it. *)
Example ktls_flush_leaves_cout :
  let cout := mkRingBuffer [8; 9] 2 0 2 in
  (λ '(_, _, c, r), (ATLSConn_PendingWrite c, r)) <$>
    ATLSConn_FlushN (g_conn initial_globals) 4 tls_pool (mkTK 2 0 [] [] []) (test_tls wq_empty true cout) 64
  = Some (2, (0, None)).
Proof. vm_compute. reflexivity. Qed.
