(* ===== verification/KtlsSetup.v ===== *)
(** * connection/{ktls_linux,tlsengine,tlsconn}.go, ktls_policy.go: from a handshake to a connection

    After the TLS handshake a connection is handed to the kernel if everything that is
    needed is there: a supported version and suite, the secrets of the key log, the random
    values and record numbers that [recordConn] saw.  Otherwise it stays with crypto/tls.
    [NewPendingTLSServerConn] and [CompleteServerHandshake] are the path of the loops,
    [newKTLSConn] that of connections made by the caller.  Plaintext that crypto/tls has
    decrypted before the switch is kept for [Read].  Log messages, timeouts of the context
    and the close of the duplicate descriptor the handshake ran on are not modelled. *)

From stdpp Require Import strings.
From S2P Require Import Prelude Pool Tuning WriteQueue RingBuffer Conn Text TlsStrict KtlsRecords KtlsKeys TlsConn.

(** ** connection/tlsengine.go *)

Inductive TLSEngine := TLSEngineATLS | TLSEngineKTLS.

#[export] Instance TLSEngine_eq : EqDecision TLSEngine.
Proof. solve_decision. Defined.

(** [strings.ToLower] and [strings.TrimSpace] on ASCII. *)
Definition normal (s : list Z) : list Z := lower <$> TrimSpace s.

Definition ResolveTLSEngine (requested : list Z) : TLSEngine :=
  let r := normal requested in
  if bool_decide (r = [] ∨ r = str "atls") then TLSEngineATLS
  else if bool_decide (r = str "ktls") then TLSEngineKTLS
  else TLSEngineATLS.

(** ** ktls_policy.go *)

Record EvConfig := mkEvConfig { KTLSPolicy : list Z; TlsMinVersion : Z; TlsMaxVersion : Z }.

Definition set_enableRX (G : KtlsKnobs) (rx : bool) : KtlsKnobs :=
  mkKtlsKnobs (KTLSPreferTLS12IfNoAESGCM G) (KTLSForceTLS13AESGCM G) rx (KTLSDisableSessionTickets G)
    (KTLSClientPostHandshakeTimeout G) (KTLSClientPostHandshakeReadMaxBytes G).

(** [conn] are the knobs of package connection; the last component is the new value of those of
    internal/ktls, which are overwritten by them. *)
Definition applyKTLSPolicy (cfg : EvConfig) (conn : KtlsKnobs) : EvConfig * KtlsKnobs * KtlsKnobs :=
  let policy := normal (KTLSPolicy cfg) in
  let '(rx, v) :=
    if bool_decide (policy = [] ∨ policy = str "tls12-tx") then (false, VersionTLS12)
    else if bool_decide (policy = str "tls13-tx") then (false, VersionTLS13)
    else if bool_decide (policy = str "tls12-rxtx") then (true, VersionTLS12)
    else if bool_decide (policy = str "tls13-rxtx") then (true, VersionTLS13)
    else (false, VersionTLS12) in
  let conn := set_enableRX conn rx in
  (mkEvConfig (KTLSPolicy cfg) v v, conn, conn).

(** ** The version of the kernel *)

Definition ktlsTLS13MinKernelMajor : Z := 5.
Definition ktlsTLS13MinKernelMinor : Z := 15.

(** The bytes before the first zero; an [int8] is converted to its byte. *)
Fixpoint charsToString (ca : list Z) : list Z :=
  match ca with
  | [] => []
  | x :: ca => if x =? 0 then [] else wrapU 8 x :: charsToString ca
  end.

(** The first two parts of [strings.SplitN(release, ".", 3)], [None] when there are fewer. *)
Definition split_release (release : list Z) : option (list Z * list Z) :=
  let i := IndexByte release 46 in
  if i <? 0 then None
  else
    let rest := drop (Z.to_nat (i + 1)) release in
    let j := IndexByte rest 46 in
    Some (take (Z.to_nat i) release, if j <? 0 then rest else take (Z.to_nat j) rest).

Definition parseKernelMajorMinor (release : list Z) : option (Z * Z) :=
  '(a, b) ← split_release release; maj ← Atoi a; min ← Atoi b; Some (maj, min).

(** [uname] gives the release, or an error; the answer is computed once. *)
Definition kernelSupportsKTLS13 (uname : option (list Z)) : bool :=
  match uname with
  | None => false
  | Some release =>
      match parseKernelMajorMinor (charsToString release) with
      | None => false
      | Some (maj, min) =>
          (ktlsTLS13MinKernelMajor <? maj)
          || ((maj =? ktlsTLS13MinKernelMajor) && (ktlsTLS13MinKernelMinor <=? min))
      end
  end.

(** ** The connections a handshake runs on *)

(** [recordConn] is a [net.Conn]; its parsers do not panic on bytes. *)
#[export] Instance recordConn_NetConn {N} `{!NetConn N} : NetConn (recordConn N) := {|
  nc_read c n :=
    match recordConn_Read c n with
    | Some r => r
    | None => let '(k, d, e) := nc_read (rc_Conn c) n in (mkRC k (rc_in c) (rc_out c), d, e)
    end;
  nc_write c b :=
    match recordConn_Write c b with
    | Some r => r
    | None => let '(k, r) := nc_write (rc_Conn c) b in (mkRC k (rc_in c) (rc_out c), r)
    end;
  nc_SetReadDeadline c t := mkRC (nc_SetReadDeadline (rc_Conn c) t) (rc_in c) (rc_out c);
  nc_in c := nc_in (rc_Conn c);
  nc_out c := nc_out (rc_Conn c) |}.

#[export] Instance replayConn_NetConn {N} `{!NetConn N} : NetConn (replayConn N) := {|
  nc_read := replayConn_Read;
  nc_write c b := let '(k, r) := nc_write (rc_conn c) b in (mkReplay k (rc_preRead c), r);
  nc_SetReadDeadline c t := mkReplay (nc_SetReadDeadline (rc_conn c) t) (rc_preRead c);
  nc_in c := nc_in (rc_conn c);
  nc_out c := nc_out (rc_conn c) |}.

(** A value of type [net.Conn] that is one of two types. *)
#[export] Instance sum_NetConn {N1 N2} `{!NetConn N1, !NetConn N2} : NetConn (N1 + N2) := {|
  nc_read c n :=
    match c with
    | inl c => let '(c, d, e) := nc_read c n in (inl c, d, e)
    | inr c => let '(c, d, e) := nc_read c n in (inr c, d, e)
    end;
  nc_write c b :=
    match c with
    | inl c => let '(c, r) := nc_write c b in (inl c, r)
    | inr c => let '(c, r) := nc_write c b in (inr c, r)
    end;
  nc_SetReadDeadline c t :=
    match c with inl c => inl (nc_SetReadDeadline c t) | inr c => inr (nc_SetReadDeadline c t) end;
  nc_in c := match c with inl c => nc_in c | inr c => nc_in c end;
  nc_out c := match c with inl c => nc_out c | inr c => nc_out c end |}.

(** ** The handshake of crypto/tls *)

Record ConnectionState := mkCS { cs_Version : Z; cs_CipherSuite : Z }.

(** [te_Handshake] gives, besides the error, what it wrote to the key log of its
    configuration; [te_RecSeq] is what [TLSConnRecSeq] finds; [te_keylog], for specification,
    is all that was written to the key log. *)
Class TlsHandshake (E : Type) := {
  te_Client : Config → E;
  te_Server : Config → E;
  te_Handshake : E → tprog (E * list (list Z) * option errno);
  te_ConnectionState : E → ConnectionState;
  te_RecSeq : E → option (list Z * list Z);
  te_keylog : E → list Z;
}.

(** [dup(2)], [net.FileConn], which duplicates once more, and [close(2)]. *)
Class DupKernel (K N : Type) := {
  sys_dup : K → Z → K * (Z + errno);
  net_FileConn : K → Z → K * (N + errno);
  close_fd : K → Z → K;
}.

Definition errNoFile : errno := EOTHER 5.   (* "failed to create os.File for handshake fd" *)

Inductive setup_error :=
| ENilConfig | ENoSuites | ENotInit
| EErrno (e : errno)
| EStrict (e : tls_error).

(** What an attempt to enable kernel TLS finds: the reason it stays with crypto/tls, or
    the result of the socket options. *)
Inductive ktls_reason :=
| RCipher | RNoRecordConn | RNoKeyLog | RRandoms | RMaster | RDerive | RKernel | RTraffic | RSeq | RVersion
| REnable (e : ktls_error).

(** ** Enabling kernel TLS *)

Section Enable.
Context {K N : Type} `{!KtlsKernel K, !NetConn N}.
Variable G : KtlsKnobs.
Variable hmac : hash → list Z → list Z → list Z.
Variable hkdf_Expand : hash → list Z → list Z → Z → option (list Z).

(** The part of the two switches that is the same: the case of TLS 1.2. *)
Definition enable12 (k : K) (fd : Z) (isClient : bool) (suite : Z) (rc : recordConn N) (klw : keyLogWriter) :
    option (K * option ktls_reason) :=
  let cr := default [] (clientRandom rc) in
  let sr := default [] (serverRandom rc) in
  if negb (len cr =? 32) || negb (len sr =? 32) then Some (k, Some RRandoms)
  else
    match secrets klw with
    | None => Some (k, Some RMaster)
    | Some (_, masterSecret) =>
        if len masterSecret =? 0 then Some (k, Some RMaster)
        else
          keys ← deriveTLS12Keys hmac masterSecret cr sr suite;
          match keys with
          | None => Some (k, Some RDerive)
          | Some keys =>
              let '(k, err) := enableKTLS G k fd isClient suite keys (inSeq rc) (outSeq rc) in
              Some (k, REnable <$> err)
          end
    end.

(** The keys of TLS 1.3, and their use. *)
Definition keys13 (suite : Z) (klw : keyLogWriter) : option (ktls_reason + Keys) :=
  match trafficSecrets klw with
  | None => Some (inl RTraffic)
  | Some (clientSecret, serverSecret) =>
      keys ← deriveTLS13Keys hkdf_Expand clientSecret serverSecret suite;
      Some (match keys with None => inl RDerive | Some keys => inr keys end)
  end.

Definition enable13 (k : K) (fd : Z) (isClient : bool) (suite : Z) (keys : Keys) (seqs : option (list Z * list Z)) :
    K * option ktls_reason :=
  match seqs with
  | None => (k, Some RSeq)
  | Some (inSeq, outSeq) =>
      let '(k, err) := enableKTLS13 G k fd isClient suite keys inSeq outSeq in (k, REnable <$> err)
  end.

End Enable.

(** ** Draining what crypto/tls has decrypted *)

Section Drain.
Context {P N A E : Type} `{!Allocator P, !NetConn N, !TlsEngine E}.
Implicit Types (b : tlsBufferConn N A) (e : E).

(** [conn.SetReadDeadline], a time from now or none, on the connection below the engine. *)
Definition tb_deadline b (t : option Z) : tlsBufferConn N A :=
  tb_setDirect b ((λ d, nc_SetReadDeadline d t) <$> tb_direct b).

(** [size] is the length of [buf]; each round but the last adds a byte to [out]. *)
Fixpoint drain_loop (fuel : nat) (pool : P) b e (size maxBytes : Z) (out : list Z) :
    option (P * tlsBufferConn N A * E * list Z) :=
  if len out <? maxBytes then
    match fuel with
    | O => None
    | S fuel =>
        let need := maxBytes - len out in
        let size := if need <? size then need else size in
        '(pool, b, (e, d, _)) ← run_tls pool b (te_Read e size);
        if 0 <? len d then drain_loop fuel pool b e size maxBytes (out ++ d)
        else Some (pool, b, e, out)
    end
  else Some (pool, b, e, out).

Definition drainBufferedTLSPlaintext (pool : P) b e (maxBytes : Z) : option (P * tlsBufferConn N A * E * list Z) :=
  if maxBytes <=? 0 then Some (pool, b, e, [])
  else
    '(pool, b, e, out) ← drain_loop (Z.to_nat maxBytes) pool (tb_deadline b (Some 0)) e 4096 maxBytes [];
    Some (pool, tb_deadline b None, e, out).

Definition drainClientTickets (G : KtlsKnobs) (pool : P) b e : option (P * tlsBufferConn N A * E * list Z) :=
  if (KTLSClientPostHandshakeTimeout G <=? 0) || (KTLSClientPostHandshakeReadMaxBytes G <=? 0) then Some (pool, b, e, [])
  else
    let b := tb_deadline b (Some (KTLSClientPostHandshakeTimeout G)) in
    '(pool, b, (e, d, _)) ← run_tls pool b (te_Read e (KTLSClientPostHandshakeReadMaxBytes G));
    Some (pool, tb_deadline b None, e, d).

End Drain.

(** ** A connection built from parts *)

Section Setup.
Context {P K H A X N E : Type} `{!Allocator P, !KtlsKernel K, !NetConn N, !TlsEngine E, !TlsHandshake E}.
Variable G : KtlsKnobs.
Variable hmac : hash → list Z → list Z → list Z.
Variable hkdf_Expand : hash → list Z → list Z → Z → option (list Z).
Variable uname : option (list Z).

(** [&ATLSConn{...}] with [SetFd] and [SetRecvbuf]. *)
Definition new_base (fd : Z) : Base H A X :=
  mkBase None fd 0 0 None (Some NewRingBuffer) None None "" "" "" false None 0 0 0 wq_empty.

Definition atls_conn {M} (fd : Z) (e : option E) (b : option (tlsBufferConn M A)) (ktls rx : bool) (preRead : list Z) :
    ATLSConn H A X M E :=
  mkATLS (new_base fd) false false e b ktls rx preRead 0 0.

Definition newStdTLSFallback {M} (fd : Z) (b : tlsBufferConn M A) (e : E) (preRead : list Z) : ATLSConn H A X M E :=
  atls_conn fd (Some e) (Some b) false false preRead.

(** The rest of [newKTLSConn] after the socket options were set. *)
Definition new_enabled {M} (fd : Z) (b : tlsBufferConn M A) (e : E) (preRead : list Z) : ATLSConn H A X M E :=
  if KTLSEnableRX G then atls_conn fd None None true true preRead
  else atls_conn fd (Some e) (Some (clearDirect b)) true false preRead.

Definition new_result {M} (fd : Z) (b : tlsBufferConn M A) (e : E) (preRead : list Z) (reason : option ktls_reason) :
    ATLSConn H A X M E :=
  match reason with
  | Some _ => newStdTLSFallback fd (clearDirect b) e preRead
  | None => new_enabled fd b e preRead
  end.

(** [newKTLSConn] from the end of the handshake on; [b] has the record connection below
    it, [klw] what the handshake logged, [cache] says whether there is a session cache. *)
Definition switch_to_ktls {M} `{!NetConn M} (pool : P) (k : K) (fd : Z) (isClient cache : bool)
    (b : tlsBufferConn (recordConn M) A) (e : E) (klw : keyLogWriter) : option (P * K * ATLSConn H A X (recordConn M) E) :=
  let state := te_ConnectionState e in
  let suite := cs_CipherSuite state in
  if negb (isKTLSCipher suite) then Some (pool, k, newStdTLSFallback fd (clearDirect b) e [])
  else
    '(pool, b, e, preRead) ← drainBufferedTLSPlaintext pool b e (KTLSClientPostHandshakeReadMaxBytes G);
    rc ← tb_direct b;
    if cs_Version state =? VersionTLS12 then
      '(k, r) ← enable12 G hmac k fd isClient suite rc klw; Some (pool, k, new_result fd b e preRead r)
    else if cs_Version state =? VersionTLS13 then
      if negb (kernelSupportsKTLS13 uname) then Some (pool, k, new_result fd b e preRead (Some RKernel))
      else
        '(pool, b, e, preRead) ←
          (if isClient && negb (KTLSDisableSessionTickets G) && cache then
             '(pool, b, e, ticketData) ← drainClientTickets G pool b e; Some (pool, b, e, preRead ++ ticketData)
           else Some (pool, b, e, preRead));
        keys ← keys13 hkdf_Expand suite klw;
        match keys with
        | inl r => Some (pool, k, new_result fd b e preRead (Some r))
        | inr keys =>
            let '(k, r) := enable13 G k fd isClient suite keys (te_RecSeq e) in
            Some (pool, k, new_result fd b e preRead r)
        end
    else Some (pool, k, new_result fd b e preRead (Some RVersion)).

Context `{!DupKernel K N}.

(** A connection on a duplicate of the descriptor; [os.NewFile] gives nil for a negative one. *)
Definition handshakeConnFromFD (k : K) (fd : Z) : K * (N + errno) :=
  let '(k, r) := sys_dup k fd in
  match r with
  | inr err => (k, inr err)
  | inl dup =>
      if dup <? 0 then (close_fd k dup, inr errNoFile)
      else let '(k, conn) := net_FileConn k dup in (close_fd k dup, conn)
  end.

Variable TlsHandshakeTimeout : Z.

(** The connection the handshake of a server runs on may be wrapped by the precheck. *)
Definition precheck (isClient : bool) (hc : N) (cfg : Config) : option ((N + replayConn N) + tls_error) :=
  if isClient then Some (inl (inl hc))
  else
    w ← maybeWrapStrictTLS13ServerConn TlsHandshakeTimeout hc (Some (mkTlsConfig (cf_MinVersion cfg) (cf_MaxVersion cfg)));
    Some (match w with WPlain c => inl (inl c) | WReplay c => inl (inr c) | WError _ e => inr e end).

Definition newKTLSConn (pool : P) (k : K) (g : ktlsGlobals) (fd : Z) (cfg : option Config) (isClient : bool) (local remote : option A) :
    option (P * K * ktlsGlobals * (ATLSConn H A X (recordConn (N + replayConn N)) E + setup_error)) :=
  match cfg with
  | None => Some (pool, k, g, inr ENilConfig)
  | Some cfg =>
      let '(g, ktlsCfg, klw) := prepareKTLSConfig G g cfg (newKeyLogWriter None) in
      if len (cf_CipherSuites ktlsCfg) =? 0 then Some (pool, k, g, inr ENoSuites)
      else
        let '(k, hc) := handshakeConnFromFD k fd in
        match hc with
        | inr err => Some (pool, k, g, inr (EErrno err))
        | inl hc =>
            hc ← precheck isClient hc cfg;
            match hc with
            | inr err => Some (pool, k, g, inr (EStrict err))
            | inl hc =>
                let b := mkTB (Some (newRecordConn hc)) NewRingBuffer NewRingBuffer local remote in
                let e := if isClient then te_Client ktlsCfg else te_Server ktlsCfg in
                '(pool, b, (e, logs, err)) ← run_tls pool b (te_Handshake e);
                klw ← log_writes klw logs;
                match err with
                | Some err => Some (pool, k, g, inr (EErrno err))
                | None =>
                    '(pool, k, c) ← switch_to_ktls pool k fd isClient (cf_ClientSessionCache ktlsCfg) b e klw;
                    Some (pool, k, g, inl c)
                end
            end
        end
  end.

(** [NewATLSConnServer] and [NewATLSConnClient] differ in the precheck and in the engine. *)
Definition newATLSConn (pool : P) (k : K) (fd : Z) (cfg : option Config) (isClient : bool) (local remote : option A) :
    option (P * K * (ATLSConn H A X (N + replayConn N) E + setup_error)) :=
  match cfg with
  | None => Some (pool, k, inr ENilConfig)
  | Some cfg =>
      let '(k, hc) := handshakeConnFromFD k fd in
      match hc with
      | inr err => Some (pool, k, inr (EErrno err))
      | inl hc =>
          hc ← precheck isClient hc cfg;
          match hc with
          | inr err => Some (pool, k, inr (EStrict err))
          | inl hc =>
              let b := mkTB (Some hc) NewRingBuffer NewRingBuffer local remote in
              let e := if isClient then te_Client cfg else te_Server cfg in
              '(pool, b, (e, _, err)) ← run_tls pool b (te_Handshake e);
              match err with
              | Some err => Some (pool, k, inr (EErrno err))
              | None => Some (pool, k, inl (atls_conn fd (Some e) (Some (clearDirect b)) false false []))
              end
          end
      end
  end.

Definition NewATLSConnServer pool k fd cfg local remote := newATLSConn pool k fd cfg false local remote.
Definition NewATLSConnClient pool k fd cfg local remote := newATLSConn pool k fd cfg true local remote.

(** [NewTLSConnServer] and [NewTLSConnClient]: the engine in [mode] makes the connection.  The
    connection below the buffers, gone after the handshake, has another type with each. *)
Definition new_tls_conn : Type := ATLSConn H A X (recordConn (N + replayConn N)) E + ATLSConn H A X (N + replayConn N) E.

Definition NewTLSConnServer (mode : TLSEngine) (pool : P) (k : K) (g : ktlsGlobals) (fd : Z) (cfg : option Config) (local remote : option A) :
    option (P * K * ktlsGlobals * (new_tls_conn + setup_error)) :=
  match mode with
  | TLSEngineKTLS =>
      '(pool, k, g, r) ← newKTLSConn pool k g fd cfg false local remote;
      Some (pool, k, g, match r with inl c => inl (inl c) | inr err => inr err end)
  | TLSEngineATLS =>
      '(pool, k, r) ← NewATLSConnServer pool k fd cfg local remote;
      Some (pool, k, g, match r with inl c => inl (inr c) | inr err => inr err end)
  end.

Definition NewTLSConnClient (mode : TLSEngine) (pool : P) (k : K) (g : ktlsGlobals) (fd : Z) (cfg : option Config) (local remote : option A) :
    option (P * K * ktlsGlobals * (new_tls_conn + setup_error)) :=
  match mode with
  | TLSEngineKTLS =>
      '(pool, k, g, r) ← newKTLSConn pool k g fd cfg true local remote;
      Some (pool, k, g, match r with inl c => inl (inl c) | inr err => inr err end)
  | TLSEngineATLS =>
      '(pool, k, r) ← NewATLSConnClient pool k fd cfg local remote;
      Some (pool, k, g, match r with inl c => inl (inr c) | inr err => inr err end)
  end.

End Setup.

(** ** The path of the event loops *)

(** [ATLSConn] before its handshake: the fields only used until then.  [pt_RC] says that
    [handshakeRC] is set; it is then the record connection below the buffers. *)
Record PendingTLS (H A X N E : Type) := mkPT {
  pt_conn : ATLSConn H A X (N + recordConn N) E; pt_state : option ConnectionState;
  pt_mode : TLSEngine; pt_RC : bool; pt_KLW : option keyLogWriter }.
Arguments mkPT {H A X N E}. Arguments pt_conn {H A X N E}. Arguments pt_state {H A X N E}.
Arguments pt_mode {H A X N E}. Arguments pt_RC {H A X N E}. Arguments pt_KLW {H A X N E}.

Section Pending.
Context {P K H A X N E : Type} `{!Allocator P, !KtlsKernel K, !NetConn N, !TlsEngine E, !TlsHandshake E}.
Variable G : KtlsKnobs.
Variable hmac : hash → list Z → list Z → list Z.
Variable hkdf_Expand : hash → list Z → list Z → Z → option (list Z).
Variable uname : option (list Z).
(** [unix.SetNonblock]. *)
Variable sys_nonblock : K → Z → bool → K * option errno.
Implicit Types (c : PendingTLS H A X N E).

Definition pt_set_conn c (a : ATLSConn H A X (N + recordConn N) E) : PendingTLS H A X N E :=
  mkPT a (pt_state c) (pt_mode c) (pt_RC c) (pt_KLW c).
Definition pt_set_state c (s : ConnectionState) : PendingTLS H A X N E :=
  mkPT (pt_conn c) (Some s) (pt_mode c) (pt_RC c) (pt_KLW c).
Definition pt_set_KLW c (klw : option keyLogWriter) : PendingTLS H A X N E :=
  mkPT (pt_conn c) (pt_state c) (pt_mode c) (pt_RC c) klw.

(** [direct] is the [fdConn] of the descriptor. *)
Definition NewPendingTLSServerConn (g : ktlsGlobals) (mode : TLSEngine) (fd : Z) (direct : N) (cfg : option Config)
    (local remote : option A) : ktlsGlobals * (PendingTLS H A X N E + setup_error) :=
  match cfg with
  | None => (g, inr ENilConfig)
  | Some cfg =>
      let make e d := ATLSConn_SetRemote (ATLSConn_SetLocal (mkATLS (new_base fd) false false (Some e)
        (Some (tb_setDirect newTLSBufferConn (Some d))) false false [] 0 0) local) remote in
      match mode with
      | TLSEngineKTLS =>
          let '(g, ktlsCfg, klw) := prepareKTLSConfig G g cfg (newKeyLogWriter None) in
          if len (cf_CipherSuites ktlsCfg) =? 0 then (g, inr ENoSuites)
          else (g, inl (mkPT (make (te_Server ktlsCfg) (inr (newRecordConn direct))) None mode true (Some klw)))
      | TLSEngineATLS => (g, inl (mkPT (make (te_Server cfg) (inl direct)) None mode false None))
      end
  end.

(** The end of [finalizeServerKTLS] once the kernel took over: [preRead] was drained before. *)
Definition handed_over (a : ATLSConn H A X (N + recordConn N) E) (rx : bool) (preRead : list Z) : ATLSConn H A X (N + recordConn N) E :=
  mkATLS (a_base a) (a_closecb a) (a_opencb a) (if rx then None else a_Conn a) (a_buf a) true rx preRead 0 (a_acceptLoopID a).

(** Draining the engine of [c] behind the buffers [b]. *)
Definition drain_conn (pool : P) c (e : E) (b : tlsBufferConn (N + recordConn N) A) :
    option (P * PendingTLS H A X N E * E * tlsBufferConn (N + recordConn N) A * list Z) :=
  '(pool, b, e, out) ← drainBufferedTLSPlaintext pool b e (KTLSClientPostHandshakeReadMaxBytes G);
  Some (pool, pt_set_conn c (a_set_tls (pt_conn c) e b), e, b, out).

Definition finalize12 (pool : P) (k : K) c (e : E) (b : tlsBufferConn (N + recordConn N) A) (rc : recordConn N) (suite : Z) :
    option (P * K * PendingTLS H A X N E) :=
  match pt_KLW c with
  | None => Some (pool, k, c)
  | Some klw =>
      '(k, r) ← enable12 G hmac k (b_fd (a_base (pt_conn c))) false suite rc klw;
      match r with
      | Some _ => Some (pool, k, c)
      | None =>
          if KTLSEnableRX G then Some (pool, k, pt_set_conn c (handed_over (pt_conn c) true []))
          else
            '(pool, c, _, _, preRead) ← drain_conn pool c e b;
            Some (pool, k, pt_set_conn c (handed_over (pt_conn c) false preRead))
      end
  end.

Definition finalize13 (pool : P) (k : K) c (e : E) (b : tlsBufferConn (N + recordConn N) A) (suite : Z) :
    option (P * K * PendingTLS H A X N E) :=
  if negb (kernelSupportsKTLS13 uname) then Some (pool, k, c)
  else
    match pt_KLW c with
    | None => Some (pool, k, c)
    | Some klw =>
        keys ← keys13 hkdf_Expand suite klw;
        match keys with
        | inl _ => Some (pool, k, c)
        | inr keys =>
            '(pool, c, e, b, preRead) ← (if KTLSEnableRX G then drain_conn pool c e b else Some (pool, c, e, b, []));
            let '(k, r) := enable13 G k (b_fd (a_base (pt_conn c))) false suite keys (te_RecSeq e) in
            match r with
            | Some _ => Some (pool, k, c)
            | None =>
                if KTLSEnableRX G then Some (pool, k, pt_set_conn c (handed_over (pt_conn c) true preRead))
                else
                  '(pool, c, _, _, preRead) ← drain_conn pool c e b;
                  Some (pool, k, pt_set_conn c (handed_over (pt_conn c) false preRead))
            end
        end
    end.

(** An engine is never without its buffers, and [handshakeRC] is the connection below them. *)
Definition finalizeServerKTLS (pool : P) (k : K) c : option (P * K * PendingTLS H A X N E * option setup_error) :=
  match a_Conn (pt_conn c) with
  | None => Some (pool, k, c, Some ENotInit)
  | Some e =>
      b ← a_buf (pt_conn c);
      let state := te_ConnectionState e in
      let c := pt_set_state c state in
      if negb (isKTLSCipher (cs_CipherSuite state)) then Some (pool, k, c, None)
      else if negb (pt_RC c) then Some (pool, k, c, None)
      else
        match tb_direct b with
        | Some (inr rc) =>
            '(pool, k, c) ←
              (if cs_Version state =? VersionTLS12 then finalize12 pool k c e b rc (cs_CipherSuite state)
               else if cs_Version state =? VersionTLS13 then finalize13 pool k c e b (cs_CipherSuite state)
               else Some (pool, k, c));
            Some (pool, k, c, None)
        | _ => None
        end
  end.

(** The end of the handshake: [buf.clearDirect()] and the two fields reset. *)
Definition handshake_done c : PendingTLS H A X N E :=
  mkPT (a_set_bufs (pt_conn c) clearDirect) (pt_state c) (pt_mode c) false None.

(** The handshake of [c]; its key log goes to [handshakeKLW] when that is set. *)
Definition run_handshake (pool : P) c (e : E) (b : tlsBufferConn (N + recordConn N) A) :
    option (P * PendingTLS H A X N E * option errno) :=
  '(pool, b, (e, logs, err)) ← run_tls pool b (te_Handshake e);
  klw ← (match pt_KLW c with None => Some None | Some klw => klw ← log_writes klw logs; Some (Some klw) end);
  Some (pool, pt_set_KLW (pt_set_conn c (a_set_tls (pt_conn c) e b)) klw, err).

Definition CompleteServerHandshake (pool : P) (k : K) c : option (P * K * PendingTLS H A X N E * option setup_error) :=
  match a_Conn (pt_conn c), a_buf (pt_conn c) with
  | Some e, Some b =>
      match tb_direct b with
      | None => Some (pool, k, c, Some ENotInit)
      | Some _ =>
          let fd := b_fd (a_base (pt_conn c)) in
          let '(k, err) := sys_nonblock k fd false in
          match err with
          | Some err => Some (pool, k, c, Some (EErrno err))
          | None =>
              '(pool, c, err) ← run_handshake pool c e b;
              '(pool, k, c, err) ←
                (match err with
                 | Some err => Some (pool, k, c, Some (EErrno err))
                 | None =>
                     '(pool, k, c, err) ←
                       (if bool_decide (pt_mode c = TLSEngineKTLS) then finalizeServerKTLS pool k c
                        else Some (pool, k, c, None));
                     match err with
                     | Some err => Some (pool, k, c, Some err)
                     | None => Some (pool, k, handshake_done c, None)
                     end
                 end);
              Some (pool, fst (sys_nonblock k fd true), c, err)
          end
      end
  | _, _ => Some (pool, k, c, Some ENotInit)
  end.

End Pending.

(** ** What the parts promise *)

(** The contract of [net.Conn] that crypto/tls relies on. *)
Class NetContract (N : Type) `{NetConn N} : Prop := {
  nct_read c n : let '(_, d, e) := nc_read c n in len d ≤ Z.max 0 n ∧ (0 < n → d = [] → e ≠ None);
  nct_write c b : let '(_, (n, e)) := nc_write c b in 0 ≤ n ≤ len b ∧ (e = None → n = len b);
}.

#[export] Instance recordConn_contract {N} `{!NetConn N, !NetContract N} : NetContract (recordConn N).
Proof.
  split.
  - intros c n. pose proof (nct_read (rc_Conn c) n) as R. cbn [nc_read recordConn_NetConn]. unfold recordConn_Read.
    destruct (nc_read (rc_Conn c) n) as [[k d] e]. by destruct (if 0 <? len d then _ else _).
  - intros c b. pose proof (nct_write (rc_Conn c) b) as R. cbn [nc_write recordConn_NetConn]. unfold recordConn_Write.
    destruct (nc_write (rc_Conn c) b) as [k [n e]]. by destruct (if 0 <? n then _ else _).
Qed.

#[export] Instance replayConn_contract {N} `{!NetConn N, !NetContract N} : NetContract (replayConn N).
Proof.
  split.
  - intros c n. cbn [nc_read replayConn_NetConn]. unfold replayConn_Read. destruct (Z.ltb_spec 0 (len (rc_preRead c))) as [Hp|Hp].
    + rewrite length_take. split; [lia|]. intros Hn Hd. apply (f_equal length) in Hd. rewrite length_take in Hd. simpl in Hd. lia.
    + pose proof (nct_read (rc_conn c) n) as R. by destruct (nc_read (rc_conn c) n) as [[k d] e].
  - intros c b. pose proof (nct_write (rc_conn c) b) as R. cbn [nc_write replayConn_NetConn].
    by destruct (nc_write (rc_conn c) b) as [k [n e]].
Qed.

#[export] Instance sum_contract {N1 N2} `{!NetConn N1, !NetConn N2, !NetContract N1, !NetContract N2} : NetContract (N1 + N2).
Proof.
  split.
  - intros [c|c] n; pose proof (nct_read c n) as R; cbn [nc_read sum_NetConn]; by destruct (nc_read c n) as [[k d] e].
  - intros [c|c] b; pose proof (nct_write c b) as R; cbn [nc_write sum_NetConn]; by destruct (nc_write c b) as [k [n e]].
Qed.

(** A handshake delivers no plaintext, and neither reading nor the handshake changes what
    the state of the connection and the key log say of it. *)
(** A duplicate is a descriptor of its own; to make and to close one leaves the keys of the
    others alone. *)
Class DupKernelLaws (K N : Type) `{KtlsKernel K, DupKernel K N} : Prop := {
  sys_dup_ok k fd fd' d : kt_get (fst (sys_dup k fd)) fd' d = kt_get k fd' d ∧
    match snd (sys_dup k fd) with inl x => x ≠ fd | inr _ => True end;
  net_FileConn_ok k fd fd' d : kt_get (fst (net_FileConn k fd)) fd' d = kt_get k fd' d;
  close_fd_ok k fd fd' d : fd ≠ fd' → kt_get (close_fd k fd) fd' d = kt_get k fd' d;
}.

Class TlsHandshakeLaws (E : Type) `{TlsEngine E, TlsHandshake E} : Prop := {
  te_Client_ok cfg : te_given (te_Client cfg) = [] ∧ te_keylog (te_Client cfg) = [];
  te_Server_ok cfg : te_given (te_Server cfg) = [] ∧ te_keylog (te_Server cfg) = [];
  te_Handshake_ok e : tprog_spec (te_Handshake e) [] [] (λ '(e', logs, _) _ _,
    te_given e' = te_given e ∧ te_keylog e' = te_keylog e ++ concat logs);
  te_Read_state e m : tprog_spec (te_Read e m) [] [] (λ '(e', _, _) _ _,
    te_ConnectionState e' = te_ConnectionState e ∧ te_keylog e' = te_keylog e);
}.

Lemma tprog_spec_and {R} (t : tprog R) rd wr (Q Q' : R → list Z → list Z → Prop) :
  tprog_spec t rd wr Q → tprog_spec t rd wr Q' → tprog_spec t rd wr (λ r rd wr, Q r rd wr ∧ Q' r rd wr).
Proof.
  revert rd wr. induction t as [r|n cont IH|b cont IH]; intros rd wr H1 H2; cbn [tprog_spec] in *; [done| |].
  - intros d e Hd He. by apply IH; [apply H1|apply H2].
  - intros n e Hn He. by apply IH; [apply H1|apply H2].
Qed.

(** ** Running the engine on the connection below *)

Section DrainLemmas.
Context {P N A E : Type} `{!Allocator P, !NetConn N, !NetContract N, !TlsEngine E, !TlsEngineLaws E, !TlsHandshake E, !TlsHandshakeLaws E}.
Implicit Types (b : tlsBufferConn N A) (e : E).

(** [b'] is [b] after some use of the connection below it. *)
Definition same_bufs b b' : Prop :=
  is_Some (tb_direct b) → is_Some (tb_direct b') ∧ tb_cin b' = tb_cin b ∧ tb_cout b' = tb_cout b.

Lemma same_bufs_refl b : same_bufs b b.
Proof. by intros ?. Qed.

Lemma same_bufs_trans b1 b2 b3 : same_bufs b1 b2 → same_bufs b2 b3 → same_bufs b1 b3.
Proof. intros H1 H2 Hd. destruct (H1 Hd) as (D2 & E2 & O2). destruct (H2 D2) as (D3 & E3 & O3). split_and!; congruence. Qed.

Lemma tb_deadline_same b t : same_bufs b (tb_deadline b t).
Proof. intros [d Hd]. unfold tb_deadline, tb_setDirect. rewrite Hd. by split_and!; [eexists|..]. Qed.

Lemma run_tls_direct {R} (t : tprog R) (pool : P) b rd wr Q : is_Some (tb_direct b) → tprog_spec t rd wr Q →
  ∃ b' r rd' wr', run_tls pool b t = Some (pool, b', r) ∧ same_bufs b b' ∧ Q r rd' wr'.
Proof.
  revert b rd wr. induction t as [r|n cont IH|p cont IH]; intros b rd wr Hd Hs; cbn [run_tls tprog_spec] in *.
  - exists b, r, rd, wr. split; [done|]. split; [apply same_bufs_refl|done].
  - unfold tlsBufferConn_Read. destruct n as [|n].
    { cbn [mbind option_bind]. by apply (IH [] None b (rd ++ []) wr); [|apply Hs; [simpl; lia|lia]]. }
    destruct Hd as [d Hd]. rewrite Hd. pose proof (nct_read d (Z.of_nat (S n))) as Hr0.
    destruct (nc_read d (Z.of_nat (S n))) as [[d' data] e]. destruct Hr0 as [Hl He0]. cbn [mbind option_bind].
    destruct (IH data e (tb_setDirect b (Some d')) (rd ++ data) wr) as (b2 & r & rd' & wr' & Hr & Hb & HQ);
      [by eexists|apply Hs; [lia|intros _; apply He0; lia]|].
    exists b2, r, rd', wr'. split; [done|]. split; [|done]. eapply same_bufs_trans; [|exact Hb]. intros _. by split_and!; [eexists|..].
  - unfold tlsBufferConn_Write. destruct (Z.eqb_spec (len p) 0) as [Hp|Hp].
    { cbn [mbind option_bind]. by apply (IH 0 None b rd (wr ++ take (Z.to_nat 0) p)); [|apply Hs; [lia|intros _; lia]]. }
    destruct Hd as [d Hd]. rewrite Hd. pose proof (nct_write d p) as Hw.
    destruct (nc_write d p) as [d' [n e]]. destruct Hw as [Hn He]. cbn [mbind option_bind].
    destruct (IH n e (tb_setDirect b (Some d')) rd (wr ++ take (Z.to_nat n) p)) as (b2 & r & rd' & wr' & Hr & Hb & HQ);
      [by eexists|by apply Hs|].
    exists b2, r, rd', wr'. split; [done|]. split; [|done]. eapply same_bufs_trans; [|exact Hb]. intros _. by split_and!; [eexists|..].
Qed.

(** Reading [out] out of the engine. *)
Definition drained b e b' e' (out : list Z) : Prop :=
  same_bufs b b' ∧ te_given e' = te_given e ++ out ∧
  te_ConnectionState e' = te_ConnectionState e ∧ te_keylog e' = te_keylog e.

Lemma drained_refl b e : drained b e b e [].
Proof. unfold drained. rewrite app_nil_r. split_and!; try done. Qed.

Lemma drained_trans b1 e1 b2 e2 b3 e3 out out' :
  drained b1 e1 b2 e2 out → drained b2 e2 b3 e3 out' → drained b1 e1 b3 e3 (out ++ out').
Proof.
  intros (H1 & H2 & H3 & H4) (K1 & K2 & K3 & K4). split_and!; try congruence; [by eapply same_bufs_trans|].
  by rewrite K2, H2, app_assoc.
Qed.

Lemma drained_deadline b e b' e' out t t' : drained (tb_deadline b t) e b' e' out → drained b e (tb_deadline b' t') e' out.
Proof.
  intros (H1 & H2 & H3 & H4). split_and!; try done. eapply same_bufs_trans; [apply tb_deadline_same|].
  eapply same_bufs_trans; [exact H1|apply tb_deadline_same].
Qed.

Lemma read_drained (pool : P) b e m : is_Some (tb_direct b) →
  ∃ b' e' d err, run_tls pool b (te_Read e m) = Some (pool, b', (e', d, err)) ∧ drained b e b' e' d ∧ len d ≤ Z.max 0 m.
Proof.
  intros Hd. destruct (run_tls_direct (te_Read e m) pool b [] [] _ Hd (tprog_spec_and _ _ _ _ _ (te_Read_ok e m) (te_Read_state e m)))
    as (b' & [[e' d] err] & rd & wr & Hr & Hb & [[Hl (_ & Hg & _)] [Hs Hk]]).
  exists b', e', d, err. by split_and!.
Qed.

Lemma drain_loop_spec fuel : ∀ (pool : P) b e size maxBytes out, is_Some (tb_direct b) →
  maxBytes - len out ≤ Z.of_nat fuel →
  ∃ b' e' more, drain_loop fuel pool b e size maxBytes out = Some (pool, b', e', out ++ more) ∧ drained b e b' e' more.
Proof.
  induction fuel as [|fuel IH]; intros pool b e size maxBytes out Hd Hf; cbn [drain_loop];
    (destruct (Z.ltb_spec (len out) maxBytes) as [Hlt|Hge]; [|exists b, e, []; rewrite app_nil_r; split; [done|apply drained_refl]]); [lia|].
  set (sz := if _ <? size then _ else _).
  destruct (read_drained pool b e sz Hd) as (b1 & e1 & d & err & -> & Hdr & _). cbn [mbind option_bind].
  destruct (Z.ltb_spec 0 (len d)) as [Hp|Hp].
  - destruct (IH pool b1 e1 sz maxBytes (out ++ d)) as (b2 & e2 & more & -> & Hdr2); [by apply Hdr|rewrite length_app; lia|].
    exists b2, e2, (d ++ more). split; [by rewrite <-app_assoc|]. by apply (drained_trans _ _ b1 e1).
  - destruct d; [|simpl in Hp; lia]. exists b1, e1, []. by rewrite app_nil_r.
Qed.

Lemma drain_spec (pool : P) b e maxBytes : is_Some (tb_direct b) →
  ∃ b' e' out, drainBufferedTLSPlaintext pool b e maxBytes = Some (pool, b', e', out) ∧ drained b e b' e' out.
Proof.
  intros Hd. unfold drainBufferedTLSPlaintext. destruct (Z.leb_spec maxBytes 0); [by exists b, e, []; split; [|apply drained_refl]|].
  destruct (drain_loop_spec (Z.to_nat maxBytes) pool (tb_deadline b (Some 0)) e 4096 maxBytes []) as (b' & e' & out & -> & Hdr);
    [by apply tb_deadline_same|simpl; lia|].
  cbn [mbind option_bind app]. exists (tb_deadline b' None), e', out. split; [done|]. by apply (drained_deadline _ _ _ _ _ (Some 0)).
Qed.

Lemma drainClientTickets_spec G (pool : P) b e : is_Some (tb_direct b) →
  ∃ b' e' out, drainClientTickets G pool b e = Some (pool, b', e', out) ∧ drained b e b' e' out.
Proof.
  intros Hd. unfold drainClientTickets. destruct (_ || _); [by exists b, e, []; split; [|apply drained_refl]|].
  set (t := Some _). destruct (read_drained pool (tb_deadline b t) e (KTLSClientPostHandshakeReadMaxBytes G)) as (b' & e' & d & err & -> & Hdr & _);
    [by apply tb_deadline_same|].
  cbn [mbind option_bind]. exists (tb_deadline b' None), e', d. split; [done|]. by apply (drained_deadline _ _ _ _ _ t).
Qed.

End DrainLemmas.

(** ** What the kernel gets *)

Section EnableLemmas.
Context {K N : Type} `{!KtlsKernel K, !KtlsKernelLaws K, !NetConn N}.
Variable G : KtlsKnobs.
Variable hmac : hash → list Z → list Z → list Z.
Variable hkdf_Expand : hash → list Z → list Z → Z → option (list Z).
Hypothesis hmac_len : ∀ h s m, len (hmac h s m) = hash_len h.
Hypothesis hkdf_len : ∀ h s i n, 0 ≤ n ≤ 255 * hash_len h → ∃ k, hkdf_Expand h s i n = Some k ∧ len k = n.

Definition own_key (isClient : bool) (keys : Keys) : list Z := if isClient then clientKey keys else serverKey keys.

(** The kernel encrypts with the key of this side and, with RX, decrypts with that of the other. *)
Definition installed (k k' : K) (fd : Z) (isClient : bool) (keys : Keys) : Prop :=
  (∃ i, kt_get k' fd true = Some i ∧ ci_Key i = own_key isClient keys) ∧
  if KTLSEnableRX G then ∃ i, kt_get k' fd false = Some i ∧ ci_Key i = own_key (negb isClient) keys
  else kt_get k' fd false = kt_get k fd false.

(** The keys of the session: those of the secrets in the key log. *)
Definition session_keys (st : ConnectionState) (rc : recordConn N) (klw : keyLogWriter) (keys : Keys) : Prop :=
  cs_Version st = VersionTLS12 ∧ (∃ r m, secrets klw = Some (r, m) ∧
    deriveTLS12Keys hmac m (default [] (clientRandom rc)) (default [] (serverRandom rc)) (cs_CipherSuite st) = Some (Some keys)) ∨
  cs_Version st = VersionTLS13 ∧ (∃ c s, trafficSecrets klw = Some (c, s) ∧
    deriveTLS13Keys hkdf_Expand c s (cs_CipherSuite st) = Some (Some keys)).

Lemma fill_full n (l : list Z) : len l = n → fill n l = l.
Proof.
  intros <-. unfold fill. rewrite Nat2Z.id, (take_ge l) by lia.
  assert (length (make_bytes (len l)) = length l) as L by (unfold make_bytes; rewrite length_replicate; lia).
  rewrite blit_front by lia. by rewrite drop_ge, app_nil_r by lia.
Qed.

Lemma cipher12_suite12 suite :
  match suite12 suite with Some (n, _) => ∃ c, cipher12 suite = Some (c, n) | None => cipher12 suite = None end.
Proof. unfold suite12, cipher12. repeat case_bool_decide; eauto. Qed.

Lemma cipher13_suite13 suite :
  match suite13 suite with Some (n, _) => ∃ c, cipher13 suite = Some (c, n) | None => cipher13 suite = None end.
Proof. unfold suite13, cipher13. destruct (suite =? TLS_AES_128_GCM_SHA256), (suite =? TLS_AES_256_GCM_SHA384); eauto. Qed.

(** The effect of the socket options, with the keys of the right length. *)
Lemma both_installed k k' fd err isClient keys tx txAlt rx rxAlt :
  both_effect G k k' fd err tx txAlt rx rxAlt →
  ci_Key tx = own_key isClient keys → ci_Key txAlt = ci_Key tx →
  ci_Key rx = own_key (negb isClient) keys → ci_Key rxAlt = ci_Key rx →
  (err = None → installed k k' fd isClient keys) ∧
  (err ≠ None → KTLSEnableRX G = false → ∀ d, kt_get k' fd d = kt_get k fd d).
Proof.
  intros (S & F & _) Et Eta Er Era. split; [|exact F]. intros Herr. destruct (S Herr) as [T R]. split.
  - destruct T as [T|T]; [exists tx|exists txAlt]; split; congruence.
  - destruct (KTLSEnableRX G); [|done]. destruct R as [R|R]; [exists rx|exists rxAlt]; split; congruence.
Qed.

Lemma enable12_ok k fd isClient st rc klw : cs_Version st = VersionTLS12 →
  ∃ k' r, enable12 G hmac k fd isClient (cs_CipherSuite st) rc klw = Some (k', r) ∧
    (r = None → ∃ keys, session_keys st rc klw keys ∧ installed k k' fd isClient keys) ∧
    (r ≠ None → KTLSEnableRX G = false → ∀ d, kt_get k' fd d = kt_get k fd d).
Proof.
  intros Hv. set (suite := cs_CipherSuite st). unfold enable12. destruct (_ || _); [by eexists _, _|].
  destruct (secrets klw) as [[r m]|] eqn:Es; [|by eexists _, _]. destruct (len m =? 0); [by eexists _, _|].
  set (cr := default [] (clientRandom rc)). set (sr := default [] (serverRandom rc)).
  pose proof (derive12_spec hmac hmac_len m cr sr suite) as D. pose proof (cipher12_suite12 suite) as C.
  destruct (suite12 suite) as [[n h]|]; [|rewrite D; cbn [mbind option_bind]; by eexists _, _].
  destruct D as (keys & D & _ & Lc & Ls & _). destruct C as [cipher C]. rewrite D. cbn [mbind option_bind].
  pose proof (enable12_spec G k fd isClient suite keys (inSeq rc) (outSeq rc)) as R.
  destruct (enableKTLS G k fd isClient suite keys (inSeq rc) (outSeq rc)) as [k' err]. destruct R as [R _]. specialize (R cipher n C).
  apply (both_installed _ _ _ _ isClient keys) in R as [R1 R2]; [|destruct isClient; first [done|by apply fill_full]..].
  eexists _, _. split; [done|]. split.
  - intros He. exists keys. split; [left; by eauto 10|]. apply R1. by destruct err.
  - intros He. apply R2. by destruct err.
Qed.

Lemma keys13_ok st klw : cs_Version st = VersionTLS13 →
  ∃ r, keys13 hkdf_Expand (cs_CipherSuite st) klw = Some r ∧
    match r with
    | inl _ => True
    | inr keys => (∀ rc, session_keys st rc klw keys) ∧
        ∃ cipher n, cipher13 (cs_CipherSuite st) = Some (cipher, n) ∧ len (clientKey keys) = n ∧ len (serverKey keys) = n
    end.
Proof.
  intros Hv. unfold keys13. destruct (trafficSecrets klw) as [[c s]|] eqn:Et; [|by eexists].
  pose proof (derive13_spec hkdf_Expand hkdf_len c s (cs_CipherSuite st)) as D. pose proof (cipher13_suite13 (cs_CipherSuite st)) as C.
  destruct (suite13 (cs_CipherSuite st)) as [[n h]|]; [|rewrite D; by eexists].
  destruct D as (keys & D & _ & _ & _ & _ & Lc & Ls & _). destruct C as [cipher C]. rewrite D. cbn [mbind option_bind].
  eexists. split; [done|]. split; [|by exists cipher, n]. intros rc. right. by eauto 10.
Qed.

Lemma enable13_ok k fd isClient suite keys seqs cipher n : cipher13 suite = Some (cipher, n) →
  len (clientKey keys) = n → len (serverKey keys) = n →
  let '(k', r) := enable13 G k fd isClient suite keys seqs in
  (r = None → installed k k' fd isClient keys) ∧
  (r ≠ None → KTLSEnableRX G = false → ∀ d, kt_get k' fd d = kt_get k fd d).
Proof.
  intros C Lc Ls. unfold enable13. destruct seqs as [[i o]|]; [|done].
  pose proof (enable13_spec G k fd isClient suite keys i o) as R.
  destruct (enableKTLS13 G k fd isClient suite keys i o) as [k' err]. destruct R as [R _]. specialize (R cipher n C).
  apply (both_installed _ _ _ _ isClient keys) in R as [R1 R2].
  2-5: unfold dir13, info13, info13_alt, info_IV, own_key; destruct isClient; cbn [negb];
       repeat (destruct (splitIV _ _ _) || destruct (splitIVAlt _ _ _)); cbn [ci_Key]; try done; by apply fill_full.
  split; [intros He; apply R1; by destruct err|intros He; apply R2; by destruct err].
Qed.

End EnableLemmas.

(** ** The connection that results *)

(** The engine does not change what kind of connection is below it. *)
Lemma run_tls_kind {P N1 N2 A R} `{!Allocator P, !NetConn N1, !NetConn N2} (t : tprog R) (pool : P) (b : tlsBufferConn (N1 + N2) A) :
  match run_tls pool b t with
  | Some (_, b', _) => ∀ d, tb_direct b = Some (inr d) → ∃ d', tb_direct b' = Some (inr d')
  | None => True
  end.
Proof.
  revert pool b. induction t as [r|n cont IH|p cont IH]; intros pool b; cbn [run_tls]; [by eauto| |].
  - unfold tlsBufferConn_Read. destruct n as [|n]; [cbn [mbind option_bind]; apply IH|].
    destruct (tb_direct b) as [d|] eqn:Ed.
    + pose proof (λ d' data e, IH data e pool (tb_setDirect b (Some d'))) as IH'.
      destruct d as [d|d]; cbn [nc_read sum_NetConn]; destruct (nc_read d (Z.of_nat (S n))) as [[d' data] e]; cbn [mbind option_bind].
      * specialize (IH' (inl d') data e). destruct (run_tls _ _ _) as [[[? b'] ?]|]; [|done]. done.
      * specialize (IH' (inr d') data e). destruct (run_tls _ _ _) as [[[? b'] ?]|]; [|done]. intros d0 _. by apply (IH' d').
    + match goal with |- context [x ← ?o; _] => destruct o as [[[b1 data] e]|] end; cbn [mbind option_bind]; [|done].
      destruct (run_tls _ _ _) as [[[? b'] ?]|]; [|done]. done.
  - unfold tlsBufferConn_Write. destruct (len p =? 0); [cbn [mbind option_bind]; apply IH|].
    destruct (tb_direct b) as [d|] eqn:Ed.
    + pose proof (λ d' n e, IH n e pool (tb_setDirect b (Some d'))) as IH'.
      destruct d as [d|d]; cbn [nc_write sum_NetConn]; destruct (nc_write d p) as [d' [n e]]; cbn [mbind option_bind].
      * specialize (IH' (inl d') n e). destruct (run_tls _ _ _) as [[[? b'] ?]|]; [|done]. done.
      * specialize (IH' (inr d') n e). destruct (run_tls _ _ _) as [[[? b'] ?]|]; [|done]. intros d0 _. by apply (IH' d').
    + match goal with |- context [x ← ?o; _] => destruct o as [[[pool1 b1] [n e]]|] end; cbn [mbind option_bind]; [|done].
      destruct (run_tls _ _ _) as [[[? b'] ?]|]; [|done]. done.
Qed.

Section SetupLemmas.
Context {P K H A X N E : Type}.
Context `{AL : AllocatorLaws P, KL : KtlsKernelLaws K, !NetConn N, !NetContract N, !NetConnLaws N, !DupKernel K N, !DupKernelLaws K N}.
Context `{!TlsEngine E, !TlsEngineLaws E, !TlsHandshake E, !TlsHandshakeLaws E}.
Variable G : KtlsKnobs.
Variable hmac : hash → list Z → list Z → list Z.
Variable hkdf_Expand : hash → list Z → list Z → Z → option (list Z).
Variable uname : option (list Z).
Hypothesis hmac_len : ∀ h s m, len (hmac h s m) = hash_len h.
Hypothesis hkdf_len : ∀ h s i n, 0 ≤ n ≤ 255 * hash_len h → ∃ k, hkdf_Expand h s i n = Some k ∧ len k = n.

(** A connection after its handshake, with [e] the last state of its engine: what the engine
    decrypted waits in [preRead]; crypto/tls keeps a direction of the stream unless the kernel
    has it; and the kernel encrypts with the keys of the session exactly if the connection
    says so. *)
Record established {M M'} (pool : P) (k k' : K) (fd : Z) (isClient : bool) (c : ATLSConn H A X M E) (e : E) : Prop := {
  es_fd : b_fd (a_base c) = fd;
  es_preRead : a_preRead c = te_given e ∧ a_preReadOff c = 0;
  es_rx : a_ktlsRX c = a_ktls c && KTLSEnableRX G;
  es_Conn : if a_ktlsRX c then a_Conn c = None else ∃ b, atls pool c e b;
  es_kernel : a_ktls c = true → ∃ w (rc : recordConn M') keys,
    session_keys hmac hkdf_Expand (te_ConnectionState e) rc (logged w (te_keylog e)) keys ∧ installed G k k' fd isClient keys;
  es_user : a_ktls c = false → KTLSEnableRX G = false → ∀ d, kt_get k' fd d = kt_get k fd d;
}.

Definition fresh_bufs {M} (b : tlsBufferConn M A) : Prop := tb_cin b = NewRingBuffer ∧ tb_cout b = NewRingBuffer.

Lemma fresh_tb_wf {M} (pool : P) (b : tlsBufferConn M A) : 0 ≤ al_max pool → fresh_bufs b → tb_wf pool (clearDirect b).
Proof.
  intros Hm [Hi Ho]. split; cbn [clearDirect tb_setDirect tb_direct tb_cin tb_cout]; rewrite ?Hi, ?Ho; try done;
    (split; [split; cbn; lia|done]).
Qed.

Lemma new_result_established {M M'} pool k k' fd isClient (b : tlsBufferConn M A) e preRead w (rc : recordConn M') reason :
  al_inv pool → 0 ≤ al_max pool → fd ≠ 0 → fresh_bufs b → te_given e = preRead →
  (reason = None → ∃ keys, session_keys hmac hkdf_Expand (te_ConnectionState e) rc (logged w (te_keylog e)) keys ∧
    installed G k k' fd isClient keys) →
  (reason ≠ None → KTLSEnableRX G = false → ∀ d, kt_get k' fd d = kt_get k fd d) →
  established (M' := M') pool k k' fd isClient (new_result G fd b e preRead reason) e.
Proof.
  intros Hi Hm Hfd Hb Hg Hok Hno. pose proof (fresh_tb_wf pool b Hm Hb) as Hw.
  assert (∀ kt pre, atls pool (atls_conn fd (Some e) (Some (clearDirect b)) kt false pre : ATLSConn H A X M E) e (clearDirect b)) as Hat.
  { intros kt pre. split; try done. apply wq_inv_empty. }
  unfold new_result. destruct reason as [r|].
  - split; try done; cbn [newStdTLSFallback atls_conn a_preRead a_preReadOff a_ktlsRX]; [exists (clearDirect b); apply Hat|]. intros _ Hrx d. by apply Hno.
  - destruct (Hok eq_refl) as (keys & Hs & Hin). unfold new_enabled. destruct (KTLSEnableRX G) eqn:Erx;
      (split; try done; cbn [atls_conn a_preRead a_preReadOff a_ktlsRX]).
    + intros _. by exists w, rc, keys.
    + exists (clearDirect b). apply Hat.
    + intros _. by exists w, rc, keys.
Qed.

Lemma drained_fresh {M} `{!NetConn M} (b b' : tlsBufferConn M A) (e e' : E) out : drained b e b' e' out →
  is_Some (tb_direct b) → fresh_bufs b → is_Some (tb_direct b') ∧ fresh_bufs b'.
Proof. intros (Hs & _) Hd [Hi Ho]. destruct (Hs Hd) as (? & E1 & E2). split; [done|]. split; congruence. Qed.

Lemma switch_spec {M} `{!NetConn M, !NetContract M} pool k fd isClient cache (b : tlsBufferConn (recordConn M) A) e w :
  al_inv pool → 0 ≤ al_max pool → fd ≠ 0 → is_Some (tb_direct b) → fresh_bufs b → te_given e = [] →
  ∃ k' c e', switch_to_ktls G hmac hkdf_Expand uname pool k fd isClient cache b e (logged w (te_keylog e)) = Some (pool, k', c) ∧
    established (M' := M) pool k k' fd isClient c e'.
Proof.
  intros Hi Hm Hfd [rc0 Hd] Hb Hg. unfold switch_to_ktls. set (st := te_ConnectionState e).
  assert (∀ (b : tlsBufferConn (recordConn M) A) e pre r, fresh_bufs b → te_given e = pre → r ≠ None →
    established (M' := M) pool k k fd isClient (new_result G fd b e pre r) e) as Hstay.
  { intros. by apply (new_result_established _ _ _ _ _ _ _ _ w rc0). }
  destruct (isKTLSCipher _); cbn [negb].
  2: { exists k, (new_result G fd b e [] (Some RCipher)), e. split; [done|]. by apply Hstay. }
  destruct (drain_spec pool b e (KTLSClientPostHandshakeReadMaxBytes G)) as (b1 & e1 & pre & -> & Hdr); [by eexists|].
  cbn [mbind option_bind]. destruct (drained_fresh _ _ _ _ _ Hdr) as [[rc Hrc] Hb1]; [by eexists|done|].
  destruct Hdr as (_ & Hg1 & Hst1 & Hk1). rewrite Hg in Hg1. cbn [app] in Hg1. rewrite Hrc. cbn [mbind option_bind]. fold st in Hst1.
  destruct (Z.eqb_spec (cs_Version st) VersionTLS12) as [Hv|_].
  { destruct (enable12_ok G hmac hkdf_Expand hmac_len k fd isClient st rc (logged w (te_keylog e)) Hv) as (k' & r & -> & Hok & Hno).
    cbn [mbind option_bind]. exists k', (new_result G fd b1 e1 pre r), e1. split; [done|].
    apply (new_result_established _ _ _ _ _ _ _ _ w rc); try done. rewrite Hst1, Hk1. exact Hok. }
  destruct (Z.eqb_spec (cs_Version st) VersionTLS13) as [Hv|_].
  2: { exists k, (new_result G fd b1 e1 pre (Some RVersion)), e1. split; [done|]. by apply Hstay. }
  destruct (kernelSupportsKTLS13 uname); cbn [negb].
  2: { exists k, (new_result G fd b1 e1 pre (Some RKernel)), e1. split; [done|]. by apply Hstay. }
  assert (∃ b2 e2 pre2, (if isClient && negb (KTLSDisableSessionTickets G) && cache then
      '(pool, b, e, ticketData) ← drainClientTickets G pool b1 e1; Some (pool, b, e, pre ++ ticketData)
     else Some (pool, b1, e1, pre)) = Some (pool, b2, e2, pre2) ∧ fresh_bufs b2 ∧ te_given e2 = pre2 ∧
     te_ConnectionState e2 = st ∧ te_keylog e2 = te_keylog e) as (b2 & e2 & pre2 & -> & Hb2 & Hg2 & Hst2 & Hk2).
  { destruct (_ && cache); [|by eexists _, _, _; split_and!].
    destruct (drainClientTickets_spec G pool b1 e1) as (b2 & e2 & t & -> & Hdr2); [by eexists|].
    cbn [mbind option_bind]. destruct (drained_fresh _ _ _ _ _ Hdr2) as [_ Hb2]; [by eexists|done|].
    destruct Hdr2 as (_ & Hg2 & Hst2 & Hk2). eexists _, _, _. split; [done|]. split_and!; congruence. }
  cbn [mbind option_bind].
  destruct (keys13_ok (N := M) hmac hkdf_Expand hkdf_len st (logged w (te_keylog e)) Hv) as (r & -> & Hr). cbn [mbind option_bind].
  destruct r as [r|keys].
  { exists k, (new_result G fd b2 e2 pre2 (Some r)), e2. split; [done|]. by apply Hstay. }
  destruct Hr as (Hs & cipher & n & C & Lc & Ls).
  pose proof (enable13_ok G k fd isClient (cs_CipherSuite st) keys (te_RecSeq e2) cipher n C Lc Ls) as R.
  destruct (enable13 _ _ _ _ _ _ _) as [k' r]. destruct R as [R1 R2].
  exists k', (new_result G fd b2 e2 pre2 r), e2. split; [done|].
  apply (new_result_established _ _ _ _ _ _ _ _ w rc); try done. intros He. exists keys. rewrite Hst2, Hk2. split; [apply Hs|by apply R1].
Qed.

Lemma prepared_log g cfg : ∃ w, (prepareKTLSConfig G g cfg (newKeyLogWriter None)).2 = logged w [].
Proof. destruct (cf_KeyLogWriter cfg) as [d|] eqn:Ed; [exists (Some d)|exists None]; unfold prepareKTLSConfig; cbn [snd]; by rewrite Ed. Qed.

Lemma precheck_total timeout isClient (hc : N) cfg : is_Some (precheck timeout isClient hc cfg).
Proof.
  unfold precheck. destruct isClient; [by eexists|].
  destruct (maybeWrap_total timeout hc (Some (mkTlsConfig (cf_MinVersion cfg) (cf_MaxVersion cfg)))) as [x ->]. by eexists.
Qed.

(** What a constructor leaves: the kernel untouched by a refusal, or a connection that is ready. *)
Definition handed {M} (M' : Type) (pool : P) (k k' : K) (fd : Z) (isClient : bool) (res : ATLSConn H A X M E + setup_error) : Prop :=
  match res with
  | inr _ => ∀ d, kt_get k' fd d = kt_get k fd d
  | inl c => ∃ e, established (M' := M') pool k k' fd isClient c e
  end.

Lemma handshakeConnFromFD_keys (k : K) (fd : Z) d : kt_get (fst (handshakeConnFromFD (N := N) k fd)) fd d = kt_get k fd d.
Proof.
  unfold handshakeConnFromFD. destruct (sys_dup_ok (N := N) k fd fd d) as [Hk Hne]. destruct (sys_dup k fd) as [k1 [x|err]]; cbn [fst snd] in *; [|done].
  destruct (x <? 0); cbn [fst]; [by rewrite close_fd_ok|]. pose proof (net_FileConn_ok k1 x fd d) as Hf.
  destruct (net_FileConn k1 x) as [k2 r]; cbn [fst] in *. rewrite close_fd_ok; congruence.
Qed.

Lemma newKTLSConn_spec (timeout : Z)
    (pool : P) (k : K) (g : ktlsGlobals) (fd : Z) (cfg : option Config) (isClient : bool) (local remote : option A) :
  al_inv pool → 0 ≤ al_max pool → fd ≠ 0 →
  ∃ k' g' res,
    newKTLSConn (H := H) (X := X) G hmac hkdf_Expand uname timeout pool k g fd cfg isClient local remote
      = Some (pool, k', g', res) ∧
    handed (N + replayConn N) pool k k' fd isClient res.
Proof.
  intros Hi Hm Hfd. unfold newKTLSConn. destruct cfg as [cfg|]; [|by eexists _, _, _].
  destruct (prepared_log g cfg) as [w Hw]. destruct (prepareKTLSConfig G g cfg (newKeyLogWriter None)) as [[g1 cfg1] klw]. cbn [snd] in Hw. subst klw.
  destruct (_ =? 0); [by eexists _, _, _|]. pose proof (handshakeConnFromFD_keys k fd) as Hdup. destruct (handshakeConnFromFD k fd) as [k1 [hc|err]]; cbn [fst] in Hdup;
    [|by eexists _, _, _].
  destruct (precheck_total timeout isClient hc cfg) as [[hc'|err] ->]; cbn [mbind option_bind]; [|by eexists _, _, _].
  set (b := mkTB (Some (newRecordConn hc')) NewRingBuffer NewRingBuffer local remote). set (e := if isClient then _ else _).
  assert (te_given e = [] ∧ te_keylog e = []) as [Hg Hk] by (unfold e; destruct isClient; [apply te_Client_ok|apply te_Server_ok]).
  destruct (run_tls_direct (te_Handshake e) pool b [] [] _ ltac:(by eexists) (te_Handshake_ok e))
    as (b1 & [[e1 logs] err] & rd & wr & -> & Hs & Hg1 & Hk1).
  cbn [mbind option_bind]. rewrite log_writes_logged. cbn [mbind option_bind].
  destruct err as [err|]; [by eexists _, _, _|]. destruct (Hs ltac:(by eexists)) as (Hd1 & Hi1 & Ho1).
  rewrite Hk in Hk1. rewrite Hg in Hg1. cbn [app] in Hk1 |- *. rewrite <-Hk1.
  destruct (switch_spec pool k1 fd isClient (cf_ClientSessionCache cfg1) b1 e1 w Hi Hm Hfd Hd1) as (k2 & c & e2 & -> & Hes); [by split|done|].
  cbn [mbind option_bind]. eexists _, _, _. split; [done|]. exists e2. destruct Hes as [F1 F2 F3 F4 F5 F6]. split; try done.
  - intros Ek. destruct (F5 Ek) as (w' & rc & keys & Hses & Hin). exists w', rc, keys. split; [done|]. unfold installed in *. by rewrite Hdup in Hin.
  - intros Ek Hrx d. by rewrite F6, Hdup.
Qed.

Lemma newATLSConn_spec (timeout : Z)
    (pool : P) (k : K) (fd : Z) (cfg : option Config) (isClient : bool) (local remote : option A) :
  al_inv pool → 0 ≤ al_max pool → fd ≠ 0 →
  ∃ k' res,
    newATLSConn (H := H) (X := X) timeout pool k fd cfg isClient local remote = Some (pool, k', res) ∧
    handed (N + replayConn N) pool k k' fd isClient res ∧
    match res with inl c => a_ktls c = false | inr _ => True end.
Proof.
  intros Hi Hm Hfd. unfold newATLSConn. destruct cfg as [cfg|]; [|by eexists _, _].
  pose proof (handshakeConnFromFD_keys k fd) as Hdup. destruct (handshakeConnFromFD k fd) as [k1 [hc|err]]; cbn [fst] in Hdup; [|by eexists _, _].
  destruct (precheck_total timeout isClient hc cfg) as [[hc'|err] ->]; cbn [mbind option_bind]; [|by eexists _, _].
  set (b := mkTB (Some hc') NewRingBuffer NewRingBuffer local remote). set (e := if isClient then _ else _).
  assert (te_given e = []) as Hg by (unfold e; destruct isClient; [apply te_Client_ok|apply te_Server_ok]).
  destruct (run_tls_direct (te_Handshake e) pool b [] [] _ ltac:(by eexists) (te_Handshake_ok e))
    as (b1 & [[e1 logs] err] & rd & wr & -> & Hs & Hg1 & _).
  cbn [mbind option_bind]. destruct err as [err|]; [by eexists _, _|]. destruct (Hs ltac:(by eexists)) as (Hd1 & Hi1 & Ho1).
  eexists _, _. split; [done|]. split; [|done]. exists e1. split; try done; cbn [atls_conn a_preRead a_preReadOff a_ktlsRX a_ktls]; [by rewrite Hg1|].
  exists (clearDirect b1). split; try done; [apply wq_inv_empty|]. apply fresh_tb_wf; [done|by split].
Qed.


(** A connection of the loops during its handshake. *)
Record waiting (fd : Z) (c : PendingTLS H A X N E) (e : E) (b : tlsBufferConn (N + recordConn N) A) : Prop := {
  wt_fd : b_fd (a_base (pt_conn c)) = fd;
  wt_wq : wq_inv (b_wq (a_base (pt_conn c)));
  wt_Conn : a_Conn (pt_conn c) = Some e;
  wt_buf : a_buf (pt_conn c) = Some b;
  wt_direct : is_Some (tb_direct b);
  wt_fresh : fresh_bufs b;
  wt_mode : if pt_RC c then ∃ w, pt_KLW c = Some (logged w (te_keylog e)) else pt_KLW c = None;
  wt_plain : a_ktls (pt_conn c) = false ∧ a_ktlsRX (pt_conn c) = false ∧ a_preRead (pt_conn c) = [] ∧ a_preReadOff (pt_conn c) = 0;
  wt_given : te_given e = [];
}.

(** What [finalizeServerKTLS] leaves, before the connection below is dropped. *)
Definition finalized (pool : P) (k k' : K) (fd : Z) (c : PendingTLS H A X N E) : Prop :=
  ∃ e, established (M' := N) pool k k' fd false (a_set_bufs (pt_conn c) clearDirect) e.

Lemma finalized_stay pool k fd c e b : al_inv pool → 0 ≤ al_max pool → fd ≠ 0 → waiting fd c e b → finalized pool k k fd c.
Proof.
  intros Hi Hm Hfd [W1 W2 W3 W4 W5 W6 _ (W7 & W8 & W9 & W10) W11]. exists e.
  split; cbn [a_set_bufs a_base a_preRead a_preReadOff a_ktls a_ktlsRX a_Conn]; rewrite ?W7, ?W8, ?W9, ?W10; try done.
  exists (clearDirect b). split; cbn [a_set_bufs a_base a_Conn a_buf]; rewrite ?W1, ?W3, ?W4; try done. by apply fresh_tb_wf.
Qed.

(** The switch to kernel TLS for sending, after the drain. *)
Lemma finalized_tx pool k k' fd c e b w (rc : recordConn N) keys : al_inv pool → 0 ≤ al_max pool → fd ≠ 0 → waiting fd c e b →
  KTLSEnableRX G = false → session_keys hmac hkdf_Expand (te_ConnectionState e) rc (logged w (te_keylog e)) keys →
  installed G k k' fd false keys →
  ∃ c1 e1 b1 out, drain_conn G pool c e b = Some (pool, c1, e1, b1, out) ∧
    finalized pool k k' fd (pt_set_conn c1 (handed_over (pt_conn c1) false out)).
Proof.
  intros Hi Hm Hfd [W1 W2 W3 W4 W5 W6 _ (W7 & W8 & W9 & W10) W11] Hrx Hs Hin. unfold drain_conn.
  destruct (drain_spec pool b e (KTLSClientPostHandshakeReadMaxBytes G) W5) as (b1 & e1 & out & -> & Hdr).
  destruct (drained_fresh _ _ _ _ _ Hdr W5 W6) as [Hd1 Hb1]. destruct Hdr as (_ & Hg1 & Hst1 & Hk1).
  cbn [mbind option_bind]. eexists _, _, _, _. split; [done|]. exists e1. rewrite W11 in Hg1.
  split; cbn [pt_set_conn pt_conn a_set_bufs a_set_tls handed_over a_base a_preRead a_preReadOff a_ktls a_ktlsRX a_Conn]; try done.
  - exists (clearDirect b1). split; cbn [a_set_bufs handed_over pt_set_conn pt_conn a_set_tls a_base a_Conn a_buf fmap option_fmap option_map]; rewrite ?W1; try done.
    by apply fresh_tb_wf.
  - intros _. exists w, rc, keys. by rewrite Hst1, Hk1.
Qed.

Lemma finalize_spec pool k fd c e b : al_inv pool → 0 ≤ al_max pool → fd ≠ 0 → KTLSEnableRX G = false → waiting fd c e b →
  (pt_RC c = true → ∃ rc, tb_direct b = Some (inr rc)) →
  ∃ k' c', finalizeServerKTLS G hmac hkdf_Expand uname pool k c = Some (pool, k', c', None) ∧ finalized pool k k' fd c'.
Proof.
  intros Hi Hm Hfd Hrx W Hrc. pose proof W as [W1 W2 W3 W4 W5 W6 Wm _ _]. unfold finalizeServerKTLS. rewrite W3, W4. cbn [mbind option_bind].
  set (st := te_ConnectionState e). assert (waiting fd (pt_set_state c st) e b) as W' by (by destruct W; split).
  assert (∀ k', (∀ d, kt_get k' fd d = kt_get k fd d) → finalized pool k k' fd (pt_set_state c st)) as Hstay.
  { intros k' Hk. destruct (finalized_stay pool k fd _ e b Hi Hm Hfd W') as (e0 & [F1 F2 F3 F4 F5 F6]). exists e0. split; try done.
    intros Ek. cbn [pt_set_state pt_conn a_set_bufs a_ktls] in Ek. destruct (wt_plain _ _ _ _ W) as [Hk0 _]. congruence. }
  destruct (isKTLSCipher _); cbn [negb]; [|by eexists _, _; split; [|apply Hstay]].
  cbn [pt_set_state pt_RC]. destruct (pt_RC c) eqn:ERC; cbn [negb]; [|by eexists _, _; split; [|apply Hstay]].
  destruct (Hrc eq_refl) as [rc ->]. destruct Wm as [w Hw].
  destruct (Z.eqb_spec (cs_Version st) VersionTLS12) as [Hv|_].
  - unfold finalize12. cbn [pt_set_state pt_KLW pt_conn]. rewrite Hw, W1.
    destruct (enable12_ok G hmac hkdf_Expand hmac_len k fd false st rc (logged w (te_keylog e)) Hv) as (k' & r & -> & Hok & Hno).
    cbn [mbind option_bind]. destruct r as [r|]; [eexists _, _; split; [done|]; apply Hstay; by apply Hno|].
    destruct (Hok eq_refl) as (keys & Hs & Hin). rewrite Hrx.
    destruct (finalized_tx pool k k' fd _ e b w rc keys Hi Hm Hfd W' Hrx Hs Hin) as (c1 & e1 & b1 & out & -> & Hf).
    cbn [mbind option_bind]. by eexists _, _.
  - destruct (Z.eqb_spec (cs_Version st) VersionTLS13) as [Hv|_]; [|by eexists _, _; split; [|apply Hstay]].
    unfold finalize13. cbn [pt_set_state pt_KLW pt_conn]. destruct (kernelSupportsKTLS13 uname); cbn [negb]; [|by eexists _, _; split; [|apply Hstay]].
    rewrite Hw. destruct (keys13_ok (N := N) hmac hkdf_Expand hkdf_len st (logged w (te_keylog e)) Hv) as (r & -> & Hr). cbn [mbind option_bind].
    destruct r as [r|keys]; [by eexists _, _; split; [|apply Hstay]|]. destruct Hr as (Hs & cipher & n & C & Lc & Ls).
    rewrite Hrx. cbn [mbind option_bind pt_set_state pt_conn]. rewrite W1.
    pose proof (enable13_ok G k fd false (cs_CipherSuite st) keys (te_RecSeq e) cipher n C Lc Ls) as R.
    destruct (enable13 _ _ _ _ _ _ _) as [k' r]. destruct R as [R1 R2].
    destruct r as [r|]; [eexists _, _; split; [done|]; apply Hstay; by apply R2|].
    destruct (finalized_tx pool k k' fd _ e b w rc keys Hi Hm Hfd W' Hrx (Hs rc) (R1 eq_refl)) as (c1 & e1 & b1 & out & E0 & Hf).
    cbn [pt_set_state pt_conn]. rewrite E0. cbn [mbind option_bind]. by eexists _, _.
Qed.

(** The connection [NewPendingTLSServerConn] makes. *)
Lemma new_pending_waiting g mode fd (direct : N) cfg local remote :
  match snd (NewPendingTLSServerConn (H := H) (X := X) G g mode fd direct (Some cfg) local remote) with
  | inl c => pt_mode c = mode ∧ ∃ e b, waiting fd c e b ∧
      (pt_RC c = true → ∃ rc, tb_direct b = Some (inr rc)) ∧ (mode = TLSEngineATLS → pt_RC c = false)
  | inr err => err = ENoSuites ∧ mode = TLSEngineKTLS
  end.
Proof.
  unfold NewPendingTLSServerConn. destruct mode.
  - split; [done|]. eexists _, _. split; [|done]. split; try done; [apply wq_inv_empty|exact (proj1 (te_Server_ok cfg))].
  - destruct (prepared_log g cfg) as [w Hw]. destruct (prepareKTLSConfig G g cfg (newKeyLogWriter None)) as [[g1 cfg1] klw]. cbn [snd] in Hw.
    destruct (_ =? 0); [done|]. split; [done|]. destruct (te_Server_ok cfg1) as [Hg Hk]. eexists _, _. split.
    + split; try done; [apply wq_inv_empty|]. exists w. cbn [pt_KLW]. by rewrite Hk, Hw.
    + split; [intros _; by eexists|done].
Qed.

(** The handshake keeps the connection as it was, apart from the streams. *)
Lemma run_handshake_spec pool c e b fd : waiting fd c e b → (pt_RC c = true → ∃ rc, tb_direct b = Some (inr rc)) →
  ∃ c' e' b' err, run_handshake pool c e b = Some (pool, c', err) ∧ pt_mode c' = pt_mode c ∧
    waiting fd c' e' b' ∧ (pt_RC c' = true → ∃ rc, tb_direct b' = Some (inr rc)).
Proof.
  intros [W1 W2 W3 W4 W5 [Wi Wo] W7 W8 W9] Hrc. unfold run_handshake.
  destruct (run_tls_direct (te_Handshake e) pool b [] [] _ W5 (te_Handshake_ok e)) as (b1 & [[e1 logs] err] & rd & wr & Hr & Hs & Hg1 & Hk1).
  pose proof (run_tls_kind (te_Handshake e) pool b) as Hkind. rewrite Hr in Hkind |- *. cbn [mbind option_bind].
  destruct (Hs W5) as (Hd1 & Hi1 & Ho1).
  assert (∃ klw, (match pt_KLW c with None => Some None | Some klw => klw ← log_writes klw logs; Some (Some klw) end) = Some klw ∧
    if pt_RC c then ∃ w, klw = Some (logged w (te_keylog e1)) else klw = None) as (klw & -> & Hklw).
  { destruct (pt_RC c); [|rewrite W7; by eexists]. destruct W7 as [w ->]. rewrite log_writes_logged, <-Hk1. by eexists; split; [|eexists]. }
  cbn [mbind option_bind]. eexists _, e1, b1, err. split; [done|]. split; [done|]. split.
  - split; try done; cbn [pt_set_KLW pt_set_conn pt_conn a_set_tls a_base]; [|by rewrite Hg1].
    split; congruence.
  - cbn [pt_set_KLW pt_RC pt_set_conn]. intros E0. destruct (Hrc E0) as [rc Hb]. by apply (Hkind rc).
Qed.


End SetupLemmas.

(** ** An engine for the witnesses *)

(** The null cipher with a handshake that only logs its traffic secrets. *)
Record HsTls := mkHs { hs_tls : NullTls; hs_log : list Z }.

Definition hs_line : list Z :=
  key_log [(LClientTraffic, replicate 32 1, replicate 32 2); (LServerTraffic, replicate 32 1, replicate 32 3)].

Definition hs_Read (e : HsTls) (m : Z) : tprog (HsTls * list Z * option errno) :=
  TRead (Z.to_nat m) (λ d err, let t := hs_tls e in
    TRet (mkHs (mkNT (nt_taken t) (nt_given t ++ d) (nt_out t) (nt_in t ++ d)) (hs_log e), d, err)).
Definition hs_Write (e : HsTls) (b : list Z) : tprog (HsTls * Z * option errno) :=
  TWrite b (λ n err, let t := hs_tls e in let p := take (Z.to_nat n) b in
    TRet (mkHs (mkNT (nt_taken t ++ p) (nt_given t) (nt_out t ++ p) (nt_in t)) (hs_log e), n, err)).

#[export] Instance HsTls_Engine : TlsEngine HsTls := {
  te_Read := hs_Read; te_Write := hs_Write; te_Close e := TRet (e, None);
  te_taken e := nt_taken (hs_tls e); te_given e := nt_given (hs_tls e);
  te_out e := nt_out (hs_tls e); te_in e := nt_in (hs_tls e);
}.

#[export] Instance HsTls_Laws : TlsEngineLaws HsTls.
Proof.
  split.
  - intros e b. cbn [te_Write HsTls_Engine hs_Write tprog_spec]. intros n err Hn Herr.
    split; [done|]. split; [done|]. unfold engine_step. cbn. by rewrite !app_nil_r.
  - intros e m. cbn [te_Read HsTls_Engine hs_Read tprog_spec]. intros d err Hd _.
    split; [lia|]. unfold engine_step. cbn. by rewrite !app_nil_r.
Qed.

#[export] Instance HsTls_Handshake : TlsHandshake HsTls := {
  te_Client _ := mkHs (mkNT [] [] [] []) []; te_Server _ := mkHs (mkNT [] [] [] []) [];
  te_Handshake e := TRet (mkHs (hs_tls e) (hs_log e ++ hs_line), [hs_line], None);
  te_ConnectionState _ := mkCS VersionTLS13 TLS_AES_128_GCM_SHA256;
  te_RecSeq _ := Some (replicate 8 0, replicate 8 0);
  te_keylog := hs_log;
}.

#[export] Instance HsTls_HandshakeLaws : TlsHandshakeLaws HsTls.
Proof. by split. Qed.

#[export] Instance TN_contract : NetContract TestNet.
Proof.
  split.
  - intros c n. cbn [nc_read TN_NetConn]. unfold tn_read. rewrite length_fmap, length_take. split; [lia|].
    intros Hn Hd. by rewrite Hd.
  - intros c b. cbn [nc_write TN_NetConn]. lia.
Qed.

(** A kernel that supports kernel TLS for sending only. *)
Record TxTls := mkTx { tx_set : TestTls }.

#[local] Instance TX_KtlsKernel : KtlsKernel TxTls := {|
  sys_set_ulp k _ := (k, None);
  sys_set_tls k fd tx i := if tx then (mkTx ((fd, tx, i) :: tx_set k), None) else (k, Some EBADF);
  kt_get k fd tx := kt_get (tx_set k) fd tx |}.

#[local] Existing Instances test_Allocator test_AllocatorLaws.

Definition ktls_rx : KtlsKnobs := mkKtlsKnobs true true true false 0 (64 * 1024).
Definition test_cfg : Config := mkConfig 0 0 [] None false false None.
Definition test_globals : ktlsGlobals := mkKG [TLS_AES_128_GCM_SHA256; 0x1303] false.
Definition test_release : option (list Z) := Some (str "6.1.0-18-amd64" ++ [0; 0]).
Definition test_direct : TestNet := mkTN [5; 6; 7] 2 [] [].
Definition nonblock {K} (k : K) (fd : Z) (b : bool) : K * option errno := (k, None).

Definition run_server {K} `{!KtlsKernel K} (G : KtlsKnobs) (k : K) :
    option (K * ATLSConn unit unit unit (TestNet + recordConn TestNet) HsTls) :=
  match snd (NewPendingTLSServerConn G test_globals TLSEngineKTLS 7 test_direct (Some test_cfg) None None) with
  | inl c => '(_, k, c, _) ← CompleteServerHandshake G test_hmac test_hkdf test_release nonblock tls_pool k c; Some (k, pt_conn c)
  | inr _ => None
  end.

Example server_switches_tx :
  (λ '(k, c), (bool_decide (is_Some (kt_get k 7 true)), bool_decide (is_Some (kt_get k 7 false)), a_ktls c, a_ktlsRX c, a_preRead c))
    <$> run_server default_ktls (mkTx []) = Some (true, false, true, false, [5; 6; 7]).
Proof. vm_compute. reflexivity. Qed.

(** With RX wanted and refused by the kernel, the connection goes on with crypto/tls
    although the kernel already encrypts, and the plaintext that was drained is lost. *)
Example rx_refused :
  (λ '(k, c), (bool_decide (is_Some (kt_get k 7 true)), a_ktls c, a_preRead c, te_given <$> a_Conn c))
    <$> run_server ktls_rx (mkTx []) = Some (true, false, [], Some [5; 6; 7]).
Proof. vm_compute. reflexivity. Qed.

Example kernel_release_ok : kernelSupportsKTLS13 test_release = true ∧ kernelSupportsKTLS13 (Some (str "5.10.0" ++ [0])) = false.
Proof. vm_compute. done. Qed.

Lemma test_hmac_len h s m : len (test_hmac h s m) = hash_len h.
Proof. unfold test_hmac. rewrite length_replicate. by destruct h. Qed.

Lemma test_hkdf_len h s i n : 0 ≤ n ≤ 255 * hash_len h → ∃ k, test_hkdf h s i n = Some k ∧ len k = n.
Proof.
  intros Hn. unfold test_hkdf. exists (replicate (Z.to_nat n) (len s + len i)).
  replace ((0 <=? n) && (n <=? 255 * hash_len h)) with true by blia. split; [done|]. rewrite length_replicate. lia.
Qed.

#[local] Instance test_Dup : DupKernel TestTls TestNet := {
  sys_dup k fd := (k, inl (fd + 1)); net_FileConn k fd := (k, inl test_direct); close_fd k fd := k }.

#[local] Instance test_DupLaws : DupKernelLaws TestTls TestNet.
Proof. split; [|done..]. intros. split; [done|]. cbn. lia. Qed.


