(* ===== verification/TimeWheel.v ===== *)
(** * timer/timewheel.go: the single-level time wheel

    A timer is an object the application shares with the wheel: its expiry and
    the slot the wheel stored in it live in a heap of timers, keyed by the
    timer's id.  [None] is a panic (an index out of range). *)

From stdpp Require Import gmap.
From S2P Require Import Prelude.

Record Timer := mkTimer { t_expriate : Z; t_slot : Z }.

(** The timers of the process. *)
Abbreviation timers := (gmap Z Timer) (only parsing).

Record TimeWheel := mkTW {
  tw_interval : Z;
  tw_slotNum : Z;
  tw_slots : list (gset Z);   (* the ids in each slot's container *)
  tw_currentPos : Z;          (* int32 *)
}.

(** [nil] for a non-positive interval or slot count. *)
Definition NewTimeWheel (interval slotNum : Z) : option TimeWheel :=
  if (interval <=? 0) || (slotNum <=? 0) then None
  else Some (mkTW interval slotNum (replicate (Z.to_nat slotNum) ∅) 0).

Definition tw_set_slot (tw : TimeWheel) (slot : Z) (c : gset Z) : option TimeWheel :=
  slots ← store (tw_slots tw) slot c;
  Some (mkTW (tw_interval tw) (tw_slotNum tw) slots (tw_currentPos tw)).

(** The ids whose [OnTimeOut] is started, and the wheel after the tick. *)
Definition TimeWheel_OnTimeOut (tw : TimeWheel) : option (TimeWheel * gset Z) :=
  i ← go_rem (tw_currentPos tw) (wrapS 32 (tw_slotNum tw));
  m ← index (tw_slots tw) i;
  tw' ← tw_set_slot tw i ∅;
  Some (mkTW (tw_interval tw) (tw_slotNum tw) (tw_slots tw') (wrapS 32 (tw_currentPos tw + 1)), m).

(** [delete(tw.slots[slot].container, id)] *)
Definition tw_remove (tw : TimeWheel) (slot id : Z) : option TimeWheel :=
  m ← index (tw_slots tw) slot; tw_set_slot tw slot (m ∖ {[id]}).

Definition TimeWheel_AddTimer (tw : TimeWheel) (tms : timers) (id : Z) (t : Timer) :
    option (TimeWheel * timers * bool) :=
  let expriate := t_expriate t in
  if expriate <? 0 then Some (tw, tms, false)
  else if tw_interval tw * tw_slotNum tw <? expriate then Some (tw, tms, false)
  else
    let slot := t_slot t in
    tw ← (if (0 <=? slot) && (slot <? tw_slotNum tw) then tw_remove tw slot id else Some tw);
    pos ← go_rem (tw_currentPos tw) (tw_slotNum tw);
    k ← go_quot expriate (tw_interval tw);
    slot ← go_rem (pos + k) (tw_slotNum tw);
    m ← index (tw_slots tw) slot;
    tw ← tw_set_slot tw slot (m ∪ {[id]});
    Some (tw, <[id := mkTimer expriate slot]> tms, true).

Definition TimeWheel_DelTimer (tw : TimeWheel) (id : Z) (t : Timer) : option TimeWheel :=
  tw_remove tw (t_slot t) id.

Definition TimeWheel_DelTimerByID (tw : TimeWheel) (slot id : Z) : option (TimeWheel * bool) :=
  if tw_slotNum tw <=? slot then Some (tw, false)
  else
    m ← index (tw_slots tw) slot;
    if bool_decide (id ∈ m) then tw ← tw_remove tw slot id; Some (tw, true)
    else Some (tw, false).

Definition TimeWheel_RefreshTimer (tw : TimeWheel) (tms : timers) (id : Z) (t : Timer) :
    option (TimeWheel * timers * bool) :=
  let expriate := t_expriate t in
  let slot := t_slot t in
  if slot =? -1 then
    '(tw, tms, _) ← TimeWheel_AddTimer tw tms id t; Some (tw, tms, true)
  else
    pos ← go_rem (tw_currentPos tw) (tw_slotNum tw);
    k ← go_quot expriate (tw_interval tw);
    tgt ← go_rem (pos + k) (tw_slotNum tw);
    if negb (tgt =? slot) then
      tw ← TimeWheel_DelTimer tw id t;
      '(tw, tms, _) ← TimeWheel_AddTimer tw tms id t;
      Some (tw, tms, true)
    else Some (tw, tms, true).

(** ** Invariant *)

(** A timer is in no slot but the one stored in it; the position has not wrapped. *)
Record tw_inv (tw : TimeWheel) (tms : timers) : Prop := {
  wi_interval : 0 < tw_interval tw;
  wi_num : 0 < tw_slotNum tw < 2 ^ 31;
  wi_len : len (tw_slots tw) = tw_slotNum tw;
  wi_pos : 0 ≤ tw_currentPos tw < 2 ^ 31 - 1;
  wi_slot i m id : tw_slots tw !! i = Some m → id ∈ m → ∃ t, tms !! id = Some t ∧ t_slot t = Z.of_nat i;
}.

(** Whether [id] is armed in slot [s]. *)
Definition armed (tw : TimeWheel) (s id : Z) : Prop := ∃ m, index (tw_slots tw) s = Some m ∧ id ∈ m.

Lemma armed_lookup tw s id : armed tw s id ↔ 0 ≤ s ∧ ∃ m, tw_slots tw !! Z.to_nat s = Some m ∧ id ∈ m.
Proof.
  unfold armed, index. destruct (Z.leb_spec 0 s); [by split; [split|intros [_ ?]]|].
  split; [by intros (m & ? & _)|lia].
Qed.

(** Writing one slot. *)
Lemma set_slot_spec tw s c : 0 ≤ s < len (tw_slots tw) → ∃ tw', tw_set_slot tw s c = Some tw' ∧
  tw_interval tw' = tw_interval tw ∧ tw_slotNum tw' = tw_slotNum tw ∧ tw_currentPos tw' = tw_currentPos tw ∧
  length (tw_slots tw') = length (tw_slots tw) ∧
  (∀ i, tw_slots tw' !! i = if decide (i = Z.to_nat s) then Some c else tw_slots tw !! i).
Proof.
  intros Hs. unfold tw_set_slot. rewrite store_lt by done. cbn [mbind option_bind].
  eexists. split; [done|]. simpl. rewrite length_insert. split_and!; try done.
  intros i. case_decide; [subst i; apply list_lookup_insert_eq; lia|by apply list_lookup_insert_ne].
Qed.

Lemma remove_spec tw s id : 0 ≤ s < len (tw_slots tw) → ∃ tw', tw_remove tw s id = Some tw' ∧
  tw_interval tw' = tw_interval tw ∧ tw_slotNum tw' = tw_slotNum tw ∧ tw_currentPos tw' = tw_currentPos tw ∧
  length (tw_slots tw') = length (tw_slots tw) ∧
  (∀ s' id', armed tw' s' id' ↔ armed tw s' id' ∧ ¬ (s' = s ∧ id' = id)).
Proof.
  intros Hs. unfold tw_remove. destruct (index_Some (tw_slots tw) s Hs) as [m Em]. rewrite Em. cbn [mbind option_bind].
  destruct (set_slot_spec tw s (m ∖ {[id]}) Hs) as (tw' & -> & ? & ? & ? & ? & Hl).
  exists tw'. split_and!; try done. intros s' id'. rewrite !armed_lookup, Hl.
  unfold index in Em. rewrite (proj2 (Z.leb_le _ _) (proj1 Hs)) in Em.
  case_decide as E.
  - split.
    + intros (Hz & m' & [= <-] & Hin). assert (s' = s) as -> by lia. split; [|set_solver].
      split; [done|]. exists m. set_solver.
    + intros [(Hz & m' & Em' & Hin) Hne]. assert (s' = s) as -> by lia. split; [done|].
      eexists. split; [done|]. assert (m' = m) as -> by congruence.
      apply elem_of_difference. split; [done|]. rewrite elem_of_singleton. naive_solver.
  - split; [intros Hz; split; [done|]; intros [-> _]; done|naive_solver].
Qed.

(** The slot [AddTimer] chooses for an expiry [e]. *)
Definition target (tw : TimeWheel) (e : Z) : Z :=
  (tw_currentPos tw + e / tw_interval tw) mod tw_slotNum tw.

Lemma target_spec tw tms e : tw_inv tw tms → 0 ≤ e →
  (pos ← go_rem (tw_currentPos tw) (tw_slotNum tw);
   k ← go_quot e (tw_interval tw);
   go_rem (pos + k) (tw_slotNum tw)) = Some (target tw e) ∧ 0 ≤ target tw e < tw_slotNum tw.
Proof.
  intros [Hi Hn _ Hp _] He. rewrite go_rem_Some by lia. cbn [mbind option_bind].
  rewrite go_quot_Some by lia. cbn [mbind option_bind].
  assert (0 ≤ tw_currentPos tw mod tw_slotNum tw) by (apply Z.mod_pos_bound; lia).
  assert (0 ≤ e / tw_interval tw) by (apply Z.div_pos; lia).
  rewrite go_rem_Some by lia. unfold target. rewrite Zplus_mod_idemp_l. split; [done|].
  apply Z.mod_pos_bound. lia.
Qed.

(** The effect of adding a timer: it moves to its slot; all others stay. *)
Lemma AddTimer_spec tw tms id t : tw_inv tw tms → tms !! id = Some t →
  0 ≤ t_expriate t ≤ tw_interval tw * tw_slotNum tw →
  ∃ tw' tms', TimeWheel_AddTimer tw tms id t = Some (tw', tms', true) ∧ tw_inv tw' tms' ∧
    tw_interval tw' = tw_interval tw ∧ tw_slotNum tw' = tw_slotNum tw ∧ tw_currentPos tw' = tw_currentPos tw ∧
    tms' = <[id := mkTimer (t_expriate t) (target tw (t_expriate t))]> tms ∧
    (∀ s id', armed tw' s id' ↔ if decide (id' = id) then s = target tw (t_expriate t) else armed tw s id').
Proof.
  intros Hinv Ht He. pose proof Hinv as [Hi Hn Hlen Hp Hslot].
  unfold TimeWheel_AddTimer. replace (t_expriate t <? 0) with false by lia.
  replace (_ <? t_expriate t) with false by lia.
  assert (∃ tw1, (if (0 <=? t_slot t) && (t_slot t <? tw_slotNum tw) then tw_remove tw (t_slot t) id else Some tw) = Some tw1 ∧
    tw_interval tw1 = tw_interval tw ∧ tw_slotNum tw1 = tw_slotNum tw ∧ tw_currentPos tw1 = tw_currentPos tw ∧
    length (tw_slots tw1) = length (tw_slots tw) ∧
    (∀ s' id', armed tw1 s' id' ↔ armed tw s' id' ∧ id' ≠ id)) as (tw1 & -> & I1 & N1 & P1 & L1 & A1).
  { assert (∀ s', armed tw s' id → s' = t_slot t ∧ 0 ≤ s' < tw_slotNum tw) as Huniq.
    { intros s' (Hz & m & Em & Hin)%armed_lookup. destruct (Hslot _ _ _ Em Hin) as (t' & Ht' & Hs').
      apply lookup_lt_Some in Em. assert (t' = t) as -> by congruence. lia. }
    destruct ((0 <=? t_slot t) && (t_slot t <? tw_slotNum tw)) eqn:Eb.
    - destruct (remove_spec tw (t_slot t) id) as (tw1 & -> & ? & ? & ? & ? & HA); [lia|].
      exists tw1. split_and!; try done. intros s' id'. rewrite HA. split.
      + intros [Ha Hne]. split; [done|]. intros ->. apply Hne. split; [|done]. by apply Huniq.
      + intros [Ha Hne]. split; [done|]. by intros [_ ->].
    - exists tw. split_and!; try done. intros s' id'. split; [|by intros [? _]].
      intros Ha. split; [done|]. intros ->. apply Huniq in Ha. lia. }
  cbn [mbind option_bind].
  destruct (target_spec tw tms (t_expriate t) Hinv ltac:(lia)) as [Etgt Btgt].
  set (tgt := target tw (t_expriate t)) in *. rewrite I1, N1, P1.
  destruct (go_rem (tw_currentPos tw) (tw_slotNum tw)) as [pos|]; [|done]. cbn [mbind option_bind] in Etgt |- *.
  destruct (go_quot (t_expriate t) (tw_interval tw)) as [k|]; [|done]. cbn [mbind option_bind] in Etgt |- *.
  rewrite Etgt. cbn [mbind option_bind].
  destruct (index_Some (tw_slots tw1) tgt) as [m Em]; [lia|]. rewrite Em. cbn [mbind option_bind].
  destruct (set_slot_spec tw1 tgt (m ∪ {[id]})) as (tw2 & -> & I2 & N2 & P2 & L2 & S2); [lia|]. cbn [mbind option_bind].
  unfold index in Em. rewrite (proj2 (Z.leb_le _ _) (proj1 Btgt)) in Em.
  assert (∀ s id', armed tw2 s id' ↔ if decide (id' = id) then s = tgt else armed tw s id') as HA.
  { intros s id'. rewrite armed_lookup, S2.
    assert (armed tw1 s id' ↔ 0 ≤ s ∧ ∃ m, tw_slots tw1 !! Z.to_nat s = Some m ∧ id' ∈ m) as HA1 by apply armed_lookup.
    pose proof (A1 s id') as HA2.
    destruct (decide (id' = id)) as [->|Ei]; destruct (decide (Z.to_nat s = Z.to_nat tgt)) as [Es|Es].
    - split; [lia|]. intros ->. split; [lia|]. eexists. split; [done|]. set_solver.
    - split; [intros Hx; apply HA1 in Hx; tauto|]. intros ->. done.
    - assert (0 ≤ s → s = tgt) as Hst by lia. split.
      + intros (Hz & m' & [= <-] & Hin). assert (s = tgt) as -> by auto. apply HA2, HA1. split; [done|].
        exists m. split; [done|]. set_solver.
      + intros Ha. assert (armed tw1 s id') as Ha1 by tauto. apply HA1 in Ha1 as (Hz & m' & Em' & Hin).
        assert (s = tgt) as -> by auto. split; [done|]. eexists. split; [done|]. assert (m' = m) as -> by congruence. set_solver.
    - rewrite <-HA1. tauto. }
  eexists _, _. split; [done|]. split; [|split_and!; try congruence; done].
  split; try lia. intros i m' id' Em' Hin'.
  assert (armed tw2 (Z.of_nat i) id') as Ha.
  { apply armed_lookup. split; [lia|]. rewrite Nat2Z.id. eauto. }
  apply (HA (Z.of_nat i) id') in Ha. rewrite lookup_insert. destruct (decide (id' = id)) as [->|E].
  - rewrite decide_True by done. eexists. split; [done|]. simpl. lia.
  - rewrite decide_False by done. apply armed_lookup in Ha as (_ & m0 & E0 & Hin0).
    rewrite Nat2Z.id in E0. by apply (Hslot i m0).
Qed.

(** ** Sequences of calls *)

Inductive tw_call : Type :=
| TTick
| TAdd (id : Z)
| TDel (id : Z)
| TDelByID (slot id : Z)
| TRefresh (id : Z).

Definition tw_run (s : TimeWheel * timers) (c : tw_call) : option (TimeWheel * timers * gset Z) :=
  let '(tw, tms) := s in
  match c with
  | TTick => '(tw, fired) ← TimeWheel_OnTimeOut tw; Some (tw, tms, fired)
  | TAdd id => t ← tms !! id; '(tw, tms, _) ← TimeWheel_AddTimer tw tms id t; Some (tw, tms, ∅)
  | TDel id => t ← tms !! id; tw ← TimeWheel_DelTimer tw id t; Some (tw, tms, ∅)
  | TDelByID slot id => '(tw, _) ← TimeWheel_DelTimerByID tw slot id; Some (tw, tms, ∅)
  | TRefresh id => t ← tms !! id; '(tw, tms, _) ← TimeWheel_RefreshTimer tw tms id t; Some (tw, tms, ∅)
  end.

(** The timer a call is about. *)
Definition call_id (c : tw_call) : option Z :=
  match c with TTick => None | TAdd id | TDel id | TDelByID _ id | TRefresh id => Some id end.

(** What the wheel expects of its callers: known timers; only timers that were
    added are deleted; the position does not reach the end of [int32]. *)
Definition tw_call_ok (s : TimeWheel * timers) (c : tw_call) : Prop :=
  let '(tw, tms) := s in
  match c with
  | TTick => tw_currentPos tw + 1 < 2 ^ 31 - 1
  | TAdd id => is_Some (tms !! id)
  | TDel id => ∃ t, tms !! id = Some t ∧ 0 ≤ t_slot t < tw_slotNum tw
  | TDelByID slot _ => 0 ≤ slot
  | TRefresh id => ∃ t, tms !! id = Some t ∧ -1 ≤ t_slot t < tw_slotNum tw
  end.

Lemma tw_inv_sub tw tw' tms : tw_inv tw tms → tw_interval tw' = tw_interval tw →
  tw_slotNum tw' = tw_slotNum tw → 0 ≤ tw_currentPos tw' < 2 ^ 31 - 1 →
  length (tw_slots tw') = length (tw_slots tw) → (∀ s id, armed tw' s id → armed tw s id) → tw_inv tw' tms.
Proof.
  intros [Hi Hn Hl Hp Hs] E1 E2 E3 E4 Ha. split; try lia. intros i m id Em Hin.
  assert (armed tw' (Z.of_nat i) id) as H by (apply armed_lookup; rewrite Nat2Z.id; split; [lia|eauto]).
  apply Ha, armed_lookup in H as (_ & m0 & E0 & Hin0). rewrite Nat2Z.id in E0. by apply (Hs i m0).
Qed.

Lemma OnTimeOut_spec tw tms : tw_inv tw tms → tw_currentPos tw + 1 < 2 ^ 31 - 1 →
  let cur := tw_currentPos tw mod tw_slotNum tw in
  ∃ tw' fired, TimeWheel_OnTimeOut tw = Some (tw', fired) ∧ tw_inv tw' tms ∧
    tw_interval tw' = tw_interval tw ∧ tw_slotNum tw' = tw_slotNum tw ∧
    tw_currentPos tw' = tw_currentPos tw + 1 ∧
    (∀ id, id ∈ fired ↔ armed tw cur id) ∧ (∀ s id, armed tw' s id ↔ armed tw s id ∧ s ≠ cur).
Proof.
  intros Hinv Hnext cur. pose proof Hinv as [Hi Hn Hl Hp Hs]. unfold TimeWheel_OnTimeOut.
  rewrite (wrapS_small 32 (tw_slotNum tw)) by lia. rewrite go_rem_Some by lia. cbn [mbind option_bind]. fold cur.
  assert (0 ≤ cur < tw_slotNum tw) as Hc by (apply Z.mod_pos_bound; lia).
  destruct (index_Some (tw_slots tw) cur) as [m Em]; [lia|]. rewrite Em. cbn [mbind option_bind].
  destruct (set_slot_spec tw cur ∅) as (tw1 & -> & I1 & N1 & P1 & L1 & S1); [lia|]. cbn [mbind option_bind].
  rewrite (wrapS_small 32 (tw_currentPos tw + 1)) by lia.
  set (tw' := mkTW _ _ _ _).
  assert (∀ s id, armed tw' s id ↔ armed tw s id ∧ s ≠ cur) as HA.
  { intros s id. rewrite !armed_lookup. simpl. rewrite S1.
    destruct (decide (Z.to_nat s = Z.to_nat cur)) as [E|E].
    - split; [intros (_ & ? & [= <-] & Hin); set_solver|]. intros [[Hz _] Hne]. lia.
    - split; [|by intros [? _]]. intros H. split; [done|]. by intros ->. }
  exists tw', m. split; [done|]. split.
  { apply (tw_inv_sub tw); try done; simpl; try lia. intros s id Ha. by apply HA in Ha as [? _]. }
  split_and!; try done. intros id. unfold armed. rewrite Em. split; [eauto|]. intros (? & [= <-] & ?). done.
Qed.

(** What any call does to a timer it is not about. *)
Definition call_effect (id : Z) (c : tw_call) (tw tw' : TimeWheel) (fired : gset Z) : Prop :=
  tw_interval tw' = tw_interval tw ∧ tw_slotNum tw' = tw_slotNum tw ∧
  match c with
  | TTick => let cur := tw_currentPos tw mod tw_slotNum tw in
      tw_currentPos tw' = tw_currentPos tw + 1 ∧ (id ∈ fired ↔ armed tw cur id) ∧
      (∀ s, armed tw' s id ↔ armed tw s id ∧ s ≠ cur)
  | _ => tw_currentPos tw' = tw_currentPos tw ∧ (id ∉ fired) ∧ (∀ s, armed tw' s id ↔ armed tw s id)
  end.

Lemma AddTimer_effect tw tms id0 t id : tw_inv tw tms → tms !! id0 = Some t → id ≠ id0 →
  ∃ tw' tms' ok, TimeWheel_AddTimer tw tms id0 t = Some (tw', tms', ok) ∧ tw_inv tw' tms' ∧
    tw_interval tw' = tw_interval tw ∧ tw_slotNum tw' = tw_slotNum tw ∧ tw_currentPos tw' = tw_currentPos tw ∧
    (∀ s, armed tw' s id ↔ armed tw s id).
Proof.
  intros Hinv Ht Hne. destruct (decide (0 ≤ t_expriate t ≤ tw_interval tw * tw_slotNum tw)) as [He|He].
  - destruct (AddTimer_spec tw tms id0 t Hinv Ht He) as (tw' & tms' & -> & ? & ? & ? & ? & _ & HA).
    exists tw', tms', true. split_and!; try done. intros s. rewrite HA. by rewrite decide_False.
  - unfold TimeWheel_AddTimer. destruct (Z.ltb_spec (t_expriate t) 0); [eexists _, _, _; done|].
    replace (_ <? t_expriate t) with true by lia. eexists _, _, _. done.
Qed.

Lemma DelTimer_effect tw tms slot id0 id : tw_inv tw tms → 0 ≤ slot < tw_slotNum tw → id ≠ id0 →
  ∃ tw', tw_remove tw slot id0 = Some tw' ∧ tw_inv tw' tms ∧
    tw_interval tw' = tw_interval tw ∧ tw_slotNum tw' = tw_slotNum tw ∧ tw_currentPos tw' = tw_currentPos tw ∧
    (∀ s, armed tw' s id ↔ armed tw s id).
Proof.
  intros Hinv Hs Hne. pose proof Hinv as [Hi Hn Hl Hp _].
  destruct (remove_spec tw slot id0) as (tw' & -> & I1 & N1 & P1 & L1 & HA); [lia|].
  exists tw'. split; [done|]. split.
  - apply (tw_inv_sub tw); try done; try lia. intros s' id'. rewrite HA. tauto.
  - split_and!; try done. intros s. rewrite HA. split; [tauto|]. intros ?. split; [done|]. by intros [_ ->].
Qed.

Lemma tw_run_spec tw tms c id : tw_inv tw tms → tw_call_ok (tw, tms) c → call_id c ≠ Some id →
  ∃ tw' tms' fired, tw_run (tw, tms) c = Some (tw', tms', fired) ∧ tw_inv tw' tms' ∧ call_effect id c tw tw' fired.
Proof.
  intros Hinv Hok Hne. unfold call_effect.
  destruct c as [|id0|id0|slot id0|id0]; simpl in Hok, Hne |- *.
  - destruct (OnTimeOut_spec tw tms Hinv Hok) as (tw' & fired & -> & ? & ? & ? & ? & Hf & HA).
    exists tw', tms, fired. split_and!; try done.
  - destruct Hok as [t Ht]. rewrite Ht. cbn [mbind option_bind].
    destruct (AddTimer_effect tw tms id0 t id Hinv Ht) as (tw' & tms' & ok & -> & ? & ? & ? & ? & ?); [congruence|].
    exists tw', tms', ∅. split_and!; done.
  - destruct Hok as (t & Ht & Hs). rewrite Ht. cbn [mbind option_bind]. unfold TimeWheel_DelTimer.
    destruct (DelTimer_effect tw tms (t_slot t) id0 id Hinv Hs) as (tw' & -> & ? & ? & ? & ? & ?); [congruence|].
    exists tw', tms, ∅. split_and!; done.
  - unfold TimeWheel_DelTimerByID. destruct (Z.leb_spec (tw_slotNum tw) slot).
    { exists tw, tms, ∅. split_and!; done. }
    destruct (index_Some (tw_slots tw) slot) as [m ->]; [rewrite (wi_len _ _ Hinv); lia|]. cbn [mbind option_bind].
    case_bool_decide; [|exists tw, tms, ∅; split_and!; done].
    destruct (DelTimer_effect tw tms slot id0 id Hinv) as (tw' & -> & ? & ? & ? & ? & ?); [lia|congruence|].
    exists tw', tms, ∅. split_and!; done.
  - destruct Hok as (t & Ht & Hs). rewrite Ht. cbn [mbind option_bind]. unfold TimeWheel_RefreshTimer.
    assert (∀ tw0, tw_inv tw0 tms → tw_interval tw0 = tw_interval tw ∧ tw_slotNum tw0 = tw_slotNum tw ∧
              tw_currentPos tw0 = tw_currentPos tw ∧ (∀ s, armed tw0 s id ↔ armed tw s id) →
      ∃ tw' tms' (fired : gset Z), ('(tw, tms, _) ← ('(tw, tms, _) ← TimeWheel_AddTimer tw0 tms id0 t; Some (tw, tms, true));
                         Some (tw, tms, ∅)) = Some (tw', tms', fired) ∧
        tw_inv tw' tms' ∧ tw_interval tw' = tw_interval tw ∧ tw_slotNum tw' = tw_slotNum tw ∧
        tw_currentPos tw' = tw_currentPos tw ∧ (id ∉ fired) ∧ (∀ s, armed tw' s id ↔ armed tw s id)) as Hadd.
    { intros tw0 Hinv0 (? & ? & ? & HA0).
      destruct (AddTimer_effect tw0 tms id0 t id Hinv0 Ht) as (tw' & tms' & ok & -> & ? & ? & ? & ? & HA'); [congruence|].
      exists tw', tms', ∅. split_and!; try done; try congruence. intros s. by rewrite HA', HA0. }
    destruct (Z.eqb_spec (t_slot t) (-1)); [by apply Hadd|].
    pose proof Hinv as [Hi Hn _ Hp _].
    unfold go_rem, go_quot. replace (tw_slotNum tw =? 0) with false by lia.
    replace (tw_interval tw =? 0) with false by lia. cbn [mbind option_bind].
    case_match; [|exists tw, tms, ∅; split_and!; done]. unfold TimeWheel_DelTimer.
    destruct (DelTimer_effect tw tms (t_slot t) id0 id Hinv) as (tw0 & -> & ? & ? & ? & ? & ?); [lia|congruence|].
    cbn [mbind option_bind]. by apply Hadd.
Qed.

(** The fired timers of each tick of a run. *)
Fixpoint tw_runs (s : TimeWheel * timers) (cs : list tw_call) : option (TimeWheel * timers * list (gset Z)) :=
  match cs with
  | [] => Some (s, [])
  | c :: cs =>
      '(s, fired) ← tw_run s c;
      '(s, fs) ← tw_runs s cs;
      Some (s, match c with TTick => fired :: fs | _ => fs end)
  end.

Fixpoint tw_calls_ok (s : TimeWheel * timers) (cs : list tw_call) : Prop :=
  match cs with
  | [] => True
  | c :: cs => tw_call_ok s c ∧ ∀ s' f, tw_run s c = Some (s', f) → tw_calls_ok s' cs
  end.

(** [r] ticks are left before the tick that fires [id]; [None]: it is not armed. *)
Definition countdown (tw : TimeWheel) (id : Z) (r : option nat) : Prop :=
  match r with
  | None => ∀ s, ¬ armed tw s id
  | Some r => Z.of_nat r < tw_slotNum tw ∧
      ∀ s, armed tw s id ↔ s = (tw_currentPos tw + Z.of_nat r) mod tw_slotNum tw
  end.

Lemma mod_shift_ne p r n : 0 < r < n → (p + r) mod n ≠ p mod n.
Proof.
  intros Hr E. assert ((p + r - p) mod n = 0) as H0.
  { rewrite Zminus_mod, E, Z.sub_diag. apply Zmod_0_l. }
  rewrite (Z.mod_small (p + r - p)) in H0 by lia. lia.
Qed.

Lemma countdown_step tw tms id c tw' fired r : tw_inv tw tms → countdown tw id r → call_effect id c tw tw' fired →
  match c with
  | TTick => (id ∈ fired ↔ r = Some 0%nat) ∧ countdown tw' id (r ≫= λ k, match k with O => None | S k => Some k end)
  | _ => countdown tw' id r
  end.
Proof.
  intros [Hi Hn _ _ _] Hr (_ & EN & Heff). destruct c; destruct Heff as (EP & Hf & HA).
  2-5: destruct r as [r|]; simpl in *; [rewrite EN, EP; split; [lia|]|]; intros s; rewrite HA; apply Hr.
  set (cur := tw_currentPos tw mod tw_slotNum tw) in *.
  destruct r as [[|r]|]; simpl in *.
  - destruct Hr as [_ Hr]. rewrite Z.add_0_r in Hr. fold cur in Hr. split.
    + rewrite Hf, Hr. done.
    + intros s [H1 H2]%HA. apply Hr in H1. done.
  - destruct Hr as [Hlt Hr]. assert ((tw_currentPos tw + Z.of_nat (S r)) mod tw_slotNum tw ≠ cur) as Hne by (apply mod_shift_ne; lia).
    split.
    + rewrite Hf, Hr. split; [intros E; by rewrite E in Hne|done].
    + rewrite EN, EP. split; [lia|]. intros s. rewrite HA, Hr.
      replace (tw_currentPos tw + 1 + Z.of_nat r) with (tw_currentPos tw + Z.of_nat (S r)) by lia.
      split; [by intros [? _]|]. intros ->. done.
  - split; [|intros s [H1 _]%HA; by apply Hr in H1]. rewrite Hf. split; [intros H; by apply Hr in H|done].
Qed.

Lemma tw_runs_spec cs tw tms id r : tw_inv tw tms → countdown tw id r → tw_calls_ok (tw, tms) cs →
  Forall (λ c, call_id c ≠ Some id) cs →
  ∃ s' fs, tw_runs (tw, tms) cs = Some (s', fs) ∧
    ∀ j f, fs !! j = Some f → (id ∈ f ↔ r = Some j).
Proof.
  revert tw tms r. induction cs as [|c cs IH]; intros tw tms r Hinv Hr Hok Hne.
  { exists (tw, tms), []. done. }
  inversion Hne as [|? ? Hc Hcs]; subst. destruct Hok as [Hc1 Hrest].
  destruct (tw_run_spec tw tms c id Hinv Hc1 Hc) as (tw' & tms' & fired & E & Hinv' & Heff).
  pose proof (countdown_step tw tms id c tw' fired r Hinv Hr Heff) as Hstep.
  specialize (Hrest _ _ E). cbn [tw_runs]. rewrite E. cbn [mbind option_bind].
  destruct c.
  2-5: (destruct (IH tw' tms' r Hinv' Hstep Hrest Hcs) as (s' & fs & -> & Hfs); exists s', fs; done).
  destruct Hstep as [Hf Hr']. destruct (IH tw' tms' _ Hinv' Hr' Hrest Hcs) as (s' & fs & -> & Hfs).
  exists s', (fired :: fs). split; [done|]. intros [|j] f Hj; simpl in Hj; [by simplify_eq|].
  rewrite (Hfs j f Hj). destruct r as [[|r]|]; simpl; split; congruence || naive_solver.
Qed.


(** The wheel of the witnesses: 3 slots of 10, one timer of 25 and one of 0. *)
Definition test_wheel : TimeWheel := mkTW 10 3 [∅; ∅; ∅] 7.
Definition test_timers : timers := {[ 1 := mkTimer 25 (-1); 2 := mkTimer 0 (-1) ]}.

Lemma test_wheel_inv : tw_inv test_wheel test_timers.
Proof.
  split; simpl; try lia. intros i m id Em Hin.
  destruct i as [|[|[|i]]]; simpl in Em; simplify_eq; set_solver.
Qed.


(** ** Limits of the wheel *)

(** An expiry of exactly one turn passes the range check of [AddTimer] (which
    refuses only larger ones) and is put in the slot of the current position: the
    timer fires at the next tick instead of a turn later. *)
Lemma full_turn_fires_at_next_tick tw tms id t : tw_inv tw tms → tms !! id = Some t →
  t_expriate t = tw_interval tw * tw_slotNum tw → tw_currentPos tw + 1 < 2 ^ 31 - 1 →
  ∃ tw1 tms1 tw2 fired, TimeWheel_AddTimer tw tms id t = Some (tw1, tms1, true) ∧
    TimeWheel_OnTimeOut tw1 = Some (tw2, fired) ∧ id ∈ fired.
Proof.
  intros Hinv Ht He Hp. pose proof Hinv as [Hi Hn _ _ _].
  destruct (AddTimer_spec tw tms id t Hinv Ht ltac:(lia)) as (tw1 & tms1 & E & Hinv1 & I1 & N1 & P1 & _ & HA).
  destruct (OnTimeOut_spec tw1 tms1 Hinv1 ltac:(lia)) as (tw2 & fired & E2 & _ & _ & _ & _ & Hf & _).
  exists tw1, tms1, tw2, fired. split_and!; try done. rewrite Hf, HA, decide_True by done.
  unfold target. rewrite He, P1, N1, Z.mul_comm, Z.div_mul by lia.
  rewrite <-Zplus_mod_idemp_r, Z_mod_same_full. f_equal. lia.
Qed.

(** The position is an [int32] that is never reduced: after [2^31] ticks it is
    negative, and the next tick indexes the slots with a negative number, unless
    the number of slots divides [2^31]. *)
Example position_overflow_panics :
  ∃ tw', TimeWheel_OnTimeOut (mkTW 10 3 [∅; ∅; ∅] (2 ^ 31 - 1)) = Some (tw', ∅) ∧
    tw_currentPos tw' = - 2 ^ 31 ∧ TimeWheel_OnTimeOut tw' = None.
Proof. eexists. split; [reflexivity|]. split; reflexivity. Qed.
