(* ===== verification/FdTable.v ===== *)
(** * eventloop/{fdtable,loopUtil}.go: the descriptor table and connection ids

    The table is shared by the loops of a process: slot [fd] holds the connection
    that owns descriptor [fd].  A connection is a reference of type [R]; the mutex
    of a slot makes each operation on it atomic.  [fdTable_refines_map] shows that
    the table is a finite map from descriptors to connections. *)

From stdpp Require Import gmap.
From S2P Require Import Prelude.

Definition fdTableMinSize : Z := 1024.
Definition fdTableFallbackSize : Z := 64 * 1024.
Definition fdTableMaxSize : Z := 4 * 1024 * 1024.

(** [unix.RLIM_INFINITY] on Linux. *)
Definition RLIM_INFINITY : Z := 2 ^ 64 - 1.

(** [fdTableSize]: [cur] is the soft limit [getrlimit] reports, [None] when the
    call fails.  The result is the size and the raw limit. *)
Definition fdTableSize (cur : option Z) : Z * Z :=
  match cur with
  | None => (fdTableFallbackSize, 0)
  | Some raw =>
      let size := if (raw =? RLIM_INFINITY) || (fdTableMaxSize <? raw) then fdTableMaxSize else raw in
      let size := if size <? fdTableMinSize then fdTableMinSize else size in
      (size, raw)
  end.

Section Table.
Context {R : Type} `{!EqDecision R}.
Implicit Types (t : list (option R)).

Definition InitFDTable (cur : option Z) : list (option R) :=
  replicate (Z.to_nat (fst (fdTableSize cur))) None.

Definition fdTableSet t (fd : Z) (c : R) : list (option R) * bool :=
  if (fd <? 0) || (len t <=? fd) then (t, false)
  else (<[Z.to_nat fd := Some c]> t, true).

Definition fdTableGet t (fd : Z) : option R :=
  if (fd <? 0) || (len t <=? fd) then None
  else t !! Z.to_nat fd ≫= id.

Definition fdTableClear t (fd : Z) (c : R) : list (option R) :=
  if (fd <? 0) || (len t <=? fd) then t
  else if decide (t !! Z.to_nat fd ≫= id = Some c) then <[Z.to_nat fd := None]> t
  else t.

(** [fdTableRange owner fn]: [mine c] says [c.LoopID() == owner]; [fn] may change
    the table.  The loop goes over the indices that exist when it starts. *)
Definition fdTableRange {S} (get : S → list (option R)) (mine : S → R → bool)
    (fn : Z → R → S → option S) (s : S) : option S :=
  foldr (λ fd k s,
    match fdTableGet (get s) fd with
    | Some c => if mine s c then s ← fn fd c s; k s else k s
    | None => k s
    end) Some (seqZ 0 (len (get s))) s.

(** ** The table is a finite map *)

Lemma fdTableGet_lt t fd : is_Some (fdTableGet t fd) → 0 ≤ fd < len t.
Proof. unfold fdTableGet. destruct (Z.ltb_spec fd 0), (Z.leb_spec (len t) fd); simpl; intros [? ?]; try done; lia. Qed.

Lemma Get_Set t fd c fd' : 0 ≤ fd < len t →
  fdTableGet (fst (fdTableSet t fd c)) fd' = if decide (fd' = fd) then Some c else fdTableGet t fd'.
Proof.
  intros Hfd. unfold fdTableSet. zb. unfold fdTableGet. simpl. rewrite length_insert.
  case_decide as E.
  - subst. zb. rewrite list_lookup_insert_eq by lia. done.
  - gcase; [done|]. rewrite list_lookup_insert_ne by lia. done.
Qed.

Lemma fdTableGet_Some t fd c : fdTableGet t fd = Some c ↔ 0 ≤ fd ∧ t !! Z.to_nat fd = Some (Some c).
Proof.
  unfold fdTableGet. destruct (Z.ltb_spec fd 0); simpl; [split; [done|lia]|].
  destruct (Z.leb_spec (len t) fd).
  - split; [done|]. intros [_ H']. apply lookup_lt_Some in H'. lia.
  - destruct (t !! Z.to_nat fd) as [[?|]|]; simpl; naive_solver.
Qed.

Lemma Get_Clear t fd c fd' :
  fdTableGet (fdTableClear t fd c) fd' =
  if decide (fd' = fd ∧ fdTableGet t fd = Some c) then None else fdTableGet t fd'.
Proof.
  apply option_eq. intros d. case_decide as D.
  - destruct D as [-> D]. split; [|done]. apply fdTableGet_Some in D as [? D].
    pose proof (lookup_lt_Some _ _ _ D). unfold fdTableClear. zb.
    rewrite decide_True by (by rewrite D). rewrite fdTableGet_Some, list_lookup_insert_eq by lia. naive_solver.
  - unfold fdTableClear. gcase; [done|]. case_decide as E; [|done].
    assert (fdTableGet t fd = Some c) as F by (unfold fdTableGet; by rewrite H).
    assert (fd' ≠ fd) by naive_solver. apply orb_false_iff in H as [? ?].
    rewrite !fdTableGet_Some. split; intros [? G]; (split; [done|]).
    + by rewrite list_lookup_insert_ne in G by lia.
    + by rewrite list_lookup_insert_ne by lia.
Qed.

Inductive fd_call : Type := FSet (fd : Z) (c : R) | FClear (fd : Z) (c : R) | FGet (fd : Z).

Definition fd_run t (call : fd_call) : list (option R) * (option R * bool) :=
  match call with
  | FSet fd c => let '(t, ok) := fdTableSet t fd c in (t, (None, ok))
  | FClear fd c => (fdTableClear t fd c, (None, true))
  | FGet fd => (t, (fdTableGet t fd, true))
  end.

(** The specification: a finite map, whose domain is bounded by [size]. *)
Definition fd_spec (size : Z) (m : gmap Z R) (call : fd_call) : gmap Z R * (option R * bool) :=
  match call with
  | FSet fd c => if decide (0 ≤ fd < size) then (<[fd := c]> m, (None, true)) else (m, (None, false))
  | FClear fd c => (if decide (m !! fd = Some c) then delete fd m else m, (None, true))
  | FGet fd => (m, (m !! fd, true))
  end.

Fixpoint runs {A B} (step : A → fd_call → A * B) (s : A) (cs : list fd_call) : A * list B :=
  match cs with
  | [] => (s, [])
  | c :: cs => let '(s, o) := step s c in let '(s, os) := runs step s cs in (s, o :: os)
  end.

Definition fd_sim (size : Z) t (m : gmap Z R) : Prop := len t = size ∧ ∀ fd, fdTableGet t fd = m !! fd.

Lemma length_Clear t fd c : length (fdTableClear t fd c) = length t.
Proof. unfold fdTableClear. repeat gcase; rewrite ?length_insert; done. Qed.

Lemma length_Set t fd c : length (fst (fdTableSet t fd c)) = length t.
Proof. unfold fdTableSet. gcase; simpl; rewrite ?length_insert; done. Qed.

Lemma fd_run_sim size t m call : fd_sim size t m →
  fd_sim size (fst (fd_run t call)) (fst (fd_spec size m call)) ∧ snd (fd_run t call) = snd (fd_spec size m call).
Proof.
  intros [Hl Hs]. destruct call as [fd c|fd c|fd]; simpl.
  - case_decide as D.
    + pose proof (length_Set t fd c) as Hl'. pose proof (Get_Set t fd c) as Hg.
      assert (snd (fdTableSet t fd c) = true) as Hok by (unfold fdTableSet; by zb).
      destruct (fdTableSet t fd c) as [t' ok]. simpl in *. subst ok. split; [|done]. split; [congruence|].
      intros fd'. rewrite Hg, lookup_insert by lia. rewrite Hs.
      case_decide as E; [subst; by rewrite decide_True|by rewrite decide_False by done].
    + unfold fdTableSet. replace ((fd <? 0) || (len t <=? fd)) with true; [done|]. symmetry.
      rewrite orb_true_iff, Z.ltb_lt, Z.leb_le. lia.
  - split; [|done]. split; [by rewrite length_Clear|]. intros fd'. rewrite Get_Clear, !Hs.
    repeat case_decide; try naive_solver.
    + destruct_and!. subst. by rewrite lookup_delete_eq.
    + rewrite lookup_delete_ne; [done|]. naive_solver.
  - by rewrite Hs.
Qed.

Lemma fd_runs_sim size t m cs : fd_sim size t m →
  fd_sim size (fst (runs fd_run t cs)) (fst (runs (fd_spec size) m cs)) ∧
  snd (runs fd_run t cs) = snd (runs (fd_spec size) m cs).
Proof.
  revert t m. induction cs as [|c cs IH]; intros t m Hs; [done|]. simpl.
  destruct (fd_run_sim size t m c Hs) as [Hs' Ho].
  destruct (fd_run t c) as [t' o], (fd_spec size m c) as [m' o']. simpl in *. subst o'.
  destruct (IH t' m' Hs') as [Hs'' Ho']. destruct (runs fd_run t' cs), (runs (fd_spec size) m' cs).
  simpl in *. by subst.
Qed.

Lemma fdTableSize_bounds cur : match cur with Some raw => 0 ≤ raw | None => True end →
  fdTableMinSize ≤ fst (fdTableSize cur) ≤ fdTableMaxSize.
Proof.
  intros Hc. unfold fdTableSize, fdTableMinSize, fdTableMaxSize, fdTableFallbackSize.
  destruct cur as [raw|]; simpl; [|lia]. repeat gcase; lia.
Qed.

Lemma InitFDTable_sim cur : fd_sim (fst (fdTableSize cur)) (InitFDTable cur) ∅ ∨ fst (fdTableSize cur) < 0.
Proof.
  destruct (Z.le_gt_cases 0 (fst (fdTableSize cur))); [left|by right].
  split; [unfold InitFDTable; rewrite length_replicate; lia|]. intros fd. rewrite lookup_empty.
  apply eq_None_not_Some. intros [c Hc]. apply fdTableGet_Some in Hc as [_ Hc].
  unfold InitFDTable in Hc. apply lookup_replicate in Hc as [? _]. done.
Qed.

(** The descriptor table refines a finite map.  Whatever the resource limit,
    the table made by [InitFDTable] has between 1024 and 4194304 slots, and any
    sequence of [fdTableSet], [fdTableClear] and [fdTableGet] calls answers as a
    map from descriptors to connections that refuses descriptors outside the table
    and whose [clear] removes a descriptor only if it is still held by the given
    connection (a slot reused by another connection is left alone). *)
Theorem fdTable_refines_map (cur : option Z) (cs : list fd_call) :
  match cur with Some raw => 0 ≤ raw | None => True end →
  let size := fst (fdTableSize cur) in
  fdTableMinSize ≤ size ≤ fdTableMaxSize ∧
  snd (runs fd_run (InitFDTable cur) cs) = snd (runs (fd_spec size) ∅ cs) ∧
  ∀ fd, fdTableGet (fst (runs fd_run (InitFDTable cur) cs)) fd = fst (runs (fd_spec size) ∅ cs) !! fd.
Proof.
  intros Hc size. pose proof (fdTableSize_bounds cur Hc) as Hb. split; [done|].
  destruct (InitFDTable_sim cur) as [Hs|]; [|unfold fdTableMinSize in *; lia].
  destruct (fd_runs_sim _ _ _ cs Hs) as [[_ Hg] Ho]. done.
Qed.

End Table.

Arguments fd_call : clear implicits.

Lemma fdTable_refines_map_witness :
  let cs := [FSet 5 1%nat; FSet 2000 2%nat; FClear 5 2%nat; FGet 5; FClear 5 1%nat; FGet 5] in
  fdTableMinSize ≤ 1024 ≤ fdTableMaxSize ∧
  snd (runs fd_run (InitFDTable (Some 1024)) cs) = snd (runs (fd_spec 1024) ∅ cs) ∧
  ∀ fd, fdTableGet (fst (runs fd_run (InitFDTable (Some 1024)) cs)) fd = fst (runs (fd_spec 1024) ∅ cs) !! fd.
Proof. apply (fdTable_refines_map (Some 1024)). discriminate. Defined.

(** ** Connection ids *)

(** [buildSimpleID]: the shifts and the [or] are on [uint64]. *)
Definition buildSimpleID (seq fd lpid : Z) : Z :=
  Z.lor (Z.lor (wrapU 64 (Z.shiftl (wrapU 64 seq) 32)) (wrapU 64 (Z.shiftl (wrapU 64 fd) 16))) (wrapU 64 lpid).

Lemma buildSimpleID_fields seq fd lpid : 0 ≤ seq < 2 ^ 32 → 0 ≤ fd < 2 ^ 16 → 0 ≤ lpid < 2 ^ 16 →
  buildSimpleID seq fd lpid = (seq * 2 ^ 16 + fd) * 2 ^ 16 + lpid.
Proof.
  intros Hs Hf Hl. unfold buildSimpleID. rewrite !(wrapU_small 64 seq), !(wrapU_small 64 fd), !(wrapU_small 64 lpid) by lia.
  rewrite !Z.shiftl_mul_pow2 by lia. rewrite !wrapU_small by lia.
  replace (seq * 2 ^ 32) with (Z.shiftl (Z.shiftl seq 16) 16) by (rewrite !Z.shiftl_mul_pow2 by lia; lia).
  rewrite <-Z.shiftl_mul_pow2, <-Z.shiftl_lor, !lor_shift_add by lia. done.
Qed.

(** The ids a loop hands out determine the sequence number, the descriptor and
    the loop they were made from, as long as the descriptor and the loop index are
    below 65536: two connections get the same id only if all three agree. *)
Theorem buildSimpleID_injective (seq fd lpid seq' fd' lpid' : Z) :
  0 ≤ seq < 2 ^ 32 → 0 ≤ fd < 2 ^ 16 → 0 ≤ lpid < 2 ^ 16 →
  0 ≤ seq' < 2 ^ 32 → 0 ≤ fd' < 2 ^ 16 → 0 ≤ lpid' < 2 ^ 16 →
  buildSimpleID seq fd lpid = buildSimpleID seq' fd' lpid' → seq = seq' ∧ fd = fd' ∧ lpid = lpid'.
Proof. intros ? ? ? ? ? ? H. rewrite !buildSimpleID_fields in H by lia. lia. Qed.

Lemma buildSimpleID_injective_witness : buildSimpleID 1 7 2 = buildSimpleID 1 7 2 ∧ (1 = 1 ∧ 7 = 7 ∧ 2 = 2).
Proof.
  split; [reflexivity|].
  apply (buildSimpleID_injective 1 7 2 1 7 2); (lia || reflexivity).
Defined.

(** Beyond the 16 bits of the descriptor field, which the table admits, ids of
    different connections coincide. *)
Example buildSimpleID_collision : 65536 < fdTableMaxSize ∧ buildSimpleID 3 (65536 + 7) 0 = buildSimpleID 2 (65536 + 7) 0.
Proof. split; reflexivity. Qed.
