(* ===== verification/Poller.v ===== *)
(** * internal/{poll_linux,pollconst}.go: the epoll wrapper

    [Poll] registers descriptors with epoll, wakes the loop through an eventfd and
    turns the kernel's events into callbacks.  epoll is the class [Epoll]: the
    ghost [k_interest k epfd fd] is the event mask [fd] is registered with. *)

From stdpp Require Import gmap.
From S2P Require Import Prelude Conn.

Definition PollInitSize : Z := 1024.
Definition PollMaxSize : Z := 8192.

Definition EventNone : Z := 0x0.
Definition EventStop : Z := 0xff.
Definition EventIdle : Z := 0xfe.
Definition EventRead : Z := 0x1.
Definition EventWrite : Z := 0x2.
Definition EventErr : Z := 0x80.

Definition CmdStop : Z := 0x0.
Definition CmdUser : Z := 0x1.

(** ** epoll *)

Definition EPOLLIN : Z := 0x1.
Definition EPOLLPRI : Z := 0x2.
Definition EPOLLOUT : Z := 0x4.
Definition EPOLLERR : Z := 0x8.
Definition EPOLLHUP : Z := 0x10.
Definition EPOLLRDHUP : Z := 0x2000.

Definition EPOLL_CTL_ADD : Z := 1.
Definition EPOLL_CTL_DEL : Z := 2.
Definition EPOLL_CTL_MOD : Z := 3.

Definition ENOENT : errno := EOTHER 2.
Definition EEXIST : errno := EOTHER 17.

Class Epoll (K : Type) := {
  sys_epoll_ctl : K → Z → Z → Z → Z → K * option errno;   (* epfd op fd events *)
  k_interest : K → Z → Z → option Z;
}.

(** What [epoll_ctl(2)] promises: ADD and MOD that succeed set the interest of the
    descriptor, DEL removes it, a failing call changes nothing; ADD of a registered
    descriptor fails with EEXIST, MOD of one that is not registered with ENOENT; no
    stream of bytes is touched. *)
Class EpollLaws (K : Type) `{Kernel K, Epoll K} : Prop := {
  epoll_ctl_streams k epfd op fd ev fd' :
    k_out (fst (sys_epoll_ctl k epfd op fd ev)) fd' = k_out k fd' ∧
    k_in (fst (sys_epoll_ctl k epfd op fd ev)) fd' = k_in k fd';
  epoll_ctl_other k epfd op fd ev fd' : fd' ≠ fd →
    k_interest (fst (sys_epoll_ctl k epfd op fd ev)) epfd fd' = k_interest k epfd fd';
  epoll_ctl_add k epfd fd ev : let '(k', e) := sys_epoll_ctl k epfd EPOLL_CTL_ADD fd ev in
    match e with
    | None => k_interest k epfd fd = None ∧ k_interest k' epfd fd = Some ev
    | Some e => k_interest k' epfd fd = k_interest k epfd fd ∧
                (e = EEXIST ↔ is_Some (k_interest k epfd fd))
    end;
  epoll_ctl_mod k epfd fd ev : let '(k', e) := sys_epoll_ctl k epfd EPOLL_CTL_MOD fd ev in
    match e with
    | None => is_Some (k_interest k epfd fd) ∧ k_interest k' epfd fd = Some ev
    | Some e => k_interest k' epfd fd = k_interest k epfd fd ∧
                (e = ENOENT ↔ k_interest k epfd fd = None)
    end;
  epoll_ctl_del k epfd fd ev : let '(k', e) := sys_epoll_ctl k epfd EPOLL_CTL_DEL fd ev in
    match e with
    | None => k_interest k' epfd fd = None
    | Some _ => k_interest k' epfd fd = k_interest k epfd fd
    end;
}.

(** ** Poll *)

Record Poll := mkPoll {
  p_id : Z; p_fd : Z; p_wfd : Z; p_wait : Z; p_stopping : Z }.

Section Poll.
Context {K : Type} `{!Kernel K, !Epoll K}.
Implicit Types (k : K) (p : Poll).

Definition Poll_add k p (fd events : Z) : K * option errno :=
  let '(k, err) := sys_epoll_ctl k (p_fd p) EPOLL_CTL_ADD fd events in
  if bool_decide (err = Some EEXIST) then sys_epoll_ctl k (p_fd p) EPOLL_CTL_MOD fd events else (k, err).

Definition Poll_AddReadWrite k p fd : K * option errno :=
  Poll_add k p fd (Z.lor (Z.lor EPOLLIN EPOLLPRI) EPOLLOUT).

Definition Poll_AddRead k p fd : K * option errno := Poll_add k p fd (Z.lor EPOLLIN EPOLLPRI).

Definition Poll_mod k p (fd events : Z) : K * option errno :=
  let '(k, err) := sys_epoll_ctl k (p_fd p) EPOLL_CTL_MOD fd events in
  if bool_decide (err = Some ENOENT) then sys_epoll_ctl k (p_fd p) EPOLL_CTL_ADD fd events else (k, err).

Definition Poll_ModRead k p fd : K * option errno := Poll_mod k p fd (Z.lor EPOLLIN EPOLLPRI).

Definition Poll_ModReadWrite k p fd : K * option errno :=
  Poll_mod k p fd (Z.lor (Z.lor EPOLLIN EPOLLPRI) EPOLLOUT).

Definition Poll_Del k p fd : K * option errno := sys_epoll_ctl k (p_fd p) EPOLL_CTL_DEL fd 0.

Definition Poll_Trigger k p (cmd : Z) : K * option errno :=
  let '(k, _, err) := sys_write k (p_wfd p) [cmd; 0; 0; 0; 0; 0; 0; 0] in (k, err).

Definition Poll_SetPollWait p (msec : Z) : Poll :=
  mkPoll (p_id p) (p_fd p) (p_wfd p) (if msec <? 0 then -1 else msec) (p_stopping p).

(** [Close] up to the wait for the poll goroutine. *)
Definition Poll_Close k p : K * Poll * option errno :=
  let p := mkPoll (p_id p) (p_fd p) (p_wfd p) (p_wait p) 1 in
  let '(k, err) := Poll_Trigger k p CmdUser in (k, p, err).

(** The event mask the callback gets for the mask [ev] reported by epoll. *)
Definition decode_events (ev : Z) : Z :=
  let r := EventNone in
  let r := if negb (Z.land ev EPOLLHUP =? 0) && (Z.land ev EPOLLIN =? 0) then Z.lor r EventErr else r in
  let r := if negb (Z.land ev EPOLLERR =? 0) || negb (Z.land ev EPOLLOUT =? 0) then Z.lor r EventWrite else r in
  if negb (Z.land ev (Z.lor (Z.lor EPOLLIN EPOLLPRI) EPOLLRDHUP) =? 0) then Z.lor r EventRead else r.

(** The callbacks made for the events of one [EpollWait], in order; [true] when
    the poller stops.  [stopping] is what [p.stopping] reads as. *)
Fixpoint poll_batch (wfd : Z) (stopping : bool) (evs : list (Z * Z)) : list (Z * Z) * bool :=
  match evs with
  | [] => ([(0, EventIdle)], false)
  | (fd, ev) :: evs =>
      if negb (fd =? wfd) then
        let '(cbs, stop) := poll_batch wfd stopping evs in ((fd, decode_events ev) :: cbs, stop)
      else if stopping then ([(0, EventStop)], true)
      else
        let '(cbs, stop) := poll_batch wfd stopping evs in ((0, EventNone) :: cbs, stop)
  end.

(** The size of the event array and the number of full rounds in a row, after a
    round that returned [n] events. *)
Definition poll_resize (size full n : Z) : Z * Z :=
  if n =? size then
    let full := full + 1 in
    if full =? 3 then (if size <? PollMaxSize then 2 * size else size, 0) else (size, full)
  else (size, 0).

End Poll.

(** ** Theorems *)

Section PollLemmas.
Context {K : Type} `{!Kernel K, !Epoll K, !EpollLaws K}.

(** [fd] is registered with the mask [ev], or the call failed and changed nothing;
    the errors that say that the registration existed already, or did not exist
    yet, are never returned. *)
Definition upsert (k : K) (p : Poll) (fd ev : Z) (r : K * option errno) : Prop :=
  (∀ fd', fd' ≠ fd → k_interest (fst r) (p_fd p) fd' = k_interest k (p_fd p) fd') ∧
  (∀ fd', k_out (fst r) fd' = k_out k fd' ∧ k_in (fst r) fd' = k_in k fd') ∧
  match snd r with
  | None => k_interest (fst r) (p_fd p) fd = Some ev
  | Some e => k_interest (fst r) (p_fd p) fd = k_interest k (p_fd p) fd ∧
              (if k_interest k (p_fd p) fd then e ≠ ENOENT else e ≠ EEXIST)
  end.

(** The first call failed with the error that the second one repairs. *)
Lemma upsert_retry k p fd ev op op' :
  k_interest (fst (sys_epoll_ctl k (p_fd p) op fd ev)) (p_fd p) fd = k_interest k (p_fd p) fd →
  upsert (fst (sys_epoll_ctl k (p_fd p) op fd ev)) p fd ev
    (sys_epoll_ctl (fst (sys_epoll_ctl k (p_fd p) op fd ev)) (p_fd p) op' fd ev) →
  upsert k p fd ev (sys_epoll_ctl (fst (sys_epoll_ctl k (p_fd p) op fd ev)) (p_fd p) op' fd ev).
Proof.
  intros E (Ho & Hs & Hr). rewrite E in Hr. split; [|split; [|done]].
  - intros fd' Hne. rewrite Ho by done. by apply epoll_ctl_other.
  - intros fd'. destruct (Hs fd') as [-> ->]. apply epoll_ctl_streams.
Qed.

Lemma upsert_mod k p fd ev : is_Some (k_interest k (p_fd p) fd) →
  upsert k p fd ev (sys_epoll_ctl k (p_fd p) EPOLL_CTL_MOD fd ev).
Proof.
  intros [i Hi]. pose proof (epoll_ctl_mod k (p_fd p) fd ev) as Hm.
  split; [intros; by apply epoll_ctl_other|]. split; [intros; by apply epoll_ctl_streams|].
  destruct (sys_epoll_ctl k (p_fd p) EPOLL_CTL_MOD fd ev) as [k' [e|]]; simpl in *; [|naive_solver].
  rewrite Hi in *. naive_solver.
Qed.

Lemma upsert_add k p fd ev : k_interest k (p_fd p) fd = None →
  upsert k p fd ev (sys_epoll_ctl k (p_fd p) EPOLL_CTL_ADD fd ev).
Proof.
  intros Hi. pose proof (epoll_ctl_add k (p_fd p) fd ev) as Hm.
  split; [intros; by apply epoll_ctl_other|]. split; [intros; by apply epoll_ctl_streams|].
  destruct (sys_epoll_ctl k (p_fd p) EPOLL_CTL_ADD fd ev) as [k' [e|]]; simpl in *; [|naive_solver].
  rewrite Hi in *. destruct Hm as [-> Hm]. split; [done|]. intros ->. destruct Hm as [Hm _].
  destruct (Hm eq_refl). done.
Qed.

Lemma Poll_add_upsert k p fd ev : upsert k p fd ev (Poll_add k p fd ev).
Proof.
  unfold Poll_add. pose proof (epoll_ctl_add k (p_fd p) fd ev) as Hm.
  destruct (k_interest k (p_fd p) fd) as [i|] eqn:Hi.
  - pose proof (upsert_retry k p fd ev EPOLL_CTL_ADD EPOLL_CTL_MOD) as Hr.
    destruct (sys_epoll_ctl k (p_fd p) EPOLL_CTL_ADD fd ev) as [k' [e|]]; simpl in *; [|naive_solver].
    rewrite bool_decide_true by naive_solver. apply Hr; [destruct Hm; congruence|].
    apply upsert_mod. destruct Hm as [-> _]. eauto.
  - pose proof (upsert_add k p fd ev Hi) as Hu.
    destruct (sys_epoll_ctl k (p_fd p) EPOLL_CTL_ADD fd ev) as [k' [e|]]; simpl in *; [|done].
    rewrite bool_decide_false; [done|]. destruct Hm as [_ Hm]. intros [= ->]. destruct (proj1 Hm eq_refl) as [? ?]. done.
Qed.

Lemma Poll_mod_upsert k p fd ev : upsert k p fd ev (Poll_mod k p fd ev).
Proof.
  unfold Poll_mod. pose proof (epoll_ctl_mod k (p_fd p) fd ev) as Hm.
  destruct (k_interest k (p_fd p) fd) as [i|] eqn:Hi.
  - pose proof (upsert_mod k p fd ev) as Hu. rewrite Hi in Hu.
    destruct (sys_epoll_ctl k (p_fd p) EPOLL_CTL_MOD fd ev) as [k' [e|]]; simpl in *; [|by apply Hu].
    rewrite bool_decide_false; [by apply Hu|]. destruct Hm as [_ Hm]. intros [= ->].
    discriminate (proj1 Hm eq_refl).
  - pose proof (upsert_retry k p fd ev EPOLL_CTL_MOD EPOLL_CTL_ADD) as Hr.
    destruct (sys_epoll_ctl k (p_fd p) EPOLL_CTL_MOD fd ev) as [k' [e|]]; simpl in *.
    + rewrite bool_decide_true by naive_solver. destruct Hm as [Hm _]. apply Hr; [congruence|].
      apply upsert_add. congruence.
    + destruct Hm as [[? ?] _]. congruence.
Qed.

(** Registering a descriptor with the poller is an upsert.  [AddRead] (which
    falls back from ADD to MOD) and [ModRead]/[ModReadWrite] (which fall back from
    MOD to ADD) leave the descriptor registered with exactly the requested events
    when they return no error, whether or not it was registered before; a failing
    call leaves the registration as it was, and never fails just because the
    descriptor was, or was not, registered; other descriptors and all byte streams
    are untouched. *)
Theorem poll_registration_is_upsert (k : K) (p : Poll) (fd : Z) :
  upsert k p fd (Z.lor EPOLLIN EPOLLPRI) (Poll_AddRead k p fd) ∧
  upsert k p fd (Z.lor EPOLLIN EPOLLPRI) (Poll_ModRead k p fd) ∧
  upsert k p fd (Z.lor (Z.lor EPOLLIN EPOLLPRI) EPOLLOUT) (Poll_AddReadWrite k p fd) ∧
  upsert k p fd (Z.lor (Z.lor EPOLLIN EPOLLPRI) EPOLLOUT) (Poll_ModReadWrite k p fd).
Proof.
  split_and!; [apply Poll_add_upsert|apply Poll_mod_upsert|apply Poll_add_upsert|apply Poll_mod_upsert].
Qed.

End PollLemmas.

(** The array of events starts with 1024 entries and doubles up to 8192. *)
Lemma poll_resize_bounds size full n : size ∈ [1024; 2048; 4096; 8192] →
  fst (poll_resize size full n) ∈ [1024; 2048; 4096; 8192].
Proof.
  intros Hs. assert (size = 1024 ∨ size = 2048 ∨ size = 4096 ∨ size = 8192) as Hc by set_solver.
  unfold poll_resize. gcase; [|done]. gcase; [|done]. cbn [fst].
  destruct Hc as [->|[->|[->| ->]]]; simpl; set_solver.
Qed.

(** A stop request ends the batch: no callback follows it. *)
Lemma poll_batch_stop wfd stopping evs cbs : poll_batch wfd stopping evs = (cbs, true) →
  ∃ cbs', cbs = cbs' ++ [(0, EventStop)].
Proof.
  revert cbs. induction evs as [|[fd ev] evs IH]; intros cbs; simpl; [done|].
  destruct (poll_batch wfd stopping evs) as [cbs0 stop]. repeat gcase; intros; simplify_eq.
  - destruct (IH _ eq_refl) as [cbs' ->]. by exists ((fd, decode_events ev) :: cbs').
  - by exists [].
  - destruct (IH _ eq_refl) as [cbs' ->]. by exists ((0, EventNone) :: cbs').
Qed.

(** A round that does not stop ends with the idle callback. *)
Lemma poll_batch_idle wfd stopping evs cbs : poll_batch wfd stopping evs = (cbs, false) →
  ∃ cbs', cbs = cbs' ++ [(0, EventIdle)].
Proof.
  revert cbs. induction evs as [|[fd ev] evs IH]; intros cbs; simpl; [intros; simplify_eq; by exists []|].
  destruct (poll_batch wfd stopping evs) as [cbs0 stop]. repeat gcase; intros; simplify_eq.
  - destruct (IH _ eq_refl) as [cbs' ->]. by exists ((fd, decode_events ev) :: cbs').
  - destruct (IH _ eq_refl) as [cbs' ->]. by exists ((0, EventNone) :: cbs').
Qed.

(** ** An epoll for the witnesses *)

(** A test kernel with the interest list of its one epoll descriptor. *)
Record TestEpoll := mkTE { te_k : TestKernel; te_set : gmap Z Z }.

#[export] Instance TE_Kernel : Kernel TestEpoll := {
  sys_read k fd n := let '(k', d, r, e) := sys_read (te_k k) fd n in (mkTE k' (te_set k), d, r, e);
  sys_write k fd b := let '(k', n, e) := sys_write (te_k k) fd b in (mkTE k' (te_set k), n, e);
  sys_writev k fd bs := let '(k', n, e) := sys_writev (te_k k) fd bs in (mkTE k' (te_set k), n, e);
  sys_shutdown k fd := (k, None);
  sys_close k fd := (mkTE (te_k k) (delete fd (te_set k)), None);
  k_out k := k_out (te_k k);
  k_in k := k_in (te_k k);
}.

#[export] Instance TE_KernelLaws : KernelLaws TestEpoll.
Proof.
  split.
  - intros k fd bs. pose proof (sys_writev_ok (te_k k) fd bs) as H. simpl in *. by destruct (tk_send _ _ _) as [[? ?] ?].
  - intros k fd b. pose proof (sys_write_ok (te_k k) fd b) as H. simpl in *. by destruct (tk_send _ _ _) as [[? ?] ?].
  - intros k fd m. pose proof (sys_read_ok (te_k k) fd m) as H. simpl in *. by destruct (tk_recv _ _ _) as [[[? ?] ?] ?].
  - done.
Qed.

Definition te_ctl (k : TestEpoll) (op fd ev : Z) : TestEpoll * option errno :=
  match te_set k !! fd with
  | None => if op =? EPOLL_CTL_ADD then (mkTE (te_k k) (<[fd := ev]> (te_set k)), None) else (k, Some ENOENT)
  | Some _ =>
      if op =? EPOLL_CTL_ADD then (k, Some EEXIST)
      else if op =? EPOLL_CTL_MOD then (mkTE (te_k k) (<[fd := ev]> (te_set k)), None)
      else if op =? EPOLL_CTL_DEL then (mkTE (te_k k) (delete fd (te_set k)), None) else (k, Some EINVAL)
  end.

#[export] Instance TE_Epoll : Epoll TestEpoll := {
  sys_epoll_ctl k epfd op fd ev := te_ctl k op fd ev;
  k_interest k epfd fd := te_set k !! fd;
}.

#[export] Instance TE_EpollLaws : EpollLaws TestEpoll.
Proof.
  split; intros; simpl; unfold te_ctl.
  - repeat case_match; done.
  - repeat case_match; simpl; try done; by simplify_map_eq.
  - destruct (te_set k !! fd) eqn:E; simpl; [split; [done|]|by simplify_map_eq]. split; eauto.
  - destruct (te_set k !! fd) eqn:E; simpl; [by simplify_map_eq; eauto|done].
  - destruct (te_set k !! fd) eqn:E; simpl; by simplify_map_eq.
Qed.

Lemma poll_registration_is_upsert_witness :
  let k := mkTE (mkTK 64 0 [] [] []) {[ 7 := 3 ]} in let p := mkPoll 0 3 4 (-1) 0 in
  upsert k p 7 (Z.lor EPOLLIN EPOLLPRI) (Poll_AddRead k p 7) ∧
  upsert k p 7 (Z.lor EPOLLIN EPOLLPRI) (Poll_ModRead k p 7) ∧
  upsert k p 7 (Z.lor (Z.lor EPOLLIN EPOLLPRI) EPOLLOUT) (Poll_AddReadWrite k p 7) ∧
  upsert k p 7 (Z.lor (Z.lor EPOLLIN EPOLLPRI) EPOLLOUT) (Poll_ModReadWrite k p 7).
Proof. apply (poll_registration_is_upsert (mkTE (mkTK 64 0 [] [] []) {[ 7 := 3 ]}) (mkPoll 0 3 4 (-1) 0) 7). Defined.
