(* ===== verification/PollLoop.v ===== *)
(** * internal/poll_linux.go: opening, running and stopping a poller

    [OpenPoll] over the system calls of [Poller.v], and the goroutine in [Poll] together with the
    goroutines that call [Trigger] and [Close], as steps that interleave.  The wake descriptor is
    an eventfd: a counter that a write adds to and a read resets, readable while it is not 0.
    A batch of events processed without interference makes the callbacks of [poll_batch]. *)

From stdpp Require Import relations.
From S2P Require Import Prelude Pool Tuning WriteQueue RingBuffer Conn Poller.

(** ** Opening *)

Section Open.
Context {K : Type} `{!Kernel K, !Epoll K}.

(** [create] and [efd] are the answers of epoll_create1 and eventfd2; [None] is nil. *)
Definition OpenPoll (k : K) (id : Z) (create efd : Z + errno) : K * option Poll :=
  match create with
  | inr _ => (k, None)
  | inl fd =>
      match efd with
      | inr _ => ((sys_close k fd).1, None)
      | inl wfd =>
          let l := mkPoll id fd wfd (-1) 0 in
          let '(k, err) := Poll_AddRead k l wfd in
          match err with
          | Some _ => ((sys_close (sys_close k fd).1 wfd).1, None)
          | None => (k, Some l)
          end
      end
  end.
End Open.

(** ** Running and stopping *)

(** Where the goroutine of [Poll] is: before EpollWait, with events still to handle, between the
    read of the wake descriptor and the load of [stopping], or returned. *)
Inductive poll_pc := PWait | PBatch (evs : list (Z * Z)) (n : Z) | PLoad (evs : list (Z * Z)) (n : Z) | PDone.

(** Where the goroutine that calls [Close] is. *)
Inductive close_pc := CIdle | CStored | CWaiting | CReturned.

Record PollSys := mkPS {
  ps_pc : poll_pc; ps_close : close_pc; ps_stopping : bool; ps_count : Z;
  ps_size : Z; ps_full : Z;               (* the length of [evs], and [full] *)
  ps_cbs : list (Z * Z);                  (* the callbacks so far *)
  ps_open : bool;                         (* the descriptors are open *)
}.

Definition ps_goto (s : PollSys) (pc : poll_pc) (cbs : list (Z * Z)) : PollSys :=
  mkPS pc (ps_close s) (ps_stopping s) (ps_count s) (ps_size s) (ps_full s) (ps_cbs s ++ cbs) (ps_open s).

Definition ps_init : PollSys := mkPS PWait CIdle false 0 PollInitSize 0 [] true.

Section Steps.
Variable wfd : Z.

(** What EpollWait answers: at most as many events as fit, among them the wake descriptor exactly
    while it is readable. *)
Definition wait_answer (s : PollSys) (evs : list (Z * Z)) : Prop :=
  len evs ≤ ps_size s ∧ (wfd ∈ evs.*1 ↔ 0 < ps_count s).

(** A step of the goroutine of [Poll]. *)
Inductive poll_step : PollSys → PollSys → Prop :=
| PS_wait s evs : ps_pc s = PWait → wait_answer s evs → poll_step s (ps_goto s (PBatch evs (len evs)) [])
| PS_event s fd ev evs n : ps_pc s = PBatch ((fd, ev) :: evs) n → fd ≠ wfd →
    poll_step s (ps_goto s (PBatch evs n) [(fd, decode_events ev)])
| PS_read s ev evs n : ps_pc s = PBatch ((wfd, ev) :: evs) n →
    poll_step s (mkPS (PLoad evs n) (ps_close s) (ps_stopping s) 0 (ps_size s) (ps_full s) (ps_cbs s) (ps_open s))
| PS_stop s evs n : ps_pc s = PLoad evs n → ps_stopping s = true →
    poll_step s (mkPS PDone (ps_close s) true (ps_count s) (ps_size s) (ps_full s) (ps_cbs s ++ [(0, EventStop)]) false)
| PS_wake s evs n : ps_pc s = PLoad evs n → ps_stopping s = false → poll_step s (ps_goto s (PBatch evs n) [(0, EventNone)])
| PS_idle s n : ps_pc s = PBatch [] n →
    poll_step s (mkPS PWait (ps_close s) (ps_stopping s) (ps_count s) (poll_resize (ps_size s) (ps_full s) n).1
      (poll_resize (ps_size s) (ps_full s) n).2 (ps_cbs s ++ [(0, EventIdle)]) (ps_open s)).

(** A wait that does not tell of the wake: it was interrupted, it failed, or the array is full of
    other events. *)
Inductive unlucky_step : PollSys → PollSys → Prop :=
| US_intr s : ps_pc s = PWait → unlucky_step s (ps_goto s (PBatch [] (-1)) [])
| US_error s : ps_pc s = PWait → unlucky_step s s
| US_full s evs : ps_pc s = PWait → len evs = ps_size s → wfd ∉ evs.*1 → unlucky_step s (ps_goto s (PBatch evs (len evs)) []).

(** A step of another goroutine: [Trigger], and [Close] in its three steps.  The write of a wake
    fails once the poller has closed the descriptor, and [Close] returns the error. *)
Inductive other_step : PollSys → PollSys → Prop :=
| OS_trigger s :
    other_step s (mkPS (ps_pc s) (ps_close s) (ps_stopping s) (if ps_open s then ps_count s + 1 else ps_count s) (ps_size s) (ps_full s) (ps_cbs s) (ps_open s))
| OS_store s : ps_close s = CIdle →
    other_step s (mkPS (ps_pc s) CStored true (ps_count s) (ps_size s) (ps_full s) (ps_cbs s) (ps_open s))
| OS_close s : ps_close s = CStored →
    other_step s (mkPS (ps_pc s) (if ps_open s then CWaiting else CReturned) (ps_stopping s) (if ps_open s then ps_count s + 1 else ps_count s)
      (ps_size s) (ps_full s) (ps_cbs s) (ps_open s))
| OS_return s : ps_close s = CWaiting → ps_pc s = PDone →
    other_step s (mkPS (ps_pc s) CReturned (ps_stopping s) (ps_count s) (ps_size s) (ps_full s) (ps_cbs s) (ps_open s)).

Definition step (s s' : PollSys) : Prop := poll_step s s' ∨ unlucky_step s s' ∨ other_step s s'.

(** ** The invariant *)

Definition ended (pc : poll_pc) : bool := match pc with PDone => true | _ => false end.
Definition loading (pc : poll_pc) : bool := match pc with PLoad _ _ | PDone => true | _ => false end.
Definition batch_len (pc : poll_pc) : Z := match pc with PBatch evs _ | PLoad evs _ => len evs | _ => 0 end.

Record ps_inv (s : PollSys) : Prop := {
  pi_count : 0 ≤ ps_count s;
  pi_stopping : ps_stopping s = true ↔ ps_close s ≠ CIdle;
  (* the wake of [Close] is not lost *)
  pi_waiting : ps_close s = CWaiting → 0 < ps_count s ∨ loading (ps_pc s) = true;
  pi_open : ps_open s = negb (ended (ps_pc s));
  pi_returned : ps_close s = CReturned → ended (ps_pc s) = true;
  pi_running : ended (ps_pc s) = false → EventStop ∉ (ps_cbs s).*2;
  pi_done : ended (ps_pc s) = true → ∃ cbs, ps_cbs s = cbs ++ [(0, EventStop)] ∧ EventStop ∉ cbs.*2;
  pi_size : ps_size s ∈ [1024; 2048; 4096; 8192];
  pi_batch : batch_len (ps_pc s) ≤ 8192;
}.

Lemma decode_not_stop ev : decode_events ev ≠ EventStop.
Proof. unfold decode_events. by repeat (case_match); cbn. Qed.

Lemma size_bound (z : Z) : z ∈ [1024; 2048; 4096; 8192] → z ≤ 8192.
Proof. set_unfold. lia. Qed.

Lemma ps_init_inv : ps_inv ps_init.
Proof. split; cbn; try done; try lia; set_solver. Qed.

Lemma not_stop_app (cbs : list (Z * Z)) (fd ev : Z) : EventStop ∉ cbs.*2 → ev ≠ EventStop → EventStop ∉ (cbs ++ [(fd, ev)]).*2.
Proof. intros H1 H2. rewrite fmap_app, not_elem_of_app. split; [done|]. cbn. rewrite list_elem_of_singleton. by apply not_eq_sym. Qed.

Ltac ps_case := cbn in *; subst; split; cbn in *; rewrite ?app_nil_r; try done; try lia; try tauto; try (by intros ?%size_bound).

Lemma poll_step_inv s s' : ps_inv s → poll_step s s' → ps_inv s'.
Proof.
  intros [Ic Is Iw Io Ir Irun Id Isz Ib] H. pose proof (size_bound _ Isz) as Hsz.
  destruct H as [s evs E [Ha _]|s fd ev evs n E Hne|s ev evs n E|s evs n E Est|s evs n E Est|s n E];
    destruct s as [pc cl st co sz fu cbs op]; ps_case.
  - intros _. apply not_stop_app; [by apply Irun | apply decode_not_stop].
  - intros _. eexists. split; [done | by apply Irun].
  - intros Hcl. assert (false = true); [apply Is; by rewrite Hcl | done].
  - intros _. apply not_stop_app; [by apply Irun | done].
  - intros _. apply not_stop_app; [by apply Irun | done].
  - by apply poll_resize_bounds.
Qed.

Lemma unlucky_step_inv s s' : ps_inv s → unlucky_step s s' → ps_inv s'.
Proof.
  intros HI H. pose proof HI as [Ic Is Iw Io Ir Irun Id Isz Ib]. pose proof (size_bound _ Isz) as Hsz.
  destruct H as [s E|s E|s evs E Hl Hn]; [|done|]; destruct s as [pc cl st co sz fu cbs op]; ps_case.
Qed.

Lemma other_step_inv s s' : ps_inv s → other_step s s' → ps_inv s'.
Proof.
  intros [Ic Is Iw Io Ir Irun Id Isz Ib] H. destruct H as [s|s E|s E|s E Ed]; destruct s as [pc cl st co sz fu cbs op]; ps_case.
  - destruct (ended pc); cbn; lia.
  - intros Hc. destruct (Iw Hc); [left; destruct (ended pc); cbn; lia | by right].
  - destruct (ended pc); cbn; lia.
  - split; [by destruct (ended pc) | intros _; by apply Is].
  - intros _. destruct (ended pc) eqn:He; cbn; [|left; lia]. by destruct pc; right.
  - by destruct (ended pc).
  - split; [done | intros _; by apply Is].
Qed.

Lemma reach_inv s : rtc step ps_init s → ps_inv s.
Proof.
  assert (Hs : ∀ s s', rtc step s s' → ps_inv s → ps_inv s').
  { induction 1 as [|s1 s2 s3 [H|[H|H]] _ IH]; intros HI; [done | apply IH..];
      [by eapply poll_step_inv | by eapply unlucky_step_inv | by eapply other_step_inv]. }
  intros H. by eapply Hs; [|apply ps_init_inv].
Qed.

(** ** Stopping *)

Fixpoint wake_pos (evs : list (Z * Z)) : option Z :=
  match evs with
  | [] => None
  | (fd, _) :: evs => if fd =? wfd then Some 0 else n ← wake_pos evs; Some (n + 1)
  end.

Lemma wake_pos_spec evs : match wake_pos evs with Some n => 0 ≤ n < len evs | None => wfd ∉ evs.*1 end.
Proof.
  induction evs as [|[fd ev] evs IH]; cbn; [by apply not_elem_of_nil|]. destruct (Z.eqb_spec fd wfd) as [->|Hne]; [lia|].
  destruct (wake_pos evs); cbn; [lia|]. apply not_elem_of_cons. by split; [apply not_eq_sym|].
Qed.

(** The steps to the end once [Close] has woken the poller. *)
Definition distance (pc : poll_pc) : Z :=
  match pc with
  | PDone => 0
  | PLoad _ _ => 1
  | PBatch evs _ => match wake_pos evs with Some n => n + 2 | None => len evs + 1 + (8192 + 3) end
  | PWait => 8192 + 3
  end.

Lemma poll_step_closer s s' : ps_inv s → ps_close s = CWaiting → poll_step s s' → ps_close s' = CWaiting ∧ 0 ≤ distance (ps_pc s') < distance (ps_pc s).
Proof.
  intros HI Hc H. pose proof (size_bound _ (pi_size _ HI)) as Hsz.
  destruct H as [s evs E [Ha Hw]|s fd ev evs n E Hne|s ev evs n E|s evs n E Est|s evs n E Est|s n E]; (split; [done|]); rewrite E; cbn.
  - destruct (pi_waiting _ HI Hc) as [H|H]; [|by rewrite E in H]. pose proof (wake_pos_spec evs) as Hp.
    destruct (wake_pos evs); [lia|]. destruct Hp. by apply Hw.
  - rewrite (proj2 (Z.eqb_neq fd wfd) Hne). pose proof (wake_pos_spec evs) as Hp. destruct (wake_pos evs); cbn; lia.
  - rewrite Z.eqb_refl. lia.
  - lia.
  - assert (ps_stopping s = true) by (apply (pi_stopping _ HI); by rewrite Hc). congruence.
  - lia.
Qed.

Lemma unlucky_step_closer s s' : ps_inv s → unlucky_step s s' → ps_close s' = ps_close s ∧ distance (ps_pc s') ≤ distance (ps_pc s) + 8193.
Proof.
  intros HI H. pose proof (size_bound _ (pi_size _ HI)) as Hsz.
  destruct H as [s E|s E|s evs E Hl Hn]; (split; [done|]); rewrite E; cbn; [lia..|].
  pose proof (wake_pos_spec evs). destruct (wake_pos evs); lia.
Qed.

(** [a] steps of the poller and [u] unlucky waits, with any steps of others in between. *)
Inductive run : nat → nat → PollSys → PollSys → Prop :=
| run_nil s : run 0 0 s s
| run_poll a u s1 s2 s3 : poll_step s1 s2 → run a u s2 s3 → run (S a) u s1 s3
| run_unlucky a u s1 s2 s3 : unlucky_step s1 s2 → run a u s2 s3 → run a (S u) s1 s3
| run_other a u s1 s2 s3 : other_step s1 s2 → run a u s2 s3 → run a u s1 s3.

Lemma run_bound a u s s' : run a u s s' → ps_inv s → ps_close s = CWaiting ∨ ps_pc s = PDone →
  Z.of_nat a ≤ distance (ps_pc s) + 8193 * Z.of_nat u.
Proof.
  induction 1 as [s|a u s1 s2 s3 H _ IH|a u s1 s2 s3 H _ IH|a u s1 s2 s3 H _ IH]; intros HI Hc.
  - assert (0 ≤ distance (ps_pc s)); [|lia]. destruct (ps_pc s); cbn; try lia. pose proof (wake_pos_spec evs). destruct (wake_pos evs); lia.
  - destruct Hc as [Hc|Hd]; [|exfalso; inversion H; congruence]. destruct (poll_step_closer _ _ HI Hc H) as [Hc' Hd].
    specialize (IH (poll_step_inv _ _ HI H) (or_introl Hc')). lia.
  - destruct (unlucky_step_closer _ _ HI H) as [Hc' Hd].
    assert (ps_close s1 = CWaiting) as Hw by (destruct Hc as [|Hp]; [done|]; exfalso; inversion H; congruence).
    rewrite Hw in Hc'. specialize (IH (unlucky_step_inv _ _ HI H) (or_introl Hc')). lia.
  - assert (ps_pc s2 = ps_pc s1) as Hp by (by destruct H). rewrite <- Hp. apply IH; [by eapply other_step_inv|]. rewrite Hp.
    destruct Hc as [Hc|]; [|by right]. destruct H; cbn in *; rewrite ?Hc; auto; congruence.
Qed.

(** C24: When [Close] of a poller returns, the goroutine of [Poll] has returned and closed its
    descriptors, and its last callback, and no other, was the stop.  Once [Close] has written its
    wake and waits, the goroutine can always take its next step, and in any interleaving it takes
    at most 16388 of them, and 8193 more for each wait that fails or returns a full array without
    the wake: the wake of [Close] is never lost to another wake. *)
Theorem poll_close_stops (s : PollSys) : rtc step ps_init s →
  (ps_close s = CReturned → ps_pc s = PDone ∧ ps_open s = false ∧ ∃ cbs, ps_cbs s = cbs ++ [(0, EventStop)] ∧ EventStop ∉ cbs.*2) ∧
  (ps_close s = CWaiting → ps_pc s ≠ PDone → ∃ s', poll_step s s') ∧
  (ps_close s = CWaiting → ∀ a u s', run a u s s' → Z.of_nat a ≤ 16388 + 8193 * Z.of_nat u).
Proof.
  intros HI%reach_inv. split_and!.
  - intros Hr%(pi_returned _ HI). split; [by destruct (ps_pc s)|]. rewrite (pi_open _ HI), Hr. split; [done|]. by apply (pi_done _ HI).
  - intros Hc Hd. destruct (ps_pc s) as [|[|[fd ev] evs] n|evs n|] eqn:E; [ | eexists; by eapply PS_idle | | | done].
    + destruct (pi_waiting _ HI Hc) as [Hw|Hw]; [|by rewrite E in Hw]. exists (ps_goto s (PBatch [(wfd, EPOLLIN)] 1) []).
      apply (PS_wait s [(wfd, EPOLLIN)] E). split; [|split; [done | intros _; cbn; set_solver]].
      pose proof (pi_size _ HI) as Hs. cbn. set_unfold. lia.
    + destruct (decide (fd = wfd)) as [->|]; eexists; [by eapply PS_read | by eapply PS_event].
    + destruct (ps_stopping s) eqn:Est; eexists; [by eapply PS_stop | by eapply PS_wake].
  - intros Hc a u s' H. pose proof (run_bound _ _ _ _ H HI (or_introl Hc)). pose proof (pi_batch _ HI) as Hb.
    assert (distance (ps_pc s) ≤ 16388); [|lia]. destruct (ps_pc s); cbn in *; try lia. pose proof (wake_pos_spec evs). destruct (wake_pos evs); lia.
Qed.

(** A batch handled without interference makes the callbacks of [poll_batch]. *)
Lemma batch_callbacks evs : ∀ s n, ps_pc s = PBatch evs n → ∃ s', rtc poll_step s s' ∧
  let '(cbs, stop) := poll_batch wfd (ps_stopping s) evs in
  ps_cbs s' = ps_cbs s ++ cbs ∧ ps_pc s' = (if stop then PDone else PWait) ∧ ps_size s' = if stop then ps_size s else (poll_resize (ps_size s) (ps_full s) n).1.
Proof.
  induction evs as [|[fd ev] evs IH]; intros s n E; cbn [poll_batch].
  { eexists. split; [by eapply rtc_once, PS_idle | done]. }
  destruct (Z.eqb_spec fd wfd) as [->|Hne]; cbn [negb]; [destruct (ps_stopping s) eqn:Est|].
  - eexists. split; [eapply rtc_l; [by eapply PS_read|]; by eapply rtc_once, PS_stop | done].
  - destruct (IH (mkPS (PBatch evs n) (ps_close s) false 0 (ps_size s) (ps_full s) (ps_cbs s ++ [(0, EventNone)]) (ps_open s)) n eq_refl) as (s' & Hr & Hs).
    exists s'. split; [eapply rtc_l; [by eapply PS_read|]; eapply rtc_l; [by eapply PS_wake|]; cbn; by rewrite Est |].
    cbn in Hs. destruct (poll_batch wfd false evs) as [cbs stop]. by rewrite <- app_assoc in Hs.
  - destruct (IH (ps_goto s (PBatch evs n) [(fd, decode_events ev)]) n eq_refl) as (s' & Hr & Hs).
    exists s'. split; [eapply rtc_l; [by eapply PS_event|done]|].
    cbn in Hs. destruct (poll_batch wfd (ps_stopping s) evs) as [cbs stop]. by rewrite <- app_assoc in Hs.
Qed.
End Steps.

(** [Close] wakes a poller that another goroutine has just woken. *)
Lemma poll_close_stops_witness :
  let s := mkPS PDone CReturned true 0 1024 0 [(9, EventRead); (0, EventStop)] false in
  rtc (step 4) ps_init s ∧ ∃ cbs, ps_cbs s = cbs ++ [(0, EventStop)] ∧ EventStop ∉ cbs.*2.
Proof.
  assert (Hr : rtc (step 4) ps_init (mkPS PDone CReturned true 0 1024 0 [(9, EventRead); (0, EventStop)] false)).
  { eapply rtc_l; [right; right; apply OS_trigger|]. eapply rtc_l; [right; right; by apply OS_store|].
    eapply rtc_l; [left; apply (PS_wait 4 _ [(9, EPOLLIN); (4, EPOLLIN)]); [done | split; [done | split; [done | intros _; cbn; set_solver]]]|].
    eapply rtc_l; [left; by eapply PS_event|]. eapply rtc_l; [right; right; by apply OS_close|]. eapply rtc_l; [left; by eapply PS_read|].
    eapply rtc_l; [left; by eapply PS_stop|]. eapply rtc_l; [right; right; by apply OS_return|]. apply rtc_refl. }
  split; [exact Hr|]. destruct (poll_close_stops 4 _ Hr) as [H _]. by destruct (H eq_refl) as (_ & _ & Hc).
Defined.

(** Another wake between the store of [stopping] and the write of [Close]: the poller returns and
    closes the wake descriptor, and [Close] writes to a descriptor that is not its own any more. *)
Example close_writes_to_closed_descriptor :
  ∃ s, rtc (step 4) ps_init s ∧ ps_close s = CStored ∧ ps_open s = false.
Proof.
  eexists. split.
  { eapply rtc_l; [right; right; apply OS_trigger|].
    eapply rtc_l; [left; apply (PS_wait 4 _ [(4, EPOLLIN)]); [done | split; [done | split; [done | intros _; cbn; set_solver]]]|].
    eapply rtc_l; [left; by eapply PS_read|]. eapply rtc_l; [right; right; by apply OS_store|]. eapply rtc_l; [left; by eapply PS_stop|]. apply rtc_refl. }
  done.
Qed.

Section OpenSpec.
Context {K : Type} `{!Kernel K, !Epoll K, !EpollLaws K}.

(** A poller that is opened blocks without a limit, is not stopping, and is registered for its wake
    descriptor; no poller is returned with a descriptor that could not be registered. *)
Lemma OpenPoll_spec (k : K) id create efd : match OpenPoll k id create efd with
  | (k', Some p) => create = inl (p_fd p) ∧ efd = inl (p_wfd p) ∧ p_wait p = -1 ∧ p_stopping p = 0 ∧
      k_interest k' (p_fd p) (p_wfd p) = Some (Z.lor EPOLLIN EPOLLPRI)
  | (_, None) => True
  end.
Proof.
  unfold OpenPoll. destruct create as [fd|]; [|done]. destruct efd as [wfd|]; [|done].
  pose proof (Poll_add_upsert k (mkPoll id fd wfd (-1) 0) wfd (Z.lor EPOLLIN EPOLLPRI)) as Hu. unfold Poll_AddRead.
  destruct (Poll_add k _ wfd _) as [k' [e|]]; [done|]. destruct Hu as (_ & _ & Hu). by split_and!.
Qed.
End OpenSpec.
