(* ===== verification/Dialer.v ===== *)
(** * dial.go, dial_linux.go, dialmng.go: the output buffer of a dialled connection

    A [Dialer] keeps buffers that the application added and that [DialerMng.Polling]
    writes to the socket.  The state of the manager is in [DialMng.v]. *)

From S2P Require Import Prelude Conn.

(** The fields that the buffer, the polling and the statistics use. *)
Record Dialer := mkDialer {
  d_fd : Z; d_bufs : list (list Z); d_bufLen : Z; d_lastFlush : Z; d_lastProbe : Z; d_score : Z }.

Definition d_set (d : Dialer) (bufs : list (list Z)) (bufLen lastFlush : Z) : Dialer :=
  mkDialer (d_fd d) bufs bufLen lastFlush (d_lastProbe d) (d_score d).

Definition AddBuf (d : Dialer) (buf : list Z) : Dialer * Z :=
  let bufs := d_bufs d ++ [buf] in
  (d_set d bufs (len bufs) (d_lastFlush d), len bufs).

Definition BufLen (d : Dialer) : Z := d_bufLen d.
Definition LastFlush (d : Dialer) : Z := d_lastFlush d.

Section Flush.
Context {K : Type} `{!Kernel K}.
Implicit Types (k : K) (d : Dialer).

(** [now] is the time in milliseconds; [None] is the panic of [d.bufs[0]]. *)
Definition flushOne k d (now : Z) : option (K * Dialer * option errno) :=
  b ← index (d_bufs d) 0;
  let '(k, n, err) := sys_write k (d_fd d) b in
  match err with
  | Some e => Some (k, d, if bool_decide (e = EAGAIN) then None else Some e)
  | None =>
      bufs ← (if len b =? n then Some [] else b ← slice b n (len b); store (d_bufs d) 0 b);
      Some (k, d_set d bufs (len bufs) now, None)
  end.

(** The loop that drops [n] written bytes: [pos] is the index of the first buffer kept, and
    stays 0 when the loop ends without [break]. *)
Fixpoint drop_written (i n : Z) (bufs : list (list Z)) : list (list Z) * Z :=
  match bufs with
  | [] => ([], 0)
  | b :: bufs =>
      if n <? len b then (drop (Z.to_nat n) b :: bufs, i)
      else let '(bufs, pos) := drop_written (i + 1) (n - len b) bufs in (b :: bufs, pos)
  end.

Definition flushVec k d (now : Z) : option (K * Dialer * option errno) :=
  let cnt := Z.min 512 (len (d_bufs d)) in
  let vec := take (Z.to_nat cnt) (d_bufs d) in
  let sum := len (concat vec) in
  let '(k, n, err) := sys_writev k (d_fd d) vec in
  match err with
  | Some e => Some (k, d, if bool_decide (e = EAGAIN) then None else Some e)
  | None =>
      if n <? sum then
        let '(bufs, pos) := drop_written 0 n (d_bufs d) in
        bufs ← slice bufs pos (len bufs);
        Some (k, d_set d bufs (len bufs) now, None)
      else Some (k, d_set d [] (d_bufLen d) (d_lastFlush d), None)
  end.

(** [Flush] reads [bufLen] before it takes the lock: [seen] is what it read. *)
Definition flush_seen (seen : Z) k d (now : Z) : option (K * Dialer * option errno) :=
  if 1 <? seen then flushVec k d now
  else if seen =? 1 then flushOne k d now
  else Some (k, d, None).

Definition Flush k d (now : Z) : option (K * Dialer * option errno) := flush_seen (BufLen d) k d now.

(** One visit of [Polling]; the flag says that the connection is told to close. *)
Definition Polling_visit k d (now : Z) : option (K * Dialer * bool) :=
  if (16 <? BufLen d) || (5 <=? now - LastFlush d) then
    '(k, d, err) ← Flush k d now;
    Some (k, d, bool_decide (err ≠ None) || (5000 <? BufLen d))
  else Some (k, d, false).

End Flush.

(** ** Statistics and probes *)

(** The score of a dialer after an interval in which it sent and received so much. *)
Definition update_score (send recv score : Z) : Z :=
  let score :=
    if 0 <? send then
      if recv =? 0 then score - 1
      else if 10 <? Z.quot send recv then score - 1
      else score + 1
    else if 0 <=? recv then score + 1 else score in
  if 180 <? score then 180 else score.

(** One visit of [Stat] to a dialer that has a connection, given the counters of the
    connection, [lastRecv], and what [probeCb] returns if it is set; the commands are those
    passed to [AddCmd]. *)
Definition Stat_visit (print : bool) (probes : option (list Z)) (now send recv lastRecv : Z) (d : Dialer) :
    Dialer * Z * list (Z * list Z) :=
  let scored d := if print then mkDialer (d_fd d) (d_bufs d) (d_bufLen d) (d_lastFlush d) (d_lastProbe d) (update_score send recv (d_score d)) else d in
  let probed := match probes with Some p => if (recv =? 0) && (0 <? len p) then Some p else None | None => None end in
  match probed with
  | None => (scored d, lastRecv, [])
  | Some p =>
      if negb (lastRecv =? 0) && (10 <? d_lastProbe d - lastRecv) then (d, lastRecv, [(CMD_CLOSE, [])])
      else
        (scored (mkDialer (d_fd d) (d_bufs d) (d_bufLen d) (d_lastFlush d) now (d_score d)),
         if lastRecv =? 0 then now else lastRecv, [(CMD_DATA, p)])
  end.

(** ** What a flush does *)

Section FlushLemmas.
Context {K : Type} `{KL : KernelLaws K}.
Implicit Types (k : K) (d : Dialer).

(** [bufLen] is the number of buffers; after a full vectored write it still is what it was. *)
Definition dialer_inv d : Prop := d_bufLen d = len (d_bufs d) ∨ d_bufs d = [] ∧ 1 < d_bufLen d.

Lemma drop_written_spec bufs : ∀ i n, 0 ≤ i → 0 ≤ n < len (concat bufs) →
  let '(bufs', pos) := drop_written i n bufs in
  i ≤ pos ≤ i + len bufs' ∧ concat (drop (Z.to_nat (pos - i)) bufs') = drop (Z.to_nat n) (concat bufs).
Proof.
  induction bufs as [|b bufs IH]; intros i n Hi Hn; cbn [concat length] in *; [lia|].
  cbn [drop_written]. rewrite length_app in Hn. destruct (Z.ltb_spec n (len b)).
  - split; [cbn [length]; lia|]. rewrite Z.sub_diag. cbn [drop concat Z.to_nat]. rewrite drop_app_le by lia. done.
  - specialize (IH (i + 1) (n - len b) ltac:(lia) ltac:(lia)). destruct (drop_written _ _ _) as [bufs' pos]. destruct IH as [Hp Hc].
    split; [cbn [length]; lia|]. replace (Z.to_nat (pos - i)) with (S (Z.to_nat (pos - (i + 1)))) by lia. cbn [drop].
    rewrite Hc, drop_app_ge by lia. f_equal. lia.
Qed.

(** What a flush does to the buffers and to the socket: [sent] is a prefix of the buffers. *)
Definition flush_ok k d k' d' (err : option errno) : Prop :=
  ∃ sent, k_out k' (d_fd d) = k_out k (d_fd d) ++ sent ∧ sent ++ concat (d_bufs d') = concat (d_bufs d) ∧
    (err ≠ None → sent = []) ∧ d_fd d' = d_fd d ∧ dialer_inv d' ∧
    (∀ fd, fd ≠ d_fd d → k_out k' fd = k_out k fd) ∧ (∀ fd, k_in k' fd = k_in k fd).

Lemma flush_same k d k' err : dialer_inv d → (∀ fd, k_out k' fd = k_out k fd) → (∀ fd, k_in k' fd = k_in k fd) →
  flush_ok k d k' d err.
Proof. intros Hi Ho Hin. exists []. rewrite app_nil_r. split_and!; auto. Qed.

Lemma out_unchanged k k' fd : k_out k' fd = k_out k fd → (∀ fd', fd' ≠ fd → k_out k' fd' = k_out k fd') →
  ∀ fd', k_out k' fd' = k_out k fd'.
Proof. intros He Hne fd'. destruct (decide (fd' = fd)) as [->|]; auto. Qed.

Lemma flushOne_spec k d now b : dialer_inv d → d_bufs d = [b] →
  ∃ k' d' err, flushOne k d now = Some (k', d', err) ∧ flush_ok k d k' d' err.
Proof.
  intros Hi Hb. unfold flushOne. rewrite Hb. change (index [b] 0) with (Some b). cbn [mbind option_bind].
  pose proof (sys_write_ok k (d_fd d) b) as Hw. destruct (sys_write k (d_fd d) b) as [[k' n] err]. destruct Hw as (Hne & Hin & Hr).
  destruct err as [e|]; destruct Hr as [Hn Ho].
  { eexists _, _, _. split; [done|]. apply flush_same; [done|by eapply out_unchanged|done]. }
  destruct (Z.eqb_spec (len b) n) as [He|He]; cbn [mbind option_bind].
  - eexists _, _, _. split; [done|]. exists b. cbn [d_set d_bufs d_fd]. rewrite Ho, Hb, take_ge by lia. cbn [concat].
    rewrite app_nil_r. split_and!; try done. by left.
  - unfold slice. replace (_ && _ && _) with true by blia. cbn [mbind option_bind]. change (store [b] 0 ?x) with (Some [x]). cbn [mbind option_bind].
    eexists _, _, _. split; [done|]. exists (take (Z.to_nat n) b). cbn [d_set d_bufs d_fd concat]. rewrite Hb. unfold sub. cbn [concat].
    rewrite !app_nil_r, (take_ge (drop _ b)) by (rewrite length_drop; lia). rewrite take_drop. split_and!; try done. by left.
Qed.

Lemma flushVec_spec k d now : dialer_inv d → 1 < d_bufLen d → len (d_bufs d) ≤ 512 →
  ∃ k' d' err, flushVec k d now = Some (k', d', err) ∧ flush_ok k d k' d' err.
Proof.
  intros Hi Hs Hl. unfold flushVec. rewrite Z.min_r by done. rewrite Nat2Z.id, take_ge by done.
  pose proof (sys_writev_ok k (d_fd d) (d_bufs d)) as Hw. destruct (sys_writev k (d_fd d) (d_bufs d)) as [[k' n] err]. destruct Hw as (Hne & Hin & Hr).
  destruct err as [e|]; destruct Hr as [Hn Ho].
  { eexists _, _, _. split; [done|]. apply flush_same; [done|by eapply out_unchanged|done]. }
  destruct (Z.ltb_spec n (len (concat (d_bufs d)))).
  - pose proof (drop_written_spec (d_bufs d) 0 n ltac:(done) ltac:(lia)) as Hd. destruct (drop_written 0 n (d_bufs d)) as [bufs pos]. destruct Hd as [Hp Hc].
    unfold slice. replace (_ && _ && _) with true by blia. cbn [mbind option_bind]. eexists _, _, _. split; [done|].
    exists (take (Z.to_nat n) (concat (d_bufs d))). cbn [d_set d_bufs d_fd]. unfold sub. rewrite Z.sub_0_r in Hc.
    rewrite (take_ge (drop _ bufs)) by (rewrite length_drop; lia). rewrite Hc, take_drop. split_and!; try done. by left.
  - eexists _, _, _. split; [done|]. exists (concat (d_bufs d)). cbn [d_set d_bufs d_fd concat]. rewrite Ho, take_ge, app_nil_r by lia.
    split_and!; try done. by right.
Qed.

Lemma Flush_spec k d now : dialer_inv d → len (d_bufs d) ≤ 512 →
  ∃ k' d' err, Flush k d now = Some (k', d', err) ∧ flush_ok k d k' d' err.
Proof.
  intros Hi Hl. unfold Flush, flush_seen, BufLen. destruct (Z.ltb_spec 1 (d_bufLen d)); [by apply flushVec_spec|].
  destruct (Z.eqb_spec (d_bufLen d) 1) as [E|_]; [|by eexists _, _, _; split; [done|apply flush_same]].
  destruct Hi as [Hi|[_ Hi]]; [|lia]. destruct (d_bufs d) as [|b [|b2 bufs]] eqn:Eb; simpl in Hi; try lia.
  apply (flushOne_spec k d now b); [left; rewrite Eb; simpl; lia|done].
Qed.

(** ** A conversation *)

(** The application adds a buffer; [Polling] visits the dialer at a time. *)
Inductive dial_call := DAdd (buf : list Z) | DPoll (now : Z).

Definition dial_run (s : K * Dialer) (c : dial_call) : option (K * Dialer) :=
  let '(k, d) := s in
  match c with
  | DAdd buf => Some (k, fst (AddBuf d buf))
  | DPoll now => '(k, d, _) ← Polling_visit k d now; Some (k, d)
  end.

Fixpoint dial_runs (s : K * Dialer) (cs : list dial_call) : option (K * Dialer) :=
  match cs with [] => Some s | c :: cs => s ← dial_run s c; dial_runs s cs end.

Definition dial_given (c : dial_call) : list Z := match c with DAdd buf => buf | DPoll _ => [] end.

(** At every visit the dialer has at most 512 buffers. *)
Fixpoint few_buffers (s : K * Dialer) (cs : list dial_call) : Prop :=
  match cs with
  | [] => True
  | c :: cs =>
      match c with DAdd _ => True | DPoll _ => len (d_bufs (snd s)) ≤ 512 end ∧
      match dial_run s c with Some s => few_buffers s cs | None => True end
  end.

Lemma Polling_spec k d now : dialer_inv d → len (d_bufs d) ≤ 512 →
  ∃ k' d' c err, Polling_visit k d now = Some (k', d', c) ∧ flush_ok k d k' d' err ∧ (err ≠ None → c = true).
Proof.
  intros Hi Hl. unfold Polling_visit. destruct (_ || _).
  - destruct (Flush_spec k d now Hi Hl) as (k' & d' & err & -> & Hf). cbn [mbind option_bind]. exists k', d', (bool_decide (err ≠ None) || (5000 <? BufLen d')), err.
    split_and!; try done. intros He. by rewrite bool_decide_true.
  - exists k, d, false, None. split_and!; try done. by apply flush_same.
Qed.

(** What was added so far is what was sent since [k0] and what is kept. *)
Definition dial_inv (k0 k : K) (fd : Z) d (given : list Z) : Prop :=
  dialer_inv d ∧ d_fd d = fd ∧ (∀ fd', fd' ≠ fd → k_out k fd' = k_out k0 fd') ∧
  ∃ sent, k_out k fd = k_out k0 fd ++ sent ∧ sent ++ concat (d_bufs d) = given.

Lemma dial_run_spec k0 k fd d given c : dial_inv k0 k fd d given →
  match c with DAdd _ => True | DPoll _ => len (d_bufs d) ≤ 512 end →
  ∃ k' d', dial_run (k, d) c = Some (k', d') ∧ dial_inv k0 k' fd d' (given ++ dial_given c).
Proof.
  intros (Hi & Hfd & Hne & sent & Ho & Hg) Hl. destruct c as [buf|now]; cbn [dial_run dial_given].
  - eexists _, _. split; [done|]. split_and!; try done; [by left|]. exists sent. split; [done|].
    cbn [AddBuf fst d_set d_bufs]. rewrite concat_app, <-Hg, <-(assoc_L (++)). cbn [concat]. by rewrite app_nil_r.
  - destruct (Polling_spec k d now Hi Hl) as (k' & d' & c & err & -> & (s' & Ho' & Hs' & _ & Hfd' & Hi' & Hne' & _) & _).
    cbn [mbind option_bind]. eexists _, _. split; [done|]. rewrite app_nil_r. split_and!; [done|congruence|intros fd' Hf; rewrite Hne' by congruence; by apply Hne|].
    exists (sent ++ s'). rewrite <-Hfd in *. rewrite Ho', Ho, <-!(assoc_L (++)). split; [done|]. by rewrite Hs'.
Qed.

Lemma dial_runs_spec k0 fd cs : ∀ k d given, dial_inv k0 k fd d given → few_buffers (k, d) cs →
  ∃ k' d', dial_runs (k, d) cs = Some (k', d') ∧ dial_inv k0 k' fd d' (given ++ (cs ≫= dial_given)).
Proof.
  induction cs as [|c cs IH]; intros k d given Hi Hf; cbn [dial_runs].
  - rewrite app_nil_r. by eexists _, _.
  - destruct Hf as [Hl Hf]. destruct (dial_run_spec k0 k fd d given c Hi Hl) as (k1 & d1 & E & Hi1). rewrite E in Hf |- *. cbn [mbind option_bind].
    destruct (IH k1 d1 _ Hi1 Hf) as (k' & d' & -> & Hi'). eexists _, _. split; [done|].
    cbn [mbind list_bind]. by rewrite (assoc_L (++)).
Qed.

(** Whatever buffers the application adds and whenever [Polling] visits the dialer,
    as long as it never holds more than 512 buffers at a visit: nothing panics, and the bytes
    handed to the socket, followed by those kept, are the bytes that were added, in
    order; no other descriptor is written to. *)
Theorem dialer_output_in_order (k : K) (fd now0 : Z) (cs : list dial_call) :
  let d0 := mkDialer fd [] 0 now0 0 180 in
  few_buffers (k, d0) cs →
  ∃ k' d' sent, dial_runs (k, d0) cs = Some (k', d') ∧
    k_out k' fd = k_out k fd ++ sent ∧ sent ++ concat (d_bufs d') = cs ≫= dial_given ∧
    (∀ fd', fd' ≠ fd → k_out k' fd' = k_out k fd') ∧ dialer_inv d'.
Proof.
  intros d0 Hf. destruct (dial_runs_spec k fd cs k d0 []) as (k' & d' & E & Hi & Hfd & Hne & sent & Ho & Hg); [|done|].
  - split_and!; try done; [by left|]. exists []. by rewrite app_nil_r.
  - by exists k', d', sent.
Qed.

End FlushLemmas.

Lemma Stat_score_bounded print probes now send recv lastRecv d : d_score d ≤ 180 →
  let '(d', _, cmds) := Stat_visit print probes now send recv lastRecv d in
  d_score d' ≤ 180 ∧ d_bufs d' = d_bufs d ∧ (recv ≠ 0 → cmds = []).
Proof.
  intros Hs. assert (∀ x, update_score send recv x ≤ 180) as Hu
    by (intros x; unfold update_score; match goal with |- context [180 <? ?y] => destruct (Z.ltb_spec 180 y) end; lia).
  unfold Stat_visit. destruct probes as [p|]; [destruct (Z.eqb_spec recv 0); cbn [andb]; [destruct (0 <? len p); [destruct (_ && _)|]|]|].
  all: destruct print; cbn [d_score d_bufs]; split_and!; auto; done.
Qed.

(** ** Witness and examples *)

Definition dial_calls : list dial_call := [DAdd [1; 2; 3]; DAdd [4]; DPoll 100; DPoll 200; DAdd [5]; DPoll 300].

Lemma dialer_output_in_order_witness :
  ∃ k' d' sent, dial_runs (mkTK 2 0 [] [] [], mkDialer 7 [] 0 0 0 180) dial_calls = Some (k', d') ∧
    k_out k' 7 = [] ++ sent ∧ sent ++ concat (d_bufs d') = [1; 2; 3; 4; 5] ∧
    (∀ fd', fd' ≠ 7 → k_out k' fd' = []) ∧ dialer_inv d'.
Proof.
  refine (dialer_output_in_order (mkTK 2 0 [] [] []) 7 0 dial_calls _).
  vm_compute. repeat split; discriminate.
Defined.

(** More than 512 buffers: when the first 512 are written in full, the rest is dropped. *)
Example vec_drops_the_rest :
  (λ '(k, d, _), (len (k_out k 7), d_bufs d)) <$>
    Flush (mkTK 1000 0 [] [] []) (mkDialer 7 (replicate 513 [1]) 513 0 0 180) 10 = Some (512, []).
Proof. vm_compute. reflexivity. Qed.

(** [AddBuf] between the read of [bufLen] and the lock: [flushOne] drops the new buffer. *)
Example flush_races_with_AddBuf :
  let d := mkDialer 7 [[1]] 1 0 0 180 in
  (λ '(k, d, _), (k_out k 7, d_bufs d)) <$>
    flush_seen (BufLen d) (mkTK 1000 0 [] [] []) (fst (AddBuf d [2])) 10 = Some ([1], []).
Proof. vm_compute. reflexivity. Qed.
