(* ===== verification/DialMng.v ===== *)
(** * dialmng.go: the manager of outgoing connections

    [DialerMng] keeps, per key, how many connections are wanted ([except]), open ([alive])
    and being made ([co]).  [addDialer] runs on goroutines of the caller and of [KeepAlive];
    [OnOpen] and [OnClose] run on the goroutines of the event loops.  Each goroutine is a
    sequence of steps, one per operation on shared state, and the steps of all of them
    interleave in any order.  Dialling, the TLS handshake and the hand-over to a loop are
    outcomes that a step is given; [gen] is the sequence of ids the loops allocate. *)

From stdpp Require Import strings gmap.
From S2P Require Import Prelude Text Conn.

Record DialParam := mkPara { p_Addr : list Z; p_Cert : list Z; p_Key : list Z; p_SslType : Z }.

Definition dial_key (p : DialParam) : list Z := p_Key p ++ str "_" ++ p_Addr p.

Record DialerStatus := mkStatus { except : Z; alive : Z; co : Z; para : DialParam }.

Definition add_co (n : Z) (s : DialerStatus) : DialerStatus := mkStatus (except s) (alive s) (AddInt32 (co s) n) (para s).
Definition add_alive (n : Z) (s : DialerStatus) : DialerStatus := mkStatus (except s) (AddInt32 (alive s) n) (co s) (para s).
Definition zero_co (s : DialerStatus) : DialerStatus := mkStatus (except s) (alive s) 0 (para s).

(** [objs] is the store of status objects, which [status] points into; [dialers] is the set of
    ids that have an entry; [allocs] counts the ids allocated. *)
Record DialerMng := mkMng {
  online : Z; dialers : gset Z; status : gmap (list Z) nat; objs : list DialerStatus; inactive : gset (list Z); allocs : nat }.

Definition set_online (m : DialerMng) n := mkMng n (dialers m) (status m) (objs m) (inactive m) (allocs m).
Definition set_dialers (m : DialerMng) d := mkMng (online m) d (status m) (objs m) (inactive m) (allocs m).
Definition set_status (m : DialerMng) s o := mkMng (online m) (dialers m) s o (inactive m) (allocs m).
Definition set_inactive (m : DialerMng) i := mkMng (online m) (dialers m) (status m) (objs m) i (allocs m).
Definition set_allocs (m : DialerMng) n := mkMng (online m) (dialers m) (status m) (objs m) (inactive m) n.

(** An atomic operation on the status object [r]. *)
Definition on_obj (m : DialerMng) (r : nat) (f : DialerStatus → DialerStatus) : DialerMng :=
  set_status m (status m) (alter f r (objs m)).

(** Where a goroutine is.  A: in [addDialer] and [attach]; O: in [OnOpen]; C: in [OnClose]; K: in a
    visit of [KeepAlive].  The argument is the status object it has loaded.  [CLoad] is an open
    connection: its next step is the first of [OnClose]. *)
Inductive pc :=
| AInactive | AStatus | AInc (r : nat) | AReset (r : nat) | ACheck (r : nat) | ADec (r : nat) | ABoot (r : nat)
| AAttach | ATlsFail | AQueued
| OLoad | OOnline (r : nat) | OAlive (r : nat) | OStore (r : nat) | ODec (r : nat)
| CLoad | COnline | CStatus | CAlive (r : nat) | CDelete
| KCheck (r : nat) | KDelete | KLoad (r : nat)
| Done | Lost.

(** A goroutine, or the connection it made: the arguments of [addDialer], what [AddInt32]
    on [co] returned, and the id of the connection. *)
Record thread := mkThread { t_para : DialParam; t_max : Z; t_co : Z; t_cid : Z; t_pc : pc }.

Definition t_key (t : thread) : list Z := dial_key (t_para t).
Definition goto (t : thread) (p : pc) : thread := mkThread (t_para t) (t_max t) (t_co t) (t_cid t) p.
Definition with_co (t : thread) (n : Z) (p : pc) : thread := mkThread (t_para t) (t_max t) n (t_cid t) p.
Definition with_cid (t : thread) (n : Z) (p : pc) : thread := mkThread (t_para t) (t_max t) (t_co t) n p.

(** What the world answers: the call works; it fails; the connection is made, and the loop
    does not take it. *)
Inductive outcome := Works | Fails | NotTaken.

Section Manager.
Variable gen : nat → Z.

(** [addDialer], from the check of [inactive] to [bootup]. *)
Definition addDialer_step (m : DialerMng) (t : thread) (o : outcome) : DialerMng * thread :=
  let key := t_key t in
  match t_pc t with
  | AInactive => (m, goto t (if bool_decide (key ∈ inactive m) then Done else AStatus))
  | AStatus =>
      match status m !! key with
      | Some r => (m, goto t (AInc r))
      | None =>
          let r := length (objs m) in
          (set_status m (<[key := r]> (status m)) (objs m ++ [mkStatus (wrapS 32 (t_max t)) 0 0 (t_para t)]), goto t (AInc r))
      end
  | AInc r =>
      let n := match objs m !! r with Some s => AddInt32 (co s) 1 | None => 1 end in
      (on_obj m r (add_co 1), with_co t n (if n <=? 0 then AReset r else ACheck r))
  | AReset r => (on_obj m r zero_co, goto t Done)
  | ACheck r =>
      let full := match objs m !! r with Some s => except s <=? alive s | None => true end in
      (m, goto t (if full || (wrapS 32 (t_max t) <? t_co t) then ADec r else ABoot r))
  | ADec r => (on_obj m r (add_co (-1)), goto t Done)
  | ABoot r => (m, goto t (match o with Works => AAttach | _ => ADec r end))
  | _ => (m, t)
  end.

(** [attach]: a plain connection, a TLS connection, or nothing at all. *)
Definition attach_step (m : DialerMng) (t : thread) (o : outcome) : DialerMng * thread :=
  let taken := match o with NotTaken => Lost | _ => AQueued end in
  let make := (set_allocs m (S (allocs m)), with_cid t (gen (allocs m)) taken) in
  match t_pc t with
  | AAttach =>
      if bool_decide (p_Cert (t_para t) = []) then make
      else if p_SslType (t_para t) =? TYPE_CONN_TLS then
        match o with Fails => (m, goto t ATlsFail) | _ => make end
      else (m, goto t Lost)
  | ATlsFail => (m, goto t (match status m !! t_key t with Some r => ADec r | None => Done end))
  | _ => (m, t)
  end.

Definition OnOpen_step (m : DialerMng) (t : thread) : DialerMng * thread :=
  match t_pc t with
  | OLoad => (m, goto t (match status m !! t_key t with Some r => OOnline r | None => CLoad end))
  | OOnline r => (set_online m (AddInt32 (online m) 1), goto t (OAlive r))
  | OAlive r => (on_obj m r (add_alive 1), goto t (OStore r))
  | OStore r => (set_dialers m ({[ t_cid t ]} ∪ dialers m), goto t (ODec r))
  | ODec r => (on_obj m r (add_co (-1)), goto t CLoad)
  | _ => (m, t)
  end.

(** [dialers.Load] at the start of [OnClose]; [missing] is where it returns. *)
Definition close_load (m : DialerMng) (t : thread) (missing : pc) : DialerMng * thread :=
  (m, goto t (if bool_decide (t_cid t ∈ dialers m) then COnline else missing)).

Definition OnClose_step (m : DialerMng) (t : thread) : DialerMng * thread :=
  match t_pc t with
  | CLoad => close_load m t Done
  | COnline => (set_online m (AddInt32 (online m) (-1)), goto t CStatus)
  | CStatus => (m, goto t (match status m !! t_key t with Some r => CAlive r | None => CDelete end))
  | CAlive r => (on_obj m r (add_alive (-1)), goto t CDelete)
  | CDelete => (set_dialers m (dialers m ∖ {[ t_cid t ]}), goto t Done)
  | _ => (m, t)
  end.

(** One key in [KeepAlive]: it is deleted when inactive; otherwise the missing
    connections are requested, by a goroutine each. *)
Definition KeepAlive_step (m : DialerMng) (t : thread) : DialerMng * thread * list thread :=
  match t_pc t with
  | KCheck r => (m, goto t (if bool_decide (t_key t ∈ inactive m) then KDelete else KLoad r), [])
  | KDelete => (set_status m (delete (t_key t) (status m)) (objs m), goto t Done, [])
  | KLoad r =>
      match objs m !! r with
      | Some s => (m, goto t Done, replicate (Z.to_nat (except s - alive s)) (mkThread (para s) (except s) 0 0 AInactive))
      | None => (m, goto t Done, [])
      end
  | _ => (m, t, [])
  end.

(** One step of a goroutine, and the goroutines it starts.  A connection in the queue of
    a loop is opened, or closed before it was opened. *)
Definition thread_step (m : DialerMng) (t : thread) (o : outcome) : DialerMng * thread * list thread :=
  match t_pc t with
  | AInactive | AStatus | AInc _ | AReset _ | ACheck _ | ADec _ | ABoot _ => (addDialer_step m t o, [])
  | AAttach | ATlsFail => (attach_step m t o, [])
  | AQueued => (match o with Works => (m, goto t OLoad) | _ => close_load m t Lost end, [])
  | OLoad | OOnline _ | OAlive _ | OStore _ | ODec _ => (OnOpen_step m t, [])
  | CLoad | COnline | CStatus | CAlive _ | CDelete => (OnClose_step m t, [])
  | KCheck _ | KDelete | KLoad _ => KeepAlive_step m t
  | Done | Lost => (m, t, [])
  end.

Definition updateDialer (m : DialerMng) (op key addr : list Z) : DialerMng :=
  let skey := key ++ str "_" ++ addr in
  if bool_decide (op = str "add") then set_inactive m (inactive m ∖ {[ skey ]})
  else set_inactive m ({[ skey ]} ∪ inactive m).

Definition lookup (m : DialerMng) (id : Z) : bool := bool_decide (id ∈ dialers m).

(** ** The manager with its goroutines *)

Record dial_sys := mkSys { s_m : DialerMng; s_ts : list thread }.

(** A call of [Server.AddDialer]; of [Server.DialerUpdate]; [KeepAlive] reaches a key; a call of
    [Server.Close] with the dialer of the [i]-th goroutine; the [i]-th goroutine runs. *)
Inductive dial_event :=
| ECall (p : DialParam) (max : Z)
| EUpdate (op key addr : list Z)
| ETick (key : list Z)
| EClose (i : nat)
| ERun (i : nat) (o : outcome).

Definition dial_step (s : dial_sys) (ev : dial_event) : dial_sys :=
  let '(mkSys m ts) := s in
  match ev with
  | ECall p max => mkSys m (ts ++ [mkThread p max 0 0 AInactive])
  | EUpdate op key addr => mkSys (updateDialer m op key addr) ts
  | ETick key =>
      match status m !! key ≫= λ r, s ← objs m !! r; Some (r, s) with
      | Some (r, s) => mkSys m (ts ++ [mkThread (para s) 0 0 0 (KCheck r)])
      | None => s
      end
  | EClose i => match ts !! i with Some t => mkSys m (ts ++ [goto t CLoad]) | None => s end
  | ERun i o =>
      match ts !! i with
      | Some t => let '(m, t, new) := thread_step m t o in mkSys m (<[i := t]> ts ++ new)
      | None => s
      end
  end.

Fixpoint dial_steps (s : dial_sys) (evs : list dial_event) : dial_sys :=
  match evs with [] => s | ev :: evs => dial_steps (dial_step s ev) evs end.

Definition new_mng : dial_sys := mkSys (mkMng 0 ∅ ∅ [] ∅ 0) [].

End Manager.

(** ** Counting goroutines *)

Definition count (f : thread → bool) (ts : list thread) : Z := len (List.filter f ts).

Lemma count_app f ts1 ts2 : count f (ts1 ++ ts2) = count f ts1 + count f ts2.
Proof. unfold count. rewrite List.filter_app, length_app. lia. Qed.

Lemma count_nonneg f ts : 0 ≤ count f ts.
Proof. unfold count. lia. Qed.

Lemma count_none f ts : Forall (λ t, f t = false) ts → count f ts = 0.
Proof. unfold count. induction 1 as [|t ts Ht _ IH]; [done|]. simpl. by rewrite Ht. Qed.

Lemma count_insert f ts i t t' : ts !! i = Some t → count f (<[i := t']> ts) = count f ts - Z.b2z (f t) + Z.b2z (f t').
Proof.
  intros Hi. pose proof (lookup_lt_Some _ _ _ Hi). rewrite insert_take_drop by done. rewrite <-(take_drop_middle ts i t Hi) at 3.
  rewrite !count_app. unfold count. simpl. destruct (f t), (f t'); simpl; lia.
Qed.

Lemma count_le_in f g ts : Forall (λ t, f t = true → g t = true) ts → count f ts ≤ count g ts.
Proof.
  unfold count. induction 1 as [|t ts Ht _ IH]; [done|]. simpl. destruct (f t); [rewrite Ht by done|destruct (g t)]; simpl; lia.
Qed.

Lemma count_le f g ts : (∀ t, f t = true → g t = true) → count f ts ≤ count g ts.
Proof. intros Hfg. apply count_le_in, Forall_forall. auto. Qed.

Lemma count_len f ts : count f ts ≤ len ts.
Proof. unfold count. induction ts as [|t ts IH]; [done|]. simpl. destruct (f t); simpl; lia. Qed.

(** The goroutines of a key. *)
Definition of_key (k : list Z) (f : pc → bool) (t : thread) : bool := bool_decide (t_key t = k) && f (t_pc t).

(** It has added 1 to [co] and not taken it back. *)
Definition holds_co (p : pc) : bool :=
  match p with
  | AReset _ | ACheck _ | ADec _ | ABoot _ | AAttach | ATlsFail | AQueued | OLoad | OOnline _ | OAlive _ | OStore _ | ODec _ | Lost => true
  | _ => false
  end.
(** It may still add 1 to [alive]. *)
Definition dialling (p : pc) : bool :=
  match p with ABoot _ | AAttach | AQueued | OLoad | OOnline _ | OAlive _ => true | _ => false end.
(** It has added 1 to [alive] and not taken it back; and so on. *)
Definition is_open (p : pc) : bool :=
  match p with OStore _ | ODec _ | CLoad | COnline | CStatus | CAlive _ => true | _ => false end.
Definition is_online (p : pc) : bool :=
  match p with OAlive _ | OStore _ | ODec _ | CLoad | COnline => true | _ => false end.
Definition is_stored (p : pc) : bool :=
  match p with ODec _ | CLoad | COnline | CStatus | CAlive _ | CDelete => true | _ => false end.
Definition has_cid (p : pc) : bool :=
  match p with AQueued | OLoad | OOnline _ | OAlive _ | OStore _ => true | _ => is_stored p end.
Definition past_status (p : pc) : bool := match p with AInactive | AStatus | Done => false | _ => true end.
Definition pc_ref (p : pc) : option nat :=
  match p with
  | AInc r | AReset r | ACheck r | ADec r | ABoot r | OOnline r | OAlive r | OStore r | ODec r | CAlive r | KCheck r | KLoad r => Some r
  | _ => None
  end.

(** ** Keys and their status objects, as long as no key is made inactive *)

Section Regime.
Variable gen : nat → Z.
Hypothesis gen_inj : ∀ i j, gen i = gen j → i = j.
Variable M : Z.
Hypothesis M_nonneg : 0 ≤ M.

(** The events of the regime: requests for at most [M] connections, no key is made inactive,
    and only the loops close connections. *)
Definition event_ok (ev : dial_event) : Prop :=
  match ev with
  | ECall _ max => wrapS 32 max ≤ M
  | EUpdate op _ _ => op = str "add"
  | EClose _ => False
  | _ => True
  end.

Record thread_ref (m : DialerMng) (t : thread) : Prop := {
  tr_max : wrapS 32 (t_max t) ≤ M;
  tr_ref r : pc_ref (t_pc t) = Some r → status m !! t_key t = Some r;
  tr_past : past_status (t_pc t) = true → is_Some (status m !! t_key t);
  tr_kept : t_pc t ≠ KDelete;
}.

Record refs_ok (s : dial_sys) : Prop := {
  ro_inactive : inactive (s_m s) = ∅;
  ro_inj k k' r : status (s_m s) !! k = Some r → status (s_m s) !! k' = Some r → k = k';
  ro_obj k r : status (s_m s) !! k = Some r → ∃ o, objs (s_m s) !! r = Some o ∧ dial_key (para o) = k ∧ wrapS 32 (except o) ≤ M ∧ except o ≤ M;
  ro_threads : Forall (thread_ref (s_m s)) (s_ts s);
}.

Lemma thread_ref_mono m m' t : status m ⊆ status m' → thread_ref m t → thread_ref m' t.
Proof.
  intros Hs [H1 H2 H3 H4]. split; [done| | |done].
  - intros r Hr. eapply lookup_weaken; [by apply H2|done].
  - intros Hp. destruct (H3 Hp) as [r Hr]. exists r. by eapply lookup_weaken.
Qed.

(** [m'] has the same keys and objects as [m], up to the counters. *)
Record same_refs (m m' : DialerMng) : Prop := {
  sr_inactive : inactive m' = inactive m;
  sr_status : status m' = status m;
  sr_objs r : (λ o, (para o, except o)) <$> objs m' !! r = (λ o, (para o, except o)) <$> objs m !! r;
}.

Lemma same_refs_refl m : same_refs m m.
Proof. by split. Qed.

Lemma same_refs_obj m r f : (∀ o, para (f o) = para o ∧ except (f o) = except o) → same_refs m (on_obj m r f).
Proof.
  intros Hf. split; [done..|]. intros r'. cbn [on_obj set_status objs]. destruct (decide (r = r')) as [<-|Hne].
  - rewrite list_lookup_alter_eq. destruct (objs m !! r) as [o|]; [|done]. cbn. by destruct (Hf o) as [-> ->].
  - by rewrite list_lookup_alter_ne.
Qed.

Lemma refs_move m m' ts i t t' new : refs_ok (mkSys m ts) → same_refs m m' → ts !! i = Some t →
  thread_ref m t' → Forall (thread_ref m) new → refs_ok (mkSys m' (<[i := t']> ts ++ new)).
Proof.
  intros [H1 H2 H3 H4] [E1 E2 E3] Hi Ht Hn. cbn [s_m s_ts] in *.
  assert (∀ t, thread_ref m t → thread_ref m' t) as Hm by (intros x; apply thread_ref_mono; by rewrite E2).
  split; cbn [s_m s_ts]; rewrite ?E1, ?E2; [done|done| |].
  - intros k r Hk. destruct (H3 k r Hk) as (o & Ho & Hp & He). specialize (E3 r). rewrite Ho in E3.
    destruct (objs m' !! r) as [o'|]; [|done]. cbn in E3. injection E3 as E5 E6. exists o'. by rewrite E5, E6.
  - apply Forall_app. split; [|eapply Forall_impl; [apply Hm|exact Hn]]. apply Forall_insert; [|by apply Hm].
    eapply Forall_impl; [apply Hm|exact H4].
Qed.

Lemma goto_ref m t p : thread_ref m t → (∀ r, pc_ref p = Some r → status m !! t_key t = Some r) →
  (past_status p = true → is_Some (status m !! t_key t)) → p ≠ KDelete → thread_ref m (goto t p).
Proof. intros [H1 _ _ _] H2 H3 H4. by split. Qed.

(** A key gets its status object. *)
Lemma refs_new m ts i t : refs_ok (mkSys m ts) → ts !! i = Some t → t_pc t = AStatus → status m !! t_key t = None →
  refs_ok (mkSys (set_status m (<[t_key t := length (objs m)]> (status m)) (objs m ++ [mkStatus (wrapS 32 (t_max t)) 0 0 (t_para t)]))
    (<[i := goto t (AInc (length (objs m)))]> ts)).
Proof.
  intros [H1 H2 H3 H4] Hi Hp Hn. cbn [s_m s_ts] in *. set (r0 := length (objs m)).
  assert (∀ k r, status m !! k = Some r → r ≠ r0) as Hlt.
  { intros k r Hk ->. destruct (H3 k _ Hk) as (o & Ho & _). apply lookup_lt_Some in Ho. unfold r0 in Ho. lia. }
  split; cbn [s_m s_ts set_status inactive status objs]; [done| | |].
  - intros k k' r Hk Hk'. apply lookup_insert_Some in Hk as [[<- <-]|[Hne Hk]], Hk' as [[<- E]|[Hne' Hk']]; try done.
    + by apply Hlt in Hk'.
    + subst r. by apply Hlt in Hk.
    + by eapply H2.
  - intros k r Hk. destruct (decide (t_key t = k)) as [<-|Hne].
    + rewrite lookup_insert_eq in Hk. injection Hk as <-. eexists. split; [apply list_lookup_middle; done|]. cbn [para except].
      pose proof (Forall_lookup_1 _ _ _ _ H4 Hi) as [Hm _ _ _]. split; [done|]. by rewrite wrapS_idem.
    + rewrite lookup_insert_ne in Hk by done. destruct (H3 k r Hk) as (o & Ho & Hr). exists o. split; [|done]. by apply lookup_app_l_Some.
  - assert (∀ x, thread_ref m x → thread_ref (set_status m (<[t_key t := r0]> (status m)) (objs m ++ [mkStatus (wrapS 32 (t_max t)) 0 0 (t_para t)])) x) as Hm
      by (intros x; apply thread_ref_mono; by apply insert_subseteq).
    apply Forall_insert; [eapply Forall_impl; [apply Hm|exact H4]|]. apply goto_ref; [by apply Hm, (Forall_lookup_1 _ _ _ _ H4 Hi)| | |done].
    + intros r [= <-]. cbn [set_status status]. by rewrite lookup_insert_eq.
    + intros _. cbn [set_status status]. rewrite lookup_insert_eq. by eexists.
Qed.

Lemma refs_run m ts i t o : refs_ok (mkSys m ts) → ts !! i = Some t →
  let '(m', t', new) := thread_step gen m t o in refs_ok (mkSys m' (<[i := t']> ts ++ new)).
Proof.
  intros Hs Hi. pose proof Hs as [H1 H2 H3 H4]. cbn [s_m s_ts] in *. pose proof (Forall_lookup_1 _ _ _ _ H4 Hi) as Ht. pose proof Ht as [T1 T2 T3 T4].
  assert (∀ m' t', same_refs m m' → thread_ref m t' → refs_ok (mkSys m' (<[i := t']> ts ++ []))) as Hmove by (intros; by apply (refs_move m _ _ _ t)).
  assert (∀ p, pc_ref p = None → past_status (t_pc t) = true → p ≠ KDelete → thread_ref m (goto t p)) as Hgo.
  { intros p Hp Hpast. apply goto_ref; [done|by rewrite Hp|]. intros _. by apply T3. }
  assert (∀ r, status m !! t_key t = Some r → ∀ p, pc_ref p = Some r → p ≠ KDelete → thread_ref m (goto t p)) as Hst.
  { intros r Hr p Hp. apply goto_ref; [done|rewrite Hp; by intros ? [= <-]|]. intros _. rewrite Hr. by eexists. }
  assert (∀ p, past_status p = false → p ≠ KDelete → thread_ref m (goto t p)) as Hdone by (intros p Hp; apply goto_ref; by destruct p).
  assert (∀ n p, thread_ref m (goto t p) → thread_ref m (with_co t n p) ∧ thread_ref m (with_cid t n p)) as Hw.
  { intros n p [G1 G2 G3 G4]. by split; split. }
  unfold thread_step, addDialer_step, attach_step, OnOpen_step, OnClose_step, KeepAlive_step, close_load.
  destruct (t_pc t) as [| |r|r|r|r|r| | | | |r|r|r|r| | | |r| |r| |r| |] eqn:Ep; cbn [pc_ref past_status] in *.
  all: try (pose proof (T2 r eq_refl) as Hr).
  22: done.
  2: { destruct (status m !! t_key t) as [r|] eqn:Er; [apply Hmove; [apply same_refs_refl|by apply (Hst r)]|]. rewrite app_nil_r. by apply refs_new. }
  20: { rewrite bool_decide_false by (rewrite H1; set_solver). apply Hmove; [apply same_refs_refl|by apply (Hst r)]. }
  20: { destruct (H3 _ _ Hr) as (o' & -> & Hk & Hx & _). apply (refs_move m _ _ _ t); [done|apply same_refs_refl|done|by apply Hdone|].
    apply Forall_replicate. by split. }
  all: repeat case_match; simplify_eq; apply Hmove; try done; try first [apply same_refs_refl|by apply same_refs_obj|by split].
  all: try apply Hw; first [by apply Hgo|by apply (Hst r)|by apply Hdone|by eapply Hst].
Qed.

Lemma refs_step s ev : refs_ok s → event_ok ev → refs_ok (dial_step gen s ev).
Proof.
  intros Hs Hev. destruct s as [m ts]. pose proof Hs as [H1 H2 H3 H4]. cbn [s_m s_ts] in *. destruct ev as [p max|op key addr|key|i|i o]; cbn [dial_step event_ok] in *.
  - split; [done..|]. cbn [s_m s_ts]. apply Forall_app. split; [done|]. constructor; [by split|done].
  - subst op. unfold updateDialer. rewrite bool_decide_true by done. split; cbn [s_m s_ts set_inactive inactive status objs]; [set_solver|done|done|].
    eapply Forall_impl; [|exact H4]. intros x. by apply thread_ref_mono.
  - destruct (status m !! key) as [r|] eqn:Er; [|done]. destruct (H3 _ _ Er) as (o & Ho & Hk & _). cbn [mbind option_bind]. rewrite Ho. cbn [mbind option_bind].
    split; [done..|]. cbn [s_m s_ts]. apply Forall_app. split; [done|]. constructor; [|done]. split; [done| | |done]; unfold t_key; cbn [t_para]; rewrite Hk.
    + intros r' [= <-]. done.
    + by rewrite Er.
  - done.
  - destruct (ts !! i) as [t|] eqn:Hi; [|done]. pose proof (refs_run m ts i t o Hs Hi) as R.
    by destruct (thread_step gen m t o) as [[m' t'] new].
Qed.

(** ** The ids of the connections, and the map of dialers *)

Lemma stored_cid p : is_stored p = true → has_cid p = true.
Proof. by destruct p. Qed.

Record cids_ok (s : dial_sys) : Prop := {
  ck_gen i t : s_ts s !! i = Some t → has_cid (t_pc t) = true → ∃ n, (n < allocs (s_m s))%nat ∧ t_cid t = gen n;
  ck_uniq i j t t' : s_ts s !! i = Some t → s_ts s !! j = Some t' → has_cid (t_pc t) = true → has_cid (t_pc t') = true →
    t_cid t = t_cid t' → i = j;
  ck_dialers c : c ∈ dialers (s_m s) ↔ ∃ i t, s_ts s !! i = Some t ∧ is_stored (t_pc t) = true ∧ t_cid t = c;
}.

(** The goroutine [i] moves from [t] to [t'], which keeps its id or takes the next one. *)
Definition cid_step (m m' : DialerMng) (t t' : thread) : Prop :=
  allocs m' = allocs m ∧ (has_cid (t_pc t') = true → has_cid (t_pc t) = true ∧ t_cid t' = t_cid t)
  ∨ allocs m' = S (allocs m) ∧ t_cid t' = gen (allocs m) ∧ has_cid (t_pc t) = false.

Definition dialers_step (m m' : DialerMng) (t t' : thread) : Prop :=
  ∀ c, c ∈ dialers m' ↔ (c ∈ dialers m ∧ ¬ (is_stored (t_pc t) = true ∧ c = t_cid t)) ∨ (is_stored (t_pc t') = true ∧ c = t_cid t').

Definition fresh_thread (t : thread) : Prop := has_cid (t_pc t) = false.

(** The goroutines after the step, seen from before. *)
Lemma moved_lookup ts i t t' new j u : ts !! i = Some t → Forall fresh_thread new → (<[i := t']> ts ++ new) !! j = Some u →
  has_cid (t_pc u) = true → (j = i ∧ u = t') ∨ (j ≠ i ∧ ts !! j = Some u).
Proof.
  intros Hi Hn Hj Hc. apply lookup_app_Some in Hj as [Hj|[_ Hj]].
  - apply list_lookup_insert_Some in Hj as [(-> & -> & _)|[Hne Hj]]; [by left|by right].
  - apply (Forall_lookup_1 _ _ _ _ Hn) in Hj. unfold fresh_thread in Hj. congruence.
Qed.

Lemma moved_here (ts : list thread) i t t' new : ts !! i = Some t → (<[i := t']> ts ++ new) !! i = Some t'.
Proof. intros Hi. apply lookup_app_l_Some, list_lookup_insert_eq. by eapply lookup_lt_Some. Qed.

Lemma moved_other (ts : list thread) i t' new j u : j ≠ i → ts !! j = Some u → (<[i := t']> ts ++ new) !! j = Some u.
Proof. intros Hne Hj. apply lookup_app_l_Some. by rewrite list_lookup_insert_ne. Qed.

Lemma cids_move m m' ts i t t' new : cids_ok (mkSys m ts) → ts !! i = Some t → cid_step m m' t t' → dialers_step m m' t t' →
  Forall fresh_thread new → cids_ok (mkSys m' (<[i := t']> ts ++ new)).
Proof.
  intros [G U D] Hi Hc Hd Hn. cbn [s_m s_ts] in *.
  assert (has_cid (t_pc t') = true → ∃ n, (n < allocs m')%nat ∧ t_cid t' = gen n) as G'.
  { intros Ht. destruct Hc as [(Ha & Hc)|(Ha & Hc & _)]; [|exists (allocs m); split; [lia|done]].
    destruct (Hc Ht) as [Ht0 ->]. rewrite Ha. by apply (G i). }
  assert (allocs m ≤ allocs m')%nat as Hle by (destruct Hc as [[? _]|[? _]]; lia).
  assert (∀ j u, j ≠ i → ts !! j = Some u → has_cid (t_pc u) = true → has_cid (t_pc t') = true → t_cid u ≠ t_cid t') as Hfresh.
  { intros j u Hj Hu Hcu Hct Heq. destruct Hc as [(Ha & Hc)|(Ha & Hc & _)].
    - destruct (Hc Hct) as [Ht0 E]. apply Hj, (U j i u t); congruence.
    - destruct (G j u Hu Hcu) as (n & Hlt & E). rewrite Hc, E in Heq. apply gen_inj in Heq. lia. }
  split; cbn [s_m s_ts].
  - intros j u Hj Hu. destruct (moved_lookup ts i t t' new j u Hi Hn Hj Hu) as [[-> ->]|[Hne Hj']]; [by apply G'|].
    destruct (G j u Hj' Hu) as (n & ? & ?). exists n. split; [lia|done].
  - intros j1 j2 u1 u2 Hj1 Hj2 Hu1 Hu2 He.
    destruct (moved_lookup ts i t t' new j1 u1 Hi Hn Hj1 Hu1) as [[-> ->]|[Hne1 Hj1']], (moved_lookup ts i t t' new j2 u2 Hi Hn Hj2 Hu2) as [[-> ->]|[Hne2 Hj2']].
    + done.
    + symmetry in He. by apply (Hfresh j2) in He.
    + by apply (Hfresh j1) in He.
    + by eapply U.
  - intros c. rewrite (Hd c), (D c). split.
    + intros [[(j & u & Hj & Hu & <-) Hno]|[Ht ->]]; [|exists i, t'; split; [by eapply moved_here|done]].
      exists j, u. split; [|done]. apply moved_other; [|done]. intros ->. apply Hno. rewrite Hi in Hj. by simplify_eq.
    + intros (j & u & Hj & Hu & <-). destruct (moved_lookup ts i t t' new j u Hi Hn Hj (stored_cid _ Hu)) as [[-> ->]|[Hne Hj']]; [by right|].
      left. split; [by exists j, u|]. intros [Ht E]. apply Hne. apply (U j i u t); auto using stored_cid.
Qed.

Lemma cid_kept m m' t p : allocs m' = allocs m → (has_cid p = true → has_cid (t_pc t) = true) → cid_step m m' t (goto t p).
Proof. intros Ha Hp. left. split; [done|]. intros Hc. split; [by apply Hp|done]. Qed.

Lemma dialers_kept m m' t t' : dialers m' = dialers m → (is_stored (t_pc t) = true → t_cid t ∈ dialers m) →
  is_stored (t_pc t') = is_stored (t_pc t) → (is_stored (t_pc t) = true → t_cid t' = t_cid t) → dialers_step m m' t t'.
Proof.
  intros Hd Hin Hs He c. rewrite Hd, Hs. destruct (is_stored (t_pc t)); [|naive_solver]. rewrite He by done.
  destruct (decide (c = t_cid t)) as [->|]; naive_solver.
Qed.

(** A connection is registered, when its close begins, exactly if it was opened. *)
Lemma stored_in m ts i t : cids_ok (mkSys m ts) → ts !! i = Some t → is_stored (t_pc t) = true → t_cid t ∈ dialers m.
Proof. intros [_ _ D] Hi Hs. apply D. by exists i, t. Qed.

Lemma unstored_out m ts i t : cids_ok (mkSys m ts) → ts !! i = Some t → has_cid (t_pc t) = true → is_stored (t_pc t) = false → t_cid t ∉ dialers m.
Proof.
  intros [_ U D] Hi Hc Hs Hin. apply D in Hin as (j & u & Hj & Hu & E). cbn [s_ts] in *.
  assert (j = i) as -> by (by apply (U j i u t); auto using stored_cid). congruence.
Qed.

Lemma cids_run m ts i t o : refs_ok (mkSys m ts) → cids_ok (mkSys m ts) → ts !! i = Some t →
  let '(m', t', new) := thread_step gen m t o in cids_ok (mkSys m' (<[i := t']> ts ++ new)).
Proof.
  intros Hs Hc Hi. pose proof (stored_in m ts i t Hc Hi) as Hin. pose proof (unstored_out m ts i t Hc Hi) as Hout.
  pose proof Hs as [H1 H2 H3 H4]. cbn [s_m s_ts] in *. pose proof (Forall_lookup_1 _ _ _ _ H4 Hi) as [_ T2 T3 T4].
  assert (∀ m' t', cid_step m m' t t' → dialers_step m m' t t' → cids_ok (mkSys m' (<[i := t']> ts ++ []))) as Hmove by (intros; by apply (cids_move m _ _ _ t)).
  assert (∀ m' p, allocs m' = allocs m → dialers m' = dialers m → (has_cid p = true → has_cid (t_pc t) = true) → is_stored p = is_stored (t_pc t) →
    cids_ok (mkSys m' (<[i := goto t p]> ts ++ []))) as Hgo by (intros; apply Hmove; [by apply cid_kept|by apply dialers_kept]).
  unfold thread_step, addDialer_step, attach_step, OnOpen_step, OnClose_step, KeepAlive_step, close_load.
  destruct (t_pc t) as [| |r|r|r|r|r| | | | |r|r|r|r| | | |r| |r| |r| |] eqn:Ep; cbn [pc_ref past_status is_stored has_cid] in *.
  all: try (pose proof (T2 r eq_refl) as Hr).
  22: done.
  8: { repeat case_match; simplify_eq; first [by apply Hgo|apply Hmove; [right; by rewrite Ep|]; by apply dialers_kept; rewrite ?Ep]. }
  21: { destruct (H3 _ _ Hr) as (o' & -> & _). apply (cids_move m _ _ _ t); try done; [apply cid_kept; by rewrite ?Ep|apply dialers_kept; by rewrite ?Ep|].
    by apply Forall_replicate. }
  3: { apply Hmove; [left; split; [done|]; by destruct (_ <=? 0)|apply dialers_kept; rewrite ?Ep; try done; cbn [with_co t_pc]; by destruct (_ <=? 0)]. }
  8: { rewrite bool_decide_false by (by apply Hout). destruct o; by apply Hgo. }
  8: { destruct (T3 eq_refl) as [r ->]. by apply Hgo. }
  10: { apply Hmove; [apply cid_kept; by rewrite ?Ep|]. intros c. rewrite Ep. cbn [set_dialers dialers goto t_pc t_cid is_stored]. set_solver. }
  11: { rewrite bool_decide_true by (by apply Hin). by apply Hgo. }
  14: { apply Hmove; [apply cid_kept; by rewrite ?Ep|]. intros c. rewrite Ep. cbn [set_dialers dialers goto t_pc t_cid is_stored]. set_solver. }
  all: repeat case_match; simplify_eq; try (by apply Hgo); by rewrite list_insert_id, app_nil_r.
Qed.

Lemma cids_append m ts t : cids_ok (mkSys m ts) → fresh_thread t → cids_ok (mkSys m (ts ++ [t])).
Proof.
  intros [G U D] Ht. cbn [s_m s_ts] in *.
  assert (∀ j u, (ts ++ [t]) !! j = Some u → has_cid (t_pc u) = true → ts !! j = Some u) as Hold.
  { intros j u Hj Hu. apply lookup_app_Some in Hj as [Hj|[_ Hj]]; [done|]. apply list_lookup_singleton_Some in Hj as [_ <-]. unfold fresh_thread in Ht. congruence. }
  split; cbn [s_m s_ts].
  - intros j u Hj Hu. by apply (G j); [apply Hold|].
  - intros j1 j2 u1 u2 Hj1 Hj2 Hu1 Hu2. by apply U; auto.
  - intros c. rewrite (D c). split; intros (j & u & Hj & Hu & E); exists j, u; split; try done; [by apply lookup_app_l_Some|].
    apply Hold; [done|by apply stored_cid].
Qed.

Lemma cids_step s ev : refs_ok s → cids_ok s → event_ok ev → cids_ok (dial_step gen s ev).
Proof.
  intros Hs Hc Hev. destruct s as [m ts]. destruct ev as [p max|op key addr|key|i|i o]; cbn [dial_step event_ok] in *.
  - by apply cids_append.
  - destruct Hc as [G U D]. unfold updateDialer. by case_bool_decide.
  - destruct (status m !! key ≫= _) as [[r o]|]; [|done]. by apply cids_append.
  - done.
  - destruct (ts !! i) as [t|] eqn:Hi; [|done]. pose proof (cids_run m ts i t o Hs Hc Hi) as R.
    by destruct (thread_step gen m t o) as [[m' t'] new].
Qed.

(** ** The counters *)

(** About to reset [co], which only an overflow leads to. *)
Definition is_reset (p : pc) : bool := match p with AReset _ => true | _ => false end.

Definition by_pc (f : pc → bool) (t : thread) : bool := f (t_pc t).
(** The goroutines of [k] that hold [co] and saw at most [n] when they took it. *)
Definition saw_co (k : list Z) (n : Z) (t : thread) : bool := of_key k holds_co t && (t_co t <=? n).

Record counts_ok (s : dial_sys) : Prop := {
  cn_online : online (s_m s) = count (by_pc is_online) (s_ts s);
  cn_obj k r o : status (s_m s) !! k = Some r → objs (s_m s) !! r = Some o →
    co o = count (of_key k holds_co) (s_ts s) ∧ alive o = count (of_key k is_open) (s_ts s) ∧
    count (of_key k is_open) (s_ts s) + count (of_key k dialling) (s_ts s) ≤ Z.max 0 (except o - 1 + M);
  cn_order k n : 0 ≤ n → count (saw_co k n) (s_ts s) ≤ n;
  cn_dial : Forall (λ t, dialling (t_pc t) = true → t_co t ≤ M) (s_ts s);
  cn_reset : Forall (λ t, is_reset (t_pc t) = false) (s_ts s);
}.

(** [x'] is [x] after an atomic addition of [d], or without one when [d] is 0. *)
Definition added (x x' d : Z) : Prop := x' = x + d ∨ x' = AddInt32 x d.

Lemma added_exact x x' d : added x x' d → -1 ≤ d ≤ 1 → 0 ≤ x + d < 2 ^ 31 → x' = x + d.
Proof. intros [->| ->] Hd Hx; [done|]. unfold AddInt32. rewrite wrapS_add_r. apply wrapS_small; lia. Qed.

(** What a step does to the status objects: it adds to those of the key [key]. *)
Definition objs_step (m m' : DialerMng) (key : list Z) (dc da : Z) : Prop :=
  status m' = status m ∧ ∀ r o', objs m' !! r = Some o' → ∃ o, objs m !! r = Some o ∧ except o' = except o ∧
    (if decide (status m !! key = Some r) then added (co o) (co o') dc ∧ added (alive o) (alive o') da else o' = o).

Lemma objs_same m m' key : status m' = status m → objs m' = objs m → objs_step m m' key 0 0.
Proof.
  intros Hs Ho. split; [done|]. intros r o' Hr. rewrite Ho in Hr. exists o'. split_and!; try done.
  case_decide; [|done]. split; left; lia.
Qed.

Lemma objs_on m key r f dc da : status m !! key = Some r →
  (∀ o, except (f o) = except o ∧ added (co o) (co (f o)) dc ∧ added (alive o) (alive (f o)) da) → objs_step m (on_obj m r f) key dc da.
Proof.
  intros Hk Hf. split; [done|]. intros r' o'. cbn [on_obj set_status objs]. destruct (decide (r = r')) as [<-|Hne].
  - rewrite list_lookup_alter_eq. destruct (objs m !! r) as [o|]; [|done]. intros [= <-]. exists o. destruct (Hf o) as (E & C1 & C2).
    split_and!; try done. by rewrite decide_True.
  - rewrite list_lookup_alter_ne by done. intros Ho. exists o'. split_and!; try done. rewrite decide_False; [done|congruence].
Qed.

Definition idle (t : thread) : Prop := holds_co (t_pc t) = false ∧ is_open (t_pc t) = false ∧ is_online (t_pc t) = false.

Lemma dialling_holds p : dialling p = true → holds_co p = true.
Proof. by destruct p. Qed.

Lemma count_moved f ts i t t' new : ts !! i = Some t → Forall (λ t, f t = false) new →
  count f (<[i := t']> ts ++ new) = count f ts - Z.b2z (f t) + Z.b2z (f t').
Proof. intros Hi Hn. by rewrite count_app, (count_insert _ _ _ _ _ Hi), (count_none f new Hn), Z.add_0_r. Qed.

Lemma of_key_idle k f ts : Forall idle ts → (∀ p, f p = true → holds_co p = true ∨ is_open p = true) → Forall (λ t, of_key k f t = false) ts.
Proof.
  intros Hi Hf. eapply Forall_impl; [|exact Hi]. intros t (H1 & H2 & _). unfold of_key. destruct (f (t_pc t)) eqn:E; [|apply andb_false_r].
  apply Hf in E as [E|E]; congruence.
Qed.

(** The conditions on a step under which the counters stay exact. *)
Record count_step (m m' : DialerMng) (ts : list thread) (t t' : thread) : Prop := {
  cs_key : t_key t' = t_key t;
  cs_online : added (online m) (online m') (Z.b2z (is_online (t_pc t')) - Z.b2z (is_online (t_pc t)));
  cs_objs : objs_step m m' (t_key t) (Z.b2z (holds_co (t_pc t')) - Z.b2z (holds_co (t_pc t)))
    (Z.b2z (is_open (t_pc t')) - Z.b2z (is_open (t_pc t)));
  cs_order : t_co t' = t_co t ∧ (holds_co (t_pc t') = true → holds_co (t_pc t) = true)
    ∨ holds_co (t_pc t) = false ∧ t_co t' = count (of_key (t_key t) holds_co) ts + 1;
  cs_dial : dialling (t_pc t') = true → t_co t' ≤ M;
  cs_reset : is_reset (t_pc t') = false;
  cs_sum : Z.b2z (is_open (t_pc t')) + Z.b2z (dialling (t_pc t')) ≤ Z.b2z (is_open (t_pc t)) + Z.b2z (dialling (t_pc t))
    ∨ is_open (t_pc t') = is_open (t_pc t) ∧
      ∀ r o, status m !! t_key t = Some r → objs m !! r = Some o → alive o < except o;
}.

Lemma order_move m m' ts i t t' new : counts_ok (mkSys m ts) → ts !! i = Some t → count_step m m' ts t t' → Forall idle new →
  ∀ k n, 0 ≤ n → count (saw_co k n) (<[i := t']> ts ++ new) ≤ n.
Proof.
  intros [_ _ Hord _ _] Hi [Hk _ _ Ho _ _ _] Hn k n Hnn. cbn [s_ts s_m] in *. specialize (Hord k n Hnn).
  assert (Forall (λ t, saw_co k n t = false) new) as Hnew.
  { eapply Forall_impl; [|apply (of_key_idle k holds_co new Hn); auto]. intros x E. unfold saw_co. by rewrite E. }
  rewrite (count_moved _ _ _ _ _ _ Hi Hnew). unfold saw_co at 2 3. unfold of_key. rewrite Hk.
  destruct (bool_decide_reflect (t_key t = k)) as [<-|]; cbn [andb]; [|cbn; lia]. destruct Ho as [[Hc Hh]|[Hh Hc]].
  - rewrite Hc. destruct (holds_co (t_pc t')); [rewrite Hh by done; lia|]. destruct (holds_co (t_pc t)); cbn [andb]; [destruct (_ <=? _); cbn; lia|cbn; lia].
  - rewrite Hh. cbn [andb]. destruct (holds_co (t_pc t')); cbn [andb]; [|cbn; lia]. destruct (Z.leb_spec (t_co t') n); cbn; [|lia].
    assert (count (saw_co (t_key t) n) ts ≤ count (of_key (t_key t) holds_co) ts); [|lia].
    apply count_le. intros x Hx. unfold saw_co in Hx. by apply andb_prop in Hx as [Hx _].
Qed.

Lemma dial_move m m' ts i t t' new : counts_ok (mkSys m ts) → count_step m m' ts t t' → Forall idle new →
  Forall (λ t, dialling (t_pc t) = true → t_co t ≤ M) (<[i := t']> ts ++ new).
Proof.
  intros [_ _ _ Hd _] [_ _ _ _ Hd' _ _] Hn. apply Forall_app. split; [by apply Forall_insert|].
  eapply Forall_impl; [|exact Hn]. intros x (H1 & _ & _) Hx. apply dialling_holds in Hx. congruence.
Qed.

(** At most [M] goroutines of a key are dialling, or waiting to be opened. *)
Lemma dialling_bound k ts : Forall (λ t, dialling (t_pc t) = true → t_co t ≤ M) ts → count (saw_co k M) ts ≤ M →
  count (of_key k dialling) ts ≤ M.
Proof.
  intros Hd Hc. etrans; [|exact Hc]. apply count_le_in. eapply Forall_impl; [|exact Hd]. intros t Ht Hk. unfold saw_co, of_key in *.
  apply andb_prop in Hk as [-> Hk]. rewrite (dialling_holds _ Hk). specialize (Ht Hk). cbn [andb]. blia.
Qed.

Lemma counts_move m m' ts i t t' new : refs_ok (mkSys m ts) → counts_ok (mkSys m ts) → ts !! i = Some t → count_step m m' ts t t' →
  Forall idle new → len ts < 2 ^ 31 → counts_ok (mkSys m' (<[i := t']> ts ++ new)).
Proof.
  intros [_ Rinj Robj _] Hc Hi Hst Hn Hlen. pose proof (order_move m m' ts i t t' new Hc Hi Hst Hn) as Hord'.
  pose proof (dial_move m m' ts i t t' new Hc Hst Hn) as Hdial'. pose proof Hc as [Hon Hobj Hord Hdl Hrs]. pose proof Hst as [Hk Hon' [Hs Hob] _ _ Hrs' Hsum].
  cbn [s_m s_ts] in *.
  assert (∀ k f, (∀ p, f p = true → holds_co p = true ∨ is_open p = true) → count (of_key k f) (<[i := t']> ts ++ new) =
    count (of_key k f) ts + if decide (t_key t = k) then Z.b2z (f (t_pc t')) - Z.b2z (f (t_pc t)) else 0) as Hmv.
  { intros k f Hf. rewrite (count_moved _ _ _ _ _ _ Hi (of_key_idle k f new Hn Hf)). unfold of_key. rewrite Hk.
    case_decide; [rewrite bool_decide_true by done|rewrite bool_decide_false by done]; cbn; lia. }
  assert (∀ f, 0 ≤ count f (<[i := t']> ts) < 2 ^ 31) as Hrange.
  { intros f. pose proof (count_nonneg f (<[i := t']> ts)). pose proof (count_len f (<[i := t']> ts)) as Hl. rewrite length_insert in Hl. lia. }
  assert (∀ k f, (∀ p, f p = true → holds_co p = true ∨ is_open p = true) → 0 ≤ count (of_key k f) (<[i := t']> ts ++ new) < 2 ^ 31) as Hrange'.
  { intros k f Hf. rewrite count_app, (count_none _ new (of_key_idle k f new Hn Hf)), Z.add_0_r. apply Hrange. }
  split; cbn [s_m s_ts]; [| |exact Hord'|exact Hdial'|].
  - assert (Forall (λ t, by_pc is_online t = false) new) as Hnew by (eapply Forall_impl; [|exact Hn]; by intros x (_ & _ & ?)).
    rewrite (count_moved _ _ _ _ _ _ Hi Hnew). specialize (Hrange (by_pc is_online)). rewrite (count_insert _ _ _ _ _ Hi) in Hrange.
    change (by_pc is_online t) with (is_online (t_pc t)) in *. change (by_pc is_online t') with (is_online (t_pc t')) in *.
    apply added_exact in Hon'; [lia|destruct (is_online _), (is_online _); cbn; lia|lia].
  - intros k r o' Hkr Ho'. rewrite Hs in Hkr. destruct (Hob r o' Ho') as (o & Ho & He & Hadd). destruct (Hobj k r o Hkr Ho) as (Eco & Eal & Esum).
    rewrite !Hmv by (auto using dialling_holds). rewrite He. case_decide as Hd; case_decide as Hkk.
    + subst k. destruct Hadd as [Aco Aal].
      pose proof (Hmv (t_key t) holds_co ltac:(auto)) as Mh. pose proof (Hmv (t_key t) is_open ltac:(auto)) as Mo. rewrite decide_True in Mh, Mo by done.
      pose proof (Hrange' (t_key t) holds_co ltac:(auto)). pose proof (Hrange' (t_key t) is_open ltac:(auto)).
      apply added_exact in Aco; [|destruct (holds_co _), (holds_co _); cbn; lia|lia].
      apply added_exact in Aal; [|destruct (is_open _), (is_open _); cbn; lia|lia].
      split_and!; [lia|lia|]. destruct Hsum as [Hsum|[Hop Hsum]]; [lia|]. specialize (Hsum r o Hkr Ho).
      pose proof (dialling_bound (t_key t) _ Hdial' (Hord' (t_key t) M M_nonneg)) as Hb.
      rewrite Hmv, decide_True in Hb by (auto using dialling_holds). rewrite Hop. lia.
    + exfalso. apply Hkk. by eapply Rinj.
    + subst k. done.
    + subst o'. lia.
  - apply Forall_app. split; [by apply Forall_insert|]. eapply Forall_impl; [|exact Hn]. intros x (Hx & _ & _). by destruct (t_pc x).
Qed.

(** A key without a status has no goroutine past the point where it is made. *)
Lemma key_unused m ts k f : refs_ok (mkSys m ts) → status m !! k = None → (∀ p, f p = true → past_status p = true) → count (of_key k f) ts = 0.
Proof.
  intros [_ _ _ Ht] Hk Hf. apply count_none. eapply Forall_impl; [|exact Ht]. intros t [_ _ Hp _]. unfold of_key.
  destruct (f (t_pc t)) eqn:E; [|apply andb_false_r]. rewrite andb_true_r. apply bool_decide_false. intros <-.
  destruct (Hp (Hf _ E)) as [r Hr]. cbn [s_m] in Hr. congruence.
Qed.

Lemma counts_new m ts i t : refs_ok (mkSys m ts) → counts_ok (mkSys m ts) → ts !! i = Some t → t_pc t = AStatus → status m !! t_key t = None →
  counts_ok (mkSys (set_status m (<[t_key t := length (objs m)]> (status m)) (objs m ++ [mkStatus (wrapS 32 (t_max t)) 0 0 (t_para t)]))
    (<[i := goto t (AInc (length (objs m)))]> ts)).
Proof.
  intros Hr Hc Hi Ep Hk. pose proof Hr as [_ _ Robj _]. destruct Hc as [Hon Hobj Hord Hdl Hrs]. cbn [s_m s_ts] in *.
  assert (∀ f, f AStatus = false → f (AInc (length (objs m))) = false → ∀ k, count (of_key k f) (<[i := goto t (AInc (length (objs m)))]> ts) = count (of_key k f) ts) as Hsame.
  { intros f F1 F2 k. rewrite (count_insert _ _ _ _ _ Hi). unfold of_key. cbn [goto t_pc]. rewrite Ep, F1, F2, !andb_false_r. cbn. lia. }
  split; cbn [s_m s_ts set_status status objs online].
  - rewrite (count_insert _ _ _ _ _ Hi). unfold by_pc at 2 3. cbn [goto t_pc]. rewrite Ep. cbn. lia.
  - intros k r o Hkr Ho. rewrite !Hsame by done. apply lookup_insert_Some in Hkr as [[<- <-]|[Hne Hkr]].
    + rewrite list_lookup_middle in Ho by done. injection Ho as <-. cbn [co alive except].
      rewrite !(key_unused m ts) by (try done; by intros []). lia.
    + destruct (Robj k r Hkr) as (o2 & Ho2 & _). rewrite (lookup_app_l_Some _ _ _ _ Ho2) in Ho. injection Ho as <-. by apply (Hobj k r).
  - intros k n Hn. rewrite (count_insert _ _ _ _ _ Hi). unfold saw_co at 2 3, of_key. cbn [goto t_pc]. rewrite Ep. cbn [holds_co].
    rewrite !andb_false_r. cbn. specialize (Hord k n Hn). lia.
  - by apply Forall_insert.
  - by apply Forall_insert.
Qed.

(** A step that takes [co]. *)
Lemma count_step_inc m ts i t r : counts_ok (mkSys m ts) → refs_ok (mkSys m ts) → ts !! i = Some t → t_pc t = AInc r → len ts < 2 ^ 31 →
  ∃ n, fst (addDialer_step m t Works) = on_obj m r (add_co 1) ∧ snd (addDialer_step m t Works) = with_co t n (ACheck r) ∧
    count_step m (on_obj m r (add_co 1)) ts t (with_co t n (ACheck r)).
Proof.
  intros [Hon Hobj _ _ _] [_ _ Robj Rt] Hi Ep Hlen. cbn [s_m s_ts] in *. pose proof (Forall_lookup_1 _ _ _ _ Rt Hi) as [_ T2 _ _].
  rewrite Ep in T2. specialize (T2 r eq_refl). destruct (Robj _ _ T2) as (o & Ho & _). destruct (Hobj _ _ _ T2 Ho) as (Eco & _ & _).
  pose proof (count_insert (of_key (t_key t) holds_co) ts i t (goto t (ACheck r)) Hi) as Hins. pose proof (count_len (of_key (t_key t) holds_co) (<[i := goto t (ACheck r)]> ts)) as Hl.
  rewrite length_insert in Hl. unfold of_key in Hins at 3 4. cbn [goto t_pc] in Hins. change (t_key (goto t (ACheck r))) with (t_key t) in Hins.
  rewrite Ep, bool_decide_true in Hins by done. cbn in Hins. pose proof (count_nonneg (of_key (t_key t) holds_co) ts).
  assert (AddInt32 (co o) 1 = count (of_key (t_key t) holds_co) ts + 1) as En.
  { unfold AddInt32. rewrite wrapS_add_r, Eco. apply wrapS_small; lia. }
  exists (AddInt32 (co o) 1). unfold addDialer_step. rewrite Ep, Ho. replace (AddInt32 (co o) 1 <=? 0) with false by blia. split; [done|]. split; [done|].
  split; cbn [with_co t_pc t_co]; rewrite ?Ep; try done.
  - left. cbn. lia.
  - apply objs_on; [done|]. intros x. split; [done|]. split; [by right|left; cbn; lia].
  - right. split; [done|]. by rewrite En.
  - by left.
Qed.

(** The steps that do not take [co] and do not pass the check. *)
Lemma count_step_next m m' ts t t' : t_key t' = t_key t → t_co t' = t_co t → (dialling (t_pc t) = true → t_co t ≤ M) →
  (holds_co (t_pc t') = true → holds_co (t_pc t) = true) → (dialling (t_pc t') = true → dialling (t_pc t) = true) →
  Z.b2z (is_open (t_pc t')) + Z.b2z (dialling (t_pc t')) ≤ Z.b2z (is_open (t_pc t)) + Z.b2z (dialling (t_pc t)) →
  added (online m) (online m') (Z.b2z (is_online (t_pc t')) - Z.b2z (is_online (t_pc t))) →
  objs_step m m' (t_key t) (Z.b2z (holds_co (t_pc t')) - Z.b2z (holds_co (t_pc t))) (Z.b2z (is_open (t_pc t')) - Z.b2z (is_open (t_pc t))) →
  is_reset (t_pc t') = false → count_step m m' ts t t'.
Proof. intros Hk Hc Hd Hh Hdd Hs Hon Ho Hr. split; try done; [by left|intros; rewrite Hc; auto|by left]. Qed.

(** A goroutine that passes the check of [alive] and of [co]. *)
Lemma count_step_pass m ts i t r : refs_ok (mkSys m ts) → ts !! i = Some t → t_pc t = ACheck r → t_co t ≤ wrapS 32 (t_max t) →
  (∀ o, objs m !! r = Some o → alive o < except o) → count_step m m ts t (goto t (ABoot r)).
Proof.
  intros [_ _ _ Rt] Hi Ep Hco Hal. destruct (Forall_lookup_1 _ _ _ _ Rt Hi) as [T1 T2 _ _]. rewrite Ep in T2. specialize (T2 r eq_refl).
  split; cbn [goto t_pc t_co]; rewrite ?Ep; try done.
  - left. cbn. lia.
  - by apply objs_same.
  - by left.
  - intros _. lia.
  - right. split; [done|]. cbn [s_m] in T2. intros r' o Hr. rewrite T2 in Hr. injection Hr as <-. apply Hal.
Qed.

Ltac next_step Ep :=
  apply count_step_next; cbn [goto with_cid t_pc t_co]; rewrite ?Ep; cbn [holds_co dialling is_open is_online is_reset Z.b2z]; try done; try lia;
  try (left; cbn; lia); try (right; done);
  first [by apply objs_same|apply objs_on; [done|]; intros; split; [done|]; split; first [by right|left; cbn; lia]].

Lemma counts_run m ts i t o : refs_ok (mkSys m ts) → cids_ok (mkSys m ts) → counts_ok (mkSys m ts) → ts !! i = Some t → len ts < 2 ^ 31 →
  let '(m', t', new) := thread_step gen m t o in counts_ok (mkSys m' (<[i := t']> ts ++ new)).
Proof.
  intros Hs Hc Hn Hi Hlen. pose proof (stored_in m ts i t Hc Hi) as Hin. pose proof (unstored_out m ts i t Hc Hi) as Hout.
  pose proof Hs as [H1 _ H3 H4]. pose proof Hn as [_ _ _ H5 H6]. cbn [s_m s_ts] in *. pose proof (Forall_lookup_1 _ _ _ _ H4 Hi) as [T1 T2 T3 T4].
  pose proof (Forall_lookup_1 _ _ _ _ H5 Hi) as Hd. pose proof (Forall_lookup_1 _ _ _ _ H6 Hi) as Hrst. cbn beta in Hd, Hrst.
  assert (∀ m' t' new, count_step m m' ts t t' → Forall idle new → counts_ok (mkSys m' (<[i := t']> ts ++ new))) as Hmove by (intros; by apply (counts_move m _ _ _ t)).
  destruct (t_pc t) as [| |r|r|r|r|r| | | | |r|r|r|r| | | |r| |r| |r| |] eqn:Ep.
  3: { unfold thread_step. rewrite Ep. destruct (count_step_inc m ts i t r Hn Hs Hi Ep Hlen) as (n & E1 & E2 & Hst).
    assert (addDialer_step m t o = addDialer_step m t Works) as -> by (unfold addDialer_step; by rewrite Ep).
    destruct (addDialer_step m t Works) as [m' t']. cbn [fst snd] in *. subst. by apply Hmove. }
  all: unfold thread_step, addDialer_step, attach_step, OnOpen_step, OnClose_step, KeepAlive_step, close_load; rewrite Ep; cbn [pc_ref past_status is_stored has_cid] in *.
  all: try (pose proof (T2 r eq_refl) as Hr; destruct (H3 _ _ Hr) as (o' & Ho & _)).
  21: done.
  2: { destruct (status m !! t_key t) as [r|] eqn:Er; [apply Hmove; [next_step Ep|done]|]. rewrite app_nil_r. by apply counts_new. }
  3: { rewrite Ho. destruct (Z.leb_spec (except o') (alive o')); cbn [orb]; [apply Hmove; [next_step Ep|done]|].
    destruct (Z.ltb_spec (wrapS 32 (t_max t)) (t_co t)); [apply Hmove; [next_step Ep|done]|].
    apply Hmove; [|done]. apply (count_step_pass _ _ i); try done. intros ? [= <-]%(eq_trans (eq_sym Ho)). done. }
  2: done.
  6: { rewrite bool_decide_false by (by apply Hout). destruct o; (apply Hmove; [next_step Ep|done]). }
  11: { rewrite bool_decide_true by (by apply Hin). apply Hmove; [next_step Ep|done]. }
  15: { rewrite bool_decide_false by (rewrite H1; set_solver). apply Hmove; [next_step Ep|done]. }
  15: { rewrite Ho. apply Hmove; [next_step Ep|by apply Forall_replicate]. }
  5, 6, 12: destruct (T3 eq_refl) as [r Hr]; rewrite Hr.
  all: repeat case_match; simplify_eq; (apply Hmove; [next_step Ep|done]).
Qed.

Lemma counts_append m ts t : counts_ok (mkSys m ts) → idle t → counts_ok (mkSys m (ts ++ [t])).
Proof.
  intros [C1 C2 C3 C4 C5] Ht. cbn [s_m s_ts] in *. pose proof Ht as (Hh & Ho & Hl).
  assert (Forall idle [t]) as Hi by (by constructor).
  assert (∀ k f, (∀ p, f p = true → holds_co p = true ∨ is_open p = true) → count (of_key k f) (ts ++ [t]) = count (of_key k f) ts) as Hsame.
  { intros k f Hf. rewrite count_app, (count_none _ _ (of_key_idle k f [t] Hi Hf)). lia. }
  split; cbn [s_m s_ts].
  - rewrite count_app, C1. unfold count at 3. simpl. unfold by_pc. rewrite Hl. simpl. lia.
  - intros k r o Hk Hr. rewrite !Hsame by auto using dialling_holds. by apply (C2 k r).
  - intros k n Hn. rewrite count_app. unfold count at 2. simpl. unfold saw_co at 2, of_key. rewrite Hh, andb_false_r. simpl. specialize (C3 k n Hn). lia.
  - apply Forall_app. split; [done|]. constructor; [|done]. intros E. apply dialling_holds in E. congruence.
  - apply Forall_app. split; [done|]. constructor; [|done]. by destruct (t_pc t).
Qed.

Lemma counts_step s ev : refs_ok s → cids_ok s → counts_ok s → event_ok ev → len (s_ts s) < 2 ^ 31 → counts_ok (dial_step gen s ev).
Proof.
  intros Hs Hc Hn Hev Hlen. destruct s as [m ts]. destruct ev as [p max|op key addr|key|i|i o]; cbn [dial_step event_ok s_ts] in *.
  - by apply counts_append.
  - destruct Hn as [C1 C2 C3 C4 C5]. unfold updateDialer. by case_bool_decide.
  - destruct (status m !! key ≫= _) as [[r o]|]; [|done]. by apply counts_append.
  - done.
  - destruct (ts !! i) as [t|] eqn:Hi; [|done]. pose proof (counts_run m ts i t o Hs Hc Hn Hi Hlen) as R.
    by destruct (thread_step gen m t o) as [[m' t'] new].
Qed.

(** Goroutines are never forgotten. *)
Lemma threads_grow s ev : len (s_ts s) ≤ len (s_ts (dial_step gen s ev)).
Proof.
  destruct s as [m ts]. destruct ev; cbn [dial_step s_ts]; repeat case_match; simplify_eq; cbn [s_ts]; rewrite ?length_app, ?length_insert; simpl; lia.
Qed.

Lemma threads_grow_steps evs : ∀ s, len (s_ts s) ≤ len (s_ts (dial_steps gen s evs)).
Proof. induction evs as [|ev evs IH]; intros s; [done|]. cbn [dial_steps]. etrans; [apply (threads_grow s ev)|apply IH]. Qed.

Lemma dial_steps_ok evs : ∀ s, refs_ok s → cids_ok s → counts_ok s → Forall event_ok evs → len (s_ts (dial_steps gen s evs)) < 2 ^ 31 →
  refs_ok (dial_steps gen s evs) ∧ cids_ok (dial_steps gen s evs) ∧ counts_ok (dial_steps gen s evs).
Proof.
  induction evs as [|ev evs IH]; intros s Hr Hc Hn He Hl; [done|]. apply list.Forall_cons in He as [He1 He2]. cbn [dial_steps] in *.
  pose proof (threads_grow s ev). pose proof (threads_grow_steps evs (dial_step gen s ev)).
  apply IH; [by apply refs_step|by apply cids_step|by apply counts_step; try done; lia|done|done].
Qed.

Lemma new_mng_ok : refs_ok new_mng ∧ cids_ok new_mng ∧ counts_ok new_mng.
Proof.
  split_and!; split; cbn; try done; set_solver.
Qed.


End Regime.

(** ** Witness and examples *)

Definition test_para : DialParam := mkPara (str "10.0.0.1:80") [] (str "db") 0.
Definition run_n (i n : nat) : list dial_event := replicate n (ERun i Works).

(** Two requests for two connections; after the first opens, a third request passes both checks. *)
Definition overshoot : list dial_event :=
  [ECall test_para 2; ECall test_para 2] ++ run_n 0 6 ++ run_n 1 6 ++ run_n 0 6
  ++ [ECall test_para 2] ++ run_n 2 6 ++ run_n 1 6 ++ run_n 2 6.

Definition summary (s : dial_sys) : Z * list (Z * Z * Z) :=
  (online (s_m s), (λ o, (except o, alive o, co o)) <$> objs (s_m s)).

(** Three connections are open where two were wanted. *)
Example more_than_wanted : summary (dial_steps Z.of_nat new_mng overshoot) = (3, [(2, 3, 0)]).
Proof. vm_compute. reflexivity. Qed.


(** A key is made inactive, deleted, and active again while a connection of it is open: the
    new object counts from 0, and the close of the old connection hides the new one. *)
Example reactivation_undercounts :
  summary (dial_steps Z.of_nat new_mng ([ECall test_para 2] ++ run_n 0 12 ++
    [EUpdate (str "del") (str "db") (str "10.0.0.1:80"); ETick (dial_key test_para)] ++ run_n 1 2 ++
    [EUpdate (str "add") (str "db") (str "10.0.0.1:80"); ECall test_para 2] ++ run_n 2 12 ++ run_n 0 6))
  = (1, [(2, 1, 0); (2, 0, 0)]).
Proof. vm_compute. reflexivity. Qed.

(** [Server.Close] and the close by the loop both find the entry and both count down. *)
Example close_counted_twice :
  summary (dial_steps Z.of_nat new_mng ([ECall test_para 2] ++ run_n 0 12 ++
    [EClose 0; ERun 0 Works; ERun 1 Works] ++ run_n 0 4 ++ run_n 1 4))
  = (-1, [(2, -1, 0)]).
Proof. vm_compute. reflexivity. Qed.

(** A certificate without the TLS type: the connection is dropped, and [co] keeps its place. *)
Example certificate_without_tls :
  summary (dial_steps Z.of_nat new_mng ([ECall (mkPara (str "10.0.0.1:80") (str "c") (str "db") TYPE_CONN) 2] ++ run_n 0 12))
  = (0, [(2, 0, 1)]).
Proof. vm_compute. reflexivity. Qed.
