(* ===== verification/EngineConn.v ===== *)
(** * connection.EngineConn: what the event loop relies on

    [EngineConn] is the part of the interface [connection.EngineConn] that the
    event loop calls; [EngineConnLaws] says what the loop relies on.  The plain
    TCP connection of [Conn.v] is an instance, [Conn_EngineConn], and its laws are
    discharged from the theorems about the write queue and the flush. *)

From stdpp Require Import strings.
From S2P Require Import Prelude Pool Tuning WriteQueue RingBuffer Conn.

(** What the loop can observe of a connection without a system call. *)
Record ConnView := mkView {
  v_fd : Z; v_id : Z; v_loopID : Z; v_type : Z; v_client : bool;
  v_recvbuf : RingBuffer;
  v_unsent : list Z;     (* the bytes in the write queue *)
}.

Definition view_fd (v : ConnView) x := mkView x (v_id v) (v_loopID v) (v_type v) (v_client v) (v_recvbuf v) (v_unsent v).
Definition view_id (v : ConnView) x := mkView (v_fd v) x (v_loopID v) (v_type v) (v_client v) (v_recvbuf v) (v_unsent v).
Definition view_loopID (v : ConnView) x := mkView (v_fd v) (v_id v) x (v_type v) (v_client v) (v_recvbuf v) (v_unsent v).
Definition view_recvbuf (v : ConnView) x := mkView (v_fd v) (v_id v) (v_loopID v) (v_type v) (v_client v) x (v_unsent v).
Definition view_unsent (v : ConnView) x := mkView (v_fd v) (v_id v) (v_loopID v) (v_type v) (v_client v) (v_recvbuf v) x.

(** [ec_view], [ec_wf], [ec_sent] and [ec_got] are for specification: the bytes
    sent to, and received from, the peer so far.  The loop calls the others. *)
Class EngineConn (P K C : Type) := {
  ec_Fd : C → Z; ec_ID : C → Z; ec_LoopID : C → Z; ec_GetType : C → Z; ec_IsClient : C → bool;
  ec_Recvbuf : C → RingBuffer; ec_PendingWrite : C → Z;
  ec_IsKTLS : C → bool;                 (* false when the method is missing *)
  ec_BufferedPlaintextLen : C → Z;      (* 0 when the method is missing *)
  ec_SetID : C → Z → C; ec_SetLoopID : C → Z → C; ec_SetLastRecv : C → Z → C;
  ec_with_recvbuf : C → RingBuffer → C; (* the buffer behind [Recvbuf()], changed in place *)
  ec_accepted : Z → C;                  (* the connection [accept] builds for a descriptor *)
  ec_Read : K → C → Z → K * C * list Z * (Z * option errno);
  ec_Write : K → C → list Z → K * C * (Z * option errno);
  ec_FlushN : P → K → C → Z → option (P * K * C * (Z * option errno));
  ec_EnqueueWrite : P → C → list Z → Z → option (P * C);
  ec_Close : P → K → C → P * K * C;
  ec_view : C → ConnView;
  ec_wf : C → Prop;
  ec_sent : K → C → list Z;
  ec_got : K → C → list Z;
}.

Section Step.
Context {P K C : Type} `{!EngineConn P K C}.

(** A call on [c] that sends [s], receives [g] and leaves the view [v]; it does not
    touch the streams of connections on other descriptors. *)
Record conn_step (k : K) (c : C) (k' : K) (c' : C) (v : ConnView) (s g : list Z) : Prop := {
  cs_wf : ec_wf c';
  cs_view : ec_view c' = v;
  cs_sent : ec_sent k' c' = ec_sent k c ++ s;
  cs_got : ec_got k' c' = ec_got k c ++ g;
  cs_other d : v_fd (ec_view d) ≠ v_fd (ec_view c) →
    ec_sent k' d = ec_sent k d ∧ ec_got k' d = ec_got k d;
}.
End Step.

Class EngineConnLaws (P K C : Type) `{AllocatorLaws P, Kernel K, EngineConn P K C} : Prop := {
  (* the streams of a connection are determined by those of its descriptor *)
  ec_streams k k' c : k_out k' (v_fd (ec_view c)) = k_out k (v_fd (ec_view c)) →
    k_in k' (v_fd (ec_view c)) = k_in k (v_fd (ec_view c)) →
    ec_sent k' c = ec_sent k c ∧ ec_got k' c = ec_got k c;
  ec_observe c : ec_wf c →
    ec_Fd c = v_fd (ec_view c) ∧ ec_ID c = v_id (ec_view c) ∧ ec_LoopID c = v_loopID (ec_view c) ∧
    ec_GetType c = v_type (ec_view c) ∧ ec_IsClient c = v_client (ec_view c) ∧
    ec_Recvbuf c = v_recvbuf (ec_view c) ∧ ec_PendingWrite c = len (v_unsent (ec_view c));
  ec_SetID_ok k c i : ec_wf c → conn_step k c k (ec_SetID c i) (view_id (ec_view c) i) [] [];
  ec_SetLoopID_ok k c i : ec_wf c → conn_step k c k (ec_SetLoopID c i) (view_loopID (ec_view c) i) [] [];
  ec_SetLastRecv_ok k c i : ec_wf c → conn_step k c k (ec_SetLastRecv c i) (ec_view c) [] [];
  ec_with_recvbuf_ok k c rb : ec_wf c → conn_step k c k (ec_with_recvbuf c rb) (view_recvbuf (ec_view c) rb) [] [];
  ec_accepted_ok fd : ec_wf (ec_accepted fd) ∧
    ec_view (ec_accepted fd) = mkView fd 0 0 TYPE_CONN false NewRingBuffer [];
  ec_Read_ok k c m : ec_wf c → v_fd (ec_view c) ≠ 0 →
    let '(k', c', d, (n, e)) := ec_Read k c m in
    conn_step k c k' c' (ec_view c) [] d ∧
    match e with
    | None => n = len d ∧ len d ≤ Z.max 0 m
    | Some e => d = [] ∧ n ≤ 0 ∧ (e = EAGAIN → n = 0)
    end;
  ec_Write_ok k c b : ec_wf c → v_fd (ec_view c) ≠ 0 →
    let '(k', c', (n, e)) := ec_Write k c b in
    conn_step k c k' c' (ec_view c) (take (Z.to_nat n) b) [] ∧ n ≤ len b ∧ match e with None => 0 ≤ n | Some _ => n ≤ 0 end;
  ec_FlushN_ok pool k c m : al_inv pool → ec_wf c → v_fd (ec_view c) ≠ 0 →
    ∃ pool' k' c' n e, ec_FlushN pool k c m = Some (pool', k', c', (n, e)) ∧
      al_inv pool' ∧ al_max pool' = al_max pool ∧ n ≤ len (v_unsent (ec_view c)) ∧
      conn_step k c k' c' (view_unsent (ec_view c) (drop (Z.to_nat n) (v_unsent (ec_view c))))
        (take (Z.to_nat n) (v_unsent (ec_view c))) [];
  ec_EnqueueWrite_ok pool k c buf size : al_inv pool → ec_wf c → size ≤ len buf →
    ∃ pool' c', ec_EnqueueWrite pool c buf size = Some (pool', c') ∧
      al_inv pool' ∧ al_max pool' = al_max pool ∧
      conn_step k c k c' (view_unsent (ec_view c) (v_unsent (ec_view c) ++ take (Z.to_nat size) buf)) [] [];
  ec_Close_ok pool k c : al_inv pool → ec_wf c →
    let '(pool', k', c') := ec_Close pool k c in
    al_inv pool' ∧ al_max pool' = al_max pool ∧ ec_wf c' ∧
    ec_view c' = view_unsent (view_fd (ec_view c) 0) [] ∧
    ∀ d, v_fd (ec_view d) ≠ v_fd (ec_view c) → ec_sent k' d = ec_sent k d ∧ ec_got k' d = ec_got k d;
}.

(** ** The plain TCP connection *)

Section ConnInstance.
Context {P K H A X : Type} `{AL : AllocatorLaws P, KL : KernelLaws K}.
Variable grow : Z → Z → Z.
Variable T : Connection.

Definition Conn_view (c : Conn H A X) : ConnView :=
  let b := c_base c in
  mkView (b_fd b) (b_id b) (b_loopID b) TYPE_CONN (b_Client b) (default NewRingBuffer (b_recvbuf b)) (wq_data (b_wq b)).

(** The connection [accept] builds; addresses and endpoint do not concern the loop. *)
Definition Conn_accepted (fd : Z) : Conn H A X :=
  mkConn (mkBase None fd 0 0 None (Some NewRingBuffer) None None "" "" "" false None 0 0 0 wq_empty) false false.

#[local] Instance Conn_EngineConn : EngineConn P K (Conn H A X) := {
  ec_Fd c := b_fd (c_base c);
  ec_ID c := b_id (c_base c);
  ec_LoopID c := b_loopID (c_base c);
  ec_GetType c := Conn_GetType c;
  ec_IsClient c := b_Client (c_base c);
  ec_Recvbuf c := default NewRingBuffer (b_recvbuf (c_base c));
  ec_PendingWrite c := Base_PendingWrite (c_base c);
  ec_IsKTLS c := false;
  ec_BufferedPlaintextLen c := 0;
  ec_SetID c i := Conn_with_base c (Base_SetID (c_base c) i);
  ec_SetLoopID c i := Conn_with_base c (Base_SetLoopID (c_base c) i);
  ec_SetLastRecv c t := Conn_with_base c (Base_SetLastRecv (c_base c) t);
  ec_with_recvbuf c rb := Conn_with_base c (Base_SetRecvbuf (c_base c) rb);
  ec_accepted := Conn_accepted;
  ec_Read := Conn_Read;
  ec_Write := Conn_Write;
  ec_FlushN := Conn_FlushN T;
  ec_EnqueueWrite pool c buf size :=
    '(pool, b) ← Base_EnqueueWrite grow T pool (c_base c) buf size; Some (pool, Conn_with_base c b);
  ec_Close pool k c := let '(pool, k, c, _, _) := Conn_Close T pool k c in (pool, k, c);
  ec_view := Conn_view;
  ec_wf c := wq_inv (b_wq (c_base c));
  ec_sent k c := k_out k (b_fd (c_base c));
  ec_got k c := k_in k (b_fd (c_base c));
}.

Lemma Conn_Read_ok k c m :
    let '(k', c', d, (n, e)) := Conn_Read k c m in
    wq_inv (b_wq (c_base c)) →
    conn_step k c k' c' (Conn_view c) [] d ∧
    match e with
    | None => n = len d ∧ len d ≤ Z.max 0 m
    | Some e => d = [] ∧ n ≤ 0 ∧ (e = EAGAIN → n = 0)
    end.
Proof.
  unfold Conn_Read. pose proof (sys_read_ok k (b_fd (c_base c)) m) as Hr.
  destruct (sys_read k (b_fd (c_base c)) m) as [[[k' d] n] e]. destruct Hr as (Hout & Hin & Hd & Hres).
  intros Hwf. split.
  - set (r := if bool_decide (e = Some EAGAIN) then 0 else n).
    split; simpl; rewrite ?app_nil_r; destruct (0 <? r); simpl; try done;
      intros d' Hne; split; try done; by apply Hin.
  - destruct e as [e|].
    + destruct Hres as [-> ->]. split; [done|]. case_bool_decide; simplify_eq; [lia|]. split; [lia|].
      intros ->. done.
    + by rewrite bool_decide_false by done.
Qed.

Lemma Conn_Write_ok k c b : b_fd (c_base c) ≠ 0 → wq_inv (b_wq (c_base c)) →
    let '(k', c', (n, e)) := Conn_Write k c b in
    conn_step k c k' c' (Conn_view c) (take (Z.to_nat n) b) [] ∧ n ≤ len b ∧ match e with None => 0 ≤ n | Some _ => n ≤ 0 end.
Proof.
  intros Hfd Hwf. unfold Conn_Write. zb. pose proof (sys_write_ok k (b_fd (c_base c)) b) as Hr.
  destruct (sys_write k (b_fd (c_base c)) b) as [[k' n] e]. destruct Hr as (Hout & Hin & Hres).
  assert (k_out k' (b_fd (c_base c)) = k_out k (b_fd (c_base c)) ++ take (Z.to_nat n) b ∧ n ≤ len b ∧ match e with None => 0 ≤ n | Some _ => n ≤ 0 end) as (Hk & Hn & He).
  { destruct e as [e|]; destruct Hres as [Hn Hk]; [subst n|].
    - rewrite take_0, app_nil_r. split_and!; [done|lia|lia].
    - split_and!; [done|lia|lia]. }
  split; [|done]. split; simpl; rewrite ?app_nil_r; destruct (0 <? n); simpl; try done; intros d' Hne; split; try done; by apply Hout.
Qed.

Lemma Conn_FlushN_ok pool k c m : al_inv pool → wq_inv (b_wq (c_base c)) → b_fd (c_base c) ≠ 0 →
    ∃ pool' k' c' n e, Conn_FlushN T pool k c m = Some (pool', k', c', (n, e)) ∧
      al_inv pool' ∧ al_max pool' = al_max pool ∧ n ≤ len (wq_data (b_wq (c_base c))) ∧
      conn_step k c k' c' (view_unsent (Conn_view c) (drop (Z.to_nat n) (wq_data (b_wq (c_base c)))))
        (take (Z.to_nat n) (wq_data (b_wq (c_base c)))) [].
Proof.
  intros Hp Hwf Hfd. unfold Conn_FlushN.
  destruct (flush_spec T pool k (b_fd (c_base c)) (b_wq (c_base c)) m (b_send (c_base c)) Hwf Hfd)
    as (pool' & k' & wq' & send' & n & err & -> & [Hi Hd Ho Hoth Hin Hle _ _ Hs Hput]). simpl.
  destruct (puts_account_inv _ _ _ _ Hp Hput) as [Hp' Hm].
  eexists _, _, _, _, _. split; [done|]. split_and!; [done..|].
  split; simpl; rewrite ?app_nil_r; try done.
  - unfold Conn_view, view_unsent. simpl. by rewrite Hd.
  - intros d' Hne. split; [by apply Hoth|done].
Qed.

#[local] Instance Conn_EngineConnLaws : EngineConnLaws P K (Conn H A X).
Proof.
  split; try (intros k c i Hwf; by split; simpl; rewrite ?app_nil_r).
  - intros c Hwf. split_and!; try done. apply Hwf.
  - intros fd. split; [apply wq_inv_empty|done].
  - intros k c m Hwf _. pose proof (Conn_Read_ok k c m) as Hr. simpl.
    destruct (Conn_Read k c m) as [[[k' c'] d] [n e]]. by apply Hr.
  - intros k c b Hwf Hfd. by apply Conn_Write_ok.
  - intros pool k c m Hp Hwf Hfd. by apply Conn_FlushN_ok.
  - intros pool k c buf size Hp Hwf Hs. simpl. unfold Base_EnqueueWrite.
    destruct (enqueue_spec grow T pool (b_wq (c_base c)) buf size Hwf Hs) as (pool' & q' & -> & Hi & Hd & Hput). simpl.
    destruct (puts_account_inv _ _ _ _ Hp Hput) as [Hp' Hm].
    eexists _, _. split; [done|]. split_and!; [done..|].
    split; simpl; rewrite ?app_nil_r; try done. unfold Conn_view, view_unsent. simpl. by rewrite Hd.
  - intros pool k c Hp Hwf. simpl. unfold Conn_Close, Base_clearWrite.
    destruct (clear_spec T pool (b_wq (c_base c))) as (pool' & q' & -> & Hi & Hd & Hput).
    destruct (puts_account_inv _ _ _ _ Hp Hput) as [Hp' Hm]. simpl.
    pose proof (sys_close_ok k (b_fd (c_base c))) as Hc. destruct (sys_close k (b_fd (c_base c))) as [k' e]. simpl in *.
    split_and!; [done..| |intros d _; apply Hc]. unfold Conn_view. simpl. by rewrite Hd.
Qed.

End ConnInstance.
