(* ===== verification/EngineTls.v ===== *)
(** * Kernel TLS connections in the event loop

    A loop holds values of the interface [connection.EngineConn]: plain connections, and TLS
    connections of which, here, the kernel has both directions and the plaintext read during
    the handshake was delivered.  The sum of the two types is an instance of the class
    [EngineConn], so that what is proved of the loop holds of a loop that serves both.
    Connections that crypto/tls encrypts itself are not an instance: the counts that
    [FlushN] returns for them are of ciphertext. *)

From stdpp Require Import strings.
From S2P Require Import Prelude Pool Tuning WriteQueue RingBuffer Conn TlsStrict TlsConn EngineConn.

Section Mixed.
Context {P K H A X N E : Type} `{AL : AllocatorLaws P, KL : KernelLaws K, !NetConn N, !TlsEngine E}.
Variable grow : Z → Z → Z.
Variable T : Connection.

Definition mixed : Type := Conn H A X + ATLSConn H A X N E.
Implicit Types (c : mixed).

Definition m_base c : Base H A X := match c with inl c => c_base c | inr c => a_base c end.
Definition m_set_base c (b : Base H A X) : mixed :=
  match c with inl c => inl (Conn_with_base c b) | inr c => inr (a_set_base c b) end.
Definition m_type c : Z := match c with inl c => Conn_GetType c | inr c => ATLSConn_GetType c end.

(** The kernel has both directions, and nothing of the handshake is left. *)
Record in_kernel (c : ATLSConn H A X N E) : Prop := {
  ik_ktls : a_ktls c = true;
  ik_rx : a_ktlsRX c = true;
  ik_Conn : a_Conn c = None;
  ik_preRead : a_preRead c = [] ∧ a_preReadOff c = 0;
  ik_cout : match a_buf c with Some b => RingBuffer_Has (tb_cout b) = 0 | None => True end;
}.

Definition m_view c : ConnView :=
  let b := m_base c in
  mkView (b_fd b) (b_id b) (b_loopID b) (m_type c) (b_Client b) (default NewRingBuffer (b_recvbuf b)) (wq_data (b_wq b)).

(** [ATLSConn.Read] and [ATLSConn.Write] of such a connection: [kernel_Read_is_Read] and
    [kernel_Write_is_Write] below say so. *)
Definition kernel_Read (k : K) (c : ATLSConn H A X N E) (m : Z) : K * ATLSConn H A X N E * list Z * (Z * option errno) :=
  if b_fd (a_base c) =? 0 then (k, c, [], (0, Some EBADF))
  else if m =? 0 then (k, c, [], (0, None))
  else ktls_Read k c m.

Definition kernel_Write (k : K) (c : ATLSConn H A X N E) (p : list Z) : K * ATLSConn H A X N E * (Z * option errno) :=
  if b_fd (a_base c) =? 0 then (k, c, (0, Some EBADF))
  else if len p =? 0 then (k, c, (0, None))
  else ktls_Write k c p.

Lemma kernel_Read_is_Read fuel (pool : P) k (c : ATLSConn H A X N E) m : in_kernel c →
  ATLSConn_Read fuel pool k c m = let '(k, c, d, r) := kernel_Read k c m in Some (pool, k, c, d, r).
Proof.
  intros [Hk Hrx _ [Hp Ho] _]. unfold ATLSConn_Read, kernel_Read. rewrite Hk, Hrx, Hp, Ho. by destruct (_ =? 0), (m =? 0).
Qed.

Lemma kernel_Write_is_Write (pool : P) k (c : ATLSConn H A X N E) p : in_kernel c →
  ATLSConn_Write pool k c p = let '(k, c, r) := kernel_Write k c p in Some (pool, k, c, r).
Proof. intros [Hk _ _ _ _]. unfold ATLSConn_Write, kernel_Write. rewrite Hk. by destruct (_ =? 0), (len p =? 0). Qed.

Definition m_Read (k : K) c (m : Z) : K * mixed * list Z * (Z * option errno) :=
  match c with
  | inl c => let '(k, c, d, r) := Conn_Read k c m in (k, inl c, d, r)
  | inr c => let '(k, c, d, r) := kernel_Read k c m in (k, inr c, d, r)
  end.

Definition m_Write (k : K) c (p : list Z) : K * mixed * (Z * option errno) :=
  match c with
  | inl c => let '(k, c, r) := Conn_Write k c p in (k, inl c, r)
  | inr c => let '(k, c, r) := kernel_Write k c p in (k, inr c, r)
  end.

Definition m_FlushN (pool : P) (k : K) c (maxBytes : Z) : option (P * K * mixed * (Z * option errno)) :=
  match c with
  | inl c => '(pool, k, c, r) ← Conn_FlushN T pool k c maxBytes; Some (pool, k, inl c, r)
  | inr c => '(pool, k, c, r) ← ATLSConn_FlushN T 0 pool k c maxBytes; Some (pool, k, inr c, r)
  end.

(** An engine without buffers does not occur; [Close] would panic. *)
Definition m_Close (pool : P) (k : K) c : P * K * mixed :=
  match c with
  | inl c => let '(pool, k, c, _, _) := Conn_Close T pool k c in (pool, k, inl c)
  | inr c =>
      match ATLSConn_Close T pool k c with
      | Some (pool, k, c, _, _) => (pool, k, inr c)
      | None => (pool, k, inr c)
      end
  end.

#[local] Instance mixed_EngineConn : EngineConn P K mixed := {
  ec_Fd c := b_fd (m_base c);
  ec_ID c := b_id (m_base c);
  ec_LoopID c := b_loopID (m_base c);
  ec_GetType := m_type;
  ec_IsClient c := b_Client (m_base c);
  ec_Recvbuf c := default NewRingBuffer (b_recvbuf (m_base c));
  ec_PendingWrite c := match c with inl c => Base_PendingWrite (c_base c) | inr c => ATLSConn_PendingWrite c end;
  ec_IsKTLS c := match c with inl _ => false | inr c => IsKTLS c end;
  ec_BufferedPlaintextLen c := match c with inl _ => 0 | inr c => BufferedPlaintextLen c end;
  ec_SetID c i := m_set_base c (Base_SetID (m_base c) i);
  ec_SetLoopID c i := m_set_base c (Base_SetLoopID (m_base c) i);
  ec_SetLastRecv c t := m_set_base c (Base_SetLastRecv (m_base c) t);
  ec_with_recvbuf c rb := m_set_base c (Base_SetRecvbuf (m_base c) rb);
  ec_accepted fd := inl (Conn_accepted fd);
  ec_Read := m_Read;
  ec_Write := m_Write;
  ec_FlushN := m_FlushN;
  ec_EnqueueWrite pool c buf size :=
    '(pool, b) ← Base_EnqueueWrite grow T pool (m_base c) buf size; Some (pool, m_set_base c b);
  ec_Close := m_Close;
  ec_view := m_view;
  ec_wf c := wq_inv (b_wq (m_base c)) ∧ match c with inl _ => True | inr c => in_kernel c end;
  ec_sent k c := k_out k (b_fd (m_base c));
  ec_got k c := k_in k (b_fd (m_base c));
}.
(** A change of the base, and of the streams of its descriptor. *)
Lemma mixed_step k c k' (b : Base H A X) s g : ec_wf c → wq_inv (b_wq b) →
  k_out k' (b_fd (m_base c)) = k_out k (b_fd (m_base c)) ++ s → k_in k' (b_fd (m_base c)) = k_in k (b_fd (m_base c)) ++ g →
  (∀ fd, fd ≠ b_fd (m_base c) → k_out k' fd = k_out k fd ∧ k_in k' fd = k_in k fd) → b_fd b = b_fd (m_base c) →
  conn_step k c k' (m_set_base c b) (m_view (m_set_base c b)) s g.
Proof.
  intros [Hq Hk] Hq' Ho Hg Hother Hfd.
  assert (m_base (m_set_base c b) = b) as Eb by (by destruct c).
  split; cbn [ec_wf ec_view ec_sent ec_got mixed_EngineConn]; rewrite ?Eb, ?Hfd; try done.
  - split; [done|]. destruct c as [c|c]; [done|]. by destruct Hk.
  - intros d Hd. by apply Hother.
Qed.

Lemma view_counters c (r s : Z) : m_view (m_set_base c (Base_set_counters (m_base c) r s)) = m_view c.
Proof. by destruct c. Qed.

Lemma set_base_same c : m_set_base c (Base_set_counters (m_base c) (b_recv (m_base c)) (b_send (m_base c))) = c.
Proof. by destruct c as [[[] ? ?]|[[] ? ? ? ? ? ? ? ? ?]]. Qed.

(** The counters of [c] after a call that sent [s] and received [g]. *)
Lemma mixed_counters k c k' c' s g : ec_wf c →
  (∃ r sd, c' = m_set_base c (Base_set_counters (m_base c) r sd)) →
  k_out k' (b_fd (m_base c)) = k_out k (b_fd (m_base c)) ++ s → k_in k' (b_fd (m_base c)) = k_in k (b_fd (m_base c)) ++ g →
  (∀ fd, fd ≠ b_fd (m_base c) → k_out k' fd = k_out k fd ∧ k_in k' fd = k_in k fd) →
  conn_step k c k' c' (m_view c) s g.
Proof.
  intros Hwf (r & sd & ->) Ho Hg Hother. rewrite <-(view_counters c r sd). apply mixed_step; try done. apply Hwf.
Qed.

Lemma mixed_same k c : ec_wf c → conn_step k c k c (m_view c) [] [].
Proof.
  intros Hwf. apply mixed_counters; rewrite ?app_nil_r; try done. eexists _, _. symmetry. apply set_base_same.
Qed.

Lemma recv_counters c (b : bool) n : ∃ r sd,
  (if b then m_set_base c (Base_set_counters (m_base c) (AddInt32 (b_recv (m_base c)) n) (b_send (m_base c))) else c)
  = m_set_base c (Base_set_counters (m_base c) r sd).
Proof. destruct b; [by eexists _, _|]. eexists _, _. symmetry. apply set_base_same. Qed.

Lemma send_counters c (b : bool) n : ∃ r sd,
  (if b then m_set_base c (Base_set_counters (m_base c) (b_recv (m_base c)) (AddInt32 (b_send (m_base c)) n)) else c)
  = m_set_base c (Base_set_counters (m_base c) r sd).
Proof. destruct b; [by eexists _, _|]. eexists _, _. symmetry. apply set_base_same. Qed.

Lemma m_Read_ok k c m : ec_wf c →
  let '(k', c', d, (n, e)) := m_Read k c m in
  conn_step k c k' c' (m_view c) [] d ∧
  match e with
  | None => n = len d ∧ len d ≤ Z.max 0 m
  | Some e => d = [] ∧ n ≤ 0 ∧ (e = EAGAIN → n = 0)
  end.
Proof.
  intros Hwf. pose proof (sys_read_ok k (b_fd (m_base c)) m) as Hr. destruct c as [c|c]; cbn [m_Read m_base] in *.
  - unfold Conn_Read. destruct (sys_read k (b_fd (c_base c)) m) as [[[k' d] n] e]. destruct Hr as (Hout & Hin & Hd & Hres).
    set (r := if bool_decide (e = Some EAGAIN) then 0 else n). split.
    + apply mixed_counters; cbn [m_base]; rewrite ?app_nil_r; try done; [|by auto].
      destruct (recv_counters (inl c) (0 <? r) r) as (r1 & s1 & E1). exists r1, s1. refine (eq_trans _ E1).
      by destruct (0 <? r), c as [[] ? ?].
    + unfold r. destruct e as [e|]; [|by rewrite bool_decide_false by done].
      destruct Hres as [-> ->]. split; [done|]. case_bool_decide; simplify_eq; [lia|]. split; [lia|]. by intros ->.
  - unfold kernel_Read. destruct (b_fd (a_base c) =? 0); [by split; [apply mixed_same|]|].
    destruct (Z.eqb_spec m 0) as [?|_]; [split; [by apply mixed_same|simpl; lia]|].
    unfold ktls_Read. destruct (sys_read k (b_fd (a_base c)) m) as [[[k' d] n] e]. destruct Hr as (Hout & Hin & Hd & Hres).
    set (r := if bool_decide (e = Some EAGAIN) then 0 else if n <? 0 then 0 else n).
    assert (∀ b : bool, conn_step k (inr c) k' (inr (if b then a_add_recv c r else c)) (m_view (inr c)) [] d) as Hstep.
    { intros b. apply mixed_counters; cbn [m_base]; rewrite ?app_nil_r; try done; [|by auto].
      destruct (recv_counters (inr c) b r) as (r1 & s1 & E1). exists r1, s1. refine (eq_trans _ E1). by destruct b. }
    case_bool_decide as Heio; [simplify_eq; destruct Hres as [-> ->]; split; [apply (Hstep false)|done]|].
    destruct ((r =? 0) && bool_decide (e = None)) eqn:Hz.
    { apply andb_prop in Hz as [Hz He]. apply bool_decide_eq_true in He. subst e. destruct Hres as [-> Hl].
      split; [apply (Hstep false)|]. split; [|done]. apply Z.eqb_eq in Hz. unfold r in Hz. rewrite bool_decide_false in Hz by done.
      destruct d; [done|]. destruct (Z.ltb_spec (len (z :: d)) 0); simpl in *; lia. }
    split; [apply Hstep|]. unfold r. destruct e as [e|].
    + destruct Hres as [-> ->]. split; [done|]. change (-1 <? 0) with true. cbv iota. destruct (bool_decide _); lia.
    + destruct Hres as [-> Hl]. rewrite bool_decide_false by done. destruct (Z.ltb_spec (len d) 0); lia.
Qed.

Lemma m_Write_ok k c b : ec_wf c → b_fd (m_base c) ≠ 0 →
  let '(k', c', (n, e)) := m_Write k c b in
  conn_step k c k' c' (m_view c) (take (Z.to_nat n) b) [] ∧ n ≤ len b ∧ match e with None => 0 ≤ n | Some _ => n ≤ 0 end.
Proof.
  intros Hwf Hfd. pose proof (sys_write_ok k (b_fd (m_base c)) b) as Hr. destruct c as [c|c]; cbn [m_Write m_base] in *.
  - unfold Conn_Write. zb. destruct (sys_write k (b_fd (c_base c)) b) as [[k' n] e]. destruct Hr as (Hout & Hin & Hres).
    assert (k_out k' (b_fd (c_base c)) = k_out k (b_fd (c_base c)) ++ take (Z.to_nat n) b ∧ n ≤ len b ∧ match e with None => 0 ≤ n | Some _ => n ≤ 0 end) as (Hk & Hn & He).
    { destruct e as [e|]; destruct Hres as [Hn Hk]; [subst n; rewrite take_0, app_nil_r; split_and!; [done|lia|lia]|split_and!; [done|lia|lia]]. }
    split; [|done]. apply mixed_counters; cbn [m_base]; rewrite ?app_nil_r; try done; [|by auto].
    destruct (send_counters (inl c) (0 <? n) n) as (r1 & s1 & E1). exists r1, s1. refine (eq_trans _ E1). by destruct (0 <? n), c as [[] ? ?].
  - unfold kernel_Write. zb. destruct (len b =? 0); [split; [rewrite take_0; by apply mixed_same|simpl; lia]|].
    unfold ktls_Write. destruct (sys_write k (b_fd (a_base c)) b) as [[k' n] e]. destruct Hr as (Hout & Hin & Hres).
    set (r := if bool_decide (e = Some EAGAIN) then 0 else if n <? 0 then 0 else n).
    assert (k_out k' (b_fd (a_base c)) = k_out k (b_fd (a_base c)) ++ take (Z.to_nat r) b ∧ r ≤ len b ∧ match e with None => 0 ≤ r | Some _ => r ≤ 0 end) as (Hk & Hn & He).
    { unfold r. destruct e as [e|]; destruct Hres as [Hn Hk].
      - subst n. change (-1 <? 0) with true. cbv iota. destruct (bool_decide _); rewrite take_0, app_nil_r; split_and!; try done; lia.
      - rewrite bool_decide_false by done. destruct (Z.ltb_spec n 0); [lia|]. split_and!; [done|lia|lia]. }
    split; [|done]. apply mixed_counters; cbn [m_base]; rewrite ?app_nil_r; try done; [|by auto].
    destruct (send_counters (inr c) (0 <? r) r) as (r1 & s1 & E1). exists r1, s1. refine (eq_trans _ E1). by destruct (0 <? r).
Qed.

(** The flush both kinds share. *)
Lemma base_flush pool k c m : al_inv pool → ec_wf c → b_fd (m_base c) ≠ 0 →
  let b := m_base c in
  ∃ pool' k' wq' send' n e, flushWriteQueue T pool k (b_fd b) (b_wq b) m (b_send b) = Some (pool', k', wq', send', (n, e)) ∧
    al_inv pool' ∧ al_max pool' = al_max pool ∧ n ≤ len (wq_data (b_wq b)) ∧
    conn_step k c k' (m_set_base c (Base_set_counters (Base_set_wq b wq') (b_recv b) send'))
      (view_unsent (m_view c) (drop (Z.to_nat n) (wq_data (b_wq b)))) (take (Z.to_nat n) (wq_data (b_wq b))) [].
Proof.
  intros Hp Hwf Hfd b. pose proof Hwf as [Hq _].
  destruct (flush_spec T pool k (b_fd b) (b_wq b) m (b_send b) Hq Hfd)
    as (pool' & k' & wq' & send' & n & err & -> & [Hi Hd Ho Hoth Hin Hle _ _ Hs Hput]).
  destruct (puts_account_inv _ _ _ _ Hp Hput) as [Hp' Hm].
  eexists _, _, _, _, _, _. split; [done|]. split_and!; [done..|]. unfold b in *.
  assert (view_unsent (m_view c) (drop (Z.to_nat n) (wq_data (b_wq (m_base c))))
    = m_view (m_set_base c (Base_set_counters (Base_set_wq (m_base c) wq') (b_recv (m_base c)) send'))) as ->.
  { unfold m_view, view_unsent. destruct c as [c|c]; cbn; by rewrite Hd. }
  apply mixed_step; rewrite ?app_nil_r; try done. intros fd Hne. split; [by apply Hoth|apply Hin].
Qed.

Lemma reset_inv (pool : P) rb : al_inv pool → al_inv (fst (RingBuffer_Reset pool rb)) ∧ al_max (fst (RingBuffer_Reset pool rb)) = al_max pool.
Proof. intros Hi. unfold RingBuffer_Reset. by apply al_put_inv. Qed.

Lemma reset_bufs_spec (pool : P) (c : ATLSConn H A X N E) : al_inv pool → in_kernel c →
  ∃ pool' (c' : ATLSConn H A X N E), reset_bufs pool c = (pool', c') ∧ al_inv pool' ∧ al_max pool' = al_max pool ∧ a_base c' = a_base c ∧ in_kernel c'.
Proof.
  intros Hp Hk. pose proof Hk as [K1 K2 K3 K4 K5]. unfold reset_bufs. destruct (a_buf c) as [b|]; [|by eexists _, _].
  destruct (reset_inv pool (tb_cin b) Hp) as [I1 M1]. destruct (RingBuffer_Reset pool (tb_cin b)) as [pool1 cin]. cbn [fst] in *.
  destruct (reset_inv pool1 (tb_cout b) I1) as [I2 M2]. destruct (RingBuffer_Reset pool1 (tb_cout b)) as [pool2 cout] eqn:Er. cbn [fst] in *.
  eexists _, _. split; [done|]. split_and!; try congruence; try done.
  split; try done. cbn [a_set_buf a_buf tb_set_cout tb_cout]. unfold RingBuffer_Reset in Er. by injection Er as _ <-.
Qed.

Lemma m_Close_ok pool k c : al_inv pool → ec_wf c →
  let '(pool', k', c') := m_Close pool k c in
  al_inv pool' ∧ al_max pool' = al_max pool ∧ ec_wf c' ∧ m_view c' = view_unsent (view_fd (m_view c) 0) [] ∧
  ∀ fd, k_out k' fd = k_out k fd ∧ k_in k' fd = k_in k fd.
Proof.
  intros Hp [Hq Hk]. pose proof (sys_close_ok k (b_fd (m_base c))) as Hc.
  destruct (clear_spec T pool (b_wq (m_base c))) as (pool' & q' & Ecl & Hi & Hd & Hput).
  destruct (puts_account_inv _ _ _ _ Hp Hput) as [Hp' Hm]. destruct c as [c|c]; cbn [m_Close m_base] in *.
  - unfold Conn_Close, Base_clearWrite. rewrite Ecl. cbn [b_fd Base_set_wq]. destruct (sys_close k (b_fd (c_base c))) as [k' e]. cbn [fst] in Hc.
    split_and!; try done. unfold m_view, view_unsent, view_fd. cbn. by rewrite Hd.
  - destruct Hk as [K1 K2 K3 K4 K5]. unfold ATLSConn_Close, Base_clearWrite. rewrite Ecl. cbn [a_set_base a_Conn a_buf]. rewrite K3.
    cbn [mbind option_bind]. fold (a_set_base c (Base_set_wq (a_base c) q')).
    destruct (reset_bufs_spec pool' (a_set_base c (Base_set_wq (a_base c) q')) Hp') as (pool2 & c2 & -> & Hp2 & Hm2 & Hb2 & Hk2); [by split|].
    rewrite Hb2. cbn [a_set_base a_base b_fd Base_set_wq]. destruct (sys_close k (b_fd (a_base c))) as [k' e]. cbn [fst] in Hc.
    split_and!; try done; [congruence| |].
    + split; [done|]. by destruct Hk2.
    + unfold m_view, view_unsent, view_fd. cbn. by rewrite Hd.
Qed.


End Mixed.

#[local] Existing Instances test_Allocator test_AllocatorLaws.

Definition kernel_conn : ATLSConn unit unit unit unit NullTls :=
  mkATLS (mkBase None 7 1 0 None None None None "" "" "" false None 0 0 0 wq_empty) false false
    None None true true [] 0 (-1).

#[local] Instance null_NetConn : NetConn unit := {
  nc_read c n := (c, [], Some EOF); nc_write c b := (c, (0, Some EBADF)); nc_SetReadDeadline c t := c;
  nc_in _ := []; nc_out _ := [] }.


Example kernel_conn_reads :
  (λ '(_, _, _, d, r), (d, r)) <$> ATLSConn_Read 0 tls_pool (mkTK 2 0 [5; 6; 7] [] []) kernel_conn 2 = Some ([5; 6], (2, None)).
Proof. reflexivity. Qed.
