(* ===== verification/Loop.v ===== *)
(** * eventloop/{loopConn,loopAccept,loop}.go: the event loop

    A loop owns the connections of the table slots whose [LoopID] is its index.
    The model is a state monad over [World]: the allocator, the kernel, the
    application, the connections (an arena [gmap nat C]; a reference is what Go
    calls a [connection.EngineConn] value), the shared descriptor table, and the
    loop's own record.  [None] is a Go panic.  Callbacks of the application act on
    its state [S] and are recorded in [w_trace]; the commands they post are
    separate [AddCmd] calls, and they do not close the connection themselves.
    [SetReceiver] and the callback of [Open] are not modelled. *)

From stdpp Require Import gmap.
From S2P Require Import Prelude Pool Tuning RingBuffer Conn FdTable Poller EngineConn.

(** ** loop.go *)

Inductive CloseErr : Set :=
| CLOSE_EPOLL_ERR | CLOSE_SEND_ERR | CLOSE_READ_ERR | CLOSE_PKT_SIZE_LIMIT | CLOSE_PKT_PARSE_ERR
| CLOSE_MEM_ALLOC_FAIL | CLOSE_BY_USER_LAND | CLOSE_BY_ANTI_IDLE | CLOSE_BY_ACCEPT
| CLOSE_BY_DUP_ACCEPT | CLOSE_BY_CLOSE_CMD | CLOSE_BY_SLOW_READER.

Record CmdData := mkCmd { cd_cmd : Z; cd_fd : Z; cd_id : Z; cd_data : option (list Z); cd_size : Z }.

Definition CmdData_reset {P} `{!Allocator P} (pool : P) (c : CmdData) : P * CmdData :=
  (match cd_data c with Some b => al_put pool b | None => pool end, mkCmd 0 0 0 None 0).

(** [IListener]: what the loop asks of it. *)
Record Listener := mkListener { lis_Fd : Z; lis_TlsMode : Z }.

(** ** State of a loop *)

(** Set up before the loop runs; [l_chanSize] is the capacity of the three channels. *)
Record LoopConfig := mkConfig {
  l_idx : Z; l_pktSizeLimit : Z; l_cliSbufLimit : Z; l_chanSize : Z;
  l_checkInterval : Z; l_idleLimit : Z; l_max : Z; l_poll : Poll }.

Record LoopStat := mkStat {
  st_read : Z; st_write : Z; st_recvcmd : Z; st_cmdconsume : Z; st_cmddrop : Z; st_cmdfail : Z;
  st_acceptCount : Z; st_tlsAccept : Z }.

(** Maps to [true] are sets.  The idle list is a list of list elements, each with
    its identity and its connection; [touchMap] gives, for a connection id, the
    time of the last activity and the list element. *)
Record LoopConn := mkLoop {
  l_cfg : LoopConfig;
  l_recvbuf : list Z;
  l_writeFds : gset Z; l_closeOnDrain : gset Z; l_cmdFlushSet : gset Z;
  l_count : Z; l_dcount : Z; l_seq : Z;
  l_cmdChan : list CmdData; l_cmdDialChan : list CmdData; l_acceptChan : list nat;
  l_triggered : Z;
  l_stat : LoopStat;
  l_lastCheck : Z; l_checkList : list (nat * nat); l_nextElem : nat; l_touchMap : gmap Z (Z * nat);
  l_nowSec : Z;
  l_listeners : list Listener;
  l_shutdown : bool;   (* [shutdownOnce] has run *)
}.

Definition set_recvbuf x l := mkLoop (l_cfg l) x (l_writeFds l) (l_closeOnDrain l) (l_cmdFlushSet l) (l_count l) (l_dcount l) (l_seq l) (l_cmdChan l) (l_cmdDialChan l) (l_acceptChan l) (l_triggered l) (l_stat l) (l_lastCheck l) (l_checkList l) (l_nextElem l) (l_touchMap l) (l_nowSec l) (l_listeners l) (l_shutdown l).
Definition set_writeFds x l := mkLoop (l_cfg l) (l_recvbuf l) x (l_closeOnDrain l) (l_cmdFlushSet l) (l_count l) (l_dcount l) (l_seq l) (l_cmdChan l) (l_cmdDialChan l) (l_acceptChan l) (l_triggered l) (l_stat l) (l_lastCheck l) (l_checkList l) (l_nextElem l) (l_touchMap l) (l_nowSec l) (l_listeners l) (l_shutdown l).
Definition set_closeOnDrain x l := mkLoop (l_cfg l) (l_recvbuf l) (l_writeFds l) x (l_cmdFlushSet l) (l_count l) (l_dcount l) (l_seq l) (l_cmdChan l) (l_cmdDialChan l) (l_acceptChan l) (l_triggered l) (l_stat l) (l_lastCheck l) (l_checkList l) (l_nextElem l) (l_touchMap l) (l_nowSec l) (l_listeners l) (l_shutdown l).
Definition set_cmdFlushSet x l := mkLoop (l_cfg l) (l_recvbuf l) (l_writeFds l) (l_closeOnDrain l) x (l_count l) (l_dcount l) (l_seq l) (l_cmdChan l) (l_cmdDialChan l) (l_acceptChan l) (l_triggered l) (l_stat l) (l_lastCheck l) (l_checkList l) (l_nextElem l) (l_touchMap l) (l_nowSec l) (l_listeners l) (l_shutdown l).
Definition set_counts x y l := mkLoop (l_cfg l) (l_recvbuf l) (l_writeFds l) (l_closeOnDrain l) (l_cmdFlushSet l) x y (l_seq l) (l_cmdChan l) (l_cmdDialChan l) (l_acceptChan l) (l_triggered l) (l_stat l) (l_lastCheck l) (l_checkList l) (l_nextElem l) (l_touchMap l) (l_nowSec l) (l_listeners l) (l_shutdown l).
Definition set_seq x l := mkLoop (l_cfg l) (l_recvbuf l) (l_writeFds l) (l_closeOnDrain l) (l_cmdFlushSet l) (l_count l) (l_dcount l) x (l_cmdChan l) (l_cmdDialChan l) (l_acceptChan l) (l_triggered l) (l_stat l) (l_lastCheck l) (l_checkList l) (l_nextElem l) (l_touchMap l) (l_nowSec l) (l_listeners l) (l_shutdown l).
Definition set_chans x y z l := mkLoop (l_cfg l) (l_recvbuf l) (l_writeFds l) (l_closeOnDrain l) (l_cmdFlushSet l) (l_count l) (l_dcount l) (l_seq l) x y z (l_triggered l) (l_stat l) (l_lastCheck l) (l_checkList l) (l_nextElem l) (l_touchMap l) (l_nowSec l) (l_listeners l) (l_shutdown l).
Definition set_triggered x l := mkLoop (l_cfg l) (l_recvbuf l) (l_writeFds l) (l_closeOnDrain l) (l_cmdFlushSet l) (l_count l) (l_dcount l) (l_seq l) (l_cmdChan l) (l_cmdDialChan l) (l_acceptChan l) x (l_stat l) (l_lastCheck l) (l_checkList l) (l_nextElem l) (l_touchMap l) (l_nowSec l) (l_listeners l) (l_shutdown l).
Definition set_stat x l := mkLoop (l_cfg l) (l_recvbuf l) (l_writeFds l) (l_closeOnDrain l) (l_cmdFlushSet l) (l_count l) (l_dcount l) (l_seq l) (l_cmdChan l) (l_cmdDialChan l) (l_acceptChan l) (l_triggered l) x (l_lastCheck l) (l_checkList l) (l_nextElem l) (l_touchMap l) (l_nowSec l) (l_listeners l) (l_shutdown l).
Definition set_idle t x y z l := mkLoop (l_cfg l) (l_recvbuf l) (l_writeFds l) (l_closeOnDrain l) (l_cmdFlushSet l) (l_count l) (l_dcount l) (l_seq l) (l_cmdChan l) (l_cmdDialChan l) (l_acceptChan l) (l_triggered l) (l_stat l) t x y z (l_nowSec l) (l_listeners l) (l_shutdown l).
Definition set_nowSec x l := mkLoop (l_cfg l) (l_recvbuf l) (l_writeFds l) (l_closeOnDrain l) (l_cmdFlushSet l) (l_count l) (l_dcount l) (l_seq l) (l_cmdChan l) (l_cmdDialChan l) (l_acceptChan l) (l_triggered l) (l_stat l) (l_lastCheck l) (l_checkList l) (l_nextElem l) (l_touchMap l) x (l_listeners l) (l_shutdown l).
Definition set_listeners x l := mkLoop (l_cfg l) (l_recvbuf l) (l_writeFds l) (l_closeOnDrain l) (l_cmdFlushSet l) (l_count l) (l_dcount l) (l_seq l) (l_cmdChan l) (l_cmdDialChan l) (l_acceptChan l) (l_triggered l) (l_stat l) (l_lastCheck l) (l_checkList l) (l_nextElem l) (l_touchMap l) (l_nowSec l) x (l_shutdown l).
Definition set_shutdown x l := mkLoop (l_cfg l) (l_recvbuf l) (l_writeFds l) (l_closeOnDrain l) (l_cmdFlushSet l) (l_count l) (l_dcount l) (l_seq l) (l_cmdChan l) (l_cmdDialChan l) (l_acceptChan l) (l_triggered l) (l_stat l) (l_lastCheck l) (l_checkList l) (l_nextElem l) (l_touchMap l) (l_nowSec l) (l_listeners l) x.

Definition bump_read s := mkStat (AddInt32 (st_read s) 1) (st_write s) (st_recvcmd s) (st_cmdconsume s) (st_cmddrop s) (st_cmdfail s) (st_acceptCount s) (st_tlsAccept s).
Definition bump_write s := mkStat (st_read s) (AddInt32 (st_write s) 1) (st_recvcmd s) (st_cmdconsume s) (st_cmddrop s) (st_cmdfail s) (st_acceptCount s) (st_tlsAccept s).
Definition bump_recvcmd s := mkStat (st_read s) (st_write s) (AddInt32 (st_recvcmd s) 1) (st_cmdconsume s) (st_cmddrop s) (st_cmdfail s) (st_acceptCount s) (st_tlsAccept s).
Definition bump_cmdconsume s := mkStat (st_read s) (st_write s) (st_recvcmd s) (AddInt32 (st_cmdconsume s) 1) (st_cmddrop s) (st_cmdfail s) (st_acceptCount s) (st_tlsAccept s).
Definition bump_cmddrop s := mkStat (st_read s) (st_write s) (st_recvcmd s) (st_cmdconsume s) (AddInt32 (st_cmddrop s) 1) (st_cmdfail s) (st_acceptCount s) (st_tlsAccept s).
Definition bump_cmdfail s := mkStat (st_read s) (st_write s) (st_recvcmd s) (st_cmdconsume s) (st_cmddrop s) (AddInt32 (st_cmdfail s) 1) (st_acceptCount s) (st_tlsAccept s).
Definition bump_accept s := mkStat (st_read s) (st_write s) (st_recvcmd s) (st_cmdconsume s) (st_cmddrop s) (st_cmdfail s) (AddInt32 (st_acceptCount s) 1) (st_tlsAccept s).
Definition bump_tlsAccept s := mkStat (st_read s) (st_write s) (st_recvcmd s) (st_cmdconsume s) (st_cmddrop s) (st_cmdfail s) (st_acceptCount s) (AddInt32 (st_tlsAccept s) 1).

(** ** The application and the rest of the server *)

(** [IHandler] and the packet handler of a connection: arbitrary functions on the
    application's state. *)
Class Handler (S C : Type) := {
  h_ParsePacket : S → C → list Z → S * (Z * Z);
  h_OnData : S → C → list Z → S * (list Z * bool);
  h_OnConnected : S → C → S;
  h_OnClosed : S → C → option CloseErr → S;
}.

(** [IDGenerator] and [ISelector], both optional, and the TLS handshake worker. *)
Class Host (S C : Type) := {
  idg_GetID : option (S → S * Z);
  sel_GetLoad : option (S → Z);
  tls_present : bool;
  tls_Pending : S → Z;
  tls_NewPendingConn : S → Z → S * option C;
  tls_Submit : S → C → S * bool;       (* false: the queue is full *)
}.

(** The system calls of [accept]. *)
Class KernelNet (K : Type) := {
  sys_accept : K → Z → K * (Z + errno);
  sys_set_nonblock : K → Z → K * option errno;
  sys_setsockopt_nodelay : K → Z → K * option errno;
  sys_setsockopt_sndbuf : K → Z → Z → K * option errno;
  lis_Close : K → Listener → K;        (* [IListener.Close] *)
}.

Inductive event : Type :=
| EvConnected (r : nat)
| EvData (r : nat) (data out : list Z) (close : bool)
| EvClosed (r : nat) (err : option CloseErr).

(** ** The monad *)

Record World (P K S C : Type) := mkW {
  w_pool : P; w_k : K; w_app : S; w_conns : gmap nat C; w_table : list (option nat);
  w_l : LoopConn; w_trace : list event }.
Arguments mkW {P K S C}. Arguments w_pool {P K S C}. Arguments w_k {P K S C}. Arguments w_app {P K S C}.
Arguments w_conns {P K S C}. Arguments w_table {P K S C}. Arguments w_l {P K S C}. Arguments w_trace {P K S C}.

Definition M (P K S C X : Type) : Type := World P K S C → option (X * World P K S C).

#[export] Instance M_ret P K S C : MRet (M P K S C) := λ X x w, Some (x, w).
#[export] Instance M_bind P K S C : MBind (M P K S C) := λ X Y f m w,
  match m w with Some (x, w') => f x w' | None => None end.

Section Loop.
Context {P K S C : Type} `{!Allocator P, !Kernel K, !Epoll K, !KernelNet K, !EngineConn P K C, !Handler S C, !Host S C}.
Variable T : EventLoop.
Abbreviation M := (M P K S C).
Abbreviation World := (World P K S C).

Definition lift {X} (o : option X) : M X := λ w, match o with Some x => Some (x, w) | None => None end.
Definition gets {X} (f : World → X) : M X := λ w, Some (f w, w).
Definition loop : M LoopConn := gets w_l.
Definition mod_l (f : LoopConn → LoopConn) : M unit := λ w,
  Some (tt, mkW (w_pool w) (w_k w) (w_app w) (w_conns w) (w_table w) (f (w_l w)) (w_trace w)).
Definition stat (f : LoopStat → LoopStat) : M unit := mod_l (λ l, set_stat (f (l_stat l)) l).

(** The connection behind a reference, and its update. *)
Definition conn (r : nat) : M C := λ w, c ← w_conns w !! r; Some (c, w).
Definition set_conn (r : nat) (c : C) : M unit := λ w,
  Some (tt, mkW (w_pool w) (w_k w) (w_app w) (<[r := c]> (w_conns w)) (w_table w) (w_l w) (w_trace w)).
Definition set_pool (p : P) : M unit := λ w,
  Some (tt, mkW p (w_k w) (w_app w) (w_conns w) (w_table w) (w_l w) (w_trace w)).
Definition set_app (s : S) : M unit := λ w,
  Some (tt, mkW (w_pool w) (w_k w) s (w_conns w) (w_table w) (w_l w) (w_trace w)).
Definition set_table (t : list (option nat)) : M unit := λ w,
  Some (tt, mkW (w_pool w) (w_k w) (w_app w) (w_conns w) t (w_l w) (w_trace w)).
Definition emit (e : event) : M unit := λ w,
  Some (tt, mkW (w_pool w) (w_k w) (w_app w) (w_conns w) (w_table w) (w_l w) (w_trace w ++ [e])).

(** A system call. *)
Definition syscall {X} (f : K → K * X) : M X := λ w,
  let '(k, x) := f (w_k w) in
  Some (x, mkW (w_pool w) k (w_app w) (w_conns w) (w_table w) (w_l w) (w_trace w)).

(** [pool.GAlloctor.Get] and [Put]. *)
Definition galloc (n : Z) : M (option (list Z)) := λ w,
  '(b, p) ← al_get (w_pool w) n;
  Some (b, mkW p (w_k w) (w_app w) (w_conns w) (w_table w) (w_l w) (w_trace w)).
Definition gput (b : list Z) : M unit := λ w, set_pool (al_put (w_pool w) b) w.

(** A fresh reference for a connection built by the loop. *)
Definition new_conn (c : C) : M nat := λ w,
  let r := fresh (dom (w_conns w)) in
  Some (r, mkW (w_pool w) (w_k w) (w_app w) (<[r := c]> (w_conns w)) (w_table w) (w_l w) (w_trace w)).

(** ** Calls on a connection *)

Definition conn_Read (r : nat) (n : Z) : M (list Z * (Z * option errno)) := λ w,
  c ← w_conns w !! r;
  let '(k, c, d, res) := ec_Read (w_k w) c n in
  Some ((d, res), mkW (w_pool w) k (w_app w) (<[r := c]> (w_conns w)) (w_table w) (w_l w) (w_trace w)).

Definition conn_Write (r : nat) (b : list Z) : M (Z * option errno) := λ w,
  c ← w_conns w !! r;
  let '(k, c, res) := ec_Write (w_k w) c b in
  Some (res, mkW (w_pool w) k (w_app w) (<[r := c]> (w_conns w)) (w_table w) (w_l w) (w_trace w)).

Definition conn_FlushN (r : nat) (n : Z) : M (Z * option errno) := λ w,
  c ← w_conns w !! r;
  '(p, k, c, res) ← ec_FlushN (w_pool w) (w_k w) c n;
  Some (res, mkW p k (w_app w) (<[r := c]> (w_conns w)) (w_table w) (w_l w) (w_trace w)).

Definition conn_EnqueueWrite (r : nat) (buf : list Z) (size : Z) : M unit := λ w,
  c ← w_conns w !! r;
  '(p, c) ← ec_EnqueueWrite (w_pool w) c buf size;
  Some (tt, mkW p (w_k w) (w_app w) (<[r := c]> (w_conns w)) (w_table w) (w_l w) (w_trace w)).

Definition conn_Close (r : nat) : M unit := λ w,
  c ← w_conns w !! r;
  let '(p, k, c) := ec_Close (w_pool w) (w_k w) c in
  Some (tt, mkW p k (w_app w) (<[r := c]> (w_conns w)) (w_table w) (w_l w) (w_trace w)).

(** [c.Recvbuf().f(...)]: an operation on the receive buffer and the allocator. *)
Definition on_recvbuf {X} (r : nat) (f : P → RingBuffer → option (P * RingBuffer * X)) : M X := λ w,
  c ← w_conns w !! r;
  '(p, rb, x) ← f (w_pool w) (ec_Recvbuf c);
  Some (x, mkW p (w_k w) (w_app w) (<[r := ec_with_recvbuf c rb]> (w_conns w)) (w_table w) (w_l w) (w_trace w)).

Definition rb_AlignBytes (r : nat) : M (list Z) := on_recvbuf r RingBuffer_AlignBytes.
Definition rb_Update (r : nat) (b : list Z) : M unit :=
  on_recvbuf r (λ p rb, let '(p, rb) := RingBuffer_Update p rb b in Some (p, rb, tt)).
Definition rb_Forward (r : nat) (step mode : Z) : M Z :=
  on_recvbuf r (λ p rb, let '(rb, rc) := RingBuffer_Forward rb step mode in Some (p, rb, rc)).
Definition rb_Reset (r : nat) : M unit :=
  on_recvbuf r (λ p rb, let '(p, rb) := RingBuffer_Reset p rb in Some (p, rb, tt)).
Definition rb_Truncate (r : nat) : M unit := on_recvbuf r (λ p rb, Some (p, RingBuffer_Truncate rb, tt)).
Definition rb_Write (r : nat) (b : list Z) (length : Z) (update : bool) : M Z :=
  on_recvbuf r (λ p rb, RingBuffer_Write p rb b length update).
(** [data] stored in place into the slice [AlignBytes] returned, at [off]. *)
Definition rb_Fill (r : nat) (off : Z) (data : list Z) : M unit :=
  on_recvbuf r (λ p rb, Some (p, fill_window rb off data, tt)).

(** ** The application's callbacks *)

Definition ParsePacket (r : nat) (inp : list Z) : M (Z * Z) :=
  c ← conn r; s ← gets w_app;
  let '(s, res) := h_ParsePacket s c inp in
  set_app s;; mret res.

Definition OnData (r : nat) (data : list Z) : M (list Z * bool) :=
  c ← conn r; s ← gets w_app;
  let '(s, (out, close)) := h_OnData s c data in
  set_app s;; emit (EvData r data out close);; mret (out, close).

Definition OnConnected (r : nat) : M unit :=
  c ← conn r; s ← gets w_app; set_app (h_OnConnected s c);; emit (EvConnected r).

Definition OnClosed (r : nat) (err : option CloseErr) : M unit :=
  c ← conn r; s ← gets w_app; set_app (h_OnClosed s c err);; emit (EvClosed r err).

(** ** loopAccept.go: the table slots of this loop *)

Definition connByFD (fd : Z) : M (option nat) :=
  t ← gets w_table; l ← loop;
  match fdTableGet t fd with
  | None => mret None
  | Some r => c ← conn r; mret (if ec_LoopID c =? l_idx (l_cfg l) then Some r else None)
  end.

Definition storeConn (r : nat) : M bool :=
  c ← conn r; l ← loop;
  let c := ec_SetLoopID c (l_idx (l_cfg l)) in
  set_conn r c;;
  t ← gets w_table;
  let '(t, ok) := fdTableSet t (ec_Fd c) r in
  set_table t;; mret ok.

Definition clearConn (r : nat) : M unit :=
  c ← conn r; t ← gets w_table; set_table (fdTableClear t (ec_Fd c) r).

(** ** loopConn.go: writing *)

Definition updateWriteFd (r : nat) : M unit :=
  c ← conn r; l ← loop;
  let fd := ec_Fd c in
  if fd =? 0 then mret tt
  else
    let wantWrite := 0 <? ec_PendingWrite c in
    let hasWrite := bool_decide (fd ∈ l_writeFds l) in
    if Bool.eqb wantWrite hasWrite then mret tt
    else if wantWrite then
      syscall (λ k, Poll_ModReadWrite k (l_poll (l_cfg l)) fd);;
      mod_l (λ l, set_writeFds ({[fd]} ∪ l_writeFds l) l)
    else
      syscall (λ k, Poll_ModRead k (l_poll (l_cfg l)) fd);;
      mod_l (λ l, set_writeFds (l_writeFds l ∖ {[fd]}) l).

(** The [for] loop of [drainWrite]; it ends with a panic when [fuel] is 0. *)
Fixpoint drainWrite_loop (fuel : nat) (r : nat) (plan total : Z) : M (Z * option errno) :=
  match fuel with
  | O => lift None
  | Datatypes.S fuel =>
      stat bump_write;;
      '(n, err) ← conn_FlushN r plan;
      match err with
      | Some _ => mret (total, err)
      | None =>
          let total := if 0 <? n then total + n else total in
          if (n <=? 0) || ((plan <=? total) && (0 <? plan)) then mret (total, None)
          else drainWrite_loop fuel r plan total
      end
  end.

(** Every round but the last takes at least one byte off the queue. *)
Definition drainWrite (r : nat) : M (Z * option errno) :=
  c ← conn r;
  if ec_PendingWrite c =? 0 then mret (0, None)
  else drainWrite_loop (Datatypes.S (Z.to_nat (ec_PendingWrite c))) r (MaxFlushBytesPerEvent T) 0.

(** The tail of [emitOutput]: a pool buffer takes what was not written. *)
Definition enqueue_copy (r : nat) (out : list Z) : M (option errno) :=
  owner ← galloc (len out);
  match owner with
  | None => mret (Some ENOMEM)
  | Some owner => conn_EnqueueWrite r (blit owner 0 out) (len out);; mret None
  end.

Definition emitOutput (r : nat) (out : list Z) : M (option errno) :=
  let outLen := len out in
  if outLen =? 0 then mret None
  else
    c ← conn r;
    if ec_PendingWrite c =? 0 then
      '(n, err) ← conn_Write r out;
      if n =? outLen then mret None
      else if bool_decide (is_Some err ∧ err ≠ Some EAGAIN) then mret err
      else
        let n := if n <? 0 then 0 else n in
        out ← (if 0 <? n then lift (slice out n (len out)) else mret out);
        enqueue_copy r out
    else enqueue_copy r out.

(** ** loopConn.go: closing *)

Definition idle_remove (r : nat) : M unit :=
  c ← conn r;
  mod_l (λ l,
    let checkList := match l_touchMap l !! ec_ID c with
      | Some (_, elem) => filter (λ e : nat * nat, fst e ≠ elem) (l_checkList l)
      | None => l_checkList l
      end in
    set_idle (l_lastCheck l) checkList (l_nextElem l) (delete (ec_ID c) (l_touchMap l)) l).

Definition checking (l : LoopConn) : bool := (0 <? l_checkInterval (l_cfg l)) && (0 <? l_idleLimit (l_cfg l)).

Definition closeConn (r : nat) (err : option CloseErr) : M unit :=
  c ← conn r;
  let fd := ec_Fd c in
  if fd =? 0 then mret tt
  else
    mod_l (λ l, set_closeOnDrain (l_closeOnDrain l ∖ {[fd]}) l);;
    l ← loop;
    (if checking l then idle_remove r else mret tt);;
    mod_l (λ l, set_counts (AddInt32 (l_count l) (-1)) (l_dcount l) l);;
    (if ec_IsClient c then mod_l (λ l, set_counts (l_count l) (AddInt32 (l_dcount l) (-1)) l) else mret tt);;
    syscall (λ k, Poll_Del k (l_poll (l_cfg l)) fd);;
    mod_l (λ l, set_writeFds (l_writeFds l ∖ {[fd]}) l);;
    mod_l (λ l, set_cmdFlushSet (l_cmdFlushSet l ∖ {[fd]}) l);;
    clearConn r;;
    conn_Close r;;
    OnClosed r err.

Definition closed (r : nat) (err : CloseErr) : M unit := closeConn r (Some err).

Definition processSend (r : nat) : M unit :=
  '(_, err) ← drainWrite r;
  if bool_decide (is_Some err ∧ err ≠ Some EAGAIN) then closed r CLOSE_SEND_ERR
  else
    c ← conn r; l ← loop;
    if (ec_PendingWrite c =? 0) && bool_decide (ec_Fd c ∈ l_closeOnDrain l)
    then closed r CLOSE_BY_USER_LAND
    else updateWriteFd r.

(** ** loopConn.go: reading *)

(** The buffer [processRead] reads into: [Some false] is the loop's shared buffer,
    [Some true] the connection's own, [None] a connection closed for lack of memory. *)
Definition select_recvbuf (r : nat) (left : Z) : M (option bool) :=
  if 0 <? left then
    c ← conn r; l ← loop;
    let cap := RingBuffer_Capacity (ec_Recvbuf c) in
    if cap - left <? len (l_recvbuf l) - left then
      privateBuf ← rb_AlignBytes r;
      s ← lift (slice privateBuf 0 left);
      mod_l (λ l, set_recvbuf (blit (l_recvbuf l) 0 s) l);;
      mret (Some false)
    else if RingBuffer_Free (ec_Recvbuf c) =? 0 then
      resizeBuf ← galloc (cap * 2);
      match resizeBuf with
      | None => closed r CLOSE_PKT_SIZE_LIMIT;; mret None
      | Some resizeBuf =>
          bytes ← rb_AlignBytes r;
          rb_Update r (blit resizeBuf 0 bytes);;
          rb_Forward r (len bytes) OpWrite;;
          rb_AlignBytes r;;
          mret (Some true)
      end
    else rb_AlignBytes r;; mret (Some true)
  else mret (Some false).

(** The slice [recvbuf]. *)
Definition buf_content (r : nat) (private : bool) : M (list Z) :=
  c ← conn r; l ← loop;
  mret (if private then rb_buf (ec_Recvbuf c) else l_recvbuf l).

(** [c.Read(recvbuf[left:])]: the pair returned and the length of the slice. *)
Definition read_into (r : nat) (private : bool) (left : Z) : M (Z * option errno * Z) :=
  recvbuf ← buf_content r private;
  s ← lift (slice recvbuf left (len recvbuf));
  '(d, (n, err)) ← conn_Read r (len s);
  (if private then rb_Fill r left d else mod_l (λ l, set_recvbuf (blit (l_recvbuf l) left d) l));;
  stat bump_read;;
  mret (n, err, len s).

(** The bookkeeping of the idle list after a read. *)
Definition touch (r : nat) : M unit :=
  c ← conn r; l ← loop;
  (if checking l && negb (ec_IsClient c) then
     match l_touchMap l !! ec_ID c with
     | Some (_, elem) =>
         let moved := filter (λ e : nat * nat, fst e ≠ elem) (l_checkList l)
                      ++ filter (λ e : nat * nat, fst e = elem) (l_checkList l) in
         mod_l (λ l, set_idle (l_lastCheck l) moved (l_nextElem l)
                       (<[ec_ID c := (l_nowSec l, elem)]> (l_touchMap l)) l)
     | None => mret tt
     end
   else mret tt);;
  set_conn r (ec_SetLastRecv c (l_nowSec l)).

(** The partial packet [inp] is kept in the connection's own buffer; [false] when
    the connection was closed instead. *)
Definition keep_partial (r : nat) (inp : list Z) (expect : Z) : M bool :=
  let left := len inp in
  if 0 <? left then
    c ← conn r;
    if RingBuffer_Capacity (ec_Recvbuf c) <? expect then
      resizeBuf ← galloc expect;
      match resizeBuf with
      | None => closed r CLOSE_PKT_SIZE_LIMIT;; mret false
      | Some b => rb_Update r b;; rb_Write r inp left true;; mret true
      end
    else rb_Truncate r;; rb_Write r inp left true;; mret true
  else mret true.

(** The parse loop of [processRead]: [None] when it closed the connection and
    [processRead] returns, [Some wantClose] when it breaks.  Each round but the
    last consumes a packet of at least one byte, so [S (length inp)] rounds do. *)
Fixpoint parse_loop (fuel : nat) (r : nat) (inp : list Z) : M (option bool) :=
  match fuel with
  | O => lift None
  | Datatypes.S fuel =>
      '(length, expect) ← ParsePacket r inp;
      l ← loop;
      if length <? 0 then closed r CLOSE_PKT_PARSE_ERR;; mret None
      else if l_pktSizeLimit (l_cfg l) <? expect then closed r CLOSE_PKT_SIZE_LIMIT;; mret None
      else if 0 <? length then
        if len inp <? length then closed r CLOSE_PKT_PARSE_ERR;; mret None
        else
          data ← lift (slice inp 0 length);
          '(out, wantClose) ← OnData r data;
          err ← emitOutput r out;
          match err with
          | Some e => closed r (if decide (e = ENOMEM) then CLOSE_MEM_ALLOC_FAIL else CLOSE_SEND_ERR);; mret None
          | None =>
              inp ← lift (slice inp length (len inp));
              if wantClose || (len inp =? 0) then
                (if len inp =? 0 then rb_Reset r else mret tt);; mret (Some wantClose)
              else parse_loop fuel r inp
          end
      else
        ok ← keep_partial r inp expect;
        mret (if (ok : bool) then Some false else None)
  end.

(** Whether the queue of a connection is over its limit, and the error to close it with. *)
Definition over_limit (c : C) (l : LoopConn) : option CloseErr :=
  if (ec_GetType c =? TYPE_CONN) || (ec_GetType c =? TYPE_CONN_TLS) then
    let pending := ec_PendingWrite c in
    if ec_IsClient c then
      if RingBufferGuardByteSize <=? pending then Some CLOSE_SEND_ERR else None
    else if l_cliSbufLimit (l_cfg l) <? pending then Some CLOSE_BY_SLOW_READER else None
  else None.

(** What follows the parse loop in a round of [processRead]; [stop] says that the
    read was the last of this event.  [true] when [processRead] returns. *)
Definition finish_round (r : nat) (wantClose stop : bool) : M bool :=
  '(_, err) ← drainWrite r;
  if bool_decide (is_Some err ∧ err ≠ Some EAGAIN) then closed r CLOSE_SEND_ERR;; mret true
  else
    c ← conn r; l ← loop;
    if wantClose then
      if 0 <? ec_PendingWrite c then
        mod_l (λ l, set_closeOnDrain ({[ec_Fd c]} ∪ l_closeOnDrain l) l);;
        updateWriteFd r;; mret true
      else closed r CLOSE_BY_USER_LAND;; mret true
    else
      match over_limit c l with
      | Some e => closed r e;; mret true
      | None => if stop then updateWriteFd r;; mret true else mret false
      end.

(** The [for] loop of [processRead]; it ends with a panic when [fuel] is 0. *)
Fixpoint processRead_loop (fuel : nat) (r : nat) (readBytes : Z) : M unit :=
  match fuel with
  | O => lift None
  | Datatypes.S fuel =>
      c ← conn r;
      let left := RingBuffer_Has (ec_Recvbuf c) in
      sel ← select_recvbuf r left;
      match sel with
      | None => mret tt
      | Some private =>
          '(n, err, room) ← read_into r private left;
          let eagain := bool_decide (err = Some EAGAIN) in
          if bool_decide (is_Some err) && negb eagain then closed r CLOSE_READ_ERR
          else if (n <=? 0) && negb eagain then closed r CLOSE_READ_ERR
          else
            let readBytes := readBytes + n in
            let budgetExhausted := (0 <? MaxReadBytesPerEvent T) && (MaxReadBytesPerEvent T <=? readBytes) in
            let shortRead := (ec_GetType c =? TYPE_CONN) && negb eagain && (0 <? n) && (n <? room) in
            touch r;;
            recvbuf ← buf_content r private;
            inp ← lift (slice recvbuf 0 (left + n));
            res ← parse_loop (Datatypes.S (length inp)) r inp;
            match res with
            | None => mret tt
            | Some wantClose =>
                done ← finish_round r wantClose (eagain || shortRead || budgetExhausted);
                if (done : bool) then mret tt else processRead_loop fuel r readBytes
            end
      end
  end.

(** With a positive read budget, which every profile has, each round but the last
    reads at least one byte of it.  A budget of 0 (no limit) is not modelled. *)
Definition processRead (r : nat) : M unit :=
  processRead_loop (Datatypes.S (Z.to_nat (MaxReadBytesPerEvent T))) r 0.

(** ** loopConn.go: ids, the idle list, commands *)

Definition GenID (seed : Z) : M Z :=
  l ← loop;
  let seq := wrapU 32 (l_seq l + 1) in
  mod_l (set_seq seq);; mret (buildSimpleID seq seed (l_idx (l_cfg l))).

Definition AllocID (r : nat) : M unit :=
  id ← match idg_GetID with
       | Some gen => s ← gets w_app; let '(s, id) := gen s in set_app s;; mret id
       | None => c ← conn r; GenID (ec_Fd c)
       end;
  c ← conn r; set_conn r (ec_SetID c id).

(** [CompareAndSwap(&l.triggered, 0, 1)], and the wake-up when it swapped. *)
Definition trigger : M unit :=
  l ← loop;
  if l_triggered l =? 0 then
    mod_l (set_triggered 1);; syscall (λ k, Poll_Trigger k (l_poll (l_cfg l)) CmdUser);; mret tt
  else mret tt.

Definition has_room {X} (l : LoopConn) (ch : list X) : bool := len ch <? l_chanSize (l_cfg l).

(** [true] when the connection was queued. *)
Definition AddClient (r : nat) : M bool :=
  l ← loop;
  if has_room l (l_acceptChan l) then
    mod_l (λ l, set_chans (l_cmdChan l) (l_cmdDialChan l) (l_acceptChan l ++ [r]) l);; trigger;; mret true
  else mret false.

(** [cmd.reset()] returns the buffer of a command to the allocator. *)
Definition release (cmd : CmdData) : M unit := p ← gets w_pool; set_pool (fst (CmdData_reset p cmd)).

(** The [select] of [AddCmd] and what follows; [true] when the command was queued. *)
Definition post_cmd (dial : bool) (cmddata : CmdData) : M bool :=
  l ← loop;
  if has_room l (if dial then l_cmdDialChan l else l_cmdChan l) then
    mod_l (λ l, if dial then set_chans (l_cmdChan l) (l_cmdDialChan l ++ [cmddata]) (l_acceptChan l) l
                else set_chans (l_cmdChan l ++ [cmddata]) (l_cmdDialChan l) (l_acceptChan l) l);;
    stat bump_recvcmd;; trigger;; mret true
  else stat bump_cmdfail;; release cmddata;; mret false.

Definition AddCmd (cmd fd : Z) (dial : bool) (id : Z) (data : list Z) : M bool :=
  if 0 <? len data then
    owner ← galloc (len data);
    match owner with
    | None => mret false
    | Some b => post_cmd dial (mkCmd cmd fd id (Some (blit b 0 data)) (len data))
    end
  else post_cmd dial (mkCmd cmd fd id None 0).

(** ** Attaching connections *)

(** [true] when the connection was accepted, [false] for an error. *)
Definition postAccept (r : nat) : M bool :=
  OnConnected r;;
  c ← conn r; l ← loop;
  err ← syscall (λ k, Poll_AddRead k (l_poll (l_cfg l)) (ec_Fd c));
  if bool_decide (is_Some (err : option errno)) then mret false
  else if ec_GetType c =? TYPE_CONN_TLS then
    if ec_IsKTLS c then
      if 0 <? ec_BufferedPlaintextLen c then
        processRead r;; c ← conn r; mret (negb (ec_Fd c =? 0))
      else mret true
    else processRead r;; c ← conn r; mret (negb (ec_Fd c =? 0))
  else mret true.

Definition attachClient (r : nat) : M bool :=
  c ← conn r;
  prev ← connByFD (ec_Fd c);
  match prev with Some p => closed p CLOSE_BY_DUP_ACCEPT | None => mret tt end;;
  ok ← storeConn r;
  if negb ok then conn_Close r;; mret false
  else
    mod_l (λ l, set_counts (AddInt32 (l_count l) 1) (l_dcount l) l);;
    (if ec_IsClient c then mod_l (λ l, set_counts (l_count l) (AddInt32 (l_dcount l) 1) l) else mret tt);;
    accepted ← postAccept r;
    if negb accepted then closed r CLOSE_BY_ACCEPT;; mret false
    else
      c ← conn r; l ← loop;
      (if checking l && negb (ec_IsClient c) then
         mod_l (λ l, set_idle (l_lastCheck l) (l_checkList l ++ [(l_nextElem l, r)]) (Datatypes.S (l_nextElem l))
                       (<[ec_ID c := (l_nowSec l, l_nextElem l)]> (l_touchMap l)) l)
       else mret tt);;
      mret true.

(** The walk of [onIdle] over the list from the front; it stops at the first
    connection that is not overdue. *)
Fixpoint close_idle (now : Z) (es : list (nat * nat)) : M unit :=
  match es with
  | [] => mret tt
  | (elem, r) :: es =>
      c ← conn r; l ← loop;
      match l_touchMap l !! ec_ID c with
      | Some (t, _) =>
          if l_idleLimit (l_cfg l) <? now - t then
            mod_l (λ l, set_idle (l_lastCheck l) (filter (λ e : nat * nat, fst e ≠ elem) (l_checkList l)) (l_nextElem l)
                          (delete (ec_ID c) (l_touchMap l)) l);;
            closed r CLOSE_BY_ANTI_IDLE;;
            close_idle now es
          else mret tt
      | None => mret tt
      end
  end.

Definition onIdle : M unit :=
  l ← loop;
  let now := l_nowSec l in
  let checked l := set_idle now (l_checkList l) (l_nextElem l) (l_touchMap l) l in
  if l_lastCheck l =? 0 then mod_l checked
  else if (0 <? l_checkInterval (l_cfg l)) && (l_checkInterval (l_cfg l) <=? now - l_lastCheck l) then
    mod_l checked;;
    if 0 <? l_idleLimit (l_cfg l) then close_idle now (l_checkList l) else mret tt
  else mret tt.

(** ** Commands *)

(** A connection whose queue is over its limit is dropped; [cmddrop] counts the
    dialled ones.  [true] when it was. *)
Definition drop_over_limit (r : nat) : M bool :=
  c ← conn r; l ← loop;
  match over_limit c l with
  | None => mret false
  | Some e => (if ec_IsClient c then stat bump_cmddrop else mret tt);; closed r e;; mret true
  end.

(** The deferred [cmd.reset()] returns the buffer of a command that still has it. *)
Definition consumeCmd (cmd : CmdData) : M unit :=
  stat bump_cmdconsume;;
  co ← connByFD (cd_fd cmd);
  match co with
  | None => release cmd
  | Some r =>
      c ← conn r;
      if cd_cmd cmd =? CMD_DATA then
        if negb (ec_ID c =? cd_id cmd) || (cd_size cmd =? 0) || (ec_Fd c =? 0) then release cmd
        else
          conn_EnqueueWrite r (default [] (cd_data cmd)) (cd_size cmd);;
          mod_l (λ l, set_cmdFlushSet ({[ec_Fd c]} ∪ l_cmdFlushSet l) l);;
          drop_over_limit r;; mret tt
      else if cd_cmd cmd =? CMD_CLOSE then closed r CLOSE_BY_CLOSE_CMD;; release cmd
      else release cmd
  end.

Definition under (budget used : Z) : bool := negb ((0 <? budget) && (budget <=? used)).

(** The three channel loops of [processCmd]; [n] bounds the length of the channel,
    which nothing refills while the loop runs. *)
Fixpoint drain_accepts (n : nat) (accepted : Z) : M unit :=
  match n with
  | O => mret tt
  | Datatypes.S n =>
      l ← loop;
      if under (MaxAcceptPerEvent T) accepted then
        match l_acceptChan l with
        | [] => mret tt
        | r :: rs =>
            mod_l (λ l, set_chans (l_cmdChan l) (l_cmdDialChan l) rs l);;
            attachClient r;; drain_accepts n (accepted + 1)
        end
      else mret tt
  end.

Fixpoint drain_cmds (dial : bool) (n : nat) (consumed : Z) : M unit :=
  match n with
  | O => mret tt
  | Datatypes.S n =>
      l ← loop;
      if under (MaxCmdPerEvent T) consumed then
        match (if dial then l_cmdDialChan l else l_cmdChan l) with
        | [] => mret tt
        | cmd :: cmds =>
            mod_l (λ l, if dial then set_chans (l_cmdChan l) cmds (l_acceptChan l) l
                        else set_chans cmds (l_cmdDialChan l) (l_acceptChan l) l);;
            consumeCmd cmd;; drain_cmds dial n (consumed + 1)
        end
      else mret tt
  end.

(** The loop over [cmdFlushSet]; [fds] is the order in which the map is ranged
    over.  An entry deleted before it is reached is not produced. *)
Fixpoint flush_conns (fds : list Z) (flushed : Z) : M unit :=
  match fds with
  | [] => mret tt
  | fd :: fds =>
      l ← loop;
      if bool_decide (fd ∉ l_cmdFlushSet l) then flush_conns fds flushed
      else if negb (under (MaxCmdFlushConnsPerEvent T) flushed) then mret tt
      else
        mod_l (λ l, set_cmdFlushSet (l_cmdFlushSet l ∖ {[fd]}) l);;
        co ← connByFD fd;
        match co with
        | None => flush_conns fds flushed
        | Some r =>
            c ← conn r;
            if ec_Fd c =? 0 then flush_conns fds flushed
            else
              '(_, err) ← drainWrite r;
              if bool_decide (is_Some err ∧ err ≠ Some EAGAIN) then
                closed r CLOSE_SEND_ERR;; flush_conns fds flushed
              else
                dropped ← drop_over_limit r;
                if (dropped : bool) then flush_conns fds flushed
                else updateWriteFd r;; flush_conns fds (flushed + 1)
        end
  end.

(** The order in which Go ranges over a map is not specified: it is an arbitrary
    function of the state. *)
Variable range_keys : LoopConn → gset Z → list Z.

(** [fdTableRange(l.idx, func(fd, c) { l.closeConn(c, nil) })] *)
Definition close_all (idx : Z) : M unit := λ w,
  w' ← fdTableRange w_table
         (λ w r, match w_conns w !! r with Some c => ec_LoopID c =? idx | None => false end)
         (λ _ r w, snd <$> closeConn r None w) w;
  Some (tt, w').

Fixpoint close_listeners (p : Poll) (ls : list Listener) : M unit :=
  match ls with
  | [] => mret tt
  | lis :: ls =>
      syscall (λ k, Poll_Del k p (lis_Fd lis));; syscall (λ k, (lis_Close k lis, tt));; close_listeners p ls
  end.

Definition shutdown : M unit :=
  l ← loop;
  if l_shutdown l then mret tt
  else
    mod_l (set_shutdown true);;
    close_listeners (l_poll (l_cfg l)) (l_listeners l);;
    close_all (l_idx (l_cfg l)).

Definition processCmd (ev : Z) : M unit :=
  if ev =? EventStop then shutdown
  else
    (if ev =? EventIdle then onIdle else mret tt);;
    l ← loop; drain_accepts (length (l_acceptChan l)) 0;;
    l ← loop; drain_cmds false (length (l_cmdChan l)) 0;;
    l ← loop; drain_cmds true (length (l_cmdDialChan l)) 0;;
    l ← loop; flush_conns (range_keys l (l_cmdFlushSet l)) 0;;
    mod_l (set_triggered 0);;
    l ← loop;
    if (0 <? len (l_cmdChan l)) || (0 <? len (l_cmdDialChan l)) || (0 <? len (l_acceptChan l))
       || negb (bool_decide (l_cmdFlushSet l = ∅))
    then trigger else mret tt.

(** ** loopAccept.go: accepting *)

Definition setSocketOptions (fd : Z) : M (option errno) :=
  e ← (if AcceptSocketNoDelay T then syscall (λ k, sys_setsockopt_nodelay k fd) else mret None);
  match (e : option errno) with
  | Some e => mret (Some e)
  | None =>
      if 0 <? AcceptSocketSendBufBytes T
      then syscall (λ k, sys_setsockopt_sndbuf k fd (AcceptSocketSendBufBytes T)) else mret None
  end.

(** [extra] is the number of handshakes in progress that count as load. *)
Definition overloaded (extra : Z) : M bool :=
  l ← loop; s ← gets w_app;
  mret match sel_GetLoad with
       | Some load => (0 <? l_max (l_cfg l)) && (l_max (l_cfg l) <? wrapS 32 (load s + extra))
       | None => false
       end.

(** The descriptor [fd] was accepted: the checks that both accept loops make.
    [Some true] to go on with it, [Some false] to take the next one, [None] to return. *)
Definition accept_checks (fd extra : Z) : M (option bool) :=
  over ← overloaded extra;
  if (over : bool) then syscall (λ k, sys_close k fd);; mret None
  else
    err ← syscall (λ k, sys_set_nonblock k fd);
    if bool_decide (is_Some (err : option errno)) then syscall (λ k, sys_close k fd);; mret (Some false)
    else
      err ← setSocketOptions fd;
      if bool_decide (is_Some (err : option errno)) then syscall (λ k, sys_close k fd);; mret (Some false)
      else stat bump_accept;; mret (Some true).

(** [n] iterations are left. *)
Fixpoint accept (n : nat) (fd : Z) : M unit :=
  match n with
  | O => mret tt
  | Datatypes.S n =>
      res ← syscall (λ k, sys_accept k fd);
      match (res : Z + errno) with
      | inr _ => mret tt
      | inl nfd =>
          go ← accept_checks nfd 0;
          match (go : option bool) with
          | None => mret tt
          | Some false => accept n fd
          | Some true =>
              r ← new_conn (ec_accepted nfd);
              AllocID r;; attachClient r;; accept n fd
          end
      end
  end.

Fixpoint acceptTLS (n : nat) (fd : Z) : M unit :=
  match n with
  | O => mret tt
  | Datatypes.S n =>
      res ← syscall (λ k, sys_accept k fd);
      match (res : Z + errno) with
      | inr _ => mret tt
      | inl nfd =>
          s ← gets w_app;
          go ← accept_checks nfd (tls_Pending s);
          match (go : option bool) with
          | None => mret tt
          | Some false => acceptTLS n fd
          | Some true =>
              stat bump_tlsAccept;;
              s ← gets w_app;
              if (0 <? TlsHandshakeMaxPending T) && (TlsHandshakeMaxPending T <=? tls_Pending s) then
                syscall (λ k, sys_close k nfd);; acceptTLS n fd
              else
                let '(s, c) := tls_NewPendingConn s nfd in
                set_app s;;
                match c with
                | None => syscall (λ k, sys_close k nfd);; acceptTLS n fd
                | Some c =>
                    r ← new_conn c; AllocID r;;
                    s ← gets w_app; c ← conn r;
                    let '(s, ok) := tls_Submit s c in
                    set_app s;;
                    (if (ok : bool) then mret tt else conn_Close r);;
                    acceptTLS n fd
                end
          end
      end
  end.

Definition processAccept (fd : Z) : M unit :=
  l ← loop;
  match filter (λ lis, lis_Fd lis = fd) (l_listeners l) with
  | [] => mret tt
  | lis :: _ =>
      if lis_TlsMode lis =? TYPE_CONN then accept (Z.to_nat (MaxAcceptPerEvent T)) fd
      else if (tls_present : bool) then acceptTLS (Z.to_nat (MaxAcceptPerEvent T)) fd
      else mret tt
  end.

(** ** loopConn.go: the callback of [Run] *)

Definition dispatch (fd events : Z) : M unit :=
  if fd =? 0 then processCmd events
  else
    co ← connByFD fd;
    match co with
    | Some r =>
        if negb (Z.land events EventErr =? 0) then closed r CLOSE_EPOLL_ERR
        else
          c ← conn r;
          gone ← (if negb (Z.land events EventWrite =? 0) || (0 <? ec_PendingWrite c)
                  then processSend r;; c ← conn r; mret (ec_Fd c =? 0) else mret false);
          if (gone : bool) then mret tt
          else if negb (Z.land events EventRead =? 0) then
            processRead r;;
            c ← conn r;
            if ec_Fd c =? 0 then mret tt
            else if 0 <? ec_PendingWrite c then processSend r else mret tt
          else mret tt
    | None => if negb (Z.land events EventRead =? 0) then processAccept fd else mret tt
    end.

Fixpoint run_callbacks (cbs : list (Z * Z)) : M unit :=
  match cbs with [] => mret tt | (fd, events) :: cbs => dispatch fd events;; run_callbacks cbs end.

(** The callbacks of one round of [Poll.Poll] on the events [evs]. *)
Definition poll_round (stopping : bool) (evs : list (Z * Z)) : M bool :=
  l ← loop;
  let '(cbs, stop) := poll_batch (p_wfd (l_poll (l_cfg l))) stopping evs in
  run_callbacks cbs;; mret stop.

(** ** Set-up, accessors and the statistics *)

(** [Init]: [poll] is what [OpenPoll] returns; a [nil] buffer is the empty slice. *)
Definition Init (pool : P) (poll : Poll) (idx size chanSize pktSizeLimit cliSbufLimit : Z) : option (P * LoopConn) :=
  '(b, pool) ← al_get pool size;
  Some (pool, mkLoop (mkConfig idx pktSizeLimit cliSbufLimit chanSize 0 0 0 poll) (buf_of b) ∅ ∅ ∅ 0 0 0 [] [] [] 0
                (mkStat 0 0 0 0 0 0 0 0) 0 [] 0%nat ∅ 0 [] false).

(** [SetCheck] and [SetMax]. *)
Definition SetCheck (interval limit : Z) : M unit := mod_l (λ l,
  let g := l_cfg l in
  mkLoop (mkConfig (l_idx g) (l_pktSizeLimit g) (l_cliSbufLimit g) (l_chanSize g) interval limit (l_max g) (l_poll g))
    (l_recvbuf l) (l_writeFds l) (l_closeOnDrain l) (l_cmdFlushSet l) (l_count l) (l_dcount l) (l_seq l) (l_cmdChan l)
    (l_cmdDialChan l) (l_acceptChan l) (l_triggered l) (l_stat l) (l_lastCheck l) (l_checkList l) (l_nextElem l)
    (l_touchMap l) (l_nowSec l) (l_listeners l) (l_shutdown l)).

Definition AddListener (lis : Listener) : M unit :=
  if lis_Fd lis <? 0 then mret tt
  else
    l ← loop;
    if existsb (λ x, lis_Fd x =? lis_Fd lis) (l_listeners l) then
      syscall (λ k, (lis_Close k lis, tt))
    else
      mod_l (λ l, set_listeners (l_listeners l ++ [lis]) l);;
      syscall (λ k, Poll_AddRead k (l_poll (l_cfg l)) (lis_Fd lis));; mret tt.

Definition SyncTime (sec : Z) : M unit := mod_l (set_nowSec sec).

(** [Stat]: the values reported, and the counters after each is reduced by the
    value read. *)
Definition Stat : M LoopStat :=
  l ← loop;
  let s := l_stat l in
  let sub x := AddInt32 x (- x) in
  stat (λ s, mkStat (sub (st_read s)) (sub (st_write s)) (sub (st_recvcmd s)) (sub (st_cmdconsume s))
                    (sub (st_cmddrop s)) (sub (st_cmdfail s)) (sub (st_acceptCount s)) (sub (st_tlsAccept s)));;
  mret s.

Definition Online : M Z := gets (λ w, l_count (w_l w)).
Definition DialCnt : M Z := gets (λ w, l_dcount (w_l w)).

End Loop.
