(* ===== verification/LoopInv.v ===== *)
(** * Correctness of the event loop: one connection

    Total-correctness specifications ([wp]: the call returns) of the operations a
    loop makes on one of its connections.  [kept] says that the connection is
    still open and how its byte streams moved; [gone] that it was closed and every
    trace of it in the loop removed. *)

From stdpp Require Import gmap.
From S2P Require Import Prelude Pool Tuning RingBuffer WriteQueue Conn FdTable Poller EngineConn Loop.

(** ** Weakest preconditions *)

Definition wp {P K S C X} (m : M P K S C X) (Q : X → World P K S C → Prop) (w : World P K S C) : Prop :=
  match m w with Some (x, w') => Q x w' | None => False end.

Section Wp.
Context {P K S C : Type}.
Implicit Types (w : World P K S C).

Lemma wp_bind {X Y} (m : M P K S C X) (f : X → M P K S C Y) Q w :
  wp m (λ x w', wp (f x) Q w') w → wp (mbind f m) Q w.
Proof. unfold wp, mbind, M_bind. destruct (m w) as [[x w']|]; done. Qed.

Lemma wp_mono {X} (m : M P K S C X) (Q R : X → World P K S C → Prop) w :
  wp m Q w → (∀ x w', Q x w' → R x w') → wp m R w.
Proof. unfold wp. destruct (m w) as [[x w']|]; [|done]. auto. Qed.

Lemma wp_ret {X} (x : X) (Q : X → World P K S C → Prop) w : Q x w → wp (mret x) Q w.
Proof. done. Qed.

(** The result of a call that cannot panic. *)
Lemma wp_run {X} (m : M P K S C X) Q w : wp m Q w → ∃ x w', m w = Some (x, w') ∧ Q x w'.
Proof. unfold wp. destruct (m w) as [[x w']|]; [eauto|done]. Qed.

End Wp.

(** Steps over a call whose specification is [H]. *)
Tactic Notation "wpb" uconstr(H) := apply wp_bind; eapply wp_mono; [apply H|cbv beta].
Tactic Notation "wpc" uconstr(H) := eapply wp_mono; [apply H|cbv beta].

(** ** What a call on one connection may change *)

Record l_rel (fd : Z) (l l' : LoopConn) : Prop := {
  lr_cfg : l_cfg l' = l_cfg l;
  lr_chans : l_cmdChan l' = l_cmdChan l ∧ l_cmdDialChan l' = l_cmdDialChan l ∧ l_acceptChan l' = l_acceptChan l;
  lr_trig : l_triggered l' = l_triggered l;
  lr_buf : length (l_recvbuf l') = length (l_recvbuf l);
  lr_check e : e ∈ l_checkList l' → e ∈ l_checkList l;
  lr_sets fd' : fd' ≠ fd →
    (fd' ∈ l_writeFds l' ↔ fd' ∈ l_writeFds l) ∧ (fd' ∈ l_closeOnDrain l' ↔ fd' ∈ l_closeOnDrain l) ∧
    (fd' ∈ l_cmdFlushSet l' ↔ fd' ∈ l_cmdFlushSet l);
}.

Lemma l_rel_refl fd l : l_rel fd l l.
Proof. by split. Qed.

Lemma l_rel_trans fd l1 l2 l3 : l_rel fd l1 l2 → l_rel fd l2 l3 → l_rel fd l1 l3.
Proof.
  intros [A1 A2 A3 A4 A5 A6] [B1 B2 B3 B4 B5 B6]. split; try congruence.
  - naive_solver congruence.
  - auto.
  - intros fd' Hne. specialize (A6 fd' Hne). specialize (B6 fd' Hne). naive_solver.
Qed.

Definition same_id (v v' : ConnView) : Prop :=
  v_fd v' = v_fd v ∧ v_id v' = v_id v ∧ v_loopID v' = v_loopID v ∧ v_type v' = v_type v ∧ v_client v' = v_client v.

Lemma same_id_trans u v x : same_id u v → same_id v x → same_id u x.
Proof. unfold same_id. intuition congruence. Qed.

Definition is_data (r : nat) (e : event) : Prop :=
  match e with EvData r' _ _ _ => r' = r | _ => False end.

(** The packets delivered, and the output produced, by a list of callbacks. *)
Definition ev_in (e : event) : list Z := match e with EvData _ d _ _ => d | _ => [] end.
Definition ev_out (e : event) : list Z := match e with EvData _ _ o _ => o | _ => [] end.

Section Effects.
Context {P K S C : Type} `{AL : AllocatorLaws P} `{KE : !Kernel K, !Epoll K, !EngineConn P K C}.
Abbreviation World := (World P K S C).
Implicit Types (w : World) (r : nat) (c : C).

Definition env_ok w : Prop :=
  al_inv (w_pool w) ∧ 0 < len (l_recvbuf (w_l w)) ≤ al_max (w_pool w).

(** [r] is an open connection of this loop. *)
Record live r c w : Prop := {
  lv_env : env_ok w;
  lv_conn : w_conns w !! r = Some c;
  lv_wf : ec_wf c;
  lv_fd : v_fd (ec_view c) ≠ 0;
  lv_tab : fdTableGet (w_table w) (v_fd (ec_view c)) = Some r;
  lv_loop : v_loopID (ec_view c) = l_idx (l_cfg (w_l w));
  lv_rb : rb_fit (w_pool w) (v_recvbuf (ec_view c));
}.

Record frame r (fd : Z) w w' : Prop := {
  fr_env : env_ok w';
  fr_max : al_max (w_pool w') = al_max (w_pool w);
  fr_l : l_rel fd (w_l w) (w_l w');
  fr_conns r' : r' ≠ r → w_conns w' !! r' = w_conns w !! r';
  fr_streams d : v_fd (ec_view d) ≠ fd →
    ec_sent (w_k w') d = ec_sent (w_k w) d ∧ ec_got (w_k w') d = ec_got (w_k w) d;
}.

Lemma frame_trans r fd w1 w2 w3 : frame r fd w1 w2 → frame r fd w2 w3 → frame r fd w1 w3.
Proof.
  intros [A1 A2 A3 A4 A5] [B1 B2 B3 B4 B5]. split; try done; try congruence.
  - by eapply l_rel_trans.
  - intros r' Hne. rewrite B4, A4; done.
  - intros d Hne. destruct (A5 d Hne), (B5 d Hne). split; congruence.
Qed.

(** [r] stays open: [o] was appended to its output stream, [g] received, and the
    callbacks [evs] made. *)
Record kept r c w c' w' (o g : list Z) (evs : list event) : Prop := {
  kp_frame : frame r (v_fd (ec_view c)) w w';
  kp_live : live r c' w';
  kp_same : same_id (ec_view c) (ec_view c');
  kp_table : w_table w' = w_table w;
  kp_count : l_count (w_l w') = l_count (w_l w) ∧ l_dcount (w_l w') = l_dcount (w_l w);
  kp_out : ec_sent (w_k w') c' ++ v_unsent (ec_view c') = ec_sent (w_k w) c ++ v_unsent (ec_view c) ++ o;
  kp_in : ec_got (w_k w') c' = ec_got (w_k w) c ++ g;
  kp_trace : w_trace w' = w_trace w ++ evs;
  kp_evs : Forall (is_data r) evs;
}.

(** [r] was closed: its slot and its entries in the loop's sets are free, the
    count is one less, and [OnClosed] was called, once and last. *)
Record gone r c w w' (evs : list event) (err : option CloseErr) : Prop := {
  gn_frame : frame r (v_fd (ec_view c)) w w';
  gn_conn : ∃ c', w_conns w' !! r = Some c' ∧ ec_wf c' ∧ v_fd (ec_view c') = 0 ∧
                  v_loopID (ec_view c') = v_loopID (ec_view c) ∧ v_unsent (ec_view c') = [];
  gn_table : w_table w' = fdTableClear (w_table w) (v_fd (ec_view c)) r;
  gn_sets : v_fd (ec_view c) ∉ l_writeFds (w_l w') ∧ v_fd (ec_view c) ∉ l_closeOnDrain (w_l w') ∧
            v_fd (ec_view c) ∉ l_cmdFlushSet (w_l w');
  gn_count : l_count (w_l w') = AddInt32 (l_count (w_l w)) (-1);
  gn_dcount : l_dcount (w_l w') = if v_client (ec_view c) then AddInt32 (l_dcount (w_l w)) (-1) else l_dcount (w_l w);
  gn_trace : w_trace w' = w_trace w ++ evs ++ [EvClosed r err];
  gn_evs : Forall (is_data r) evs;
}.

Lemma frame_refl r fd w : env_ok w → frame r fd w w.
Proof. by split. Qed.

Lemma kept_refl r c w : live r c w → kept r c w c w [] [] [].
Proof.
  intros Hl. pose proof (frame_refl r (v_fd (ec_view c)) w (lv_env _ _ _ Hl)). split; rewrite ?app_nil_r; done.
Qed.

Lemma kept_trans r c w c1 w1 c2 w2 o1 g1 evs1 o2 g2 evs2 :
  kept r c w c1 w1 o1 g1 evs1 → kept r c1 w1 c2 w2 o2 g2 evs2 →
  kept r c w c2 w2 (o1 ++ o2) (g1 ++ g2) (evs1 ++ evs2).
Proof.
  intros [A1 A2 A3 A4 A5 A7 A8 A9 A10] [B1 B2 B3 B4 B5 B7 B8 B9 B10].
  assert (v_fd (ec_view c1) = v_fd (ec_view c)) as E by apply A3. rewrite E in B1.
  split; try done; try congruence.
  - by eapply frame_trans.
  - by eapply same_id_trans.
  - destruct A5, B5. split; congruence.
  - rewrite B7, app_assoc, A7, <-!app_assoc. done.
  - rewrite B8, A8, <-app_assoc. done.
  - rewrite B9, A9, <-app_assoc. done.
  - by apply Forall_app.
Qed.

Lemma kept_gone r c w c1 w1 w2 o g evs1 evs2 err :
  kept r c w c1 w1 o g evs1 → gone r c1 w1 w2 evs2 err → gone r c w w2 (evs1 ++ evs2) err.
Proof.
  intros [A1 A2 A3 A4 A5 A7 A8 A9 A10] [B1 B2 B3 B4 B5 B6 B7 B8].
  destruct A3 as (E & _ & El & _ & Ec). rewrite E, ?El, ?Ec in *. destruct A5 as [Ac Ad].
  split; try done; try congruence.
  - by eapply frame_trans.
  - by rewrite B6, Ad.
  - rewrite B7, A9, <-!app_assoc. done.
  - by apply Forall_app.
Qed.

End Effects.

Section Specs.
Context {P K S C : Type} `{AL : AllocatorLaws P} `{KL : KernelLaws K} `{!Epoll K, !EpollLaws K}
  `{EC : !EngineConn P K C, !EngineConnLaws P K C} `{!Handler S C}.
Variable T : EventLoop.
Abbreviation World := (World P K S C).
Abbreviation M := (M P K S C).
Implicit Types (w : World) (r : nat) (c : C).

(** ** The calls on a connection *)

Lemma kept_conn r c w p k app c' v l tr s g o evs :
  live r c w → al_inv p → al_max p = al_max (w_pool w) →
  conn_step (w_k w) c k c' v s g → same_id (ec_view c) v → rb_fit p (v_recvbuf v) →
  s ++ v_unsent v = v_unsent (ec_view c) ++ o →
  l_rel (v_fd (ec_view c)) (w_l w) l → l_count l = l_count (w_l w) ∧ l_dcount l = l_dcount (w_l w) →
  tr = w_trace w ++ evs → Forall (is_data r) evs →
  kept r c w c' (mkW p k app (<[r := c']> (w_conns w)) (w_table w) l tr) o g evs.
Proof.
  intros [[Hp Hb] Hc Hwf Hfd Ht Hlp Hrb] Hp' Hm [Swf Sv Ss Sg So] Hid Hrb' Ho Hl Hcnt -> Hev.
  pose proof Hid as (E1 & E2 & E3 & E4 & E5).
  assert (env_ok (mkW p k app (<[r := c']> (w_conns w)) (w_table w) l (w_trace w ++ evs))) as Henv.
  { split; simpl; [done|]. rewrite (lr_buf _ _ _ Hl), Hm. done. }
  split; simpl; try done.
  - split; simpl; try done. intros r' Hne. by rewrite lookup_insert_ne.
  - split; simpl; try done; rewrite ?Sv; try congruence.
    + by rewrite lookup_insert_eq.
    + rewrite (lr_cfg _ _ _ Hl). congruence.
  - by rewrite Sv.
  - rewrite Ss, Sv, <-app_assoc, Ho. done.
Qed.

Lemma l_rel_stat fd l f : l_rel fd l (set_stat f l).
Proof. by split. Qed.

Lemma l_rel_recvbuf fd l b : length b = length (l_recvbuf l) → l_rel fd l (set_recvbuf b l).
Proof. by split. Qed.

Lemma l_rel_idle fd l x y z t : (∀ e, e ∈ x → e ∈ l_checkList l) → l_rel fd l (set_idle t x y z l).
Proof. by split. Qed.

Hint Resolve l_rel_refl l_rel_stat l_rel_recvbuf l_rel_idle : go.

Lemma same_id_refl v : same_id v v.
Proof. done. Qed.
Hint Resolve same_id_refl : go.

Lemma rb_fit_max (p p' : P) rb : al_max p' = al_max p → rb_fit p rb → rb_fit p' rb.
Proof. unfold rb_fit, rb_ok. by intros ->. Qed.

(** Only the loop record changes. *)
Lemma kept_l r c w l : live r c w → l_rel (v_fd (ec_view c)) (w_l w) l →
  l_count l = l_count (w_l w) ∧ l_dcount l = l_dcount (w_l w) →
  kept r c w c (mkW (w_pool w) (w_k w) (w_app w) (w_conns w) (w_table w) l (w_trace w)) [] [] [].
Proof.
  intros Hlv Hl Hc. pose proof Hlv as [[Hp Hb] Hc' Hwf Hfd Ht Hlp Hrb].
  assert (env_ok (mkW (w_pool w) (w_k w) (w_app w) (w_conns w) (w_table w) l (w_trace w))) as Henv.
  { split; simpl; [done|]. by rewrite (lr_buf _ _ _ Hl). }
  split; simpl; rewrite ?app_nil_r; try done.
  split; simpl; try done. by rewrite (lr_cfg _ _ _ Hl).
Qed.

(** Only the kernel changes, and no stream of bytes does. *)
Lemma kept_k r c w k : live r c w →
  (∀ fd, k_out k fd = k_out (w_k w) fd ∧ k_in k fd = k_in (w_k w) fd) →
  kept r c w c (mkW (w_pool w) k (w_app w) (w_conns w) (w_table w) (w_l w) (w_trace w)) [] [] [].
Proof.
  intros Hlv Hk. pose proof Hlv as [[Hp Hb] Hc' Hwf Hfd Ht Hlp Hrb].
  assert (∀ d, ec_sent k d = ec_sent (w_k w) d ∧ ec_got k d = ec_got (w_k w) d) as Hs.
  { intros d. apply ec_streams; apply Hk. }
  destruct (Hs c) as [E1 E2].
  split; simpl; rewrite ?app_nil_r, ?E1, ?E2; try done.
Qed.

Lemma wp_conn r c w Q : w_conns w !! r = Some c → Q c w → wp (conn r : M C) Q w.
Proof. intros E. unfold wp, conn. by rewrite E. Qed.

Lemma wp_stat r c w f : live r c w → wp (stat f : M unit) (λ _ w',
  kept r c w c w' [] [] [] ∧ l_writeFds (w_l w') = l_writeFds (w_l w) ∧ l_closeOnDrain (w_l w') = l_closeOnDrain (w_l w) ∧
  l_recvbuf (w_l w') = l_recvbuf (w_l w)) w.
Proof. intros Hl. unfold wp, stat. simpl. split; [|done]. by apply kept_l. Qed.

(** The loop's sets and buffer are as before. *)
Definition quiet (w w' : World) : Prop :=
  l_writeFds (w_l w') = l_writeFds (w_l w) ∧ l_closeOnDrain (w_l w') = l_closeOnDrain (w_l w) ∧
  l_recvbuf (w_l w') = l_recvbuf (w_l w).

Lemma quiet_trans (w1 w2 w3 : World) : quiet w1 w2 → quiet w2 w3 → quiet w1 w3.
Proof. unfold quiet. intuition congruence. Qed.

Lemma wp_FlushN r c w n : live r c w → wp (conn_FlushN r n : M _) (λ res w', ∃ c',
  kept r c w c' w' [] [] [] ∧ quiet w w' ∧ v_recvbuf (ec_view c') = v_recvbuf (ec_view c) ∧
  len (v_unsent (ec_view c')) = len (v_unsent (ec_view c)) - Z.max 0 (fst res)) w.
Proof.
  intros Hl. pose proof Hl as [[Hp Hb] Hc Hwf Hfd Ht Hlp Hrb]. unfold wp, conn_FlushN. rewrite Hc. simpl.
  destruct (ec_FlushN_ok (w_pool w) (w_k w) c n Hp Hwf Hfd) as (p' & k' & c' & m & e & -> & Hp' & Hm & Hle & Hs).
  simpl. pose proof (cs_view _ _ _ _ _ _ _ Hs) as Hv. exists c'. split; [|split; [done|]].
  - eapply kept_conn; eauto with go; try (by rewrite ?app_nil_r); try done.
    + by eapply rb_fit_max.
    + simpl. by rewrite take_drop, app_nil_r.
  - rewrite Hv. simpl. split; [done|]. rewrite length_drop. lia.
Qed.

Lemma wp_Write r c w b : live r c w → v_unsent (ec_view c) = [] → wp (conn_Write r b : M _) (λ res w', ∃ c',
  kept r c w c' w' (take (Z.to_nat (fst res)) b) [] [] ∧ quiet w w' ∧ v_recvbuf (ec_view c') = v_recvbuf (ec_view c) ∧
  fst res ≤ len b ∧ (snd res = None → 0 ≤ fst res)) w.
Proof.
  intros Hl E. pose proof Hl as [[Hp Hb] Hc Hwf Hfd Ht Hlp Hrb]. unfold wp, conn_Write. rewrite Hc. simpl.
  pose proof (ec_Write_ok (w_k w) c b Hwf Hfd) as Hw. destruct (ec_Write (w_k w) c b) as [[k' c'] [n e]].
  destruct Hw as (Hs & Hn & He). pose proof (cs_view _ _ _ _ _ _ _ Hs) as Hv. exists c'.
  split; [|rewrite Hv; split_and!; [done..|by intros E'; cbn in E'; subst e]].
  eapply kept_conn; eauto with go; try (by rewrite ?app_nil_r). by rewrite E, app_nil_r.
Qed.

Lemma wp_EnqueueWrite r c w b size : live r c w → size ≤ len b → wp (conn_EnqueueWrite r b size : M _) (λ _ w', ∃ c',
  kept r c w c' w' (take (Z.to_nat size) b) [] [] ∧ quiet w w' ∧ v_recvbuf (ec_view c') = v_recvbuf (ec_view c)) w.
Proof.
  intros Hl Hs. pose proof Hl as [[Hp Hb] Hc Hwf Hfd Ht Hlp Hrb]. unfold wp, conn_EnqueueWrite. rewrite Hc. simpl.
  destruct (ec_EnqueueWrite_ok (w_pool w) (w_k w) c b size Hp Hwf Hs) as (p' & c' & -> & Hp' & Hm & Hst). simpl.
  exists c'. rewrite (cs_view _ _ _ _ _ _ _ Hst). split; [|done].
  eapply kept_conn; eauto with go; try (by rewrite ?app_nil_r); try done. by eapply rb_fit_max.
Qed.

Lemma wp_Read r c w n : live r c w → wp (conn_Read r n : M _) (λ res w', ∃ c',
  kept r c w c' w' [] (fst res) [] ∧ quiet w w' ∧ v_recvbuf (ec_view c') = v_recvbuf (ec_view c) ∧
  match snd (snd res) with
  | None => fst (snd res) = len (fst res) ∧ len (fst res) ≤ Z.max 0 n
  | Some e => fst res = [] ∧ fst (snd res) ≤ 0 ∧ (e = EAGAIN → fst (snd res) = 0)
  end) w.
Proof.
  intros Hl. pose proof Hl as [[Hp Hb] Hc Hwf Hfd Ht Hlp Hrb]. unfold wp, conn_Read. rewrite Hc. simpl.
  pose proof (ec_Read_ok (w_k w) c n Hwf Hfd) as Hr. destruct (ec_Read (w_k w) c n) as [[[k' c'] d] [m e]].
  destruct Hr as [Hs Hr]. exists c'. rewrite (cs_view _ _ _ _ _ _ _ Hs). split; [|done].
  eapply kept_conn; eauto with go; by rewrite ?app_nil_r.
Qed.

(** An operation on the receive buffer that keeps it well formed. *)
Lemma wp_on_recvbuf {X} r c w (f : P → RingBuffer → option (P * RingBuffer * X)) p' rb' x Q :
  live r c w → f (w_pool w) (v_recvbuf (ec_view c)) = Some (p', rb', x) →
  al_inv p' → al_max p' = al_max (w_pool w) → rb_fit p' rb' →
  (∀ c' w', kept r c w c' w' [] [] [] → quiet w w' → v_recvbuf (ec_view c') = rb' →
     v_unsent (ec_view c') = v_unsent (ec_view c) → Q x w') →
  wp (on_recvbuf r f : M X) Q w.
Proof.
  intros Hl Hf Hp' Hm Hok HQ. pose proof Hl as [[Hp Hb] Hc Hwf Hfd Ht Hlp Hrb]. unfold wp, on_recvbuf.
  rewrite Hc. simpl. destruct (ec_observe c Hwf) as (_ & _ & _ & _ & _ & E & _). rewrite E, Hf. simpl.
  pose proof (ec_with_recvbuf_ok (w_k w) c rb' Hwf) as Hs. pose proof (cs_view _ _ _ _ _ _ _ Hs) as Hv.
  apply (HQ (ec_with_recvbuf c rb')); [|done|by rewrite Hv..].
  eapply kept_conn; eauto with go; by rewrite ?app_nil_r.
Qed.

Lemma wp_galloc r c w n : live r c w → wp (galloc n : M _) (λ b w',
  kept r c w c w' [] [] [] ∧ quiet w w' ∧
  match b with
  | Some b => n ≤ len b ∧ 0 < len b ≤ al_max (w_pool w)
  | None => al_max (w_pool w) < n
  end) w.
Proof.
  intros Hl. pose proof Hl as [[Hp Hb] Hc Hwf Hfd Ht Hlp Hrb]. unfold wp, galloc.
  destruct (Z.le_gt_cases n (al_max (w_pool w))) as [Hn|Hn].
  - destruct (al_get_some (w_pool w) n Hp Hn) as (b & p' & -> & Hle & Hb' & Hp' & Hm). simpl. split; [|done].
    split; simpl; rewrite ?app_nil_r; try done.
    + split; simpl; try done. split; simpl; [done|lia].
    + split; simpl; try done; [split; simpl; [done|lia]|]. by eapply rb_fit_max.
  - rewrite al_get_nil by done. simpl. split; [|done].
    by apply (kept_k r c w (w_k w)).
Qed.

(** ** Writing *)

(** The goals of a step that ran: the connection is kept. *)
Ltac live_of H := let L := fresh "L" in pose proof (kp_live _ _ _ _ _ _ _ _ H) as L.

Lemma wp_drainWrite_loop fuel r c w plan total :
  live r c w → len (v_unsent (ec_view c)) < Z.of_nat fuel →
  wp (drainWrite_loop fuel r plan total : M _) (λ res w', ∃ c',
    kept r c w c' w' [] [] [] ∧ quiet w w' ∧ v_recvbuf (ec_view c') = v_recvbuf (ec_view c)) w.
Proof.
  revert c w total. induction fuel as [|fuel IH]; intros c w total Hl Hf; [lia|]. cbn [drainWrite_loop].
  wpb (wp_stat r c w bump_write Hl). intros _ w1 (K1 & Q1).
  wpb (wp_FlushN r c w1 plan (kp_live _ _ _ _ _ _ _ _ K1)). intros [n err] w2 (c2 & K2 & Q2 & R2 & L2). simpl in L2.
  assert (kept r c w c2 w2 [] [] []) as K12 by apply (kept_trans _ _ _ _ _ _ _ _ _ _ _ _ _ K1 K2).
  assert (quiet w w2) as Q by (by eapply quiet_trans).
  destruct err as [e|]; [apply wp_ret; by exists c2|].
  gcase; [apply wp_ret; by exists c2|].
  eapply wp_mono; [apply (IH c2 w2); [apply K12|]|].
  - destruct (Z.leb_spec n 0); [done|]. lia.
  - intros res w3 (c3 & K3 & Q3 & R3). exists c3. split; [|split; [by eapply quiet_trans|congruence]].
    apply (kept_trans _ _ _ _ _ _ _ _ _ _ _ _ _ K12 K3).
Qed.

Lemma pending_view c : ec_wf c → ec_PendingWrite c = len (v_unsent (ec_view c)).
Proof. intros H'. apply ec_observe, H'. Qed.

Lemma Fd_view c : ec_wf c → ec_Fd c = v_fd (ec_view c).
Proof. intros H'. apply ec_observe, H'. Qed.

Lemma wp_drainWrite r c w : live r c w → wp (drainWrite T r : M _) (λ res w', ∃ c',
  kept r c w c' w' [] [] [] ∧ quiet w w' ∧ v_recvbuf (ec_view c') = v_recvbuf (ec_view c)) w.
Proof.
  intros Hl. unfold drainWrite. apply wp_bind, (wp_conn r c); [apply Hl|]. gcase.
  { apply wp_ret. exists c. split; [by apply kept_refl|done]. }
  apply wp_drainWrite_loop; [done|]. rewrite pending_view by apply Hl. lia.
Qed.

Lemma wp_enqueue_copy r c w out : live r c w → wp (enqueue_copy r out : M _) (λ res w', ∃ c' o,
  kept r c w c' w' o [] [] ∧ quiet w w' ∧ v_recvbuf (ec_view c') = v_recvbuf (ec_view c) ∧ (res = None → o = out)) w.
Proof.
  intros Hl. unfold enqueue_copy. wpb (wp_galloc r c w (len out) Hl). intros [b|] w1 (K1 & Q1 & Hb).
  - eapply wp_bind, wp_mono; [apply (wp_EnqueueWrite r c w1 (blit b 0 out) (len out) (kp_live _ _ _ _ _ _ _ _ K1))|].
    { rewrite length_blit by lia. lia. }
    intros _ w2 (c2 & K2 & Q2 & R2). apply wp_ret. exists c2, out. split; [|split; [by eapply quiet_trans|done]].
    rewrite blit_front, Nat2Z.id, take_app_length in K2 by lia.
    apply (kept_trans _ _ _ _ _ _ _ _ _ _ _ _ _ K1 K2).
  - apply wp_ret. by exists c, [].
Qed.

Lemma wp_emitOutput r c w out : live r c w → wp (emitOutput r out : M _) (λ res w', ∃ c' o,
  kept r c w c' w' o [] [] ∧ quiet w w' ∧ v_recvbuf (ec_view c') = v_recvbuf (ec_view c) ∧ (res = None → o = out)) w.
Proof.
  intros Hl. unfold emitOutput. gcase.
  { apply wp_ret. exists c, []. split; [by apply kept_refl|]. split; [done|]. split; [done|].
    intros _. destruct out; [done|simpl in *; lia]. }
  apply wp_bind, (wp_conn r c); [apply Hl|]. gcase; [|by apply wp_enqueue_copy].
  rewrite pending_view in H2 by apply Hl.
  assert (v_unsent (ec_view c) = []) as E by (apply length_zero_iff_nil; lia).
  wpb (wp_Write r c w out Hl E). intros [n err] w1 (c1 & K1 & Q1 & R1 & Hn & He). simpl in *.
  destruct (Z.eqb_spec n (len out)) as [->|Hne].
  { apply wp_ret. rewrite Nat2Z.id, firstn_all in K1. by exists c1, out. }
  gcase; [apply wp_ret; exists c1, (take (Z.to_nat n) out); by destruct err|].
  apply wp_bind.
  assert (wp (if 0 <? (if n <? 0 then 0 else n) then lift (slice out (if n <? 0 then 0 else n) (len out)) else mret out : M _)
    (λ x w', x = drop (Z.to_nat n) out ∧ w' = w1) w1) as Hs.
  { destruct (Z.ltb_spec n 0); [simpl; apply wp_ret; by replace (Z.to_nat n) with 0%nat by lia|].
    destruct (Z.ltb_spec 0 n); [|apply wp_ret; by replace (Z.to_nat n) with 0%nat by lia].
    unfold lift, wp. rewrite slice_Some, sub_suffix by lia. done. }
  eapply wp_mono; [apply Hs|]. intros out' w' [-> ->].
  wpc (wp_enqueue_copy r c1 w1 _ (kp_live _ _ _ _ _ _ _ _ K1)). intros res w2 (c2 & o & K2 & Q2 & R2 & Ho).
  exists c2, (take (Z.to_nat n) out ++ o). split; [apply (kept_trans _ _ _ _ _ _ _ _ _ _ _ _ _ K1 K2)|].
  split; [by eapply quiet_trans|]. split; [congruence|]. intros Er. by rewrite (Ho Er), take_drop.
Qed.

(** A call of the poller on the descriptors of the loop. *)
Lemma wp_poll r c w (f : K → K * option errno) : live r c w →
  (∀ k fd, k_out (fst (f k)) fd = k_out k fd ∧ k_in (fst (f k)) fd = k_in k fd) →
  wp (syscall f : M _) (λ _ w', kept r c w c w' [] [] [] ∧ quiet w w') w.
Proof.
  intros Hl Hf. unfold wp, syscall. specialize (Hf (w_k w)). destruct (f (w_k w)) as [k' e]. simpl in *.
  split; [|done]. by apply kept_k.
Qed.

Lemma wp_updateWriteFd r c w : live r c w → wp (updateWriteFd r : M _) (λ _ w',
  kept r c w c w' [] [] [] ∧ l_closeOnDrain (w_l w') = l_closeOnDrain (w_l w) ∧
  (v_fd (ec_view c) ∈ l_writeFds (w_l w') ↔ v_unsent (ec_view c) ≠ [])) w.
Proof.
  intros Hl. pose proof Hl as [[Hp Hb] Hc Hwf Hfd Ht Hlp Hrb]. unfold updateWriteFd.
  apply wp_bind, (wp_conn r c); [done|]. apply wp_bind. unfold wp at 1, loop, gets. simpl.
  rewrite Fd_view, pending_view by done. zb.
  assert (v_unsent (ec_view c) ≠ [] ↔ 0 < len (v_unsent (ec_view c))) as Hne.
  { destruct (v_unsent (ec_view c)); simpl; split; try done; lia. }
  destruct (Z.ltb_spec 0 (len (v_unsent (ec_view c)))) as [Hw|Hw]; case_bool_decide as Hin; simpl.
  - split; [by apply kept_refl|]. split; [done|]. tauto.
  - wpb (wp_poll r c w _ Hl); [intros k fd; apply Poll_mod_upsert|]. intros _ w1 [K1 (Q1 & Q2 & Q3)].
    unfold wp, mod_l. simpl. split; [|split; [done|]].
    + apply (kept_trans _ _ _ _ _ _ _ _ _ _ _ _ _ K1). apply kept_l; [apply K1| |done..].
      split; try done. intros fd' Hne'. simpl. set_solver.
    + rewrite Hne. set_solver.
  - wpb (wp_poll r c w _ Hl); [intros k fd; apply Poll_mod_upsert|]. intros _ w1 [K1 (Q1 & Q2 & Q3)].
    unfold wp, mod_l. simpl. split; [|split; [done|]].
    + apply (kept_trans _ _ _ _ _ _ _ _ _ _ _ _ _ K1). apply kept_l; [apply K1| |done..].
      split; try done. intros fd' Hne'. simpl. set_solver.
    + rewrite Hne. split; [set_solver|lia].
  - split; [by apply kept_refl|]. split; [done|]. split; [done|]. intros HH. apply Hne in HH. lia.
Qed.

(** ** Closing *)

Lemma wp_mod_l (f : LoopConn → LoopConn) w Q :
  Q tt (mkW (w_pool w) (w_k w) (w_app w) (w_conns w) (w_table w) (f (w_l w)) (w_trace w)) → wp (mod_l f : M _) Q w.
Proof. done. Qed.

Lemma wp_loop w Q : Q (w_l w) w → wp (Loop.loop : M _) Q w.
Proof. done. Qed.

(** The part of [closeConn] that only concerns the loop's record. *)
Definition close_l (c : C) (l : LoopConn) : LoopConn :=
  let fd := v_fd (ec_view c) in
  let l := set_closeOnDrain (l_closeOnDrain l ∖ {[fd]}) l in
  let l := if checking l then
             set_idle (l_lastCheck l)
               match l_touchMap l !! v_id (ec_view c) with
               | Some (_, elem) => filter (λ e : nat * nat, fst e ≠ elem) (l_checkList l)
               | None => l_checkList l
               end (l_nextElem l) (delete (v_id (ec_view c)) (l_touchMap l)) l
           else l in
  let l := set_counts (AddInt32 (l_count l) (-1)) (l_dcount l) l in
  let l := if v_client (ec_view c) then set_counts (l_count l) (AddInt32 (l_dcount l) (-1)) l else l in
  let l := set_writeFds (l_writeFds l ∖ {[fd]}) l in
  set_cmdFlushSet (l_cmdFlushSet l ∖ {[fd]}) l.

Lemma close_l_rel c l : l_rel (v_fd (ec_view c)) l (close_l c l) ∧
  v_fd (ec_view c) ∉ l_writeFds (close_l c l) ∧ v_fd (ec_view c) ∉ l_closeOnDrain (close_l c l) ∧
  v_fd (ec_view c) ∉ l_cmdFlushSet (close_l c l) ∧ l_count (close_l c l) = AddInt32 (l_count l) (-1) ∧
  l_dcount (close_l c l) = if v_client (ec_view c) then AddInt32 (l_dcount l) (-1) else l_dcount l.
Proof.
  unfold close_l. split.
  - split; try (by repeat case_match).
    + intros e. destruct (checking _), (v_client _); simpl; try done;
        (destruct (l_touchMap l !! _) as [[? ?]|]; [|done]); intros He; apply list_elem_of_filter in He as [_ He]; done.
    + intros fd' Hne. destruct (checking _), (v_client _); simpl; set_solver.
  - destruct (checking _), (v_client _); simpl; split_and!; try done; set_solver.
Qed.

(** [closeConn] of an open connection, evaluated. *)
Lemma closeConn_eval r c w err : w_conns w !! r = Some c → ec_wf c → v_fd (ec_view c) ≠ 0 →
  closeConn r err w =
  let k := fst (Poll_Del (w_k w) (l_poll (l_cfg (w_l w))) (v_fd (ec_view c))) in
  let '(p, k, c') := ec_Close (w_pool w) k c in
  Some (tt, mkW p k (h_OnClosed (w_app w) c' err) (<[r := c']> (w_conns w))
              (fdTableClear (w_table w) (v_fd (ec_view c)) r) (close_l c (w_l w)) (w_trace w ++ [EvClosed r err])).
Proof.
  intros Hc Hwf Hfd. destruct (ec_observe c Hwf) as (Efd & Eid & _ & _ & Ecl & _ & _).
  unfold closeConn, close_l. simpl. unfold mbind, M_bind. unfold conn at 1. rewrite Hc. simpl. rewrite Efd. zb.
  unfold mod_l, Loop.loop, gets. simpl.
  destruct (checking _); simpl; [unfold idle_remove, mbind, M_bind, conn, mod_l; simpl; rewrite Hc; simpl|];
    rewrite ?Eid, ?Ecl; destruct (v_client (ec_view c)); simpl; unfold syscall; simpl;
    destruct (Poll_Del _ _ _) as [k e]; simpl; unfold clearConn, conn_Close, OnClosed, mbind, M_bind, conn, gets, set_table;
    simpl; rewrite Hc; simpl; rewrite Efd; rewrite ?Hc; simpl; destruct (ec_Close _ k c) as [[p' k'] c']; simpl;
    rewrite lookup_insert_eq; done.
Qed.

Lemma wp_closeConn r c w err : live r c w → wp (closeConn r err : M _) (λ _ w', gone r c w w' [] err) w.
Proof.
  intros Hl. pose proof Hl as [[Hp Hb] Hc Hwf Hfd Ht Hlp Hrb]. unfold wp. rewrite (closeConn_eval r c w err Hc Hwf Hfd). simpl.
  set (k1 := fst (Poll_Del _ _ _)).
  assert (∀ d, ec_sent k1 d = ec_sent (w_k w) d ∧ ec_got k1 d = ec_got (w_k w) d) as Hk1.
  { intros d. apply ec_streams; apply epoll_ctl_streams. }
  pose proof (ec_Close_ok (w_pool w) k1 c Hp Hwf) as Hcl. destruct (ec_Close (w_pool w) k1 c) as [[p' k'] c'].
  destruct Hcl as (Hp' & Hm & Hwf' & Hv & Hoth). destruct (close_l_rel c (w_l w)) as (Hrel & Hs1 & Hs2 & Hs3 & Hcnt & Hdc).
  remember (close_l c (w_l w)) as l' eqn:El. clear El. split; simpl; try done.
  - split; simpl; try done.
    + split; simpl; [done|]. rewrite (lr_buf _ _ _ Hrel). lia.
    + intros r' Hne. by rewrite lookup_insert_ne.
    + intros d Hne. destruct (Hk1 d), (Hoth d Hne). split; congruence.
  - exists c'. rewrite lookup_insert_eq, Hv. done.
Qed.

(** The connection was closed, or is still open in a state that satisfies [R]. *)
Definition ends r c w (R : C → list Z → list Z → list event → World → Prop) (w' : World) : Prop :=
  (∃ evs err, gone r c w w' evs err) ∨ (∃ c' o g evs, kept r c w c' w' o g evs ∧ R c' o g evs w').

Lemma ends_kept r c w c1 w1 o1 g1 evs1 R w2 : kept r c w c1 w1 o1 g1 evs1 →
  ends r c1 w1 (λ c' o g evs w', R c' (o1 ++ o) (g1 ++ g) (evs1 ++ evs) w') w2 → ends r c w R w2.
Proof.
  intros Hk [(evs & err & Hg)|(c' & o & g & evs & Hk2 & HR)].
  - left. exists (evs1 ++ evs), err. by eapply kept_gone.
  - right. exists c', (o1 ++ o), (g1 ++ g), (evs1 ++ evs). split; [by eapply kept_trans|done].
Qed.

Lemma wp_closed r c w err (R : C → list Z → list Z → list event → World → Prop) : live r c w →
  wp (closed r err : M _) (λ _ w', ends r c w R w') w.
Proof. intros Hl. wpc (wp_closeConn r c w (Some err) Hl). intros ? w' Hg. left. eauto. Qed.

(** The registration for write events says whether bytes are pending. *)
Definition registered (c : C) (w : World) : Prop :=
  v_fd (ec_view c) ∈ l_writeFds (w_l w) ↔ v_unsent (ec_view c) ≠ [].

Lemma registered_id c c' w : v_fd (ec_view c') = v_fd (ec_view c) → v_unsent (ec_view c') = v_unsent (ec_view c) →
  registered c w → registered c' w.
Proof. unfold registered. by intros -> ->. Qed.

Lemma wp_processSend r c w : live r c w → wp (processSend T r : M _) (λ _ w',
  ends r c w (λ c' o g evs w', o = [] ∧ g = [] ∧ evs = [] ∧ registered c' w' ∧
    v_recvbuf (ec_view c') = v_recvbuf (ec_view c) ∧ l_closeOnDrain (w_l w') = l_closeOnDrain (w_l w)) w') w.
Proof.
  intros Hl. unfold processSend. wpb (wp_drainWrite r c w Hl). intros [n err] w1 (c1 & K1 & (Q1 & Q2 & Q3) & R1).
  pose proof (kp_live _ _ _ _ _ _ _ _ K1) as L1. gcase.
  { wpc (wp_closed r c1 w1 _ (λ _ _ _ _ _, False) L1). intros ? w2 He. eapply ends_kept; [done|].
    destruct He as [?|(? & ? & ? & ? & ? & [])]. by left. }
  apply wp_bind, (wp_conn r c1); [apply L1|]. apply wp_bind, wp_loop. gcase.
  { wpc (wp_closed r c1 w1 _ (λ _ _ _ _ _, False) L1). intros ? w2 He. eapply ends_kept; [done|].
    destruct He as [?|(? & ? & ? & ? & ? & [])]. by left. }
  wpc (wp_updateWriteFd r c1 w1 L1). intros _ w2 (K2 & D2 & W2). eapply ends_kept; [done|]. right.
  eexists _, _, _, _. split; [done|]. simpl. split_and!; try done. congruence.
Qed.

(** ** Reading *)

(** The slice [processRead] calls [recvbuf]. *)
Definition chosen (private : bool) (c : C) (w : World) : list Z :=
  if private then rb_buf (v_recvbuf (ec_view c)) else l_recvbuf (w_l w).

Lemma wp_AlignBytes r c w : live r c w → 0 < rb_size (v_recvbuf (ec_view c)) →
  wp (rb_AlignBytes r : M _) (λ out w', ∃ c', kept r c w c' w' [] [] [] ∧ quiet w w' ∧
    out = rb_buf (v_recvbuf (ec_view c')) ∧ rb_r (v_recvbuf (ec_view c')) mod rb_size (v_recvbuf (ec_view c')) = 0 ∧
    rb_size (v_recvbuf (ec_view c')) = rb_size (v_recvbuf (ec_view c)) ∧
    contents (v_recvbuf (ec_view c')) = contents (v_recvbuf (ec_view c)) ∧
    take (length (contents (v_recvbuf (ec_view c)))) out = contents (v_recvbuf (ec_view c))) w.
Proof.
  intros Hl Hs. pose proof Hl as [[Hp Hb] Hc Hwf Hfd Ht Hlp [Hrb Hfit]].
  destruct (AlignBytes_spec _ _ Hp Hrb Hs) as (p' & rb' & out & E & Hp' & Hm & Hok & Hcont & Hsz & Ho & Hr & Htk).
  eapply (wp_on_recvbuf r c w); [done|done|done|done| |].
  { split; [done|]. rewrite Hm. by eapply AlignBytes_fit. }
  intros c' w' K' Q' R' _. exists c'. rewrite R'. done.
Qed.

Definition sets_same (w w' : World) : Prop :=
  l_writeFds (w_l w') = l_writeFds (w_l w) ∧ l_closeOnDrain (w_l w') = l_closeOnDrain (w_l w).

Lemma sets_same_trans w1 w2 w3 : sets_same w1 w2 → sets_same w2 w3 → sets_same w1 w3.
Proof. unfold sets_same. intuition congruence. Qed.

Lemma quiet_sets w w' : quiet w w' → sets_same w w'.
Proof. unfold quiet, sets_same. tauto. Qed.

(** What [select_recvbuf] establishes: the first bytes of the chosen buffer are
    the partial packet, and there is room behind them. *)
Definition selected r c w (left : Z) (private : bool) w' : Prop :=
  ∃ c', kept r c w c' w' [] [] [] ∧ sets_same w w' ∧
    left < len (chosen private c' w') ≤ al_max (w_pool w') ∧
    take (Z.to_nat left) (chosen private c' w') = contents (v_recvbuf (ec_view c)) ∧
    (left = 0 → contents (v_recvbuf (ec_view c')) = []).

Lemma Has_contents rb : rb_wf rb → RingBuffer_Has rb = len (contents rb).
Proof. intros H'. unfold RingBuffer_Has. by rewrite length_contents. Qed.

Lemma Recvbuf_view c : ec_wf c → ec_Recvbuf c = v_recvbuf (ec_view c).
Proof. intros H'. apply ec_observe, H'. Qed.

(** The receive buffer replaced by a buffer of the allocator that starts with the
    bytes of the old one. *)
Lemma wp_double r c w (b : list Z) : live r c w → 0 < rb_size (v_recvbuf (ec_view c)) →
  rb_size (v_recvbuf (ec_view c)) * 2 ≤ len b → len b ≤ al_max (w_pool w) →
  let left := len (contents (v_recvbuf (ec_view c))) in
  left = rb_size (v_recvbuf (ec_view c)) →
  wp (bytes ← rb_AlignBytes r; rb_Update r (blit b 0 bytes);; rb_Forward r (len bytes) OpWrite;;
      rb_AlignBytes r;; mret (Some true) : M (option bool))
    (λ res w', match res with Some private => selected r c w left private w' | None => False end) w.
Proof.
  intros Hl Hs Hb Hbm left Hfull. wpb (wp_AlignBytes r c w Hl Hs).
  intros bytes w1 (c1 & K1 & Q1 & -> & Hr1 & Hsz1 & Hc1 & Ht1).
  pose proof (kp_live _ _ _ _ _ _ _ _ K1) as L1. pose proof L1 as [[Hp1 _] _ _ _ _ _ [[Hrb1 _] Hfit1]].
  pose proof (length_contents _ Hrb1) as Hl1. pose proof Hrb1 as [Hsz Hpos Hfitw].
  set (bytes := rb_buf (v_recvbuf (ec_view c1))) in *.
  assert (length (blit b 0 bytes) = length b) as Hlb by (apply length_blit; lia).
  destruct (al_put_inv (w_pool w1) bytes Hp1) as [Hp2 Hm2].
  pose proof (fr_max _ _ _ _ (kp_frame _ _ _ _ _ _ _ _ K1)) as Hm1.
  apply wp_bind. eapply (wp_on_recvbuf r c1 w1); [done|done|done|done| |].
  { split; [split; [split|]|]; cbn [rb_buf rb_size rb_r rb_w]; fold bytes; rewrite ?Hlb, ?Hm2; lia. }
  intros c2 w2 K2 Q2 R2 _. pose proof (kp_live _ _ _ _ _ _ _ _ K2) as L2. pose proof L2 as [[Hp2' _] _ _ _ _ _ Hrb2].
  pose proof (fr_max _ _ _ _ (kp_frame _ _ _ _ _ _ _ _ K2)) as Hm2'.
  assert (∃ rb3 rc, RingBuffer_Forward (v_recvbuf (ec_view c2)) (len bytes) OpWrite = (rb3, rc) ∧
    rb_fit (w_pool w2) rb3 ∧ rb_buf rb3 = blit b 0 bytes ∧ rb_r rb3 = 0 ∧ rb_size rb3 = len b) as (rb3 & rc & EF & Hrb3 & Hbuf3 & Hr3 & Hsz3).
  { rewrite R2 in *. unfold RingBuffer_Forward. simpl. rewrite Hlb. destruct Hrb2 as [[[A1 A2 A3] A4] A5]. simpl in *.
    gcase; (eexists _, _; split; [done|]); simpl; (split; [|done]); (split; [split; [split|]|]); simpl in *; lia. }
  apply wp_bind. eapply (wp_on_recvbuf r c2 w2); [done|by rewrite EF|done|done|done|].
  intros c3 w3 K3 Q3 R3 _. pose proof (kp_live _ _ _ _ _ _ _ _ K3) as L3.
  assert (0 < rb_size (v_recvbuf (ec_view c3))) as Hs3 by (rewrite R3; lia).
  apply wp_bind. eapply (wp_on_recvbuf r c3 w3); [done|apply AlignBytes_aligned; [done|by rewrite R3]| |done|apply L3|].
  { apply L3. }
  intros c4 w4 K4 Q4 R4 _. apply wp_ret. exists c4.
  pose proof (fr_max _ _ _ _ (kp_frame _ _ _ _ _ _ _ _ K3)) as Hm3.
  pose proof (fr_max _ _ _ _ (kp_frame _ _ _ _ _ _ _ _ K4)) as Hm4.
  split; [|split; [|split; [|split]]].
  - exact (kept_trans _ _ _ _ _ _ _ _ _ _ _ _ _ K1 (kept_trans _ _ _ _ _ _ _ _ _ _ _ _ _ K2 (kept_trans _ _ _ _ _ _ _ _ _ _ _ _ _ K3 K4))).
  - by apply quiet_sets, (quiet_trans _ w1), (quiet_trans _ w2), (quiet_trans _ w3).
  - simpl. rewrite R4, R3, Hbuf3, Hlb. lia.
  - simpl. rewrite R4, R3, Hbuf3. unfold left. rewrite Nat2Z.id. unfold blit. simpl.
    rewrite take_app_le by (rewrite length_take; lia). rewrite take_take, Nat.min_l by lia. exact Ht1.
  - lia.
Qed.

Lemma wp_select_recvbuf r c w : live r c w →
  let left := len (contents (v_recvbuf (ec_view c))) in
  wp (select_recvbuf r left : M _) (λ res w',
    match res with Some private => selected r c w left private w' | None => ∃ err, gone r c w w' [] err end) w.
Proof.
  intros Hl left. pose proof Hl as [[Hp Hb] Hc Hwf Hfd Ht Hlp [[Hrb Hcap] Hfit]]. unfold select_recvbuf.
  pose proof (length_contents _ Hrb) as Hlen. pose proof Hrb as [Hsz Hpos Hfw]. gcase.
  2: { assert (left = 0) as E by lia. apply wp_ret. exists c. rewrite E. split; [by apply kept_refl|].
       split; [done|]. split; [simpl; lia|]. split; [|intros _]; [simpl|]; symmetry; [|symmetry];
       apply length_zero_iff_nil; lia. }
  apply wp_bind, (wp_conn r c); [done|]. apply wp_bind, wp_loop. rewrite (Recvbuf_view c Hwf).
  unfold RingBuffer_Capacity, RingBuffer_Free. assert (0 < rb_size (v_recvbuf (ec_view c))) as Hs by lia.
  destruct (Z.ltb_spec (rb_size (v_recvbuf (ec_view c)) - left) (len (l_recvbuf (w_l w)) - left)) as [Hsh|Hsh].
  - wpb (wp_AlignBytes r c w Hl Hs). intros out w1 (c1 & K1 & (Q1 & Q2 & Q3) & -> & _ & Hsz1 & Hc1 & Ht1).
    pose proof (kp_live _ _ _ _ _ _ _ _ K1) as L1. pose proof L1 as [[Hp1 Hb1] _ _ _ _ _ [[Hrb1 _] Hfit1]].
    pose proof Hrb1 as [Hsz' _ _].
    apply wp_bind. unfold lift, wp at 1. rewrite slice_Some by lia. rewrite sub_prefix. unfold left. rewrite Nat2Z.id, Ht1.
    fold left. apply wp_bind, wp_mod_l, wp_ret. exists c1.
    assert (length (blit (l_recvbuf (w_l w1)) 0 (contents (v_recvbuf (ec_view c)))) = length (l_recvbuf (w_l w1))) as Hbl
      by (apply length_blit; lia).
    rewrite Q3 in *. split; [|split; [done|split; [|split]]].
    + apply (kept_trans _ _ _ _ _ _ _ _ _ _ _ _ _ K1). apply kept_l; [done| |done..].
      apply l_rel_recvbuf. congruence.
    + simpl. rewrite Hbl. lia.
    + simpl. rewrite blit_front by lia. apply take_app_length'. lia.
    + intros ?. lia.
  - gcase.
    + wpb (wp_galloc r c w (rb_size (v_recvbuf (ec_view c)) * 2) Hl). intros [b|] w1 (K1 & Q1 & Hbb).
      * pose proof (kp_live _ _ _ _ _ _ _ _ K1) as L1.
        pose proof (fr_max _ _ _ _ (kp_frame _ _ _ _ _ _ _ _ K1)) as Hm1.
        wpc (wp_double r c w1 b L1); [lia|lia|lia|lia|].
        intros [private|] w2 Hsel; [|done]. destruct Hsel as (c2 & K2 & S2 & Hrest). exists c2.
        split; [apply (kept_trans _ _ _ _ _ _ _ _ _ _ _ _ _ K1 K2)|]. split; [|done].
        by apply (sets_same_trans _ w1), S2; apply quiet_sets.
      * wpb (wp_closeConn r c w1 (Some CLOSE_PKT_SIZE_LIMIT) (kp_live _ _ _ _ _ _ _ _ K1)). intros ? w2 G2.
        apply wp_ret. exists (Some CLOSE_PKT_SIZE_LIMIT). apply (kept_gone _ _ _ _ _ _ _ _ _ _ _ K1 G2).
    + wpb (wp_AlignBytes r c w Hl Hs). intros out w1 (c1 & K1 & Q & -> & _ & Hsz1 & Hc1 & Ht1). apply wp_ret.
      pose proof (kp_live _ _ _ _ _ _ _ _ K1) as L1. pose proof L1 as [[Hp1 Hb1] _ _ _ _ _ [[Hrb1 _] Hfit1]].
      pose proof Hrb1 as [Hsz' _ _].
      exists c1. split; [done|]. split; [by apply quiet_sets|]. simpl. split; [lia|]. split; [|lia].
      unfold left. by rewrite Nat2Z.id.
Qed.

Lemma wp_buf_content r c w private Q : live r c w → Q (chosen private c w) w → wp (buf_content r private : M _) Q w.
Proof.
  intros Hl HQ. unfold buf_content. apply wp_bind, (wp_conn r c); [apply Hl|]. apply wp_bind, wp_loop, wp_ret.
  by rewrite (Recvbuf_view c (lv_wf _ _ _ Hl)).
Qed.

Lemma fill_window_fit (p : P) rb off d : rb_fit p rb → 0 ≤ off ≤ len (rb_buf rb) → rb_fit p (fill_window rb off d).
Proof.
  intros [[[Hs Hp Hf] Hc] Hb] Ho. assert (length (blit (rb_buf rb) off d) = length (rb_buf rb)) as E by (apply length_blit; lia).
  split; [split; [split|]|]; simpl; rewrite ?E; done.
Qed.

Lemma take_blit (l d : list Z) i : 0 ≤ i → i + len d ≤ len l →
  take (Z.to_nat (i + len d)) (blit l i d) = take (Z.to_nat i) l ++ d.
Proof.
  intros Hi Hd. unfold blit. rewrite app_assoc, take_app_le by llia.
  rewrite (take_ge d) by llia. apply take_ge. llia.
Qed.

Lemma wp_read_into r c w private left : live r c w → 0 ≤ left < len (chosen private c w) →
  wp (read_into r private left : M _) (λ res w', ∃ c' d, kept r c w c' w' [] d [] ∧ sets_same w w' ∧
    length (chosen private c' w') = length (chosen private c w) ∧
    take (Z.to_nat (left + len d)) (chosen private c' w') = take (Z.to_nat left) (chosen private c w) ++ d ∧
    left + len d ≤ len (chosen private c w) ∧
    (contents (v_recvbuf (ec_view c)) = [] → contents (v_recvbuf (ec_view c')) = []) ∧
    match snd (fst res) with
    | None => fst (fst res) = len d
    | Some e => d = [] ∧ (e = EAGAIN → fst (fst res) = 0)
    end) w.
Proof.
  intros Hl Hleft. unfold read_into. apply wp_bind, (wp_buf_content r c); [done|].
  apply wp_bind. unfold lift, wp at 1. rewrite slice_Some by lia.
  assert (len (sub (chosen private c w) left (len (chosen private c w))) = len (chosen private c w) - left) as Hroom
    by (apply length_sub; lia).
  wpb (wp_Read r c w _ Hl). intros [d [n err]] w1 (c1 & K1 & (Q1 & Q2 & Q3) & R1 & Hres). cbn [fst snd] in *.
  rewrite Hroom in *.
  assert (left + len d ≤ len (chosen private c w)) as Hd.
  { destruct err; [destruct Hres as [-> _]; simpl; lia|lia]. }
  pose proof (kp_live _ _ _ _ _ _ _ _ K1) as L1.
  assert (chosen private c1 w1 = chosen private c w) as Hch.
  { unfold chosen. destruct private; [by rewrite R1|done]. }
  apply wp_bind. apply (wp_mono _ (λ _ w2, ∃ c2, kept r c1 w1 c2 w2 [] [] [] ∧ sets_same w1 w2 ∧
     chosen private c2 w2 = blit (chosen private c w) left d ∧
     (contents (v_recvbuf (ec_view c)) = [] → contents (v_recvbuf (ec_view c2)) = []))).
  { destruct private.
    - eapply (wp_on_recvbuf r c1 w1); [done|done|apply L1|done| |].
      { apply fill_window_fit; [apply L1|]. simpl in Hch. rewrite Hch. simpl in Hleft. lia. }
      intros c2 w2 K2 Q R2 _. exists c2. split; [done|]. split; [by apply quiet_sets|]. simpl. rewrite R2, R1. simpl.
      split; [done|]. intros E. apply contents_nil. simpl.
      pose proof (length_contents _ (proj1 (proj1 (lv_rb _ _ _ Hl)))) as HL. rewrite E in HL. simpl in HL. lia.
    - apply wp_mod_l. exists c1. split.
      + apply kept_l; [done| |done..]. apply l_rel_recvbuf. apply length_blit. simpl in *. rewrite Q3. lia.
      + split; [done|]. simpl. rewrite Q3, R1. done. }
  intros _ w2 (c2 & K2 & S2 & Hc2 & He2). wpb (wp_stat r c2 w2 bump_read (kp_live _ _ _ _ _ _ _ _ K2)).
  intros _ w3 (K3 & W3 & D3 & B3). apply wp_ret. exists c2, d. cbn [fst snd].
  assert (chosen private c2 w3 = chosen private c2 w2) as Hc3 by (unfold chosen; by rewrite B3).
  rewrite Hc3, Hc2.
  assert (kept r c w c2 w3 [] d []) as K13.
  { pose proof (kept_trans _ _ _ _ _ _ _ _ _ _ _ _ _ K1 (kept_trans _ _ _ _ _ _ _ _ _ _ _ _ _ K2 K3)) as K13.
    simpl in K13. by rewrite app_nil_r in K13. }
  split; [done|]. split; [apply (sets_same_trans _ w1); [done|]; apply (sets_same_trans _ w2); done|].
  split; [apply length_blit; lia|]. split; [apply take_blit; lia|]. split; [done|]. split; [done|].
  destruct err; [split; apply Hres|apply Hres].
Qed.

Lemma wp_touch r c w : live r c w → wp (touch r : M _) (λ _ w', ∃ c',
  kept r c w c' w' [] [] [] ∧ quiet w w' ∧ v_recvbuf (ec_view c') = v_recvbuf (ec_view c)) w.
Proof.
  intros Hl. pose proof Hl as [[Hp Hb] Hc Hwf Hfd Ht Hlp Hrb]. unfold touch.
  apply wp_bind, (wp_conn r c); [done|]. apply wp_bind, wp_loop.
  pose proof (ec_SetLastRecv_ok (w_k w) c (l_nowSec (w_l w)) Hwf) as Hs.
  assert (∀ l, l_rel (v_fd (ec_view c)) (w_l w) l → l_count l = l_count (w_l w) ∧ l_dcount l = l_dcount (w_l w) →
    l_writeFds l = l_writeFds (w_l w) → l_closeOnDrain l = l_closeOnDrain (w_l w) →
    l_recvbuf l = l_recvbuf (w_l w) →
    wp (set_conn r (ec_SetLastRecv c (l_nowSec (w_l w))) : M _) (λ _ w', ∃ c', kept r c w c' w' [] [] [] ∧ quiet w w' ∧
      v_recvbuf (ec_view c') = v_recvbuf (ec_view c))
      (mkW (w_pool w) (w_k w) (w_app w) (w_conns w) (w_table w) l (w_trace w))) as Hset.
  { intros l Hrel Hcn Hw Hd Hr. unfold wp, set_conn. simpl. eexists. split.
    - eapply kept_conn; eauto with go; by rewrite ?app_nil_r.
    - split; [done|]. by rewrite (cs_view _ _ _ _ _ _ _ Hs). }
  apply wp_bind. gcase; [|apply wp_ret; destruct w; by apply Hset; eauto with go].
  destruct (l_touchMap (w_l w) !! ec_ID c) as [[t elem]|]; [|apply wp_ret; destruct w; by apply Hset; eauto with go].
  apply wp_mod_l, Hset; try done. apply l_rel_idle.
  intros e He. apply elem_of_app in He as [He|He]; by apply list_elem_of_filter in He as [_ ?].
Qed.

Lemma wp_rb_Write r c w (p : list Z) : live r c w → contents (v_recvbuf (ec_view c)) = [] → 0 < len p ≤ al_max (w_pool w) →
  wp (rb_Write r p (len p) true : M _) (λ _ w', ∃ c', kept r c w c' w' [] [] [] ∧ quiet w w' ∧
    contents (v_recvbuf (ec_view c')) = p) w.
Proof.
  intros Hl E Hp. pose proof Hl as [[Hpl Hb] Hc Hwf Hfd Ht Hlp [Hrb Hfit]].
  destruct (Write_spec _ _ p true Hpl Hrb ltac:(lia)) as (p' & rb' & rc & Ew & Hp' & Hm & Hok & Hcase).
  eapply (wp_on_recvbuf r c w); [done|done|done|done| |].
  { split; [done|]. rewrite Hm. by eapply Write_fit. }
  intros c' w' K' Q' R' _. exists c'. split; [done|]. split; [done|]. rewrite R'.
  destruct Hcase as [(_ & _ & ->)|(Hno & _)]; [by rewrite E|]. destruct Hno. unfold rb_room. rewrite E. simpl. lia.
Qed.

Lemma wp_keep_partial r c w inp expect : live r c w → len inp ≤ al_max (w_pool w) →
  wp (keep_partial r inp expect : M _) (λ res w',
    if res : bool then ∃ c', kept r c w c' w' [] [] [] ∧ sets_same w w' ∧
      contents (v_recvbuf (ec_view c')) = if decide (inp = []) then contents (v_recvbuf (ec_view c)) else inp
    else ∃ err, gone r c w w' [] err) w.
Proof.
  intros Hl Hlen. pose proof Hl as [[Hpl Hb] Hc Hwf Hfd Ht Hlp [[Hrb Hcap] Hfit]]. unfold keep_partial. gcase.
  2: { apply wp_ret. exists c. split; [by apply kept_refl|]. split; [done|].
       rewrite decide_True; [done|]. apply length_zero_iff_nil. lia. }
  rewrite decide_False by (by intros ->).
  apply wp_bind, (wp_conn r c); [done|]. gcase.
  - wpb (wp_galloc r c w expect Hl). intros [b|] w1 (K1 & Q1 & Hbb).
    + pose proof (kp_live _ _ _ _ _ _ _ _ K1) as L1. pose proof L1 as [[Hp1 _] _ _ _ _ _ _].
      pose proof (fr_max _ _ _ _ (kp_frame _ _ _ _ _ _ _ _ K1)) as Hm1.
      destruct (al_put_inv (w_pool w1) (rb_buf (v_recvbuf (ec_view c))) Hp1) as [Hp2 Hm2].
      apply wp_bind. eapply (wp_on_recvbuf r c w1); [done|done|done|done| |].
      { split; [split; [split|]|]; simpl; lia. }
      intros c2 w2 K2 Q2 R2 _. pose proof (kp_live _ _ _ _ _ _ _ _ K2) as L2.
      pose proof (fr_max _ _ _ _ (kp_frame _ _ _ _ _ _ _ _ K2)) as Hm3.
      eapply wp_bind, wp_mono; [apply (wp_rb_Write r c2 w2 inp L2)|].
      { rewrite R2. by apply contents_nil. }
      { lia. }
      intros _ w3 (c3 & K3 & Q3 & E3). apply wp_ret. exists c3. split; [|split; [|done]].
      * exact (kept_trans _ _ _ _ _ _ _ _ _ _ _ _ _ K1 (kept_trans _ _ _ _ _ _ _ _ _ _ _ _ _ K2 K3)).
      * by apply quiet_sets, (quiet_trans _ w1), (quiet_trans _ w2).
    + wpb (wp_closeConn r c w1 (Some CLOSE_PKT_SIZE_LIMIT) (kp_live _ _ _ _ _ _ _ _ K1)). intros ? w2 G2.
      apply wp_ret. exists (Some CLOSE_PKT_SIZE_LIMIT). apply (kept_gone _ _ _ _ _ _ _ _ _ _ _ K1 G2).
  - apply wp_bind. eapply (wp_on_recvbuf r c w); [done|done|done|done| |].
    { split; [split; [by apply rb_wf_truncate|done]|done]. }
    intros c2 w2 K2 Q2 R2 _. pose proof (kp_live _ _ _ _ _ _ _ _ K2) as L2.
    pose proof (fr_max _ _ _ _ (kp_frame _ _ _ _ _ _ _ _ K2)) as Hm3.
    eapply wp_bind, wp_mono; [apply (wp_rb_Write r c2 w2 inp L2)|].
    { rewrite R2. by apply contents_nil. }
    { lia. }
    intros _ w3 (c3 & K3 & Q3 & E3). apply wp_ret. exists c3. split; [|split; [|done]].
    + exact (kept_trans _ _ _ _ _ _ _ _ _ _ _ _ _ K2 K3).
    + by apply quiet_sets, (quiet_trans _ w2).
Qed.

(** The application's callbacks change its state and the trace only. *)
Lemma kept_app r c w app evs : live r c w → Forall (is_data r) evs →
  kept r c w c (mkW (w_pool w) (w_k w) app (w_conns w) (w_table w) (w_l w) (w_trace w ++ evs)) [] [] evs.
Proof.
  intros Hl Hev. pose proof Hl as [[Hp Hb] Hc' Hwf Hfd Ht Hlp Hrb].
  split; simpl; rewrite ?app_nil_r; done.
Qed.

Lemma wp_ParsePacket r c w inp : live r c w → wp (ParsePacket r inp : M _) (λ res w', kept r c w c w' [] [] [] ∧ quiet w w' ∧
  h_ParsePacket (w_app w) c inp = (w_app w', res)) w.
Proof.
  intros Hl. unfold ParsePacket. apply wp_bind, (wp_conn r c); [apply Hl|].
  unfold wp, mbind, M_bind, gets. simpl. destruct (h_ParsePacket (w_app w) c inp) as [s res]. simpl. split; [|by split].
  pose proof (kept_app r c w s [] Hl) as Hk. rewrite app_nil_r in Hk. by apply Hk.
Qed.

Lemma wp_OnData r c w data : live r c w → wp (OnData r data : M _) (λ res w',
  kept r c w c w' [] [] [EvData r data (fst res) (snd res)] ∧ quiet w w' ∧ h_OnData (w_app w) c data = (w_app w', res)) w.
Proof.
  intros Hl. unfold OnData. apply wp_bind, (wp_conn r c); [apply Hl|].
  unfold wp, mbind, M_bind, gets. simpl. destruct (h_OnData (w_app w) c data) as [s [out close]]. simpl. split; [|by split].
  apply kept_app; [done|]. by repeat constructor.
Qed.

Lemma wp_rb_Reset r c w : live r c w → wp (rb_Reset r : M _) (λ _ w', ∃ c', kept r c w c' w' [] [] [] ∧ quiet w w' ∧
    contents (v_recvbuf (ec_view c')) = []) w.
Proof.
  intros Hl. pose proof Hl as [[Hp Hb] _ _ _ _ _ _].
  destruct (al_put_inv (w_pool w) (rb_buf (v_recvbuf (ec_view c))) Hp) as [Hp2 Hm2].
  eapply (wp_on_recvbuf r c w); [done|done|done|done| |].
  { split; [split; [split|]|]; simpl; lia. }
  intros c2 w2 K2 Q2 R2 _. exists c2. split; [done|]. split; [done|]. by rewrite R2.
Qed.

(** The packets that the handler cuts off the input, one call of [ParsePacket] and of [OnData]
    each, and what is left. *)
Inductive cut : list Z → list event → list Z → Prop :=
| cut_end inp : cut inp [] inp
| cut_packet s c s1 s2 r inp n e out wc evs rest :
    h_ParsePacket s c inp = (s1, (n, e)) → 0 < n ≤ len inp → h_OnData s1 c (take (Z.to_nat n) inp) = (s2, (out, wc)) →
    cut (drop (Z.to_nat n) inp) evs rest → cut inp (EvData r (take (Z.to_nat n) inp) out wc :: evs) rest.

(** The handler asks for more; and [OnData] does not ask to close. *)
Definition stuck (rest : list Z) : Prop := rest = [] ∨ ∃ s c s1 e, h_ParsePacket (S := S) (C := C) s c rest = (s1, (0, e)).
Definition open_ev (e : event) : Prop := match e with EvData _ _ _ wc => wc = false | _ => True end.

(** The handler asks, on some packet, to close. *)
Definition asks_close : Prop := ∃ s c d s' out, h_OnData (S := S) (C := C) s c d = (s', (out, true)).

Lemma cut_concat inp evs rest : cut inp evs rest → inp = (evs ≫= ev_in) ++ rest.
Proof.
  induction 1 as [|s c s1 s2 r inp n e out wc evs rest _ _ _ _ IH]; [done|]. cbn [mbind list_bind ev_in].
  rewrite <-app_assoc, <-IH. by rewrite take_drop.
Qed.

(** A connection with [b] in its buffer receives [g], in one or more parts. *)
Inductive fed : list Z → list Z → list event → list Z → Prop :=
| fed_last b g evs rest : cut (b ++ g) evs rest → stuck rest → Forall open_ev evs → fed b g evs rest
| fed_more b g evs b1 g1 evs1 rest : cut (b ++ g) evs b1 → stuck b1 → Forall open_ev evs → fed b1 g1 evs1 rest →
    fed b (g ++ g1) (evs ++ evs1) rest.

Lemma fed_concat b g evs rest : fed b g evs rest → (evs ≫= ev_in) ++ rest = b ++ g.
Proof.
  induction 1 as [b g evs rest Hc _ _|b g evs b1 g1 evs1 rest Hc _ _ _ IH]; [by rewrite <-(cut_concat _ _ _ Hc)|].
  rewrite bind_app, <-app_assoc, IH, (app_assoc b), (cut_concat _ _ _ Hc), <-app_assoc. done.
Qed.

(** What the parse loop establishes on the input [inp]. *)
Definition parsed r c w (inp : list Z) (res : option bool) w' : Prop :=
  match res with
  | None => ∃ evs err, gone r c w w' evs err
  | Some wantClose => ∃ c' evs rest, kept r c w c' w' (evs ≫= ev_out) [] evs ∧ sets_same w w' ∧
      cut inp evs rest ∧ (wantClose = true → asks_close) ∧ (wantClose = false → contents (v_recvbuf (ec_view c')) = rest ∧ stuck rest ∧ Forall open_ev evs)
  end.

Lemma parsed_quiet r c w w1 inp res w2 : kept r c w c w1 [] [] [] → sets_same w w1 → parsed r c w1 inp res w2 → parsed r c w inp res w2.
Proof.
  intros K1 S1 HP. destruct res as [wc|].
  - destruct HP as (c' & evs & rest & K2 & S2 & Hc & Ha & Hw). exists c', evs, rest.
    split; [apply (kept_trans _ _ _ _ _ _ _ _ _ _ _ _ _ K1 K2)|]. split; [by eapply sets_same_trans|done].
  - destruct HP as (evs & err & G). exists evs, err. apply (kept_gone _ _ _ _ _ _ _ _ _ _ _ K1 G).
Qed.

(** One packet, and the rest of the loop. *)
Lemma parsed_packet r c w c1 w1 inp n e s s1 s2 out (wc : bool) res w2 :
  kept r c w c1 w1 out [] [EvData r (take (Z.to_nat n) inp) out wc] → sets_same w w1 →
  h_ParsePacket s c inp = (s1, (n, e)) → 0 < n ≤ len inp → h_OnData s1 c (take (Z.to_nat n) inp) = (s2, (out, wc)) →
  (wc = true → res ≠ Some false) → parsed r c1 w1 (drop (Z.to_nat n) inp) res w2 → parsed r c w inp res w2.
Proof.
  intros K1 S1 Hp Hn Hd Hwc HP. destruct res as [b|].
  - destruct HP as (c' & evs & rest & K2 & S2 & Hc & Ha & Hw). exists c', (EvData r (take (Z.to_nat n) inp) out wc :: evs), rest.
    split; [apply (kept_trans _ _ _ _ _ _ _ _ _ _ _ _ _ K1 K2)|]. split; [by eapply sets_same_trans|].
    split; [by eapply cut_packet|]. split; [done|]. intros ->. destruct (Hw eq_refl) as (E & Hst & Hop). split; [done|]. split; [done|].
    constructor; [|done]. destruct wc; [by specialize (Hwc eq_refl)|done].
  - destruct HP as (evs & err & G). eexists _, err. apply (kept_gone _ _ _ _ _ _ _ _ _ _ _ K1 G).
Qed.

Lemma wp_parse_close r c w inp e : live r c w →
  wp (closed r e;; mret None : M _) (λ res w', parsed r c w inp res w') w.
Proof. intros Hl. wpb (wp_closeConn r c w (Some e) Hl). intros ? w' G. apply wp_ret. by exists [], (Some e). Qed.

Lemma wp_parse_loop fuel r c w inp : live r c w → (length inp < fuel)%nat → len inp ≤ al_max (w_pool w) →
  (inp = [] → contents (v_recvbuf (ec_view c)) = []) →
  wp (parse_loop fuel r inp : M _) (λ res w', parsed r c w inp res w') w.
Proof.
  revert c w inp. induction fuel as [|fuel IH]; intros c w inp Hl Hf Hm He; [lia|]. cbn [parse_loop].
  wpb (wp_ParsePacket r c w inp Hl). intros [n expect] w1 (K1 & Q1 & Hparse).
  pose proof (kp_live _ _ _ _ _ _ _ _ K1) as L1.
  pose proof (fr_max _ _ _ _ (kp_frame _ _ _ _ _ _ _ _ K1)) as Hm1.
  apply (wp_mono _ (λ res w', parsed r c w1 inp res w')).
  2: { intros res w' HP. eapply parsed_quiet; [done|by apply quiet_sets|done]. }
  apply wp_bind, wp_loop. destruct (Z.ltb_spec n 0); [by apply wp_parse_close|].
  gcase; [by apply wp_parse_close|]. destruct (Z.ltb_spec 0 n) as [Hn|Hn].
  - destruct (Z.ltb_spec (len inp) n) as [Hb|Hb]; [by apply wp_parse_close|].
    apply wp_bind. unfold lift, wp at 1. rewrite slice_Some, sub_prefix by lia.
    wpb (wp_OnData r c w1 (take (Z.to_nat n) inp) L1). intros [out wc] w2 (K2 & Q2 & Hdata). cbn [fst snd] in *.
    pose proof (kp_live _ _ _ _ _ _ _ _ K2) as L2.
    wpb (wp_emitOutput r c w2 out L2). intros err w3 (c3 & o & K3 & Q3 & R3 & Ho).
    pose proof (kp_live _ _ _ _ _ _ _ _ K3) as L3.
    pose proof (fr_max _ _ _ _ (kp_frame _ _ _ _ _ _ _ _ K2)) as Hm2.
    pose proof (fr_max _ _ _ _ (kp_frame _ _ _ _ _ _ _ _ K3)) as Hm3.
    pose proof (kept_trans _ _ _ _ _ _ _ _ _ _ _ _ _ K2 K3) as K23. simpl in K23.
    destruct err as [e|].
    + wpb (wp_closeConn r c3 w3 _ L3). intros ? w4 G4. apply wp_ret. eexists _, _. by eapply kept_gone.
    + rewrite (Ho eq_refl) in K23. apply wp_bind. unfold lift, wp at 1. rewrite slice_Some, sub_suffix by lia.
      apply (wp_mono _ (λ res w', (wc = true → res ≠ Some false) ∧ parsed r c3 w3 (drop (Z.to_nat n) inp) res w')).
      2: { intros res w' [Hwc HP]. eapply (parsed_packet r c w1 c3 w3); [exact K23|by apply quiet_sets, (quiet_trans _ w2)|done|lia|done|done|done]. }
      destruct (Z.eqb_spec (len (drop (Z.to_nat n) inp)) 0) as [Hz|Hz].
      * rewrite orb_true_r. wpb (wp_rb_Reset r c3 w3 L3). intros _ w4 (c4 & K4 & Q4 & E4). apply wp_ret. split; [by intros ->|].
        exists c4, [], []. assert (drop (Z.to_nat n) inp = []) as -> by (apply length_zero_iff_nil; lia).
        split; [done|]. split; [by apply quiet_sets|]. split; [constructor|]. split; [intros ->; by eexists _, _, _, _, _|]. intros _. split; [done|]. by split; [left|].
      * rewrite orb_false_r. destruct wc.
        -- apply wp_bind, wp_ret, wp_ret. split; [done|]. exists c3, [], (drop (Z.to_nat n) inp).
           split; [by apply kept_refl|]. split; [done|]. split; [constructor|]. by split; [intros _; eexists _, _, _, _, _|].
        -- eapply wp_mono; [apply IH; [done|rewrite length_drop; lia|rewrite length_drop; lia|]|done].
           intros E. rewrite E in Hz. done.
  - eapply wp_bind, wp_mono; [apply (wp_keep_partial r c w1 inp expect L1); lia|]. intros [|] w2 Hk; apply wp_ret.
    + destruct Hk as (c2 & K2 & S2 & E2). exists c2, [], inp. split; [done|]. split; [done|]. split; [constructor|].
      split; [done|]. intros _. split; [rewrite E2; case_decide; [subst; by apply He|done]|]. split; [|done]. right. replace n with 0 in Hparse by lia. eauto.
    + destruct Hk as (err & G). by exists [], err.
Qed.

Lemma wp_close_round r c w e R : live r c w →
  wp (closed r e;; mret true : M bool) (λ res w', if res then ends r c w R w' else False) w.
Proof. intros Hl. wpb (wp_closed r c w e R Hl). intros ? w' He. by apply wp_ret. Qed.

Definition idle_end r c w (wantClose : bool) (c' : C) (o g : list Z) (evs : list event) w' : Prop :=
  o = [] ∧ g = [] ∧ evs = [] ∧ registered c' w' ∧ v_recvbuf (ec_view c') = v_recvbuf (ec_view c) ∧
  if wantClose then v_fd (ec_view c) ∈ l_closeOnDrain (w_l w') else l_closeOnDrain (w_l w') = l_closeOnDrain (w_l w).

Lemma wp_finish_round r c w wantClose stop : live r c w →
  wp (finish_round T r wantClose stop : M _) (λ res w',
    if res : bool then ends r c w (idle_end r c w wantClose) w'
    else wantClose = false ∧ stop = false ∧ ∃ c', kept r c w c' w' [] [] [] ∧ sets_same w w' ∧
         v_recvbuf (ec_view c') = v_recvbuf (ec_view c)) w.
Proof.
  intros Hl. unfold finish_round. wpb (wp_drainWrite r c w Hl). intros [n err] w1 (c1 & K1 & Q1 & R1).
  pose proof (kp_live _ _ _ _ _ _ _ _ K1) as L1. pose proof Q1 as (W1 & D1 & _).
  assert (v_fd (ec_view c1) = v_fd (ec_view c)) as Efd by apply K1.
  apply (wp_mono _ (λ res w', if res : bool then ends r c1 w1 (idle_end r c1 w1 wantClose) w'
    else wantClose = false ∧ stop = false ∧ w' = w1)).
  2: { intros [|] w2 Hw.
       - eapply ends_kept; [done|]. destruct Hw as [Hg|(c2 & o & g & evs & K2 & Ho & Hg & Hev & Hreg & Hrb & Hd)]; [by left|right].
         eexists _, _, _, _. split; [done|]. unfold idle_end. subst. rewrite Efd in Hd. split_and!; try done; [congruence|].
         destruct wantClose; congruence.
       - destruct Hw as (-> & -> & ->). split; [done|]. split; [done|]. exists c1. split; [done|]. split; [by apply quiet_sets|done]. }
  gcase; [by eapply wp_mono; [apply (wp_close_round r c1 w1 _ (idle_end r c1 w1 wantClose) L1)|intros [|] ?]|].
  apply wp_bind, (wp_conn r c1); [apply L1|]. apply wp_bind, wp_loop. destruct wantClose.
  - gcase; [|by eapply wp_mono; [apply (wp_close_round r c1 w1 _ (idle_end r c1 w1 true) L1)|intros [|] ?]].
    apply wp_bind, wp_mod_l. rewrite (Fd_view c1 (lv_wf _ _ _ L1)). set (w2 := mkW _ _ _ _ _ _ _).
    assert (kept r c1 w1 c1 w2 [] [] []) as K2.
    { apply kept_l; [done| |done..]. split; try done. intros fd' Hne. simpl. set_solver. }
    wpb (wp_updateWriteFd r c1 w2 (kp_live _ _ _ _ _ _ _ _ K2)). intros _ w3 (K3 & D3 & Hreg). apply wp_ret. right.
    eexists _, _, _, _. split; [apply (kept_trans _ _ _ _ _ _ _ _ _ _ _ _ _ K2 K3)|].
    split_and!; try done. rewrite D3. simpl. set_solver.
  - gcase; [by eapply wp_mono; [apply (wp_close_round r c1 w1 _ (idle_end r c1 w1 false) L1)|intros [|] ?]|].
    destruct stop; [|by apply wp_ret].
    wpb (wp_updateWriteFd r c1 w1 L1). intros _ w3 (K3 & D3 & Hreg). apply wp_ret. right.
    eexists _, _, _, _. split; [done|]. by split_and!.
Qed.

(** What [processRead] does to an open connection: it closes it, or every byte
    received is in a packet handed to the application or still buffered, and every
    byte of output sent or queued, in order.  The exception is a connection the
    application asked to close while output is pending. *)
Definition read_end r c w (c' : C) (o g : list Z) (evs : list event) w' : Prop :=
  o = evs ≫= ev_out ∧ registered c' w' ∧
  (v_fd (ec_view c) ∈ l_closeOnDrain (w_l w') ∧ asks_close ∨
   l_closeOnDrain (w_l w') = l_closeOnDrain (w_l w) ∧
   fed (contents (v_recvbuf (ec_view c))) g evs (contents (v_recvbuf (ec_view c')))).

Lemma wp_processRead_loop fuel r c w readBytes : live r c w → 0 < MaxReadBytesPerEvent T → 
  MaxReadBytesPerEvent T - readBytes < Z.of_nat fuel → readBytes < MaxReadBytesPerEvent T →
  wp (processRead_loop T fuel r readBytes : M _) (λ _ w', ends r c w (read_end r c w) w') w.
Proof.
  revert c w readBytes. induction fuel as [|fuel IH]; intros c w rd Hl Hbud Hf Hlt; [lia|]. cbn [processRead_loop].
  pose proof Hl as [[Hp Hb] Hc Hwf Hfd Ht Hlp [[Hrb Hcap] Hfit]].
  apply wp_bind, (wp_conn r c); [done|]. rewrite (Recvbuf_view c Hwf), (Has_contents _ Hrb).
  set (left := len (contents (v_recvbuf (ec_view c)))).
  wpb (wp_select_recvbuf r c w Hl). intros [private|] w1 Hsel.
  2: { apply wp_ret. destruct Hsel as (err & G). left. eauto. }
  destruct Hsel as (c1 & K1 & S1 & Hroom & Htk & Hnil). fold left in Htk, Hroom, Hnil.
  pose proof (kp_live _ _ _ _ _ _ _ _ K1) as L1.
  pose proof (fr_max _ _ _ _ (kp_frame _ _ _ _ _ _ _ _ K1)) as Hm1.
  eapply wp_bind, wp_mono; [apply (wp_read_into r c1 w1 private left L1); lia|].
  intros [[n err] room] w2 (c2 & d & K2 & S2 & Hlen2 & Htk2 & Hfit2 & Hnil2 & Hres). cbn [fst snd] in *.
  pose proof (kp_live _ _ _ _ _ _ _ _ K2) as L2.
  pose proof (fr_max _ _ _ _ (kp_frame _ _ _ _ _ _ _ _ K2)) as Hm2.
  pose proof (kept_trans _ _ _ _ _ _ _ _ _ _ _ _ _ K1 K2) as K12. simpl in K12.
  destruct (bool_decide (is_Some err) && negb (bool_decide (err = Some EAGAIN))) eqn:Eerr.
  { wpc (wp_closeConn r c2 w2 (Some CLOSE_READ_ERR) L2). intros ? w3 G. left. eexists _, _. by eapply kept_gone. }
  destruct ((n <=? 0) && negb (bool_decide (err = Some EAGAIN))) eqn:En.
  { wpc (wp_closeConn r c2 w2 (Some CLOSE_READ_ERR) L2). intros ? w3 G. left. eexists _, _. by eapply kept_gone. }
  assert (n = len d) as ->.
  { destruct err as [e|]; [|done]. destruct (bool_decide (Some e = Some EAGAIN)) eqn:Ee; [|done].
    apply bool_decide_eq_true in Ee. destruct Hres as [-> Hres]. apply Hres. congruence. }
  wpb (wp_touch r c2 w2 L2). intros _ w3 (c3 & K3 & Q3 & R3). pose proof (kp_live _ _ _ _ _ _ _ _ K3) as L3.
  pose proof (fr_max _ _ _ _ (kp_frame _ _ _ _ _ _ _ _ K3)) as Hm3.
  pose proof (kept_trans _ _ _ _ _ _ _ _ _ _ _ _ _ K12 K3) as K123. simpl in K123. rewrite !app_nil_r in K123.
  assert (chosen private c3 w3 = chosen private c2 w2) as Hch.
  { destruct Q3 as (_ & _ & Q3). unfold chosen. destruct private; [by rewrite R3|done]. }
  assert (sets_same w w3) as S123.
  { apply (sets_same_trans _ w1); [done|]. apply (sets_same_trans _ w2); [done|]. by apply quiet_sets. }
  apply wp_bind, (wp_buf_content r c3); [done|]. rewrite Hch. apply wp_bind. unfold lift, wp at 1.
  rewrite slice_Some, sub_prefix, Htk2, Htk by lia. set (inp := contents (v_recvbuf (ec_view c)) ++ d).
  assert (len inp = left + len d) as Hinp by (unfold inp; rewrite length_app; lia).
  eapply wp_bind, wp_mono; [apply (wp_parse_loop _ r c3 w3 inp L3)|].
  { lia. }
  { lia. }
  { intros E. rewrite R3. apply Hnil2, Hnil. rewrite E in Hinp. simpl in Hinp. lia. }
  intros [wc|] w4 HP; [|apply wp_ret; eapply ends_kept; [apply K123|]; by left].
  destruct HP as (c4 & evs & rest & K4 & S4 & Einp & Hask & Hrest). pose proof (kp_live _ _ _ _ _ _ _ _ K4) as L4.
  pose proof (kept_trans _ _ _ _ _ _ _ _ _ _ _ _ _ K123 K4) as K14. simpl in K14. rewrite app_nil_r in K14.
  assert (v_fd (ec_view c4) = v_fd (ec_view c)) as E4 by apply K14.
  destruct S123 as [SW SD], S4 as [SW4 SD4].
  eapply wp_bind, wp_mono; [apply (wp_finish_round r c4 w4 wc _ L4)|]. intros [|] w5 Hfin.
  - apply wp_ret. eapply ends_kept; [apply K14|].
    destruct Hfin as [Hg|(c5 & o & g & evs5 & K5 & -> & -> & -> & Hreg & R5 & Hd)]; [by left|right].
    eexists _, _, _, _. split; [done|]. unfold read_end. rewrite !app_nil_r. split; [done|]. split; [done|].
    destruct wc; [left; rewrite <-E4; by split; [|apply Hask]|right]. split; [congruence|]. destruct (Hrest eq_refl) as (Er & Hst & Hop).
    rewrite R5, Er. by apply fed_last.
  - destruct Hfin as (-> & Hstop & c5 & K5 & [SW5 SD5] & R5).
    pose proof (kept_trans _ _ _ _ _ _ _ _ _ _ _ _ _ K14 K5) as K15. rewrite !app_nil_r in K15.
    assert (v_fd (ec_view c5) = v_fd (ec_view c)) as E5 by apply K15.
    apply orb_false_iff in Hstop as [Hstop Hb3]. apply orb_false_iff in Hstop as [Heag _]. rewrite Heag in En.
    apply andb_false_iff in En. apply andb_false_iff in Hb3.
    eapply wp_mono; [apply (IH c5 w5 (rd + len d)); [apply K15|done|lia|lia]|]. intros ? w6 He.
    eapply ends_kept; [apply K15|]. destruct He as [Hg|(c6 & o & g & evs6 & K6 & Ho & Hreg & Hcase)]; [by left|right].
    eexists _, _, _, _. split; [done|]. split; [by rewrite bind_app, Ho|]. split; [done|].
    rewrite E5 in Hcase. destruct Hcase as [Hd|[Hd Hcont]]; [by left|right]. split; [congruence|].
    destruct (Hrest eq_refl) as (Er & Hst & Hop). rewrite R5, Er in Hcont. by eapply fed_more.
Qed.

Lemma wp_processRead r c w : live r c w → 0 < MaxReadBytesPerEvent T →
  wp (processRead T r : M _) (λ _ w', ends r c w (read_end r c w) w') w.
Proof. intros Hl Hb. apply wp_processRead_loop; [done..|lia|lia]. Qed.

(** ** Theorems *)


(** Output order at [emitOutput] (direct write when nothing is queued, else a
    pooled copy behind the queue).  On an open connection it returns; when it
    reports success, the bytes sent followed by the bytes queued have grown by
    exactly [out] at the end, whatever part of it the kernel accepted; an empty
    [out] changes nothing. *)
Theorem emitOutput_appends (r : nat) (c : C) (w : World) (out : list Z) :
  live r c w →
  ∃ res w' c', emitOutput r out w = Some (res, w') ∧ live r c' w' ∧ same_id (ec_view c) (ec_view c') ∧
    (res = None → ec_sent (w_k w') c' ++ v_unsent (ec_view c') = ec_sent (w_k w) c ++ v_unsent (ec_view c) ++ out) ∧
    (res ≠ None → ec_sent (w_k w) c ++ v_unsent (ec_view c) `prefix_of` ec_sent (w_k w') c' ++ v_unsent (ec_view c')).
Proof.
  intros Hl. destruct (wp_run _ _ _ (wp_emitOutput r c w out Hl)) as (res & w' & E & c' & o & Hk & _ & _ & Ho).
  exists res, w', c'. split; [done|]. split; [apply Hk|]. split; [apply Hk|].
  pose proof (kp_out _ _ _ _ _ _ _ _ Hk) as Eo. split.
  - intros Er. by rewrite <-(Ho Er).
  - intros _. rewrite Eo, app_assoc. by apply prefix_app_r.
Qed.

(** C26: [closeConn] takes a connection out of the loop completely and once.  On an
    open connection it returns with the table slot free, the descriptor in none of
    the loop's sets, the connection count one less, [OnClosed] called exactly once,
    and nothing changed for other connections; a second call does nothing. *)
Theorem closeConn_removes_connection (r : nat) (c : C) (w : World) (err err' : option CloseErr) :
  live r c w →
  ∃ w', closeConn r err w = Some (tt, w') ∧ gone r c w w' [] err ∧
    fdTableGet (w_table w') (v_fd (ec_view c)) = None ∧
    (∀ fd, fd ≠ v_fd (ec_view c) → fdTableGet (w_table w') fd = fdTableGet (w_table w) fd) ∧
    closeConn r err' w' = Some (tt, w').
Proof.
  intros Hl. destruct (wp_run _ _ _ (wp_closeConn r c w err Hl)) as ([] & w' & E & Hg).
  exists w'. split; [done|]. split; [done|]. rewrite (gn_table _ _ _ _ _ _ Hg).
  split; [rewrite Get_Clear, decide_True; [done|]; by split; [|apply Hl]|].
  split; [intros fd Hne; rewrite Get_Clear, decide_False; [done|naive_solver]|].
  destruct (gn_conn _ _ _ _ _ _ Hg) as (c' & Hc' & Hwf & Hfd & _).
  unfold closeConn, mbind, M_bind, conn. rewrite Hc'. simpl. rewrite (Fd_view c' Hwf), Hfd. done.
Qed.

End Specs.

(** ** Witnesses: a loop that serves length-prefixed packets and echoes them *)

#[local] Existing Instances test_Allocator test_AllocatorLaws.

Definition TConn := Conn unit unit unit.

#[local] Instance test_EngineConn : EngineConn BytesAlloctor TestEpoll TConn :=
  Conn_EngineConn (λ c n, n) (g_conn initial_globals).
#[local] Instance test_EngineConnLaws : EngineConnLaws BytesAlloctor TestEpoll TConn :=
  Conn_EngineConnLaws (λ c n, n) (g_conn initial_globals).

(** The first byte is the length of the packet; a packet that starts with 9 asks
    to close. *)
Definition test_parse (inp : list Z) : Z * Z :=
  match inp with
  | [] => (0, -1)
  | n :: _ => (if n + 1 <=? len inp then n + 1 else 0, n + 1)
  end.

#[local] Instance test_Handler : Handler unit TConn := {
  h_ParsePacket s c inp := (s, test_parse inp);
  h_OnData s c data := (s, (data, bool_decide (data !! 1%nat = Some 9)));
  h_OnConnected s c := s;
  h_OnClosed s c e := s;
}.

Definition test_cfg : LoopConfig := mkConfig 0 65536 65536 16 0 0 0 (mkPoll 0 3 4 (-1) 0).

Definition test_loop : LoopConn :=
  mkLoop test_cfg (make_bytes 1024) ∅ ∅ ∅ 1 0 1 [] [] [] 0 (mkStat 0 0 0 0 0 0 0 0) 0 [] 0%nat ∅ 0 [] false.

(** One connection, on descriptor 7, whose peer sent two packets and a half. *)
Definition test_c : TConn := ec_SetID (ec_accepted (P := BytesAlloctor) (K := TestEpoll) (EngineConn := test_EngineConn) 7) 1.

Definition test_world (inp : list Z) (win : nat) : World BytesAlloctor TestEpoll unit TConn :=
  mkW test_pool (mkTE (mkTK win 0 inp [] []) {[ 7 := 3 ]}) tt {[ 0%nat := test_c ]}
    (<[7%nat := Some 0%nat]> (replicate 16 None)) test_loop [].

Lemma test_live inp win : live 0%nat test_c (test_world inp win).
Proof.
  split; try done.
  - split; [apply test_pool_inv|]. vm_compute. done.
  - apply wq_inv_empty.
Qed.


(** The run of the witness: both packets are delivered, the partial one is kept. *)
Example processRead_test :
  (λ x, (w_trace (snd x), (λ c, contents (v_recvbuf (ec_view c))) <$> w_conns (snd x) !! 0%nat)) <$>
    processRead (g_loop initial_globals) 0%nat (test_world [2; 5; 6; 1; 8; 3; 7] 2) =
  Some ([EvData 0 [2; 5; 6] [2; 5; 6] false; EvData 0 [1; 8] [1; 8] false], Some [3; 7]).
Proof. vm_compute. reflexivity. Qed.

Lemma emitOutput_appends_witness :
  ∃ res w' c', emitOutput 0%nat [1; 2; 3] (test_world [] 2) = Some (res, w') ∧ live 0%nat c' w' ∧
    same_id (ec_view test_c) (ec_view c') ∧
    (res = None → ec_sent (w_k w') c' ++ v_unsent (ec_view c') =
       ec_sent (w_k (test_world [] 2)) test_c ++ v_unsent (ec_view test_c) ++ [1; 2; 3]) ∧
    (res ≠ None → ec_sent (w_k (test_world [] 2)) test_c ++ v_unsent (ec_view test_c)
       `prefix_of` ec_sent (w_k w') c' ++ v_unsent (ec_view c')).
Proof. apply (emitOutput_appends 0%nat test_c (test_world [] 2) [1; 2; 3]). apply test_live. Defined.

Lemma closeConn_removes_connection_witness :
  ∃ w', closeConn 0%nat None (test_world [] 2) = Some (tt, w') ∧ gone 0%nat test_c (test_world [] 2) w' [] None ∧
    fdTableGet (w_table w') (v_fd (ec_view test_c)) = None ∧
    (∀ fd, fd ≠ v_fd (ec_view test_c) → fdTableGet (w_table w') fd = fdTableGet (w_table (test_world [] 2)) fd) ∧
    closeConn 0%nat None w' = Some (tt, w').
Proof. apply (closeConn_removes_connection 0%nat test_c (test_world [] 2) None None). apply test_live. Defined.

(** ** A connection that is draining keeps reading *)

(** The peer sends more bytes. *)
Definition feed (inp : list Z) (w : World BytesAlloctor TestEpoll unit TConn) : World BytesAlloctor TestEpoll unit TConn :=
  let k := te_k (w_k w) in
  mkW (w_pool w) (mkTE (mkTK (tk_win k) (tk_calls k) inp (tk_out k) (tk_got k)) (te_set (w_k w)))
    (w_app w) (w_conns w) (w_table w) (w_l w) (w_trace w).

(** The bytes 2 9 6 are a packet on which the application asks to close; its
    output is pending, so the descriptor is put into [closeOnDrain].  The rest of
    that read, 1 8, is dropped, the bytes 2 9 stay in the receive buffer although
    they were delivered, and the next read hands them to the application again. *)
Example draining_connection_redelivers :
  (λ x, (w_trace (snd x), bool_decide (7 ∈ l_closeOnDrain (w_l (snd x))))) <$>
    (r1 ← processRead (g_loop initial_globals) 0%nat (test_world [2; 9] 0);
     r2 ← processRead (g_loop initial_globals) 0%nat (feed [6; 1; 8] (snd r1));
     processRead (g_loop initial_globals) 0%nat (feed [5] (snd r2))) =
  Some ([EvData 0 [2; 9; 6] [2; 9; 6] true; EvData 0 [2; 9; 5] [2; 9; 5] true], true).
Proof. vm_compute. reflexivity. Qed.
