(* ===== verification/HttpUtil.v ===== *)
(** * evhandler/util.go: the helpers of the HTTP handlers

    Trimming, comparing and searching header values, decimal numbers, error responses and the
    reader of a request body.  Loops over an index are written as such, with [None] for an
    index or a slice out of range. *)

From stdpp Require Import strings.
From S2P Require Import Prelude Text.

(** ** Case folding beyond ASCII *)

(** [bytes.ToLower] and [strings.ToLower], for a search of ASCII words in the result: of the code points above ASCII,
    only the Kelvin sign and the capital I with a dot have an ASCII letter as lower case.  The
    others stay non-ASCII and are left as they are. *)
Fixpoint ToLower (l : list Z) : list Z :=
  match l with
  | [] => []
  | c :: l' =>
      match l' with
      | d :: l'' =>
          if (c =? 196) && (d =? 176) then 105 :: ToLower l''
          else match l'' with
               | e :: l''' => if (c =? 226) && (d =? 132) && (e =? 170) then 107 :: ToLower l''' else lower c :: ToLower l'
               | [] => lower c :: ToLower l'
               end
      | [] => [lower c]
      end
  end.

(** [strings.EqualFold(s, t)] for an ASCII string [t] in lower case: of the code points above ASCII, only
    the Kelvin sign and the long s fold to an ASCII letter. *)
Fixpoint fold_ascii (l : list Z) : list Z :=
  match l with
  | [] => []
  | c :: l' =>
      match l' with
      | d :: l'' =>
          if (c =? 197) && (d =? 191) then 115 :: fold_ascii l''
          else match l'' with
               | e :: l''' => if (c =? 226) && (d =? 132) && (e =? 170) then 107 :: fold_ascii l''' else lower c :: fold_ascii l'
               | [] => lower c :: fold_ascii l'
               end
      | [] => [lower c]
      end
  end.

Definition EqualFold (s t : list Z) : bool := bool_decide (fold_ascii s = t).

(** ** Limits, package variables that the application may change; 0 is no limit *)

Record HttpLimits := mkLimits { MaxHeaderBytes : Z; MaxBodyBytes : Z }.

Definition default_limits : HttpLimits := mkLimits (64 * 1024) (8 * 1024 * 1024).

Definition CRLF : list Z := [CR; LF].
Definition CRLFCRLF : list Z := [CR; LF; CR; LF].

(** ** Status texts ([net/http.StatusText]) *)

Definition statusTable : list (Z * string) :=
  [ (100, "Continue"); (101, "Switching Protocols"); (102, "Processing"); (103, "Early Hints");
    (200, "OK"); (201, "Created"); (202, "Accepted"); (203, "Non-Authoritative Information");
    (204, "No Content"); (205, "Reset Content"); (206, "Partial Content"); (207, "Multi-Status");
    (208, "Already Reported"); (226, "IM Used");
    (300, "Multiple Choices"); (301, "Moved Permanently"); (302, "Found"); (303, "See Other");
    (304, "Not Modified"); (305, "Use Proxy"); (307, "Temporary Redirect"); (308, "Permanent Redirect");
    (400, "Bad Request"); (401, "Unauthorized"); (402, "Payment Required"); (403, "Forbidden");
    (404, "Not Found"); (405, "Method Not Allowed"); (406, "Not Acceptable");
    (407, "Proxy Authentication Required"); (408, "Request Timeout"); (409, "Conflict"); (410, "Gone");
    (411, "Length Required"); (412, "Precondition Failed"); (413, "Request Entity Too Large");
    (414, "Request URI Too Long"); (415, "Unsupported Media Type"); (416, "Requested Range Not Satisfiable");
    (417, "Expectation Failed"); (418, "I'm a teapot"); (421, "Misdirected Request");
    (422, "Unprocessable Entity"); (423, "Locked"); (424, "Failed Dependency"); (425, "Too Early");
    (426, "Upgrade Required"); (428, "Precondition Required"); (429, "Too Many Requests");
    (431, "Request Header Fields Too Large"); (451, "Unavailable For Legal Reasons");
    (500, "Internal Server Error"); (501, "Not Implemented"); (502, "Bad Gateway");
    (503, "Service Unavailable"); (504, "Gateway Timeout"); (505, "HTTP Version Not Supported");
    (506, "Variant Also Negotiates"); (507, "Insufficient Storage"); (508, "Loop Detected");
    (510, "Not Extended"); (511, "Network Authentication Required") ]%string.

Definition StatusText (code : Z) : list Z :=
  match List.find (λ e, fst e =? code) statusTable with Some (_, t) => str t | None => [] end.

(** ** The markers of requests that are answered with an error *)

Record unsupportedHTTP := mkUnsupported { u_code : Z }.

Definition unsupportedChunked := mkUnsupported 501.
Definition unsupportedExpect := mkUnsupported 417.
Definition unsupportedHdrLarge := mkUnsupported 431.
Definition unsupportedBodyLarge := mkUnsupported 413.

(** ** sizedBodyReader *)

Record sizedBodyReader := mkReader { br_size : Z; br_rest : option (list Z) }.

(** [Read] into a buffer of [n] bytes: the bytes copied, or [io.EOF]. *)
Definition br_Read (br : sizedBodyReader) (n : nat) : sizedBodyReader * (list Z + unit) :=
  match br_rest br with
  | Some rest =>
      if br_size br =? 0 then (br, inr tt)
      else if Z.of_nat n <? len rest then
        (mkReader (br_size br - Z.of_nat n) (Some (drop n rest)), inl (take n rest))
      else (mkReader (br_size br - len rest) None, inl rest)
  | None => (br, inr tt)
  end.

(** ** Decimal numbers *)

(** [byte('0' + n%10)]; [n /= 10].  Ten to the twentieth is more than any [int]. *)
Fixpoint itoa_loop (fuel : nat) (n pos : Z) (buf : list Z) : option (Z * list Z) :=
  match fuel with
  | O => None
  | S fuel =>
      if 0 <? n then
        buf ← store buf (pos - 1) (wrapU 8 (48 + Z.rem n 10));
        itoa_loop fuel (Z.quot n 10) (pos - 1) buf
      else Some (pos, buf)
  end.

Definition itoa (n : Z) : option (list Z) :=
  if n =? 0 then Some (str "0")
  else
    '(pos, buf) ← itoa_loop 21 n 20 (make_bytes 20);
    slice buf pos (len buf).

(** ** Header values *)

Fixpoint trim_start (fuel : nat) (inp : list Z) (start : Z) : option Z :=
  match fuel with
  | O => None
  | S fuel =>
      if start <? len inp then
        c ← index inp start;
        if is_blank c then trim_start fuel inp (start + 1) else Some start
      else Some start
  end.

Fixpoint trim_end (fuel : nat) (inp : list Z) (start end_ : Z) : option Z :=
  match fuel with
  | O => None
  | S fuel =>
      if start <? end_ then
        c ← index inp (end_ - 1);
        if is_blank c then trim_end fuel inp start (end_ - 1) else Some end_
      else Some end_
  end.

Definition trimSpace (inp : list Z) : option (list Z) :=
  start ← trim_start (S (length inp)) inp 0;
  end_ ← trim_end (S (length inp)) inp start (len inp);
  slice inp start end_.

(** Byte by byte, upper case letters read as lower case ones. *)
Fixpoint fold_eq (a b : list Z) : bool :=
  match a, b with
  | ra :: a, rb :: b => if negb (lower ra =? lower rb) then false else fold_eq a b
  | _, _ => true
  end.

Definition equalFold (a b : list Z) : bool := if negb (len a =? len b) then false else fold_eq a b.

(** [for i := 0; i <= len(v); i++] *)
Fixpoint token_loop (fuel : nat) (v token : list Z) (i start : Z) : option bool :=
  match fuel with
  | O => None
  | S fuel =>
      if i <=? len v then
        stop ← (if i =? len v then Some true else c ← index v i; Some (c =? 44));
        if (stop : bool) then
          part ← slice v start i;
          part ← trimSpace part;
          if equalFold part token then Some true else token_loop fuel v token (i + 1) (i + 1)
        else token_loop fuel v token (i + 1) start
      else Some false
  end.

Fixpoint headerHasToken (values : list (list Z)) (token : list Z) : option bool :=
  match values with
  | [] => Some false
  | v :: values =>
      if len v =? 0 then headerHasToken values token
      else
        found ← token_loop (S (S (length v))) v token 0 0;
        if (found : bool) then Some true else headerHasToken values token
  end.

Fixpoint headerHasExact (values : list (list Z)) (token : list Z) : option bool :=
  match values with
  | [] => Some false
  | v :: values =>
      part ← trimSpace v;
      if equalFold part token then Some true else headerHasExact values token
  end.

Definition headerTooLarge (L : HttpLimits) (inp : list Z) : bool * Z :=
  if MaxHeaderBytes L <=? 0 then (false, 0)
  else
    let idx := Index inp CRLFCRLF in
    if 0 <=? idx then
      let headerLen := idx + 4 in
      if MaxHeaderBytes L <? headerLen then (true, headerLen) else (false, headerLen)
    else if MaxHeaderBytes L <? len inp then (true, len inp) else (false, 0).

(** The response to a request that is refused; [400] for a code without a text. *)
Definition httpErrorResponse (code : Z) : option (list Z) :=
  let text := StatusText code in
  let '(code, text) := if len text =? 0 then (400, StatusText 400) else (code, text) in
  let body := text ++ [LF] in
  codeS ← itoa code;
  lenS ← itoa (len body);
  Some (str "HTTP/1.1 " ++ codeS ++ str " " ++ text ++ CRLF ++
        str "Content-Type: text/plain" ++ CRLF ++
        str "Connection: close" ++ CRLF ++
        str "Content-Length: " ++ lenS ++ CRLFCRLF ++
        body).

(** ** Decimal numbers are written as [strconv.Atoi] reads them *)

Definition is_digit (c : Z) : Prop := 48 ≤ c ≤ 57.

Lemma digits_app acc l k : digits acc (l ++ k) = n ← digits acc l; digits n k.
Proof.
  revert acc. induction l as [|c l IH]; intros acc; [done|]. simpl. destruct (digit_of c); [apply IH|done].
Qed.

Lemma digits_snoc acc l n d : digits acc l = Some n → 0 ≤ d < 10 → digits acc (l ++ [48 + d]) = Some (10 * n + d).
Proof.
  intros E Hd. rewrite digits_app, E. simpl. unfold digit_of. zb. simpl. f_equal. lia.
Qed.

(** The digits of a positive number, without leading zeros. *)
Definition decimal_of (n : Z) (ds : list Z) : Prop :=
  digits 0 ds = Some n ∧ Forall is_digit ds ∧ ∃ c ds', ds = c :: ds' ∧ (c = 48 → n = 0 ∧ ds' = []).

Lemma decimal_snoc n ds d : 0 < n → decimal_of n ds → 0 ≤ d < 10 → decimal_of (10 * n + d) (ds ++ [48 + d]).
Proof.
  intros Hn (Hv & Hf & c & ds' & -> & Hc) Hd. split; [by apply digits_snoc|]. split.
  - apply Forall_app. split; [done|]. constructor; [unfold is_digit; lia|done].
  - exists c, (ds' ++ [48 + d]). split; [done|]. intros ->. destruct Hc; [done|lia].
Qed.

Lemma itoa_loop_spec (k : nat) : ∀ fuel n pos buf, 0 < n < 10 ^ Z.of_nat k → Z.of_nat k ≤ pos ≤ len buf → (k < fuel)%nat →
  ∃ pos' buf' ds, itoa_loop fuel n pos buf = Some (pos', buf') ∧ 0 ≤ pos' ≤ pos ∧ length buf' = length buf ∧
    drop (Z.to_nat pos') buf' = ds ++ drop (Z.to_nat pos) buf ∧ decimal_of n ds ∧ (length ds ≤ k)%nat.
Proof.
  induction k as [|k IH]; intros fuel n pos buf Hn Hp Hf; [simpl in Hn; lia|].
  destruct fuel as [|fuel]; [lia|]. cbn [itoa_loop]. replace (0 <? n) with true by lia.
  rewrite Z.rem_mod_nonneg, Z.quot_div_nonneg by lia. pose proof (Z.mod_pos_bound n 10 ltac:(lia)) as Hm.
  rewrite wrapU_small by lia. rewrite store_lt by lia. simpl. set (buf1 := <[_ := _]> buf).
  assert (length buf1 = length buf) as Hl1 by apply length_insert.
  assert (drop (Z.to_nat (pos - 1)) buf1 = (48 + n mod 10) :: drop (Z.to_nat pos) buf) as Hd1.
  { rewrite (drop_S _ (48 + n mod 10)) by (apply list_lookup_insert_eq; lia). f_equal.
    replace (S (Z.to_nat (pos - 1))) with (Z.to_nat pos) by lia. apply drop_insert_lt. lia. }
  pose proof (Z.div_mod n 10 ltac:(lia)) as Hdm.
  destruct (decide (n / 10 = 0)) as [Hz|Hz].
  - rewrite Hz. destruct fuel as [|fuel]; [lia|]. cbn [itoa_loop]. simpl. exists (pos - 1), buf1, [48 + n mod 10].
    split; [done|]. split; [lia|]. split; [done|]. split; [by rewrite Hd1|]. split; [|simpl; lia]. split_and!.
    + simpl. unfold digit_of. zb. simpl. f_equal. lia.
    + constructor; [unfold is_digit; lia|done].
    + exists (48 + n mod 10), []. split; [done|lia].
  - assert (0 ≤ n / 10) by (apply Z.div_pos; lia). rewrite Nat2Z.inj_succ, Z.pow_succ_r in Hn by lia.
    destruct (IH fuel (n / 10) (pos - 1) buf1) as (pos' & buf' & ds & -> & Hp' & Hl' & Hd' & Hv & Hk); [nia|lia|lia|].
    exists pos', buf', (ds ++ [48 + n mod 10]). split; [done|]. split; [lia|]. split; [lia|]. split; [|split; [|rewrite length_app; simpl; lia]].
    + by rewrite Hd', Hd1, <-app_assoc.
    + rewrite Hdm at 1. apply decimal_snoc; [lia|done|lia].
Qed.

(** The buffer of 20 bytes is large enough. *)
Lemma itoa_decimal n : 0 ≤ n < 2 ^ 63 → ∃ ds, itoa n = Some ds ∧ decimal_of n ds ∧ (length ds ≤ 19)%nat.
Proof.
  intros Hn. unfold itoa. destruct (Z.eqb_spec n 0) as [->|Hz].
  - exists [48]. split; [done|]. split; [|simpl; lia]. split; [done|]. split; [by repeat constructor|]. by exists 48, [].
  - destruct (itoa_loop_spec 19 21 n 20 (make_bytes 20)) as (pos & buf & ds & -> & Hp & Hl & Hd & Hv & Hk); [lia|done|lia|].
    exists ds. split; [|done]. simpl. change (length (make_bytes 20)) with 20%nat in Hl.
    rewrite slice_Some by lia. rewrite sub_suffix by lia. f_equal. rewrite Hd. by apply app_nil_r.
Qed.

Lemma decimal_Atoi n ds : 0 ≤ n < 2 ^ 63 → decimal_of n ds → Atoi ds = Some n.
Proof.
  intros Hn (Hv & Hf & c & ds' & -> & _). apply list.Forall_cons in Hf as [Hc _]. unfold is_digit in Hc. unfold Atoi.
  assert ((let '(neg, ds) := match c :: ds' with 43 :: ds => (false, ds) | 45 :: ds => (true, ds) | _ => (false, c :: ds') end in
    (neg, ds)) = (false, c :: ds')) as E.
  { destruct (decide (c = 43)); [lia|]. destruct (decide (c = 45)); [lia|]. repeat (case_match; try done). }
  destruct (match c :: ds' with 43 :: ds => (false, ds) | 45 :: ds => (true, ds) | _ => (false, c :: ds') end) as [neg ds].
  injection E as -> ->. replace (len (c :: ds') =? 0) with false by (simpl; lia). rewrite Hv. simpl. by zb.
Qed.

(** ** Trimming and comparing *)

Lemma equalFold_ASCII a b : equalFold a b = equalFoldASCII a b.
Proof.
  unfold equalFold. revert b. induction a as [|x a IH]; intros [|y b]; try done.
  simpl length. specialize (IH b). cbn [fold_eq equalFoldASCII].
  destruct (Z.eqb_spec (len a) (len b)) as [E|E]; simpl negb in IH; cbn iota in IH.
  - destruct (Z.eqb_spec (Z.of_nat (S (length a))) (Z.of_nat (S (length b)))); [|lia]. simpl. rewrite IH. by destruct (_ =? _).
  - destruct (Z.eqb_spec (Z.of_nat (S (length a))) (Z.of_nat (S (length b)))); [lia|]. simpl. rewrite <-IH. by rewrite andb_false_r.
Qed.

Lemma index_app_length {A} (pre : list A) x l : index (pre ++ x :: l) (len pre) = Some x.
Proof. unfold index. zb. by rewrite Nat2Z.id, list_lookup_middle. Qed.

Lemma trim_start_spec l : ∀ fuel pre, (length l < fuel)%nat →
  trim_start fuel (pre ++ l) (len pre) = Some (len (pre ++ l) - len (trim_left l)).
Proof.
  induction l as [|c l IH]; intros fuel pre Hf; (destruct fuel as [|fuel]; [simpl in Hf; lia|]); cbn [trim_start].
  - rewrite app_nil_r, Z.ltb_irrefl. simpl. f_equal. lia.
  - replace (len pre <? len (pre ++ c :: l)) with true by llia. rewrite index_app_length. simpl.
    destruct (is_blank c); [|f_equal; rewrite length_app; simpl; lia].
    replace (pre ++ c :: l) with ((pre ++ [c]) ++ l) by by rewrite <-app_assoc.
    replace (len pre + 1) with (len (pre ++ [c])) by (rewrite length_app; simpl; lia). apply IH. simpl in Hf. lia.
Qed.

Lemma trim_end_spec l : ∀ fuel pre post, (length l < fuel)%nat →
  trim_end fuel (pre ++ rev l ++ post) (len pre) (len pre + len l) = Some (len pre + len (trim_left l)).
Proof.
  induction l as [|c l IH]; intros fuel pre post Hf; (destruct fuel as [|fuel]; [simpl in Hf; lia|]); cbn [trim_end].
  - change (len []) with 0. rewrite Z.add_0_r, Z.ltb_irrefl. f_equal. simpl. lia.
  - replace (len pre <? len pre + len (c :: l)) with true by llia. simpl rev.
    replace (pre ++ (rev l ++ [c]) ++ post) with ((pre ++ rev l) ++ c :: post) by by rewrite <-!app_assoc.
    replace (len pre + len (c :: l) - 1) with (len (pre ++ rev l)) by (rewrite length_app, length_rev; simpl; lia).
    rewrite index_app_length. simpl. destruct (is_blank c); [|simpl; f_equal; lia].
    rewrite <-app_assoc. replace (len (pre ++ rev l)) with (len pre + len l) by (rewrite length_app, length_rev; lia).
    apply IH. simpl in Hf. lia.
Qed.

Lemma trim_left_suffix l : ∃ pre, l = pre ++ trim_left l.
Proof.
  induction l as [|c l [pre IH]]; [by exists []|]. simpl. destruct (is_blank c); [|by exists []]. exists (c :: pre). simpl. by f_equal.
Qed.

(** The index loops compute the trimmed slice, never out of range. *)
Lemma trimSpace_trim inp : trimSpace inp = Some (trim inp).
Proof.
  unfold trimSpace. pose proof (trim_start_spec inp (S (length inp)) [] ltac:(lia)) as E0.
  change (len []) with 0 in E0. cbn [app] in E0. rewrite E0. cbn [mbind option_bind].
  destruct (trim_left_suffix inp) as [pre Hp]. unfold trim. set (m := trim_left inp) in *. clearbody m.
  assert (len inp - len m = len pre) as -> by (rewrite Hp, length_app; lia). cbn [mbind option_bind].
  pose proof (trim_end_spec (rev m) (S (length inp)) pre [] ltac:(rewrite length_rev, Hp, length_app; lia)) as E.
  rewrite rev_involutive, app_nil_r, length_rev, <-Hp in E. assert (len pre + len m = len inp) as Hl by (rewrite Hp, length_app; lia).
  rewrite Hl in E. rewrite E. cbn [mbind option_bind].
  destruct (trim_left_suffix (rev m)) as [post Hq]. set (q := trim_left (rev m)) in *. clearbody q.
  assert (m = rev q ++ rev post) as -> by (rewrite <-rev_app_distr, <-Hq; symmetry; apply rev_involutive).
  rewrite length_app, !length_rev in Hl. rewrite slice_Some by lia. f_equal. rewrite Hp. unfold sub. rewrite Nat2Z.id, drop_app_length.
  apply take_app_length'. rewrite length_rev. lia.
Qed.

Lemma Split_cut cur c rest : c ∉ cur → Split (cur ++ c :: rest) c = cur :: Split rest c.
Proof.
  induction cur as [|x cur IH]; intros Hc; simpl; [by rewrite Z.eqb_refl|]. apply not_elem_of_cons in Hc as [Hx Hc].
  replace (x =? c) with false by lia. by rewrite IH.
Qed.

Lemma Split_last cur c : c ∉ cur → Split cur c = [cur].
Proof.
  induction cur as [|x cur IH]; intros Hc; [done|]. apply not_elem_of_cons in Hc as [Hx Hc]. simpl.
  replace (x =? c) with false by lia. by rewrite IH.
Qed.

Definition has_token (token v : list Z) : bool := existsb (λ p, equalFoldASCII (trim p) token) (Split v 44).

Lemma token_loop_spec token rest : ∀ fuel done cur, (length rest + 1 < fuel)%nat → 44 ∉ cur →
  token_loop fuel (done ++ cur ++ rest) token (len (done ++ cur)) (len done) = Some (has_token token (cur ++ rest)).
Proof.
  unfold has_token. induction rest as [|c rest IH]; intros fuel done cur Hf Hc;
    (destruct fuel as [|fuel]; [lia|]); cbn [token_loop].
  - rewrite app_nil_r. rewrite Z.leb_refl, Z.eqb_refl. simpl. rewrite slice_Some by (rewrite length_app; lia). simpl.
    replace (len (done ++ cur)) with (len (done ++ cur)) by done. rewrite sub_suffix, Nat2Z.id, drop_app_length by lia.
    rewrite trimSpace_trim. simpl. rewrite equalFold_ASCII, Split_last by done. simpl. rewrite orb_false_r.
    destruct (equalFoldASCII _ _); [done|]. destruct fuel as [|fuel]; [simpl in Hf; lia|]. cbn [token_loop]. by zb.
  - replace (len (done ++ cur) <=? len (done ++ cur ++ c :: rest)) with true by llia.
    replace (len (done ++ cur) =? len (done ++ cur ++ c :: rest)) with false by llia.
    rewrite (app_assoc done cur), index_app_length. simpl. destruct (Z.eqb_spec c 44) as [->|Hne].
    + rewrite slice_Some by llia. simpl. rewrite <-(app_assoc done), Split_cut by done. cbn [existsb].
      replace (sub (done ++ cur ++ 44 :: rest) (len done) (len (done ++ cur))) with cur.
      2:{ unfold sub. rewrite Nat2Z.id, drop_app_length. symmetry. apply take_app_length'. llia. }
      rewrite trimSpace_trim. simpl. rewrite equalFold_ASCII. destruct (equalFoldASCII _ _); [done|]. simpl.
      replace (done ++ cur ++ 44 :: rest) with ((done ++ cur ++ [44]) ++ [] ++ rest) by (by rewrite <-!app_assoc).
      replace (len (done ++ cur) + 1) with (len (done ++ cur ++ [44])) by llia.
      specialize (IH fuel (done ++ cur ++ [44]) []). rewrite app_nil_r in IH. apply IH; [simpl in Hf; lia|apply not_elem_of_nil].
    + replace ((done ++ cur) ++ c :: rest) with (done ++ (cur ++ [c]) ++ rest) by (by rewrite <-!app_assoc).
      replace (len (done ++ cur) + 1) with (len (done ++ cur ++ [c])) by llia. rewrite IH; [by rewrite <-app_assoc|simpl in Hf; lia|].
      rewrite elem_of_app, list_elem_of_singleton. intros [?|<-]; done.
Qed.

(** [headerHasToken] is total, and finds exactly the tokens of the comma-separated lists:
    it answers true iff an element of a non-empty header value, blanks around it removed, is the
    token up to the case of ASCII letters. *)
Theorem headerHasToken_spec values token :
  headerHasToken values token = Some (existsb (λ v, negb (len v =? 0) && has_token token v) values).
Proof.
  induction values as [|v values IH]; [done|]. cbn [headerHasToken existsb]. destruct (len v =? 0); [done|].
  pose proof (token_loop_spec token v (S (S (length v))) [] [] ltac:(lia) (not_elem_of_nil 44)) as E.
  cbn [app] in E. change (len []) with 0 in E. rewrite E. cbn [mbind option_bind negb andb].
  destruct (has_token token v); [done|]. by rewrite IH.
Qed.

Lemma headerHasExact_spec values token :
  headerHasExact values token = Some (existsb (λ v, equalFoldASCII (trim v) token) values).
Proof.
  induction values as [|v values IH]; [done|]. cbn [headerHasExact existsb]. rewrite trimSpace_trim. simpl. rewrite equalFold_ASCII.
  destruct (equalFoldASCII _ _); [done|]. by rewrite IH.
Qed.

(** ** Numbers and error responses *)

(** [itoa] writes every non-negative [int] as its decimal digits, within its buffer of 20
    bytes and without leading zeros: [strconv.Atoi] reads the number back.  A negative number gives
    the empty string. *)
Theorem itoa_roundtrip n : - 2 ^ 63 ≤ n < 2 ^ 63 →
  ∃ ds, itoa n = Some ds ∧ (0 ≤ n → Atoi ds = Some n ∧ decimal_of n ds) ∧ (n < 0 → ds = []).
Proof.
  intros Hn. destruct (decide (0 ≤ n)).
  - destruct (itoa_decimal n) as (ds & -> & Hd & _); [lia|]. exists ds. split; [done|]. split; [|lia]. intros _. split; [|done].
    apply decimal_Atoi; [lia|done].
  - exists []. split; [|split; [lia|done]]. unfold itoa. replace (n =? 0) with false by lia. cbn [itoa_loop].
    replace (0 <? n) with false by lia. reflexivity.
Qed.

Lemma itoa_roundtrip_witness :
  (∃ ds, itoa 9223372036854775807 = Some ds ∧ (0 ≤ 9223372036854775807 → Atoi ds = Some 9223372036854775807 ∧ decimal_of 9223372036854775807 ds) ∧
    (9223372036854775807 < 0 → ds = [])) ∧ itoa 9223372036854775807 = Some (str "9223372036854775807").
Proof. split; [apply (itoa_roundtrip 9223372036854775807); lia|vm_compute; reflexivity]. Defined.

Lemma StatusText_length code : len (StatusText code) < 100.
Proof.
  unfold StatusText. destruct (List.find _ _) as [[k t]|] eqn:E; [|simpl; lia]. apply find_some in E as [Hin _].
  assert (forallb (λ e, len (str (snd e)) <? 100) statusTable = true) as H by (vm_compute; reflexivity).
  rewrite forallb_forall in H. apply Z.ltb_lt. exact (H _ Hin).
Qed.

Lemma StatusText_code code : StatusText code ≠ [] → 100 ≤ code < 600.
Proof.
  unfold StatusText. destruct (List.find _ _) as [[k t]|] eqn:E; [|done]. intros _. apply find_some in E as [Hin Hk].
  assert (forallb (λ e, (100 <=? fst e) && (fst e <? 600)) statusTable = true) as H by (vm_compute; reflexivity).
  rewrite forallb_forall in H. specialize (H _ Hin). simpl in *. lia.
Qed.

(** The bytes of a refusal are a status line, the headers and a body of the length they say. *)
Lemma httpErrorResponse_spec code : ∃ code' text codeS lenS,
  httpErrorResponse code = Some (str "HTTP/1.1 " ++ codeS ++ str " " ++ text ++ CRLF ++ str "Content-Type: text/plain" ++ CRLF ++
    str "Connection: close" ++ CRLF ++ str "Content-Length: " ++ lenS ++ CRLFCRLF ++ text ++ [LF]) ∧
  text = StatusText code' ∧ text ≠ [] ∧ Atoi codeS = Some code' ∧ Atoi lenS = Some (len (text ++ [LF])) ∧
  (StatusText code ≠ [] → code' = code) ∧ (StatusText code = [] → code' = 400).
Proof.
  unfold httpErrorResponse. set (code' := if len (StatusText code) =? 0 then 400 else code). exists code', (StatusText code').
  assert ((if len (StatusText code) =? 0 then (400, StatusText 400) else (code, StatusText code)) = (code', StatusText code')) as ->.
  { unfold code'. by destruct (len (StatusText code) =? 0). }
  assert (StatusText code' ≠ []) as Hne.
  { unfold code'. destruct (Z.eqb_spec (len (StatusText code)) 0) as [E|E]; [by vm_compute|]. intros E'. by rewrite E' in E. }
  pose proof (StatusText_code _ Hne). pose proof (StatusText_length code').
  destruct (itoa_decimal code') as (codeS & -> & Hc & _); [lia|].
  destruct (itoa_decimal (len (StatusText code' ++ [LF]))) as (lenS & -> & Hl & _); [llia|].
  exists codeS, lenS. split; [done|]. split; [done|]. split; [done|]. split; [apply decimal_Atoi; [lia|done]|].
  split; [apply decimal_Atoi; [llia|done]|]. unfold code'.
  split; intros E; [|by rewrite E]. destruct (Z.eqb_spec (len (StatusText code)) 0) as [E0|]; [|done].
  destruct (StatusText code); [done|simpl in E0; lia].
Qed.

(** ** The body of a request *)

(** Successive reads into buffers of the sizes [ns]. *)
Fixpoint read_all (br : sizedBodyReader) (ns : list nat) : sizedBodyReader * list Z :=
  match ns with
  | [] => (br, [])
  | n :: ns =>
      let '(br, res) := br_Read br n in
      let '(br, rest) := read_all br ns in
      (br, (match res with inl d => d | inr _ => [] end) ++ rest)
  end.

Definition br_inv (body : list Z) (got : list Z) (br : sizedBodyReader) : Prop :=
  match br_rest br with
  | Some rest => got ++ rest = body ∧ br_size br = len rest
  | None => got = body ∧ br_size br = 0
  end.

Definition read_data (res : list Z + unit) : list Z := match res with inl d => d | inr _ => [] end.

Lemma br_Read_inv body got br n br' res : br_inv body got br → br_Read br n = (br', res) →
  br_inv body (got ++ read_data res) br' ∧ (res = inr tt → got = body) ∧ (length (read_data res) = n ∨ got ++ read_data res = body).
Proof.
  destruct br as [size rest]. unfold br_Read, br_inv. simpl. destruct rest as [rest|]; intros [Hg Hs] E.
  2:{ injection E as <- <-. simpl. rewrite app_nil_r. auto. }
  destruct (Z.eqb_spec size 0) as [->|Hne].
  - injection E as <- <-. simpl. rewrite app_nil_r. destruct rest; [|simpl in Hs; lia]. rewrite app_nil_r in *. auto.
  - destruct (Z.ltb_spec (Z.of_nat n) (len rest)); injection E as <- <-; simpl.
    + split; [|split; [done|left; rewrite length_take; lia]]. rewrite <-app_assoc, take_drop. split; [done|]. rewrite length_drop. lia.
    + split; [split; [done|lia]|]. split; [done|by right].
Qed.

Lemma read_all_inv body ns : ∀ got br, br_inv body got br →
  let '(br', got') := read_all br ns in
  br_inv body (got ++ got') br' ∧ (len body ≤ len got + Z.of_nat (sum_list ns) → got ++ got' = body).
Proof.
  induction ns as [|n ns IH]; intros got br Hi; simpl.
  - rewrite app_nil_r. split; [done|]. intros Hl. unfold br_inv in Hi. destruct (br_rest br) as [rest|]; [|by destruct Hi].
    destruct Hi as [<- _]. rewrite length_app in Hl. destruct rest; [by rewrite app_nil_r|simpl in Hl; lia].
  - destruct (br_Read br n) as [br1 res] eqn:E. destruct (br_Read_inv _ _ _ _ _ _ Hi E) as (Hi1 & _ & Hn). specialize (IH _ _ Hi1).
    destruct (read_all br1 ns) as [br2 got2]. fold (read_data res). rewrite <-!app_assoc in IH. destruct IH as [IH1 IH2].
    split; [done|]. intros Hl. apply IH2. destruct Hn as [<-|Hb]; [rewrite length_app; lia|rewrite <-Hb at 1; lia].
Qed.

(** The reader of a body of [cl] bytes gives them in order: reads into buffers of any
    sizes return a prefix of the body, [io.EOF] comes only after the last byte, and
    buffers of at least its length together return all of it. *)
Theorem sizedBodyReader_delivers (body : list Z) (ns : list nat) :
  let '(br, got) := read_all (mkReader (len body) (Some body)) ns in
  got `prefix_of` body ∧ (len body ≤ Z.of_nat (sum_list ns) → got = body) ∧ (∀ n br', br_Read br n = (br', inr tt) → got = body).
Proof.
  pose proof (read_all_inv body ns [] (mkReader (len body) (Some body)) (conj eq_refl eq_refl)) as H.
  destruct (read_all _ _) as [br got]. destruct H as [Hi Ha].
  split; [|split; [done|]].
  - unfold br_inv in Hi. destruct (br_rest br); destruct Hi as [<- _]; [by apply prefix_app_r|done].
  - intros n br' E. by apply (br_Read_inv _ _ _ _ _ _ Hi E).
Qed.
