(* ===== verification/FastHttp.v ===== *)
(** * evhandler/evioFastHttp.go: HTTP requests on the event loop, with fasthttp

    [ParsePacket] finds the end of the header and the length of the body in it; [OnData] parses
    the request with fasthttp and hands it to the dispatcher.  fasthttp and the dispatcher are
    parameters.  The context of a connection, in which [ParsePacket] leaves the reason to
    refuse a request for [OnData], is kept by the id of the connection; metrics and log
    messages are not modelled. *)

From stdpp Require Import strings gmap.
From S2P Require Import Prelude Text Pool Tuning WriteQueue RingBuffer Conn FdTable Poller EngineConn Loop LoopInv Framing HttpUtil.

Definition fastHeaderContentLength : list Z := str "Content-Length:".
Definition fastHeaderTransferEncoding : list Z := str "Transfer-Encoding:".
Definition fastHeaderExpect : list Z := str "Expect:".
Definition fastHeaderChunked : list Z := str "chunked".
Definition fastTokenContinue : list Z := str "100-continue".

Definition unsupportedChunkedFast : Z := 501.
Definition unsupportedExpectFast : Z := 417.
Definition unsupportedHdrLargeFast : Z := 431.
Definition unsupportedBodyLargeFast : Z := 413.

(** [len(line) >= len(h) && bytes.EqualFold(line[:len(h)], h)].  [EqualFold] folds code points, of
    which a string as long as the ASCII string [h] must have as many: so all its bytes are
    ASCII, too, when it is equal. *)
Definition has_header (line h : list Z) : bool :=
  (len h <=? len line) && equalFoldASCII (take (length h) line) h.

(** The digit loop: [n = n*10 + int(ch-'0')], up to the first byte that is not a digit. *)
Fixpoint cl_digits (l : list Z) (n : Z) : Z :=
  match l with
  | ch :: l => if (ch <? 48) || (57 <? ch) then n else cl_digits l (wrapS 64 (wrapS 64 (n * 10) + (ch - 48)))
  | [] => n
  end.

Definition parseContentLengthValue (line : list Z) : Z * bool :=
  let pos := IndexByte line 58 in
  if pos =? -1 then (0, false)
  else
    let v := trim_left (drop (Z.to_nat (pos + 1)) line) in
    if len v =? 0 then (0, false) else (cl_digits v 0, true).

Record clState := mkCl { cs_cl : Z; cs_hasCL : bool; cs_chunked : bool; cs_expect : bool }.

(** The three tests on a line; [None] is the return in the first of them. *)
Definition scan_line (line : list Z) (st : clState) : option clState :=
  st ← (if has_header line fastHeaderContentLength then
          let '(v, ok) := parseContentLengthValue line in
          if (ok : bool) then Some (mkCl v true (cs_chunked st) (cs_expect st)) else None
        else Some st);
  let st := if has_header line fastHeaderTransferEncoding && Contains (ToLower line) fastHeaderChunked
            then mkCl (cs_cl st) (cs_hasCL st) true (cs_expect st) else st in
  Some (if has_header line fastHeaderExpect && Contains (ToLower line) fastTokenContinue
        then mkCl (cs_cl st) (cs_hasCL st) (cs_chunked st) true else st).

(** The loop over the lines; [header] is [header[start:]].  Each round takes a byte. *)
Fixpoint scan_lines (fuel : nat) (header : list Z) (st : clState) : option clState :=
  match fuel with
  | O => Some st
  | S fuel =>
      if 0 <? len header then
        let end_ := IndexByte header LF in
        if end_ =? -1 then Some st
        else
          let line := take (Z.to_nat end_) header in
          let header := drop (Z.to_nat (end_ + 1)) header in
          if (len line =? 0) || bool_decide (line = [CR]) then Some st
          else
            let line := if bool_decide (index line (len line - 1) = Some CR) then take (length line - 1) line else line in
            st ← scan_line line st;
            scan_lines fuel header st
      else Some st
  end.

(** [(cl, chunked, expectContinue, ok)] *)
Definition parseContentLength (header : list Z) : Z * bool * bool * bool :=
  match scan_lines (length header) header (mkCl 0 false false false) with
  | None => (0, false, false, false)
  | Some st => if negb (cs_hasCL st) then (0, cs_chunked st, cs_expect st, true)
               else (cs_cl st, cs_chunked st, cs_expect st, true)
  end.

(** The answer of [ParsePacket], and the context that it sets. *)
Definition parsePacketFast (L : HttpLimits) (data : list Z) : option Z * (Z * Z) :=
  let headerEnd := Index data CRLFCRLF in
  if (0 <? MaxHeaderBytes L) && (headerEnd =? -1) && (MaxHeaderBytes L <? len data) then
    (Some unsupportedHdrLargeFast, (len data, len data))
  else if headerEnd =? -1 then (None, (0, -1))
  else
    let headerLen := headerEnd + 4 in
    if (0 <? MaxHeaderBytes L) && (MaxHeaderBytes L <? headerLen) then (Some unsupportedHdrLargeFast, (headerLen, headerLen))
    else
      let '(cl, chunked, expectContinue, ok) := parseContentLength (take (Z.to_nat headerLen) data) in
      if negb ok then (None, (-1, -1))
      else if (chunked : bool) then (Some unsupportedChunkedFast, (headerLen, headerLen))
      else if (expectContinue : bool) then (Some unsupportedExpectFast, (headerLen, headerLen))
      else
        let total := wrapS 64 (headerLen + cl) in
        if (0 <? MaxBodyBytes L) && (MaxBodyBytes L <? cl) then (Some unsupportedBodyLargeFast, (headerLen, headerLen))
        else if total <=? len data then (None, (total, total))
        else (None, (0, total)).

Section Handler.
Context {A C Req Resp : Type}.
(** fasthttp: [Request.Read] and [Response.Write], [None] for an error, and the plain response of a code. *)
Context (read_request : list Z → option Req) (write_response : Resp → option (list Z)) (status_response : Z → Resp).
(** The dispatcher, which may be missing, and the id of a connection. *)
Context (dispatch : option (A → C → Req → A)) (conn_ID : C → Z) (L : HttpLimits).

Record FastState := mkFast { fs_ctx : gmap Z Z; fs_app : A }.

Definition EncodeResponse (resp : Resp) : option (list Z) := write_response resp.

Definition FastParsePacket (s : FastState) (c : C) (inp : list Z) : FastState * (Z * Z) :=
  let '(ctx, res) := parsePacketFast L inp in
  (match ctx with
   | Some code => mkFast (<[conn_ID c := code]> (fs_ctx s)) (fs_app s)
   | None => s
   end, res).

Definition FastOnData (s : FastState) (c : C) (inp : list Z) : FastState * (list Z * bool) :=
  match dispatch with
  | None => (s, ([], true))
  | Some dispatch =>
      match fs_ctx s !! conn_ID c with
      | Some code =>
          match EncodeResponse (status_response code) with
          | None => (s, ([], true))
          | Some out => (s, (out, true))
          end
      | None =>
          match read_request inp with
          | None => (s, ([], true))
          | Some req => (mkFast (fs_ctx s) (dispatch (fs_app s) c req), ([], false))
          end
      end
  end.

(** A new connection has no context; it goes with the connection. *)
Definition FastOnConnected (s : FastState) (c : C) : FastState := mkFast (delete (conn_ID c) (fs_ctx s)) (fs_app s).
Definition FastOnClosed (s : FastState) (c : C) (err : option CloseErr) : FastState :=
  mkFast (delete (conn_ID c) (fs_ctx s)) (fs_app s).

Definition FastHandler : Handler FastState C := {|
  h_ParsePacket := FastParsePacket; h_OnData := FastOnData;
  h_OnConnected := FastOnConnected; h_OnClosed := FastOnClosed |}.

End Handler.
Arguments FastState : clear implicits.

(** ** The length of a body *)

Lemma wrapS_mul_l x y : wrapS 64 (wrapS 64 x * y) = wrapS 64 (x * y).
Proof.
  assert (wrapS 64 x = x + (- ((x + 2 ^ 63) / 2 ^ 64)) * 2 ^ 64) as ->.
  { unfold wrapS. rewrite Z.mod_eq by lia. change (64 - 1) with 63. lia. }
  set (k := - _). unfold wrapS. replace ((x + k * 2 ^ 64) * y + 2 ^ (64 - 1)) with (x * y + 2 ^ (64 - 1) + k * y * 2 ^ 64) by lia.
  by rewrite Z.mod_add by lia.
Qed.

(** The number that the leading digits of [l] stand for, behind the digits of [n]. *)
Fixpoint dec_val (l : list Z) (n : Z) : Z :=
  match l with
  | ch :: l => if (ch <? 48) || (57 <? ch) then n else dec_val l (10 * n + (ch - 48))
  | [] => n
  end.

Lemma cl_digits_wrap l : ∀ n, cl_digits l (wrapS 64 n) = wrapS 64 (dec_val l n).
Proof.
  induction l as [|ch l IH]; intros n; [done|]. cbn [cl_digits dec_val]. gcase; [done|].
  rewrite wrapS_add_l. rewrite <-wrapS_add_l, wrapS_mul_l, wrapS_add_l, IH. do 2 f_equal. lia.
Qed.

Lemma dec_val_digits ds : ∀ n m, Forall is_digit ds → digits n ds = Some m → dec_val ds n = m.
Proof.
  induction ds as [|c ds IH]; intros n m Hf E; simpl in *; [by injection E|]. apply list.Forall_cons in Hf as [Hc Hf].
  unfold is_digit in Hc. unfold digit_of in E. replace ((48 <=? c) && (c <=? 57)) with true in E by lia. simpl in E.
  replace ((c <? 48) || (57 <? c)) with false by lia. by apply IH.
Qed.

Lemma parseContentLengthValue_decimal v n : 0 ≤ n < 2 ^ 63 → decimal_of n v →
  parseContentLengthValue (fastHeaderContentLength ++ [SP] ++ v) = (n, true).
Proof.
  intros Hn (Hv & Hf & c & v' & -> & _). unfold parseContentLengthValue.
  change (IndexByte (fastHeaderContentLength ++ [SP] ++ c :: v') 58) with 14. cbn [Z.eqb].
  change (drop (Z.to_nat (14 + 1)) (fastHeaderContentLength ++ [SP] ++ c :: v')) with (SP :: c :: v').
  pose proof Hf as Hc. apply list.Forall_cons in Hc as [Hc _]. unfold is_digit in Hc.
  assert (trim_left (SP :: c :: v') = c :: v') as ->.
  { simpl. unfold is_blank, SP, TAB. by replace ((c =? 32) || (c =? 9)) with false by lia. }
  replace (len (c :: v') =? 0) with false by llia. rewrite <-(wrapS_small 64 0) by lia.
  rewrite cl_digits_wrap, (dec_val_digits _ _ _ Hf Hv), wrapS_small by lia. done.
Qed.

(** ** Packets are stable *)

Definition fast_frame (L : HttpLimits) (inp : list Z) : option Z :=
  match parsePacketFast L inp with
  | (None, (n, _)) => if 0 <? n then Some n else None
  | _ => None
  end.

Lemma parsePacketFast_le L inp ctx n e : parsePacketFast L inp = (ctx, (n, e)) → n ≤ len inp.
Proof.
  unfold parsePacketFast. pose proof (Index_bound inp CRLFCRLF). destruct (decide (Index inp CRLFCRLF = -1)) as [->|Hi].
  { intros E. repeat (case_match; simplify_eq; try lia). }
  pose proof (Index_fits inp CRLFCRLF ltac:(lia)) as Hf. change (len CRLFCRLF) with 4 in Hf.
  destruct (parseContentLength _) as [[[cl ch] ex] ok]. intros E. repeat (case_match; simplify_eq; try lia).
Qed.

Lemma fast_frame_stable L inp n more : fast_frame L inp = Some n → 0 < n ≤ len inp ∧ fast_frame L (inp ++ more) = Some n.
Proof.
  unfold fast_frame. destruct (parsePacketFast L inp) as [[code|] [n' e]] eqn:E; [done|]. destruct (Z.ltb_spec 0 n') as [Hn|]; [|done].
  intros [= ->]. pose proof (parsePacketFast_le _ _ _ _ _ E) as Hle. split; [lia|].
  unfold parsePacketFast in *. pose proof (Index_bound inp CRLFCRLF). destruct (decide (Index inp CRLFCRLF = -1)) as [Hi|Hi].
  { rewrite Hi in E. repeat (case_match; simplify_eq; try lia). }
  pose proof (Index_fits inp CRLFCRLF ltac:(lia)) as Hf. change (len CRLFCRLF) with 4 in Hf.
  rewrite Index_more by lia. rewrite take_app_le by lia. destruct (parseContentLength _) as [[[cl ch] ex] ok].
  replace (Index inp CRLFCRLF =? -1) with false in * by lia. rewrite andb_false_r in *. cbn [andb] in *.
  repeat (case_match; simplify_eq; try lia); rewrite ?length_app in *; try done.
  match goal with H : (_ <=? _) = false |- _ => apply Z.leb_gt in H; lia end.
Qed.

Section FastFraming.
Context {A C Req Resp : Type} (read_request : list Z → option Req) (write_response : Resp → option (list Z))
  (status_response : Z → Resp) (dispatch : option (A → C → Req → A)) (conn_ID : C → Z) (L : HttpLimits).

#[local] Instance FastH : Handler (FastState A) C :=
  FastHandler read_request write_response status_response dispatch conn_ID L.

(** A request that is refused is answered and the connection closed. *)
Lemma FastOnData_ctx (s : FastState A) (c : C) inp s2 out :
  FastOnData read_request write_response status_response dispatch conn_ID s c inp = (s2, (out, false)) →
  fs_ctx s !! conn_ID c = None.
Proof.
  unfold FastOnData. intros E. destruct dispatch; [|done]. destruct (fs_ctx s !! conn_ID c); [|done]. by destruct (EncodeResponse _ _).
Qed.

Definition FastFraming : Framing (FastState A) C.
Proof.
  refine {| fm_frame := fast_frame L |}.
  - intros s c inp s1 n e s2 out Hp Hn Hd. cbn in Hp, Hd. apply FastOnData_ctx in Hd. unfold FastParsePacket in Hp. unfold fast_frame.
    destruct (parsePacketFast L inp) as [[code|] res]; injection Hp as <- ->.
    + simpl in Hd. by rewrite lookup_insert_eq in Hd.
    + by replace (0 <? n) with true by lia.
  - intros s c inp s1 e Hp. cbn in Hp. unfold FastParsePacket in Hp. unfold fast_frame.
    destruct (parsePacketFast L inp) as [[code|] res]; [done|]. by injection Hp as _ ->.
  - apply fast_frame_stable.
Defined.

End FastFraming.

(** ** A stream of requests *)

(** A line without meaning for the framing. *)
Record plain_line (l : list Z) : Prop := {
  pl_nonempty : l ≠ []; pl_CR : CR ∉ l; pl_LF : LF ∉ l;
  pl_cl : has_header l fastHeaderContentLength = false;
  pl_te : has_header l fastHeaderTransferEncoding = false;
  pl_ex : has_header l fastHeaderExpect = false;
}.

(** The request line and headers, a [Content-Length] among them, and the body. *)
Record request := mkReq { q_before : list (list Z); q_len : list Z; q_after : list (list Z); q_body : list Z }.

Definition q_lines (q : request) : list (list Z) :=
  q_before q ++ [fastHeaderContentLength ++ [SP] ++ q_len q] ++ q_after q.

Definition block (ls : list (list Z)) : list Z := ls ≫= λ l, l ++ CRLF.
Definition q_bytes (q : request) : list Z := (block (q_lines q) ++ CRLF) ++ q_body q.

Record wf_request (L : HttpLimits) (q : request) : Prop := {
  wq_before : Forall plain_line (q_before q); wq_after : Forall plain_line (q_after q);
  wq_len : decimal_of (len (q_body q)) (q_len q);
  wq_header : 0 < MaxHeaderBytes L → len (block (q_lines q)) + 2 ≤ MaxHeaderBytes L;
  wq_body : 0 < MaxBodyBytes L → len (q_body q) ≤ MaxBodyBytes L;
  wq_int : len (q_bytes q) < 2 ^ 63;
}.

Lemma Index_skip l y : CR ∉ l → Index (l ++ y) CRLFCRLF = if Index y CRLFCRLF <? 0 then -1 else len l + Index y CRLFCRLF.
Proof.
  induction l as [|c l IH]; intros Hc.
  - pose proof (Index_bound y CRLFCRLF). cbn [app]. change (len []) with 0. destruct (Z.ltb_spec (Index y CRLFCRLF) 0); lia.
  - apply not_elem_of_cons in Hc as [Hc Hl]. cbn [app Index]. assert (is_prefix CRLFCRLF (c :: l ++ y) = false) as ->.
    { unfold CRLFCRLF. cbn [is_prefix]. by replace (CR =? c) with false by lia. }
    rewrite IH by done. pose proof (Index_bound y CRLFCRLF). destruct (Z.ltb_spec (Index y CRLFCRLF) 0); [done|].
    replace (len l + Index y CRLFCRLF <? 0) with false by lia. cbn [length]. lia.
Qed.

Lemma Index_crlf c y : c ≠ CR → Index (CRLF ++ c :: y) CRLFCRLF = if Index (c :: y) CRLFCRLF <? 0 then -1 else 2 + Index (c :: y) CRLFCRLF.
Proof.
  intros Hc. set (z := c :: y). assert (is_prefix CRLFCRLF (CR :: LF :: z) = false) as H1.
  { unfold CRLFCRLF, z. cbn [is_prefix]. replace (CR =? c) with false by lia. done. }
  change (CRLF ++ z) with (CR :: LF :: z). pose proof (Index_bound z CRLFCRLF). assert (Index (LF :: z) CRLFCRLF = if Index z CRLFCRLF <? 0 then -1 else Index z CRLFCRLF + 1) as H2 by done.
  transitivity (let r := Index (LF :: z) CRLFCRLF in if r <? 0 then -1 else r + 1); [cbn [Index] in *; by rewrite H1|].
  cbn zeta. rewrite H2. destruct (Z.ltb_spec (Index z CRLFCRLF) 0); [done|]. by zb; lia.
Qed.

Definition line_ok (l : list Z) : Prop := l ≠ [] ∧ CR ∉ l ∧ LF ∉ l.

(** The first empty line is the one that ends the header. *)
Lemma Index_block ls rest : ls ≠ [] → Forall line_ok ls → Index (block ls ++ CRLF ++ rest) CRLFCRLF = len (block ls) - 2.
Proof.
  induction ls as [|l ls IH]; intros Hne Hf; [done|]. apply list.Forall_cons in Hf as [(Hl & Hcr & Hlf) Hf].
  unfold block in *. cbn [mbind list_bind]. rewrite <-!app_assoc, Index_skip by done. destruct ls as [|l2 ls].
  - cbn [mbind list_bind app]. change (Index (CRLF ++ CRLF ++ rest) CRLFCRLF) with 0. cbn. rewrite !length_app. cbn. lia.
  - specialize (IH ltac:(done) Hf). apply list.Forall_cons in Hf as [(Hl2 & Hcr2 & _) _]. destruct l2 as [|c l2]; [done|].
    apply not_elem_of_cons in Hcr2 as [Hc _]. cbn [mbind list_bind] in *. cbn [app] in IH |- *.
    rewrite Index_crlf by (by intros ->). rewrite IH.
    match goal with |- context [len ?b - 2] => assert (3 ≤ len b) by (cbn [length]; rewrite !length_app; cbn; lia) end.
    zb. rewrite !length_app. cbn [length CRLF]. lia.
Qed.

Lemma IndexByte_here l c rest : c ∉ l → IndexByte (l ++ c :: rest) c = len l.
Proof.
  induction l as [|x l IH]; intros Hc; simpl; [by rewrite Z.eqb_refl|]. apply not_elem_of_cons in Hc as [Hx Hc].
  replace (x =? c) with false by lia. rewrite IH by done. replace (len l <? 0) with false by lia. lia.
Qed.

Definition scan_all (ls : list (list Z)) (st : clState) : option clState :=
  foldl (λ st l, st ← st; scan_line l st) (Some st) ls.

Lemma scan_all_None ls : foldl (λ st l, st ← st; scan_line l st) None ls = None.
Proof. by induction ls. Qed.

Lemma scan_lines_block ls : ∀ fuel st, (length ls < fuel)%nat → Forall line_ok ls →
  scan_lines fuel (block ls ++ CRLF) st = scan_all ls st.
Proof.
  induction ls as [|l ls IH]; intros [|fuel] st Hf Ho; [simpl in Hf; lia|done|simpl in Hf; lia|].
  apply list.Forall_cons in Ho as [(Hl & Hcr & Hlf) Ho]. cbn [scan_lines].
  set (m := block ls ++ CRLF). assert (block (l :: ls) ++ CRLF = (l ++ [CR]) ++ LF :: m) as ->.
  { unfold block. cbn [mbind list_bind]. rewrite <-!app_assoc. done. }
  assert (LF ∉ l ++ [CR]) by (rewrite elem_of_app, list_elem_of_singleton; by intros [?|?]).
  rewrite IndexByte_here by done. replace (0 <? len ((l ++ [CR]) ++ LF :: m)) with true by llia.
  replace (len (l ++ [CR]) =? -1) with false by blia. rewrite Nat2Z.id, take_app_length.
  replace (Z.to_nat (len (l ++ [CR]) + 1)) with (length (l ++ [CR]) + 1)%nat by lia. rewrite <-drop_drop, drop_app_length. cbn [drop].
  replace (len (l ++ [CR]) =? 0) with false by llia. rewrite bool_decide_eq_false_2.
  2:{ intros E. apply (f_equal length) in E. rewrite length_app in E. destruct l; [done|simpl in E; lia]. }
  cbn [orb]. replace (len (l ++ [CR]) - 1) with (len l) by llia. rewrite index_app_length, bool_decide_eq_true_2 by done.
  replace (length (l ++ [CR]) - 1)%nat with (length l) by llia. rewrite take_app_length. unfold scan_all. cbn [foldl mbind option_bind].
  destruct (scan_line l st) as [st1|]; cbn [mbind option_bind]; [|by rewrite scan_all_None]. apply IH; [simpl in Hf; lia|done].
Qed.

Lemma plain_ok l : plain_line l → line_ok l.
Proof. intros []. done. Qed.

Lemma scan_plain l st : plain_line l → scan_line l st = Some st.
Proof. intros []. unfold scan_line. rewrite pl_cl0, pl_te0, pl_ex0. done. Qed.

Lemma scan_all_plain ls st : Forall plain_line ls → scan_all ls st = Some st.
Proof.
  intros Hf. unfold scan_all. induction Hf as [|l ls Hl _ IH]; [done|]. cbn [foldl mbind option_bind]. by rewrite (scan_plain l st Hl).
Qed.

Lemma decimal_ok n v : decimal_of n v → line_ok (fastHeaderContentLength ++ [SP] ++ v).
Proof.
  intros (_ & Hf & _). split; [done|]. rewrite !not_elem_of_app, !list_elem_of_singleton. rewrite list.Forall_forall in Hf.
  split; (split; [apply (bool_decide_unpack _); vm_compute; exact I|]); (split; [done|]); intros Hin; specialize (Hf _ Hin);
    unfold is_digit, CR, LF in Hf; lia.
Qed.

Lemma scan_cl n v st : 0 ≤ n < 2 ^ 63 → decimal_of n v →
  scan_line (fastHeaderContentLength ++ [SP] ++ v) st = Some (mkCl n true (cs_chunked st) (cs_expect st)).
Proof.
  intros Hn Hv. unfold scan_line. rewrite (parseContentLengthValue_decimal v n Hn Hv). unfold has_header.
  rewrite take_app_length. replace (len fastHeaderContentLength <=? len (fastHeaderContentLength ++ [SP] ++ v)) with true by llia.
  replace (equalFoldASCII fastHeaderContentLength fastHeaderContentLength) with true by (vm_compute; reflexivity).
  cbn [andb mbind option_bind cs_cl cs_hasCL cs_chunked cs_expect].
  assert (∀ h x y, h = x :: y → x ≠ 67 → lower x ≠ 99 → equalFoldASCII (take (length h) (fastHeaderContentLength ++ [SP] ++ v)) h = false) as Hh.
  { intros h x y -> _ Hx. cbn [length take equalFoldASCII fastHeaderContentLength str app]. change (lower _) with 99 at 1.
    by replace (99 =? lower x) with false by lia. }
  by rewrite (Hh fastHeaderTransferEncoding _ _ eq_refl), (Hh fastHeaderExpect _ _ eq_refl), !andb_false_r.
Qed.

Lemma q_lines_ok L q : wf_request L q → Forall line_ok (q_lines q).
Proof.
  intros []. unfold q_lines. rewrite !Forall_app, Forall_singleton.
  split; [by apply (list.Forall_impl plain_line); [|apply plain_ok]|]. split; [by eapply decimal_ok|by apply (list.Forall_impl plain_line); [|apply plain_ok]].
Qed.

Lemma length_block ls : (length ls ≤ length (block ls))%nat.
Proof. unfold block. induction ls as [|l ls IH]; [done|]. cbn [mbind list_bind length]. rewrite !length_app. cbn. lia. Qed.

Lemma parseContentLength_request L q : wf_request L q →
  parseContentLength (block (q_lines q) ++ CRLF) = (len (q_body q), false, false, true).
Proof.
  intros Hq. pose proof (wq_int L q Hq) as Hi. unfold q_bytes in Hi. rewrite length_app in Hi. unfold parseContentLength.
  rewrite scan_lines_block; [|pose proof (length_block (q_lines q)); rewrite length_app; cbn [length CRLF]; lia|by eapply q_lines_ok].
  assert (scan_all (q_lines q) (mkCl 0 false false false) = Some (mkCl (len (q_body q)) true false false)) as ->; [|done].
  unfold scan_all, q_lines. rewrite !foldl_app. cbn [foldl]. fold (scan_all (q_before q) (mkCl 0 false false false)).
  rewrite scan_all_plain by apply Hq. cbn [mbind option_bind]. rewrite (scan_cl (len (q_body q))); [|lia|apply Hq].
  fold (scan_all (q_after q) (mkCl (len (q_body q)) true false false)). apply scan_all_plain, Hq.
Qed.

(** A well-formed request is found with its length, whatever follows it. *)
Lemma parsePacketFast_request L q more : wf_request L q →
  parsePacketFast L (q_bytes q ++ more) = (None, (len (q_bytes q), len (q_bytes q))).
Proof.
  intros Hq. set (hdr := block (q_lines q) ++ CRLF). assert (4 ≤ len hdr) as Hh.
  { unfold hdr, q_lines, block. rewrite !bind_app, !length_app. cbn. rewrite !length_app. cbn. lia. }
  unfold parsePacketFast. assert (Index (q_bytes q ++ more) CRLFCRLF = len hdr - 4) as ->.
  { unfold q_bytes, hdr. rewrite <-!app_assoc, Index_block; [rewrite length_app; cbn; lia| |by eapply q_lines_ok].
    unfold q_lines. by destruct (q_before q). }
  replace (len hdr - 4 =? -1) with false by lia. rewrite andb_false_r. cbn [andb]. replace (len hdr - 4 + 4) with (len hdr) by lia.
  pose proof (wq_header L q Hq) as Hmax. pose proof (wq_body L q Hq) as Hbody. pose proof (wq_int L q Hq) as Hint.
  assert (len hdr = len (block (q_lines q)) + 2) as Hlen by (unfold hdr; rewrite length_app; cbn; lia).
  replace ((0 <? MaxHeaderBytes L) && (MaxHeaderBytes L <? len hdr)) with false by blia.
  assert (take (Z.to_nat (len hdr)) (q_bytes q ++ more) = hdr) as ->.
  { unfold q_bytes. rewrite Nat2Z.id. fold hdr. by rewrite <-app_assoc, take_app_length. }
  unfold hdr at 1. rewrite (parseContentLength_request L q Hq). cbn [negb].
  replace ((0 <? MaxBodyBytes L) && (MaxBodyBytes L <? len (q_body q))) with false by blia.
  assert (len hdr + len (q_body q) = len (q_bytes q)) as -> by (unfold q_bytes; rewrite (length_app _ (q_body q)); unfold hdr; lia).
  rewrite wrapS_small by lia. by replace (len (q_bytes q) <=? len (q_bytes q ++ more)) with true by llia.
Qed.

(** ** What [ParsePacket] answers *)

(** The length of the body that the header at the start of [data] declares. *)
Definition declared (data : list Z) : Z :=
  (parseContentLength (take (Z.to_nat (Index data CRLFCRLF + 4)) data)).1.1.1.

(** The answers that the loop can use: an error; nothing yet, of an unknown length or of a known
    one that is longer than the data; a packet within the data; or a packet within the data that
    is to be refused with a status code. *)
Inductive packet_answer (data : list Z) : option Z → Z → Z → Prop :=
| ans_error : packet_answer data None (-1) (-1)
| ans_header : Index data CRLFCRLF = -1 → packet_answer data None 0 (-1)
| ans_body e : Index data CRLFCRLF + 4 + declared data = e → len data < e → packet_answer data None 0 e
| ans_packet n : Index data CRLFCRLF + 4 + declared data = n → 0 < n ≤ len data → packet_answer data None n n
| ans_refuse code n : code ∈ [431; 501; 417; 413] → 0 < n ≤ len data → packet_answer data (Some code) n n.

(** C20: every answer of [ParsePacket] is one that the loop can use, with the packet within the
    data, provided the declared length is a number of the type [int] that leaves room for the header. *)
Theorem parsePacketFast_type (L : HttpLimits) (data : list Z) :
  0 ≤ declared data → len data + declared data < 2 ^ 63 →
  let '(ctx, (n, e)) := parsePacketFast L data in packet_answer data ctx n e.
Proof.
  intros Hd Hi. unfold parsePacketFast. pose proof (Index_bound data CRLFCRLF).
  destruct (decide (Index data CRLFCRLF = -1)) as [Hx|Hx].
  { rewrite Hx. cbn [Z.eqb Pos.eqb andb]. rewrite andb_true_r. destruct (_ && _) eqn:E; [|by constructor].
    constructor; [set_solver|lia]. }
  pose proof (Index_fits data CRLFCRLF ltac:(lia)) as Hf. change (len CRLFCRLF) with 4 in Hf.
  pose proof (ans_packet data) as Hp. pose proof (ans_body data) as Hb. unfold declared in Hp, Hb, Hd, Hi.
  destruct (parseContentLength _) as [[[cl ch] ex] ok]. cbn [fst] in *. rewrite wrapS_small by lia.
  replace (Index data CRLFCRLF =? -1) with false by lia. rewrite andb_false_r. cbn [andb].
  repeat case_match; simplify_eq; first [apply ans_error | apply ans_refuse; [set_solver|lia] | apply Hp; lia | apply Hb; lia].
Qed.

Lemma parsePacketFast_type_witness :
  let '(ctx, (n, e)) := parsePacketFast default_limits (str "GET / HTTP/1.1" ++ CRLF ++ str "Content-Length: 3" ++ CRLFCRLF ++ str "abcd") in
  packet_answer (str "GET / HTTP/1.1" ++ CRLF ++ str "Content-Length: 3" ++ CRLFCRLF ++ str "abcd") ctx n e.
Proof.
  apply (parsePacketFast_type default_limits (str "GET / HTTP/1.1" ++ CRLF ++ str "Content-Length: 3" ++ CRLFCRLF ++ str "abcd")).
  - vm_compute. discriminate.
  - vm_compute. reflexivity.
Defined.

(** The declared length is computed modulo 2^64: this header declares 2^64 + 2 bytes, and is taken
    as a request with a body of two bytes.  What is not a number counts as 0. *)
Example content_length_wraps :
  parsePacketFast default_limits (str "POST / HTTP/1.1" ++ CRLF ++ str "Content-Length: 18446744073709551618" ++ CRLFCRLF ++ str "abcd")
  = (None, (59, 59)).
Proof. vm_compute. reflexivity. Qed.

Example content_length_junk :
  parsePacketFast default_limits (str "POST / HTTP/1.1" ++ CRLF ++ str "Content-Length: x9" ++ CRLFCRLF ++ str "abcd") = (None, (39, 39)) ∧
  parsePacketFast default_limits (str "POST / HTTP/1.1" ++ CRLF ++ str "Content-Length: 9" ++ CRLF ++ str "Content-Length: 1" ++
    CRLFCRLF ++ str "abcd") = (None, (58, 58)).
Proof. vm_compute. done. Qed.

(** ** Requests through the loop *)

Section Requests.
Context {A Req Resp : Type} (read_request : list Z → option Req) (write_response : Resp → option (list Z))
  (status_response : Z → Resp).
Context {P K C : Type} (dispatch : option (A → C → Req → A)) (conn_ID : C → Z) (L : HttpLimits).
Context `{AL : AllocatorLaws P} `{KL : KernelLaws K} `{!Epoll K, !EpollLaws K} `{EC : !EngineConn P K C, !EngineConnLaws P K C}.
Variable T : EventLoop.

#[local] Instance req_Handler : Handler (FastState A) C := FastHandler read_request write_response status_response dispatch conn_ID L.
#[local] Instance req_Framing : Framing (FastState A) C := FastFraming read_request write_response status_response dispatch conn_ID L.

(** A sequence of requests is cut into these requests. *)
Lemma frames_requests qs rest : Forall (wf_request L) qs → fast_frame L rest = None →
  frames_of (S := FastState A) (C := C) ((qs ≫= q_bytes) ++ rest) = (q_bytes <$> qs, rest).
Proof.
  intros Hq Hr. induction Hq as [|q qs Hq _ IH]; [by apply frames_of_None|]. cbn [mbind list_bind fmap list_fmap]. rewrite <-app_assoc.
  set (more := (qs ≫= q_bytes) ++ rest). assert (0 < len (q_bytes q)) as Hpos.
  { unfold q_bytes. rewrite !length_app. cbn [length CRLF]. lia. }
  rewrite (frames_of_Some _ (len (q_bytes q))).
  - rewrite Nat2Z.id, take_app_length, drop_app_length. unfold more. by rewrite IH.
  - cbn. unfold fast_frame. rewrite (parsePacketFast_request L q more Hq). by zb.
Qed.


End Requests.

(** ** Witness: two requests and the start of a third, on a server that counts them *)

#[local] Existing Instances test_Allocator test_AllocatorLaws test_EngineConn test_EngineConnLaws.

Definition count_dispatch (n : Z) (c : TConn) (req : list Z) : Z := n + 1.

Definition fast_test_input : list Z :=
  str "GET / HTTP/1.1" ++ CRLF ++ str "Content-Length: 0" ++ CRLFCRLF ++
  str "POST /x HTTP/1.1" ++ CRLF ++ str "Host: a" ++ CRLF ++ str "content-length:3" ++ CRLFCRLF ++ str "abc" ++ str "GET".

Definition fast_test_world (inp : list Z) (win : nat) : World BytesAlloctor TestEpoll (FastState Z) TConn :=
  mkW test_pool (mkTE (mkTK win 0 inp [] []) {[ 7 := 3 ]}) (mkFast ∅ 0) {[ 0%nat := test_c ]}
    (<[7%nat := Some 0%nat]> (replicate 16 None)) test_loop [].

#[local] Instance fast_test_Handler : Handler (FastState Z) TConn :=
  FastHandler (λ b, Some b) (λ r : Z, Some [r]) (λ code, code) (Some count_dispatch) (λ c, v_id (ec_view (P := BytesAlloctor) (K := TestEpoll) c)) default_limits.


(** The run of the witness: both requests are counted, the third is kept. *)
Example fast_processRead_test :
  (λ x, (fs_app (w_app (snd x)), length (w_trace (snd x)), (λ c, contents (v_recvbuf (ec_view c))) <$> w_conns (snd x) !! 0%nat)) <$>
    processRead (g_loop initial_globals) 0%nat (fast_test_world fast_test_input 2) = Some (2, 2%nat, Some (str "GET")).
Proof. vm_compute. reflexivity. Qed.
