(* ===== verification/Http.v ===== *)
(** * evhandler/{evioHttp,response}.go: HTTP requests on the event loop, with net/http types

    [ParsePacket] cuts the requests with the parser of the package wildcat, [OnData] makes a
    request of net/http and hands it to the dispatcher, [ResponseWriter] makes the bytes of a
    response.  wildcat, [url.Parse] and the application are parameters.  The contexts of the
    connections are kept by id; metrics and log messages are not modelled. *)

From stdpp Require Import strings gmap.
From S2P Require Import Prelude Text HttpUtil.

(** ** [net/http.Header] *)

Abbreviation Header := (gmap (list Z) (list (list Z))).

(** The bytes of a header key: letters, digits and some marks. *)
Definition validHeaderFieldByte (c : Z) : bool :=
  ((48 <=? c) && (c <=? 57)) || ((65 <=? c) && (c <=? 90)) || ((97 <=? c) && (c <=? 122))
  || existsb (Z.eqb c) (str "!#$%&'*+-.^_`|~").

(** [textproto.CanonicalMIMEHeaderKey] *)
Definition CanonicalHeaderKey (k : list Z) : list Z :=
  if forallb validHeaderFieldByte k then canonicalizeBytes k else k.

Definition hdr_Add (h : Header) (k v : list Z) : Header :=
  let k := CanonicalHeaderKey k in <[k := default [] (h !! k) ++ [v]]> h.
Definition hdr_Set (h : Header) (k v : list Z) : Header := <[CanonicalHeaderKey k := [v]]> h.
Definition hdr_Get (h : Header) (k : list Z) : list Z :=
  match h !! CanonicalHeaderKey k with Some (v :: _) => v | _ => [] end.
Definition hdr_Del (h : Header) (k : list Z) : Header := delete (CanonicalHeaderKey k) h.

(** ** The parser of wildcat: its exported fields, and the rest as [X] *)

Record HTTPParser (X : Type) := mkHP {
  hp_Method : list Z; hp_Path : list Z; hp_Version : list Z;
  hp_Headers : list (option (list Z) * list Z); hp_TotalHeaders : Z; hp_hidden : X;
}.
Arguments mkHP {X}. Arguments hp_Method {X}. Arguments hp_Path {X}. Arguments hp_Version {X}.
Arguments hp_Headers {X}. Arguments hp_TotalHeaders {X}. Arguments hp_hidden {X}.

Inductive ParseErr := ErrMissingData | ErrOther.

#[export] Instance ParseErr_eq : EqDecision ParseErr.
Proof. solve_decision. Defined.

Class Wildcat (X : Type) := {
  NewHTTPParser : HTTPParser X;
  Parse : HTTPParser X → list Z → HTTPParser X * (Z + ParseErr);   (* the length of the header *)
  FindAllHeaders : HTTPParser X → list Z → list (list Z);
  Host : HTTPParser X → list Z;
  ContentLength : HTTPParser X → Z;
}.

(** The header that was parsed is a part of the input, and not empty; the length is an [int64]. *)
Class WildcatLaws (X : Type) `{Wildcat X} := {
  Parse_bounds hp inp hp' hl : Parse hp inp = (hp', inl hl) → 0 < hl ≤ len inp;
  ContentLength_int hp : - 2 ^ 63 ≤ ContentLength hp < 2 ^ 63;
}.

Definition headerTransferEncoding : list Z := str "Transfer-Encoding".
Definition headerExpect : list Z := str "Expect".
Definition tokenChunked : list Z := str "chunked".
Definition tokenContinue : list Z := str "100-continue".

Definition resetHTTPParser {X} (hp : HTTPParser X) : HTTPParser X :=
  mkHP [] [] [] ((λ _, (None, [])) <$> hp_Headers hp) (len (hp_Headers hp)) (hp_hidden hp).

(** [sync.Pool], which may give any parser that was released, or a new one. *)
Definition acquireHTTPParser {X} `{Wildcat X} (pool : list (HTTPParser X)) : HTTPParser X * list (HTTPParser X) :=
  match pool with
  | hp :: pool => (resetHTTPParser hp, pool)
  | [] => (resetHTTPParser NewHTTPParser, [])
  end.

Definition releaseHTTPParser {X} (pool : list (HTTPParser X)) (hp : HTTPParser X) : list (HTTPParser X) :=
  resetHTTPParser hp :: pool.

Fixpoint ConvertHeader_loop (hs : list (option (list Z) * list Z)) (header : Header) : Header :=
  match hs with
  | [] => header
  | (None, _) :: hs => ConvertHeader_loop hs header
  | (Some name, value) :: hs => ConvertHeader_loop hs (hdr_Add header name value)
  end.

Definition ConvertHeader {X} (hp : HTTPParser X) : Header := ConvertHeader_loop (hp_Headers hp) ∅.

Definition unsupportedHeaderMarker {X} `{Wildcat X} (hp : HTTPParser X) : option (option unsupportedHTTP) :=
  chunked ← headerHasToken (FindAllHeaders hp headerTransferEncoding) tokenChunked;
  if (chunked : bool) then Some (Some unsupportedChunked)
  else
    expect ← headerHasExact (FindAllHeaders hp headerExpect) tokenContinue;
    if (expect : bool) then Some (Some unsupportedExpect) else Some None.

(** ** ConnaxisHttpHandler *)

Record Request (U : Type) := mkRequest {
  r_Method : list Z; r_URL : U; r_Proto : list Z; r_ProtoMajor : Z; r_ProtoMinor : Z;
  r_Header : option Header; r_ContentLength : Z; r_Host : list Z; r_RequestURI : list Z;
  r_RemoteAddr : list Z; r_Body : sizedBodyReader;
}.
Arguments mkRequest {U}. Arguments r_Method {U}. Arguments r_URL {U}. Arguments r_Proto {U}.
Arguments r_ProtoMajor {U}. Arguments r_ProtoMinor {U}. Arguments r_Header {U}. Arguments r_ContentLength {U}.
Arguments r_Host {U}. Arguments r_RequestURI {U}. Arguments r_RemoteAddr {U}. Arguments r_Body {U}.

(** What a connection carries between [ParsePacket] and [OnData]. *)
Inductive HttpCtx (X : Type) := CtxUnsupported (m : unsupportedHTTP) | CtxParser (hp : HTTPParser X) | CtxOther.
Arguments CtxUnsupported {X}. Arguments CtxParser {X}. Arguments CtxOther {X}.

Record HttpState (X A : Type) := mkHttp { hs_ctx : gmap Z (HttpCtx X); hs_pool : list (HTTPParser X); hs_app : A }.
Arguments mkHttp {X A}. Arguments hs_ctx {X A}. Arguments hs_pool {X A}. Arguments hs_app {X A}.

Section Handler.
Context {X A C U : Type} `{Wildcat X}.
Context (url_Parse : list Z → option U) (conn_ID : C → Z) (RemoteAddr : C → list Z) (L : HttpLimits).
(** The dispatcher, which may be missing. *)
Context (dispatch : option (A → C → Request U → A)).

Definition SetContext (c : C) (v : HttpCtx X) (s : HttpState X A) : HttpState X A :=
  mkHttp (<[conn_ID c := v]> (hs_ctx s)) (hs_pool s) (hs_app s).
Definition ClearContext (c : C) (s : HttpState X A) : HttpState X A :=
  mkHttp (delete (conn_ID c) (hs_ctx s)) (hs_pool s) (hs_app s).
Definition set_pool (pool : list (HTTPParser X)) (s : HttpState X A) : HttpState X A := mkHttp (hs_ctx s) pool (hs_app s).
Definition release (hp : HTTPParser X) (s : HttpState X A) : HttpState X A := set_pool (releaseHTTPParser (hs_pool s) hp) s.

(** [None] is a panic. *)
Definition HttpParsePacket (s : HttpState X A) (c : C) (inp : list Z) : option (HttpState X A * (Z * Z)) :=
  let '(tooLarge, headerLen) := headerTooLarge L inp in
  if (tooLarge : bool) then Some (SetContext c (CtxUnsupported unsupportedHdrLarge) s, (headerLen, headerLen))
  else
    let '(hp, pool) := acquireHTTPParser (hs_pool s) in
    let s := set_pool pool s in
    let '(hp, res) := Parse hp inp in
    match res with
    | inr err =>
        let s := release hp s in
        if decide (err = ErrMissingData) then Some (s, (0, len inp + 1)) else Some (s, (-1, -1))
    | inl hl =>
        marker ← unsupportedHeaderMarker hp;
        match marker with
        | Some m => Some (SetContext c (CtxUnsupported m) (release hp s), (hl, hl))
        | None =>
            let cl := ContentLength hp in
            if (0 <? MaxBodyBytes L) && (MaxBodyBytes L <? cl) then
              Some (SetContext c (CtxUnsupported unsupportedBodyLarge) (release hp s), (hl, hl))
            else
              let pkglen := if 0 <? cl then wrapS 64 (hl + cl) else hl in
              if pkglen <=? len inp then Some (SetContext c (CtxParser hp) s, (pkglen, pkglen))
              else Some (release hp s, (0, pkglen))
        end
    end.

Definition protoVersion (v : list Z) : Z * Z :=
  if bool_decide (v = str "HTTP/0.9") then (0, 9)
  else if bool_decide (v = str "HTTP/1.0") then (1, 0)
  else if bool_decide (v = str "HTTP/1.1") then (1, 1)
  else (0, 0).

(** The outer option is a panic, the inner one the error of [url.Parse]. *)
Definition buildRequest (c : C) (hp : HTTPParser X) (inp : list Z) : option (option (Request U)) :=
  match url_Parse (str "http://" ++ Host hp ++ hp_Path hp) with
  | None => Some None
  | Some u =>
      let '(major, minor) := protoVersion (hp_Version hp) in
      let cl := ContentLength hp in
      body ← (if 0 <? cl then
                rest ← slice inp (len inp - cl) (len inp);
                Some (mkReader cl (Some (blit (make_bytes cl) 0 rest)))
              else Some (mkReader 0 None));
      Some (Some (mkRequest (hp_Method hp) u (hp_Version hp) major minor (Some (ConvertHeader hp)) cl (Host hp) (hp_Path hp)
                    (RemoteAddr c) body))
  end.

Definition with_header (req : Request U) : Request U :=
  match r_Header req with
  | Some _ => req
  | None => mkRequest (r_Method req) (r_URL req) (r_Proto req) (r_ProtoMajor req) (r_ProtoMinor req) (Some ∅) (r_ContentLength req)
              (r_Host req) (r_RequestURI req) (r_RemoteAddr req) (r_Body req)
  end.

Definition dispatchRequest (s : HttpState X A) (c : C) (req : Request U) : HttpState X A * (list Z * bool) :=
  let req := with_header req in
  match dispatch with
  | None => (s, ([], true))
  | Some d => (mkHttp (hs_ctx s) (hs_pool s) (d (hs_app s) c req), ([], false))
  end.

Definition HttpOnData (s : HttpState X A) (c : C) (inp : list Z) : option (HttpState X A * (list Z * bool)) :=
  match hs_ctx s !! conn_ID c with
  | Some (CtxUnsupported m) => out ← httpErrorResponse (u_code m); Some (s, (out, true))
  | Some (CtxParser hp) =>
      let s := ClearContext c s in
      req ← buildRequest c hp inp;
      let '(s, res) := match req with
                       | None => (s, ([], true))
                       | Some req => dispatchRequest s c req
                       end in
      Some (release hp s, res)
  | _ => Some (s, ([], true))
  end.

End Handler.

(** ** response.go *)

Record ResponseWriter := mkRW {
  rw_body : list Z; rw_code : Z; rw_header : Header; rw_wroteHeader : bool; rw_deferred : bool;
}.

Definition rw_Init : ResponseWriter := mkRW [] 200 ∅ false false.

(** [for k := range r.header { r.header.Del(k) }] *)
Definition rw_Reset (r : ResponseWriter) : ResponseWriter :=
  mkRW [] 200 (foldl (λ h kv, hdr_Del h (fst kv)) (rw_header r) (map_to_list (rw_header r))) false false.

Definition rw_WriteHeader (r : ResponseWriter) (code : Z) : ResponseWriter :=
  if rw_wroteHeader r then r else mkRW (rw_body r) code (rw_header r) true (rw_deferred r).

Definition rw_Write (r : ResponseWriter) (buf : list Z) : ResponseWriter :=
  let r := if negb (rw_wroteHeader r) then rw_WriteHeader r (rw_code r) else r in
  mkRW (rw_body r ++ buf) (rw_code r) (rw_header r) (rw_wroteHeader r) (rw_deferred r).

Definition rw_Defer (r : ResponseWriter) : ResponseWriter :=
  mkRW (rw_body r) (rw_code r) (rw_header r) (rw_wroteHeader r) true.

(** The application changes the map that [Header] gives it. *)
Definition rw_with_header (r : ResponseWriter) (h : Header) : ResponseWriter :=
  mkRW (rw_body r) (rw_code r) h (rw_wroteHeader r) (rw_deferred r).

(** [strconv.Itoa] and the verb [%d] *)
Definition Itoa (n : Z) : list Z :=
  if n <? 0 then 45 :: default [] (itoa (- n)) else default [] (itoa n).

(** [strings.Join(v, ", ")] *)
Fixpoint Join (v : list (list Z)) : list Z :=
  match v with
  | [] => []
  | [x] => x
  | x :: v => x ++ str ", " ++ Join v
  end.

Definition header_line (kv : list Z * list (list Z)) : list Z :=
  fst kv ++ str ": " ++ (match snd kv with [v] => v | v => Join v end) ++ CRLF.

Definition KEY_CL : list Z := str "Content-Length".

(** [Bytes]: the writer, whose header may get a length, and the bytes.  [order] is the order in
    which the map is traversed. *)
Definition rw_Bytes (order : Header → list (list Z * list (list Z))) (r : ResponseWriter) : ResponseWriter * list Z :=
  let status := str "HTTP/1.1 " ++ Itoa (rw_code r) ++ str " " ++ StatusText (rw_code r) ++ CRLF in
  let r := if bool_decide (hdr_Get (rw_header r) KEY_CL = [])
           then rw_with_header r (hdr_Set (rw_header r) KEY_CL (Itoa (len (rw_body r)))) else r in
  (r, status ++ (order (rw_header r) ≫= header_line) ++ CRLF ++ rw_body r).

(** ** The dispatcher: a queue per worker goroutine

    A worker takes a job from its queue, and later finishes it; the goroutines and the calls
    of [DispatchHTTP] interleave in any order, which is a list of events. *)

Record HTTPHandlerOptions := mkOpts { opt_Workers : Z; opt_QueueSize : Z }.

Record httpJob (R : Type) := mkJob { j_conn : Z; j_req : R }.
Arguments mkJob {R}. Arguments j_conn {R}. Arguments j_req {R}.

Inductive Cmd := CMD_CLOSE (id : Z) | CMD_DATA (id : Z) (data : list Z).

Record httpHandlerDispatcher (R : Type) := mkDisp {
  d_queues : list (list (httpJob R));
  d_cap : Z;
  d_busy : list (option (httpJob R * ResponseWriter));
  d_rwPool : list ResponseWriter;
  d_cmds : list Cmd;                  (* [AddCmd], in order *)
  d_accepted : list (httpJob R);      (* the jobs that were put into a queue *)
  d_done : list (httpJob R);          (* those that were served *)
}.
Arguments mkDisp {R}. Arguments d_queues {R}. Arguments d_cap {R}. Arguments d_busy {R}. Arguments d_rwPool {R}.
Arguments d_cmds {R}. Arguments d_accepted {R}. Arguments d_done {R}.

(** The numbers of workers and of places in a queue. *)
Definition dispatcher_size (gomaxprocs : Z) (opts : HTTPHandlerOptions) : Z * Z :=
  let workers := opt_Workers opts in
  let workers := if workers <=? 0 then gomaxprocs else workers in
  let workers := if workers <? 1 then 1 else workers in
  let queueSize := opt_QueueSize opts in
  let queueSize := if queueSize <=? 0 then 1024 else queueSize in
  (workers, queueSize).

Definition NewHTTPHandlerDispatcher {R} (gomaxprocs : Z) (opts : HTTPHandlerOptions) : httpHandlerDispatcher R :=
  let '(workers, queueSize) := dispatcher_size gomaxprocs opts in
  mkDisp (replicate (Z.to_nat workers) []) queueSize (replicate (Z.to_nat workers) None) [] [] [] [].

Inductive DEvent (R : Type) :=
| DispatchHTTP (job : httpJob R)
| TakeJob (i : nat)                   (* worker [i] receives a job and takes a writer of the pool *)
| ServeJob (i : nat).                 (* worker [i] finishes [serve] *)
Arguments DispatchHTTP {R}. Arguments TakeJob {R}. Arguments ServeJob {R}.

Section Dispatcher.
Context {R : Type}.
(** The handler of the application: the writer it leaves, and whether it panicked. *)
Context (ServeHTTP : ResponseWriter → R → ResponseWriter * bool).
Context (order : Header → list (list Z * list (list Z))).

(** [int(c.ID() % uint64(len(d.queues)))] *)
Definition worker_of (n : nat) (id : Z) : nat := Z.to_nat (id mod Z.of_nat n).

(** [serve], from the writer that was taken: the writer and the commands. *)
Definition serve (w : ResponseWriter) (job : httpJob R) : ResponseWriter * list Cmd :=
  let '(w, panicked) := ServeHTTP w (j_req job) in
  if (panicked : bool) then (w, [CMD_DATA (j_conn job) (default [] (httpErrorResponse 500))])
  else if rw_deferred w then (w, [])
  else let '(w, out) := rw_Bytes order w in (w, [CMD_DATA (j_conn job) out]).

Definition dstep (d : httpHandlerDispatcher R) (e : DEvent R) : httpHandlerDispatcher R :=
  match e with
  | DispatchHTTP job =>
      let i := worker_of (length (d_queues d)) (j_conn job) in
      match d_queues d !! i with
      | None => d                     (* no queue: the dispatcher has one at least *)
      | Some q =>
          if len q <? d_cap d then
            mkDisp (<[i := q ++ [job]]> (d_queues d)) (d_cap d) (d_busy d) (d_rwPool d) (d_cmds d) (d_accepted d ++ [job]) (d_done d)
          else mkDisp (d_queues d) (d_cap d) (d_busy d) (d_rwPool d) (d_cmds d ++ [CMD_CLOSE (j_conn job)]) (d_accepted d) (d_done d)
      end
  | TakeJob i =>
      match d_queues d !! i, d_busy d !! i with
      | Some (job :: q), Some None =>
          let '(w, pool) := match d_rwPool d with w :: pool => (w, pool) | [] => (rw_Init, []) end in
          mkDisp (<[i := q]> (d_queues d)) (d_cap d) (<[i := Some (job, rw_Reset w)]> (d_busy d)) pool (d_cmds d) (d_accepted d) (d_done d)
      | _, _ => d
      end
  | ServeJob i =>
      match d_busy d !! i with
      | Some (Some (job, w)) =>
          let '(w, cmds) := serve w job in
          mkDisp (d_queues d) (d_cap d) (<[i := None]> (d_busy d)) (w :: d_rwPool d) (d_cmds d ++ cmds) (d_accepted d) (d_done d ++ [job])
      | _ => d
      end
  end.

Definition drun (evs : list (DEvent R)) (d : httpHandlerDispatcher R) : httpHandlerDispatcher R := foldl dstep d evs.

End Dispatcher.

(** ** Requests and their bodies *)

Lemma unsupportedHeaderMarker_total {X} `{Wildcat X} (hp : HTTPParser X) : is_Some (unsupportedHeaderMarker hp).
Proof.
  unfold unsupportedHeaderMarker. rewrite headerHasToken_spec, headerHasExact_spec. cbn [mbind option_bind].
  repeat case_match; done.
Qed.

Lemma headerTooLarge_bounds L inp n : headerTooLarge L inp = (true, n) → 0 < n ≤ len inp.
Proof.
  unfold headerTooLarge. intros E. pose proof (Index_fits inp CRLFCRLF) as Hf. change (len CRLFCRLF) with 4 in Hf.
  repeat (case_match; simplify_eq; try lia).
Qed.

Section HandlerFacts.
Context {X A C U : Type} `{WL : WildcatLaws X}.
Context (url_Parse : list Z → option U) (conn_ID : C → Z) (RemoteAddr : C → list Z) (L : HttpLimits) (dispatch : option (A → C → Request U → A)).

Abbreviation parse := (HttpParsePacket (A := A) conn_ID L).
Abbreviation ondata := (HttpOnData url_Parse conn_ID RemoteAddr dispatch).

(** What [ParsePacket] leaves for [OnData] when it finds a packet of [n] bytes. *)
Definition left_for (inp : list Z) (n : Z) (v : HttpCtx X) : Prop :=
  match v with
  | CtxUnsupported m => u_code m ∈ [501; 417; 431; 413]
  | CtxParser hp => ∃ hl hp0, Parse hp0 inp = (hp, inl hl) ∧ 0 < hl ≤ n ∧ n = hl + Z.max 0 (ContentLength hp)
  | CtxOther => False
  end.

Lemma lookup_SetContext c v (s : HttpState X A) : hs_ctx (SetContext conn_ID c v s) !! conn_ID c = Some v.
Proof. apply lookup_insert_eq. Qed.

Lemma unsupportedHeaderMarker_code (hp : HTTPParser X) m :
  unsupportedHeaderMarker hp = Some (Some m) → u_code m ∈ [501; 417; 431; 413].
Proof.
  unfold unsupportedHeaderMarker. rewrite headerHasToken_spec, headerHasExact_spec. cbn [mbind option_bind].
  intros E. repeat case_match; simplify_eq; set_solver.
Qed.

Lemma HttpParsePacket_spec (s : HttpState X A) (c : C) inp : len inp < 2 ^ 62 →
  ∃ s' n e, parse s c inp = Some (s', (n, e)) ∧ hs_app s' = hs_app s ∧ n ≤ len inp ∧
    (0 < n → n = e ∧ ∃ v, hs_ctx s' !! conn_ID c = Some v ∧ left_for inp n v).
Proof.
  intros Hlen. unfold HttpParsePacket. destruct (headerTooLarge L inp) as [[] hl] eqn:Et.
  { apply headerTooLarge_bounds in Et. eexists _, _, _. split; [done|]. split; [done|]. split; [lia|]. intros _. split; [done|].
    rewrite lookup_SetContext. eexists. split; [done|]. simpl. set_solver. }
  destruct (acquireHTTPParser _) as [hp0 pool]. destruct (Parse hp0 inp) as [hp [n|err]] eqn:Ep.
  2:{ case_decide; eexists _, _, _; (split; [done|]); (split; [done|]); lia. }
  pose proof (Parse_bounds _ _ _ _ Ep) as Hb. pose proof (ContentLength_int hp) as Hc.
  destruct (unsupportedHeaderMarker hp) as [marker|] eqn:Em; [|by destruct (unsupportedHeaderMarker_total hp); congruence].
  cbn [mbind option_bind]. destruct marker as [m|].
  { eexists _, _, _. split; [done|]. split; [done|]. split; [lia|]. intros _. split; [done|]. rewrite lookup_SetContext. eexists.
    split; [done|]. by apply (unsupportedHeaderMarker_code hp). }
  destruct (_ && _).
  { eexists _, _, _. split; [done|]. split; [done|]. split; [lia|]. intros _. split; [done|]. rewrite lookup_SetContext. eexists.
    split; [done|]. simpl. set_solver. }
  set (pkg := if 0 <? ContentLength hp then _ else _).
  destruct (Z.leb_spec pkg (len inp)); (eexists _, _, _; (split; [done|]); (split; [done|]); split; [lia|]); [|lia].
  intros Hpos. split; [done|]. rewrite lookup_SetContext. eexists. split; [done|]. exists n, hp0. split; [done|].
  cut (pkg = n + Z.max 0 (ContentLength hp)); [lia|]. unfold pkg in *. destruct (Z.ltb_spec 0 (ContentLength hp)); [|lia].
  destruct (decide (n + ContentLength hp < 2 ^ 63)); [rewrite wrapS_small by lia; lia|]. exfalso.
  unfold wrapS in Hpos. change (2 ^ (64 - 1)) with (2 ^ 63) in Hpos.
  assert ((n + ContentLength hp + 2 ^ 63) mod 2 ^ 64 = n + ContentLength hp - 2 ^ 63) as E; [|lia].
  symmetry. apply (Z.mod_unique_pos _ _ 1); lia.
Qed.

(** The reader of a body; an empty body has no buffer. *)
Definition body_reader (b : list Z) : sizedBodyReader := if len b =? 0 then mkReader 0 None else mkReader (len b) (Some b).

Definition request_of (c : C) (hp : HTTPParser X) (u : U) (body : list Z) : Request U :=
  mkRequest (hp_Method hp) u (hp_Version hp) (protoVersion (hp_Version hp)).1 (protoVersion (hp_Version hp)).2
    (Some (ConvertHeader hp)) (ContentLength hp) (Host hp) (hp_Path hp) (RemoteAddr c) (body_reader body).

(** The body is what follows the header; it is never taken from outside of the packet. *)
Lemma buildRequest_spec c hp hdr body : len body = Z.max 0 (ContentLength hp) →
  buildRequest url_Parse RemoteAddr c hp (hdr ++ body) =
  Some ((λ u, request_of c hp u body) <$> url_Parse (str "http://" ++ Host hp ++ hp_Path hp)).
Proof.
  intros Hl. unfold buildRequest. destruct (url_Parse _) as [u|]; [|done]. unfold request_of. cbn [fmap option_fmap option_map].
  destruct (protoVersion (hp_Version hp)) as [major minor]. unfold body_reader. destruct (Z.ltb_spec 0 (ContentLength hp)).
  - rewrite slice_Some by llia. cbn [mbind option_bind]. replace (len body =? 0) with false by lia. do 4 f_equal; [lia|].
    f_equal. rewrite sub_suffix by llia. replace (Z.to_nat (len (hdr ++ body) - ContentLength hp)) with (length hdr) by llia.
    rewrite drop_app_length. assert (length (make_bytes (ContentLength hp)) = length body) as Hm.
    { pose proof (length_make_bytes (ContentLength hp)). lia. }
    rewrite blit_front by lia. rewrite drop_ge by lia. apply app_nil_r.
  - replace (len body =? 0) with true by lia. done.
Qed.

(** C17: a packet that [ParsePacket] finds is within the data, and [OnData] serves it without a
    panic: it is either refused, with the error response of a code and the connection closed,
    or the application gets the request that the parser found, whose body is exactly the bytes
    between its header and the end of the packet; when its URL is invalid or there is no
    dispatcher, the connection is closed.  Data below 2^62 bytes, as the receive buffer holds. *)
Theorem http_packet_served (s : HttpState X A) (c : C) (inp : list Z) :
  len inp < 2 ^ 62 →
  ∃ s1 n e, parse s c inp = Some (s1, (n, e)) ∧ n ≤ len inp ∧
    (0 < n → n = e ∧ ∃ s2 out close, ondata s1 c (take (Z.to_nat n) inp) = Some (s2, (out, close)) ∧
      ((∃ code, code ∈ [501; 417; 431; 413] ∧ httpErrorResponse code = Some out ∧ close = true ∧ hs_app s2 = hs_app s) ∨
       ∃ hp0 hp hl, Parse hp0 inp = (hp, inl hl) ∧ n = hl + Z.max 0 (ContentLength hp) ∧ out = [] ∧
         match url_Parse (str "http://" ++ Host hp ++ hp_Path hp), dispatch with
         | Some u, Some d => close = false ∧
             hs_app s2 = d (hs_app s) c (request_of c hp u (drop (Z.to_nat hl) (take (Z.to_nat n) inp)))
         | _, _ => close = true ∧ hs_app s2 = hs_app s
         end)).
Proof.
  intros Hlen. destruct (HttpParsePacket_spec s c inp Hlen) as (s1 & n & e & E & Ha & Hn & Hpos). exists s1, n, e.
  split; [done|]. split; [done|]. intros H0. destruct (Hpos H0) as (-> & v & Hv & Hleft). split; [done|]. unfold HttpOnData. rewrite Hv.
  destruct v as [m|hp|]; [| |done].
  - destruct (httpErrorResponse_spec (u_code m)) as (code' & text & cs & ls & Hr & _). eexists s1, _, true. rewrite Hr. split; [done|].
    left. exists (u_code m). split; [done|]. split; [by rewrite Hr|done].
  - destruct Hleft as (hl & hp0 & Hp & Hhl & He). rename e into n.
    pose proof (buildRequest_spec c hp (take (Z.to_nat hl) (take (Z.to_nat n) inp)) (drop (Z.to_nat hl) (take (Z.to_nat n) inp))
      ltac:(rewrite length_drop, length_take; lia)) as Hb. rewrite take_drop in Hb. rewrite Hb. cbn [mbind option_bind].
    destruct (url_Parse _) as [u|] eqn:Eu; cbn [fmap option_fmap option_map].
    + unfold dispatchRequest. destruct dispatch as [d|]; (eexists _, _, _; split; [done|right]); exists hp0, hp, hl;
        (split; [done|]); (split; [done|]); (split; [done|]); rewrite Eu; (split; [done|]); [simpl; by rewrite Ha|done].
    + eexists _, _, _. split; [done|right]. exists hp0, hp, hl. split; [done|]. split; [done|]. split; [done|]. by rewrite Eu.
Qed.

End HandlerFacts.

(** ** Headers and pooled writers *)

Lemma canonicalize_valid_from k : ∀ upper, forallb validHeaderFieldByte k = true →
  forallb validHeaderFieldByte (canonicalize_from upper k) = true.
Proof.
  induction k as [|c k IH]; intros upper Hv; [done|].
  cbn [canonicalize_from forallb] in *. apply andb_true_iff in Hv as [Hc Hv]. rewrite IH by done. rewrite andb_true_r.
  unfold validHeaderFieldByte in *. repeat case_match; first [done | blia].
Qed.

Lemma canonicalize_valid k : forallb validHeaderFieldByte k = true → forallb validHeaderFieldByte (canonicalizeBytes k) = true.
Proof. apply canonicalize_valid_from. Qed.

Lemma CanonicalHeaderKey_idem k : CanonicalHeaderKey (CanonicalHeaderKey k) = CanonicalHeaderKey k.
Proof.
  unfold CanonicalHeaderKey at 2 3. destruct (forallb validHeaderFieldByte k) eqn:E; unfold CanonicalHeaderKey.
  - by rewrite canonicalize_valid, canonicalize_idem.
  - by rewrite E.
Qed.

(** What [Set], [Add] and [Del] leave, but not every assignment to the map. *)
Definition canon_keys (h : Header) : Prop := map_Forall (λ k _, CanonicalHeaderKey k = k) h.

Lemma canon_Set h k v : canon_keys h → canon_keys (hdr_Set h k v).
Proof. intros Hc. apply map_Forall_insert_2; [apply CanonicalHeaderKey_idem|done]. Qed.

Lemma canon_Add h k v : canon_keys h → canon_keys (hdr_Add h k v).
Proof. intros Hc. apply map_Forall_insert_2; [apply CanonicalHeaderKey_idem|done]. Qed.

Lemma lookup_Del_all (kvs : list (list Z * list (list Z))) : ∀ (h : Header) k,
  foldl (λ h kv, hdr_Del h (fst kv)) h kvs !! k =
  if decide (k ∈ (λ kv, CanonicalHeaderKey (fst kv)) <$> kvs) then None else h !! k.
Proof.
  induction kvs as [|[k0 v0] kvs IH]; intros h k; [done|]. cbn [foldl fmap list_fmap fst]. rewrite IH.
  unfold hdr_Del. case_decide as H1; [rewrite decide_True by (by apply elem_of_cons; right); done|].
  rewrite (lookup_delete h (CanonicalHeaderKey k0) k). repeat case_decide; rewrite ?elem_of_cons in *; naive_solver.
Qed.

(** [Reset] makes a writer as new if its header keys are canonical. *)
Lemma Reset_new r : canon_keys (rw_header r) → rw_Reset r = rw_Init.
Proof.
  intros Hc. unfold rw_Reset, rw_Init. f_equal. apply map_eq. intros k. rewrite lookup_empty, lookup_Del_all.
  case_decide as Hk; [done|]. destruct (rw_header r !! k) as [v|] eqn:E; [|done]. exfalso. apply Hk.
  apply list_elem_of_fmap. exists (k, v). split; [symmetry; exact (Hc k v E)|by apply elem_of_map_to_list].
Qed.

(** A key that was put into the map as it is, in lower case, is still there after [Reset]. *)
Example Reset_keeps_lower_case :
  rw_header (rw_Reset (rw_with_header rw_Init {[ str "x-user" := [str "a"] ]})) = {[ str "x-user" := [str "a"] ]}.
Proof. vm_compute. reflexivity. Qed.

Lemma rw_Write_spec r buf : rw_body (rw_Write r buf) = rw_body r ++ buf ∧ rw_code (rw_Write r buf) = rw_code r ∧
  rw_wroteHeader (rw_Write r buf) = true ∧ rw_header (rw_Write r buf) = rw_header r ∧
  (∀ code, rw_WriteHeader (rw_Write r buf) code = rw_Write r buf).
Proof. unfold rw_Write, rw_WriteHeader. destruct r as [body code h [] def]; done. Qed.

(** The header of a response has the length of its body, unless the application set another. *)
Lemma Bytes_length order r :
  hdr_Get (rw_header r) KEY_CL = [] → hdr_Get (rw_header (rw_Bytes order r).1) KEY_CL = Itoa (len (rw_body r)).
Proof.
  intros E. unfold rw_Bytes. rewrite bool_decide_eq_true_2 by done. cbn [fst rw_header rw_with_header].
  unfold hdr_Get, hdr_Set. by rewrite lookup_insert_eq.
Qed.

(** ** The order of responses *)

Section Order.
Context {R : Type} (ServeHTTP : ResponseWriter → R → ResponseWriter * bool) (order : Header → list (list Z * list (list Z))).
(** The handler changes the header with the methods of [http.Header]. *)
Hypothesis handler_canon : ∀ w q, canon_keys (rw_header w) → canon_keys (rw_header (ServeHTTP w q).1).

(** The commands of a job on a new writer. *)
Definition reply (job : httpJob R) : list Cmd := (serve ServeHTTP order rw_Init job).2.

Definition is_data (c : Cmd) : Prop := match c with CMD_DATA _ _ => True | CMD_CLOSE _ => False end.
Definition cmd_conn (c : Cmd) : Z := match c with CMD_DATA id _ | CMD_CLOSE id => id end.

#[export] Instance is_data_dec c : Decision (is_data c).
Proof. destruct c; apply _. Defined.

Definition on_worker (n i : nat) (job : httpJob R) : Prop := worker_of n (j_conn job) = i.
#[local] Instance on_worker_dec n i job : Decision (on_worker n i job).
Proof. unfold on_worker. apply _. Defined.

Definition busy_job (b : option (httpJob R * ResponseWriter)) : list (httpJob R) := match b with Some (j, _) => [j] | None => [] end.

Record dinv (n : nat) (d : httpHandlerDispatcher R) : Prop := {
  di_n : (0 < n)%nat; di_queues : length (d_queues d) = n; di_busy : length (d_busy d) = n; di_cap : 0 < d_cap d;
  di_pool : Forall (λ w, canon_keys (rw_header w)) (d_rwPool d);
  di_writer i j w : d_busy d !! i = Some (Some (j, w)) → w = rw_Init;
  di_fifo i q b : d_queues d !! i = Some q → d_busy d !! i = Some b →
    filter (on_worker n i) (d_accepted d) = filter (on_worker n i) (d_done d) ++ busy_job b ++ q ∧ len q ≤ d_cap d ∧
    Forall (on_worker n i) (busy_job b ++ q);
  di_cmds : filter is_data (d_cmds d) = d_done d ≫= reply;
}.

Lemma serve_canon job : canon_keys (rw_header (serve ServeHTTP order rw_Init job).1).
Proof.
  unfold serve. pose proof (handler_canon rw_Init (j_req job) (map_Forall_empty _)) as H. destruct (ServeHTTP _ _) as [w p].
  destruct p; [done|]. destruct (rw_deferred w); [done|]. unfold rw_Bytes. case_bool_decide; [|done]. by apply canon_Set.
Qed.

Lemma reply_conn job : Forall (λ c, is_data c ∧ cmd_conn c = j_conn job) (reply job).
Proof.
  unfold reply, serve. destruct (ServeHTTP _ _) as [w []]; [by repeat constructor|]. destruct (rw_deferred w); [constructor|].
  destruct (rw_Bytes _ _). by repeat constructor.
Qed.

Lemma worker_of_lt n id : (0 < n)%nat → (worker_of n id < n)%nat.
Proof. intros Hn. unfold worker_of. pose proof (Z.mod_pos_bound id (Z.of_nat n)). lia. Qed.

Lemma New_inv gomaxprocs opts : ∃ n, dinv n (NewHTTPHandlerDispatcher gomaxprocs opts).
Proof.
  unfold NewHTTPHandlerDispatcher, dispatcher_size. cbn zeta.
  set (ws := if _ <? 1 then 1 else _). set (qs := if _ <=? 0 then 1024 else _).
  assert (1 ≤ ws) by (unfold ws; repeat case_match; lia). assert (0 < qs) by (unfold qs; repeat case_match; lia).
  exists (Z.to_nat ws). split; cbn; rewrite ?length_replicate; try done; try lia.
  - intros i j w E. apply lookup_replicate in E as [E _]. done.
  - intros i q b Hq Hb. apply lookup_replicate in Hq as [-> _]. apply lookup_replicate in Hb as [-> _]. split; [done|]. split; [cbn; lia|constructor].
Qed.

Lemma Dispatch_inv n d job : dinv n d → dinv n (dstep ServeHTTP order d (DispatchHTTP job)).
Proof.
  intros [Hn Hq Hb Hcap Hp Hw Hf Hc]. cbn [dstep]. rewrite Hq. set (i := worker_of n (j_conn job)).
  destruct (d_queues d !! i) as [q|] eqn:Ei; [|by split].
  destruct (Z.ltb_spec (len q) (d_cap d)); (split; cbn; rewrite ?length_insert; try done).
  2:{ rewrite list.filter_app. cbn. rewrite app_nil_r. done. }
  intros i' q' b Hq' Hb'. rewrite list.filter_app, filter_cons, filter_nil.
  rewrite list_lookup_insert in Hq'. case_decide as Hi.
  - destruct Hi as [<- Hi]. injection Hq' as <-. destruct (Hf i q b Ei Hb') as (-> & Hl & Ho). rewrite decide_True by done.
    rewrite <-!app_assoc. split; [done|]. split; [rewrite length_app; cbn; lia|]. rewrite app_assoc. apply Forall_app. split; [done|]. by constructor.
  - destruct (Hf i' q' b Hq' Hb') as (-> & Hl & Ho). rewrite decide_False; [by rewrite app_nil_r|]. intros E. apply Hi. split; [done|].
    by apply lookup_lt_Some in Ei.
Qed.

Lemma Take_inv n d i : dinv n d → dinv n (dstep ServeHTTP order d (TakeJob i)).
Proof.
  intros [Hn Hq Hb Hcap Hp Hw Hf Hc]. cbn [dstep]. destruct (d_queues d !! i) as [[|job q]|] eqn:Ei; [by split| |by split].
  destruct (d_busy d !! i) as [[|]|] eqn:Eb; [by split| |by split].
  set (wp := match d_rwPool d with [] => _ | _ :: _ => _ end).
  assert (canon_keys (rw_header wp.1) ∧ Forall (λ w, canon_keys (rw_header w)) wp.2) as [Hwc Hpc].
  { unfold wp. destruct Hp as [|w pool Hw0 Hp]; [|done]. split; [apply map_Forall_empty|constructor]. }
  destruct wp as [w pool]. cbn [fst snd] in *. rewrite (Reset_new w Hwc).
  split; cbn; rewrite ?length_insert; try done.
  - intros i' j w'. rewrite list_lookup_insert. case_decide; [by intros [= _ <-]|apply Hw].
  - intros i' q' b'. rewrite !list_lookup_insert. apply lookup_lt_Some in Ei as Hi1. apply lookup_lt_Some in Eb as Hi2. case_decide as Hi.
    + destruct Hi as [<- _]. rewrite decide_True by done. intros [= <-] [= <-]. destruct (Hf i _ _ Ei Eb) as (-> & Hl & Ho).
      split; [done|]. split; [cbn in Hl; lia|done].
    + rewrite decide_False by (intros [-> _]; by apply Hi). apply Hf.
Qed.

Lemma Serve_inv n d i : dinv n d → dinv n (dstep ServeHTTP order d (ServeJob i)).
Proof.
  intros [Hn Hq Hb Hcap Hp Hw Hf Hc]. cbn [dstep]. destruct (d_busy d !! i) as [[[job w]|]|] eqn:Eb; [|by split|by split].
  rewrite (Hw i job w Eb). pose proof (serve_canon job) as Hsc. pose proof (reply_conn job) as Hr. unfold reply in Hr.
  assert (reply job = (serve ServeHTTP order rw_Init job).2) as Hrep by done.
  destruct (serve ServeHTTP order rw_Init job) as [w' cmds]. cbn [fst snd] in *.
  split; cbn; rewrite ?length_insert; try done.
  - by constructor.
  - intros i' j w0. rewrite list_lookup_insert. case_decide; [done|apply Hw].
  - intros i' q' b' Hq'. rewrite list_lookup_insert, list.filter_app, filter_cons, filter_nil. apply lookup_lt_Some in Eb as Hi2. case_decide as Hi.
    + destruct Hi as [<- _]. intros [= <-]. destruct (Hf i _ _ Hq' Eb) as (-> & Hl & Ho). cbn in Ho. apply list.Forall_cons in Ho as [Hj Ho].
      rewrite decide_True by done. by rewrite <-app_assoc.
    + intros Hb'. destruct (Hf i' _ _ Hq' Hb') as (-> & Hl & Ho). rewrite decide_False; [by rewrite app_nil_r|].
      assert (i < length (d_queues d))%nat as [q Hqi]%lookup_lt_is_Some by lia. destruct (Hf i q _ Hqi Eb) as (_ & _ & Ho').
      cbn in Ho'. apply list.Forall_cons in Ho' as [Hj _]. unfold on_worker in *. intros E. apply Hi. split; [congruence|done].
  - rewrite list.filter_app, bind_app. cbn. rewrite app_nil_r, Hc, Hrep. f_equal. clear -Hr. induction Hr as [|c l [Hd _] _ IH]; [done|].
    rewrite filter_cons_True by done. by rewrite IH.
Qed.

Lemma drun_inv n evs d : dinv n d → dinv n (drun ServeHTTP order evs d).
Proof.
  revert d. induction evs as [|e evs IH]; intros d Hd; [done|]. cbn [drun foldl]. apply IH.
  destruct e; [by apply Dispatch_inv|by apply Take_inv|by apply Serve_inv].
Qed.

(** The commands for a connection are the replies to its jobs. *)
Lemma replies_of id jobs :
  filter (λ c, cmd_conn c = id) (jobs ≫= reply) = filter (λ j : httpJob R, j_conn j = id) jobs ≫= reply.
Proof.
  induction jobs as [|job jobs IH]; [done|]. cbn [mbind list_bind]. rewrite list.filter_app, IH, filter_cons.
  assert (filter (λ c, cmd_conn c = id) (reply job) = if decide (j_conn job = id) then reply job else []) as ->; [|by case_decide].
  induction (reply_conn job) as [|c l [_ Hc] _ IHl]; [by case_decide|]. rewrite filter_cons, Hc, IHl. by case_decide.
Qed.


End Order.

(** ** Witnesses *)

(** A parser that looks for the end of the header, and takes the byte before it as the length. *)
Definition toy_Parse (hp : HTTPParser Z) (inp : list Z) : HTTPParser Z * (Z + ParseErr) :=
  let i := Index inp CRLFCRLF in
  if i <? 0 then (hp, inr ErrMissingData)
  else (mkHP (str "POST") (str "/x") (str "HTTP/1.1") [(Some (str "a"), str "b")] 1 (default 0 (index inp (i - 1)) - 48), inl (i + 4)).

#[local] Instance toy_Wildcat : Wildcat Z := {
  NewHTTPParser := mkHP [] [] [] [] 0 0; Parse := toy_Parse; FindAllHeaders hp name := []; Host hp := str "h";
  ContentLength hp := wrapS 64 (hp_hidden hp) }.

#[local] Instance toy_WildcatLaws : WildcatLaws Z.
Proof.
  split.
  - intros hp inp hp' hl. cbn. unfold toy_Parse. destruct (Z.ltb_spec (Index inp CRLFCRLF) 0); [done|]. intros [= _ <-].
    pose proof (Index_fits inp CRLFCRLF ltac:(lia)) as Hf. change (len CRLFCRLF) with 4 in Hf. lia.
  - intros hp. cbn. unfold wrapS. pose proof (Z.mod_pos_bound (hp_hidden hp + 2 ^ (64 - 1)) (2 ^ 64)). lia.
Defined.

Definition toy_input : list Z := str "3" ++ CRLFCRLF ++ str "abcde".
Definition toy_dispatch (n : list Z) (c : Z) (req : Request (list Z)) : list Z := default [] (br_rest (r_Body req)).

Lemma http_packet_served_witness :
  ∃ s1 n e, HttpParsePacket (λ c, c) default_limits (mkHttp ∅ [] []) 5 toy_input = Some (s1, (n, e)) ∧ n ≤ len toy_input ∧
    (0 < n → n = e ∧ ∃ s2 out close, HttpOnData (λ u, Some u) (λ c, c) (λ c, []) (Some toy_dispatch) s1 5 (take (Z.to_nat n) toy_input) = Some (s2, (out, close)) ∧
      ((∃ code, code ∈ [501; 417; 431; 413] ∧ httpErrorResponse code = Some out ∧ close = true ∧ hs_app s2 = []) ∨
       ∃ hp0 hp hl, Parse hp0 toy_input = (hp, inl hl) ∧ n = hl + Z.max 0 (ContentLength hp) ∧ out = [] ∧
         (close = false ∧ hs_app s2 = toy_dispatch [] 5 (request_of (λ c, []) 5 hp (str "http://" ++ Host hp ++ hp_Path hp)
            (drop (Z.to_nat hl) (take (Z.to_nat n) toy_input)))))).
Proof.
  apply (http_packet_served (λ u, Some u) (λ c, c) (λ c, []) default_limits (Some toy_dispatch) (mkHttp ∅ [] []) 5 toy_input).
  vm_compute. reflexivity.
Defined.

(** The run of the witness: the application gets the three bytes. *)
Example toy_run :
  (r1 ← HttpParsePacket (λ c, c) default_limits (mkHttp ∅ [] []) 5 toy_input;
   r2 ← HttpOnData (λ u, Some u) (λ c, c) (λ c, []) (Some toy_dispatch) r1.1 5 (take (Z.to_nat r1.2.1) toy_input);
   Some (r1.2, hs_app r2.1, r2.2)) = Some ((8, 8), str "abc", ([], false)).
Proof. vm_compute. reflexivity. Qed.

Definition toy_handler (w : ResponseWriter) (q : list Z) : ResponseWriter * bool :=
  (rw_Write (rw_with_header w (hdr_Set (rw_header w) (str "x-id") q)) q, bool_decide (q = [0])).

Definition toy_evs : list (DEvent (list Z)) :=
  [DispatchHTTP (mkJob 1 [7]); TakeJob 1; DispatchHTTP (mkJob 3 [0]); DispatchHTTP (mkJob 1 [8]); DispatchHTTP (mkJob 1 [9]); ServeJob 1; TakeJob 1; ServeJob 1].


(** The run of the witness: one request is rejected, the handler's panic is answered with 500. *)
Example toy_dispatch_run :
  let d := drun toy_handler map_to_list toy_evs (NewHTTPHandlerDispatcher 1 (mkOpts 2 2)) in
  (d_cmds d, length (d_accepted d)) =
  ([CMD_CLOSE 1;
    CMD_DATA 1 (str "HTTP/1.1 200 OK" ++ CRLF ++ str "Content-Length: 1" ++ CRLF ++ str "X-Id: " ++ [7] ++ CRLFCRLF ++ [7]);
    CMD_DATA 3 (default [] (httpErrorResponse 500))], 3%nat).
Proof. vm_compute. reflexivity. Qed.
