(* ===== verification/HttpWs.v ===== *)
(** * evhandler/{evioHttpWs,evioTcpHttpWs}.go: HTTP, websocket and TCP on one port

    [ConnaxisHttpWsHandler] serves HTTP requests and switches a connection to websocket when a
    request asks for it; [ConnaxisTcpHttpWsHandler] looks at the first bytes of a connection and
    gives it to the former or to a handler of the application.  They keep the packet handler of
    each connection and count the connections of each protocol.  The websocket handler and the
    TCP handler are used through classes; the calls of the loops are atomic steps. *)

From stdpp Require Import strings gmap sets fin_map_dom.
From S2P Require Import Prelude Text HttpUtil Http.

(** ** Which protocol a connection speaks *)

Inductive connMode := connModeUnknown | connModeHTTP | connModeWS | connModeTCP.

#[export] Instance connMode_eq : EqDecision connMode.
Proof. solve_decision. Defined.

Definition httpMethods : list (list Z) :=
  [str "GET"; str "POST"; str "PUT"; str "PATCH"; str "DELETE"; str "HEAD"; str "OPTIONS"; str "CONNECT"; str "TRACE"].

(** The inner loops: [in[i] != method[i]] for no [i < len(in)]. *)
Fixpoint bytes_match (inp method : list Z) : bool :=
  match inp, method with
  | [], _ => true
  | x :: inp, y :: method => if negb (x =? y) then false else bytes_match inp method
  | _ :: _, [] => false
  end.

Definition isHTTPMethodPrefix (inp : list Z) : bool :=
  if len inp =? 0 then true
  else existsb (λ method, if len method <? len inp then false else bytes_match inp method) httpMethods.

Definition isHTTPMethod (inp : list Z) : bool :=
  existsb (λ method, if negb (len inp =? len method) then false else bytes_match inp method) httpMethods.

(** The loop over the first bytes: [inl methodEnd], or [inr tt] for the return of [connModeTCP]. *)
Fixpoint method_end (l : list Z) (i : Z) : Z + unit :=
  match l with
  | [] => inl (-1)
  | ch :: l => if ch =? SP then inl i else if (ch <? 65) || (90 <? ch) then inr tt else method_end l (i + 1)
  end.

Definition sniffProtoByFirstLine (inp : list Z) : connMode * Z :=
  if len inp =? 0 then (connModeUnknown, 1)
  else
    let limit := if 16 <? len inp then 16 else len inp in
    match method_end (take (Z.to_nat limit) inp) 0 with
    | inr _ => (connModeTCP, 0)
    | inl methodEnd =>
        if methodEnd =? -1 then
          if limit <? len inp then (connModeTCP, 0)
          else if isHTTPMethodPrefix (take (Z.to_nat limit) inp) then (connModeUnknown, len inp + 1)
          else (connModeTCP, 0)
        else if isHTTPMethod (take (Z.to_nat methodEnd) inp) then (connModeHTTP, 0)
        else (connModeTCP, 0)
    end.

(** ** The parts it is made of *)

(** [websocket.WsHandler]; [we_new] makes a fresh [WsClient] the context of the connection. *)
Class WsEngine (W C : Type) := {
  we_new : W → C → W;
  we_ParsePacket : W → C → list Z → option (W * (Z * Z));
  we_OnData : W → C → list Z → option (W * (list Z * bool));
  we_OnClosed : W → C → W;
}.

(** [TcpProtoHandler], of the application. *)
Class TcpProto (TS C : Type) := {
  tcp_ParsePacket : TS → C → list Z → TS * (Z * Z);
  tcp_OnData : TS → C → list Z → TS * (list Z * bool);
  tcp_OnConnected : TS → C → TS;
  tcp_OnClosed : TS → C → TS;
}.

(** The packet handlers a connection can have. *)
Inductive PktHandler := PktTcpHttpWs | PktHttpWs | PktWs | PktTcp.

#[export] Instance PktHandler_eq : EqDecision PktHandler.
Proof. solve_decision. Defined.

(** The fields of both handlers, the packet handlers of the connections by id, and the state
    of the parts. *)
Record Mux (X A C W TS : Type) := mkMux {
  m_clis : gmap Z C; m_wsID : gset Z; m_online : Z; m_wsOnline : Z;
  m_tcpConns : gset Z; m_tcpOnline : Z;
  m_pkt : gmap Z PktHandler;
  m_http : HttpState X A; m_ws : W; m_tcp : TS;
}.
Arguments mkMux {X A C W TS}. Arguments m_clis {X A C W TS}. Arguments m_wsID {X A C W TS}.
Arguments m_online {X A C W TS}. Arguments m_wsOnline {X A C W TS}. Arguments m_tcpConns {X A C W TS}.
Arguments m_tcpOnline {X A C W TS}. Arguments m_pkt {X A C W TS}. Arguments m_http {X A C W TS}.
Arguments m_ws {X A C W TS}. Arguments m_tcp {X A C W TS}.

Section Mux.
Context {X A C U W TS : Type} `{Wildcat X} `{!WsEngine W C, !TcpProto TS C}.
Context (url_Parse : list Z → option U) (conn_ID : C → Z) (RemoteAddr : C → list Z) (L : HttpLimits).
Context (dispatch : option (A → C → Request U → A)).
(** Whether [h.ws] and [h.tcp] are set. *)
Context (ws_set tcp_set : bool).

Abbreviation M := (Mux X A C W TS).
Implicit Types (s : M) (c : C).

Definition set_clis s x n : M := mkMux x (m_wsID s) n (m_wsOnline s) (m_tcpConns s) (m_tcpOnline s) (m_pkt s) (m_http s) (m_ws s) (m_tcp s).
Definition set_wsID s x n : M := mkMux (m_clis s) x (m_online s) n (m_tcpConns s) (m_tcpOnline s) (m_pkt s) (m_http s) (m_ws s) (m_tcp s).
Definition set_tcpConns s x n : M := mkMux (m_clis s) (m_wsID s) (m_online s) (m_wsOnline s) x n (m_pkt s) (m_http s) (m_ws s) (m_tcp s).
Definition set_pkt s x : M := mkMux (m_clis s) (m_wsID s) (m_online s) (m_wsOnline s) (m_tcpConns s) (m_tcpOnline s) x (m_http s) (m_ws s) (m_tcp s).
Definition set_http s x : M := mkMux (m_clis s) (m_wsID s) (m_online s) (m_wsOnline s) (m_tcpConns s) (m_tcpOnline s) (m_pkt s) x (m_ws s) (m_tcp s).
Definition set_ws s x : M := mkMux (m_clis s) (m_wsID s) (m_online s) (m_wsOnline s) (m_tcpConns s) (m_tcpOnline s) (m_pkt s) (m_http s) x (m_tcp s).
Definition set_tcp s x : M := mkMux (m_clis s) (m_wsID s) (m_online s) (m_wsOnline s) (m_tcpConns s) (m_tcpOnline s) (m_pkt s) (m_http s) (m_ws s) x.

(** [c.SetPktHandler], which does not replace a handler, and [c.UpdatePktHandler]. *)
Definition SetPktHandler s c k : M := match m_pkt s !! conn_ID c with None => set_pkt s (<[conn_ID c := k]> (m_pkt s)) | Some _ => s end.
Definition UpdatePktHandler s c k : M := set_pkt s (<[conn_ID c := k]> (m_pkt s)).

(** *** evioHttpWs.go *)

(** [LoadOrStore], then [Store] when there was an entry. *)
Definition trackConnected s c : M :=
  let id := conn_ID c in
  match m_clis s !! id with
  | None => set_clis s (<[id := c]> (m_clis s)) (m_online s + 1)
  | Some _ => set_clis s (<[id := c]> (m_clis s)) (m_online s)
  end.

Definition trackClosed s (id : Z) : M :=
  let s := match m_clis s !! id with
           | Some _ => set_clis s (delete id (m_clis s)) (m_online s - 1)
           | None => s
           end in
  if decide (id ∈ m_wsID s) then set_wsID s (m_wsID s ∖ {[ id ]}) (m_wsOnline s - 1) else s.

Definition markWS s (id : Z) : M :=
  if decide (id ∈ m_wsID s) then s else set_wsID s ({[ id ]} ∪ m_wsID s) (m_wsOnline s + 1).

Definition HTTPOnline s : Z := if m_online s <? m_wsOnline s then 0 else m_online s - m_wsOnline s.
Definition WSOnline s : Z := m_wsOnline s.

Definition GetCli s (connId : Z) : option C := m_clis s !! connId.

Definition HttpWs_OnConnected s c : M := trackConnected (SetPktHandler s c PktHttpWs) c.

Definition HttpWs_OnClosed s c : M :=
  let s := trackClosed s (conn_ID c) in
  if ws_set then set_ws s (we_OnClosed (m_ws s) c) else set_http s (ClearContext conn_ID c (m_http s)).

Definition HttpWs_ParsePacket s c (inp : list Z) : option (M * (Z * Z)) :=
  '(h, res) ← HttpParsePacket conn_ID L (m_http s) c inp; Some (set_http s h, res).

Definition isWebSocketUpgrade (req : Request U) : bool :=
  let get k := match r_Header req with Some h => hdr_Get h (str k) | None => [] end in
  let conn := ToLower (get "Connection"%string) in
  if negb (Contains conn (str "upgrade")) then false
  else if negb (EqualFold (get "Upgrade"%string) (str "websocket")) then false
  else if bool_decide (get "Sec-WebSocket-Key"%string = []) then false
  else if negb (bool_decide (get "Sec-WebSocket-Version"%string = str "13")) then false
  else true.

(** The switch to websocket: the packet is the handshake. *)
Definition upgrade_conn s c (inp : list Z) : option (M * (list Z * bool)) :=
  if negb ws_set then Some (s, ([], true))
  else
    let s := markWS s (conn_ID c) in
    let s := UpdatePktHandler s c PktWs in
    let s := set_http s (SetContext conn_ID c CtxOther (m_http s)) in
    let s := set_ws s (we_new (m_ws s) c) in
    '(w, (length, _)) ← we_ParsePacket (m_ws s) c inp;
    let s := set_ws s w in
    if (length <=? 0) || (len inp <? length) then Some (s, ([], true))
    else
      wsIn ← slice inp 0 length;
      '(w, res) ← we_OnData (m_ws s) c wsIn;
      Some (set_ws s w, res).

Definition HttpWs_OnData s c (inp : list Z) : option (M * (list Z * bool)) :=
  match hs_ctx (m_http s) !! conn_ID c with
  | Some (CtxUnsupported m) => out ← httpErrorResponse (u_code m); Some (s, (out, true))
  | Some (CtxParser hp) =>
      let s := set_http s (ClearContext conn_ID c (m_http s)) in
      req ← buildRequest url_Parse RemoteAddr c hp inp;
      '(s, res) ← match req with
                  | None => Some (s, ([], true))
                  | Some req =>
                      if isWebSocketUpgrade req then upgrade_conn s c inp
                      else let '(h, res) := dispatchRequest dispatch (m_http s) c req in Some (set_http s h, res)
                  end;
      Some (set_http s (release hp (m_http s)), res)
  | _ => Some (s, ([], true))
  end.

(** *** evioTcpHttpWs.go *)

Definition TcpHttpWs_OnConnected s c : M := SetPktHandler s c PktTcpHttpWs.

Definition TcpHttpWs_OnClosed s c : M :=
  let id := conn_ID c in
  if decide (id ∈ m_tcpConns s) then
    let s := set_tcpConns s (m_tcpConns s ∖ {[ id ]}) (m_tcpOnline s - 1) in
    if tcp_set then set_tcp s (tcp_OnClosed (m_tcp s) c) else s
  else
    match m_clis s !! id with
    | Some _ => HttpWs_OnClosed s c
    | None => set_http s (ClearContext conn_ID c (m_http s))
    end.

Definition tcp_parse s c (inp : list Z) : M * (Z * Z) := let '(t, res) := tcp_ParsePacket (m_tcp s) c inp in (set_tcp s t, res).
Definition tcp_data s c (inp : list Z) : M * (list Z * bool) := let '(t, res) := tcp_OnData (m_tcp s) c inp in (set_tcp s t, res).

Definition routeHTTP s c (inp : list Z) : option (M * (Z * Z)) :=
  HttpWs_ParsePacket (UpdatePktHandler (trackConnected s c) c PktHttpWs) c inp.

Definition routeTCP s c (inp : list Z) : M * (Z * Z) :=
  if negb tcp_set then (s, (-1, -1))
  else
    let id := conn_ID c in
    let s := if decide (id ∈ m_tcpConns s) then s
             else
               let s := set_tcpConns s ({[ id ]} ∪ m_tcpConns s) (m_tcpOnline s + 1) in
               let s := set_tcp s (tcp_OnConnected (m_tcp s) c) in
               UpdatePktHandler s c PktTcp in
    tcp_parse s c inp.

(** A nil TCP handler panics when it is called. *)
Definition TcpHttpWs_ParsePacket s c (inp : list Z) : option (M * (Z * Z)) :=
  if decide (conn_ID c ∈ m_tcpConns s) then
    if tcp_set then Some (tcp_parse (UpdatePktHandler s c PktTcp) c inp) else None
  else
    let '(mode, expect) := sniffProtoByFirstLine inp in
    match mode with
    | connModeHTTP => routeHTTP s c inp
    | connModeTCP => Some (routeTCP s c inp)
    | _ => Some (s, (0, expect))
    end.

Definition TcpHttpWs_OnData s c (inp : list Z) : option (M * (list Z * bool)) :=
  if bool_decide (conn_ID c ∈ m_tcpConns s) && tcp_set then Some (tcp_data s c inp)
  else
    match m_clis s !! conn_ID c with
    | Some _ => HttpWs_OnData s c inp
    | None => Some (s, ([], true))
    end.

(** The calls of a loop go to the packet handler that the connection has then. *)
Definition mux_ParsePacket s c (inp : list Z) : option (M * (Z * Z)) :=
  match m_pkt s !! conn_ID c with
  | Some PktTcpHttpWs => TcpHttpWs_ParsePacket s c inp
  | Some PktHttpWs => HttpWs_ParsePacket s c inp
  | Some PktWs => '(w, res) ← we_ParsePacket (m_ws s) c inp; Some (set_ws s w, res)
  | Some PktTcp => Some (tcp_parse s c inp)
  | None => None
  end.

Definition mux_OnData s c (inp : list Z) : option (M * (list Z * bool)) :=
  match m_pkt s !! conn_ID c with
  | Some PktTcpHttpWs => TcpHttpWs_OnData s c inp
  | Some PktHttpWs => HttpWs_OnData s c inp
  | Some PktWs => '(w, res) ← we_OnData (m_ws s) c inp; Some (set_ws s w, res)
  | Some PktTcp => Some (tcp_data s c inp)
  | None => None
  end.

End Mux.

(** ** The protocol is decided by the first word *)

Lemma bytes_match_prefix inp m : bytes_match inp m = true ↔ inp `prefix_of` m.
Proof.
  revert m. induction inp as [|x inp IH]; intros [|y m]; cbn [bytes_match].
  - split; [done|done].
  - split; [intros _; apply prefix_nil|done].
  - split; [done|]. intros [k Hk]. done.
  - destruct (Z.eqb_spec x y) as [->|Hne]; cbn [negb].
    + rewrite IH. split; [apply prefix_cons|apply prefix_cons_inv_2].
    + split; [done|]. intros Hp. by apply prefix_cons_inv_1 in Hp.
Qed.

Lemma isHTTPMethodPrefix_spec inp : isHTTPMethodPrefix inp = true ↔ ∃ m, m ∈ httpMethods ∧ inp `prefix_of` m.
Proof.
  unfold isHTTPMethodPrefix. destruct (Z.eqb_spec (len inp) 0) as [E|E].
  - destruct inp; [|cbn in E; lia]. split; [intros _|done]. exists (str "GET"). split; [by left|apply prefix_nil].
  - rewrite existsb_exists. split.
    + intros (m & Hm & Hb). exists m. split; [by apply list_elem_of_In|]. destruct (len m <? len inp); [done|]. by apply bytes_match_prefix.
    + intros (m & Hm & Hp). exists m. split; [by apply list_elem_of_In|]. apply prefix_length in Hp as Hl.
      replace (len m <? len inp) with false by lia. by apply bytes_match_prefix.
Qed.

Lemma isHTTPMethod_spec inp : isHTTPMethod inp = true ↔ inp ∈ httpMethods.
Proof.
  unfold isHTTPMethod. rewrite existsb_exists. split.
  - intros (m & Hm%list_elem_of_In & Hb). destruct (Z.eqb_spec (len inp) (len m)) as [E|]; [|done].
    apply bytes_match_prefix in Hb as [k ->]. rewrite length_app in E. destruct k; [by rewrite app_nil_r in Hm|cbn in E; lia].
  - intros Hm. exists inp. split; [by apply list_elem_of_In|]. rewrite Z.eqb_refl. by apply bytes_match_prefix.
Qed.

Definition upper (c : Z) : Prop := 65 ≤ c ≤ 90.

Lemma method_end_spec l : ∀ i, 0 ≤ i →
  match method_end l i with
  | inr _ => ∃ pre c post, l = pre ++ c :: post ∧ Forall upper pre ∧ c ≠ SP ∧ ¬ upper c
  | inl e => (e = -1 ∧ Forall upper l) ∨ ∃ pre post, l = pre ++ SP :: post ∧ Forall upper pre ∧ e = i + len pre
  end.
Proof.
  induction l as [|c l IH]; intros i Hi; cbn [method_end]; [by left|]. destruct (Z.eqb_spec c SP) as [->|Hsp].
  { right. exists [], l. split; [done|]. split; [constructor|cbn; lia]. }
  destruct ((c <? 65) || (90 <? c)) eqn:Hc.
  { exists [], c, l. split; [done|]. split; [constructor|]. split; [done|]. unfold upper. lia. }
  assert (upper c) as Hu by (unfold upper; lia). specialize (IH (i + 1) ltac:(lia)). destruct (method_end l (i + 1)) as [e|].
  - destruct IH as [[-> Hf]|(pre & post & -> & Hf & ->)]; [left; split; [done|by constructor]|right].
    exists (c :: pre), post. split; [done|]. split; [by constructor|cbn [length]; lia].
  - destruct IH as (pre & d & post & -> & Hf & Hd). exists (c :: pre), d, post. split; [done|]. split; [by constructor|done].
Qed.

Lemma method_facts m : m ∈ httpMethods → Forall upper m ∧ m ≠ [] ∧ (length m ≤ 7)%nat.
Proof.
  intros Hm. assert (forallb (λ m, forallb (λ c, (65 <=? c) && (c <=? 90)) m && (1 <=? len m) && (len m <=? 7)) httpMethods = true) as H
    by (vm_compute; reflexivity).
  rewrite forallb_forall in H. specialize (H m (proj1 (list_elem_of_In _ _) Hm)). apply andb_true_iff in H as [H Hl]. apply andb_true_iff in H as [H Hn].
  split; [|split; [destruct m; [done|done]|lia]]. apply list.Forall_forall. intros c Hc%list_elem_of_In. rewrite forallb_forall in H.
  specialize (H c Hc). unfold upper. lia.
Qed.

(** A word of upper case letters ends where another byte is. *)
Lemma word_unique p q c d r t : p ++ c :: r = q ++ d :: t → Forall upper p → Forall upper q → ¬ upper c → ¬ upper d → p = q ∧ c = d.
Proof.
  revert q. induction p as [|x p IH]; intros [|y q] E Hp Hq Hc Hd; simplify_eq/=; inversion Hp; inversion Hq; subst; try done.
  edestruct IH as [-> ->]; eauto.
Qed.

Lemma not_upper_SP : ¬ upper SP.
Proof. unfold upper, SP. lia. Qed.

Definition speaks_http (inp : list Z) : Prop := ∃ m, m ∈ httpMethods ∧ m ++ [SP] `prefix_of` inp.
Definition may_be_method (inp : list Z) : Prop := ∃ m, m ∈ httpMethods ∧ inp `prefix_of` m.

(** A method name and a byte behind its letters, in the first 16 bytes. *)
Lemma speaks_http_iff inp pre c post (k : nat) : take k inp = pre ++ c :: post → Forall upper pre → ¬ upper c →
  (speaks_http inp ↔ c = SP ∧ pre ∈ httpMethods) ∧ ¬ may_be_method inp.
Proof.
  intros E Hf Hc. pose proof (take_drop k inp) as Hinp. rewrite E, <-app_assoc in Hinp. cbn [app] in Hinp. split; [split|].
  - intros (m & Hm & [r Hr]). rewrite <-app_assoc in Hr. destruct (method_facts m Hm) as (Hu & _ & _).
    rewrite <-Hinp in Hr. destruct (word_unique _ _ _ _ _ _ Hr Hf Hu Hc not_upper_SP) as [-> ->]. done.
  - intros [-> Hm]. exists pre. split; [done|]. rewrite <-Hinp. exists (post ++ drop k inp). by rewrite <-app_assoc.
  - intros (m & Hm & [r Hr]). destruct (method_facts m Hm) as (Hu & _ & _). rewrite Hr, <-Hinp, <-app_assoc in Hu.
    apply Forall_app in Hu as [_ Hu]. by apply list.Forall_cons in Hu as [Hu _].
Qed.

Lemma upper_not_http inp : Forall upper (take 8 inp) → ¬ speaks_http inp.
Proof.
  intros Hu (m & Hm & [r ->]). destruct (method_facts m Hm) as (_ & _ & Hl). rewrite take_app_ge in Hu by (rewrite length_app; cbn; lia).
  apply Forall_app in Hu as [Hu _]. apply Forall_app in Hu as [_ Hu]. apply list.Forall_cons in Hu as [Hu _]. by apply not_upper_SP.
Qed.

Lemma sniff_cases inp :
  (sniffProtoByFirstLine inp = (connModeHTTP, 0) ∧ speaks_http inp ∧ ¬ may_be_method inp) ∨
  (sniffProtoByFirstLine inp = (connModeUnknown, len inp + 1) ∧ ¬ speaks_http inp ∧ may_be_method inp) ∨
  (sniffProtoByFirstLine inp = (connModeTCP, 0) ∧ ¬ speaks_http inp ∧ ¬ may_be_method inp).
Proof.
  unfold sniffProtoByFirstLine. destruct (Z.eqb_spec (len inp) 0) as [E0|E0].
  { destruct inp; [|cbn in E0; lia]. right. left. split; [done|]. split; [by apply upper_not_http|].
    exists (str "GET"). split; [by left|apply prefix_nil]. }
  set (limit := if 16 <? len inp then 16 else len inp). assert (limit = Z.min 16 (len inp)) as Hlim by (unfold limit; destruct (Z.ltb_spec 16 (len inp)); lia).
  clearbody limit. pose proof (method_end_spec (take (Z.to_nat limit) inp) 0 ltac:(lia)) as Hm.
  destruct (method_end _ 0) as [e|]; [destruct Hm as [[-> Hu]|(pre & post & El & Hu & ->)]|destruct Hm as (pre & c & post & El & Hu & Hsp & Hc)].
  - cbn [Z.eqb Pos.eqb]. assert (¬ speaks_http inp) as Hns.
    { apply upper_not_http. destruct (decide (8 ≤ limit)).
      - replace 8%nat with (8 `min` Z.to_nat limit)%nat by lia. rewrite <-take_take. by apply Forall_take.
      - rewrite take_ge in Hu by lia. by apply Forall_take. }
    destruct (Z.ltb_spec limit (len inp)).
    + right. right. split; [done|]. split; [done|]. intros (m & Hm & Hp%prefix_length). destruct (method_facts m Hm) as (_ & _ & Hl). lia.
    + rewrite take_ge by lia. destruct (isHTTPMethodPrefix inp) eqn:Ep.
      * right. left. apply isHTTPMethodPrefix_spec in Ep. done.
      * right. right. split; [done|]. split; [done|]. intros Hp%isHTTPMethodPrefix_spec. congruence.
  - destruct (speaks_http_iff inp pre SP post _ El Hu not_upper_SP) as [Hiff Hnm]. replace (0 + len pre =? -1) with false by blia.
    assert (take (Z.to_nat (0 + len pre)) inp = pre) as ->.
    { pose proof (take_drop (Z.to_nat limit) inp) as Hi. rewrite El, <-app_assoc in Hi. rewrite <-Hi. apply take_app_length'. lia. }
    destruct (isHTTPMethod pre) eqn:Ep.
    + left. apply isHTTPMethod_spec in Ep. split; [done|]. split; [by apply Hiff|done].
    + right. right. split; [done|]. split; [|done]. intros Hs%Hiff. destruct Hs as [_ Hs%isHTTPMethod_spec]. congruence.
  - destruct (speaks_http_iff inp pre c post _ El Hu Hc) as [Hiff Hnm]. right. right. split; [done|]. split; [|done]. by intros [? _]%Hiff.
Qed.

Lemma speaks_http_more inp more : speaks_http (inp ++ more) → speaks_http inp ∨ may_be_method inp.
Proof.
  intros (m & Hm & Hp). destruct (decide (length m < length inp)%nat).
  - left. exists m. split; [done|]. destruct Hp as [r Hr]. exists (drop (length (m ++ [SP])) inp).
    rewrite <-(take_drop (length (m ++ [SP])) inp) at 1. f_equal. apply (f_equal (take (length (m ++ [SP])))) in Hr.
    rewrite take_app_length, take_app_le in Hr by (rewrite length_app; cbn; lia). done.
  - right. exists m. split; [done|]. destruct Hp as [r Hr]. rewrite <-app_assoc in Hr. exists (drop (length inp) m).
    rewrite <-(take_drop (length inp) m) at 1. f_equal. apply (f_equal (take (length inp))) in Hr.
    rewrite take_app_length, take_app_le in Hr by lia. done.
Qed.

(** The protocol of a connection is recognised exactly: a stream is HTTP if it begins with an
    HTTP method and a space, it is not decided as long as it is a part of a method, and
    TCP otherwise.  A decision does not change when more bytes arrive, so it does not depend on
    how the stream is cut. *)
Theorem sniff_exact inp :
  (sniffProtoByFirstLine inp = (connModeHTTP, 0) ↔ speaks_http inp) ∧
  (sniffProtoByFirstLine inp = (connModeUnknown, len inp + 1) ↔ may_be_method inp) ∧
  (sniffProtoByFirstLine inp = (connModeTCP, 0) ↔ ¬ speaks_http inp ∧ ¬ may_be_method inp) ∧
  (∀ more, fst (sniffProtoByFirstLine inp) ≠ connModeUnknown → sniffProtoByFirstLine (inp ++ more) = sniffProtoByFirstLine inp).
Proof.
  split_and!; [| | |intros more Hk].
  1-3: destruct (sniff_cases inp) as [(-> & H1 & H2)|[(-> & H1 & H2)|(-> & H1 & H2)]]; naive_solver.
  destruct (sniff_cases inp) as [(E & H1 & H2)|[(E & H1 & H2)|(E & H1 & H2)]]; rewrite E in Hk |- *; [|done|].
  - destruct H1 as (m & Hm & [r ->]). rewrite <-app_assoc.
    destruct (sniff_cases ((m ++ [SP]) ++ r ++ more)) as [(-> & _)|[(_ & H & _)|(_ & H & _)]]; [done| |];
      destruct H; exists m; (split; [done|by apply prefix_app_r]).
  - destruct (sniff_cases (inp ++ more)) as [(_ & H & _)|[(_ & _ & H)|(-> & _)]]; [| |done].
    + by destruct (speaks_http_more _ _ H).
    + destruct H2. destruct H as (m & Hm & [r ->]). exists ((inp ++ more) ++ r). split; [done|]. rewrite <-app_assoc. by apply prefix_app_r.
Qed.

(** ** The connections of each protocol are counted *)

Section Counters.
Context {X A C U W TS : Type} `{Wildcat X} `{!WsEngine W C, !TcpProto TS C}.
Context (url_Parse : list Z → option U) (conn_ID : C → Z) (RemoteAddr : C → list Z) (L : HttpLimits).
Context (dispatch : option (A → C → Request U → A)) (ws_set tcp_set : bool).

Abbreviation M := (Mux X A C W TS).
Implicit Types (s : M) (c : C).

(** The handler that the server was started with. *)
Inductive Top := TopHttpWs | TopTcpHttpWs.
Context (top : Top).

Definition top_OnConnected s c : M := match top with TopHttpWs => HttpWs_OnConnected conn_ID s c | TopTcpHttpWs => TcpHttpWs_OnConnected conn_ID s c end.
Definition top_OnClosed s c : M :=
  match top with TopHttpWs => HttpWs_OnClosed conn_ID ws_set s c | TopTcpHttpWs => TcpHttpWs_OnClosed conn_ID ws_set tcp_set s c end.

(** What the loops do with a connection; its packet handler goes with it. *)
Inductive mux_step : M → M → Prop :=
| st_connected s c : m_pkt s !! conn_ID c = None → mux_step s (top_OnConnected s c)
| st_parse s c inp s' res : mux_ParsePacket conn_ID L tcp_set s c inp = Some (s', res) → mux_step s s'
| st_data s c inp s' res : mux_OnData url_Parse conn_ID RemoteAddr dispatch ws_set tcp_set s c inp = Some (s', res) → mux_step s s'
| st_closed s c : is_Some (m_pkt s !! conn_ID c) → mux_step s (set_pkt (top_OnClosed s c) (delete (conn_ID c) (m_pkt s))).

Definition mux_init h w t : M := mkMux ∅ ∅ 0 0 ∅ 0 ∅ h w t.

(** Where the id of a connection with packet handler [k] is. *)
Definition placed s (id : Z) (k : option PktHandler) : Prop :=
  match k with
  | None | Some PktTcpHttpWs => m_clis s !! id = None ∧ id ∉ m_wsID s ∧ id ∉ m_tcpConns s
  | Some PktHttpWs => is_Some (m_clis s !! id) ∧ id ∉ m_wsID s ∧ id ∉ m_tcpConns s
  | Some PktWs => is_Some (m_clis s !! id) ∧ id ∈ m_wsID s ∧ id ∉ m_tcpConns s
  | Some PktTcp => m_clis s !! id = None ∧ id ∉ m_wsID s ∧ id ∈ m_tcpConns s
  end.

Record mux_inv s : Prop := {
  mi_online : m_online s = Z.of_nat (size (m_clis s));
  mi_ws : m_wsOnline s = Z.of_nat (size (m_wsID s));
  mi_tcp : m_tcpOnline s = Z.of_nat (size (m_tcpConns s));
  mi_placed id : placed s id (m_pkt s !! id);
}.

Lemma inv_set_http s h : mux_inv s → mux_inv (set_http s h).
Proof. by intros []. Qed.
Lemma inv_set_ws s w : mux_inv s → mux_inv (set_ws s w).
Proof. by intros []. Qed.
Lemma inv_set_tcp s t : mux_inv s → mux_inv (set_tcp s t).
Proof. by intros []. Qed.

(** The id moves to the handler [k]; nothing happens to the others. *)
Lemma inv_move s s' id k : mux_inv s → m_pkt s' = <[id := k]> (m_pkt s) → placed s' id (Some k) →
  m_online s' = Z.of_nat (size (m_clis s')) → m_wsOnline s' = Z.of_nat (size (m_wsID s')) → m_tcpOnline s' = Z.of_nat (size (m_tcpConns s')) →
  (∀ i, i ≠ id → m_clis s' !! i = m_clis s !! i ∧ (i ∈ m_wsID s' ↔ i ∈ m_wsID s) ∧ (i ∈ m_tcpConns s' ↔ i ∈ m_tcpConns s)) → mux_inv s'.
Proof.
  intros [_ _ _ Hp] Hk Hid H1 H2 H3 Ho. split; [done|done|done|]. intros i. rewrite Hk. destruct (decide (i = id)) as [->|Hne].
  - by rewrite lookup_insert_eq.
  - rewrite lookup_insert_ne by done. specialize (Hp i). destruct (Ho i Hne) as (E1 & E2 & E3). unfold placed in *.
    rewrite E1. destruct (m_pkt s !! i) as [[]|]; naive_solver.
Qed.

Lemma inv_to_http s c : mux_inv s → m_pkt s !! conn_ID c = None ∨ m_pkt s !! conn_ID c = Some PktTcpHttpWs →
  mux_inv (UpdatePktHandler conn_ID (trackConnected conn_ID s c) c PktHttpWs).
Proof.
  intros Hi Hk. assert (m_clis s !! conn_ID c = None ∧ conn_ID c ∉ m_wsID s ∧ conn_ID c ∉ m_tcpConns s) as (Hc & Hw & Ht).
  { pose proof (mi_placed s Hi (conn_ID c)) as Hp. by destruct Hk as [E|E]; rewrite E in Hp. }
  unfold trackConnected. rewrite Hc. eapply (inv_move s _ (conn_ID c) PktHttpWs Hi); cbn; [done| |..].
  - rewrite lookup_insert_eq. done.
  - rewrite map_size_insert_None by done. rewrite (mi_online s Hi). lia.
  - apply Hi.
  - apply Hi.
  - intros i Hne. by rewrite lookup_insert_ne.
Qed.

Lemma inv_to_ws s c : mux_inv s → m_pkt s !! conn_ID c = Some PktHttpWs →
  mux_inv (UpdatePktHandler conn_ID (markWS s (conn_ID c)) c PktWs).
Proof.
  intros Hi Hk. pose proof (mi_placed s Hi (conn_ID c)) as Hp. rewrite Hk in Hp. destruct Hp as (Hc & Hw & Ht).
  unfold markWS. rewrite decide_False by done. eapply (inv_move s _ (conn_ID c) PktWs Hi); cbn; [done| |..].
  - split; [done|]. set_solver.
  - apply Hi.
  - rewrite size_union by set_solver. rewrite size_singleton, (mi_ws s Hi). lia.
  - apply Hi.
  - intros i Hne. set_solver.
Qed.

Lemma inv_to_tcp s c t : mux_inv s → m_pkt s !! conn_ID c = Some PktTcpHttpWs →
  mux_inv (UpdatePktHandler conn_ID (set_tcp (set_tcpConns s ({[ conn_ID c ]} ∪ m_tcpConns s) (m_tcpOnline s + 1)) t) c PktTcp).
Proof.
  intros Hi Hk. pose proof (mi_placed s Hi (conn_ID c)) as Hp. rewrite Hk in Hp. destruct Hp as (Hc & Hw & Ht).
  eapply (inv_move s _ (conn_ID c) PktTcp Hi); cbn; [done| |..].
  - split; [done|]. set_solver.
  - apply Hi.
  - apply Hi.
  - rewrite size_union by set_solver. rewrite size_singleton, (mi_tcp s Hi). lia.
  - intros i Hne. set_solver.
Qed.

#[local] Hint Resolve inv_set_http inv_set_ws inv_set_tcp : core.

Lemma HttpWs_ParsePacket_inv s c inp s' res : mux_inv s → HttpWs_ParsePacket conn_ID L s c inp = Some (s', res) → mux_inv s'.
Proof. unfold HttpWs_ParsePacket. intros Hi E. destruct (HttpParsePacket _ _ _ _ _) as [[h r]|]; simplify_eq/=. auto. Qed.

Lemma tcp_parse_inv s c inp : mux_inv s → mux_inv (tcp_parse s c inp).1.
Proof. unfold tcp_parse. intros Hi. destruct (tcp_ParsePacket _ _ _). cbn. auto. Qed.

Lemma tcp_data_inv s c inp : mux_inv s → mux_inv (tcp_data s c inp).1.
Proof. unfold tcp_data. intros Hi. destruct (tcp_OnData _ _ _). cbn. auto. Qed.

Lemma TcpHttpWs_ParsePacket_inv s c inp s' res : mux_inv s → m_pkt s !! conn_ID c = Some PktTcpHttpWs →
  TcpHttpWs_ParsePacket conn_ID L tcp_set s c inp = Some (s', res) → mux_inv s'.
Proof.
  intros Hi Hk. pose proof (mi_placed s Hi (conn_ID c)) as Hp. rewrite Hk in Hp. destruct Hp as (Hc & Hw & Ht).
  unfold TcpHttpWs_ParsePacket. rewrite decide_False by done. destruct (sniffProtoByFirstLine inp) as [mode e].
  destruct mode; intros E; simplify_eq; try done.
  - unfold routeHTTP in E. eapply HttpWs_ParsePacket_inv; [|done]. apply inv_to_http; auto.
  - unfold routeTCP in E. destruct tcp_set; cbn [negb] in E; [|by simplify_eq]. rewrite decide_False in E by done.
    match type of E with tcp_parse ?x _ _ = _ => pose proof (tcp_parse_inv x c inp) as Hx end. rewrite E in Hx. apply Hx.
    by apply inv_to_tcp.
Qed.

Lemma upgrade_conn_inv s c inp s' res : mux_inv s → m_pkt s !! conn_ID c = Some PktHttpWs →
  upgrade_conn conn_ID ws_set s c inp = Some (s', res) → mux_inv s'.
Proof.
  intros Hi Hk. unfold upgrade_conn. destruct ws_set; cbn [negb]; [|by intros [= <- _]]. pose proof (inv_to_ws s c Hi Hk) as Hw.
  set (s1 := UpdatePktHandler conn_ID (markWS s (conn_ID c)) c PktWs) in *. clearbody s1. intros E. cbn zeta in E.
  match type of E with context [we_ParsePacket ?w c inp] => destruct (we_ParsePacket w c inp) as [[w1 [n e]]|] end; cbn [mbind option_bind] in E; [|done].
  destruct (_ || _); [simplify_eq; auto|]. destruct (slice inp 0 n) as [wsIn|]; cbn [mbind option_bind] in E; [|done].
  match type of E with context [we_OnData ?w c wsIn] => destruct (we_OnData w c wsIn) as [[w2 r]|] end; cbn [mbind option_bind] in E; [|done].
  simplify_eq. auto.
Qed.

Lemma HttpWs_OnData_inv s c inp s' res : mux_inv s → m_pkt s !! conn_ID c = Some PktHttpWs →
  HttpWs_OnData url_Parse conn_ID RemoteAddr dispatch ws_set s c inp = Some (s', res) → mux_inv s'.
Proof.
  intros Hi Hk. unfold HttpWs_OnData. destruct (hs_ctx (m_http s) !! conn_ID c) as [[m|hp|]|]; intros E; cbn [mbind option_bind] in E; try (by simplify_eq).
  - destruct (httpErrorResponse (u_code m)); by simplify_eq/=.
  - set (s1 := set_http s _) in E. assert (mux_inv s1) as H1 by (unfold s1; auto). assert (m_pkt s1 !! conn_ID c = Some PktHttpWs) as Hk1 by done.
    clearbody s1. destruct (buildRequest _ _ _ _ _) as [[req|]|]; cbn [mbind option_bind] in E; [| |done]; [|simplify_eq; auto].
    destruct (isWebSocketUpgrade req).
    + destruct (upgrade_conn conn_ID ws_set s1 c inp) as [[s2 r]|] eqn:Eu; cbn [mbind option_bind] in E; simplify_eq.
      eapply inv_set_http, upgrade_conn_inv; eauto.
    + destruct (dispatchRequest _ _ _ _) as [h r]. cbn [mbind option_bind] in E. simplify_eq. auto.
Qed.

Lemma mux_ParsePacket_inv s c inp s' res : mux_inv s → mux_ParsePacket conn_ID L tcp_set s c inp = Some (s', res) → mux_inv s'.
Proof.
  intros Hi. unfold mux_ParsePacket. destruct (m_pkt s !! conn_ID c) as [[]|] eqn:Hk; [..|done].
  - by apply TcpHttpWs_ParsePacket_inv.
  - by apply HttpWs_ParsePacket_inv.
  - intros E. destruct (we_ParsePacket _ _ _) as [[w r]|]; simplify_eq/=. auto.
  - intros E. pose proof (tcp_parse_inv s c inp Hi) as Hx. by destruct (tcp_parse s c inp); simplify_eq.
Qed.

Lemma mux_OnData_inv s c inp s' res : mux_inv s →
  mux_OnData url_Parse conn_ID RemoteAddr dispatch ws_set tcp_set s c inp = Some (s', res) → mux_inv s'.
Proof.
  intros Hi. unfold mux_OnData. destruct (m_pkt s !! conn_ID c) as [[]|] eqn:Hk; [..|done].
  - pose proof (mi_placed s Hi (conn_ID c)) as Hp. rewrite Hk in Hp. destruct Hp as (Hc & _ & Ht).
    unfold TcpHttpWs_OnData. rewrite bool_decide_eq_false_2 by done. rewrite Hc. by intros [= <- _].
  - by apply HttpWs_OnData_inv.
  - intros E. destruct (we_OnData _ _ _) as [[w r]|]; simplify_eq/=. auto.
  - intros E. pose proof (tcp_data_inv s c inp Hi) as Hx. by destruct (tcp_data s c inp); simplify_eq.
Qed.

(** A connection leaves every set it was in, and the counters follow. *)
Lemma inv_remove s s' id : mux_inv s → m_pkt s' = delete id (m_pkt s) → m_clis s' = delete id (m_clis s) → m_wsID s' = m_wsID s ∖ {[ id ]} →
  m_tcpConns s' = m_tcpConns s ∖ {[ id ]} → m_online s' = Z.of_nat (size (m_clis s')) → m_wsOnline s' = Z.of_nat (size (m_wsID s')) →
  m_tcpOnline s' = Z.of_nat (size (m_tcpConns s')) → mux_inv s'.
Proof.
  intros [_ _ _ Hp] E0 E1 E2 E3 H1 H2 H3. split; [done|done|done|]. intros i. rewrite E0. unfold placed. rewrite E1, E2, E3. destruct (decide (i = id)) as [->|Hne].
  - rewrite !lookup_delete_eq. set_solver.
  - rewrite !lookup_delete_ne by done. specialize (Hp i). unfold placed in Hp. destruct (m_pkt s !! i) as [[]|]; set_solver.
Qed.

Lemma size_remove (Y : gset Z) id : id ∈ Y → Z.of_nat (size (Y ∖ {[ id ]})) = Z.of_nat (size Y) - 1.
Proof.
  intros Hin. rewrite size_difference by set_solver. rewrite size_singleton. assert (size Y ≠ 0%nat); [|lia]. intros E%size_empty_inv. set_solver.
Qed.

Lemma size_delete (m : gmap Z C) id c : m !! id = Some c → Z.of_nat (size (delete id m)) = Z.of_nat (size m) - 1.
Proof.
  intros E. rewrite <-(insert_delete_id m id c E) at 2. rewrite map_size_insert_None by apply lookup_delete_eq. lia.
Qed.

Lemma trackClosed_inv s c : mux_inv s → conn_ID c ∉ m_tcpConns s →
  mux_inv (set_pkt (trackClosed s (conn_ID c)) (delete (conn_ID c) (m_pkt s))).
Proof.
  intros Hi Ht. eapply (inv_remove s _ (conn_ID c) Hi); [done|..]; unfold trackClosed; destruct (m_clis s !! conn_ID c) eqn:Ec; cbn; case_decide; cbn;
    rewrite ?delete_id by done; try done; try set_solver; try apply Hi.
  all: first [ rewrite size_remove by done; rewrite (mi_ws s Hi); done | rewrite (size_delete _ _ _ Ec), (mi_online s Hi); done ].
Qed.

Lemma HttpWs_OnClosed_inv s c : mux_inv s → conn_ID c ∉ m_tcpConns s →
  mux_inv (set_pkt (HttpWs_OnClosed conn_ID ws_set s c) (delete (conn_ID c) (m_pkt s))).
Proof.
  intros Hi Ht. unfold HttpWs_OnClosed. pose proof (trackClosed_inv s c Hi Ht) as Hx.
  destruct ws_set; [apply (inv_set_ws _ _ Hx)|apply (inv_set_http _ _ Hx)].
Qed.

Lemma TcpHttpWs_OnClosed_inv s c : mux_inv s →
  mux_inv (set_pkt (TcpHttpWs_OnClosed conn_ID ws_set tcp_set s c) (delete (conn_ID c) (m_pkt s))).
Proof.
  intros Hi. pose proof (mi_placed s Hi (conn_ID c)) as Hp. unfold TcpHttpWs_OnClosed. case_decide as Ht.
  - assert (m_clis s !! conn_ID c = None ∧ conn_ID c ∉ m_wsID s) as [Hc Hw].
    { unfold placed in Hp. destruct (m_pkt s !! conn_ID c) as [[]|]; naive_solver. }
    set (s1 := set_tcpConns s _ _). assert (mux_inv (set_pkt s1 (delete (conn_ID c) (m_pkt s)))) as H1.
    { apply (inv_remove s _ (conn_ID c) Hi); cbn; try apply Hi; [done|by rewrite delete_id|set_solver|done|].
      rewrite size_remove by done. by rewrite (mi_tcp s Hi). }
    destruct tcp_set; [exact (inv_set_tcp _ _ H1)|done].
  - destruct (m_clis s !! conn_ID c) as [c'|] eqn:Hc; [by apply HttpWs_OnClosed_inv|].
    assert (conn_ID c ∉ m_wsID s) as Hw by (unfold placed in Hp; rewrite Hc in Hp; destruct (m_pkt s !! conn_ID c) as [[]|]; naive_solver).
    apply (inv_remove s _ (conn_ID c) Hi); cbn; try apply Hi; [done|by rewrite delete_id|set_solver|set_solver].
Qed.

(** Without the TCP handler in front, no connection is given to it. *)
Definition http_only s : Prop := m_tcpConns s = ∅ ∧ ∀ id, m_pkt s !! id ≠ Some PktTcpHttpWs.

Lemma HttpWs_OnData_fields s c inp s' res : HttpWs_OnData url_Parse conn_ID RemoteAddr dispatch ws_set s c inp = Some (s', res) →
  m_tcpConns s' = m_tcpConns s ∧ (m_pkt s' = m_pkt s ∨ m_pkt s' = <[conn_ID c := PktWs]> (m_pkt s)).
Proof.
  unfold HttpWs_OnData, upgrade_conn, markWS, dispatchRequest, mbind, option_bind. intros E.
  repeat case_match; simplify_eq/=; auto.
Qed.

Lemma http_only_step s s' : top = TopHttpWs → mux_inv s → http_only s → mux_step s s' → http_only s'.
Proof.
  intros Htop Hi [Ht Hp] Hs. assert (∀ id, m_pkt s !! id ≠ Some PktTcp) as Hnt.
  { intros id E. pose proof (mi_placed s Hi id) as Hx. rewrite E in Hx. destruct Hx as (_ & _ & Hx). set_solver. }
  destruct Hs as [s c Hn|s c inp s' res E|s c inp s' res E|s c Hk].
  - unfold top_OnConnected. rewrite Htop. unfold HttpWs_OnConnected, trackConnected, SetPktHandler. rewrite Hn. cbn.
    destruct (m_clis s !! conn_ID c); (split; [done|]; cbn; intros id; destruct (decide (id = conn_ID c)) as [->|];
      [by rewrite lookup_insert_eq|rewrite lookup_insert_ne by done; apply Hp]).
  - unfold mux_ParsePacket in E. specialize (Hp (conn_ID c)) as Hp1. specialize (Hnt (conn_ID c)).
    destruct (m_pkt s !! conn_ID c) as [[]|]; try done.
    + unfold HttpWs_ParsePacket in E. destruct (HttpParsePacket _ _ _ _ _) as [[h r]|]; by simplify_eq/=.
    + destruct (we_ParsePacket _ _ _) as [[w r]|]; by simplify_eq/=.
  - unfold mux_OnData in E. specialize (Hp (conn_ID c)) as Hp1. specialize (Hnt (conn_ID c)).
    destruct (m_pkt s !! conn_ID c) as [[]|]; try done.
    + apply HttpWs_OnData_fields in E as [E1 E2]. split; [by rewrite E1|]. intros id. destruct E2 as [->| ->]; [apply Hp|].
      destruct (decide (id = conn_ID c)) as [->|]; [by rewrite lookup_insert_eq|rewrite lookup_insert_ne by done; apply Hp].
    + destruct (we_OnData _ _ _) as [[w r]|]; by simplify_eq/=.
  - split.
    + unfold top_OnClosed. rewrite Htop. unfold HttpWs_OnClosed, trackClosed. by repeat case_match; cbn.
    + cbn. intros id. rewrite lookup_delete. case_decide; [done|apply Hp].
Qed.

Lemma mux_step_inv s s' : mux_inv s → (top = TopHttpWs → http_only s) → mux_step s s' → mux_inv s'.
Proof.
  intros Hi Hh Hs. destruct Hs as [s c Hn|s c inp s' res E|s c inp s' res E|s c Hk].
  - unfold top_OnConnected. destruct top.
    + pose proof (inv_to_http s c Hi (or_introl Hn)) as Hx. unfold HttpWs_OnConnected, SetPktHandler. rewrite Hn.
      unfold trackConnected, UpdatePktHandler in *. cbn in *. by destruct (m_clis s !! conn_ID c).
    + unfold TcpHttpWs_OnConnected, SetPktHandler. rewrite Hn. apply (inv_move s _ (conn_ID c) PktTcpHttpWs Hi); cbn; try done; try apply Hi.
      pose proof (mi_placed s Hi (conn_ID c)) as Hp. by rewrite Hn in Hp.
  - by eapply mux_ParsePacket_inv.
  - by eapply mux_OnData_inv.
  - unfold top_OnClosed. destruct top; [|by apply TcpHttpWs_OnClosed_inv]. apply HttpWs_OnClosed_inv; [done|].
    destruct (Hh eq_refl) as [-> _]. apply not_elem_of_empty.
Qed.

Lemma mux_reachable h w t s : rtc mux_step (mux_init h w t) s → mux_inv s.
Proof.
  intros Hr. cut (mux_inv s ∧ (top = TopHttpWs → http_only s)); [by intros []|].
  revert s Hr. apply rtc_ind_r.
  - split; [split; try done; intros id; by cbn|]. intros _. split; [done|]. by intros id.
  - intros s s' _ Hs [Hi Hh]. split; [by eapply mux_step_inv|]. intros Ht. eapply http_only_step; eauto.
Qed.

Lemma placed_spec s id k : placed s id k →
  (is_Some (m_clis s !! id) ↔ k = Some PktHttpWs ∨ k = Some PktWs) ∧ (id ∈ m_wsID s ↔ k = Some PktWs) ∧ (id ∈ m_tcpConns s ↔ k = Some PktTcp).
Proof. unfold placed. destruct k as [[]|]; rewrite <-!not_eq_None_Some; intuition congruence. Qed.

(** The connections whose packet handler is [k]. *)
Definition conns_of s (k : PktHandler) : gmap Z PktHandler := filter (λ p, p.2 = k) (m_pkt s).

Lemma dom_conns_of s k id : id ∈ dom (conns_of s k) ↔ m_pkt s !! id = Some k.
Proof.
  unfold conns_of. rewrite elem_of_dom. split.
  - intros [k' E]. apply map_lookup_filter_Some in E as [E E']. cbn in E'. by subst.
  - intros E. exists k. by apply map_lookup_filter_Some.
Qed.

(** C18: the reported numbers are exact: in every reachable state of a server, with any
    interleaving of connections, packets and closes, the numbers of HTTP, websocket and TCP
    connections are the numbers of connections that have the packet handler of that
    protocol, and [GetCli] knows exactly those of HTTP and websocket.  So all are zero when every connection is
    closed. *)
Theorem mux_counts_exact h w t s : rtc mux_step (mux_init h w t) s →
  HTTPOnline s = Z.of_nat (size (conns_of s PktHttpWs)) ∧ WSOnline s = Z.of_nat (size (conns_of s PktWs)) ∧
  m_tcpOnline s = Z.of_nat (size (conns_of s PktTcp)) ∧
  (∀ id, is_Some (GetCli s id) ↔ m_pkt s !! id = Some PktHttpWs ∨ m_pkt s !! id = Some PktWs) ∧
  (m_pkt s = ∅ → HTTPOnline s = 0 ∧ WSOnline s = 0 ∧ m_tcpOnline s = 0).
Proof.
  intros Hr. pose proof (mux_reachable h w t s Hr) as [H1 H2 H3 Hp]. pose proof (λ id, placed_spec s id _ (Hp id)) as Hq.
  assert (∀ id, is_Some (m_clis s !! id) ↔ m_pkt s !! id = Some PktHttpWs ∨ m_pkt s !! id = Some PktWs) as Hcli by (intros id; apply Hq).
  assert (dom (conns_of s PktWs) = m_wsID s) as Ew by (apply set_eq; intros id; rewrite dom_conns_of; destruct (Hq id); naive_solver).
  assert (dom (conns_of s PktTcp) = m_tcpConns s) as Et by (apply set_eq; intros id; rewrite dom_conns_of; destruct (Hq id); naive_solver).
  assert (dom (conns_of s PktHttpWs) = dom (m_clis s) ∖ m_wsID s) as Eh.
  { apply set_eq. intros id. rewrite dom_conns_of, elem_of_difference, elem_of_dom. destruct (Hq id) as (Ha & Hb & _). rewrite Ha, Hb.
    split; [intros ->; naive_solver|]. intros [[?|?] Hn]; [done|by destruct Hn]. }
  assert (m_wsID s ⊆ dom (m_clis s)) as Hsub.
  { intros id. rewrite elem_of_dom. destruct (Hq id) as (Ha & Hb & _). rewrite Ha, Hb. auto. }
  assert (HTTPOnline s = Z.of_nat (size (conns_of s PktHttpWs))) as Hh.
  { pose proof (subseteq_size _ _ Hsub) as Hle. rewrite size_dom in Hle. rewrite <-size_dom, Eh, size_difference by done.
    unfold HTTPOnline. rewrite H1, H2, size_dom. case_match; lia. }
  assert (WSOnline s = Z.of_nat (size (conns_of s PktWs))) as Hw by (rewrite <-size_dom, Ew; exact H2).
  assert (m_tcpOnline s = Z.of_nat (size (conns_of s PktTcp))) as Ht by (rewrite <-size_dom, Et; exact H3).
  split_and!; [done|done|done|exact Hcli|]. intros E. rewrite Hh, Hw, Ht. unfold conns_of. rewrite E, !map_filter_empty. done.
Qed.

End Counters.

(** ** Witness: two connections, one speaks TCP and one HTTP *)

#[local] Existing Instance toy_Wildcat.

#[local] Instance toy_Ws : WsEngine unit Z := {
  we_new w c := w; we_ParsePacket w c inp := Some (w, (len inp, len inp)); we_OnData w c inp := Some (w, (inp, false)); we_OnClosed w c := w }.

#[local] Instance toy_Tcp : TcpProto unit Z := {
  tcp_ParsePacket t c inp := (t, (len inp, len inp)); tcp_OnData t c inp := (t, (inp, false)); tcp_OnConnected t c := t; tcp_OnClosed t c := t }.

Definition toy_mux : Mux Z (list Z) Z unit unit := mux_init (mkHttp ∅ [] []) tt tt.
Definition toy_connect (s : Mux Z (list Z) Z unit unit) (c : Z) := top_OnConnected (λ c, c) TopTcpHttpWs s c.
Definition toy_parse (s : Mux Z (list Z) Z unit unit) (c : Z) (inp : list Z) :=
  from_option fst s (mux_ParsePacket (λ c, c) default_limits true s c inp).
Definition toy_http : list Z := str "GET / 0" ++ CRLFCRLF.
Definition toy_s1 := toy_connect toy_mux 4.
Definition toy_s2 := toy_parse toy_s1 4 toy_http.
Definition toy_s3 := toy_connect toy_s2 7.
Definition toy_end := toy_parse toy_s3 7 [1; 2].

Lemma mux_counts_exact_witness :
  (HTTPOnline toy_end = Z.of_nat (size (conns_of toy_end PktHttpWs)) ∧ WSOnline toy_end = Z.of_nat (size (conns_of toy_end PktWs)) ∧
   m_tcpOnline toy_end = Z.of_nat (size (conns_of toy_end PktTcp)) ∧
   (∀ id, is_Some (GetCli toy_end id) ↔ m_pkt toy_end !! id = Some PktHttpWs ∨ m_pkt toy_end !! id = Some PktWs) ∧
   (m_pkt toy_end = ∅ → HTTPOnline toy_end = 0 ∧ WSOnline toy_end = 0 ∧ m_tcpOnline toy_end = 0)) ∧
  HTTPOnline toy_end = 1 ∧ m_tcpOnline toy_end = 1.
Proof.
  split; [|vm_compute; done].
  apply (mux_counts_exact (λ u : list Z, Some u) (λ c, c) (λ c, []) default_limits (Some toy_dispatch) true true TopTcpHttpWs (mkHttp ∅ [] []) tt tt toy_end).
  apply (rtc_l _ _ toy_s1); [apply st_connected; vm_compute; reflexivity|].
  apply (rtc_l _ _ toy_s2); [apply (st_parse _ _ _ _ _ _ _ _ toy_s1 4 toy_http toy_s2 (11, 11)); vm_compute; reflexivity|].
  apply (rtc_l _ _ toy_s3); [apply st_connected; vm_compute; reflexivity|].
  apply (rtc_l _ _ toy_end); [apply (st_parse _ _ _ _ _ _ _ _ toy_s3 7 [1; 2] toy_end (2, 2)); vm_compute; reflexivity|].
  apply rtc_refl.
Defined.
