(* ===== verification/Server.v ===== *)
(** * server.go, evio.go, tls_config.go, tls_session_ticket.go, listener_open.go: the server

    Start-up and shutdown, the choice of a loop for an outgoing connection, the load that is
    reported, addresses and listeners, the TLS configuration and the keys of session tickets.
    Files, sockets, PEM blocks, random numbers and HMAC are parameters.  Strings are compared
    on ASCII; log messages are not modelled. *)

From stdpp Require Import strings relations.
From Stdlib Require Import Sorted.
From S2P Require Import Prelude Text Sha1 HttpUtil KtlsKeys KtlsSetup.

(** ** Load balancing *)

Inductive LoadBalance := RoundRobin | Random | LeastConnections | Hash.

Definition setLBStrategy (strategy : list Z) : LoadBalance :=
  if bool_decide (strategy = str "lru") then LeastConnections
  else if bool_decide (strategy = str "rand") then Random
  else if bool_decide (strategy = str "hash") then Hash
  else RoundRobin.

Definition setWorker (num numCPU : Z) : Z := if num <=? 0 then if num =? 0 then 1 else numCPU else num.

(** [for k, l := range s.loops]: the least number so far and its loop. *)
Fixpoint least_loop (loops : list Z) (k online sel : Z) : Z :=
  match loops with
  | [] => sel
  | cur :: loops => if cur <? online then least_loop loops (k + 1) cur k else least_loop loops (k + 1) online sel
  end.

(** [loops] are the numbers [Online] of the loops, [rnd n] is [rand.Intn(n)]; the new [seq] and
    the index of the loop, [None] for a panic. *)
Definition SelectLoop (balance : LoadBalance) (rnd : Z → Z) (loops : list Z) (seq id : Z) : option (Z * Z) :=
  let n := len loops in
  let at_ idx := _ ← index loops idx; Some idx in
  match balance with
  | Random => if n <=? 0 then None else idx ← at_ (rnd n); Some (seq, idx)
  | Hash => idx ← go_rem id n; idx ← at_ idx; Some (seq, idx)
  | LeastConnections => idx ← at_ (least_loop loops 0 10000000 0); Some (seq, idx)
  | RoundRobin => idx ← go_rem seq (wrapU 32 n); idx ← at_ idx; Some (wrapU 32 (seq + 1), idx)
  end.

(** ** The load *)

Record LoadState := mkLoad { ld_online : Z; ld_dials : Z; ld_lastCheck : Z; ld_nowSec : Z; ld_nowMs : Z }.

(** The sum over the loops, in [int32]. *)
Definition sum32 (l : list Z) : Z := foldl (λ total x, wrapS 32 (total + x)) 0 l.

(** [loops] are the pairs of [Online] and [DialCnt]. *)
Definition GetLoad (s : LoadState) (loops : list (Z * Z)) : LoadState * Z :=
  let now := ld_nowSec s in
  let old := ld_lastCheck s in
  if old <? now then
    let total := sum32 (fst <$> loops) in
    let dials := sum32 (snd <$> loops) in
    (mkLoad total dials now (ld_nowSec s) (ld_nowMs s), total)
  else (mkLoad (ld_online s) (ld_dials s) now (ld_nowSec s) (ld_nowMs s), ld_online s).

Definition GetDials (s : LoadState) : Z := ld_dials s.

(** A tick of [stat], at a time in nanoseconds: the loops get the time too. *)
Definition stat_tick (s : LoadState) (nanos : Z) (loops : list (Z * Z)) : LoadState :=
  let nowSec := Z.quot nanos 1000000000 in
  let nowMs := Z.quot nanos 1000000 in
  mkLoad (sum32 (fst <$> loops)) (ld_dials s) (ld_lastCheck s) nowSec nowMs.

(** ** Addresses *)

(** [strings.Split(s, sep)] for a separator that is not empty; each part but the last takes it. *)
Fixpoint SplitBy (fuel : nat) (s sep : list Z) : list (list Z) :=
  match fuel with
  | O => [s]
  | S fuel =>
      let i := Index s sep in
      if i <? 0 then [s] else take (Z.to_nat i) s :: SplitBy fuel (drop (Z.to_nat i + length sep) s) sep
  end.

Definition before_byte (s : list Z) (c : Z) : list Z :=
  let i := IndexByte s c in if i <? 0 then s else take (Z.to_nat i) s.

(** The network and the address; [inr] is the error, with the network. *)
Definition parseAddr (addr : list Z) : (list Z * list Z) + list Z :=
  match SplitBy (length addr) addr (str "://") with
  | [net; rest] =>
      let network := normal net in
      let network := if bool_decide (network = []) then str "tcp" else network in
      if bool_decide (network ≠ str "tcp") then inr network
      else inl (network, before_byte rest 63)
  | _ => inl (str "tcp", addr)
  end.

(** ** Configuration *)

Record SrvConfig := mkSrvConfig {
  c_Ncpu : Z; c_SslPem : list Z; c_SslKey : list Z; c_SslOcspStaple : list Z; c_SslMode : list Z;
  c_MinVersion : Z; c_MaxVersion : Z; c_NextProtos : list (list Z);
  c_TicketsDisabled : bool; c_TicketSeed : list Z; c_TicketContext : list Z;
  c_ListenAddrs : list (list Z * list Z);   (* network and address of the endpoints *)
}.

(** The part of [tls.Config] that is set. *)
Record TlsConfig := mkTlsConfig {
  t_OCSPStaple : option (list Z); t_TicketsDisabled : bool; t_MinVersion : Z; t_MaxVersion : Z;
  t_NextProtos : list (list Z); t_ticketKeys : list (list Z);
}.

Inductive StartErr := ErrKeyPair | ErrOcspRead | ErrOcspEmpty | ErrOcspBlock | ErrNetwork | ErrSslMode | ErrListen | ErrSystem.

Section Files.
(** The files, [pem.Decode] (type and bytes of the first block, and the rest), and whether the key pair loads. *)
Context (ReadFile : list Z → option (list Z)) (pem_Decode : list Z → option (list Z * list Z * list Z)) (key_pair : list Z → list Z → bool).

(** The loop over the blocks; each takes a byte at least. *)
Fixpoint ocsp_blocks (fuel : nat) (data : list Z) : StartErr + list Z :=
  match fuel with
  | O => inl ErrOcspBlock
  | S fuel =>
      if len data =? 0 then inl ErrOcspBlock
      else
        match pem_Decode data with
        | None => inl ErrOcspBlock
        | Some (typ, bytes, rest) =>
            if EqualFold typ (str "ocsp response") then
              if len bytes =? 0 then inl ErrOcspEmpty else inr bytes
            else ocsp_blocks fuel rest
        end
  end.

Definition loadOCSPStaple (path : list Z) : StartErr + list Z :=
  match ReadFile path with
  | None => inl ErrOcspRead
  | Some content =>
      if len content =? 0 then inl ErrOcspEmpty
      else
        let trimmed := TrimSpace content in
        if is_prefix (str "-----BEGIN") trimmed then ocsp_blocks (S (length trimmed)) trimmed
        else inr content
  end.

Definition buildTLSConfig (cfg : SrvConfig) : StartErr + TlsConfig :=
  if negb (key_pair (c_SslPem cfg) (c_SslKey cfg)) then inl ErrKeyPair
  else
    let path := TrimSpace (c_SslOcspStaple cfg) in
    match (if bool_decide (path = []) then inr None
           else match loadOCSPStaple path with inl e => inl e | inr b => inr (Some b) end) with
    | inl e => inl e
    | inr staple => inr (mkTlsConfig staple (c_TicketsDisabled cfg) (c_MinVersion cfg) (c_MaxVersion cfg) (c_NextProtos cfg) [])
    end.

(** ** Listeners *)

Inductive TlsMode := ModePlain | ModeTls.

Record listener := mkListener { ln_addr : list Z; ln_tlsmode : TlsMode; ln_config : option TlsConfig }.

(** [reuseport.Listen] and [system] for the listener that is opened next. *)
Definition openListener (listen system : bool) (ep : list Z * list Z) (cfg : SrvConfig) (tlsConfig : option TlsConfig) : StartErr + listener :=
  let network := normal (fst ep) in
  let network := if bool_decide (network = []) then str "tcp" else network in
  if bool_decide (network ≠ str "tcp") then inl ErrNetwork
  else
    match (if bool_decide (c_SslPem cfg ≠ [] ∧ c_SslKey cfg ≠ []) then
             if bool_decide (c_SslMode cfg = str "tls") then
               match tlsConfig with
               | Some t => inr (ModeTls, Some t)
               | None => match buildTLSConfig cfg with inl e => inl e | inr t => inr (ModeTls, Some t) end
               end
             else inl ErrSslMode
           else inr (ModePlain, None)) with
    | inl e => inl e
    | inr (mode, conf) =>
        if negb listen then inl ErrListen
        else if negb system then inl ErrSystem
        else inr (mkListener (snd ep) mode conf)
    end.

(** ** Starting *)

Record Server := mkServer {
  s_loops : list (list listener);     (* the listeners of each loop *)
  s_tlsWorker : option bool;          (* whether the handshake worker, if there is one, is running *)
  s_running : bool;                   (* the loops run *)
  s_rotation : bool;                  (* the goroutine that rotates the ticket keys *)
}.

(** The listeners of one loop; the oracle says whether the next sockets can be opened. *)
Fixpoint bind_loop (oracle : list (bool * bool)) (eps : list (list Z * list Z)) (cfg : SrvConfig) (t : option TlsConfig) :
    list (bool * bool) * list listener * option StartErr :=
  match eps with
  | [] => (oracle, [], None)
  | ep :: eps =>
      let '(listen, system) := match oracle with o :: _ => o | [] => (true, true) end in
      match openListener listen system ep cfg t with
      | inl e => (tail oracle, [], Some e)
      | inr ln => let '(oracle, lns, err) := bind_loop (tail oracle) eps cfg t in (oracle, ln :: lns, err)
      end
  end.

Fixpoint bind_all (oracle : list (bool * bool)) (n : nat) (cfg : SrvConfig) (t : option TlsConfig) : list (list listener) * option StartErr :=
  match n with
  | O => ([], None)
  | S n =>
      let '(oracle, lns, err) := bind_loop oracle (c_ListenAddrs cfg) cfg t in
      match err with
      | Some e => (lns :: replicate n [], Some e)
      | None => let '(loops, err) := bind_all oracle n cfg t in (lns :: loops, err)
      end
  end.

Definition hasManagedTLSSessionTicketKeys (cfg : SrvConfig) : bool := negb (c_TicketsDisabled cfg) && negb (bool_decide (c_TicketSeed cfg = [])).

Definition is_tls (cfg : SrvConfig) : bool := bool_decide (normal (c_SslMode cfg) = str "tls").

Definition start (oracle : list (bool * bool)) (workerNum : Z) (cfg : SrvConfig) : Server * option StartErr :=
  let n := Z.to_nat workerNum in
  match (if is_tls cfg then match buildTLSConfig cfg with inl e => inl e | inr t => inr (Some t) end else inr None) with
  | inl e => (mkServer (replicate n []) None false false, Some e)
  | inr t =>
      let worker := if is_tls cfg then Some true else None in
      let rotation := is_tls cfg && hasManagedTLSSessionTicketKeys cfg in
      let '(loops, err) := bind_all oracle n cfg t in
      match err with
      | Some e => (mkServer loops (if is_tls cfg then Some false else None) false false, Some e)
      | None => (mkServer loops worker true rotation, None)
      end
  end.

End Files.

(** ** Session tickets *)

Definition rotationSec : Z := 24 * 60 * 60.
Definition tlsSessionTicketKeyOffsets : list Z := [0; 1; -1; -2; -3; -4; -5; -6; -7].

Definition tlsSessionTicketWindowStartSec (now : Z) : Z := Z.quot now rotationSec * rotationSec.

Section Tickets.
(** HMAC-SHA256 of a key and a message. *)
Context (hmac_sha256 : list Z → list Z → list Z).

Definition deriveTLSSessionTicketKey (seed context : list Z) (sec : Z) : list Z :=
  blit (make_bytes 32) 0
    (hmac_sha256 seed (str "connaxis/tls-session-ticket/v1" ++ [0] ++ context ++ be_bytes 8 (wrapU 64 sec))).

Definition buildTLSSessionTicketKeys (seed context : list Z) (currentSec : Z) : list (list Z) :=
  (λ offset, deriveTLSSessionTicketKey seed context (wrapS 64 (currentSec + offset * rotationSec))) <$> tlsSessionTicketKeyOffsets.

Definition set_keys (t : TlsConfig) (keys : list (list Z)) : TlsConfig :=
  mkTlsConfig (t_OCSPStaple t) (t_TicketsDisabled t) (t_MinVersion t) (t_MaxVersion t) (t_NextProtos t) keys.

Definition applyManagedTLSSessionTicketKeys (t : TlsConfig) (cfg : SrvConfig) (now : Z) : TlsConfig * option Z :=
  if negb (hasManagedTLSSessionTicketKeys cfg) then (t, None)
  else
    let currentSec := tlsSessionTicketWindowStartSec now in
    (set_keys t (buildTLSSessionTicketKeys (c_TicketSeed cfg) (c_TicketContext cfg) currentSec), Some currentSec).

(** A tick of the goroutine of [startTLSSessionTicketRotation], at a time in seconds. *)
Definition rotation_tick (cfg : SrvConfig) (st : TlsConfig * Z) (now : Z) : TlsConfig * Z :=
  let '(t, currentSec) := st in
  if now - currentSec <? rotationSec then st
  else
    let currentSec := tlsSessionTicketWindowStartSec now in
    (set_keys t (buildTLSSessionTicketKeys (c_TicketSeed cfg) (c_TicketContext cfg) currentSec), currentSec).

(** The keys after the ticks at the times [ticks], for a server that started at [now]. *)
Definition startTLSSessionTicketRotation (t : TlsConfig) (cfg : SrvConfig) (now : Z) (ticks : list Z) : TlsConfig :=
  match applyManagedTLSSessionTicketKeys t cfg now with
  | (t, None) => t
  | (t, Some currentSec) => (foldl (rotation_tick cfg) (t, currentSec) ticks).1
  end.

End Tickets.

(** ** Shutdown

    [Stop] signals and waits; [clean] wakes up, stops the handshake worker and every loop, and
    waits for the loops, which count themselves out of the wait group when they return. *)

Inductive phase := PWait | PStop (k : nat) | PGroup | PDone.

Record Shut := mkShut {
  sh_signaled : bool; sh_phase : phase; sh_worker : bool;     (* the worker still runs *)
  sh_stopped : list bool; sh_exited : list bool;
}.

(** [wg.Add(1)] for each loop. *)
Definition sh_init (n : nat) : Shut := mkShut false PWait true (replicate n false) (replicate n false).

Definition wg_count (s : Shut) : nat := length (filter (λ b, b = false) (sh_exited s)).

Definition signalShutdown (s : Shut) : Shut := mkShut true (sh_phase s) (sh_worker s) (sh_stopped s) (sh_exited s).

(** Whether the loop around [cond.Wait] ends. *)
Definition waitForShutdown (s : Shut) : bool := sh_signaled s.

Inductive sh_step : Shut → Shut → Prop :=
| ss_signal s : sh_signaled s = false → sh_step s (signalShutdown s)
| ss_wake s : waitForShutdown s = true → sh_phase s = PWait → sh_step s (mkShut true (PStop 0) false (sh_stopped s) (sh_exited s))
| ss_stop s k : sh_phase s = PStop k → (k < length (sh_stopped s))%nat →
    sh_step s (mkShut (sh_signaled s) (PStop (S k)) (sh_worker s) (<[k := true]> (sh_stopped s)) (sh_exited s))
| ss_wait s k : sh_phase s = PStop k → k = length (sh_stopped s) →
    sh_step s (mkShut (sh_signaled s) PGroup (sh_worker s) (sh_stopped s) (sh_exited s))
| ss_exit s i : sh_stopped s !! i = Some true → sh_exited s !! i = Some false →
    sh_step s (mkShut (sh_signaled s) (sh_phase s) (sh_worker s) (sh_stopped s) (<[i := true]> (sh_exited s)))
| ss_done s : sh_phase s = PGroup → wg_count s = 0%nat →
    sh_step s (mkShut (sh_signaled s) PDone (sh_worker s) (sh_stopped s) (sh_exited s)).

Record sh_inv (n : nat) (s : Shut) : Prop := {
  si_len : length (sh_stopped s) = n ∧ length (sh_exited s) = n;
  si_exit i : sh_exited s !! i = Some true → sh_stopped s !! i = Some true;
  si_stop i : sh_stopped s !! i = Some true ↔
    match sh_phase s with PWait => False | PStop k => (i < k)%nat | _ => (i < n)%nat end;
  si_phase : match sh_phase s with PWait => sh_worker s = true | PStop k => (k ≤ n)%nat ∧ sh_signaled s = true ∧ sh_worker s = false
             | _ => sh_signaled s = true ∧ sh_worker s = false end;
  si_done : sh_phase s = PDone → wg_count s = 0%nat;
}.

(** What [clean] and the loops have still to do. *)
Definition phase_work (n : nat) (p : phase) : nat := match p with PWait => n + 3 | PStop k => n - k + 2 | PGroup => 1 | PDone => 0 end.
Definition sh_work (s : Shut) : nat := (if sh_signaled s then 0 else 1) + phase_work (length (sh_stopped s)) (sh_phase s) + wg_count s.

Lemma count_done_insert (l : list bool) i : l !! i = Some false →
  S (length (filter (λ b, b = false) (<[i := true]> l))) = length (filter (λ b, b = false) l).
Proof.
  revert i. induction l as [|b l IH]; intros [|i] E; [done|done| |].
  - injection E as ->. change (<[0%nat := true]> (false :: l)) with (true :: l). by rewrite filter_cons_False, filter_cons_True.
  - specialize (IH i E). change (<[S i := true]> (b :: l)) with (b :: <[i := true]> l).
    destruct b; rewrite ?filter_cons_True, ?filter_cons_False by done; cbn [length]; lia.
Qed.

Ltac sh_unfold := unfold sh_work, wg_count, signalShutdown, waitForShutdown in *; cbn [sh_signaled sh_phase sh_worker sh_stopped sh_exited] in *.

Lemma sh_step_inv n s s' : sh_inv n s → sh_step s s' → sh_inv n s' ∧ (sh_work s' < sh_work s)%nat.
Proof.
  intros [[L1 L2] He Hs Hp Hd] Hst. destruct Hst as [s Hn|s Hsig Hph|s k Hph Hk|s k Hph ->|s i Hi Hx|s Hph Hw]; sh_unfold.
  - rewrite Hn in *. split; [|lia]. split; sh_unfold; try done. destruct (sh_phase s); [done|naive_solver..].
  - rewrite Hph, Hsig in *. split; [|cbn [phase_work]; lia]. split; sh_unfold; try done; [|split; [lia|done]].
    intros i. rewrite Hs. split; [done|lia].
  - rewrite Hph, length_insert in *. split; [|cbn [phase_work]; lia]. split; sh_unfold; rewrite ?length_insert; try done.
    + intros i Ei. specialize (He i Ei). rewrite list_lookup_insert. by case_decide.
    + intros i. rewrite list_lookup_insert. case_decide as Hd1; [split; [lia|done]|]. rewrite Hs. split; [lia|].
      intros Hlt. destruct (decide (i = k)) as [->|]; [|lia]. by destruct Hd1.
    + split; [lia|]. naive_solver.
  - rewrite Hph in *. split; [|cbn [phase_work]; lia]. split; sh_unfold; try done; [|naive_solver]. intros i. rewrite Hs. by rewrite L1.
  - pose proof (count_done_insert _ _ Hx) as Hc. split; [|lia]. split; sh_unfold; rewrite ?length_insert; try done.
    + intros j. rewrite list_lookup_insert. case_decide; [naive_solver|apply He].
    + intros E. specialize (Hd E). lia.
  - rewrite Hph in *. split; [|cbn [phase_work]; lia]. by split.
Qed.

Lemma sh_reach n s : rtc sh_step (sh_init n) s → sh_inv n s.
Proof.
  revert s. apply rtc_ind_r; [|intros; by eapply sh_step_inv].
  split; cbn [sh_init sh_signaled sh_phase sh_worker sh_stopped sh_exited]; rewrite ?length_replicate; try done.
  intros i. split; [|done]. intros E. apply lookup_replicate in E as [? _]. done.
Qed.

Lemma wg_zero (l : list bool) i : length (filter (λ b, b = false) l) = 0%nat → (i < length l)%nat → l !! i = Some true.
Proof.
  intros E Hi. apply lookup_lt_is_Some in Hi as [b Hb]. destruct b; [done|]. pose proof (count_done_insert _ _ Hb). lia.
Qed.



(** ** The choice of a loop *)

Lemma least_loop_spec loops : ∀ k online sel,
  (least_loop loops k online sel = sel ∧ Forall (λ x, online ≤ x) loops) ∨
  ∃ j v, least_loop loops k online sel = k + Z.of_nat j ∧ loops !! j = Some v ∧ v < online ∧ Forall (λ x, v ≤ x) loops.
Proof.
  induction loops as [|cur loops IH]; intros k online sel; cbn [least_loop]; [by left|]. destruct (Z.ltb_spec cur online) as [Hlt|Hge].
  - right. destruct (IH (k + 1) cur k) as [[-> Hf]|(j & v & -> & Hj & Hv & Hf)].
    + exists 0%nat, cur. split_and!; [lia|done|lia|]. constructor; [lia|done].
    + exists (S j), v. split_and!; [lia|done|lia|]. constructor; [lia|done].
  - destruct (IH (k + 1) online sel) as [[-> Hf]|(j & v & -> & Hj & Hv & Hf)].
    + left. split; [done|]. constructor; [lia|done].
    + right. exists (S j), v. split_and!; [lia|done|lia|]. constructor; [lia|done].
Qed.

Lemma index_in {A} (l : list A) i : 0 ≤ i < len l → ∃ x, index l i = Some x ∧ l !! Z.to_nat i = Some x.
Proof. intros Hi. destruct (index_Some l i Hi) as [x E]. exists x. split; [done|]. unfold index in E. by replace (0 <=? i) with true in E by lia. Qed.

(** The loops chosen by [m] calls in a row. *)
Fixpoint rr_run (m : nat) (rnd : Z → Z) (loops : list Z) (seq : Z) : option (list Z) :=
  match m with
  | O => Some []
  | S m => '(seq, idx) ← SelectLoop RoundRobin rnd loops seq 0; rest ← rr_run m rnd loops seq; Some (idx :: rest)
  end.

Lemma select_rr rnd loops seq id : loops ≠ [] → len loops < 2 ^ 32 → 0 ≤ seq < 2 ^ 32 →
  SelectLoop RoundRobin rnd loops seq id = Some (wrapU 32 (seq + 1), seq mod len loops) ∧ 0 ≤ seq mod len loops < len loops.
Proof.
  intros Hn Hl Hs. assert (0 < len loops) by (destruct loops; [done|cbn; lia]). unfold SelectLoop. rewrite (wrapU_small 32 (len loops)) by lia.
  rewrite go_rem_Some by lia. cbn [mbind option_bind]. pose proof (Z.mod_pos_bound seq (len loops)) as Hb.
  destruct (index_in loops (seq mod len loops)) as (x & -> & _); [lia|]. split; [done|lia].
Qed.

Lemma rr_run_spec rnd loops m : ∀ seq, loops ≠ [] → len loops < 2 ^ 32 → 0 ≤ seq → seq + Z.of_nat m ≤ 2 ^ 32 →
  rr_run m rnd loops seq = Some ((λ i, i mod len loops) <$> seqZ seq (Z.of_nat m)).
Proof.
  induction m as [|m IH]; intros seq Hn Hl Hs Hm; [done|]. cbn [rr_run].
  destruct (select_rr rnd loops seq 0 Hn Hl ltac:(lia)) as [-> _]. cbn [mbind option_bind]. rewrite (seqZ_cons seq) by lia.
  replace (Z.pred (Z.of_nat (S m))) with (Z.of_nat m) by lia. destruct m as [|m]; [done|].
  rewrite wrapU_small by lia. rewrite IH by (done || lia). cbn [mbind option_bind fmap list_fmap]. by rewrite <-Z.add_1_r.
Qed.

(** [n] numbers in a row have every remainder modulo [n] once. *)
Lemma residues_perm seq n : 0 ≤ seq → 0 < n → (λ i, i mod n) <$> seqZ seq n ≡ₚ seqZ 0 n.
Proof.
  intros Hs Hn. apply submseteq_length_Permutation.
  - apply NoDup_submseteq.
    + apply NoDup_fmap_2_strong; [|apply NoDup_seqZ]. intros x y Hx%elem_of_seqZ Hy%elem_of_seqZ E.
      pose proof (Z.div_mod x n ltac:(lia)). pose proof (Z.div_mod y n ltac:(lia)). assert (x / n = y / n); [|nia].
      assert (- 1 < x / n - y / n < 1); [|lia]. split; nia.
    + intros x Hx. apply list_elem_of_fmap in Hx as (i & -> & _). apply elem_of_seqZ. pose proof (Z.mod_pos_bound i n Hn). lia.
  - by rewrite length_fmap, !length_seqZ.
Qed.

(** [SelectLoop] always gives a loop of the server, for every strategy.  With
    [LeastConnections] no loop has fewer connections than the one chosen (below ten million
    connections per loop), and with [RoundRobin] as many calls in a row as there are loops choose
    each of them once (as long as the 32-bit counter does not wrap). *)
Theorem SelectLoop_spec (rnd : Z → Z) (loops : list Z) (seq id : Z) :
  loops ≠ [] → len loops < 2 ^ 31 → 0 ≤ seq < 2 ^ 32 → 0 ≤ id → 0 ≤ rnd (len loops) < len loops →
  (∀ balance, ∃ seq' idx, SelectLoop balance rnd loops seq id = Some (seq', idx) ∧ 0 ≤ idx < len loops) ∧
  (Forall (λ x, x < 10000000) loops → ∃ idx v, SelectLoop LeastConnections rnd loops seq id = Some (seq, idx) ∧
     loops !! Z.to_nat idx = Some v ∧ Forall (λ x, v ≤ x) loops) ∧
  (seq + len loops ≤ 2 ^ 32 → ∃ idxs, rr_run (length loops) rnd loops seq = Some idxs ∧ idxs ≡ₚ seqZ 0 (len loops)).
Proof.
  intros Hne Hl Hs Hid Hr. assert (0 < len loops) as Hn by (destruct loops; [done|cbn; lia]).
  assert (∃ idx x, SelectLoop LeastConnections rnd loops seq id = Some (seq, idx) ∧ loops !! Z.to_nat idx = Some x ∧ 0 ≤ idx < len loops ∧
    (Forall (λ x, x < 10000000) loops → Forall (λ y, x ≤ y) loops)) as (idx & x & Els & Hx & Hb & Hmin).
  { destruct (least_loop_spec loops 0 10000000 0) as [[E Hf]|(j & v & E & Hj & _ & Hf)]; unfold SelectLoop; rewrite E.
    - destruct (index_in loops 0 ltac:(lia)) as (x & Ex & Hx). rewrite Ex. exists 0, x. split; [done|]. split; [done|]. split; [lia|].
      intros Hlt. exfalso. destruct loops as [|y loops]; [done|]. apply list.Forall_cons in Hf as [Hf _]. apply list.Forall_cons in Hlt as [Hlt _]. lia.
    - assert (0 + Z.of_nat j < len loops) by (apply lookup_lt_Some in Hj; lia). destruct (index_in loops (0 + Z.of_nat j) ltac:(lia)) as (x & Ex & Hx).
      rewrite Ex. exists (0 + Z.of_nat j), x. split; [done|]. split; [done|]. split; [lia|]. intros _.
      replace (Z.to_nat (0 + Z.of_nat j)) with j in Hx by lia. by simplify_eq. }
  split_and!.
  - intros []; [| |by eauto|].
    + destruct (select_rr rnd loops seq id Hne ltac:(lia) Hs) as [-> Hq]. eauto.
    + unfold SelectLoop. replace (len loops <=? 0) with false by lia. destruct (index_in loops (rnd (len loops)) Hr) as (y & -> & _). eauto.
    + unfold SelectLoop. rewrite go_rem_Some by lia. cbn [mbind option_bind]. pose proof (Z.mod_pos_bound id (len loops) Hn).
      destruct (index_in loops (id mod len loops)) as (y & -> & _); [lia|]. eauto.
  - intros Hf. exists idx, x. eauto.
  - intros Hw. exists ((λ i, i mod len loops) <$> seqZ seq (len loops)). split; [apply rr_run_spec; lia || done|]. apply residues_perm; lia.
Qed.

Lemma SelectLoop_spec_witness :
  (∀ balance, ∃ seq' idx, SelectLoop balance (λ n, n - 1) [5; 2; 2] 7 11 = Some (seq', idx) ∧ 0 ≤ idx < len [5; 2; 2]) ∧
  (Forall (λ x, x < 10000000) [5; 2; 2] → ∃ idx v, SelectLoop LeastConnections (λ n, n - 1) [5; 2; 2] 7 11 = Some (7, idx) ∧
     [5; 2; 2] !! Z.to_nat idx = Some v ∧ Forall (λ x, v ≤ x) [5; 2; 2]) ∧
  (7 + len [5; 2; 2] ≤ 2 ^ 32 → ∃ idxs, rr_run 3 (λ n, n - 1) [5; 2; 2] 7 = Some idxs ∧ idxs ≡ₚ seqZ 0 (len [5; 2; 2])).
Proof. apply (SelectLoop_spec (λ n, n - 1) [5; 2; 2] 7 11); [done|cbn; lia..]. Defined.

(** ** Session tickets *)

Section TicketFacts.
Context (hmac_sha256 : list Z → list Z → list Z).

Lemma window_bounds now : 0 ≤ now →
  tlsSessionTicketWindowStartSec now = now / rotationSec * rotationSec ∧
  tlsSessionTicketWindowStartSec now ≤ now < tlsSessionTicketWindowStartSec now + rotationSec.
Proof.
  intros Hn. unfold tlsSessionTicketWindowStartSec. rewrite Z.quot_div_nonneg by (unfold rotationSec; lia).
  pose proof (Z.div_mod now rotationSec ltac:(unfold rotationSec; lia)). pose proof (Z.mod_pos_bound now rotationSec ltac:(unfold rotationSec; lia)).
  split; [done|]. lia.
Qed.

Lemma window_same w now : 0 ≤ now → tlsSessionTicketWindowStartSec w ≤ now → 0 ≤ w → now - tlsSessionTicketWindowStartSec w < rotationSec →
  tlsSessionTicketWindowStartSec now = tlsSessionTicketWindowStartSec w.
Proof.
  intros Hn Hle Hw Hlt. destruct (window_bounds w Hw) as [Ew _]. destruct (window_bounds now Hn) as [En _]. rewrite Ew in *. rewrite En. f_equal.
  symmetry. apply (Z.div_unique_pos now rotationSec (w / rotationSec) (now - w / rotationSec * rotationSec)); [|lia]. lia.
Qed.

(** The keys that the configuration holds are those of the window of the last tick. *)
Lemma rotation_follows cfg ticks : ∀ t now,
  0 ≤ now → Sorted Z.le (now :: ticks) → t_ticketKeys t = buildTLSSessionTicketKeys hmac_sha256 (c_TicketSeed cfg) (c_TicketContext cfg) (tlsSessionTicketWindowStartSec now) →
  let '(t', cur) := foldl (rotation_tick hmac_sha256 cfg) (t, tlsSessionTicketWindowStartSec now) ticks in
  t_ticketKeys t' = buildTLSSessionTicketKeys hmac_sha256 (c_TicketSeed cfg) (c_TicketContext cfg) (tlsSessionTicketWindowStartSec (List.last ticks now)).
Proof.
  induction ticks as [|x ticks IH]; intros t now Hn Hs Hk; [done|]. cbn [foldl].
  apply Sorted_inv in Hs as [Hs Hx]. inversion Hx as [|? ? Hle]; subst. destruct (window_bounds now Hn) as [_ Hb].
  assert (List.last (x :: ticks) now = List.last ticks x) as ->.
  { clear. revert x now. induction ticks as [|y ticks IH]; intros x now; [done|]. change (List.last (y :: ticks) now = List.last (y :: ticks) x). by rewrite !IH. }
  unfold rotation_tick at 2. destruct (Z.ltb_spec (x - tlsSessionTicketWindowStartSec now) rotationSec).
  - pose proof (window_same now x ltac:(lia) ltac:(lia) Hn ltac:(lia)) as E. rewrite <-E in Hk |- *. apply IH; [lia|done|done].
  - apply IH; [lia|done|done].
Qed.

Lemma build_elem seed ctx w o : o ∈ tlsSessionTicketKeyOffsets →
  deriveTLSSessionTicketKey hmac_sha256 seed ctx (wrapS 64 (w + o * rotationSec)) ∈ buildTLSSessionTicketKeys hmac_sha256 seed ctx w.
Proof. intros Ho. unfold buildTLSSessionTicketKeys. apply list_elem_of_fmap. by exists o. Qed.

(** C25: servers that share a seed and a context accept each other's session tickets: if one server
    has rotated its keys last at the time [ta] and another at [tb], then the key with which the
    first encrypts its tickets is among those the second decrypts with, whenever the second is at
    most one day window behind and seven ahead.  This holds for every two servers started at any
    time, whatever the times of the checks in between. *)
Theorem tickets_accepted_across_servers (t t' : TlsConfig) (cfg cfg' : SrvConfig) (a0 b0 : Z) (ticksA ticksB : list Z) :
  hasManagedTLSSessionTicketKeys cfg = true → hasManagedTLSSessionTicketKeys cfg' = true →
  c_TicketSeed cfg = c_TicketSeed cfg' → c_TicketContext cfg = c_TicketContext cfg' →
  0 ≤ a0 → 0 ≤ b0 → Sorted Z.le (a0 :: ticksA) → Sorted Z.le (b0 :: ticksB) →
  List.last ticksA a0 < 2 ^ 62 → List.last ticksB b0 < 2 ^ 62 →
  let wa := List.last ticksA a0 / rotationSec in
  let wb := List.last ticksB b0 / rotationSec in
  wa - 1 ≤ wb ≤ wa + 7 →
  ∃ key, head (t_ticketKeys (startTLSSessionTicketRotation hmac_sha256 t cfg a0 ticksA)) = Some key ∧
    key ∈ t_ticketKeys (startTLSSessionTicketRotation hmac_sha256 t' cfg' b0 ticksB).
Proof.
  intros Ha Hb Hseed Hctx Ha0 Hb0 HsA HsB HmA HmB wa wb Hw.
  assert (∀ ticks now, 0 ≤ now → Sorted Z.le (now :: ticks) → 0 ≤ List.last ticks now) as Hlast.
  { clear. intros ticks. induction ticks as [|x ticks IH]; intros now Hn Hs; [done|]. apply Sorted_inv in Hs as [Hs Hx]. inversion Hx; subst.
    destruct ticks as [|y ticks]; [cbn; lia|]. change (0 ≤ List.last (y :: ticks) now). apply IH; [done|]. constructor; [by apply Sorted_inv in Hs as [? _]|].
    apply Sorted_inv in Hs as [_ Hy]. inversion Hy; subst. constructor. lia. }
  assert (∀ t cfg now ticks, hasManagedTLSSessionTicketKeys cfg = true → 0 ≤ now → Sorted Z.le (now :: ticks) →
    t_ticketKeys (startTLSSessionTicketRotation hmac_sha256 t cfg now ticks) =
    buildTLSSessionTicketKeys hmac_sha256 (c_TicketSeed cfg) (c_TicketContext cfg) (List.last ticks now / rotationSec * rotationSec)) as Hkeys.
  { intros u c now ticks Hc Hn Hs. unfold startTLSSessionTicketRotation, applyManagedTLSSessionTicketKeys. rewrite Hc. cbn [negb].
    pose proof (rotation_follows c ticks (set_keys u (buildTLSSessionTicketKeys hmac_sha256 (c_TicketSeed c) (c_TicketContext c) (tlsSessionTicketWindowStartSec now)))
      now Hn Hs eq_refl) as Hr. destruct (foldl _ _ _) as [u' cur]. cbn [fst]. rewrite Hr. f_equal. apply window_bounds, Hlast; done. }
  rewrite !Hkeys by done. fold wa wb. pose proof (Hlast ticksA a0 Ha0 HsA) as HA. pose proof (Hlast ticksB b0 Hb0 HsB) as HB.
  eexists. split; [done|]. rewrite Hseed, Hctx. replace (wa * rotationSec + 0 * rotationSec) with (wb * rotationSec + (wa - wb) * rotationSec) by lia.
  apply build_elem. unfold tlsSessionTicketKeyOffsets. assert (wa - wb ∈ seqZ (-7) 9) as Hin by (apply elem_of_seqZ; lia). vm_compute seqZ in Hin. set_solver.
Qed.

End TicketFacts.

Definition ticket_cfg : SrvConfig := mkSrvConfig 1 [] [] [] (str "tls") 0 0 [] false (str "seed") (str "ctx") [].
Definition ticket_conf : TlsConfig := mkTlsConfig None false 0 0 [] [].

Lemma tickets_accepted_across_servers_witness :
  ∃ key, head (t_ticketKeys (startTLSSessionTicketRotation (λ k m, k ++ rev m) ticket_conf ticket_cfg 1000 [1001; 90000])) = Some key ∧
    key ∈ t_ticketKeys (startTLSSessionTicketRotation (λ k m, k ++ rev m) ticket_conf ticket_cfg 500000 [500001]).
Proof.
  apply (tickets_accepted_across_servers (λ k m, k ++ rev m) ticket_conf ticket_conf ticket_cfg ticket_cfg 1000 500000 [1001; 90000] [500001]);
    try reflexivity; try (vm_compute; split; discriminate); try discriminate; try (repeat constructor; discriminate).
Defined.

(** ** Starting *)

Section StartFacts.
Context (ReadFile : list Z → option (list Z)) (pem_Decode : list Z → option (list Z * list Z * list Z)) (key_pair : list Z → list Z → bool).

Abbreviation open_ln := (openListener ReadFile pem_Decode key_pair).

(** A listener of the endpoint [ep]: TLS, with the configuration of the server, if a key pair is given. *)
Definition ln_ok (cfg : SrvConfig) (t : option TlsConfig) (ep : list Z * list Z) (ln : listener) : Prop :=
  ln_addr ln = snd ep ∧
  (ln_tlsmode ln = ModeTls ↔ c_SslPem cfg ≠ [] ∧ c_SslKey cfg ≠ []) ∧
  (ln_tlsmode ln = ModeTls → is_Some (ln_config ln) ∧ c_SslMode cfg = str "tls" ∧ (is_Some t → ln_config ln = t)).

Lemma openListener_ok listen system ep cfg t ln : open_ln listen system ep cfg t = inr ln → ln_ok cfg t ep ln.
Proof.
  unfold openListener, ln_ok. cbn zeta. destruct (bool_decide (_ ≠ str "tcp")); [done|]. destruct (bool_decide (c_SslPem cfg ≠ [] ∧ c_SslKey cfg ≠ [])) eqn:Ep.
  - apply bool_decide_eq_true in Ep. destruct (bool_decide (c_SslMode cfg = str "tls")) eqn:Em; [|done]. apply bool_decide_eq_true in Em. destruct t as [t|]; [|destruct (buildTLSConfig _ _ _ _) as [e|t]; [done|]];
      destruct listen; try done; destruct system; try done; intros [= <-]; cbn;
      (split; [done|]; split; [done|]; intros _; split; [by eexists|]; split; [done|]; by intros [? ?]).
  - apply bool_decide_eq_false in Ep. destruct listen; [|done]. destruct system; [|done]. intros [= <-]. cbn. naive_solver.
Qed.

Lemma bind_loop_ok eps cfg t : ∀ oracle oracle' lns, bind_loop ReadFile pem_Decode key_pair oracle eps cfg t = (oracle', lns, None) →
  Forall2 (ln_ok cfg t) eps lns.
Proof.
  induction eps as [|ep eps IH]; intros oracle oracle' lns E; cbn [bind_loop] in E; [by simplify_eq|].
  destruct (match oracle with o :: _ => o | [] => _ end) as [listen system]. destruct (open_ln listen system ep cfg t) as [e|ln] eqn:Eo; [done|].
  destruct (bind_loop _ _ _ _ _ _ _) as [[o1 lns1] err1] eqn:Eb. simplify_eq. constructor; [by eapply openListener_ok|by eapply IH].
Qed.

Lemma bind_all_ok n cfg t : ∀ oracle loops, bind_all ReadFile pem_Decode key_pair oracle n cfg t = (loops, None) →
  length loops = n ∧ Forall (Forall2 (ln_ok cfg t) (c_ListenAddrs cfg)) loops.
Proof.
  induction n as [|n IH]; intros oracle loops E; cbn [bind_all] in E; [by simplify_eq|].
  destruct (bind_loop _ _ _ _ _ _ _) as [[o1 lns1] [e|]] eqn:Eb; [done|]. destruct (bind_all _ _ _ _ _ _ _) as [loops1 err1] eqn:Ea. simplify_eq.
  destruct (IH _ _ Ea) as [<- Hf]. split; [done|]. constructor; [by eapply bind_loop_ok|done].
Qed.

(** [start] either succeeds, with the wanted number of loops, each with one listener for every
    address in the given order, TLS ones with the configuration built from [cfg] if a key pair is configured, and the loops running; or it fails,
    with no loop and no handshake worker running, and no goroutine that rotates ticket keys. *)
Theorem start_all_or_nothing (oracle : list (bool * bool)) (workerNum : Z) (cfg : SrvConfig) :
  let '(s, err) := start ReadFile pem_Decode key_pair oracle workerNum cfg in
  match err with
  | None => s_running s = true ∧ length (s_loops s) = Z.to_nat workerNum ∧
      (∃ t, Forall (Forall2 (ln_ok cfg t) (c_ListenAddrs cfg)) (s_loops s) ∧ (is_Some t ↔ is_tls cfg = true) ∧
         (∀ t', t = Some t' → buildTLSConfig ReadFile pem_Decode key_pair cfg = inr t')) ∧
      (s_tlsWorker s = Some true ↔ is_tls cfg = true) ∧
      (s_rotation s = true ↔ is_tls cfg = true ∧ hasManagedTLSSessionTicketKeys cfg = true)
  | Some e => s_running s = false ∧ s_tlsWorker s ≠ Some true ∧ s_rotation s = false
  end.
Proof.
  unfold start. destruct (is_tls cfg) eqn:Et; [destruct (buildTLSConfig _ _ _ _) as [e|t]; [done|]|];
    (destruct (bind_all _ _ _ _ _ _ _) as [loops [e|]] eqn:Ea; [done|]); destruct (bind_all_ok _ _ _ _ _ Ea) as [Hl Hf]; cbn.
  - split_and!; [done|done| |done|naive_solver]. exists (Some t). split; [done|]. naive_solver.
  - split_and!; [done|done| |done|naive_solver]. exists None. split; [done|]. split; [|done]. by split; [intros [? ?]|].
Qed.

End StartFacts.

Definition start_cfg (mode : list Z) : SrvConfig :=
  mkSrvConfig 2 (str "pem") (str "key") [] mode 0 0 [] false [] [] [(str "tcp", str "a:1"); (str "TCP", str "b:2")].

(** The mode is compared without regard to case and blanks when the server decides whether it
    speaks TLS, but exactly when a listener is opened: with [TLS] the server does not start. *)
Example start_mode_case :
  (start (λ _, None) (λ _, None) (λ _ _, true) [] 2 (start_cfg (str "TLS"))).2 = Some ErrSslMode ∧
  (start (λ _, None) (λ _, None) (λ _ _, true) [] 2 (start_cfg (str "tls"))).2 = None.
Proof. vm_compute. done. Qed.

(** A listener that cannot be opened leaves those of the other loops open. *)
Example start_leaves_listeners :
  let '(s, err) := start (λ _, None) (λ _, None) (λ _ _, true) [(true, true); (true, true); (false, true)] 2 (start_cfg (str "tls")) in
  (length <$> s_loops s, err) = ([2%nat; 0%nat], Some ErrListen).
Proof. vm_compute. done. Qed.

(** ** Addresses *)

Lemma SplitBy_two a b fuel : Index (a ++ str "://") (str "://") = len a → Index b (str "://") < 0 → (1 < fuel)%nat →
  SplitBy fuel (a ++ str "://" ++ b) (str "://") = [a; b].
Proof.
  intros Ha Hb Hf. destruct fuel as [|[|fuel]]; [lia|lia|]. cbn [SplitBy].
  assert (Index (a ++ str "://" ++ b) (str "://") = len a) as ->.
  { rewrite app_assoc, Index_more by lia. done. }
  replace (len a <? 0) with false by lia. rewrite Nat2Z.id, take_app_length. rewrite <-drop_drop, drop_app_length.
  change (drop (length (str "://")) (str "://" ++ b)) with b. by replace (Index b (str "://") <? 0) with true by lia.
Qed.

(** The addresses that the documentation names are read as they are meant. *)
Lemma parseAddr_tcp host : Index host (str "://") < 0 → IndexByte host 63 < 0 → parseAddr (str "tcp://" ++ host) = inl (str "tcp", host).
Proof.
  intros Hh Hq. unfold parseAddr. change (str "tcp://" ++ host) with (str "tcp" ++ str "://" ++ host).
  rewrite SplitBy_two; [|by vm_compute|done|rewrite length_app; cbn; lia]. unfold before_byte. replace (IndexByte host 63 <? 0) with true by lia.
  vm_compute. done.
Qed.

Example parseAddr_examples :
  parseAddr (str "tcp://192.168.0.10:9851?reuse=true") = inl (str "tcp", str "192.168.0.10:9851") ∧
  parseAddr (str "localhost:80") = inl (str "tcp", str "localhost:80") ∧ parseAddr (str "udp://x:1") = inr (str "udp").
Proof. vm_compute. done. Qed.
