(* ===== verification/Json.v ===== *)
(** * encoding/json: the decoder that [load] of evio.go calls

    A document is scanned into a tree first, as [Unmarshal] checks the whole document before it
    stores anything.  A number keeps its literal, because its destination decides whether it
    fits.  A string is what [json_unquote] gives: escapes are replaced, and bytes that are not UTF-8
    are replaced by U+FFFD. *)

From stdpp Require Import strings.
From S2P Require Import Prelude Text Utf8.

Inductive json :=
| JNull
| JBool (b : bool)
| JNum (lit : list Z)
| JStr (s : list Z)
| JArr (l : list json)
| JObj (l : list (list Z * json)).

(** ** Scanner *)

Definition json_space (c : Z) : bool := (c =? 32) || (c =? 9) || (c =? 10) || (c =? 13).

Fixpoint skip_space (inp : list Z) : list Z :=
  match inp with [] => [] | c :: inp' => if json_space c then skip_space inp' else inp end.

Definition hex_val (c : Z) : option Z :=
  if between 48 57 c then Some (c - 48) else if between 97 102 c then Some (c - 87) else if between 65 70 c then Some (c - 55) else None.

(** The value of four hexadecimal digits: [getu4] after the backslash and the u. *)
Definition getu4 (l : list Z) : option Z := foldl (λ acc c, r ← acc; d ← hex_val c; Some (16 * r + d)) (Some 0) l.

(** The bytes up to the closing quote, escapes and all, and what follows it. *)
Fixpoint scan_string (inp : list Z) : option (list Z * list Z) :=
  match inp with
  | [] => None
  | c :: inp =>
      if c =? 34 then Some ([], inp)
      else if c =? 92 then
        match inp with
        | [] => None
        | e :: inp =>
            if bool_decide (e ∈ str "bfnrt/" ++ [92; 34]) then '(s, rest) ← scan_string inp; Some (c :: e :: s, rest)
            else if e =? 117 then
              match inp with
              | h1 :: h2 :: h3 :: h4 :: inp =>
                  _ ← getu4 [h1; h2; h3; h4]; '(s, rest) ← scan_string inp; Some (c :: e :: h1 :: h2 :: h3 :: h4 :: s, rest)
              | _ => None
              end
            else None
        end
      else if c <? 32 then None
      else '(s, rest) ← scan_string inp; Some (c :: s, rest)
  end.

Fixpoint scan_digits (inp : list Z) : list Z * list Z :=
  match inp with
  | c :: inp' => if between 48 57 c then let '(ds, rest) := scan_digits inp' in (c :: ds, rest) else ([], inp)
  | [] => ([], [])
  end.

(** At least one digit. *)
Definition scan_digits1 (inp : list Z) : option (list Z * list Z) :=
  let '(ds, rest) := scan_digits inp in if bool_decide (ds = []) then None else Some (ds, rest).

(** A number: a sign, digits without a leading zero, a fraction, an exponent. *)
Definition scan_number (inp : list Z) : option (list Z * list Z) :=
  let '(sign, inp) := match inp with c :: inp' => if c =? 45 then ([45], inp') else ([], inp) | [] => ([], []) end in
  '(int, inp) ← match inp with
                | c :: inp' => if c =? 48 then Some ([48], inp') else scan_digits1 inp
                | [] => None
                end;
  '(frac, inp) ← match inp with
                 | c :: inp' => if c =? 46 then '(ds, rest) ← scan_digits1 inp'; Some (46 :: ds, rest) else Some ([], inp)
                 | [] => Some ([], [])
                 end;
  '(exp, inp) ← match inp with
                | c :: inp' =>
                    if (c =? 101) || (c =? 69) then
                      let '(s, inp') := match inp' with
                                        | d :: inp'' => if (d =? 43) || (d =? 45) then ([d], inp'') else ([], inp')
                                        | [] => ([], [])
                                        end in
                      '(ds, rest) ← scan_digits1 inp'; Some (c :: s ++ ds, rest)
                    else Some ([], inp)
                | [] => Some ([], [])
                end;
  Some (sign ++ int ++ frac ++ exp, inp).

(** ** Strings *)

(** [utf8.EncodeRune] *)
Definition EncodeRune (r : Z) : list Z :=
  if r <? 0x80 then [r]
  else if r <? 0x800 then [0xC0 + r / 64; 0x80 + r mod 64]
  else if r <? 0x10000 then [0xE0 + r / 4096; 0x80 + r / 64 mod 64; 0x80 + r mod 64]
  else [0xF0 + r / 262144; 0x80 + r / 4096 mod 64; 0x80 + r / 64 mod 64; 0x80 + r mod 64].

Definition RuneError : Z := 0xFFFD.
Definition surrogate (r : Z) : bool := between 0xD800 0xDFFF r.

(** The rune of an escape and the bytes after it: a high surrogate takes the low one that follows. *)
Definition unquote_u (r : Z) (rest : list Z) : Z * list Z :=
  if surrogate r then
    match rest with
    | b :: u :: h1 :: h2 :: h3 :: h4 :: rest' =>
        match getu4 [h1; h2; h3; h4] with
        | Some r2 =>
            if (b =? 92) && (u =? 117) && between 0xD800 0xDBFF r && between 0xDC00 0xDFFF r2
            then ((r - 0xD800) * 1024 + (r2 - 0xDC00) + 0x10000, rest') else (RuneError, rest)
        | None => (RuneError, rest)
        end
    | _ => (RuneError, rest)
    end
  else (r, rest).

Definition unescape (e : Z) : Z :=
  if e =? 98 then 8 else if e =? 102 then 12 else if e =? 110 then 10 else if e =? 114 then 13 else if e =? 116 then 9 else e.

(** Each round takes a byte of a scanned string at least. *)
Fixpoint json_unquote (fuel : nat) (s : list Z) : list Z :=
  match fuel, s with
  | O, _ | _, [] => []
  | S fuel, c :: s' =>
      if c =? 92 then
        match s' with
        | [] => []
        | e :: s' =>
            if e =? 117 then
              match getu4 (take 4 s') with
              | Some r => let '(r, rest) := unquote_u r (drop 4 s') in EncodeRune r ++ json_unquote fuel rest
              | None => []
              end
            else unescape e :: json_unquote fuel s'
        end
      else if c <? RuneSelf then c :: json_unquote fuel s'
      else
        let size := DecodeRune s in
        if size =? 1 then EncodeRune RuneError ++ json_unquote fuel s'
        else take (Z.to_nat size) s ++ json_unquote fuel (drop (Z.to_nat size) s)
  end.

Definition scan_quoted (inp : list Z) : option (list Z * list Z) :=
  '(raw, rest) ← scan_string inp; Some (json_unquote (length raw) raw, rest).

(** ** Documents *)

Definition maxNestingDepth : Z := 10000.

Definition literal (word : list Z) (v : json) (inp : list Z) : option (json * list Z) :=
  if is_prefix word inp then Some (v, drop (length word) inp) else None.

(** [depth] objects and arrays are open.  Every call takes a byte, so the length of the document
    is fuel enough. *)
Fixpoint scan_value (fuel : nat) (depth : Z) (inp : list Z) : option (json * list Z) :=
  match fuel with
  | O => None
  | S fuel =>
      match skip_space inp with
      | [] => None
      | (c :: rest) as inp =>
          if c =? 34 then '(s, rest) ← scan_quoted rest; Some (JStr s, rest)
          else if c =? 91 then
            if maxNestingDepth <? depth + 1 then None
            else if is_prefix [93] (skip_space rest) then Some (JArr [], drop 1 (skip_space rest))
            else '(l, rest) ← scan_elements fuel (depth + 1) rest; Some (JArr l, rest)
          else if c =? 123 then
            if maxNestingDepth <? depth + 1 then None
            else if is_prefix [125] (skip_space rest) then Some (JObj [], drop 1 (skip_space rest))
            else '(l, rest) ← scan_members fuel (depth + 1) rest; Some (JObj l, rest)
          else if c =? 116 then literal (str "true") (JBool true) inp
          else if c =? 102 then literal (str "false") (JBool false) inp
          else if c =? 110 then literal (str "null") JNull inp
          else '(n, rest) ← scan_number inp; Some (JNum n, rest)
      end
  end
with scan_elements (fuel : nat) (depth : Z) (inp : list Z) : option (list json * list Z) :=
  match fuel with
  | O => None
  | S fuel =>
      '(v, rest) ← scan_value fuel depth inp;
      match skip_space rest with
      | c :: rest =>
          if c =? 44 then '(l, rest) ← scan_elements fuel depth rest; Some (v :: l, rest)
          else if c =? 93 then Some ([v], rest) else None
      | [] => None
      end
  end
with scan_members (fuel : nat) (depth : Z) (inp : list Z) : option (list (list Z * json) * list Z) :=
  match fuel with
  | O => None
  | S fuel =>
      match skip_space inp with
      | c :: rest =>
          if negb (c =? 34) then None
          else
            '(k, rest) ← scan_quoted rest;
            match skip_space rest with
            | c :: rest =>
                if negb (c =? 58) then None
                else
                  '(v, rest) ← scan_value fuel depth rest;
                  match skip_space rest with
                  | c :: rest =>
                      if c =? 44 then '(l, rest) ← scan_members fuel depth rest; Some ((k, v) :: l, rest)
                      else if c =? 125 then Some ([(k, v)], rest) else None
                  | [] => None
                  end
            | [] => None
            end
      | [] => None
      end
  end.

(** The whole text is one value; [None] is a [SyntaxError]. *)
Definition json_parse (text : list Z) : option json :=
  '(v, rest) ← scan_value (S (2 * length text)) 0 text;
  if bool_decide (skip_space rest = []) then Some v else None.

(** A document written with apostrophes for quotes. *)
Definition quoted (s : string) : list Z := (λ c, if c =? 39 then 34 else c) <$> str s.

Example json_small :
  json_parse (quoted " {'a': [1, -2.5e3, null], 'b\u00e9\n' : {'c':true}} ") =
    Some (JObj [([97], JArr [JNum (str "1"); JNum (str "-2.5e3"); JNull]); ([98; 0xC3; 0xA9; 10], JObj [(str "c", JBool true)])]).
Proof. vm_compute. reflexivity. Qed.

Example json_bad :
  json_parse (quoted "{'a': 01}") = None ∧ json_parse (quoted "[1,]") = None ∧ json_parse (quoted "{} x") = None ∧
  json_parse (quoted "'\ud83d\ude00 \ud83d'") = Some (JStr ([0xF0; 0x9F; 0x98; 0x80; 32] ++ [0xEF; 0xBF; 0xBD])).
Proof. vm_compute. done. Qed.

(** ** The fuel is enough *)

Lemma skip_space_len inp : (length (skip_space inp) ≤ length inp)%nat.
Proof. induction inp as [|c inp IH]; cbn; [lia|]. destruct (json_space c); cbn; lia. Qed.

(** Every scanner that succeeds leaves a shorter text. *)
Definition eats {A} (inp : list Z) (r : option (A * list Z)) : Prop := ∀ x rest, r = Some (x, rest) → (length rest < length inp)%nat.

Lemma eats_None {A} inp : eats (A := A) inp None.
Proof. done. Qed.

Lemma eats_Some {A} inp (x : A) rest : (length rest < length inp)%nat → eats inp (Some (x, rest)).
Proof. by intros ? ? ? [= <- <-]. Qed.

Lemma eats_bind {A B} inp inp' (r : option (A * list Z)) (f : A * list Z → option (B * list Z)) :
  eats inp r → (length inp ≤ length inp')%nat → (∀ x rest, (length rest < length inp)%nat → eats inp' (f (x, rest))) → eats inp' (r ≫= f).
Proof. intros Hr Hl Hf. destruct r as [[x rest]|]; [|done]. apply Hf. by eapply Hr. Qed.

Create HintDb eats.
#[local] Hint Resolve eats_None : eats.
#[local] Hint Extern 5 (eats _ (Some _)) => apply eats_Some; cbn [length] in *; lia : eats.

Lemma scan_string_eats n : ∀ inp, (length inp ≤ n)%nat → eats inp (scan_string inp).
Proof.
  induction n as [|n IH]; intros [|c inp] Hn; cbn [length] in Hn; try lia; try apply eats_None. cbn [scan_string].
  assert (∀ (k : nat) (pre : list Z), eats (c :: inp) ('(s, rest) ← scan_string (drop k inp); Some (pre ++ s, rest))) as Hb.
  { intros k pre. eapply eats_bind; [apply IH; rewrite length_drop; lia|rewrite length_drop; cbn; lia|]. intros s rest Hr. apply eats_Some.
    rewrite length_drop in Hr. cbn. lia. }
  destruct (c =? 34); [by apply eats_Some; cbn; lia|]. destruct (c =? 92); [|destruct (c <? 32); [done|apply (Hb 0%nat [c])]].
  destruct inp as [|e inp]; [done|]. case_bool_decide; [apply (Hb 1%nat [c; e])|]. destruct (e =? 117); [|done].
  destruct inp as [|h1 [|h2 [|h3 [|h4 inp]]]]; try done. destruct (getu4 _); [|done]. apply (Hb 5%nat [c; e; h1; h2; h3; h4]).
Qed.

Lemma scan_quoted_eats inp : eats inp (scan_quoted inp).
Proof. eapply eats_bind; [by apply (scan_string_eats (length inp))|done|]. intros. by apply eats_Some. Qed.

Lemma scan_digits_len inp : let '(ds, rest) := scan_digits inp in (length ds + length rest = length inp)%nat.
Proof. induction inp as [|c inp IH]; [done|]. cbn [scan_digits]. destruct (between 48 57 c); [|done]. destruct (scan_digits inp). cbn. lia. Qed.

Lemma scan_digits1_eats inp : eats inp (scan_digits1 inp).
Proof.
  unfold scan_digits1. pose proof (scan_digits_len inp). destruct (scan_digits inp) as [[|d ds] rest]; [done|]. rewrite bool_decide_eq_false_2 by done. auto with eats.
Qed.

(** An optional part may leave the text as it is. *)
Lemma scan_number_eats inp : eats inp (scan_number inp).
Proof.
  unfold scan_number.
  set (sg := match inp with c :: inp' => if c =? 45 then ([45], inp') else ([], inp) | [] => ([], []) end).
  assert (length sg.2 ≤ length inp)%nat as Hs by (subst sg; destruct inp as [|c inp]; [done|]; destruct (c =? 45); cbn; lia).
  destruct sg as [sign inp1]. cbn in Hs. eapply (eats_bind inp1); [|done|].
  { destruct inp1 as [|c inp1]; [done|]. destruct (c =? 48); [auto with eats|apply scan_digits1_eats]. }
  intros int inp2 H2. eapply (eats_bind (0 :: inp2)); [|cbn; lia|].
  { destruct inp2 as [|c inp2]; [auto with eats|]. destruct (c =? 46); [|auto with eats].
    eapply eats_bind; [apply scan_digits1_eats|cbn; lia|]. auto with eats. }
  intros frac inp3 H3. cbn in H3. eapply (eats_bind (0 :: inp3)); [|cbn; lia|].
  { destruct inp3 as [|c inp3]; [auto with eats|]. destruct ((c =? 101) || (c =? 69)); [|auto with eats].
    set (sg := match inp3 with d :: inp'' => if (d =? 43) || (d =? 45) then ([d], inp'') else ([], inp3) | [] => ([], []) end).
    assert (length sg.2 ≤ length inp3)%nat as He by (subst sg; destruct inp3 as [|d inp3]; [done|]; destruct ((d =? 43) || (d =? 45)); cbn; lia).
    destruct sg as [s inp4]. cbn in He. eapply eats_bind; [apply scan_digits1_eats|cbn; lia|]. auto with eats. }
  intros exp inp4 H4. cbn in H4. auto with eats.
Qed.

Lemma literal_eats word v inp : word ≠ [] → eats inp (literal word v inp).
Proof.
  intros Hw. unfold literal. destruct (is_prefix word inp) eqn:E; [|done]. apply eats_Some. rewrite length_drop.
  destruct word as [|x word], inp as [|y inp]; try done. cbn. lia.
Qed.

(** The text after white space and one byte, as the scanners go on. *)
Lemma skip_cons inp c rest : skip_space inp = c :: rest → (length rest < length inp)%nat.
Proof. intros E. pose proof (skip_space_len inp). rewrite E in *. cbn in *. lia. Qed.

Lemma scan_eats fuel :
  (∀ d inp, eats inp (scan_value fuel d inp)) ∧ (∀ d inp, eats inp (scan_elements fuel d inp)) ∧ (∀ d inp, eats inp (scan_members fuel d inp)).
Proof.
  induction fuel as [|fuel (IHv & IHe & IHm)]; [done|]. split_and!; intros d inp.
  - cbn [scan_value]. destruct (skip_space inp) as [|c rest] eqn:E; [done|]. pose proof (skip_cons _ _ _ E) as Hr.
    pose proof (skip_space_len rest). assert (length (c :: rest) ≤ length inp)%nat by (cbn; lia).
    destruct (c =? 34); [eapply eats_bind; [apply scan_quoted_eats|lia|]; auto with eats|].
    destruct (c =? 91); [destruct (_ <? _); [done|]; destruct (is_prefix _ _); [apply eats_Some; rewrite length_drop; lia|];
      eapply eats_bind; [apply IHe|lia|]; auto with eats|].
    destruct (c =? 123); [destruct (_ <? _); [done|]; destruct (is_prefix _ _); [apply eats_Some; rewrite length_drop; lia|];
      eapply eats_bind; [apply IHm|lia|]; auto with eats|].
    assert (∀ word v, word ≠ [] → eats inp (literal word v (c :: rest))) as Hlit.
    { intros word v Hw x r Er. pose proof (literal_eats word v (c :: rest) Hw x r Er). lia. }
    do 3 (case_match; [by apply Hlit|]). eapply eats_bind; [apply scan_number_eats|done|]. auto with eats.
  - cbn [scan_elements]. eapply eats_bind; [apply IHv|done|]. intros v rest Hr.
    destruct (skip_space rest) as [|c rest'] eqn:E; [done|]. pose proof (skip_cons _ _ _ E).
    destruct (c =? 44); [eapply eats_bind; [apply IHe|lia|]; auto with eats|]. destruct (c =? 93); auto with eats.
  - cbn [scan_members]. destruct (skip_space inp) as [|c rest] eqn:E; [done|]. pose proof (skip_cons _ _ _ E).
    destruct (negb _); [done|]. eapply eats_bind; [apply scan_quoted_eats|lia|]. intros k rest1 H1.
    destruct (skip_space rest1) as [|c1 rest2] eqn:E1; [done|]. pose proof (skip_cons _ _ _ E1).
    destruct (negb _); [done|]. eapply eats_bind; [apply IHv|lia|]. intros v rest3 H3.
    destruct (skip_space rest3) as [|c2 rest4] eqn:E2; [done|]. pose proof (skip_cons _ _ _ E2).
    destruct (c2 =? 44); [eapply eats_bind; [apply IHm|lia|]; auto with eats|]. destruct (c2 =? 125); auto with eats.
Qed.

Lemma bind_agree {A B} inp (r1 r2 : option (A * list Z)) (f g : A * list Z → option B) :
  r1 = r2 → eats inp r1 → (∀ x rest, (length rest < length inp)%nat → f (x, rest) = g (x, rest)) → r1 ≫= f = r2 ≫= g.
Proof. intros <- Hr Hf. destruct r1 as [[x rest]|]; [|done]. apply Hf. by eapply Hr. Qed.

Lemma scan_fuel fuel :
  (∀ d inp, (2 * length inp < fuel)%nat → scan_value fuel d inp = scan_value (S fuel) d inp) ∧
  (∀ d inp, (2 * length inp + 1 < fuel)%nat → scan_elements fuel d inp = scan_elements (S fuel) d inp) ∧
  (∀ d inp, (2 * length inp + 1 < fuel)%nat → scan_members fuel d inp = scan_members (S fuel) d inp).
Proof.
  induction fuel as [|fuel (IHv & IHe & IHm)]; [split_and!; intros; lia|].
  destruct (scan_eats fuel) as (Ev & Ee & Em). split_and!; intros d inp Hf; remember (S fuel) as f1 eqn:Hf1.
  - rewrite Hf1 at 1. cbn [scan_value]. destruct (skip_space inp) as [|c rest] eqn:E; [done|]. pose proof (skip_cons _ _ _ E) as Hr.
    destruct (c =? 34); [done|]. do 2 (case_match; [case_match; [done|]; case_match; [done|]; subst f1; eapply bind_agree; [first [apply IHe|apply IHm]; lia|done|done]|]). done.
  - rewrite Hf1 at 1. cbn [scan_elements]. subst f1. eapply bind_agree; [apply IHv; lia|apply Ev|]. intros v rest Hr.
    destruct (skip_space rest) as [|c rest'] eqn:E; [done|]. pose proof (skip_cons _ _ _ E). destruct (c =? 44); [|done].
    eapply bind_agree; [apply IHe; lia|apply Ee|done].
  - rewrite Hf1 at 1. cbn [scan_members]. subst f1. destruct (skip_space inp) as [|c rest] eqn:E; [done|]. pose proof (skip_cons _ _ _ E).
    destruct (negb _); [done|]. eapply bind_agree; [done|apply scan_quoted_eats|]. intros k rest1 H1.
    destruct (skip_space rest1) as [|c1 rest2] eqn:E1; [done|]. pose proof (skip_cons _ _ _ E1).
    destruct (negb _); [done|]. eapply bind_agree; [apply IHv; lia|apply Ev|]. intros v rest3 H3.
    destruct (skip_space rest3) as [|c2 rest4] eqn:E2; [done|]. pose proof (skip_cons _ _ _ E2).
    destruct (c2 =? 44); [|done]. eapply bind_agree; [apply IHm; lia|apply Em|done].
Qed.

(** The scanner stops at the end of a value or at an error, never for want of fuel. *)
Lemma json_parse_fuel fuel text : (2 * length text < fuel)%nat →
  json_parse text = ('(v, rest) ← scan_value fuel 0 text; if bool_decide (skip_space rest = []) then Some v else None).
Proof.
  intros Hf. unfold json_parse. f_equal. induction Hf as [|fuel Hf IH]; [done|]. rewrite IH. by apply scan_fuel.
Qed.
