(* ===== verification/Serve.v ===== *)
(** * evio.go, server.go: from a configuration to a running server

    [Serve] loads a file, [ServeByConfig] takes a configuration; both end in [serve], which sets
    the server up, starts it and hands it to the application.  Files, sockets, the number
    of processors and the parameters of Server.v are parameters here too.  [None] is a panic. *)

From stdpp Require Import strings.
From S2P Require Import Prelude Text HttpUtil TlsStrict KtlsKeys KtlsSetup Server Json.

(** ** Configuration *)

(** A slice: the elements up to its capacity that were ever written, and its length. *)
Record Slice (A : Type) := mkSlice { sl_back : list A; sl_len : nat }.
Arguments mkSlice {A}. Arguments sl_back {A}. Arguments sl_len {A}.

Definition sl_nil {A} : Slice A := mkSlice [] 0.
Definition sl_elems {A} (s : Slice A) : list A := take (sl_len s) (sl_back s).

(** [EVEndpoint]; [ep_Ctx] says whether the context is set. *)
Record EVEndpoint := mkEndpoint { ep_Address : list Z; ep_Net : list Z; ep_Reuse : bool; ep_Ctx : bool }.

Definition Network (ep : EVEndpoint) : list Z := ep_Net ep.
Definition String_ (ep : EVEndpoint) : list Z := ep_Address ep.
Definition IsReuse (ep : EVEndpoint) : bool := ep_Reuse ep.
Definition GetContext (ep : EVEndpoint) : bool := ep_Ctx ep.

(** An endpoint of the list is an interface value, [None] when it is nil; [e_IDGen] says whether a
    generator is set. *)
Record EvConf := mkEvConf {
  e_Ncpu : Z; e_LbStrategy : list Z; e_SslPem : list Z; e_SslKey : list Z; e_SslOcspStaple : list Z; e_SslMode : list Z;
  e_TlsEngine : list Z; e_KTLSPolicy : list Z; e_TlsMinVersion : Z; e_TlsMaxVersion : Z; e_TlsNextProtos : Slice (list Z);
  e_TicketsDisabled : bool; e_TicketSeed : list Z; e_TicketContext : list Z; e_ListenAddrs : Slice (option EVEndpoint);
  e_PollWait : Z; e_TwInterval : Z; e_DialKeepAlive : bool; e_DialPolling : bool;
  e_PktSizeLimit : Z; e_BufSize : Z; e_ChanSize : Z; e_MaxAcceptFD : Z; e_IdleCheckInt : Z; e_IdleLimit : Z;
  e_CliSendBufLimit : Z; e_PrintStat : bool; e_IDGen : bool;
}.

Definition zero_conf : EvConf :=
  mkEvConf 0 [] [] [] [] [] [] [] 0 0 sl_nil false [] [] sl_nil 0 0 false false 0 0 0 0 0 0 0 false false.

Definition GetDefaultConfig : EvConf :=
  mkEvConf (-1) (str "hash") [] [] [] [] (str "atls") (str "tls12-tx") 0 0 sl_nil false [] [] sl_nil (-1) 0 false false
    (64 * 1024 * 1024) 1048576 8192 (-1) 1 0 (48 * 1024) false false.

(** ** Loading: json.Unmarshal into [EvConf] *)

(** A value of the document into a variable: the variable, and whether an [UnmarshalTypeError]
    is saved, in which case the variable keeps its value.  A null leaves a variable as it is. *)
Definition dec_string (old : list Z) (v : json) : list Z * bool :=
  match v with JStr s => (s, false) | JNull => (old, false) | _ => (old, true) end.

Definition dec_bool (old : bool) (v : json) : bool * bool :=
  match v with JBool b => (b, false) | JNull => (old, false) | _ => (old, true) end.

Definition dec_int (old : Z) (v : json) : Z * bool :=
  match v with JNum lit => match Atoi lit with Some n => (n, false) | None => (old, true) end | JNull => (old, false) | _ => (old, true) end.

Definition dec_uint16 (old : Z) (v : json) : Z * bool :=
  match v with
  | JNum lit => match digits 0 lit with Some n => if n <? 2 ^ 16 then (n, false) else (old, true) | None => (old, true) end
  | JNull => (old, false)
  | _ => (old, true)
  end.

(** A nil interface with methods, as in a zero configuration: nothing but null can be stored. *)
Definition dec_iface {A} (old : option A) (v : json) : option A * bool :=
  match v with JNull => (None, false) | _ => (old, true) end.

(** An array is decoded into the elements the slice has, and then into new ones. *)
Fixpoint dec_elems {A} (zero : A) (dec : A → json → A * bool) (back : list A) (l : list json) : list A * bool :=
  match l with
  | [] => (back, false)
  | v :: l =>
      let '(x, e1) := dec (default zero (head back)) v in
      let '(xs, e2) := dec_elems zero dec (tail back) l in
      (x :: xs, e1 || e2)
  end.

Definition dec_slice {A} (zero : A) (dec : A → json → A * bool) (old : Slice A) (v : json) : Slice A * bool :=
  match v with
  | JArr [] | JNull => (sl_nil, false)
  | JArr l => let '(back, e) := dec_elems zero dec (sl_back old) l in (mkSlice back (length l), e)
  | _ => (old, true)
  end.

(** [foldName]: ASCII letters, and the two other characters that fold to one, the long s and the
    Kelvin sign. *)
Fixpoint foldName (k : list Z) : list Z :=
  match k with
  | 0xC5 :: ((0xBF :: k) as k') => 115 :: foldName k
  | 0xE2 :: ((0x84 :: ((0xAA :: k) as k'')) as k') => 107 :: foldName k
  | c :: k => lower c :: foldName k
  | [] => []
  end.

Definition key_is (name : string) (k : list Z) : bool := bool_decide (foldName k = foldName (str name)).

(** The members of the document with the name of a field, in their order; the other members are
    skipped.  A member touches no other field, so each field goes through the document by itself. *)
Definition dec_field {A} (name : string) (dec : A → json → A * bool) (members : list (list Z * json)) (old : A) : A * bool :=
  foldl (λ '(x, e) '(k, v), if key_is name k then let '(x', e') := dec x v in (x', e || e') else (x, e)) (old, false) members.

(** The configuration, and whether [Unmarshal] returns an error. *)
Definition Unmarshal (doc : json) (c : EvConf) : EvConf * bool :=
  match doc with
  | JNull => (c, false)
  | JObj ms =>
      let '(x1, e1) := dec_field "ncpu" dec_int ms (e_Ncpu c) in
      let '(x2, e2) := dec_field "lbStrategy" dec_string ms (e_LbStrategy c) in
      let '(x3, e3) := dec_field "sslPem" dec_string ms (e_SslPem c) in
      let '(x4, e4) := dec_field "sslKey" dec_string ms (e_SslKey c) in
      let '(x5, e5) := dec_field "sslOcspStaple" dec_string ms (e_SslOcspStaple c) in
      let '(x6, e6) := dec_field "sslMode" dec_string ms (e_SslMode c) in
      let '(x7, e7) := dec_field "tlsEngine" dec_string ms (e_TlsEngine c) in
      let '(x8, e8) := dec_field "ktlsPolicy" dec_string ms (e_KTLSPolicy c) in
      let '(x9, e9) := dec_field "tlsMinVersion" dec_uint16 ms (e_TlsMinVersion c) in
      let '(x10, e10) := dec_field "tlsMaxVersion" dec_uint16 ms (e_TlsMaxVersion c) in
      let '(x11, e11) := dec_field "tlsNextProtos" (dec_slice [] dec_string) ms (e_TlsNextProtos c) in
      let '(x12, e12) := dec_field "tlsSessionTicketsDisabled" dec_bool ms (e_TicketsDisabled c) in
      let '(x13, e13) := dec_field "tlsSessionTicketSeed" dec_string ms (e_TicketSeed c) in
      let '(x14, e14) := dec_field "tlsSessionTicketContext" dec_string ms (e_TicketContext c) in
      let '(x15, e15) := dec_field "listenAddrs" (dec_slice None dec_iface) ms (e_ListenAddrs c) in
      let '(x16, e16) := dec_field "pollWait" dec_int ms (e_PollWait c) in
      let '(x17, e17) := dec_field "twInterval" dec_int ms (e_TwInterval c) in
      let '(x18, e18) := dec_field "dialKeepAlive" dec_bool ms (e_DialKeepAlive c) in
      let '(x19, e19) := dec_field "dialPolling" dec_bool ms (e_DialPolling c) in
      let '(x20, e20) := dec_field "pktSizeLimit" dec_int ms (e_PktSizeLimit c) in
      let '(x21, e21) := dec_field "bufSize" dec_int ms (e_BufSize c) in
      let '(x22, e22) := dec_field "chanSize" dec_int ms (e_ChanSize c) in
      let '(x23, e23) := dec_field "maxAcceptFD" dec_int ms (e_MaxAcceptFD c) in
      let '(x24, e24) := dec_field "idleCheckInt" dec_int ms (e_IdleCheckInt c) in
      let '(x25, e25) := dec_field "idleLimit" dec_int ms (e_IdleLimit c) in
      let '(x26, e26) := dec_field "cliSbufLimit" dec_int ms (e_CliSendBufLimit c) in
      let '(x27, e27) := dec_field "printStat" dec_bool ms (e_PrintStat c) in
      let '(x28, e28) := dec_field "IDGen" dec_iface ms (if e_IDGen c then Some tt else None) in
      (mkEvConf x1 x2 x3 x4 x5 x6 x7 x8 x9 x10 x11 x12 x13 x14 x15 x16 x17 x18 x19 x20 x21 x22 x23 x24 x25 x26 x27 (bool_decide (is_Some x28)),
       e1 || e2 || e3 || e4 || e5 || e6 || e7 || e8 || e9 || e10 || e11 || e12 || e13 || e14 || e15 || e16 || e17 || e18 || e19 || e20 || e21 || e22 || e23 || e24 || e25 || e26 || e27 || e28)
  | _ => (c, true)
  end.

Inductive LoadErr := ErrLoadFile | ErrParseConfig.

(** [file] is what [os.ReadFile] returns, [None] for an error. *)
Definition load (file : option (list Z)) : LoadErr + EvConf :=
  match file with
  | None | Some [] => inl ErrLoadFile
  | Some bytes =>
      match json_parse bytes with
      | None => inl ErrParseConfig
      | Some doc => let '(config, err) := Unmarshal doc zero_conf in if err then inl ErrParseConfig else inr config
      end
  end.

(** ** Serving *)

Inductive ServeErr := ErrNilConfig | ErrLoad (e : LoadErr) | ErrStart (e : StartErr).

(** What [serve] starts or calls, in order; [SvClean] is the call that waits for the end. *)
Inductive srv_event := SvGoClean | SvReady | SvStat (print : bool) | SvKeepAlive | SvPolling | SvClean.

(** The variables of packages connection and internal/ktls that are set. *)
Record Globals := mkGlobals { gl_engine : TLSEngine; gl_conn : KtlsKnobs; gl_ktls : KtlsKnobs }.

Definition set_versions (c : EvConf) (vmin vmax : Z) : EvConf :=
  mkEvConf (e_Ncpu c) (e_LbStrategy c) (e_SslPem c) (e_SslKey c) (e_SslOcspStaple c) (e_SslMode c) (e_TlsEngine c) (e_KTLSPolicy c)
    vmin vmax (e_TlsNextProtos c) (e_TicketsDisabled c) (e_TicketSeed c) (e_TicketContext c) (e_ListenAddrs c)
    (e_PollWait c) (e_TwInterval c) (e_DialKeepAlive c) (e_DialPolling c) (e_PktSizeLimit c) (e_BufSize c) (e_ChanSize c)
    (e_MaxAcceptFD c) (e_IdleCheckInt c) (e_IdleLimit c) (e_CliSendBufLimit c) (e_PrintStat c) (e_IDGen c).

Definition srv_config (c : EvConf) (eps : list EVEndpoint) : SrvConfig :=
  mkSrvConfig (e_Ncpu c) (e_SslPem c) (e_SslKey c) (e_SslOcspStaple c) (e_SslMode c) (e_TlsMinVersion c) (e_TlsMaxVersion c)
    (sl_elems (e_TlsNextProtos c)) (e_TicketsDisabled c) (e_TicketSeed c) (e_TicketContext c) ((λ ep, (Network ep, String_ ep)) <$> eps).

(** The endpoints before the first that is nil, and whether there is one. *)
Fixpoint until_nil (l : list (option EVEndpoint)) : list EVEndpoint * bool :=
  match l with
  | [] => ([], false)
  | None :: _ => ([], true)
  | Some ep :: l => let '(eps, bad) := until_nil l in (ep :: eps, bad)
  end.

Section Serve.
Context (ReadFile : list Z → option (list Z)) (pem_Decode : list Z → option (list Z * list Z * list Z)) (key_pair : list Z → list Z → bool).
Context (numCPU : Z).

(** [s.start()].  [make] of a channel of negative size panics, and so does the first loop at an
    endpoint that is nil, if it gets there.  The pollers of the loops are taken to open. *)
Definition start_conf (oracle : list (bool * bool)) (workerNum : Z) (c : EvConf) : option (Server * option StartErr) :=
  if (0 <? workerNum) && (e_ChanSize c <? 0) then None
  else
    let '(eps, bad) := until_nil (sl_elems (e_ListenAddrs c)) in
    if bad && (0 <? workerNum) then
      match start ReadFile pem_Decode key_pair oracle 1 (srv_config c eps) with
      | (s, Some e) => Some (mkServer (s_loops s ++ replicate (Z.to_nat (workerNum - 1)) []) (s_tlsWorker s) false false, Some e)
      | (_, None) => None
      end
    else Some (start ReadFile pem_Decode key_pair oracle workerNum (srv_config c eps)).

(** The engine and the policy of a server with TLS. *)
Definition set_engine (G : Globals) (c : EvConf) : Globals * EvConf :=
  if bool_decide (normal (e_SslMode c) = str "tls") then
    let engine := ResolveTLSEngine (e_TlsEngine c) in
    match engine with
    | TLSEngineKTLS =>
        let '(pc, conn, kt) := applyKTLSPolicy (mkEvConfig (e_KTLSPolicy c) (e_TlsMinVersion c) (e_TlsMaxVersion c)) (gl_conn G) in
        (mkGlobals engine conn kt, set_versions c (TlsMinVersion pc) (TlsMaxVersion pc))
    | TLSEngineATLS => (mkGlobals engine (gl_conn G) (gl_ktls G), c)
    end
  else (G, c).

(** [h] says whether there is a handler.  With [standalone] the deferred [clean] runs last, and
    [serve] returns when the server has stopped. *)
Definition serve (oracle : list (bool * bool)) (G : Globals) (h : bool) (config : option EvConf) (standalone : bool) :
    option (Globals * list srv_event * (ServeErr + (LoadBalance * Server))) :=
  match config with
  | None => Some (G, [], inl ErrNilConfig)
  | Some c =>
      let balance := setLBStrategy (e_LbStrategy c) in
      let workerNum := setWorker (e_Ncpu c) numCPU in
      let '(G, c) := set_engine G c in
      '(s, err) ← start_conf oracle workerNum c;
      match err with
      | Some e => Some (G, [], inl (ErrStart e))
      | None =>
          Some (G, (if standalone then [] else [SvGoClean]) ++ (if h then [SvReady] else []) ++ [SvStat (e_PrintStat c)]
                   ++ (if e_DialKeepAlive c then [SvKeepAlive] else []) ++ (if e_DialPolling c then [SvPolling] else [])
                   ++ (if standalone then [SvClean] else []), inr (balance, s))
      end
  end.

(** The allocator is set up by [pool.Setup] (Pool.v) before. *)
Definition ServeByConfig (oracle : list (bool * bool)) (G : Globals) (h : bool) (config : option EvConf) (standalone : bool) :=
  match config with
  | None => Some (G, [], inl ErrNilConfig)
  | Some c => serve oracle G h (Some c) standalone
  end.

Definition Serve (oracle : list (bool * bool)) (G : Globals) (h : bool) (file : option (list Z)) :=
  match load file with
  | inl e => Some (G, [], inl (ErrLoad e))
  | inr c => ServeByConfig oracle G h (Some c) true
  end.
End Serve.

(** ** What a file can configure *)

Lemma dec_elems_iface {A} l : ∀ back, Forall (eq None) back →
  Forall (eq None) (dec_elems (None : option A) dec_iface back l).1.
Proof.
  induction l as [|v l IH]; intros back Hb; [done|]. cbn [dec_elems].
  specialize (IH (tail back)). destruct (dec_elems None dec_iface (tail back) l) as [xs e2].
  assert (default None (head back) = None) as -> by (destruct Hb as [|x back <- _]; done).
  assert (Forall (eq None) (tail back)) as Ht by (by destruct Hb). by destruct v; constructor; auto.
Qed.

Lemma dec_slice_iface {A} (old : Slice (option A)) v : Forall (eq None) (sl_back old) →
  Forall (eq None) (sl_back (dec_slice None dec_iface old v).1).
Proof.
  intros Ho. destruct v as [| | | |[|x l]|]; try done. unfold dec_slice. pose proof (dec_elems_iface (A := A) (x :: l) _ Ho) as H.
  by destruct (dec_elems None dec_iface (sl_back old) (x :: l)).
Qed.

Lemma dec_field_inv {A} (P : A → Prop) name dec ms : (∀ x v, P x → P (dec x v).1) → ∀ old, P old → P (dec_field name dec ms old).1.
Proof.
  intros Hd old Ho. unfold dec_field. generalize false. revert old Ho. induction ms as [|[k v] ms IH]; intros old Ho e; [done|].
  cbn [foldl]. case_match; [|by apply IH]. specialize (Hd old v Ho). destruct (dec old v). by apply IH.
Qed.

(** No value of a document but null can be stored in an endpoint. *)
Lemma load_endpoints file c : load file = inr c → Forall (eq None) (sl_elems (e_ListenAddrs c)).
Proof.
  assert (∀ doc, Forall (eq None) (sl_back (e_ListenAddrs (Unmarshal doc zero_conf).1))) as H.
  { intros [| | | | |ms]; try done. unfold Unmarshal.
    pose proof (dec_field_inv (λ s : Slice (option EVEndpoint), Forall (eq None) (sl_back s)) "listenAddrs" (dec_slice None dec_iface) ms
      (λ x v, dec_slice_iface x v) sl_nil (list.Forall_nil_2 _)) as Hl.
    change (e_ListenAddrs zero_conf) with (@sl_nil (option EVEndpoint)).
    repeat match goal with |- context [dec_field ?n ?d ms ?o] => destruct (dec_field n d ms o) end. exact Hl. }
  unfold load. destruct file as [[|b file]|]; try done. destruct (json_parse _) as [doc|]; [|done]. specialize (H doc).
  destruct (Unmarshal doc zero_conf) as [c' []]; [done|]. intros [= <-]. by apply Forall_take.
Qed.

Lemma until_nil_all eps : until_nil (Some <$> eps) = (eps, false).
Proof. induction eps as [|ep eps IH]; [done|]. cbn. by rewrite IH. Qed.

Lemma until_nil_none l : Forall (eq None) l → (until_nil l).1 = [].
Proof. by intros [|x l' <- _]. Qed.

Section ServeFacts.
Context (ReadFile : list Z → option (list Z)) (pem_Decode : list Z → option (list Z * list Z * list Z)) (key_pair : list Z → list Z → bool).
Context (numCPU : Z).
Implicit Types (c : EvConf) (G : Globals).

Lemma buildTLSConfig_versions cfg t : buildTLSConfig ReadFile pem_Decode key_pair cfg = inr t →
  t_MinVersion t = c_MinVersion cfg ∧ t_MaxVersion t = c_MaxVersion cfg.
Proof.
  unfold buildTLSConfig. destruct (negb _); [done|]. cbn zeta. case_bool_decide; [by intros [= <-]|].
  destruct (loadOCSPStaple _ _ _); [done|]. by intros [= <-].
Qed.

Lemma set_engine_same G c : let c' := (set_engine G c).2 in
  e_ListenAddrs c' = e_ListenAddrs c ∧ e_ChanSize c' = e_ChanSize c ∧ e_PrintStat c' = e_PrintStat c ∧
  e_DialKeepAlive c' = e_DialKeepAlive c ∧ e_DialPolling c' = e_DialPolling c ∧ e_SslMode c' = e_SslMode c ∧
  e_SslPem c' = e_SslPem c ∧ e_SslKey c' = e_SslKey c.
Proof.
  unfold set_engine. case_bool_decide; [|done]. destruct (ResolveTLSEngine _); [done|]. by destruct (applyKTLSPolicy _ _) as [[pc conn] kt].
Qed.

Lemma start_ok oracle n cfg s : start ReadFile pem_Decode key_pair oracle n cfg = (s, None) →
  s_running s = true ∧ length (s_loops s) = Z.to_nat n ∧
  ∃ t, Forall (Forall2 (ln_ok cfg t) (c_ListenAddrs cfg)) (s_loops s) ∧ (is_Some t ↔ is_tls cfg = true) ∧
    (∀ t', t = Some t' → buildTLSConfig ReadFile pem_Decode key_pair cfg = inr t').
Proof.
  intros E. pose proof (start_all_or_nothing ReadFile pem_Decode key_pair oracle n cfg) as H. rewrite E in H.
  destruct H as (Hr & Hl & Ht & _). done.
Qed.

(** No file makes a server listen: an endpoint of the configuration is an interface, into which
    nothing but null can be decoded. *)
Theorem file_server_never_listens oracle G h file G' tr lb s :
  Serve ReadFile pem_Decode key_pair numCPU oracle G h file = Some (G', tr, inr (lb, s)) → Forall (eq []) (s_loops s).
Proof.
  unfold Serve. destruct (load file) as [e|c] eqn:El; [done|]. apply load_endpoints in El. unfold ServeByConfig, serve.
  destruct (set_engine_same G c) as (Ha & _). destruct (set_engine G c) as [G1 c1]. cbn in Ha. rewrite <- Ha in El.
  unfold start_conf. destruct ((0 <? _) && (e_ChanSize c1 <? 0)); [done|]. pose proof (until_nil_none _ El) as Hu. destruct (until_nil _) as [eps bad]. cbn in Hu. subst eps.
  destruct (bad && _).
  - destruct (start _ _ _ oracle 1 _) as [s1 [e|]]; intros; simplify_eq.
  - destruct (start _ _ _ oracle _ _) as [s1 [e|]] eqn:Es; [intros; simplify_eq|]. intros [= <- <- <- <-].
    destruct (start_ok _ _ _ _ Es) as (_ & _ & t & Hf & _). eapply list.Forall_impl; [exact Hf|]. intros lns Hl. by apply Forall2_nil_inv_l in Hl.
Qed.

(** The version and the use of RX that a policy stands for. *)
Definition policy_version (p : list Z) : Z := if bool_decide (normal p ∈ [str "tls13-tx"; str "tls13-rxtx"]) then VersionTLS13 else VersionTLS12.
Definition policy_rx (p : list Z) : bool := bool_decide (normal p ∈ [str "tls12-rxtx"; str "tls13-rxtx"]).

Lemma applyKTLSPolicy_spec cfg conn : let '(pc, k1, k2) := applyKTLSPolicy cfg conn in
  k2 = k1 ∧ TlsMinVersion pc = policy_version (KTLSPolicy cfg) ∧ TlsMaxVersion pc = policy_version (KTLSPolicy cfg) ∧ KTLSEnableRX k1 = policy_rx (KTLSPolicy cfg).
Proof.
  unfold applyKTLSPolicy, policy_version, policy_rx. generalize (normal (KTLSPolicy cfg)) as p. intros p.
  destruct (decide (p = str "tls13-tx")) as [->|]; [done|]. destruct (decide (p = str "tls13-rxtx")) as [->|]; [done|].
  destruct (decide (p = str "tls12-rxtx")) as [->|]; [done|].
  rewrite !(bool_decide_eq_false_2 (p ∈ _)) by (rewrite !elem_of_cons, elem_of_nil; tauto).
  rewrite !(bool_decide_eq_false_2 (p = _)) by done. by case_bool_decide.
Qed.

(** The events of a start that succeeds. *)
Definition started (h standalone : bool) c : list srv_event :=
  (if standalone then [] else [SvGoClean]) ++ (if h then [SvReady] else []) ++ [SvStat (e_PrintStat c)]
  ++ (if e_DialKeepAlive c then [SvKeepAlive] else []) ++ (if e_DialPolling c then [SvPolling] else []) ++ (if standalone then [SvClean] else []).

(** C23: [serve] with a configuration whose endpoints are set returns.  It fails before the application
    hears of the server and before any goroutine but those of [start] is made; or every one of
    the loops, as many as configured, has one listener for each endpoint, in the order of the list, and
    only then the application is told, once.  With kernel TLS the listeners take the version of the policy. *)
Theorem serve_starts_or_fails oracle G h c standalone eps :
  sl_elems (e_ListenAddrs c) = Some <$> eps → 0 ≤ e_ChanSize c →
  ∃ G' tr res, serve ReadFile pem_Decode key_pair numCPU oracle G h (Some c) standalone = Some (G', tr, res) ∧
    match res with
    | inl e => (∃ se, e = ErrStart se) ∧ tr = []
    | inr (lb, s) => lb = setLBStrategy (e_LbStrategy c) ∧ tr = started h standalone c ∧ s_running s = true ∧
        length (s_loops s) = Z.to_nat (setWorker (e_Ncpu c) numCPU) ∧
        ∃ cfg t, Forall (Forall2 (ln_ok cfg t) ((λ ep, (Network ep, String_ ep)) <$> eps)) (s_loops s) ∧
          c_SslPem cfg = e_SslPem c ∧ c_SslKey cfg = e_SslKey c ∧ c_SslMode cfg = e_SslMode c ∧
          (normal (e_SslMode c) = str "tls" → ∃ t', t = Some t' ∧
             (ResolveTLSEngine (e_TlsEngine c) = TLSEngineKTLS →
                t_MinVersion t' = policy_version (e_KTLSPolicy c) ∧ t_MaxVersion t' = policy_version (e_KTLSPolicy c) ∧
                gl_engine G' = TLSEngineKTLS ∧ KTLSEnableRX (gl_conn G') = policy_rx (e_KTLSPolicy c) ∧ gl_ktls G' = gl_conn G'))
    end.
Proof.
  intros Heps Hch. unfold serve. destruct (set_engine_same G c) as (Ha & Hc & Hp & Hk & Hd & Hm & Hpem & Hkey).
  destruct (set_engine G c) as [G1 c1] eqn:Eg. cbn in *. unfold start_conf. rewrite Hc, Ha, Heps, until_nil_all.
  replace (e_ChanSize c <? 0) with false by lia. rewrite andb_false_r. cbn.
  destruct (start _ _ _ oracle _ _) as [s [e|]] eqn:Es; cbn; [eexists G1, [], _; split; [done|]; split; [by eexists|done]|].
  eexists G1, _, _. split; [done|]. destruct (start_ok _ _ _ _ Es) as (Hr & Hl & t & Hf & Ht & Hb).
  split; [done|]. split; [unfold started; by rewrite Hp, Hk, Hd|]. do 2 (split; [done|]).
  exists (srv_config c1 eps), t. split; [done|]. do 3 (split; [done|]). intros Htls.
  destruct t as [t'|]; [|exfalso; assert (is_Some (None : option TlsConfig)) as [? [=]]; apply Ht; unfold is_tls; cbn; rewrite Hm; by apply bool_decide_eq_true].
  exists t'. split; [done|]. intros He. specialize (Hb t' eq_refl). revert Eg. unfold set_engine. rewrite bool_decide_eq_true_2, He by done.
  pose proof (applyKTLSPolicy_spec (mkEvConfig (e_KTLSPolicy c) (e_TlsMinVersion c) (e_TlsMaxVersion c)) (gl_conn G)) as Hpol.
  destruct (applyKTLSPolicy _ _) as [[pc k1] k2]. cbn in Hpol. destruct Hpol as (-> & <- & Hmax & <-). rewrite <- Hmax. intros [= <- <-].
  apply buildTLSConfig_versions in Hb as [-> ->]. by rewrite Hmax.
Qed.
End ServeFacts.

(** ** Witnesses *)

Definition initial_gl : Globals := mkGlobals TLSEngineATLS default_ktls default_ktls.

Definition demo_conf : EvConf :=
  mkEvConf 2 (str "hash") (str "pem") (str "key") [] (str "tls") (str "ktls") (str "tls13-tx") 0 0 sl_nil false [] []
    (mkSlice [Some (mkEndpoint (str ":5000") (str "tcp") true false)] 1) (-1) 0 true false
    (64 * 1024 * 1024) 1048576 8192 (-1) 1 0 (48 * 1024) false false.

Lemma serve_starts_or_fails_witness :
  ∃ G' tr res, serve (λ _, None) (λ _, None) (λ _ _, true) 4 [] initial_gl true (Some demo_conf) true = Some (G', tr, res) ∧
    match res with
    | inl e => (∃ se, e = ErrStart se) ∧ tr = []
    | inr (lb, s) => lb = setLBStrategy (e_LbStrategy demo_conf) ∧ tr = started true true demo_conf ∧ s_running s = true ∧
        length (s_loops s) = Z.to_nat (setWorker (e_Ncpu demo_conf) 4) ∧
        ∃ cfg t, Forall (Forall2 (ln_ok cfg t) ((λ ep, (Network ep, String_ ep)) <$> [mkEndpoint (str ":5000") (str "tcp") true false])) (s_loops s) ∧
          c_SslPem cfg = e_SslPem demo_conf ∧ c_SslKey cfg = e_SslKey demo_conf ∧ c_SslMode cfg = e_SslMode demo_conf ∧
          (normal (e_SslMode demo_conf) = str "tls" → ∃ t', t = Some t' ∧
             (ResolveTLSEngine (e_TlsEngine demo_conf) = TLSEngineKTLS →
                t_MinVersion t' = policy_version (e_KTLSPolicy demo_conf) ∧ t_MaxVersion t' = policy_version (e_KTLSPolicy demo_conf) ∧
                gl_engine G' = TLSEngineKTLS ∧ KTLSEnableRX (gl_conn G') = policy_rx (e_KTLSPolicy demo_conf) ∧ gl_ktls G' = gl_conn G'))
    end.
Proof.
  apply (serve_starts_or_fails (λ _, None) (λ _, None) (λ _ _, true) 4 [] initial_gl true demo_conf true [mkEndpoint (str ":5000") (str "tcp") true false]).
  - reflexivity.
  - vm_compute. discriminate.
Defined.

Example serve_demo :
  (λ '(G, tr, res), (gl_engine G, tr, match res with inr (_, s) => Some (length <$> s_loops s) | inl _ => None end)) <$>
    serve (λ _, None) (λ _, None) (λ _ _, true) 4 [] initial_gl true (Some demo_conf) true
  = Some (TLSEngineKTLS, [SvReady; SvStat false; SvKeepAlive; SvClean], Some [1%nat; 1%nat]).
Proof. vm_compute. reflexivity. Qed.

(** conf/connaxis.conf, but for its log member, cannot be loaded; without endpoints it can, and the
    fields it does not set are zero, not those of [GetDefaultConfig]. *)
Example shipped_conf_fails :
  load (Some (quoted "{'ncpu': -1, 'lbStrategy': 'rr', 'mode': 'master', 'sslPem': '', 'sslKey': '', 'sslMode': '', 'bufSize': 1048576, 'chanSize': 8192, 'listenAddrs': ['tcp://:5000'], 'log': {'compress': true}}")) = inl ErrParseConfig ∧
  (match load (Some (quoted "{'ncpu': -1, 'lbStrategy': 'rr', 'mode': 'master', 'bufSize': 1048576, 'chanSize': 8192, 'listenAddrs': [], 'log': {'compress': true}}")) with
   | inr c => Some (e_Ncpu c, e_BufSize c, e_ChanSize c, e_PollWait c, e_CliSendBufLimit c)
   | inl _ => None
   end) = Some (-1, 1048576, 8192, 0, 0).
Proof. vm_compute. done. Qed.

(** The mode of conf/connaxisssl.conf is not one that a listener can be opened with. *)
Example shipped_ssl_mode :
  (start (λ _, None) (λ _, None) (λ _ _, true) [] 2 (start_cfg (str "stdtls"))).2 = Some ErrSslMode.
Proof. vm_compute. done. Qed.
