(* ===== verification/Sockets.v ===== *)
(** * dial.go, listener.go, listener_open.go: who owns a descriptor

    The descriptors of the process as a table of sockets, with the rule of POSIX that a new
    descriptor is the lowest free one; [os.File], the connections and the listeners of package
    net as far as they own descriptors; and the functions that pass a descriptor from one to
    the other.  What the operating system answers is given as booleans.  Addresses of a
    connected socket and log messages are not modelled. *)

From stdpp Require Import strings.
From S2P Require Import Prelude Text Conn KtlsKeys KtlsSetup Server.

(** ** Descriptors *)

(** [None] is a free number; the sockets have numbers of their own. *)
Notation table := (list (option Z)).

Definition fd_at (t : table) (fd : Z) : option Z := if fd <? 0 then None else default None (t !! Z.to_nat fd).

(** [socket], [accept], [dup]: the lowest free number. *)
Fixpoint fd_open (t : table) (s : Z) : table * Z :=
  match t with
  | [] => ([Some s], 0)
  | None :: t => (Some s :: t, 0)
  | x :: t => let '(t, n) := fd_open t s in (x :: t, n + 1)
  end.

(** [close]; nothing happens for a number that is not in use (EBADF). *)
Definition fd_close (t : table) (fd : Z) : table := if fd <? 0 then t else <[Z.to_nat fd := None]> t.

Definition same_fds (t t' : table) : Prop := ∀ fd, fd_at t fd = fd_at t' fd.

(** A variable of type *os.File: nil, open on a descriptor, or closed. *)
Inductive OsFile := FNil | FOpen (fd : Z) | FClosed.

(** Closing nil or a closed file is an error without an effect. *)
Definition File_Close (t : table) (f : OsFile) : table * OsFile :=
  match f with FOpen fd => (fd_close t fd, FClosed) | _ => (t, f) end.

Definition File_Fd (f : OsFile) : Z := match f with FOpen fd => fd | _ => -1 end.

(** [File()] of a connection or listener on [fd]: a file on a duplicate, or nil and an error. *)
Definition net_File (ok : bool) (t : table) (fd : Z) : table * OsFile :=
  match fd_at t fd with
  | Some s => if ok then let '(t, n) := fd_open t s in (t, FOpen n) else (t, FNil)
  | None => (t, FNil)
  end.

(** ** dial.go *)

(** The connection that is dialled: the type and the descriptor of package net. *)
Inductive DialConn := DTcp (fd : Z) | DTls (fd : Z) | DOther.

(** A dialer as far as dialling and closing concern it; the callbacks of the application
    are there or not. *)
Record DialSock := mkDialSock {
  ds_f : OsFile; ds_fd : Z; ds_network : list Z; ds_addr : list Z; ds_key : list Z; ds_cid : Z;
  ds_watch : bool; ds_onCb : bool; ds_closeCb : bool; ds_probeCb : bool;
}.

Record DialReq := mkDialReq { p_Addr : list Z; p_SslType : Z; p_On : bool; p_Close : bool; p_Probe : bool }.

(** What the system answers while a connection is dialled, and the socket that is made. *)
Record DialEnv := mkDialEnv { o_resolve : bool; o_dial : bool; o_file : bool; o_nonblock : bool; o_sndbuf : bool; o_sock : Z }.

Inductive DialErr := EAddr | ENetwork | EResolve | EDial | ENotSupported | EConnType | EFile | ENonblock | ESndbuf.

Definition ds_set_f (d : DialSock) (f : OsFile) : DialSock :=
  mkDialSock f (ds_fd d) (ds_network d) (ds_addr d) (ds_key d) (ds_cid d) (ds_watch d) (ds_onCb d) (ds_closeCb d) (ds_probeCb d).
Definition ds_set_fd (d : DialSock) (fd : Z) : DialSock :=
  mkDialSock (ds_f d) fd (ds_network d) (ds_addr d) (ds_key d) (ds_cid d) (ds_watch d) (ds_onCb d) (ds_closeCb d) (ds_probeCb d).
Definition ds_set_addr (d : DialSock) (network addr : list Z) : DialSock :=
  mkDialSock (ds_f d) (ds_fd d) network addr (ds_key d) (ds_cid d) (ds_watch d) (ds_onCb d) (ds_closeCb d) (ds_probeCb d).
Definition ds_set_cbs (d : DialSock) (p : DialReq) : DialSock :=
  mkDialSock (ds_f d) (ds_fd d) (ds_network d) (ds_addr d) (ds_key d) (ds_cid d) (ds_watch d) (p_On p) (p_Close p) (p_Probe p).

(** A new dialer for a key. *)
Definition new_dialer (key : list Z) : DialSock := mkDialSock FNil 0 [] [] key 0 false false false false.

Definition Dialer_dial (o : DialEnv) (t : table) (d : DialSock) (p : DialReq) : table * DialSock * (DialErr + DialConn) :=
  match parseAddr (p_Addr p) with
  | inr network => (t, ds_set_addr d network (p_Addr p), inl EAddr)
  | inl (network, addr) =>
      let d := ds_set_cbs (ds_set_addr d network addr) p in
      if bool_decide (network ≠ str "tcp") then (t, d, inl ENetwork)
      else if (p_SslType p =? TYPE_CONN_TLS) || (p_SslType p =? TYPE_CONN) then
        if negb (o_resolve o) then (t, d, inl EResolve)
        else if negb (o_dial o) then (t, d, inl EDial)
        else let '(t, fd) := fd_open t (o_sock o) in (t, d, inr (DTcp fd))
      else (t, d, inl ENotSupported)
  end.

Definition Dialer_system (o : DialEnv) (t : table) (d : DialSock) (con : DialConn) : table * DialSock * option DialErr :=
  match con with
  | DTcp fd | DTls fd =>
      let '(t, f) := net_File (o_file o) t fd in
      let t := fd_close t fd in
      let d := ds_set_f d f in
      match f with
      | FOpen n =>
          let d := ds_set_fd d (File_Fd f) in
          (t, d, if o_nonblock o then None else Some ENonblock)
      | _ =>
          if ds_fd d =? 0 then (t, d, Some EFile)
          else let '(t, f) := File_Close t (ds_f d) in (t, ds_set_fd (ds_set_f d f) 0, Some EFile)
      end
  | DOther => (t, d, Some EConnType)
  end.

Definition bootup (o : DialEnv) (t : table) (d : DialSock) (p : DialReq) : table * DialSock * option DialErr :=
  let '(t, d, r) := Dialer_dial o t d p in
  match r with
  | inl e => (t, d, Some e)
  | inr con =>
      let '(t, d, e) := Dialer_system o t d con in
      match e with
      | Some e => (t, d, Some e)
      | None => if o_sndbuf o then (t, d, None) else (fd_close t (ds_fd d), d, Some ESndbuf)
      end
  end.

Definition SetWatcher (d : DialSock) (watch : bool) : DialSock :=
  mkDialSock (ds_f d) (ds_fd d) (ds_network d) (ds_addr d) (ds_key d) (ds_cid d) watch (ds_onCb d) (ds_closeCb d) (ds_probeCb d).

Inductive dial_event := OnUpdate (up : bool) | CloseCb (key addr : list Z) (id : Z).

(** The callbacks, in order. *)
Definition Dialer_Close (t : table) (d : DialSock) : table * DialSock * list dial_event :=
  let evs := if ds_watch d then [OnUpdate false] else [] in
  let evs := if ds_closeCb d then evs ++ [CloseCb (ds_key d) (ds_addr d) (ds_cid d)] else evs in
  let '(t, _) := File_Close t (ds_f d) in
  (t, ds_set_f d FNil, evs).

(** ** listener.go *)

Inductive ListenerType := TCPListener | TlsListener | OtherListener.

(** A listener of package net: [None] once it is closed. *)
Record NetListener := mkNetListener { nl_type : ListenerType; nl_fd : option Z }.

Definition NetListener_Close (t : table) (n : NetListener) : table * NetListener :=
  match nl_fd n with Some fd => (fd_close t fd, mkNetListener (nl_type n) None) | None => (t, n) end.

Record LnSock := mkLnSock { ls_ln : option NetListener; ls_f : OsFile; ls_fd : Z; ls_tlsmode : TlsMode }.

Definition listener_Close (t : table) (l : LnSock) : table * LnSock :=
  let '(t, f, fd) := match ls_f l with
                     | FNil => if ls_fd l =? 0 then (t, FNil, ls_fd l) else (fd_close t (ls_fd l), FNil, 0)
                     | f => let '(t, _) := File_Close t f in (t, FNil, 0)
                     end in
  match ls_ln l with
  | Some n => let '(t, _) := NetListener_Close t n in (t, mkLnSock None f fd (ls_tlsmode l))
  | None => (t, mkLnSock None f fd (ls_tlsmode l))
  end.

(** [None] is a panic: reflection on a listener without the field, or a nil interface.  For a TLS
    listener the listener below it is not closed. *)
Definition listener_system (file nonblock : bool) (t : table) (l : LnSock) : option (table * LnSock * option StartErr) :=
  let finish t l f :=
    let l := mkLnSock (ls_ln l) f (ls_fd l) (ls_tlsmode l) in
    match f with
    | FOpen _ => Some (t, mkLnSock (ls_ln l) f (File_Fd f) (ls_tlsmode l), if nonblock then None else Some ErrSystem)
    | _ => let '(t, l) := listener_Close t l in Some (t, l, Some ErrSystem)
    end in
  match ls_ln l with
  | Some (mkNetListener TCPListener fd as n) =>
      let '(t, f) := net_File file t (default (-1) fd) in
      let '(t, n) := NetListener_Close t n in
      finish t (mkLnSock (Some n) (ls_f l) (ls_fd l) (ls_tlsmode l)) f
  | Some (mkNetListener TlsListener fd) =>
      match ls_tlsmode l with
      | ModeTls => let '(t, f) := net_File file t (default (-1) fd) in finish t l f
      | ModePlain => finish t l FNil
      end
  | _ => match ls_tlsmode l with ModeTls => None | ModePlain => finish t l FNil end
  end.

(** ** listener_open.go *)

Section Open.
Context (ReadFile : list Z → option (list Z)) (pem_Decode : list Z → option (list Z * list Z * list Z)) (key_pair : list Z → list Z → bool).

(** The sockets of [openListener]: [reuseport.Listen] gives a TCP listener on the socket [s].
    With an error the listener that is dropped is given too. *)
Definition openListener_sock (listen file nonblock : bool) (s : Z) (t : table) (ep : list Z * list Z) (cfg : SrvConfig) (tlsConfig : option TlsConfig) :
    option (table * (StartErr * option LnSock + listener * LnSock)) :=
  match openListener ReadFile pem_Decode key_pair listen true ep cfg tlsConfig with
  | inl e => Some (t, inl (e, None))
  | inr ln =>
      let '(t, fd) := fd_open t s in
      '(t, l, err) ← listener_system file nonblock t (mkLnSock (Some (mkNetListener TCPListener (Some fd))) FNil 0 (ln_tlsmode ln));
      match err with
      | Some e => Some (t, inl (e, Some l))
      | None => Some (t, inr (ln, l))
      end
  end.
End Open.

(** A file or a listener that nothing refers to any more is closed by its finalizer. *)
Definition finalize_dialer (t : table) (d : DialSock) : table := fst (File_Close t (ds_f d)).

Definition finalize_listener (t : table) (l : LnSock) : table :=
  let t := fst (File_Close t (ls_f l)) in
  match ls_ln l with Some n => fst (NetListener_Close t n) | None => t end.

(** ** Lemmas about descriptors *)

#[global] Instance same_fds_equiv : Equivalence same_fds.
Proof. split; [intros t fd | intros t t' H fd | intros t1 t2 t3 H H' fd]; [done | by rewrite H | by rewrite H]. Qed.

Lemma fd_close_at t n m : fd_at (fd_close t n) m = if decide (m = n) then None else fd_at t m.
Proof.
  unfold fd_at, fd_close. destruct (Z.ltb_spec n 0), (Z.ltb_spec m 0), (decide (m = n)) as [->|]; try lia; try done.
  - rewrite list_lookup_insert. by repeat case_decide; try naive_solver; rewrite lookup_ge_None_2 by naive_solver lia.
  - by rewrite list_lookup_insert_ne by lia.
Qed.

Lemma fd_at_cons x t m : 0 < m → fd_at (x :: t) m = fd_at t (m - 1).
Proof.
  intros Hm. unfold fd_at. destruct (Z.ltb_spec m 0), (Z.ltb_spec (m - 1) 0); try lia.
  by replace (Z.to_nat m) with (S (Z.to_nat (m - 1))) by lia.
Qed.

Lemma fd_at_neg t m : m < 0 → fd_at t m = None.
Proof. intros Hm. unfold fd_at. by rewrite (proj2 (Z.ltb_lt m 0) Hm). Qed.

Lemma fd_at_nil m : fd_at [] m = None.
Proof. unfold fd_at. by destruct (m <? 0); [|rewrite lookup_nil]. Qed.

(** A new descriptor is the lowest free number, refers to the socket, and changes no other. *)
Lemma fd_open_at t s : ∀ t' n, fd_open t s = (t', n) →
  0 ≤ n ∧ fd_at t n = None ∧ (∀ m, fd_at t' m = if decide (m = n) then Some s else fd_at t m) ∧
  ∀ m, 0 ≤ m → fd_at t m = None → n ≤ m.
Proof.
  induction t as [|[x|] t IH]; cbn [fd_open]; intros t' n.
  - intros [= <- <-]. split_and!; [lia | done | | lia]. intros m. destruct (decide (m = 0)) as [->|]; [done|].
    destruct (Z.ltb_spec m 0); [by rewrite !fd_at_neg|]. by rewrite fd_at_cons, !fd_at_nil by lia.
  - destruct (fd_open t s) as [t1 n1]. intros [= <- <-]. destruct (IH _ _ eq_refl) as (H0 & Hn & Hm & Hlow).
    split_and!; [lia | | | ].
    + rewrite fd_at_cons by lia. by replace (n1 + 1 - 1) with n1 by lia.
    + intros m. destruct (Z.ltb_spec m 0); [rewrite !fd_at_neg by done; by case_decide; [lia|]|].
      destruct (decide (m = 0)) as [->|]; [rewrite decide_False by lia; done|].
      rewrite !fd_at_cons, Hm by lia. by repeat case_decide; try lia.
    + intros m H. destruct (decide (m = 0)) as [->|]; [done|]. rewrite fd_at_cons by lia. intros ?%Hlow; lia.
  - intros [= <- <-]. split_and!; [lia | done | | lia]. intros m. destruct (decide (m = 0)) as [->|]; [done|].
    destruct (Z.ltb_spec m 0); [by rewrite !fd_at_neg|]. by rewrite !fd_at_cons by lia.
Qed.

(** [owns t t' n s]: [t'] is [t] with one descriptor more, [n] of the socket [s]. *)
Definition owns (t t' : table) (n s : Z) : Prop :=
  0 ≤ n ∧ fd_at t n = None ∧ ∀ m, fd_at t' m = if decide (m = n) then Some s else fd_at t m.

Lemma open_owns t s t' n : fd_open t s = (t', n) → owns t t' n s.
Proof. intros (H0 & Hn & Hm & _)%fd_open_at. done. Qed.

Lemma owns_close t t' n s : owns t t' n s → same_fds (fd_close t' n) t.
Proof. intros (_ & Hn & Hm) m. rewrite fd_close_at, Hm. by repeat case_decide; subst. Qed.

Lemma owns_proper t1 t2 t n s : same_fds t1 t2 → owns t1 t n s → owns t2 t n s.
Proof. intros H (H0 & Hn & Hm). split_and!; [done | by rewrite <- H | intros m; rewrite Hm; by repeat case_decide]. Qed.

(** The step that all of them take: a duplicate of a descriptor that is owned, and the original closed. *)
Lemma dup_and_close t t1 fd s ok : owns t t1 fd s →
  let '(t2, f) := net_File ok t1 fd in
  match f with
  | FOpen n => owns t1 t2 n s ∧ owns t (fd_close t2 fd) n s
  | FNil => t2 = t1 ∧ same_fds (fd_close t2 fd) t
  | FClosed => False
  end.
Proof.
  intros Ho. pose proof Ho as (H0 & Hn & Hm). unfold net_File. rewrite Hm, decide_True by done.
  destruct ok; [|split; [done | by eapply owns_close]].
  destruct (fd_open t1 s) as [t2 n] eqn:E. pose proof (open_owns _ _ _ _ E) as Ho2. pose proof Ho2 as (H0' & Hn' & Hm').
  split; [done|]. split_and!; [done | | intros m].
  - rewrite Hm in Hn'. by case_decide.
  - rewrite fd_close_at, Hm', Hm. rewrite Hm in Hn'. by repeat case_decide; simplify_eq.
Qed.

(** ** Dialling *)

(** A dialer that is booted up has one descriptor more, that of the connected socket, and its file
    owns it.  A failure leaves no descriptor behind once the dialer is collected, unless the size of
    the send buffer was refused: then the descriptor is closed at once and the file still names it. *)
Theorem bootup_ownership (o : DialEnv) (t : table) (p : DialReq) (key : list Z) :
  let '(t', d, err) := bootup o t (new_dialer key) p in
  match err with
  | None => owns t t' (ds_fd d) (o_sock o) ∧ ds_f d = FOpen (ds_fd d) ∧ (ds_onCb d, ds_closeCb d, ds_probeCb d) = (p_On p, p_Close p, p_Probe p)
  | Some ESndbuf => same_fds t' t ∧ ds_f d = FOpen (ds_fd d)
  | Some _ => same_fds (finalize_dialer t' d) t
  end.
Proof.
  unfold bootup, Dialer_dial. destruct (parseAddr (p_Addr p)) as [[network addr]|network]; [|done].
  case_bool_decide; [done|]. destruct (_ || _); [|done]. destruct (o_resolve o), (o_dial o); try done. cbn [negb].
  destruct (fd_open t (o_sock o)) as [t1 fd] eqn:E. apply open_owns in E. cbn [Dialer_system].
  pose proof (dup_and_close _ _ _ _ (o_file o) E) as Hd. destruct (net_File (o_file o) t1 fd) as [t2 [|n|]]; [ | | done].
  - destruct Hd as [-> Hs]. done.
  - destruct Hd as [_ Ho]. cbn. destruct (o_nonblock o); [|by eapply owns_close].
    destruct (o_sndbuf o); [done|]. split; [by eapply owns_close | done].
Qed.

(** A dialled connection is closed twice: by its [Close] and, through the callback, by the file of
    the dialer.  A descriptor that is opened in between and gets the number is closed by the second. *)
Theorem dial_close_hits_another (t t1 t2 : table) (d : DialSock) (s s' fd' : Z) :
  owns t t1 (ds_fd d) s → ds_f d = FOpen (ds_fd d) →
  (∀ m, 0 ≤ m < ds_fd d → fd_at t1 m ≠ None) →
  fd_open (fd_close t1 (ds_fd d)) s' = (t2, fd') →
  fd' = ds_fd d ∧ fd_at t2 fd' = Some s' ∧ fd_at (Dialer_Close t2 d).1.1 fd' = None.
Proof.
  intros (H0 & Hn & Hm) Hf Hlow E. apply fd_open_at in E as (G0 & Gn & Gm & Glow).
  assert (fd' = ds_fd d) as ->.
  { assert (Hle : fd' ≤ ds_fd d) by (apply Glow; [done | rewrite fd_close_at; by rewrite decide_True]).
    destruct (decide (fd' = ds_fd d)) as [|Hne]; [done|]. rewrite fd_close_at, decide_False in Gn by done.
    destruct (Hlow fd'); [lia | done]. }
  split_and!; [done | by rewrite Gm, decide_True |]. unfold Dialer_Close. rewrite Hf. cbn. by rewrite fd_close_at, decide_True.
Qed.

Lemma dial_close_hits_another_witness :
  fd_at (Dialer_Close [Some 1; Some 7] (mkDialSock (FOpen 1) 1 [] [] [] 5 false true true false)).1.1 1 = None.
Proof.
  eapply (dial_close_hits_another [Some 1] [Some 1; Some 6] _ (mkDialSock (FOpen 1) 1 [] [] [] 5 false true true false) 6 7 1); [|done| |reflexivity].
  - split_and!; [done | reflexivity | ]. intros m. destruct (Z.ltb_spec m 0); [rewrite !fd_at_neg by done; by case_decide; [cbn in *; lia|]|].
    destruct (decide (m = 0)) as [->|]; [done|]. destruct (decide (m = 1)) as [->|]; [done|]. cbn [ds_fd]. rewrite decide_False by done.
    by rewrite !fd_at_cons, !fd_at_nil by lia.
  - cbn [ds_fd]. intros m Hm. by assert (m = 0) as -> by lia.
Defined.

(** Closing a dialer twice has no second effect on descriptors, but calls the callbacks again. *)
Lemma Dialer_Close_twice t t' d : let d1 := (Dialer_Close t d).1.2 in (Dialer_Close t' d1).1 = (t', d1).
Proof. unfold Dialer_Close. by destruct (File_Close t (ds_f d)) as [? ?]. Qed.

(** ** Listeners *)

(** A listener holds its descriptor alone, or, below a TLS listener, next to the one it was duplicated from. *)
Definition listener_owns (t t' : table) (l : LnSock) (s : Z) : Prop :=
  ls_f l = FOpen (ls_fd l) ∧
  match ls_ln l with
  | Some (mkNetListener _ None) | None => owns t t' (ls_fd l) s
  | Some (mkNetListener _ (Some fd)) => ∃ t1, owns t t1 fd s ∧ owns t1 t' (ls_fd l) s
  end.

Lemma close_proper t t' n : same_fds t t' → same_fds (fd_close t n) (fd_close t' n).
Proof. intros H m. rewrite !fd_close_at. by case_decide. Qed.

(** Close releases what the listener owns; a second Close, whoever has the numbers by then, does nothing. *)
Lemma listener_Close_spec t t' l s : listener_owns t t' l s →
  same_fds (listener_Close t' l).1 t ∧ ∀ t'', listener_Close t'' (listener_Close t' l).2 = (t'', (listener_Close t' l).2).
Proof.
  destruct l as [ln f fd mode]. unfold listener_owns, listener_Close. cbn. intros [-> Ho]. cbn.
  destruct ln as [[ty [fd0|]]|]; cbn; (split; [|done]); [|by eapply owns_close..].
  destruct Ho as (t1 & Ho & Ho'). etrans; [|by eapply owns_close]. apply close_proper. by eapply owns_close.
Qed.

(** [system] hands the descriptor over, or leaves none behind. *)
Lemma listener_system_spec file nonblock t t1 ty fd s mode : owns t t1 fd s → ty = TCPListener ∨ ty = TlsListener →
  ∃ t' l err, listener_system file nonblock t1 (mkLnSock (Some (mkNetListener ty (Some fd))) FNil 0 mode) = Some (t', l, err) ∧
    (ty = TCPListener ∨ mode = ModeTls → err = if file && nonblock then None else Some ErrSystem) ∧
    match err with
    | None => listener_owns t t' l s ∧ (ls_ln l ≫= nl_fd) = (if ty is TCPListener then None else Some fd) ∧ ls_tlsmode l = mode
    | Some _ => same_fds (finalize_listener t' l) t
    end.
Proof.
  intros Ho Hty. pose proof (dup_and_close _ _ _ _ file Ho) as Hd. pose proof Ho as (_ & _ & Hm).
  assert (Hf : match (net_File file t1 fd).2 with FOpen _ => file = true | _ => file = false end).
  { unfold net_File. rewrite Hm, decide_True by done. destruct file; [|done]. by destruct (fd_open t1 s). }
  unfold listener_system. cbn.
  destruct Hty as [-> | ->]; [|destruct mode; [eexists _, _, _; split_and!; [done|naive_solver|]; cbn; by eapply owns_close|]].
  all: destruct (net_File file t1 fd) as [t2 [|n|]]; [ | |done]; cbn in *; subst file; eexists _, _, _; split_and!; try done.
  - by destruct Hd as [-> Hs].
  - destruct Hd as [_ Hd], nonblock; cbn; [done | by eapply owns_close].
  - by destruct Hd as [-> Hs].
  - destruct Hd as [Ho2 Hc], nonblock; cbn.
    + split_and!; [|done|done]. split; [done|]. cbn. by exists t1.
    + etrans; [apply close_proper; by eapply owns_close|]. by eapply owns_close.
Qed.

Section OpenSpec.
Context (ReadFile : list Z → option (list Z)) (pem_Decode : list Z → option (list Z * list Z * list Z)) (key_pair : list Z → list Z → bool).

(** [openListener] never panics, answers what the model of the server says, and owns exactly one
    descriptor, of the listening socket, which Close gives back; with an error none is left. *)
Theorem openListener_ownership (listen file nonblock : bool) (s : Z) (t : table) (ep : list Z * list Z) (cfg : SrvConfig) (tlsConfig : option TlsConfig) :
  ∃ t' r, openListener_sock ReadFile pem_Decode key_pair listen file nonblock s t ep cfg tlsConfig = Some (t', r) ∧
    (match r with inl (e, _) => inl e | inr (ln, _) => inr ln end) =
      openListener ReadFile pem_Decode key_pair listen (file && nonblock) ep cfg tlsConfig ∧
    match r with
    | inr (ln, l) => owns t t' (ls_fd l) s ∧ ls_tlsmode l = ln_tlsmode ln ∧ same_fds (listener_Close t' l).1 t
    | inl (_, Some l) => same_fds (finalize_listener t' l) t
    | inl (_, None) => t' = t
    end.
Proof.
  unfold openListener_sock, openListener. case_bool_decide; [by eexists _, _|].
  destruct (if bool_decide (c_SslPem cfg ≠ [] ∧ c_SslKey cfg ≠ []) then _ else _) as [e|[mode conf]]; [by eexists _, _|].
  destruct listen; [|by eexists _, _]. cbn [negb ln_tlsmode]. destruct (fd_open t s) as [t1 fd] eqn:E. apply open_owns in E.
  destruct (listener_system_spec file nonblock _ _ TCPListener fd s mode E (or_introl eq_refl)) as (t' & l & err & -> & He & Hl).
  specialize (He (or_introl eq_refl)). subst err. cbn. destruct (file && nonblock).
  - destruct Hl as (Hl & Hn & Hmode). eexists _, _. do 2 (split; [done|]). split; [|split; [done|]].
    + destruct Hl as [_ Hl]. destruct (ls_ln l) as [[ty [n|]]|]; [done|exact Hl..].
    + by eapply listener_Close_spec.
  - by eexists _, _.
Qed.
End OpenSpec.

(** Dialling fails at the send buffer: the number is free at once, another socket gets it, and the
    finalizer of the file closes that one. *)
Example sndbuf_file_closes_another :
  let p := mkDialReq (str "tcp://h:1") TYPE_CONN false false false in
  let '(t, d, err) := bootup (mkDialEnv true true true true false 6) [Some 1] (new_dialer (str "k")) p in
  let '(t, fd) := fd_open t 7 in
  let '(t, fd2) := fd_open t 8 in
  err = Some ESndbuf ∧ (fd_at t fd, fd_at t fd2) = (Some 7, Some 8) ∧ fd_at (finalize_dialer t d) fd2 = None.
Proof. vm_compute. done. Qed.
