(* ===== verification/LoopRun.v ===== *)
(** * Correctness of the event loop: the whole loop

    [Inv] is the invariant of a loop: which table slots it owns, that its sets name
    open connections only, that a connection with pending output will be woken,
    that the idle list and the accept channel hold usable connections, and that
    the connection count is right.  Every callback of the poller and every call
    another goroutine can make preserves it, and none panics. *)

From stdpp Require Import gmap.
From S2P Require Import Prelude Pool Tuning RingBuffer Conn FdTable Poller EngineConn Loop LoopInv.

Lemma filter_agree {A} (P Q : A → Prop) `{∀ x, Decision (P x), ∀ x, Decision (Q x)} (l : list A) :
  (∀ x, x ∈ l → P x ↔ Q x) → filter P l = filter Q l.
Proof.
  induction l as [|x l IH]; intros Hl; [done|]. rewrite !list.filter_cons.
  assert (filter P l = filter Q l) as -> by (apply IH; intros y Hy; apply Hl; by right).
  pose proof (Hl x ltac:(by left)). repeat case_decide; tauto.
Qed.

(** Filters that differ at one element. *)
Lemma filter_length_out {A} (P Q : A → Prop) `{∀ x, Decision (P x), ∀ x, Decision (Q x)} (a : A) (l : list A) :
  NoDup l → a ∈ l → P a → ¬ Q a → (∀ x, x ≠ a → P x ↔ Q x) →
  len (filter P l) = len (filter Q l) + 1.
Proof.
  intros Hnd Ha HP HQ Hne. induction Hnd as [|x l Hx Hnd IH]; [by apply not_elem_of_nil in Ha|].
  rewrite !list.filter_cons. apply elem_of_cons in Ha as [<-|Ha].
  - rewrite decide_True, decide_False by done. simpl.
    assert (filter P l = filter Q l) as ->; [|lia]. apply filter_agree. intros y Hy. apply Hne. by intros ->.
  - assert (x ≠ a) as Hxa by (by intros ->). specialize (IH Ha). pose proof (Hne x Hxa).
    repeat case_decide; simpl; try tauto; lia.
Qed.

Section Run.
Context {P K S C : Type} `{AL : AllocatorLaws P} `{KL : KernelLaws K} `{!Epoll K, !EpollLaws K, !KernelNet K}
  `{EC : !EngineConn P K C, !EngineConnLaws P K C} `{!Handler S C, !Host S C}.
Variable T : EventLoop.
Abbreviation World := (World P K S C).
Abbreviation M := (M P K S C).
Implicit Types (w : World) (r : nat) (c : C).

(** ** The invariant *)

Definition owned_b (conns : gmap nat C) (table : list (option nat)) (idx : Z) (fd : Z) : bool :=
  match fdTableGet table fd with
  | Some r => match conns !! r with Some c => v_loopID (ec_view c) =? idx | None => false end
  | None => false
  end.

Definition owned_fds (conns : gmap nat C) (table : list (option nat)) (idx : Z) : list Z :=
  filter (λ fd, owned_b conns table idx fd = true) (seqZ 0 (len table)).

(** A connection of the idle list: closed, or an open one of this loop. *)
Definition check_ok (conns : gmap nat C) (table : list (option nat)) (idx : Z) (r : nat) : Prop :=
  ∃ c, conns !! r = Some c ∧ ec_wf c ∧
    (v_fd (ec_view c) = 0 ∨ v_loopID (ec_view c) = idx ∧ fdTableGet table (v_fd (ec_view c)) = Some r).

(** A connection that can be attached: open, with nothing queued, and not yet
    known to any loop. *)
Definition attachable (p : P) (conns : gmap nat C) (table : list (option nat)) (l : LoopConn) (r : nat) : Prop :=
  (∃ c, conns !! r = Some c ∧ ec_wf c ∧ v_fd (ec_view c) ≠ 0 ∧ v_unsent (ec_view c) = [] ∧ rb_fit p (v_recvbuf (ec_view c))) ∧
  (∀ fd, fdTableGet table fd ≠ Some r) ∧ (∀ e, (e, r) ∉ l_checkList l).

Record InvR (p : P) (conns : gmap nat C) (table : list (option nat)) (l : LoopConn) : Prop := {
  iv_env : al_inv p ∧ 0 < len (l_recvbuf l) ≤ al_max p;
  iv_table fd r : fdTableGet table fd = Some r → ∃ c, conns !! r = Some c ∧ ec_wf c ∧
    (v_loopID (ec_view c) = l_idx (l_cfg l) → v_fd (ec_view c) = fd ∧ fd ≠ 0 ∧ rb_fit p (v_recvbuf (ec_view c)) ∧
       (v_unsent (ec_view c) ≠ [] → fd ∈ l_writeFds l ∪ l_cmdFlushSet l));
  iv_sets fd : fd ∈ l_writeFds l ∪ l_closeOnDrain l ∪ l_cmdFlushSet l → owned_b conns table (l_idx (l_cfg l)) fd = true;
  iv_check e r : (e, r) ∈ l_checkList l → check_ok conns table (l_idx (l_cfg l)) r;
  iv_accept r : r ∈ l_acceptChan l → attachable p conns table l r;
  iv_nodup : NoDup (l_acceptChan l);
  iv_cmds cmd : cmd ∈ l_cmdChan l ++ l_cmdDialChan l → cd_size cmd ≤ len (default [] (cd_data cmd));
  iv_count : l_count l = wrapS 32 (len (owned_fds conns table (l_idx (l_cfg l))));
}.

Definition Inv w : Prop := InvR (w_pool w) (w_conns w) (w_table w) (w_l w).

(** The connection [r] with record [c] is an open one of this loop. *)
Definition owns w (r : nat) (c : C) : Prop :=
  w_conns w !! r = Some c ∧ fdTableGet (w_table w) (v_fd (ec_view c)) = Some r ∧
  v_loopID (ec_view c) = l_idx (l_cfg (w_l w)).

Lemma owns_live w r c : Inv w → owns w r c → live r c w.
Proof.
  intros HI (Hc & Ht & Hl). destruct (iv_table _ _ _ _ HI _ _ Ht) as (c' & Hc' & Hwf & Ho). simplify_eq.
  destruct (Ho Hl) as (_ & Hfd & Hrb & _). split; try done. apply HI.
Qed.

Lemma live_owns w r c : live r c w → owns w r c.
Proof. intros [? ? ? ? ? ? ?]. by split_and!. Qed.

(** What is needed of an open connection when its handler ends. *)
Definition awake c w : Prop :=
  v_unsent (ec_view c) ≠ [] → v_fd (ec_view c) ∈ l_writeFds (w_l w) ∪ l_cmdFlushSet (w_l w).

Lemma registered_awake c w : registered c w → awake c w.
Proof. unfold registered, awake. set_solver. Qed.

(** An update that keeps the loops of all connections keeps the owned slots. *)
Lemma owned_b_eq (conns conns' : gmap nat C) table idx fd :
  (∀ r, (v_loopID ∘ ec_view) <$> conns' !! r = (v_loopID ∘ ec_view) <$> conns !! r) →
  owned_b conns' table idx fd = owned_b conns table idx fd.
Proof.
  intros H'. unfold owned_b. destruct (fdTableGet table fd) as [r|]; [|done]. specialize (H' r).
  destruct (conns' !! r), (conns !! r); simpl in *; try done. by injection H' as ->.
Qed.

Lemma owned_fds_eq (conns conns' : gmap nat C) table idx :
  (∀ r, (v_loopID ∘ ec_view) <$> conns' !! r = (v_loopID ∘ ec_view) <$> conns !! r) →
  owned_fds conns' table idx = owned_fds conns table idx.
Proof. intros H'. apply list_filter_iff. intros fd. by rewrite (owned_b_eq conns). Qed.

Lemma loop_ids r c c' w w' : w_conns w !! r = Some c → w_conns w' !! r = Some c' →
  v_loopID (ec_view c') = v_loopID (ec_view c) → (∀ r', r' ≠ r → w_conns w' !! r' = w_conns w !! r') →
  ∀ r0, (v_loopID ∘ ec_view) <$> w_conns w' !! r0 = (v_loopID ∘ ec_view) <$> w_conns w !! r0.
Proof.
  intros Hc Hc' E Hf r0. destruct (decide (r0 = r)) as [->|Hne]; [|by rewrite Hf].
  rewrite Hc, Hc'. simpl. by rewrite E.
Qed.

Lemma Inv_kept r c w c' w' o g evs : Inv w → owns w r c → kept r c w c' w' o g evs → awake c' w' → Inv w'.
Proof.
  intros HI (Hc & Ht & Hlp) Hk Haw. pose proof HI as [I1 I2 I3 I4 I5 I6 I7 I8].
  destruct Hk as [[F1 F2 F3 F4 F5] HL [E1 [E2 [E3 [E4 E5]]]] Etab [Ecn _] _ _ _ _].
  pose proof F3 as [L1 [L2 [L3 L4]] L5 L6 L7 L8]. destruct HL as [HL1 HL2 HL3 HL4 HL5 HL6 HL7].
  pose proof (loop_ids r c c' w w' Hc HL2 E3 F4) as Hids.
  split; rewrite ?Etab, ?L1, ?L2, ?L3, ?L4 in *; try done.
  - intros fd r0 Hr0. destruct (decide (r0 = r)) as [->|Hne].
    + exists c'. split; [done|]. split; [done|]. intros _. destruct (I2 fd r Hr0) as (c0 & Hc0 & _ & Ho). simplify_eq.
      destruct (Ho Hlp) as (Efd & Hz & _). rewrite E1. split_and!; try done. rewrite <-Efd, <-E1. apply Haw.
    + destruct (I2 fd r0 Hr0) as (c0 & Hc0 & Hwf & Ho). exists c0. rewrite F4 by done. split; [done|]. split; [done|].
      intros Hl0. destruct (Ho Hl0) as (Efd & Hz & Hrb & Hw). split_and!; try done.
      * unfold rb_fit, rb_ok in *. by rewrite F2.
      * intros Hu. specialize (Hw Hu). assert (fd ≠ v_fd (ec_view c)) as Hfd by congruence.
        destruct (L8 fd Hfd) as (W & _ & F). set_solver.
  - intros fd Hfd. rewrite (owned_b_eq (w_conns w)) by done.
    destruct (decide (fd = v_fd (ec_view c))) as [->|Hne].
    + unfold owned_b. rewrite Ht, Hc. apply Z.eqb_eq. done.
    + apply I3. destruct (L8 fd Hne) as (W & D & F). set_solver.
  - intros e r0 He. destruct (I4 e r0 (L7 _ He)) as (c0 & Hc0 & Hwf & Ho).
    destruct (decide (r0 = r)) as [->|Hne]; [|exists c0; by rewrite F4].
    exists c'. simplify_eq. split; [done|]. split; [done|]. right. split; congruence.
  - intros r0 Hr0. destruct (I5 r0 Hr0) as ((c0 & Hc0 & Hwf & Hfd & Hu & Hrb) & Hnt & Hnc).
    assert (r0 ≠ r) as Hne by (intros ->; by apply (Hnt (v_fd (ec_view c)))).
    split; [|split; [done|]].
    + exists c0. rewrite F4 by done. split_and!; try done. unfold rb_fit, rb_ok in *. by rewrite F2.
    + intros e He. by apply (Hnc e), L7.
  - rewrite (owned_fds_eq (w_conns w)) by done. congruence.
Qed.

Lemma AddInt32_count n d : AddInt32 (wrapS 32 n) d = wrapS 32 (n + d).
Proof. unfold AddInt32. by rewrite wrapS_add_r, wrapS_add_l. Qed.

Lemma owned_in_range conns table idx fd : owned_b conns table idx fd = true → fd ∈ seqZ 0 (len table).
Proof.
  unfold owned_b. destruct (fdTableGet table fd) eqn:E; [|done]. intros _. apply elem_of_seqZ.
  assert (0 ≤ fd < len table); [|lia]. apply fdTableGet_lt. eauto.
Qed.

Lemma check_ok_gone r c w w' evs err r0 : owns w r c → gone r c w w' evs err →
  check_ok (w_conns w) (w_table w) (l_idx (l_cfg (w_l w))) r0 →
  check_ok (w_conns w') (w_table w') (l_idx (l_cfg (w_l w))) r0.
Proof.
  intros (Hc & Ht & Hlp) Hg (c0 & Hc0 & Hwf & Ho).
  destruct (gn_conn _ _ _ _ _ _ Hg) as (c' & Hc' & Hwf' & Hfd' & _).
  destruct (decide (r0 = r)) as [->|Hne]; [exists c'; split_and!; try done; by left|].
  exists c0. rewrite (fr_conns _ _ _ _ (gn_frame _ _ _ _ _ _ Hg)) by done. split; [done|]. split; [done|].
  destruct Ho as [?|[? Ho]]; [by left|right]. split; [done|].
  rewrite (gn_table _ _ _ _ _ _ Hg), Get_Clear, decide_False; [done|]. intros [E _]. congruence.
Qed.

Lemma Inv_gone r c w w' evs err : Inv w → owns w r c → gone r c w w' evs err → Inv w'.
Proof.
  intros HI Hown Hg. pose proof Hown as (Hc & Ht & Hlp). pose proof HI as [I1 I2 I3 I4 I5 I6 I7 I8].
  pose proof (check_ok_gone r c w w' evs err) as Hchk.
  pose proof Hg as [[F1 F2 F3 F4 F5] (c' & Hc' & Hwf' & Hfd' & Hlp' & Hu') Etab (S1 & S2 & S3) Hcn _ _ _].
  pose proof F3 as [L1 [L2 [L3 L4]] L5 L6 L7 L8].
  pose proof (loop_ids r c c' w w' Hc Hc' Hlp' F4) as Hids.
  set (fdc := v_fd (ec_view c)) in *.
  assert (∀ fd, fdTableGet (w_table w') fd = if decide (fd = fdc) then None else fdTableGet (w_table w) fd) as Htab.
  { intros fd. rewrite Etab, Get_Clear. repeat case_decide; naive_solver. }
  assert (∀ fd, fd ≠ fdc → owned_b (w_conns w') (w_table w') (l_idx (l_cfg (w_l w))) fd =
                           owned_b (w_conns w) (w_table w) (l_idx (l_cfg (w_l w))) fd) as Hob.
  { intros fd Hne. rewrite (owned_b_eq (w_conns w)) by done. unfold owned_b. by rewrite Htab, decide_False. }
  assert (owned_b (w_conns w) (w_table w) (l_idx (l_cfg (w_l w))) fdc = true) as Hob1.
  { unfold owned_b. rewrite Ht, Hc. by apply Z.eqb_eq. }
  assert (owned_b (w_conns w') (w_table w') (l_idx (l_cfg (w_l w))) fdc = false) as Hob0.
  { unfold owned_b. by rewrite Htab, decide_True. }
  split; rewrite ?L1, ?L2, ?L3, ?L4 in *; try done.
  - intros fd r0. rewrite Htab. case_decide as Hfd; [done|]. intros Hr0.
    destruct (I2 fd r0 Hr0) as (c0 & Hc0 & Hwf & Ho). destruct (decide (r0 = r)) as [->|Hne].
    { simplify_eq. destruct (Ho Hlp) as [Efd _]. destruct Hfd. by symmetry. }
    exists c0. rewrite F4 by done. split; [done|]. split; [done|]. intros Hl0.
    destruct (Ho Hl0) as (Efd & Hz & Hrb & Hw). split_and!; try done.
    + unfold rb_fit, rb_ok in *. by rewrite F2.
    + intros Hu. specialize (Hw Hu). destruct (L8 fd Hfd) as (W & _ & F). set_solver.
  - intros fd Hin. destruct (decide (fd = fdc)) as [->|Hne]; [set_solver|].
    rewrite Hob by done. apply I3. destruct (L8 fd Hne) as (W & D & F). set_solver.
  - intros e r0 He. apply Hchk; [done|done|]. apply (I4 e), L7, He.
  - intros r0 Hr0. destruct (I5 r0 Hr0) as ((c0 & Hc0 & Hwf & Hfd & Hu & Hrb) & Hnt & Hnc).
    assert (r0 ≠ r) as Hne by (intros ->; by apply (Hnt fdc)).
    split; [|split].
    + exists c0. rewrite F4 by done. split_and!; try done. unfold rb_fit, rb_ok in *. by rewrite F2.
    + intros fd. rewrite Htab. case_decide; [done|apply Hnt].
    + intros e He. by apply (Hnc e), L7.
  - rewrite Hcn, I8, AddInt32_count. f_equal.
    assert (length (w_table w') = length (w_table w)) as Elen by (rewrite Etab; apply length_Clear).
    unfold owned_fds. rewrite Elen.
    pose proof (filter_length_out (λ fd, owned_b (w_conns w) (w_table w) (l_idx (l_cfg (w_l w))) fd = true)
      (λ fd, owned_b (w_conns w') (w_table w') (l_idx (l_cfg (w_l w))) fd = true) fdc (seqZ 0 (len (w_table w)))) as Hfl.
    rewrite Hfl; [lia|apply NoDup_seqZ|by eapply owned_in_range|done|by rewrite Hob0|].
    intros fd Hne. by rewrite Hob.
Qed.

(** ** Handlers of one connection *)

(** After a handler: the invariant, and the connection is closed or still ours. *)
Definition after r w : Prop :=
  Inv w ∧ ∃ c, w_conns w !! r = Some c ∧ ec_wf c ∧ (v_fd (ec_view c) = 0 ∨ v_fd (ec_view c) ≠ 0 ∧ owns w r c).

Lemma ends_after r c w R w' : Inv w → owns w r c → ends r c w R w' →
  (∀ c' o g evs, R c' o g evs w' → awake c' w') → after r w'.
Proof.
  intros HI Ho [(evs & err & Hg)|(c' & o & g & evs & Hk & HR)] Haw.
  - split; [by eapply Inv_gone|]. destruct (gn_conn _ _ _ _ _ _ Hg) as (c' & ? & ? & ? & _). eauto 10.
  - split; [eapply Inv_kept; eauto|]. pose proof (kp_live _ _ _ _ _ _ _ _ Hk) as L.
    exists c'. split; [apply L|]. split; [apply L|]. right. split; [apply L|by apply live_owns].
Qed.

Lemma wp_after_closed r c w e : Inv w → owns w r c → wp (closed r e : M _) (λ _ w', Inv w') w.
Proof.
  intros HI Ho. wpc (wp_closeConn r c w (Some e) (owns_live _ _ _ HI Ho)). intros ? w' Hg. by eapply Inv_gone.
Qed.

Lemma wp_after_send r c w : Inv w → owns w r c → wp (processSend T r : M _) (λ _ w', after r w') w.
Proof.
  intros HI Ho. wpc (wp_processSend T r c w (owns_live _ _ _ HI Ho)). intros ? w' He.
  eapply ends_after; [done..|]. intros c' o g evs (_ & _ & _ & Hr & _). by apply registered_awake.
Qed.

Lemma wp_after_read r c w : 0 < MaxReadBytesPerEvent T → Inv w → owns w r c →
  wp (processRead T r : M _) (λ _ w', after r w') w.
Proof.
  intros Hb HI Ho. wpc (wp_processRead T r c w (owns_live _ _ _ HI Ho) Hb). intros ? w' He.
  eapply ends_after; [done..|]. intros c' o g evs (_ & Hr & _). by apply registered_awake.
Qed.

Lemma wp_connByFD fd w : Inv w → wp (connByFD fd : M _) (λ ro w', w' = w ∧
  match ro with
  | Some r => ∃ c, owns w r c ∧ v_fd (ec_view c) = fd ∧ ec_wf c
  | None => owned_b (w_conns w) (w_table w) (l_idx (l_cfg (w_l w))) fd = false
  end) w.
Proof.
  intros HI. unfold connByFD. apply wp_bind. unfold wp at 1, gets. apply wp_bind, wp_loop.
  unfold owned_b. destruct (fdTableGet (w_table w) fd) as [r|] eqn:Et; [|by apply wp_ret].
  destruct (iv_table _ _ _ _ HI fd r Et) as (c & Hc & Hwf & Ho). apply wp_bind, (wp_conn r c); [done|]. apply wp_ret.
  split; [done|]. destruct (ec_observe c Hwf) as (_ & _ & El & _). rewrite El.
  destruct (Z.eqb_spec (v_loopID (ec_view c)) (l_idx (l_cfg (w_l w)))) as [E|E].
  - exists c. destruct (Ho E) as (Efd & _). split; [|done]. split_and!; try done. by rewrite Efd.
  - rewrite Hc. by apply Z.eqb_neq.
Qed.

(** ** Changes that do not concern connections *)

Lemma InvR_l p conns table l l' : InvR p conns table l → l_cfg l' = l_cfg l →
  length (l_recvbuf l') = length (l_recvbuf l) →
  l_writeFds l' = l_writeFds l → l_closeOnDrain l' = l_closeOnDrain l → l_cmdFlushSet l' = l_cmdFlushSet l →
  l_count l' = l_count l → (∀ e, e ∈ l_checkList l' → e ∈ l_checkList l) →
  (∀ r, r ∈ l_acceptChan l' → attachable p conns table l r) → NoDup (l_acceptChan l') →
  (∀ cmd, cmd ∈ l_cmdChan l' ++ l_cmdDialChan l' → cd_size cmd ≤ len (default [] (cd_data cmd))) →
  InvR p conns table l'.
Proof.
  intros [I1 I2 I3 I4 I5 I6 I7 I8] E1 E2 E3 E4 E5 E6 Hck Hac Hnd Hcmd.
  split; rewrite ?E1, ?E2, ?E3, ?E4, ?E5, ?E6; try done.
  - intros e r He. by eapply I4, Hck.
  - intros r Hr. destruct (Hac r Hr) as (Hc & Ht & Hn). split; [done|]. split; [done|]. intros e He. by eapply Hn, Hck.
Qed.

Lemma attachable_max (p p' : P) (conns : gmap nat C) table l r : al_max p' = al_max p →
  attachable p conns table l r → attachable p' conns table l r.
Proof. intros E. unfold attachable, rb_fit, rb_ok. by rewrite E. Qed.

Lemma InvR_pool p p' conns table l : InvR p conns table l → al_inv p' → al_max p' = al_max p → InvR p' conns table l.
Proof.
  intros [I1 I2 I3 I4 I5 I6 I7 I8] Hp E. split; try done.
  - rewrite E. destruct I1. done.
  - unfold rb_fit, rb_ok in *. by rewrite E.
  - intros r Hr. eapply attachable_max; eauto.
Qed.

Lemma wp_Inv_stat f w : Inv w → wp (stat f : M _) (λ _ w', Inv w' ∧ l_cfg (w_l w') = l_cfg (w_l w)) w.
Proof. intros HI. split; [|done]. eapply InvR_l; try done; apply HI. Qed.

(** A system call changes the kernel only. *)
Lemma wp_syscall {X} (f : K → K * X) w : wp (syscall f : M X) (λ _ w', w_pool w' = w_pool w ∧
  w_conns w' = w_conns w ∧ w_table w' = w_table w ∧ w_l w' = w_l w ∧ w_app w' = w_app w) w.
Proof. unfold wp, syscall. by destruct (f (w_k w)). Qed.

Lemma Inv_same w w' : Inv w → w_pool w' = w_pool w → w_conns w' = w_conns w → w_table w' = w_table w → w_l w' = w_l w → Inv w'.
Proof. unfold Inv. by intros ? -> -> -> ->. Qed.

Lemma wp_Inv_syscall {X} (f : K → K * X) w : Inv w → wp (syscall f : M X) (λ _ w', Inv w' ∧
  w_conns w' = w_conns w ∧ w_table w' = w_table w ∧ w_l w' = w_l w) w.
Proof. intros HI. wpc (wp_syscall f w). intros x w' (E1 & E2 & E3 & E4 & _). split; [by eapply Inv_same|done]. Qed.

Lemma wp_trigger w : Inv w → wp (trigger : M _) (λ _ w', Inv w') w.
Proof.
  intros HI. unfold trigger. apply wp_bind, wp_loop. gcase; [|by apply wp_ret].
  apply wp_bind, wp_mod_l. eapply wp_bind, wp_mono; [apply wp_Inv_syscall|].
  { eapply InvR_l; try done; apply HI. }
  intros x w' (HI' & _). by apply wp_ret.
Qed.

Lemma wp_Inv_galloc n w : Inv w → wp (galloc n : M _) (λ b w', Inv w' ∧ w_l w' = w_l w ∧
  match b with Some b => n ≤ len b | None => True end) w.
Proof.
  intros HI. pose proof (iv_env _ _ _ _ HI) as [Hp Hb]. unfold wp, galloc.
  destruct (Z.le_gt_cases n (al_max (w_pool w))) as [Hn|Hn].
  - destruct (al_get_some (w_pool w) n Hp Hn) as (b & p' & -> & Hle & Hb' & Hp' & Hm). simpl.
    split; [|done]. by eapply InvR_pool.
  - rewrite al_get_nil by done. simpl. done.
Qed.

Lemma wp_release cmd w : Inv w → wp (release cmd : M _) (λ _ w', Inv w') w.
Proof.
  intros HI. pose proof (iv_env _ _ _ _ HI) as [Hp Hb]. unfold release, wp, mbind, M_bind, gets, set_pool. simpl.
  destruct (cd_data cmd) as [b|]; [|done]. destruct (al_put_inv (w_pool w) b Hp). by eapply InvR_pool.
Qed.

(** ** Calls from other goroutines *)

Definition cmd_ok (cmd : CmdData) : Prop := cd_size cmd ≤ len (default [] (cd_data cmd)).

Lemma wp_post_cmd dial cmd w : Inv w → cmd_ok cmd → wp (post_cmd dial cmd : M _) (λ _ w', Inv w') w.
Proof.
  intros HI Hok. unfold post_cmd. apply wp_bind, wp_loop. gcase.
  - apply wp_bind, wp_mod_l. set (w1 := mkW _ _ _ _ _ _ _). assert (Inv w1) as HI1.
    { pose proof HI as [I1 I2 I3 I4 I5 I6 I7 I8]. destruct dial; eapply InvR_l; simpl; try done.
      all: intros cmd'; rewrite !elem_of_app, list_elem_of_singleton; intros Hin;
        (destruct (decide (cmd' = cmd)) as [->|Hne] || idtac).
      all: naive_solver set_solver. }
    wpb (wp_Inv_stat bump_recvcmd w1 HI1). intros ? w2 [HI2 _]. wpb (wp_trigger w2 HI2). intros ? w3 HI3. by apply wp_ret.
  - wpb (wp_Inv_stat bump_cmdfail w HI). intros ? w2 [HI2 _]. wpb (wp_release cmd w2 HI2). intros ? w3 HI3. by apply wp_ret.
Qed.

Lemma wp_AddCmd cmd fd dial id data w : Inv w → wp (AddCmd cmd fd dial id data : M _) (λ _ w', Inv w') w.
Proof.
  intros HI. unfold AddCmd. gcase; [|by apply wp_post_cmd].
  wpb (wp_Inv_galloc (len data) w HI). intros [b|] w1 (HI1 & _ & Hb); [|by apply wp_ret].
  apply wp_post_cmd; [done|]. unfold cmd_ok. simpl. rewrite length_blit by lia. lia.
Qed.

Lemma wp_AddClient r w : Inv w → attachable (w_pool w) (w_conns w) (w_table w) (w_l w) r → r ∉ l_acceptChan (w_l w) →
  wp (AddClient r : M _) (λ _ w', Inv w') w.
Proof.
  intros HI Hat Hr. unfold AddClient. apply wp_bind, wp_loop. gcase; [|by apply wp_ret].
  apply wp_bind, wp_mod_l. set (w1 := mkW _ _ _ _ _ _ _). assert (Inv w1) as HI1.
  { pose proof HI as [I1 I2 I3 I4 I5 I6 I7 I8]. eapply InvR_l; simpl; try done.
    - intros r'. rewrite elem_of_app, list_elem_of_singleton. intros [Hr'| ->]; auto.
    - apply list.NoDup_app. split; [done|]. split; [|apply NoDup_singleton]. intros x Hx Hx'. apply list_elem_of_singleton in Hx'. congruence. }
  wpb (wp_trigger w1 HI1). intros ? w2 HI2. by apply wp_ret.
Qed.

(** ** Attaching *)

(** [storeConn] of a connection that is not in the table, on a slot this loop does
    not own: the slot is owned and only the count has to follow. *)
Lemma InvR_store w r c : Inv w → w_conns w !! r = Some c → ec_wf c → v_fd (ec_view c) ≠ 0 →
  v_loopID (ec_view c) = l_idx (l_cfg (w_l w)) → v_unsent (ec_view c) = [] → rb_fit (w_pool w) (v_recvbuf (ec_view c)) →
  (∀ fd, fdTableGet (w_table w) fd ≠ Some r) → r ∉ l_acceptChan (w_l w) → (∀ e, (e, r) ∉ l_checkList (w_l w)) →
  owned_b (w_conns w) (w_table w) (l_idx (l_cfg (w_l w))) (v_fd (ec_view c)) = false →
  0 ≤ v_fd (ec_view c) < len (w_table w) →
  InvR (w_pool w) (w_conns w) (fst (fdTableSet (w_table w) (v_fd (ec_view c)) r))
    (set_counts (AddInt32 (l_count (w_l w)) 1) (l_dcount (w_l w)) (w_l w)).
Proof.
  intros HI Hc Hwf Hfd Hlp Hu Hrb Hnt Hna Hnc Hno Hrange. pose proof HI as [I1 I2 I3 I4 I5 I6 I7 I8].
  set (fdc := v_fd (ec_view c)) in *. set (t' := fst (fdTableSet (w_table w) fdc r)).
  assert (∀ fd, fdTableGet t' fd = if decide (fd = fdc) then Some r else fdTableGet (w_table w) fd) as Htab.
  { intros fd. by apply Get_Set. }
  assert (∀ fd, fd ≠ fdc → owned_b (w_conns w) t' (l_idx (l_cfg (w_l w))) fd =
                           owned_b (w_conns w) (w_table w) (l_idx (l_cfg (w_l w))) fd) as Hob.
  { intros fd Hne. unfold owned_b. by rewrite Htab, decide_False. }
  assert (owned_b (w_conns w) t' (l_idx (l_cfg (w_l w))) fdc = true) as Hob1.
  { unfold owned_b. rewrite Htab, decide_True, Hc by done. by apply Z.eqb_eq. }
  split; simpl; try done.
  - intros fd r0. rewrite Htab. case_decide as E; [|apply I2]. intros; simplify_eq. exists c. split_and!; try done.
  - intros fd Hin. rewrite Hob; [by apply I3|]. intros ->. by rewrite (I3 _ Hin) in Hno.
  - intros e r0 He. destruct (I4 e r0 He) as (c0 & Hc0 & Hwf0 & Ho). exists c0. split; [done|]. split; [done|].
    destruct Ho as [?|[? Ho]]; [by left|right]. split; [done|]. rewrite Htab, decide_False; [done|].
    intros E. unfold owned_b in Hno. rewrite <-E, Ho, Hc0 in Hno. apply Z.eqb_neq in Hno. done.
  - intros r0 Hr0. destruct (I5 r0 Hr0) as (H1' & H2' & H3'). split; [done|]. split; [|done].
    intros fd. rewrite Htab. case_decide; [|apply H2']. intros [= ->]. done.
  - rewrite I8, AddInt32_count. f_equal. unfold owned_fds.
    assert (length t' = length (w_table w)) as -> by apply length_Set.
    pose proof (filter_length_out (λ fd, owned_b (w_conns w) t' (l_idx (l_cfg (w_l w))) fd = true)
      (λ fd, owned_b (w_conns w) (w_table w) (l_idx (l_cfg (w_l w))) fd = true) fdc (seqZ 0 (len (w_table w)))) as Hfl.
    rewrite Hfl; [done|apply NoDup_seqZ|apply elem_of_seqZ; lia|done|by rewrite Hno|].
    intros fd Hne. by rewrite Hob.
Qed.

(** A connection in the hands of the loop that is not attached yet. *)
Definition unattached r w : Prop :=
  Inv w ∧ attachable (w_pool w) (w_conns w) (w_table w) (w_l w) r ∧ r ∉ l_acceptChan (w_l w).

(** Its record is replaced. *)
Lemma InvR_unattached (p : P) conns table l r c : InvR p conns table l → (∀ fd, fdTableGet table fd ≠ Some r) →
  r ∉ l_acceptChan l → (∀ e, (e, r) ∉ l_checkList l) → InvR p (<[r := c]> conns) table l.
Proof.
  intros [I1 I2 I3 I4 I5 I6 I7 I8] Hnt Hna Hnc.
  assert (∀ fd, owned_b (<[r := c]> conns) table (l_idx (l_cfg l)) fd = owned_b conns table (l_idx (l_cfg l)) fd) as Hob.
  { intros fd. unfold owned_b. destruct (fdTableGet table fd) as [r0|] eqn:E; [|done].
    rewrite lookup_insert_ne; [done|]. intros ->. by apply (Hnt fd). }
  split; try done.
  - intros fd r0 Hr0. rewrite lookup_insert_ne; [by apply I2|]. intros ->. by apply (Hnt fd).
  - intros fd Hin. rewrite Hob. by apply I3.
  - intros e r0 He. destruct (I4 e r0 He) as (c0 & Hc0 & Ho). exists c0. rewrite lookup_insert_ne; [done|].
    intros ->. by apply (Hnc e).
  - intros r0 Hr0. destruct (I5 r0 Hr0) as ((c0 & Hc0 & Ho) & Ht & Hn). split; [|done]. exists c0.
    rewrite lookup_insert_ne; [done|]. by intros ->.
  - rewrite I8. f_equal. f_equal. f_equal. apply list_filter_iff. intros fd. by rewrite Hob.
Qed.

Lemma unattached_gone p cp r w w' evs err : owns w p cp → gone p cp w w' evs err → unattached r w → unattached r w'.
Proof.
  intros Ho Hg (HI & ((c & Hc & Hwf & Hfd & Hu & Hrb) & Hnt & Hnc) & Hna).
  assert (r ≠ p) as Hne by (intros ->; by apply (Hnt _ (proj1 (proj2 Ho)))).
  split; [by eapply Inv_gone|]. destruct Hg as [[F1 F2 [L1 [L2 [L3 L4]] L5 L6 L7 L8] F4 F5] _ Etab _ _ _ _ _].
  split; [split; [|split]|by rewrite L4].
  - exists c. rewrite F4 by done. split_and!; try done. unfold rb_fit, rb_ok in *. by rewrite F2.
  - intros fd. rewrite Etab, Get_Clear. case_decide; [done|apply Hnt].
  - intros e He. by apply (Hnc e), L7.
Qed.

Lemma wp_close_after r w err : after r w → wp (closeConn r err : M _) (λ _ w', Inv w') w.
Proof.
  intros (HI & c & Hc & Hwf & Hcase). destruct Hcase as [Hz|[Hfd Ho]].
  - unfold closeConn. apply wp_bind, (wp_conn r c); [done|]. rewrite (Fd_view c Hwf), Hz. by apply wp_ret.
  - wpc (wp_closeConn r c w err (owns_live _ _ _ HI Ho)). intros ? w' Hg. by eapply Inv_gone.
Qed.

Lemma owns_after r c w : Inv w → owns w r c → after r w.
Proof.
  intros HI Ho. pose proof (owns_live _ _ _ HI Ho) as L. split; [done|]. exists c.
  split; [apply L|]. split; [apply L|]. right. split; [apply L|done].
Qed.

(** An attached connection joins the idle list. *)
Lemma InvR_idle_add w r c n m : Inv w → owns w r c →
  InvR (w_pool w) (w_conns w) (w_table w)
    (set_idle (l_lastCheck (w_l w)) (l_checkList (w_l w) ++ [(n, r)]) (Datatypes.S n) m (w_l w)).
Proof.
  intros HI (Hc & Ht & Hl). pose proof HI as [I1 I2 I3 I4 I5 I6 I7 I8]. split; simpl; try done.
  - intros e r0. rewrite elem_of_app, list_elem_of_singleton. intros [He|[= -> ->]]; [by eapply I4|].
    destruct (I2 _ _ Ht) as (c' & Hc' & Hwf & _). simplify_eq. exists c. split_and!; try done. by right.
  - intros r0 Hr0. destruct (I5 r0 Hr0) as (A1 & A2 & A3). split; [done|]. split; [done|]. intros e.
    simpl. rewrite elem_of_app, list_elem_of_singleton. intros [He|[= -> ->]]; [by eapply A3|]. by apply (A2 _ Ht).
Qed.

(** What [postAccept] leaves: an open connection, or one to close. *)
Definition accepted_ok r (ok : bool) w : Prop :=
  if ok then Inv w ∧ ∃ c, owns w r c else after r w.

Lemma wp_accept_read r c w : 0 < MaxReadBytesPerEvent T → Inv w → owns w r c →
  wp (processRead T r;; c ← conn r; mret (negb (ec_Fd c =? 0)) : M bool) (λ ok w', accepted_ok r ok w') w.
Proof.
  intros Hb HI Ho. wpb (wp_after_read r c w Hb HI Ho). intros ? w' (HI' & c' & Hc' & Hwf & Hcase).
  apply wp_bind, (wp_conn r c'); [done|]. apply wp_ret. rewrite (Fd_view c' Hwf). destruct Hcase as [Hz|[Hfd Ho']].
  - rewrite Hz. simpl. split; [done|]. eauto.
  - destruct (Z.eqb_spec (v_fd (ec_view c')) 0); [done|]. simpl. eauto.
Qed.

Lemma wp_postAccept r c w : 0 < MaxReadBytesPerEvent T → Inv w → owns w r c →
  wp (postAccept T r : M _) (λ ok w', accepted_ok r ok w') w.
Proof.
  intros Hb HI Ho. pose proof Ho as (Hc & Ht & Hl). unfold postAccept. apply wp_bind.
  apply (wp_mono _ (λ _ w', Inv w' ∧ w_conns w' = w_conns w ∧ owns w' r c)).
  { unfold OnConnected. apply wp_bind, (wp_conn r c); [done|]. unfold wp, mbind, M_bind, gets. simpl. done. }
  intros ? w1 (HI1 & Ec & Ho1). pose proof Ho1 as (Hc1 & _ & _). apply wp_bind, (wp_conn r c); [done|]. apply wp_bind, wp_loop.
  wpb (wp_Inv_syscall _ w1 HI1). intros err w2 (HI2 & E1 & E2 & E3).
  assert (owns w2 r c) as Ho2 by (unfold owns in *; by rewrite E1, E2, E3).
  gcase; [apply wp_ret; by eapply owns_after|]. repeat gcase; try (by apply (wp_accept_read r c)); apply wp_ret; simpl; eauto.
Qed.

(** [storeConn], evaluated. *)
Lemma storeConn_eval r c w : w_conns w !! r = Some c → 
  storeConn r w =
  let c' := ec_SetLoopID c (l_idx (l_cfg (w_l w))) in
  let '(t, ok) := fdTableSet (w_table w) (ec_Fd c') r in
  Some (ok, mkW (w_pool w) (w_k w) (w_app w) (<[r := c']> (w_conns w)) t (w_l w) (w_trace w)).
Proof.
  intros Hc. unfold storeConn, mbind, M_bind. unfold conn at 1. rewrite Hc. simpl. by destruct (fdTableSet _ _ _).
Qed.

Lemma wp_storeConn r w : unattached r w → 
  (∀ c, w_conns w !! r = Some c → owned_b (w_conns w) (w_table w) (l_idx (l_cfg (w_l w))) (v_fd (ec_view c)) = false) →
  wp (storeConn r : M _) (λ ok w', if ok : bool
    then ∃ c, owns w' r c ∧ InvR (w_pool w') (w_conns w') (w_table w')
           (set_counts (AddInt32 (l_count (w_l w')) 1) (l_dcount (w_l w')) (w_l w'))
    else unattached r w') w.
Proof.
  intros (HI & ((c & Hc & Hwf & Hfd & Hu & Hrb) & Hnt & Hnc) & Hna) Hno. specialize (Hno c Hc).
  unfold wp. rewrite (storeConn_eval r c w Hc). simpl.
  pose proof (ec_SetLoopID_ok (w_k w) c (l_idx (l_cfg (w_l w))) Hwf) as [Swf Sv _ _ _].
  set (c' := ec_SetLoopID c (l_idx (l_cfg (w_l w)))) in *. rewrite (Fd_view c' Swf).
  assert (Inv (mkW (w_pool w) (w_k w) (w_app w) (<[r := c']> (w_conns w)) (w_table w) (w_l w) (w_trace w))) as HI'
    by (by apply InvR_unattached).
  assert (v_fd (ec_view c') = v_fd (ec_view c)) as Efd by (by rewrite Sv).
  destruct (decide (0 ≤ v_fd (ec_view c') < len (w_table w))) as [Hr|Hr].
  - pose proof (InvR_store _ r c' HI') as Hs. simpl in Hs.
    pose proof (Get_Set (w_table w) (v_fd (ec_view c')) r (v_fd (ec_view c')) Hr) as Hget.
    assert (snd (fdTableSet (w_table w) (v_fd (ec_view c')) r) = true) as Hok by (unfold fdTableSet; by zb).
    destruct (fdTableSet (w_table w) (v_fd (ec_view c')) r) as [t ok]. simpl in *. subst ok.
    exists c'. split.
    + unfold owns. simpl. rewrite lookup_insert_eq, Hget, decide_True, Sv by done. done.
    + apply Hs; try done; rewrite ?Sv; try done; [by rewrite lookup_insert_eq|].
      rewrite <-Hno. simpl. unfold owned_b. destruct (fdTableGet (w_table w) (v_fd (ec_view c))) as [r0|] eqn:E; [|done].
      rewrite lookup_insert_ne; [done|]. intros ->. by apply (Hnt _ E).
  - unfold fdTableSet. replace ((v_fd (ec_view c') <? 0) || (len (w_table w) <=? v_fd (ec_view c'))) with true by blia.
    split; [done|]. split; [|done]. split; [|done]. exists c'. simpl. rewrite lookup_insert_eq, Sv. simpl. done.
Qed.

(** Closing a connection that never was attached. *)
Lemma wp_close_unattached r w : unattached r w → wp (conn_Close r : M _) (λ _ w', Inv w') w.
Proof.
  intros (HI & ((c & Hc & Hwf & Hfd & Hu & Hrb) & Hnt & Hnc) & Hna). unfold wp, conn_Close. rewrite Hc. simpl.
  pose proof (ec_Close_ok (w_pool w) (w_k w) c (proj1 (iv_env _ _ _ _ HI)) Hwf) as Hcl.
  destruct (ec_Close (w_pool w) (w_k w) c) as [[p' k'] c']. destruct Hcl as (Hp' & Hm & _).
  apply InvR_unattached; try done. by eapply InvR_pool.
Qed.

Lemma wp_attachClient r w : 0 < MaxReadBytesPerEvent T → unattached r w → wp (attachClient T r : M _) (λ _ w', Inv w') w.
Proof.
  intros Hb Hun. pose proof Hun as (HI & ((c & Hc & Hwf & Hfd & Hu & Hrb) & Hnt & Hnc) & Hna). unfold attachClient.
  apply wp_bind, (wp_conn r c); [done|]. rewrite (Fd_view c Hwf). wpb (wp_connByFD (v_fd (ec_view c)) w HI).
  intros prev ? [-> Hprev]. apply wp_bind.
  apply (wp_mono _ (λ _ w', unattached r w' ∧ w_conns w' !! r = Some c ∧
    owned_b (w_conns w') (w_table w') (l_idx (l_cfg (w_l w'))) (v_fd (ec_view c)) = false)).
  { destruct prev as [p|]; [|by apply wp_ret]. destruct Hprev as (cp & Ho & Efd & _).
    wpc (wp_closeConn p cp w (Some CLOSE_BY_DUP_ACCEPT) (owns_live _ _ _ HI Ho)). intros ? w1 Hg.
    assert (r ≠ p) as Hne by (intros ->; by apply (Hnt _ (proj1 (proj2 Ho)))).
    split; [by eapply unattached_gone|]. split; [by rewrite (fr_conns _ _ _ _ (gn_frame _ _ _ _ _ _ Hg))|].
    unfold owned_b. rewrite (gn_table _ _ _ _ _ _ Hg), Get_Clear, decide_True; [done|]. rewrite <-Efd. split; [done|apply Ho]. }
  intros ? w1 (Hun1 & Hc1 & Hno). eapply wp_bind, wp_mono; [apply (wp_storeConn r w1 Hun1)|].
  { intros c0 Hc0. rewrite Hc1 in Hc0. injection Hc0 as <-. done. }
  intros ok w2 Hst. destruct ok; simpl.
  2: { wpb (wp_close_unattached r w2 Hst). intros ? w3 HI3. by apply wp_ret. }
  destruct Hst as (c2 & Ho2 & HI2). apply wp_bind, wp_mod_l. apply wp_bind.
  apply (wp_mono _ (λ _ w', Inv w' ∧ owns w' r c2)).
  { destruct (ec_IsClient c); [apply wp_mod_l|apply wp_ret]; cbv beta; (split; [|exact Ho2]); [|exact HI2]. apply (InvR_l _ _ _ _ _ HI2); try done; apply HI2. }
  intros ? w3 [HI3 Ho3]. wpb (wp_postAccept r c2 w3 Hb HI3 Ho3). intros ok w4 Hacc. destruct ok; simpl.
  2: { wpb (wp_close_after r w4 (Some CLOSE_BY_ACCEPT) Hacc). intros ? w5 HI5. by apply wp_ret. }
  destruct Hacc as (HI4 & c4 & Ho4). apply wp_bind, (wp_conn r c4); [apply Ho4|]. apply wp_bind, wp_loop, wp_bind.
  apply (wp_mono _ (λ _ w', Inv w')); [|by intros; apply wp_ret].
  destruct (checking (w_l w4) && negb (ec_IsClient c4)); [apply wp_mod_l; exact (InvR_idle_add w4 r c4 _ _ HI4 Ho4)|by apply wp_ret].
Qed.

(** ** The idle check *)

Lemma check_after r w : Inv w → check_ok (w_conns w) (w_table w) (l_idx (l_cfg (w_l w))) r → after r w.
Proof.
  intros HI (c & Hc & Hwf & Ho). split; [done|]. exists c. split; [done|]. split; [done|].
  destruct (decide (v_fd (ec_view c) = 0)) as [|Hfd]; [by left|]. destruct Ho as [?|[? ?]]; [done|]. right. by split_and!.
Qed.

(** Closing any connection of the idle list keeps the others usable. *)
Lemma wp_close_check r w err : after r w → wp (closeConn r err : M _) (λ _ w', Inv w' ∧
  l_cfg (w_l w') = l_cfg (w_l w) ∧
  ∀ r0, check_ok (w_conns w) (w_table w) (l_idx (l_cfg (w_l w))) r0 →
        check_ok (w_conns w') (w_table w') (l_idx (l_cfg (w_l w))) r0) w.
Proof.
  intros (HI & c & Hc & Hwf & Hcase). destruct Hcase as [Hz|[Hfd Ho]].
  - unfold closeConn. apply wp_bind, (wp_conn r c); [done|]. rewrite (Fd_view c Hwf), Hz. by apply wp_ret.
  - wpc (wp_closeConn r c w err (owns_live _ _ _ HI Ho)). intros ? w' Hg. split; [by eapply Inv_gone|].
    split; [apply (gn_frame _ _ _ _ _ _ Hg)|]. intros r0. by eapply check_ok_gone.
Qed.

Lemma wp_close_idle now es w : Inv w →
  (∀ e r, (e, r) ∈ es → check_ok (w_conns w) (w_table w) (l_idx (l_cfg (w_l w))) r) →
  wp (close_idle now es : M _) (λ _ w', Inv w') w.
Proof.
  revert w. induction es as [|[e r] es IH]; intros w HI Hes; [by apply wp_ret|]. cbn [close_idle].
  destruct (Hes e r ltac:(by left)) as (c & Hc & Hwf & Ho).
  apply wp_bind, (wp_conn r c); [done|]. apply wp_bind, wp_loop.
  destruct (l_touchMap (w_l w) !! ec_ID c) as [[t elem]|]; [|by apply wp_ret]. gcase; [|by apply wp_ret].
  apply wp_bind, wp_mod_l. set (w1 := mkW _ _ _ _ _ _ _). assert (Inv w1) as HI1.
  { apply (InvR_l _ _ _ _ _ HI); try done; try apply HI. intros x Hx. by apply list_elem_of_filter in Hx as [_ ?]. }
  eapply wp_bind, wp_mono; [apply (wp_close_check r w1)|].
  { apply check_after; [done|]. apply (Hes e). by left. }
  intros ? w2 (HI2 & Ecfg & Hck). apply IH; [done|]. intros e' r' Hr'. rewrite Ecfg. apply Hck, (Hes e'). by right.
Qed.

Lemma wp_onIdle w : Inv w → wp (onIdle : M _) (λ _ w', Inv w') w.
Proof.
  intros HI. unfold onIdle. apply wp_bind, wp_loop.
  assert (Inv (mkW (w_pool w) (w_k w) (w_app w) (w_conns w) (w_table w)
    (set_idle (l_nowSec (w_l w)) (l_checkList (w_l w)) (l_nextElem (w_l w)) (l_touchMap (w_l w)) (w_l w)) (w_trace w))) as HI1.
  { apply (InvR_l _ _ _ _ _ HI); try done; apply HI. }
  gcase; [by apply wp_mod_l|]. gcase; [|by apply wp_ret]. apply wp_bind, wp_mod_l. gcase; [|by apply wp_ret].
  apply wp_close_idle; [done|]. simpl. apply HI.
Qed.

(** ** Commands *)

Lemma wp_drop_over_limit r c w : live r c w → wp (drop_over_limit r : M _) (λ dropped w',
  if dropped : bool then ∃ evs err, gone r c w w' evs err else w' = w) w.
Proof.
  intros Hl. unfold drop_over_limit. apply wp_bind, (wp_conn r c); [apply Hl|]. apply wp_bind, wp_loop.
  destruct (over_limit c (w_l w)) as [e|]; [|by apply wp_ret]. apply wp_bind.
  apply (wp_mono _ (λ _ w', kept r c w c w' [] [] [])).
  { destruct (ec_IsClient c); [|by apply wp_ret, kept_refl]. wpc (wp_stat r c w bump_cmddrop Hl). by intros ? w' [? _]. }
  intros ? w1 K1. wpb (wp_closeConn r c w1 (Some e) (kp_live _ _ _ _ _ _ _ _ K1)). intros ? w2 G2. apply wp_ret.
  eexists _, _. by eapply kept_gone.
Qed.

Lemma wp_consumeCmd cmd w : Inv w → cmd_ok cmd → wp (consumeCmd cmd : M _) (λ _ w', Inv w') w.
Proof.
  intros HI Hok. unfold consumeCmd. wpb (wp_Inv_stat bump_cmdconsume w HI). intros ? w1 [HI1 _].
  wpb (wp_connByFD (cd_fd cmd) w1 HI1). intros [r|] ? [-> Hr]; [|by apply wp_release].
  destruct Hr as (c & Ho & Efd & Hwf). pose proof (owns_live _ _ _ HI1 Ho) as L.
  apply wp_bind, (wp_conn r c); [apply L|]. gcase.
  - gcase; [by apply wp_release|]. wpb (wp_EnqueueWrite r c w1 _ _ L Hok). intros ? w2 (c2 & K2 & Q2 & _).
    apply wp_bind, wp_mod_l. rewrite (Fd_view c Hwf). set (w3 := mkW _ _ _ _ _ _ _).
    assert (kept r c2 w2 c2 w3 [] [] []) as K3.
    { apply kept_l; [apply K2| |done]. assert (v_fd (ec_view c2) = v_fd (ec_view c)) as -> by apply K2.
      split; try done. intros fd' Hne. simpl. set_solver. }
    pose proof (kept_trans _ _ _ _ _ _ _ _ _ _ _ _ _ K2 K3) as K23.
    assert (Inv w3) as HI3.
    { eapply Inv_kept; [exact HI1|exact Ho|exact K23|]. intros _.
      assert (v_fd (ec_view c2) = v_fd (ec_view c)) as -> by apply K2. simpl. set_solver. }
    wpb (wp_drop_over_limit r c2 w3 (kp_live _ _ _ _ _ _ _ _ K23)). intros dropped w4 Hd. apply wp_ret.
    destruct dropped; [|by subst]. destruct Hd as (evs & err & G). eapply Inv_gone; [exact HI3| |exact G].
    apply live_owns, K23.
  - gcase; [|by apply wp_release]. wpb (wp_after_closed r c w1 _ HI1 Ho). intros ? w2 HI2. by apply wp_release.
Qed.

Lemma wp_drain_cmds dial n consumed w : Inv w → wp (drain_cmds T dial n consumed : M _) (λ _ w', Inv w') w.
Proof.
  revert consumed w. induction n as [|n IH]; intros consumed w HI; [by apply wp_ret|]. cbn [drain_cmds].
  apply wp_bind, wp_loop. gcase; [|by apply wp_ret].
  destruct (if dial then l_cmdDialChan (w_l w) else l_cmdChan (w_l w)) as [|cmd cmds] eqn:Ech; [by apply wp_ret|].
  apply wp_bind, wp_mod_l. set (w1 := mkW _ _ _ _ _ _ _).
  assert (∀ x, x = cmd ∨ x ∈ cmds → x ∈ l_cmdChan (w_l w) ++ l_cmdDialChan (w_l w)) as Hin.
  { intros x Hx. apply elem_of_app. destruct dial; rewrite Ech; [right|left]; apply elem_of_cons; tauto. }
  pose proof HI as [I1 I2 I3 I4 I5 I6 I7 I8]. assert (Inv w1) as HI1.
  { destruct dial; apply (InvR_l _ _ _ _ _ HI); try done; intros x; simpl; rewrite elem_of_app; intros [Hx|Hx]; apply I7; auto;
      apply elem_of_app; auto. }
  eapply wp_bind, wp_mono; [apply (wp_consumeCmd cmd w1 HI1)|].
  { apply I7, Hin. by left. }
  intros ? w2 HI2. by apply IH.
Qed.

Lemma wp_drain_accepts n accepted w : 0 < MaxReadBytesPerEvent T → Inv w →
  wp (drain_accepts T n accepted : M _) (λ _ w', Inv w') w.
Proof.
  intros Hb. revert accepted w. induction n as [|n IH]; intros accepted w HI; [by apply wp_ret|]. cbn [drain_accepts].
  apply wp_bind, wp_loop. gcase; [|by apply wp_ret]. destruct (l_acceptChan (w_l w)) as [|r rs] eqn:Ech; [by apply wp_ret|].
  apply wp_bind, wp_mod_l. set (w1 := mkW _ _ _ _ _ _ _). pose proof HI as [I1 I2 I3 I4 I5 I6 I7 I8].
  rewrite Ech in I5, I6. apply list.NoDup_cons in I6 as [Hnr Hnd].
  assert (Inv w1) as HI1.
  { apply (InvR_l _ _ _ _ _ HI); try done. intros r0 Hr0. apply I5. by right. }
  eapply wp_bind, wp_mono; [apply (wp_attachClient r w1 Hb)|].
  { split; [done|]. split; [|done]. destruct (I5 r ltac:(by left)) as (A1 & A2 & A3). done. }
  intros ? w2 HI2. by apply IH.
Qed.

Lemma wp_flush_conns fds flushed w : Inv w → wp (flush_conns T fds flushed : M _) (λ _ w', Inv w') w.
Proof.
  revert flushed w. induction fds as [|fd fds IH]; intros flushed w HI; [by apply wp_ret|]. cbn [flush_conns].
  apply wp_bind, wp_loop. case_bool_decide as Hin; [by apply IH|].
  gcase; [by apply wp_ret|]. apply wp_bind, wp_mod_l. set (w1 := mkW _ _ _ _ _ _ _).
  assert (owned_b (w_conns w) (w_table w) (l_idx (l_cfg (w_l w))) fd = true) as Hown by (apply HI; set_solver).
  unfold owned_b in Hown. destruct (fdTableGet (w_table w) fd) as [r|] eqn:Et; [|done].
  destruct (iv_table _ _ _ _ HI fd r Et) as (c & Hc & Hwf & Ho). rewrite Hc in Hown. apply Z.eqb_eq in Hown.
  destruct (Ho Hown) as (Efd & Hz & _). assert (owns w r c) as Ho' by (split_and!; try done; by rewrite Efd).
  pose proof (owns_live _ _ _ HI Ho') as L.
  assert (kept r c w c w1 [] [] []) as K1.
  { apply kept_l; [done| |done]. split; try done. intros fd' Hne. simpl. set_solver. }
  assert (connByFD fd w1 = Some (Some r, w1)) as Eby.
  { unfold connByFD, mbind, M_bind, gets, Loop.loop, conn. simpl. rewrite Et. simpl. rewrite Hc. simpl.
    destruct (ec_observe c Hwf) as (_ & _ & -> & _). by rewrite Hown, Z.eqb_refl. }
  apply wp_bind. unfold wp at 1. rewrite Eby. apply wp_bind, (wp_conn r c); [done|].
  rewrite (Fd_view c Hwf), Efd. zb. pose proof (kp_live _ _ _ _ _ _ _ _ K1) as L1.
  wpb (wp_drainWrite T r c w1 L1). intros [n err] w2 (c2 & K2 & _). pose proof (kp_live _ _ _ _ _ _ _ _ K2) as L2.
  pose proof (kept_trans _ _ _ _ _ _ _ _ _ _ _ _ _ K1 K2) as K12. gcase.
  - wpb (wp_closeConn r c2 w2 _ L2). intros ? w3 G3. apply IH. eapply Inv_gone; [done..|]. by eapply kept_gone.
  - wpb (wp_drop_over_limit r c2 w2 L2). intros dropped w3 Hd. destruct dropped.
    + destruct Hd as (evs & e & G3). apply IH. eapply Inv_gone; [done..|]. by eapply kept_gone.
    + subst w3. wpb (wp_updateWriteFd r c2 w2 L2). intros ? w3 (K3 & _ & Hreg). apply IH.
      eapply Inv_kept; [done..|exact (kept_trans _ _ _ _ _ _ _ _ _ _ _ _ _ K12 K3)|]. by apply registered_awake.
Qed.

(** ** Shutdown *)

Lemma wp_close_listeners p ls w : Inv w → wp (close_listeners p ls : M _) (λ _ w', Inv w' ∧ w_l w' = w_l w) w.
Proof.
  revert w. induction ls as [|lis ls IH]; intros w HI; [by apply wp_ret|]. cbn [close_listeners].
  wpb (wp_Inv_syscall _ w HI). intros ? w1 (HI1 & _ & _ & E1). wpb (wp_Inv_syscall _ w1 HI1). intros ? w2 (HI2 & _ & _ & E2).
  wpc (IH w2 HI2). intros ? w3 [HI3 E3]. split; [done|congruence].
Qed.

Lemma close_all_ok idx w : Inv w → idx = l_idx (l_cfg (w_l w)) → wp (close_all idx : M _) (λ _ w', Inv w') w.
Proof.
  intros HI Hidx. unfold wp, close_all, fdTableRange.
  match goal with |- context [foldr ?f Some ?fds w] =>
    assert (∀ w0, Inv w0 → idx = l_idx (l_cfg (w_l w0)) → ∃ w', foldr f Some fds w0 = Some w' ∧ Inv w') as Hall
  end.
  { induction (seqZ 0 (len (w_table w))) as [|fd fds IH]; intros w0 HI0 Hidx0; simpl; [eauto|].
    destruct (fdTableGet (w_table w0) fd) as [r|] eqn:Et; [|by apply IH].
    destruct (iv_table _ _ _ _ HI0 fd r Et) as (c & Hc & Hwf & Ho). rewrite Hc.
    destruct (ec_observe c Hwf) as (_ & _ & -> & _).
    destruct (Z.eqb_spec (v_loopID (ec_view c)) idx) as [E|]; [|by apply IH]. rewrite Hidx0 in E.
    destruct (Ho E) as (Efd & _). assert (owns w0 r c) as Hown by (split_and!; try done; by rewrite Efd).
    destruct (wp_run _ _ _ (wp_closeConn r c w0 None (owns_live _ _ _ HI0 Hown))) as ([] & w1 & E1 & G). rewrite E1. simpl.
    apply IH; [by eapply Inv_gone|]. by rewrite (lr_cfg _ _ _ (fr_l _ _ _ _ (gn_frame _ _ _ _ _ _ G))). }
  destruct (Hall w HI Hidx) as (w' & -> & HI'). done.
Qed.

Lemma wp_shutdown w : Inv w → wp (shutdown : M _) (λ _ w', Inv w') w.
Proof.
  intros HI. unfold shutdown. apply wp_bind, wp_loop. gcase; [by apply wp_ret|]. apply wp_bind, wp_mod_l.
  set (w1 := mkW _ _ _ _ _ _ _). assert (Inv w1) as HI1 by (apply (InvR_l _ _ _ _ _ HI); try done; apply HI).
  wpb (wp_close_listeners _ _ w1 HI1). intros ? w2 [HI2 E2]. apply close_all_ok; [done|]. by rewrite E2.
Qed.

(** ** The command callback *)

(** When work is left, the next wake-up is due. *)
Definition rearmed w : Prop :=
  l_cmdChan (w_l w) ≠ [] ∨ l_cmdDialChan (w_l w) ≠ [] ∨ l_acceptChan (w_l w) ≠ [] ∨ l_cmdFlushSet (w_l w) ≠ ∅ →
  l_triggered (w_l w) = 1.

Lemma wp_processCmd range_keys ev w : 0 < MaxReadBytesPerEvent T → Inv w →
  wp (processCmd T range_keys ev : M _) (λ _ w', Inv w' ∧ (ev ≠ EventStop → rearmed w')) w.
Proof.
  intros Hb HI. unfold processCmd. destruct (Z.eqb_spec ev EventStop) as [->|Hne].
  { wpc (wp_shutdown w HI). done. }
  apply wp_bind, (wp_mono _ (λ _ w', Inv w')).
  { gcase; [by apply wp_onIdle|by apply wp_ret]. }
  intros ? w1 HI1. apply wp_bind, wp_loop. wpb (wp_drain_accepts _ _ w1 Hb HI1). intros ? w2 HI2.
  apply wp_bind, wp_loop. wpb (wp_drain_cmds false _ _ w2 HI2). intros ? w3 HI3.
  apply wp_bind, wp_loop. wpb (wp_drain_cmds true _ _ w3 HI3). intros ? w4 HI4.
  apply wp_bind, wp_loop. wpb (wp_flush_conns _ _ w4 HI4). intros ? w5 HI5.
  apply wp_bind, wp_mod_l. set (w6 := mkW _ _ _ _ _ _ _).
  assert (Inv w6) as HI6 by (apply (InvR_l _ _ _ _ _ HI5); try done; apply HI5).
  apply wp_bind, wp_loop. gcase.
  - unfold trigger. apply wp_bind, wp_loop. simpl. apply wp_bind, wp_mod_l. set (w7 := mkW _ _ _ _ _ _ _).
    assert (Inv w7) as HI7 by (apply (InvR_l _ _ _ _ _ HI6); try done; apply HI6).
    wpb (wp_Inv_syscall _ w7 HI7). intros ? w8 (HI8 & _ & _ & E8). apply wp_ret. split; [done|].
    intros _ _. by rewrite E8.
  - apply wp_ret. split; [done|]. intros _. unfold rearmed.
    repeat match goal with H : _ || _ = false |- _ => apply orb_false_iff in H as [? ?] end.
    intros Hw. exfalso. apply negb_false_iff in H2. apply bool_decide_eq_true in H2.
    destruct (l_cmdChan (w_l w6)), (l_cmdDialChan (w_l w6)), (l_acceptChan (w_l w6)); simpl in *; try done; naive_solver.
Qed.

(** ** Accepting *)

Class KernelNetLaws : Prop := {
  (* descriptor 0 is the standard input and stays open *)
  sys_accept_nonzero k fd k' nfd : sys_accept k fd = (k', inl nfd) → nfd ≠ 0;
}.

Class HostLaws : Prop := {
  tls_NewPendingConn_ok s fd s' c : tls_NewPendingConn s fd = (s', Some c) →
    ec_wf c ∧ v_fd (ec_view c) = fd ∧ v_unsent (ec_view c) = [] ∧ v_recvbuf (ec_view c) = NewRingBuffer;
}.

Context `{!KernelNetLaws, !HostLaws}.

(** A connection that nobody has seen yet. *)
Definition newborn c : Prop :=
  ec_wf c ∧ v_fd (ec_view c) ≠ 0 ∧ v_unsent (ec_view c) = [] ∧ v_recvbuf (ec_view c) = NewRingBuffer.

Lemma wp_new_conn c w : Inv w → newborn c → wp (new_conn c : M _) (λ r w', unattached r w') w.
Proof.
  intros HI (Hwf & Hfd & Hu & Hrb). unfold wp, new_conn. set (r := fresh (dom (w_conns w))).
  assert (w_conns w !! r = None) as Hr by (apply not_elem_of_dom; apply is_fresh).
  pose proof HI as [I1 I2 I3 I4 I5 I6 I7 I8].
  assert (∀ fd, fdTableGet (w_table w) fd ≠ Some r) as Hnt.
  { intros fd E. destruct (I2 fd r E) as (c0 & Hc0 & _). congruence. }
  assert (r ∉ l_acceptChan (w_l w)) as Hna.
  { intros E. destruct (I5 r E) as ((c0 & Hc0 & _) & _). congruence. }
  assert (∀ e, (e, r) ∉ l_checkList (w_l w)) as Hnc.
  { intros e E. destruct (I4 e r E) as (c0 & Hc0 & _). congruence. }
  split; [by apply InvR_unattached|]. split; [|done]. split; [|done]. exists c. simpl.
  rewrite lookup_insert_eq. split_and!; try done. rewrite Hrb. split; [split; [split|]|]; simpl; lia.
Qed.

Lemma wp_set_id r w id : unattached r w →
  wp (c ← conn r; set_conn r (ec_SetID c id) : M _) (λ _ w', unattached r w') w.
Proof.
  intros (HI & ((c & Hc & Hwf & Hfd & Hu & Hrb) & Hnt & Hnc) & Hna). apply wp_bind, (wp_conn r c); [done|].
  pose proof (ec_SetID_ok (w_k w) c id Hwf) as [Swf Sv _ _ _]. unfold wp, set_conn.
  split; [by apply InvR_unattached|]. split; [|done]. split; [|done].
  exists (ec_SetID c id). simpl. rewrite lookup_insert_eq, Sv. simpl. done.
Qed.

Lemma wp_AllocID r w : unattached r w → wp (AllocID r : M _) (λ _ w', unattached r w') w.
Proof.
  intros Hun. unfold AllocID. apply wp_bind, (wp_mono _ (λ _ w', unattached r w')); [|intros; by apply wp_set_id].
  destruct Hun as (HI & Hat & Hna). pose proof Hat as ((c & Hc & _) & _). destruct idg_GetID as [gen|].
  - unfold wp, mbind, M_bind, gets. simpl. by destruct (gen (w_app w)).
  - apply wp_bind, (wp_conn r c); [done|]. unfold GenID. apply wp_bind, wp_loop, wp_bind, wp_mod_l, wp_ret.
    split; [|by split]. apply (InvR_l _ _ _ _ _ HI); try done; apply HI.
Qed.

Lemma wp_accept_checks fd extra w : Inv w → wp (accept_checks T fd extra : M _) (λ _ w', Inv w') w.
Proof.
  intros HI. unfold accept_checks. apply wp_bind.
  apply (wp_mono _ (λ _ w', Inv w')); [unfold overloaded, wp, mbind, M_bind, gets; simpl; by destruct sel_GetLoad|].
  intros over w1 HI1. destruct over; [wpb (wp_Inv_syscall _ w1 HI1); intros ? w2 (HI2 & _); by apply wp_ret|].
  wpb (wp_Inv_syscall _ w1 HI1). intros err w2 (HI2 & _).
  gcase; [wpb (wp_Inv_syscall _ w2 HI2); intros ? w3 (HI3 & _); by apply wp_ret|].
  apply wp_bind, (wp_mono _ (λ _ w', Inv w')).
  { unfold setSocketOptions. apply wp_bind, (wp_mono _ (λ _ w', Inv w')).
    - gcase; [|by apply wp_ret]. wpc (wp_Inv_syscall _ w2 HI2). by intros ? w3 (HI3 & _).
    - intros [e|] w3 HI3; [by apply wp_ret|]. gcase; [|by apply wp_ret]. wpc (wp_Inv_syscall _ w3 HI3). by intros ? w4 (HI4 & _). }
  intros err3 w3 HI3. gcase; [wpb (wp_Inv_syscall _ w3 HI3); intros ? w4 (HI4 & _); by apply wp_ret|].
  wpb (wp_Inv_stat bump_accept w3 HI3). intros ? w4 [HI4 _]. by apply wp_ret.
Qed.

Lemma wp_sys_accept fd w : Inv w → wp (syscall (λ k, sys_accept k fd) : M _) (λ res w', Inv w' ∧
  match res with inl nfd => nfd ≠ 0 | inr _ => True end) w.
Proof.
  intros HI. unfold wp, syscall. destruct (sys_accept (w_k w) fd) as [k' [nfd|e]] eqn:E; [|done].
  split; [done|]. by eapply sys_accept_nonzero.
Qed.

Lemma wp_accept n fd w : 0 < MaxReadBytesPerEvent T → Inv w → wp (accept T n fd : M _) (λ _ w', Inv w') w.
Proof.
  intros Hb. revert w. induction n as [|n IH]; intros w HI; [by apply wp_ret|]. cbn [accept].
  wpb (wp_sys_accept fd w HI). intros [nfd|e] w1 [HI1 Hn]; [|by apply wp_ret].
  wpb (wp_accept_checks nfd 0 w1 HI1). intros [[|]|] w2 HI2; [|by apply IH|by apply wp_ret].
  destruct (ec_accepted_ok nfd) as [Hwf Hv]. eapply wp_bind, wp_mono; [apply (wp_new_conn (ec_accepted nfd) w2 HI2)|].
  { split; [done|]. rewrite Hv. done. }
  intros r w3 Hun3. wpb (wp_AllocID r w3 Hun3). intros ? w4 Hun4. wpb (wp_attachClient r w4 Hb Hun4).
  intros ? w5 HI5. by apply IH.
Qed.

Lemma wp_set_app s w : Inv w → wp (set_app s : M _) (λ _ w', Inv w') w.
Proof. done. Qed.

Lemma wp_acceptTLS n fd w : Inv w → wp (acceptTLS T n fd : M _) (λ _ w', Inv w') w.
Proof.
  revert w. induction n as [|n IH]; intros w HI; [by apply wp_ret|]. cbn [acceptTLS].
  wpb (wp_sys_accept fd w HI). intros [nfd|e] w1 [HI1 Hn]; [|by apply wp_ret].
  apply wp_bind. unfold wp at 1, gets. wpb (wp_accept_checks nfd _ w1 HI1). intros [[|]|] w2 HI2; [|by apply IH|by apply wp_ret].
  wpb (wp_Inv_stat bump_tlsAccept w2 HI2). intros ? w3 [HI3 _]. apply wp_bind. unfold wp at 1, gets. gcase.
  { wpb (wp_Inv_syscall _ w3 HI3). intros ? w4 (HI4 & _). by apply IH. }
  destruct (tls_NewPendingConn (w_app w3) nfd) as [s [c|]] eqn:Ec; wpb (wp_set_app s w3 HI3); intros ? w4 HI4.
  2: { wpb (wp_Inv_syscall _ w4 HI4). intros ? w5 (HI5 & _). by apply IH. }
  destruct (tls_NewPendingConn_ok _ _ _ _ Ec) as (Hwf & Efd & Hu & Hrb).
  eapply wp_bind, wp_mono; [apply (wp_new_conn c w4 HI4)|]. { split; [done|]. split; [congruence|done]. }
  intros r w5 Hun5. wpb (wp_AllocID r w5 Hun5). intros ? w6 Hun6. apply wp_bind. unfold wp at 1, gets.
  pose proof Hun6 as (HI6 & ((c6 & Hc6 & _) & _) & _). apply wp_bind, (wp_conn r c6); [done|].
  destruct (tls_Submit (w_app w6) c6) as [s6 ok]. apply wp_bind. unfold wp at 1, set_app. apply wp_bind.
  set (w7 := mkW _ _ _ _ _ _ _). assert (unattached r w7) as Hun7 by exact Hun6.
  apply (wp_mono _ (λ _ w', Inv w')); [|intros; by apply IH].
  destruct ok; [apply wp_ret, Hun7|by apply wp_close_unattached].
Qed.

Lemma wp_processAccept fd w : 0 < MaxReadBytesPerEvent T → Inv w → wp (processAccept T fd : M _) (λ _ w', Inv w') w.
Proof.
  intros Hb HI. unfold processAccept. apply wp_bind, wp_loop. destruct (filter _ _) as [|lis ?]; [by apply wp_ret|].
  gcase; [by apply wp_accept|]. gcase; [by apply wp_acceptTLS|by apply wp_ret].
Qed.

(** ** The callbacks of the poller *)

Lemma wp_dispatch range_keys fd events w : 0 < MaxReadBytesPerEvent T → Inv w →
  wp (dispatch T range_keys fd events : M _) (λ _ w', Inv w') w.
Proof.
  intros Hb HI. unfold dispatch. gcase.
  { wpc (wp_processCmd range_keys events w Hb HI). by intros ? w' [? _]. }
  wpb (wp_connByFD fd w HI). intros [r|] ? [-> Hr].
  2: { gcase; [by apply wp_processAccept|by apply wp_ret]. }
  destruct Hr as (c & Ho & Efd & Hwf). gcase; [by eapply wp_after_closed|].
  apply wp_bind, (wp_conn r c); [apply Ho|]. apply wp_bind.
  apply (wp_mono _ (λ gone w', if gone : bool then Inv w' else Inv w' ∧ ∃ c', owns w' r c')).
  { gcase; [|apply wp_ret; eauto]. wpb (wp_after_send r c w HI Ho). intros ? w1 (HI1 & c1 & Hc1 & Hwf1 & Hcase).
    apply wp_bind, (wp_conn r c1); [done|]. apply wp_ret. rewrite (Fd_view c1 Hwf1). gcase; [done|].
    destruct Hcase as [?|[_ ?]]; [lia|eauto]. }
  intros [|] w1 H1'; [by apply wp_ret|]. destruct H1' as (HI1 & c1 & Ho1). gcase; [|by apply wp_ret].
  wpb (wp_after_read r c1 w1 Hb HI1 Ho1). intros ? w2 (HI2 & c2 & Hc2 & Hwf2 & Hcase).
  apply wp_bind, (wp_conn r c2); [done|]. rewrite (Fd_view c2 Hwf2). gcase; [by apply wp_ret|].
  destruct Hcase as [?|[_ Ho2]]; [lia|]. gcase; [|by apply wp_ret].
  wpc (wp_after_send r c2 w2 HI2 Ho2). by intros ? w3 [? _].
Qed.

Lemma wp_run_callbacks range_keys cbs w : 0 < MaxReadBytesPerEvent T → Inv w →
  wp (run_callbacks T range_keys cbs : M _) (λ _ w', Inv w') w.
Proof.
  intros Hb. revert w. induction cbs as [|[fd ev] cbs IH]; intros w HI; [by apply wp_ret|]. cbn [run_callbacks].
  wpb (wp_dispatch range_keys fd ev w Hb HI). intros ? w1 HI1. by apply IH.
Qed.

Lemma wp_poll_round range_keys stopping evs w : 0 < MaxReadBytesPerEvent T → Inv w →
  wp (poll_round T range_keys stopping evs : M _) (λ stop w', Inv w' ∧ (stop = false → rearmed w')) w.
Proof.
  intros Hb HI. unfold poll_round. apply wp_bind, wp_loop. destruct (poll_batch _ stopping evs) as [cbs stop] eqn:Eb.
  destruct stop.
  { wpb (wp_run_callbacks range_keys cbs w Hb HI). intros ? w1 HI1. by apply wp_ret. }
  destruct (poll_batch_idle _ _ _ _ Eb) as [cbs' ->]. clear Eb. revert w HI.
  induction cbs' as [|[fd ev] cbs' IH]; intros w HI.
  - apply wp_bind. cbn [app run_callbacks]. apply wp_bind. unfold dispatch. change (0 =? 0) with true. cbv iota.
    wpc (wp_processCmd range_keys EventIdle w Hb HI). intros ? w1 [HI1 Hr]. apply wp_ret, wp_ret. split; [done|].
    intros _. by apply Hr.
  - apply wp_bind. cbn [app run_callbacks]. apply wp_bind.
    wpc (wp_dispatch range_keys fd ev w Hb HI). intros ? w1 HI1. specialize (IH w1 HI1).
    unfold wp, mbind, M_bind in *. by destruct (run_callbacks T range_keys (cbs' ++ [(0, EventIdle)]) w1) as [[[] w2]|].
Qed.

(** ** Runs of a loop *)

(** What can happen to a loop: a round of the poller, or a call from another
    goroutine. *)
Inductive action : Type :=
| APoll (stopping : bool) (evs : list (Z * Z))
| AAddCmd (cmd fd : Z) (dial : bool) (id : Z) (data : list Z)
| AAddClient (c : C)
| AAddListener (lis : Listener)
| ASyncTime (sec : Z)
| AStat.

Definition action_ok (a : action) : Prop := match a with AAddClient c => newborn c | _ => True end.

Variable range_keys : LoopConn → gset Z → list Z.

Definition run_action (a : action) : M unit :=
  match a with
  | APoll stopping evs => poll_round T range_keys stopping evs;; mret tt
  | AAddCmd cmd fd dial id data => AddCmd cmd fd dial id data;; mret tt
  | AAddClient c => r ← new_conn c; AddClient r;; mret tt
  | AAddListener lis => AddListener lis
  | ASyncTime sec => SyncTime sec
  | AStat => Stat;; mret tt
  end.

Fixpoint run_actions (acts : list action) : M unit :=
  match acts with [] => mret tt | a :: acts => run_action a;; run_actions acts end.

Lemma wp_run_action a w : 0 < MaxReadBytesPerEvent T → Inv w → action_ok a → wp (run_action a) (λ _ w', Inv w') w.
Proof.
  intros Hb HI Hok. destruct a as [stopping evs|cmd fd dial id data|c|lis|sec|]; simpl.
  - wpb (wp_poll_round range_keys stopping evs w Hb HI). intros ? w1 [HI1 _]. by apply wp_ret.
  - wpb (wp_AddCmd cmd fd dial id data w HI). intros ? w1 HI1. by apply wp_ret.
  - wpb (wp_new_conn c w HI Hok). intros r w1 (HI1 & Hat & Hna). wpb (wp_AddClient r w1 HI1 Hat Hna). intros ? w2 HI2. by apply wp_ret.
  - unfold AddListener. gcase; [by apply wp_ret|]. apply wp_bind, wp_loop. gcase.
    { wpc (wp_Inv_syscall _ w HI). by intros ? w1 (HI1 & _). }
    apply wp_bind, wp_mod_l. set (w1 := mkW _ _ _ _ _ _ _).
    assert (Inv w1) as HI1 by (apply (InvR_l _ _ _ _ _ HI); try done; apply HI).
    wpb (wp_Inv_syscall _ w1 HI1). intros ? w2 (HI2 & _). by apply wp_ret.
  - apply wp_mod_l. apply (InvR_l _ _ _ _ _ HI); try done; apply HI.
  - unfold Stat. apply wp_bind, wp_bind, wp_loop. apply wp_bind. eapply wp_mono; [apply (wp_Inv_stat _ w HI)|].
    intros ? w1 [HI1 _]. by apply wp_ret, wp_ret.
Qed.

Lemma wp_run_actions acts w : 0 < MaxReadBytesPerEvent T → Inv w → Forall action_ok acts →
  wp (run_actions acts) (λ _ w', Inv w') w.
Proof.
  intros Hb. revert w. induction acts as [|a acts IH]; intros w HI Hok; [by apply wp_ret|].
  inversion Hok as [|? ? Ha Hacts]; subst. cbn [run_actions]. wpb (wp_run_action a w Hb HI Ha). intros ? w1 HI1. by apply IH.
Qed.

(** A loop made by [Init], on a table with no connection of its index, satisfies
    the invariant. *)
Lemma Init_Inv pool poll idx size chanSize pkt cli k app (conns : gmap nat C) table tr :
  al_inv pool → size ≤ al_max pool →
  (∀ fd r, fdTableGet table fd = Some r → ∃ c, conns !! r = Some c ∧ ec_wf c ∧ v_loopID (ec_view c) ≠ idx) →
  ∃ pool' l, Init pool poll idx size chanSize pkt cli = Some (pool', l) ∧ Inv (mkW pool' k app conns table l tr).
Proof.
  intros Hp Hs Ht. unfold Init. destruct (al_get_some pool size Hp Hs) as (b & p' & -> & Hle & Hb & Hp' & Hm). simpl.
  eexists _, _. split; [done|]. split; simpl.
  - split; [done|]. simpl. lia.
  - intros fd r Hr. destruct (Ht fd r Hr) as (c & Hc & Hwf & Hne). exists c. by split_and!.
  - set_solver.
  - set_solver.
  - set_solver.
  - constructor.
  - set_solver.
  - unfold owned_fds. rewrite (filter_agree _ (λ _, False)).
    + by induction (seqZ 0 (len table)).
    + intros fd _. unfold owned_b. split; [|done]. destruct (fdTableGet table fd) as [r|] eqn:E; [|done].
      destruct (Ht fd r E) as (c & -> & _ & Hne). by intros ?%Z.eqb_eq.
Qed.

(** C1: the event loop never panics and never loses track of its connections.
    From a state that satisfies the invariant, any sequence of poller rounds (with
    any events, including stale ones), [AddCmd], [AddClient], [AddListener], clock
    and statistics calls runs to the end, for any kernel, any application and any
    order in which Go ranges over the flush set, and the invariant holds again:
    every owned table slot holds an open connection of that descriptor with a
    usable receive buffer; the write, close and flush sets name owned descriptors
    only; a connection with queued output is in the write or in the flush set; the
    idle list and the accept channel hold usable connections; and [count] is the
    number of owned slots modulo 2^32. *)
Theorem loop_invariant_preserved (acts : list action) (w : World) :
  0 < MaxReadBytesPerEvent T → Inv w → Forall action_ok acts →
  ∃ w', run_actions acts w = Some (tt, w') ∧ Inv w' ∧
    l_count (w_l w') = wrapS 32 (len (owned_fds (w_conns w') (w_table w') (l_idx (l_cfg (w_l w'))))).
Proof.
  intros Hb HI Hok. destruct (wp_run _ _ _ (wp_run_actions acts w Hb HI Hok)) as ([] & w' & E & HI').
  exists w'. split; [done|]. split; [done|]. apply HI'.
Qed.


End Run.

(** ** Witnesses *)

#[local] Existing Instances test_Allocator test_AllocatorLaws test_EngineConn test_EngineConnLaws test_Handler.

#[local] Instance test_Net : KernelNet TestEpoll := {
  sys_accept k fd := (k, inr EAGAIN);
  sys_set_nonblock k fd := (k, None);
  sys_setsockopt_nodelay k fd := (k, None);
  sys_setsockopt_sndbuf k fd n := (k, None);
  lis_Close k lis := k;
}.

#[local] Instance test_NetLaws : KernelNetLaws.
Proof. by split. Qed.

#[local] Instance test_Host : Host unit TConn := {
  idg_GetID := None;
  sel_GetLoad := Some (λ _, 0);
  tls_present := false;
  tls_Pending s := 0;
  tls_NewPendingConn s fd := (s, None);
  tls_Submit s c := (s, false);
}.

#[local] Instance test_HostLaws : HostLaws (K := TestEpoll) (P := BytesAlloctor).
Proof. by split. Qed.

(** A new loop with an empty table of 16 slots. *)
Definition empty_loop : LoopConn :=
  mkLoop test_cfg (make_bytes 1024) ∅ ∅ ∅ 0 0 0 [] [] [] 0 (mkStat 0 0 0 0 0 0 0 0) 0 [] 0%nat ∅ 0 [] false.

Definition empty_world (inp : list Z) (win : nat) : World BytesAlloctor TestEpoll unit TConn :=
  mkW test_pool (mkTE (mkTK win 0 inp [] []) ∅) tt ∅ (replicate 16 None) empty_loop [].

Lemma empty_table_get fd : fdTableGet (replicate 16 (None : option nat)) fd = None.
Proof.
  apply eq_None_not_Some. intros [c Hc]. apply fdTableGet_Some in Hc as [_ Hc]. by apply lookup_replicate in Hc as [? _].
Qed.

Lemma empty_Inv inp win : Inv (empty_world inp win).
Proof.
  split.
  - split; [apply test_pool_inv|]. vm_compute. done.
  - intros fd r. simpl. by rewrite empty_table_get.
  - intros fd. simpl. set_solver.
  - intros e r. simpl. set_solver.
  - intros r. simpl. set_solver.
  - constructor.
  - intros cmd. simpl. set_solver.
  - reflexivity.
Qed.

Definition test_client (fd : Z) : TConn := ec_accepted (P := BytesAlloctor) (K := TestEpoll) (EngineConn := test_EngineConn) fd.

(** A client is handed over, its input arrives, another goroutine queues output,
    and a second client takes the descriptor over. *)
Definition test_actions : list action :=
  [AAddClient (test_client 7); APoll false []; APoll false [(7, EPOLLIN)];
   AAddCmd CMD_DATA 7 false 0 [1; 2; 3]; APoll false []; AAddClient (test_client 7); APoll false []].

Lemma test_actions_ok : Forall action_ok test_actions.
Proof. repeat constructor; simpl; try done; apply wq_inv_empty. Qed.

Lemma loop_invariant_preserved_witness :
  ∃ w', run_actions (g_loop initial_globals) (λ _ s, elements s) test_actions (empty_world [2; 5; 6; 1; 8; 3; 7] 2) = Some (tt, w') ∧
    Inv w' ∧ l_count (w_l w') = wrapS 32 (len (owned_fds (w_conns w') (w_table w') (l_idx (l_cfg (w_l w'))))).
Proof.
  apply (loop_invariant_preserved (g_loop initial_globals) (λ _ s, elements s) test_actions (empty_world [2; 5; 6; 1; 8; 3; 7] 2)).
  - reflexivity.
  - apply empty_Inv.
  - apply test_actions_ok.
Defined.


(** The run, evaluated: what the application saw, the count, and what is queued. *)
Example test_actions_run :
  (λ x, (w_trace (snd x), l_count (w_l (snd x)), elements (l_writeFds (w_l (snd x))))) <$>
    run_actions (g_loop initial_globals) (λ _ s, elements s) test_actions (empty_world [2; 5; 6; 1; 8; 3; 7] 2) =
  Some ([EvConnected 0; EvData 0 [2; 5; 6] [2; 5; 6] false; EvData 0 [1; 8] [1; 8] false;
         EvClosed 0 (Some CLOSE_BY_DUP_ACCEPT); EvConnected 1], 1, []).
Proof. vm_compute. reflexivity. Qed.
