(* ===== verification/Stop.v ===== *)
(** * Stopping a loop: eventloop/loopConn.go, shutdown

    The last callback of a poller is [EventStop] (PollLoop.v), and [shutdown] runs on it: it closes
    the listeners and every connection of the loop in the table.  [Stop] of the server
    waits for all of this (Server.v). *)

From stdpp Require Import gmap.
From S2P Require Import Prelude Pool Tuning RingBuffer Conn FdTable Poller EngineConn Loop LoopInv LoopRun.

Lemma omap_agree {A B} (f g : A → option B) (l : list A) : (∀ x, x ∈ l → f x = g x) → omap f l = omap g l.
Proof.
  induction l as [|x l IH]; intros Hl; [done|]. cbn. rewrite (Hl x) by left. rewrite IH; [done|]. intros y Hy. apply Hl. by right.
Qed.

Section Stop.
Context {P K S C : Type} `{AL : AllocatorLaws P} `{KL : KernelLaws K} `{!Epoll K, !EpollLaws K, !KernelNet K}
  `{EC : !EngineConn P K C, !EngineConnLaws P K C} `{!Handler S C, !Host S C} `{!KernelNetLaws (K := K), !HostLaws (P := P) (K := K)}.
Variable T : EventLoop.
Variable range_keys : LoopConn → gset Z → list Z.
Abbreviation World := (World P K S C).
Abbreviation M := (M P K S C).
Implicit Types (w : World) (r : nat) (c : C).

(** ** The rest of the set-up *)

Definition set_config (f : LoopConfig → LoopConfig) (l : LoopConn) : LoopConn :=
  mkLoop (f (l_cfg l)) (l_recvbuf l) (l_writeFds l) (l_closeOnDrain l) (l_cmdFlushSet l) (l_count l) (l_dcount l) (l_seq l) (l_cmdChan l)
    (l_cmdDialChan l) (l_acceptChan l) (l_triggered l) (l_stat l) (l_lastCheck l) (l_checkList l) (l_nextElem l)
    (l_touchMap l) (l_nowSec l) (l_listeners l) (l_shutdown l).

Definition SetMax (max : Z) : M unit := mod_l (set_config (λ g,
  mkConfig (l_idx g) (l_pktSizeLimit g) (l_cliSbufLimit g) (l_chanSize g) (l_checkInterval g) (l_idleLimit g) max (l_poll g))).

Definition SetPollWait (msec : Z) : M unit := mod_l (set_config (λ g,
  mkConfig (l_idx g) (l_pktSizeLimit g) (l_cliSbufLimit g) (l_chanSize g) (l_checkInterval g) (l_idleLimit g) (l_max g) (Poll_SetPollWait (l_poll g) msec))).

(** [Stop]: [stopped] says that [stopOnce] has run; the poller is closed the first time only. *)
Definition loop_Stop (stopped : bool) : M bool := λ w,
  if stopped then Some (true, w)
  else
    let '(k, p, _) := Poll_Close (w_k w) (l_poll (l_cfg (w_l w))) in
    Some (true, mkW (w_pool w) k (w_app w) (w_conns w) (w_table w)
      (set_config (λ g, mkConfig (l_idx g) (l_pktSizeLimit g) (l_cliSbufLimit g) (l_chanSize g) (l_checkInterval g) (l_idleLimit g) (l_max g) p) (w_l w))
      (w_trace w)).

(** [Run]: the rounds of the poller, each with what [stopping] reads as and its events, up to the
    first that stops; then [wg.Done]. [None] at the end when the poller still waits. *)
Fixpoint Run (rounds : list (bool * list (Z * Z))) (wg : Z) : M (option Z) :=
  match rounds with
  | [] => mret None
  | (stopping, evs) :: rounds =>
      stop ← poll_round T range_keys stopping evs;
      if (stop : bool) then mret (Some (wg - 1)) else Run rounds wg
  end.

(** Whatever the poller reports, the loop runs without a panic and is in order when it returns. *)
Lemma Run_ok rounds wg w : 0 < MaxReadBytesPerEvent T → Inv w → wp (Run rounds wg) (λ (res : option Z) w', Inv w' ∧ (res = None ∨ res = Some (wg - 1))) w.
Proof.
  intros Hb. revert w. induction rounds as [|[st evs] rounds IH]; intros w HI; cbn [Run]; [apply wp_ret; auto|].
  wpb (wp_poll_round T range_keys st evs w Hb HI). intros stop w1 [HI1 _]. destruct stop; [apply wp_ret; auto|by apply IH].
Qed.

Definition idx_of w : Z := l_idx (l_cfg (w_l w)).
Definition is_owned w (fd : Z) : bool := owned_b (w_conns w) (w_table w) (idx_of w) fd.

(** The connection on a descriptor of this loop. *)
Definition owned_conn w (fd : Z) : option nat := if is_owned w fd then fdTableGet (w_table w) fd else None.

Lemma gone_table r c w w' evs err : owns w r c → gone r c w w' evs err →
  ∀ fd, fdTableGet (w_table w') fd = if decide (fd = v_fd (ec_view c)) then None else fdTableGet (w_table w) fd.
Proof. intros (_ & Ht & _) Hg fd. rewrite (gn_table _ _ _ _ _ _ Hg), Get_Clear. repeat case_decide; naive_solver. Qed.

Lemma gone_owned r c w w' evs err : owns w r c → gone r c w w' evs err → idx_of w' = idx_of w ∧
  ∀ fd, owned_conn w' fd = if decide (fd = v_fd (ec_view c)) then None else owned_conn w fd.
Proof.
  intros Hown Hg. pose proof (gone_table _ _ _ _ _ _ Hown Hg) as Ht. pose proof Hown as (Hc & _).
  pose proof Hg as [[_ _ F3 F4 _] (c' & Hc' & _ & _ & Hlp & _) _ _ _ _ _ _].
  assert (idx_of w' = idx_of w) as Ei by (unfold idx_of; by rewrite (lr_cfg _ _ _ F3)). split; [done|]. intros fd.
  unfold owned_conn, is_owned. rewrite Ei, (owned_b_eq (w_conns w)) by (by eapply loop_ids). unfold owned_b. rewrite Ht. by case_decide.
Qed.

(** What closing some of the connections leaves: those descriptors free, everything else as it was. *)
Record closed_all (fds : list Z) w w' : Prop := {
  ca_inv : Inv w';
  ca_idx : idx_of w' = idx_of w;
  ca_table fd : fdTableGet (w_table w') fd = if decide (fd ∈ fds ∧ is_Some (owned_conn w fd)) then None else fdTableGet (w_table w) fd;
  ca_owned fd : owned_conn w' fd = if decide (fd ∈ fds) then None else owned_conn w fd;
  ca_closed fd r : fd ∈ fds → owned_conn w fd = Some r → ∃ c, w_conns w' !! r = Some c ∧ v_fd (ec_view c) = 0;
  ca_kept r : (∀ fd, fd ∈ fds → owned_conn w fd ≠ Some r) → w_conns w' !! r = w_conns w !! r;
  ca_trace : w_trace w' = w_trace w ++ ((λ r, EvClosed r None) <$> omap (owned_conn w) fds);
  ca_accept : l_acceptChan (w_l w') = l_acceptChan (w_l w);
}.

(** The step of [fdTableRange] at one descriptor. *)
Definition range_step (idx : Z) (fd : Z) (k : World → option World) w : option World :=
  match fdTableGet (w_table w) fd with
  | Some r => if match w_conns w !! r with Some c => ec_LoopID c =? idx | None => false end
              then w ← snd <$> closeConn r None w; k w else k w
  | None => k w
  end.

(** It closes the connection there, if it is of this loop. *)
Lemma range_step_spec fd k w : Inv w →
  (owned_conn w fd = None ∧ range_step (idx_of w) fd k w = k w) ∨
  ∃ r c w1, owned_conn w fd = Some r ∧ v_fd (ec_view c) = fd ∧ owns w r c ∧ gone r c w w1 [] None ∧ range_step (idx_of w) fd k w = k w1.
Proof.
  intros HI. unfold range_step, owned_conn, is_owned, owned_b. destruct (fdTableGet (w_table w) fd) as [r|] eqn:Et; [|by left].
  destruct (iv_table _ _ _ _ HI fd r Et) as (c & Hc & Hwf & Ho). rewrite Hc. destruct (ec_observe c Hwf) as (_ & _ & -> & _).
  destruct (Z.eqb_spec (v_loopID (ec_view c)) (idx_of w)) as [E|]; [right|by left]. destruct (Ho E) as (Efd & _).
  assert (owns w r c) as Hown by (split_and!; try done; by rewrite Efd).
  destruct (wp_run _ _ _ (wp_closeConn r c w None (owns_live _ _ _ HI Hown))) as ([] & w1 & E1 & G). rewrite E1.
  exists r, c, w1. by split_and!.
Qed.

(** A connection that was closed is not one of the loop any more. *)
Lemma gone_not_owned r c w w' evs err fd : Inv w' → gone r c w w' evs err → owned_conn w' fd ≠ Some r.
Proof.
  intros HI Hg Ho. destruct (gn_conn _ _ _ _ _ _ Hg) as (c' & Hc' & _ & Hz & _). unfold owned_conn, is_owned, owned_b in Ho.
  destruct (fdTableGet (w_table w') fd) as [r0|] eqn:Et; [|done]. destruct (iv_table _ _ _ _ HI fd r0 Et) as (c0 & Hc0 & _ & Hi).
  rewrite Hc0 in Ho. destruct (Z.eqb_spec (v_loopID (ec_view c0)) (idx_of w')) as [E|]; [|done]. injection Ho as ->. simplify_eq.
  destruct (Hi E) as (Efd & Hne & _). congruence.
Qed.

Lemma closed_nil w : Inv w → closed_all [] w w.
Proof. intros HI. split; try done; intros; rewrite ?app_nil_r; try done; try case_decide; try set_solver. Qed.

Lemma closed_skip fd fds w w' : owned_conn w fd = None → closed_all fds w w' → closed_all (fd :: fds) w w'.
Proof.
  intros Hn [A1 A2 A3 A4 A5 A6 A7 A8]. split; try done.
  - intros fd'. rewrite A3. apply decide_ext. rewrite elem_of_cons. split; [tauto|]. intros [[->|?] Hs]; [|done]. rewrite Hn in Hs. by destruct Hs.
  - intros fd'. rewrite A4. destruct (decide (fd' = fd)) as [->|Hne].
    + rewrite Hn. by repeat case_decide.
    + apply decide_ext. rewrite elem_of_cons. tauto.
  - intros fd' r [->|Hin]%elem_of_cons Ho; [congruence|by eapply A5].
  - intros r Hr. apply A6. intros fd' Hin. apply Hr. set_solver.
  - rewrite A7. cbn [omap list_omap]. by rewrite Hn.
Qed.

Lemma closed_cons fd fds r c w w1 w' : fd ∉ fds → owned_conn w fd = Some r → v_fd (ec_view c) = fd → owns w r c → Inv w1 →
  gone r c w w1 [] None → closed_all fds w1 w' → closed_all (fd :: fds) w w'.
Proof.
  intros Hnin Ho Efd Hown HI1 Hg [A1 A2 A3 A4 A5 A6 A7 A8].
  destruct (gone_owned _ _ _ _ _ _ Hown Hg) as [Ei G]. pose proof (gone_table _ _ _ _ _ _ Hown Hg) as Gt.
  rewrite Efd in G, Gt. pose proof (fun fd' => gone_not_owned _ _ _ _ _ _ fd' HI1 Hg) as Hno.
  split; try done.
  - congruence.
  - intros fd'. rewrite A3, Gt, G. destruct (decide (fd' = fd)) as [->|Hne].
    + rewrite (decide_True (P := fd ∈ fd :: fds ∧ _)) by (split; [by left|by rewrite Ho]). by case_decide.
    + apply decide_ext. rewrite elem_of_cons. tauto.
  - intros fd'. rewrite A4, G. destruct (decide (fd' = fd)) as [->|Hne].
    + rewrite (decide_True (P := fd ∈ fd :: fds)) by left. by case_decide.
    + apply decide_ext. rewrite elem_of_cons. tauto.
  - intros fd' r' [->|Hin]%elem_of_cons Hr'.
    + rewrite Ho in Hr'. injection Hr' as <-. rewrite A6 by (intros; apply Hno). destruct (gn_conn _ _ _ _ _ _ Hg) as (c' & ? & _ & ? & _). eauto.
    + apply (A5 fd'); [done|]. rewrite G, decide_False; [done|]. by intros ->.
  - intros r' Hr'. rewrite A6.
    + apply (fr_conns _ _ _ _ (gn_frame _ _ _ _ _ _ Hg)). intros ->. by apply (Hr' fd (list_elem_of_here _ _)).
    + intros fd' Hin. rewrite G. case_decide; [done|]. apply Hr'. by right.
  - rewrite A7, (gn_trace _ _ _ _ _ _ Hg). cbn [omap list_omap]. rewrite Ho, <- app_assoc. cbn. do 3 f_equal.
    apply omap_agree. intros fd' Hin. rewrite G, decide_False; [done|]. by intros ->.
  - rewrite A8. apply (lr_chans _ _ _ (fr_l _ _ _ _ (gn_frame _ _ _ _ _ _ Hg))).
Qed.

Lemma range_closes fds : NoDup fds → ∀ w idx, Inv w → idx = idx_of w → ∃ w', foldr (range_step idx) Some fds w = Some w' ∧ closed_all fds w w'.
Proof.
  induction 1 as [|fd fds Hfd _ IH]; intros w idx HI ->; cbn [foldr]; [exists w; split; [done|by apply closed_nil]|].
  destruct (range_step_spec fd (foldr (range_step (idx_of w)) Some fds) w HI) as [[Hn ->]|(r & c & w1 & Ho & Efd & Hown & Hg & ->)].
  - destruct (IH w _ HI eq_refl) as (w' & -> & Hc). exists w'. split; [done|]. by apply closed_skip.
  - pose proof (Inv_gone _ _ _ _ _ _ HI Hown Hg) as HI1. destruct (gone_owned _ _ _ _ _ _ Hown Hg) as [Ei _].
    destruct (IH w1 (idx_of w) HI1 (eq_sym Ei)) as (w' & -> & Hc). exists w'. split; [done|]. by eapply closed_cons.
Qed.

(** Closing the listeners changes the kernel only. *)
Lemma wp_close_listeners_kernel p ls w : wp (close_listeners p ls : M _) (λ _ w', w_pool w' = w_pool w ∧ w_conns w' = w_conns w ∧
  w_table w' = w_table w ∧ w_l w' = w_l w ∧ w_trace w' = w_trace w) w.
Proof.
  assert (∀ X (f : K → K * X) w0, wp (syscall f : M X) (λ _ w', w_pool w' = w_pool w0 ∧ w_conns w' = w_conns w0 ∧
    w_table w' = w_table w0 ∧ w_l w' = w_l w0 ∧ w_trace w' = w_trace w0) w0) as Hsys by (intros; unfold wp, syscall; by destruct (f (w_k w0))).
  revert w. induction ls as [|lis ls IH]; intros w; [by apply wp_ret|]. cbn [close_listeners].
  wpb (Hsys _ _ w). intros ? w1 (A1 & A2 & A3 & A4 & A5). wpb (Hsys _ _ w1). intros ? w2 (B1 & B2 & B3 & B4 & B5).
  wpc (IH w2). intros ? w3 (C1 & C2 & C3 & C4 & C5). split_and!; congruence.
Qed.

(** C22: the stop of a loop leaves nothing of it behind in the table.  When a loop gets [EventStop], its
    last callback, the callback returns: every connection of the loop is closed, in the order of the
    descriptors, and [OnClosed] is called for each, once, with no error; no slot of the table is the
    loop's any more, [Online] is 0 and the sets of the loop are empty.  The slots and the
    connections of other loops are as they were, and so are those that wait in the accept
    channel: these are not closed. *)
Theorem stop_closes_connections w : Inv w → l_shutdown (w_l w) = false →
  let mine := omap (owned_conn w) (seqZ 0 (len (w_table w))) in
  ∃ w', run_callbacks T range_keys [(0, EventStop)] w = Some (tt, w') ∧ Inv w' ∧
    (∀ fd, owned_conn w' fd = None) ∧ l_count (w_l w') = 0 ∧
    l_writeFds (w_l w') ∪ l_closeOnDrain (w_l w') ∪ l_cmdFlushSet (w_l w') = ∅ ∧
    w_trace w' = w_trace w ++ ((λ r, EvClosed r None) <$> mine) ∧
    (∀ r, r ∈ mine → ∃ c, w_conns w' !! r = Some c ∧ v_fd (ec_view c) = 0) ∧
    (∀ r, r ∉ mine → w_conns w' !! r = w_conns w !! r) ∧
    (∀ fd, owned_conn w fd = None → fdTableGet (w_table w') fd = fdTableGet (w_table w) fd) ∧
    l_acceptChan (w_l w') = l_acceptChan (w_l w).
Proof.
  intros HI Hs mine. cut (wp (run_callbacks T range_keys [(0, EventStop)] : M _) (λ _ w', closed_all (seqZ 0 (len (w_table w))) w w') w).
  { intros Hwp. destruct (wp_run _ _ _ Hwp) as ([] & w' & E & [A1 A2 A3 A4 A5 A6 A7 A8]). exists w'. split; [done|]. split; [done|].
    assert (∀ fd, owned_conn w' fd = None) as Hnone.
    { intros fd. rewrite A4. case_decide as Hin; [done|]. unfold owned_conn. destruct (is_owned w fd) eqn:Eo; [|done]. destruct Hin. by eapply owned_in_range. }
    assert (∀ fd, is_owned w' fd = false) as Hfree.
    { intros fd. specialize (Hnone fd). unfold owned_conn in Hnone. destruct (is_owned w' fd) eqn:Eo; [|done]. unfold is_owned, owned_b in Eo. by rewrite Hnone in Eo. }
    split_and!; try done.
    - rewrite (iv_count _ _ _ _ A1). unfold owned_fds.
      assert (filter (λ fd, owned_b (w_conns w') (w_table w') (l_idx (l_cfg (w_l w'))) fd = true) (seqZ 0 (len (w_table w'))) = []) as ->; [|done].
      induction (seqZ 0 (len (w_table w'))) as [|fd fds IH]; [done|]. rewrite list.filter_cons.
      rewrite decide_False; [done|]. intros Ht. discriminate (eq_trans (eq_sym Ht) (Hfree fd)).
    - apply set_eq. intros fd. split; [|by intros ?%elem_of_empty]. intros Hin%(iv_sets _ _ _ _ A1). discriminate (eq_trans (eq_sym Hin) (Hfree fd)).
    - intros r (fd & Hin & Hr)%list_elem_of_omap. by eapply A5.
    - intros r Hr. apply A6. intros fd Hin Ho. apply Hr, list_elem_of_omap. eauto.
    - intros fd Hn. rewrite A3, decide_False; [done|]. rewrite Hn. by intros [_ [? [=]]]. }
  cbn [run_callbacks]. apply wp_bind. unfold dispatch, processCmd, shutdown. cbn [Z.eqb].
  apply wp_bind, wp_loop. rewrite Hs. apply wp_bind, wp_mod_l. set (w1 := mkW _ _ _ _ _ _ _).
  assert (Inv w1) as HI1 by (apply (InvR_l _ _ _ _ _ HI); try done; apply HI).
  wpb (wp_close_listeners_kernel _ _ w1). intros ? w2 (E1 & E2 & E3 & E4 & E5). pose proof (Inv_same _ _ HI1 E1 E2 E3 E4) as HI2.
  destruct (range_closes (seqZ 0 (len (w_table w2))) (NoDup_seqZ _ _) w2 (idx_of w2) HI2 eq_refl) as (w' & Er & Hc).
  unfold wp at 1, close_all, fdTableRange. change (foldr _ Some _ w2) with (foldr (range_step (l_idx (l_cfg (w_l w)))) Some (seqZ 0 (len (w_table w2))) w2).
  replace (l_idx (l_cfg (w_l w))) with (idx_of w2) by (unfold idx_of; by rewrite E4). rewrite Er. cbn [mbind option_bind]. apply wp_ret.
  assert (∀ fd, owned_conn w2 fd = owned_conn w fd) as Eo by (intros fd; unfold owned_conn, is_owned, idx_of; by rewrite E2, E3, E4).
  destruct Hc as [A1 A2 A3 A4 A5 A6 A7 A8]. rewrite E3 in *. split; [done|..].
  - rewrite A2. unfold idx_of. by rewrite E4.
  - intros fd. rewrite A3, Eo. done.
  - intros fd. rewrite A4, Eo. done.
  - intros fd r Hin Ho. apply (A5 fd); [done|]. by rewrite Eo.
  - intros r Hr. rewrite A6; [by rewrite E2|]. intros fd Hin. rewrite Eo. by apply Hr.
  - rewrite A7, E5. f_equal. f_equal. by apply omap_agree.
  - by rewrite A8, E4.
Qed.
End Stop.

(** ** Witness: two clients of the test loop, and a third that is not attached yet *)

#[local] Existing Instances test_Allocator test_AllocatorLaws test_EngineConn test_EngineConnLaws test_Handler test_Net test_NetLaws test_Host test_HostLaws.

Definition stop_actions : list action :=
  [AAddClient (test_client 7); AAddClient (test_client 9); APoll false []; APoll false [(7, EPOLLIN)]; AAddClient (test_client 5)].

Definition stop_m : M BytesAlloctor TestEpoll unit TConn unit := run_actions (g_loop initial_globals) (λ _ s, elements s) stop_actions.
Abbreviation stop_run := (stop_m (empty_world [2; 5; 6; 1; 8; 3; 7] 2)).

Lemma stop_run_open : (λ r, l_shutdown (w_l r.2)) <$> stop_run = Some false.
Proof. vm_compute. reflexivity. Qed.

Lemma stop_actions_ok : Forall action_ok stop_actions.
Proof. repeat constructor; simpl; try done; apply wq_inv_empty. Qed.

Lemma stop_run_wp : wp stop_m (λ _ w, Inv w) (empty_world [2; 5; 6; 1; 8; 3; 7] 2).
Proof.
  exact (wp_run_actions (g_loop initial_globals) (λ _ s, elements s) stop_actions (empty_world [2; 5; 6; 1; 8; 3; 7] 2) eq_refl (empty_Inv _ _) stop_actions_ok).
Qed.

Lemma stop_run_Inv : ∃ w, stop_run = Some (tt, w) ∧ Inv w ∧ l_shutdown (w_l w) = false.
Proof.
  destruct (wp_run _ _ _ stop_run_wp) as ([] & w & E & HI). pose proof stop_run_open as Hs. rewrite E in Hs. injection Hs as Hs. eauto.
Qed.

Lemma stop_closes_connections_witness : ∃ w, stop_run = Some (tt, w) ∧
  let mine := omap (owned_conn w) (seqZ 0 (len (w_table w))) in
  ∃ w', run_callbacks (g_loop initial_globals) (λ _ s, elements s) [(0, EventStop)] w = Some (tt, w') ∧ Inv w' ∧
    (∀ fd, owned_conn w' fd = None) ∧ l_count (w_l w') = 0 ∧
    l_writeFds (w_l w') ∪ l_closeOnDrain (w_l w') ∪ l_cmdFlushSet (w_l w') = ∅ ∧
    w_trace w' = w_trace w ++ ((λ r, EvClosed r None) <$> mine) ∧
    (∀ r, r ∈ mine → ∃ c, w_conns w' !! r = Some c ∧ v_fd (ec_view c) = 0) ∧
    (∀ r, r ∉ mine → w_conns w' !! r = w_conns w !! r) ∧
    (∀ fd, owned_conn w fd = None → fdTableGet (w_table w') fd = fdTableGet (w_table w) fd) ∧
    l_acceptChan (w_l w') = l_acceptChan (w_l w).
Proof.
  destruct stop_run_Inv as (w & E & HI & Hs). exists w. split; [exact E|].
  apply (stop_closes_connections (g_loop initial_globals) (λ _ s, elements s) w HI Hs).
Defined.

(** The run, evaluated: the two clients are closed, and the one in the accept channel stays open. *)
Example stop_leaves_accepted_open :
  (λ x, (drop 4 (w_trace x.2), l_acceptChan (w_l x.2), (v_fd ∘ ec_view) <$> w_conns x.2 !! 2%nat)) <$>
    (x ← stop_run; run_callbacks (g_loop initial_globals) (λ _ s, elements s) [(0, EventStop)] x.2) =
  Some ([EvClosed 0 None; EvClosed 1 None], [2%nat], Some 5).
Proof. vm_compute. reflexivity. Qed.
