(* ===== verification/Service.v ===== *)
(** * Services: what a client gets back from the loop

    [Service] is the contract of a handler that answers a byte stream: a relation between the
    bytes received, the answer to them, and the bytes at the end that are not used yet.  The loop
    keeps the relation between what a connection has received and what it has sent or queued, in
    whatever parts the bytes arrive and the kernel takes the answer ([loop_runs_service]).  The
    echo servers of [examples/] are services whose answer is the stream itself; a handler
    whose packets are stable and whose answers depend on the packet alone is a service that
    answers packet by packet. *)

From stdpp Require Import strings gmap.
From S2P Require Import Prelude Pool Tuning WriteQueue RingBuffer Conn FdTable Poller EngineConn Loop LoopInv Framing LoopRun.

(** [sv s o b]: of the stream [s] all but [b] at its end was used, and the answer to it is [o]. *)
Class Service (S C : Type) `{Handler S C} := {
  sv : list Z → list Z → list Z → Prop;
  sv_init : sv [] [] [];
  sv_more s o b g : sv s o b → sv (s ++ g) o (b ++ g);
  sv_packet s o (st : S) (c : C) inp st1 n e st2 out wc : sv s o inp → h_ParsePacket st c inp = (st1, (n, e)) →
    0 < n ≤ len inp → h_OnData st1 c (take (Z.to_nat n) inp) = (st2, (out, wc)) → sv s (o ++ out) (drop (Z.to_nat n) inp);
  sv_open : ¬ asks_close (S := S) (C := C);
}.

Section Fed.
Context {S C : Type} `{SV : Service S C}.

Lemma sv_cut s o inp evs rest : sv s o inp → cut (S := S) (C := C) inp evs rest → sv s (o ++ (evs ≫= ev_out)) rest.
Proof.
  intros Hs Hc. revert o Hs. induction Hc as [inp|st c st1 st2 r inp n e out wc evs rest Hp Hn Hd _ IH]; intros o Hs; cbn.
  - by rewrite app_nil_r.
  - rewrite app_assoc. apply IH. by eapply sv_packet.
Qed.

Lemma sv_fed s o b g evs b' : sv s o b → fed (S := S) (C := C) b g evs b' → sv (s ++ g) (o ++ (evs ≫= ev_out)) b'.
Proof.
  intros Hs Hf. revert s o Hs. induction Hf as [b g evs rest Hc _ _|b g evs b1 g1 evs1 rest Hc _ _ _ IH]; intros s o Hs.
  - eapply sv_cut; [by apply sv_more|done].
  - rewrite bind_app, !app_assoc. apply IH. eapply sv_cut; [by apply sv_more|done].
Qed.

Lemma fed_stuck b g evs b' : fed (S := S) (C := C) b g evs b' → stuck (S := S) (C := C) b'.
Proof. by induction 1. Qed.
End Fed.

(** ** Callbacks of one connection *)

Section Serve.
Context {P K S C : Type} `{AL : AllocatorLaws P} `{KL : KernelLaws K} `{!Epoll K, !EpollLaws K, !KernelNet K}
  `{EC : !EngineConn P K C, !EngineConnLaws P K C} `{!Handler S C, !Host S C, !Service S C}.
Variable T : EventLoop.
Variable range_keys : LoopConn → gset Z → list Z.
Hypothesis budget : 0 < MaxReadBytesPerEvent T.
Abbreviation World := (World P K S C).
Abbreviation M := (M P K S C).
Implicit Types (w : World) (r : nat) (c : C) (base s : list Z).

(** After [base], the connection has sent or queued the answer to [s], and the handler asks for
    more than it has left. *)
Definition served base s c w : Prop :=
  ∃ o, ec_sent (w_k w) c ++ v_unsent (ec_view c) = base ++ o ∧
    sv s o (contents (v_recvbuf (ec_view c))) ∧ stuck (S := S) (C := C) (contents (v_recvbuf (ec_view c))).

(** The connection was closed, or received [g] and has answered it. *)
Definition answers r c w base s w' : Prop := ends r c w (λ c' o g evs w', served base (s ++ g) c' w') w'.

Lemma answers_kept r c w c1 w1 o1 g1 evs1 base s w2 : kept r c w c1 w1 o1 g1 evs1 →
  answers r c1 w1 base (s ++ g1) w2 → answers r c w base s w2.
Proof.
  intros Hk Ha. eapply ends_kept; [done|]. destruct Ha as [Hg|(c' & o & g & evs & Hk' & Hs)]; [by left|right].
  exists c', o, g, evs. split; [done|]. by rewrite app_assoc.
Qed.

Lemma answers_refl r c w base s : live r c w → served base s c w → answers r c w base s w.
Proof. intros Hl Hs. right. exists c, [], [], []. split; [by apply kept_refl|]. by rewrite app_nil_r. Qed.

Lemma wp_serve_send r c w base s : live r c w → served base s c w → wp (processSend T r : M _) (λ _ w', answers r c w base s w') w.
Proof.
  intros Hl (o & Ho & Hs & Hst). wpc (wp_processSend T r c w Hl).
  intros ? w' [Hg|(c' & o' & g & evs & Hk & -> & -> & -> & _ & Hrb & _)]; [by left|right].
  exists c', [], [], []. split; [done|]. exists o. rewrite app_nil_r, Hrb. split_and!; [|done..].
  by rewrite (kp_out _ _ _ _ _ _ _ _ Hk), app_nil_r.
Qed.

Lemma wp_serve_read r c w base s : live r c w → served base s c w → wp (processRead T r : M _) (λ _ w', answers r c w base s w') w.
Proof.
  intros Hl (o & Ho & Hs & Hst). wpc (wp_processRead T r c w Hl budget).
  intros ? w' [Hg|(c' & o' & g & evs & Hk & -> & _ & [[_ Ha]|[_ Hf]])]; [by left| |right].
  - by destruct (sv_open Ha).
  - eexists c', _, g, evs. split; [done|]. exists (o ++ (evs ≫= ev_out)). split_and!; [|by eapply sv_fed|by eapply fed_stuck].
    by rewrite (kp_out _ _ _ _ _ _ _ _ Hk), (app_assoc (ec_sent _ _)), Ho, app_assoc.
Qed.

Lemma wp_connByFD_live r c w : live r c w → wp (connByFD (v_fd (ec_view c)) : M _) (λ ro w', ro = Some r ∧ w' = w) w.
Proof.
  intros Hl. unfold connByFD. apply wp_bind. unfold wp at 1, gets. apply wp_bind, wp_loop. rewrite (lv_tab _ _ _ Hl).
  apply wp_bind, (wp_conn r c); [apply Hl|]. apply wp_ret. split; [|done].
  destruct (ec_observe c (lv_wf _ _ _ Hl)) as (_ & _ & -> & _). by rewrite (lv_loop _ _ _ Hl), Z.eqb_refl.
Qed.

(** What a handler leaves behind, seen through the descriptor of the connection. *)
Lemma wp_still_open {X} r c w base s w' (f : C → M X) Q : answers r c w base s w' →
  (∀ c', (∃ evs err, gone r c w w' evs err) → ec_Fd c' = 0 → wp (f c') Q w') →
  (∀ c' o g evs, kept r c w c' w' o g evs → served base (s ++ g) c' w' → ec_Fd c' ≠ 0 → wp (f c') Q w') →
  wp (c ← conn r; f c) Q w'.
Proof.
  intros [(evs & err & Hg)|(c' & o & g & evs & Hk & Hs)] H1 H2.
  - destruct (gn_conn _ _ _ _ _ _ Hg) as (c' & Hc & Hwf & Hfd & _). apply wp_bind, (wp_conn r c'); [done|].
    apply H1; [eauto|]. by rewrite (Fd_view c' Hwf).
  - pose proof (kp_live _ _ _ _ _ _ _ _ Hk) as L. apply wp_bind, (wp_conn r c'); [apply L|].
    eapply H2; [done..|]. rewrite (Fd_view c' (lv_wf _ _ _ L)). apply L.
Qed.

Lemma wp_serve_dispatch r c w base s ev : live r c w → served base s c w →
  wp (dispatch T range_keys (v_fd (ec_view c)) ev : M _) (λ _ w', answers r c w base s w') w.
Proof.
  intros Hl Hs. unfold dispatch. rewrite (proj2 (Z.eqb_neq _ _) (lv_fd _ _ _ Hl)).
  wpb (wp_connByFD_live r c w Hl). intros ? ? [-> ->]. gcase.
  { wpc (wp_closeConn r c w (Some CLOSE_EPOLL_ERR) Hl). intros ? w' Hg. left. eauto. }
  apply wp_bind, (wp_conn r c); [apply Hl|]. apply wp_bind.
  apply (wp_mono _ (λ (dead : bool) w', if dead then ∃ evs err, gone r c w w' evs err
    else ∃ c' o g evs, kept r c w c' w' o g evs ∧ served base (s ++ g) c' w')).
  { gcase; [|apply wp_ret; exists c, [], [], []; split; [by apply kept_refl|by rewrite app_nil_r]].
    wpb (wp_serve_send r c w base s Hl Hs). intros ? w1 Ha.
    apply (wp_still_open r c w base s w1 (λ c, mret (ec_Fd c =? 0))); [done| |].
    - intros c' Hg ->. by apply wp_ret.
    - intros c' o g evs Hk Hs' Hfd. apply wp_ret. rewrite (proj2 (Z.eqb_neq _ _) Hfd). eauto 10. }
  intros [|] w1 Hd; [apply wp_ret; by left|]. destruct Hd as (c1 & o1 & g1 & evs1 & K1 & S1).
  pose proof (kp_live _ _ _ _ _ _ _ _ K1) as L1.
  eapply (wp_mono _ (λ _ w', answers r c1 w1 base (s ++ g1) w')); [|intros ? w'; by eapply answers_kept].
  gcase; [|apply wp_ret; by apply answers_refl].
  wpb (wp_serve_read r c1 w1 base (s ++ g1) L1 S1). intros ? w2 Ha.
  eapply wp_still_open; [exact Ha| |]; cbv beta.
  - intros c' Hg ->. apply wp_ret. by left.
  - intros c2 o2 g2 evs2 K2 S2 Hfd. rewrite (proj2 (Z.eqb_neq _ _) Hfd).
    eapply (wp_mono _ (λ _ w', answers r c2 w2 base ((s ++ g1) ++ g2) w')); [|intros ? w'; by eapply answers_kept].
    pose proof (kp_live _ _ _ _ _ _ _ _ K2). gcase; [by apply wp_serve_send|apply wp_ret; by apply answers_refl].
Qed.

(** The loop is a faithful carrier of a service.  Let a connection have received [s] and sent or
    queued the answer to it, after [base].  Then the callbacks for its descriptor run without a
    panic, in any number and with any events: until one of them closes the connection, it has
    received [s] followed by some bytes [g] and has sent or queued, after [base], exactly the
    answer to all of them, with the bytes that are not used yet in its receive buffer. *)
Theorem loop_runs_service r c w base s (evs : list Z) : live r c w → served base s c w →
  ∃ seen rest w', evs = seen ++ rest ∧ run_callbacks T range_keys (pair (v_fd (ec_view c)) <$> seen) w = Some (tt, w') ∧
    ((∃ tr err, gone r c w w' tr err) ∨
     rest = [] ∧ ∃ c' o g tr, kept r c w c' w' o g tr ∧ served base (s ++ g) c' w').
Proof.
  revert c w s. induction evs as [|ev evs IH]; intros c w s Hl Hs.
  { exists [], [], w. do 2 (split; [done|]). right. split; [done|]. exists c, [], [], []. split; [by apply kept_refl|by rewrite app_nil_r]. }
  destruct (wp_run _ _ _ (wp_serve_dispatch r c w base s ev Hl Hs)) as ([] & w1 & E1 & [Hg|(c1 & o1 & g1 & tr1 & K1 & S1)]).
  - exists [ev], evs, w1. split; [done|]. cbn [fmap list_fmap run_callbacks]. unfold mbind, M_bind. rewrite E1. split; [done|by left].
  - assert (v_fd (ec_view c1) = v_fd (ec_view c)) as Efd by apply K1.
    destruct (IH c1 w1 (s ++ g1) (kp_live _ _ _ _ _ _ _ _ K1) S1) as (seen & rest & w' & -> & E & Hend). rewrite Efd in E.
    exists (ev :: seen), rest, w'. split; [done|]. cbn [fmap list_fmap run_callbacks]. unfold mbind, M_bind in *. rewrite E1. split; [done|].
    destruct Hend as [(tr & err & Hg)|(-> & c2 & o2 & g2 & tr2 & K2 & S2)]; [left|right].
    + eexists _, _. by eapply kept_gone.
    + split; [done|]. eexists c2, _, _, _. split; [by eapply kept_trans|]. by rewrite app_assoc.
Qed.
End Serve.

(** ** Echo: examples/echo, examples/tls_echo, and the TCP handler of examples/tcphttpws *)

Definition Echo_ParsePacket (inp : list Z) : Z * Z := (len inp, len inp).
Definition Echo_OnData (inp : list Z) : list Z * bool := (inp, false).

Section Echo.
Context {C : Type}.

Definition Echo_Handler : Handler unit C := {|
  h_ParsePacket s c inp := (s, Echo_ParsePacket inp);
  h_OnData s c inp := (s, Echo_OnData inp);
  h_OnConnected s c := s;
  h_OnClosed s c err := s;
|}.
#[local] Existing Instance Echo_Handler.

#[refine] Definition Echo_Service : Service unit C := {| sv s o b := s = o ++ b |}.
Proof.
  - done.
  - intros s o b g ->. by rewrite app_assoc.
  - intros s o st c inp st1 n e st2 out wc -> _ _ [= _ <- _]. by rewrite <- app_assoc, take_drop.
  - by intros (s & c & d & s' & out & [=]).
Defined.

Lemma echo_stuck rest : stuck (S := unit) (C := C) rest → rest = [].
Proof. intros [->|(s & c & s1 & e & [= _ Hn _])]; [done|]. destruct rest; [done | cbn in Hn; lia]. Qed.
End Echo.

Section EchoServer.
Context {P K C : Type} `{AL : AllocatorLaws P} `{KL : KernelLaws K} `{!Epoll K, !EpollLaws K, !KernelNet K}
  `{EC : !EngineConn P K C, !EngineConnLaws P K C} `{!Host unit C}.
#[local] Existing Instances Echo_Handler Echo_Service.

(** C8: an echo server over the loop returns the stream.  A connection that has sent or queued what it
    received goes on to do so: after any callbacks for its descriptor, unless one of them closed
    it, the bytes sent followed by the bytes queued are those from before followed by exactly the
    bytes received since, and none is left in the receive buffer. *)
Theorem echo_returns_stream (T : EventLoop) (range_keys : LoopConn → gset Z → list Z) (r : nat) (c : C) (w : World P K unit C) (evs : list Z) :
  0 < MaxReadBytesPerEvent T → live r c w → contents (v_recvbuf (ec_view c)) = [] →
  ∃ seen rest w', evs = seen ++ rest ∧ run_callbacks T range_keys (pair (v_fd (ec_view c)) <$> seen) w = Some (tt, w') ∧
    ((∃ tr err, gone r c w w' tr err) ∨
     rest = [] ∧ ∃ c' g, live r c' w' ∧ v_fd (ec_view c') = v_fd (ec_view c) ∧ ec_got (w_k w') c' = ec_got (w_k w) c ++ g ∧
       ec_sent (w_k w') c' ++ v_unsent (ec_view c') = (ec_sent (w_k w) c ++ v_unsent (ec_view c)) ++ g ∧
       contents (v_recvbuf (ec_view c')) = []).
Proof.
  intros Hb Hl He. destruct (loop_runs_service T range_keys Hb r c w (ec_sent (w_k w) c ++ v_unsent (ec_view c)) [] evs Hl) as (seen & rest & w' & -> & E & Hend).
  { exists []. rewrite He, app_nil_r. split_and!; [done..|by left]. }
  exists seen, rest, w'. do 2 (split; [done|]). destruct Hend as [Hg|(-> & c' & o & g & tr & Hk & o' & Ho & Hs & Hst)]; [by left|right].
  split; [done|]. exists c', g. apply echo_stuck in Hst. cbn in Hs. rewrite Hst, app_nil_r in Hs. subst o'.
  split_and!; try done; apply Hk.
Qed.
End EchoServer.

(** ** Packet by packet: a handler whose answer to a packet is a function of the packet *)

Section Framed.
Context {S C : Type} `{FM : Framing S C}.
Variable reply : list Z → list Z.
Hypothesis reply_OnData : ∀ (s : S) (c : C) p s' out wc, h_OnData s c p = (s', (out, wc)) → out = reply p ∧ wc = false.

#[refine] Definition Framed_Service : Service S C :=
  {| sv s o b := ∃ ps, o = ps ≫= reply ∧ frames_of s = let '(ps', rest) := frames_of b in (ps ++ ps', rest) |}.
Proof.
  - exists []. split; [done|]. by destruct (frames_of []).
  - intros s o b g (ps & -> & Hs). exists ps. split; [done|]. destruct (frames_of b) as [ps' rest] eqn:Hb.
    rewrite (frames_of_app s g _ _ Hs), (frames_of_app b g _ _ Hb). destruct (frames_of (rest ++ g)). by rewrite app_assoc.
  - intros s o st c inp st1 n e st2 out wc (ps & -> & Hs) Hp Hn Hd. destruct (reply_OnData _ _ _ _ _ _ Hd) as [-> ->].
    exists (ps ++ [take (Z.to_nat n) inp]). rewrite bind_app. cbn. rewrite app_nil_r. split; [done|].
    rewrite (frames_of_Some inp n (fm_packet _ _ _ _ _ _ _ _ Hp Hn Hd)) in Hs.
    rewrite Hs. destruct (frames_of (drop (Z.to_nat n) inp)). by rewrite <- app_assoc.
  - intros (s & c & d & s' & out & Hd). by destruct (reply_OnData _ _ _ _ _ _ Hd).
Defined.

(** When nothing more can be cut off what is left, all packets of the stream are answered. *)
Lemma framed_answer s o b : sv (Service := Framed_Service) s o b → stuck (S := S) (C := C) b →
  o = (frames_of s).1 ≫= reply ∧ (frames_of s).2 = b.
Proof.
  intros (ps & -> & Hs) Hst. rewrite (frames_of_None b (stuck_frame b Hst)), app_nil_r in Hs. by rewrite Hs.
Qed.
End Framed.

Section FramedServer.
Context {P K S C : Type} `{AL : AllocatorLaws P} `{KL : KernelLaws K} `{!Epoll K, !EpollLaws K, !KernelNet K}
  `{EC : !EngineConn P K C, !EngineConnLaws P K C} `{!Handler S C, !Host S C, !Framing S C}.

(** C7: a handler whose packets are stable and whose answer to a packet is a function [reply] of the
    packet answers the packets of the stream, in order and each once, in whatever parts they
    arrive. *)
Theorem framed_server_answers (reply : list Z → list Z)
  (Hreply : ∀ (s : S) (c : C) p s' out wc, h_OnData s c p = (s', (out, wc)) → out = reply p ∧ wc = false)
  (T : EventLoop) (range_keys : LoopConn → gset Z → list Z) (r : nat) (c : C) (w : World P K S C) (evs : list Z) :
  0 < MaxReadBytesPerEvent T → live r c w → contents (v_recvbuf (ec_view c)) = [] →
  ∃ seen rest w', evs = seen ++ rest ∧ run_callbacks T range_keys (pair (v_fd (ec_view c)) <$> seen) w = Some (tt, w') ∧
    ((∃ tr err, gone r c w w' tr err) ∨
     rest = [] ∧ ∃ c' g, live r c' w' ∧ v_fd (ec_view c') = v_fd (ec_view c) ∧ ec_got (w_k w') c' = ec_got (w_k w) c ++ g ∧
       ec_sent (w_k w') c' ++ v_unsent (ec_view c') =
         (ec_sent (w_k w) c ++ v_unsent (ec_view c)) ++ ((frames_of g).1 ≫= reply) ∧
       contents (v_recvbuf (ec_view c')) = (frames_of g).2).
Proof.
  intros Hb Hl He.
  destruct (loop_runs_service (Service0 := Framed_Service reply Hreply) T range_keys Hb r c w (ec_sent (w_k w) c ++ v_unsent (ec_view c)) [] evs Hl)
    as (seen & rest & w' & -> & E & Hend).
  { exists []. rewrite He, app_nil_r. split_and!; [done| |by left]. apply sv_init. }
  exists seen, rest, w'. do 2 (split; [done|]). destruct Hend as [Hg|(-> & c' & o & g & tr & Hk & o' & Ho & Hs & Hst)]; [by left|right].
  split; [done|]. exists c', g. destruct (framed_answer reply Hreply _ _ _ Hs Hst) as [-> Hr].
  split_and!; try done; apply Hk.
Qed.
End FramedServer.

(** ** Witnesses *)

#[local] Existing Instances test_Allocator test_AllocatorLaws test_EngineConn test_EngineConnLaws test_Net test_Host.

(** The test world, whose kernel takes two bytes at a time. *)
Lemma echo_returns_stream_witness :
  let w := test_world [2; 5; 6; 1; 8; 3; 7] 2 in
  ∃ seen rest w', [EventRead; EventWrite; EventRead; EventWrite] = seen ++ rest ∧
    run_callbacks (Handler0 := Echo_Handler) (g_loop initial_globals) (λ _ s, elements s) (pair (v_fd (ec_view test_c)) <$> seen) w = Some (tt, w') ∧
    ((∃ tr err, gone 0%nat test_c w w' tr err) ∨
     rest = [] ∧ ∃ c' g, live 0%nat c' w' ∧ v_fd (ec_view c') = v_fd (ec_view test_c) ∧ ec_got (w_k w') c' = ec_got (w_k w) test_c ++ g ∧
       ec_sent (w_k w') c' ++ v_unsent (ec_view c') = (ec_sent (w_k w) test_c ++ v_unsent (ec_view test_c)) ++ g ∧
       contents (v_recvbuf (ec_view c')) = []).
Proof.
  intros w. apply (echo_returns_stream (g_loop initial_globals) (λ _ s, elements s) 0%nat test_c w).
  - reflexivity.
  - apply test_live.
  - reflexivity.
Defined.

(** All seven bytes come back: six sent, the last queued. *)
Example echo_run :
  (r ← run_callbacks (Handler0 := Echo_Handler) (g_loop initial_globals) (λ _ s, elements s)
      [(7, EventRead); (7, EventWrite)] (test_world [2; 5; 6; 1; 8; 3; 7] 2);
   c ← w_conns r.2 !! 0%nat;
   Some (tk_get (tk_out (te_k (w_k r.2))) 7, v_unsent (ec_view c))) = Some ([2; 5; 6; 1; 8; 3], [7]).
Proof. vm_compute. reflexivity. Qed.

(** A handler of length-prefixed packets that answers with the payload twice. *)
#[local] Instance twice_Handler : Handler unit TConn := {
  h_ParsePacket s c inp := (s, test_parse inp);
  h_OnData s c data := (s, (drop 1 data ++ drop 1 data, false));
  h_OnConnected s c := s;
  h_OnClosed s c e := s;
}.

#[local] Instance twice_Framing : Framing unit TConn.
Proof.
  refine {| fm_frame := test_frame |}.
  - intros s c [|k inp] s1 n e s2 out Hp Hn _; [simpl in Hn; lia|]. injection Hp as _ <- _. unfold test_frame.
    cbn [length] in *. destruct (Z.leb_spec (k + 1) (Z.of_nat (Datatypes.S (length inp)))); [by zb|lia].
  - exact (fm_partial (Framing := test_Framing)).
  - exact (fm_stable (Framing := test_Framing)).
Defined.

Lemma framed_server_answers_witness :
  let w := test_world [2; 5; 6; 1; 8; 3; 7] 2 in
  ∃ seen rest w', [EventRead; EventWrite; EventRead; EventWrite] = seen ++ rest ∧
    run_callbacks (g_loop initial_globals) (λ _ s, elements s) (pair (v_fd (ec_view test_c)) <$> seen) w = Some (tt, w') ∧
    ((∃ tr err, gone 0%nat test_c w w' tr err) ∨
     rest = [] ∧ ∃ c' g, live 0%nat c' w' ∧ v_fd (ec_view c') = v_fd (ec_view test_c) ∧ ec_got (w_k w') c' = ec_got (w_k w) test_c ++ g ∧
       ec_sent (w_k w') c' ++ v_unsent (ec_view c') =
         (ec_sent (w_k w) test_c ++ v_unsent (ec_view test_c)) ++ ((frames_of g).1 ≫= λ p, drop 1 p ++ drop 1 p) ∧
       contents (v_recvbuf (ec_view c')) = (frames_of g).2).
Proof.
  intros w. apply (framed_server_answers (λ p, drop 1 p ++ drop 1 p)).
  - intros s c p s' out wc [= _ <- <-]. done.
  - reflexivity.
  - apply test_live.
  - reflexivity.
Defined.
