(* ===== verification/Drain.v ===== *)
(** * Draining: the output that waits is sent

    When the kernel has no room the loop keeps what is left in the write queue and asks for
    write events ([Loop.v], [LoopRun.v]).  This file shows that this is enough: if every write event finds
    the socket writable, the queue is empty after at most as many events as it has bytes, all of
    them were sent, and the loop no longer asks for the event or closes the connection if that
    was asked for.  [FlushProgress] is what the loop needs of the flush of a connection; the
    plain and the kernel TLS connections provide it. *)

From stdpp Require Import strings gmap.
From S2P Require Import Prelude Pool Tuning WriteQueue RingBuffer Conn FdTable Poller EngineConn TlsStrict TlsConn EngineTls Loop LoopInv Framing LoopRun Service.

(** ** What the kernel promises *)

Section Kernel.
Context {K : Type} `{!Kernel K}.

(** A socket that is reported as writable takes at least one byte. *)
Definition writable (k : K) (fd : Z) : Prop :=
  ∀ bs, concat bs ≠ [] → ∃ k' n, sys_writev k fd bs = (k', n, None) ∧ 0 < n.

(** The peer stays: [writev] fails only for want of room. *)
Definition healthy (fd : Z) : Prop :=
  ∀ (k : K) bs, let '(_, _, e) := sys_writev k fd bs in e = None ∨ e = Some EAGAIN.

(** What happens in the kernel before the [i]-th write event: it sends, and has room again. *)
Record acks_ok (acks : nat → K → K) (fd : Z) : Prop := {
  ak_streams i k fd' : k_out (acks i k) fd' = k_out k fd' ∧ k_in (acks i k) fd' = k_in k fd';
  ak_writable i k : writable (acks i k) fd;
}.
End Kernel.
Arguments healthy K {_} fd.

(** ** What the loop needs of a flush *)

Class FlushProgress (P K C : Type) `{AllocatorLaws P, Kernel K, EngineConn P K C} : Prop :=
  ec_FlushN_progress : ∀ (pool : P) (k : K) (c : C) m pool' k' c' n e, ec_wf c → v_fd (ec_view c) ≠ 0 →
    ec_FlushN pool k c m = Some (pool', k', c', (n, e)) →
    (healthy K (v_fd (ec_view c)) → e = None ∨ e = Some EAGAIN) ∧
    (writable k (v_fd (ec_view c)) → v_unsent (ec_view c) ≠ [] → e = None ∧ 0 < n).

Section Flush.
Context {P K : Type} `{AL : AllocatorLaws P, KL : KernelLaws K}.
Variable T : Connection.

(** The vectors of a flush of a queue that is not empty are not empty. *)
Lemma flush_iovecs wq m iovs : wq_inv wq → wq_data wq ≠ [] →
  build_iovecs (drop (Z.to_nat (wq_head wq)) (wq_items wq)) m m 0 = Some iovs → ∃ b bs, iovs = b :: bs ∧ concat iovs ≠ [].
Proof.
  intros [_ _ Hwf _] Hne E. fold (WriteQueue.live wq) in E.
  destruct (build_iovecs_spec (WriteQueue.live wq) m m 0 Hwf) as (iovs' & E' & _ & Hall & _ & _ & Hsome); [lia|].
  rewrite E in E'. injection E' as <-.
  assert (iovs ≠ []) as Hi by (apply Hsome; [intros El; unfold wq_data in Hne; by rewrite El in Hne|unfold maxWritevIovecs; lia..]).
  destruct iovs as [|b bs]; [done|]. exists b, bs. split; [done|].
  inversion Hall as [|? ? Hb _]; subst. destruct b; [done|]. done.
Qed.

Lemma flush_progress pool k fd wq m send pool' k' wq' send' n e : wq_inv wq → fd ≠ 0 →
  flushWriteQueue T pool k fd wq m send = Some (pool', k', wq', send', (n, e)) →
  (healthy K fd → e = None ∨ e = Some EAGAIN) ∧ (writable k fd → wq_data wq ≠ [] → e = None ∧ 0 < n).
Proof.
  intros Hinv Hfd. unfold flushWriteQueue. rewrite (proj2 (Z.eqb_neq fd 0) Hfd). pose proof (qi_bytes _ Hinv) as Hb. unfold writeQueue_pending.
  destruct (Z.eqb_spec (wq_bytes wq) 0) as [E0|E0].
  { intros [= <- <- <- <- <- <-]. split; [by left|]. intros _ Hne. destruct (wq_data wq); [done|simpl in Hb; lia]. }
  destruct (build_iovecs _ m m 0) as [iovs|] eqn:Ei; [|done]. cbn [mbind option_bind].
  assert (wq_data wq ≠ []) as Hne by (intros E; rewrite E in Hb; simpl in Hb; lia).
  destruct (flush_iovecs wq m iovs Hinv Hne Ei) as (b & bs & -> & Hc). cbn [writev].
  destruct (sys_writev k fd (b :: bs)) as [[k1 n1] e1] eqn:Ew. intros Hr.
  assert (e = e1 ∧ (0 < n1 → n = n1)) as [-> Hn].
  { destruct (_ <=? 0) eqn:El; [injection Hr as <- <- <- <- <- <-; split; [done|]|].
    - intros H1. by rewrite (proj2 (Z.ltb_ge n1 0)), andb_false_r by lia.
    - destruct (writeQueue_consume _ _ _ _) as [[? ?]|]; [|done]. cbn in Hr. injection Hr as <- <- <- <- <- <-. split; [done|].
      intros H1. by rewrite (proj2 (Z.ltb_ge n1 0)), andb_false_r by lia. }
  split.
  - intros Hh. specialize (Hh k (b :: bs)). by rewrite Ew in Hh.
  - intros Hw _. destruct (Hw (b :: bs) Hc) as (k2 & n2 & E2 & H2). rewrite Ew in E2. injection E2 as -> -> ->. split; [done|]. rewrite Hn by done. done.
Qed.
End Flush.

Section Instances.
Context {P K H A X N E : Type} `{AL : AllocatorLaws P, KL : KernelLaws K} `{!NetConn N, !TlsEngine E}.
Variable grow : Z → Z → Z.
Variable T : Connection.
#[local] Existing Instances Conn_EngineConn mixed_EngineConn.

Lemma Conn_FlushProgress : FlushProgress (H2 := Conn_EngineConn grow T) P K (Conn H A X).
Proof.
  intros pool k c m pool' k' c' n e Hwf Hfd. cbn [ec_FlushN Conn_EngineConn]. unfold Conn_FlushN.
  destruct (flushWriteQueue _ _ _ _ _ _ _) as [[[[[p1 k1] q1] s1] [n1 e1]]|] eqn:Ef; [|done].
  cbn [mbind option_bind]. intros [= <- <- <- <- <-]. exact (flush_progress T _ _ _ _ _ _ _ _ _ _ _ _ Hwf Hfd Ef).
Qed.

Lemma mixed_FlushProgress : FlushProgress (H2 := mixed_EngineConn grow T) P K (mixed (H := H) (A := A) (X := X) (N := N) (E := E)).
Proof.
  intros pool k c m pool' k' c' n e [Hwf Hk] Hfd. cbn [ec_FlushN mixed_EngineConn]. unfold m_FlushN, Conn_FlushN, ATLSConn_FlushN.
  destruct c as [c|c]; [|rewrite (proj2 (Z.eqb_neq (b_fd (a_base c)) 0) Hfd), (ik_ktls _ Hk)];
    (destruct (flushWriteQueue _ _ _ _ _ _ _) as [[[[[p1 k1] q1] s1] [n1 e1]]|] eqn:Ef; [|done]);
    cbn [mbind option_bind]; intros [= <- <- <- <- <-]; exact (flush_progress T _ _ _ _ _ _ _ _ _ _ _ _ Hwf Hfd Ef).
Qed.
End Instances.

(** ** The loop *)

Section Loop.
Context {P K S C : Type} `{AL : AllocatorLaws P} `{KL : KernelLaws K} `{!Epoll K, !EpollLaws K, !KernelNet K}
  `{EC : !EngineConn P K C, !EngineConnLaws P K C, !FlushProgress P K C} `{!Handler S C, !Host S C}.
Variable T : EventLoop.
Variable range_keys : LoopConn → gset Z → list Z.
Abbreviation World := (World P K S C).
Abbreviation M := (M P K S C).
Implicit Types (w : World) (r : nat) (c : C).

Lemma wp_with {Y} (m : M Y) (Q R : Y → World → Prop) w :
  wp m Q w → (∀ x w', m w = Some (x, w') → Q x w' → R x w') → wp m R w.
Proof. unfold wp. destruct (m w) as [[x w']|]; [|done]. eauto. Qed.

Definition unsent c : Z := len (v_unsent (ec_view c)).

(** The connection is kept and the loop's sets are as before; a call that met a
    writable socket sent something. *)
Record flows r c w (err : option errno) c' w' : Prop := {
  fl_kept : kept r c w c' w' [] [] [];
  fl_quiet : quiet w w';
  fl_err : err = None ∨ err = Some EAGAIN;
  fl_less : unsent c' ≤ unsent c;
  fl_sent : writable (w_k w) (v_fd (ec_view c)) → 0 < unsent c → unsent c' < unsent c;
}.

Lemma wp_drain_flows fuel r c w plan total : live r c w → healthy K (v_fd (ec_view c)) → unsent c < Z.of_nat fuel →
  wp (drainWrite_loop fuel r plan total : M _) (λ res w', ∃ c', flows r c w (snd res) c' w') w.
Proof.
  revert c w total. induction fuel as [|fuel IH]; intros c w total Hl Hh Hf; [unfold unsent in *; lia|]. cbn [drainWrite_loop].
  apply wp_bind. eapply wp_with; [apply (wp_stat r c w bump_write Hl)|]. intros [] w1 E1 (K1 & Q1). injection E1 as E1.
  assert (w_k w1 = w_k w) as Ek by (by subst w1).
  assert (w_conns w1 = w_conns w) as Ec by (by subst w1). clear E1.
  apply wp_bind. eapply wp_with; [apply (wp_FlushN r c w1 plan (kp_live _ _ _ _ _ _ _ _ K1))|].
  intros [n err] w2 E2 (c2 & K2 & Q2 & _ & L2). cbn [fst] in L2. fold (unsent c2) (unsent c) in L2.
  assert ((err = None ∨ err = Some EAGAIN) ∧ (writable (w_k w) (v_fd (ec_view c)) → 0 < unsent c → err = None ∧ 0 < n)) as [He Hw].
  { unfold conn_FlushN in E2. rewrite Ec, (lv_conn _ _ _ Hl) in E2. cbn [mbind option_bind] in E2.
    destruct (ec_FlushN _ _ _ _) as [[[[p' k'] c'] [n' e']]|] eqn:Ef; [|done]. cbn in E2. injection E2 as -> -> <-.
    destruct (ec_FlushN_progress _ _ _ _ _ _ _ _ _ (lv_wf _ _ _ Hl) (lv_fd _ _ _ Hl) Ef) as [F1 F2]. rewrite Ek in F2.
    split; [by apply F1|]. intros Hw Hp. apply F2; [done|]. intros Ev. unfold unsent in Hp. rewrite Ev in Hp. simpl in Hp. lia. }
  assert (kept r c w c2 w2 [] [] []) as K12 by apply (kept_trans _ _ _ _ _ _ _ _ _ _ _ _ _ K1 K2).
  assert (quiet w w2) as Q by (by eapply quiet_trans).
  assert (flows r c w err c2 w2) as F.
  { split; try done; [lia|]. intros Hwr Hp. destruct (Hw Hwr Hp). lia. }
  destruct err as [e|]; [apply wp_ret; by exists c2|].
  gcase; [apply wp_ret; by exists c2|].
  assert (v_fd (ec_view c2) = v_fd (ec_view c)) as Efd by apply K12.
  assert (0 < n) as Hn by (by destruct (Z.leb_spec n 0)).
  eapply wp_mono; [apply (IH c2 w2); [apply K12|by rewrite Efd|lia]|].
  intros res w3 (c3 & [K3 Q3 E3 L3 S3]). exists c3. split; try done; [|by eapply quiet_trans|lia|intros; lia].
  apply (kept_trans _ _ _ _ _ _ _ _ _ _ _ _ _ K12 K3).
Qed.

Lemma wp_drainWrite_flows r c w : live r c w → healthy K (v_fd (ec_view c)) →
  wp (drainWrite T r : M _) (λ res w', ∃ c', flows r c w (snd res) c' w') w.
Proof.
  intros Hl Hh. unfold drainWrite. apply wp_bind, (wp_conn r c); [apply Hl|]. rewrite pending_view by apply Hl. fold (unsent c). gcase.
  { apply wp_ret. exists c. split; try done; [by apply kept_refl|by left|lia]. }
  apply wp_drain_flows; [done..|]. unfold unsent. lia.
Qed.

(** A write event of a writable socket makes progress: the queue is shorter, or empty and the
    loop closes the connection as it was asked to. *)
Definition advances r c w w' : Prop :=
  (v_fd (ec_view c) ∈ l_closeOnDrain (w_l w) ∧ gone r c w w' [] (Some CLOSE_BY_USER_LAND)) ∨
  ∃ c', kept r c w c' w' [] [] [] ∧ registered c' w' ∧ l_closeOnDrain (w_l w') = l_closeOnDrain (w_l w) ∧
    unsent c' < unsent c ∧ (v_fd (ec_view c) ∈ l_closeOnDrain (w_l w) → 0 < unsent c').

Lemma wp_processSend_advances r c w : live r c w → healthy K (v_fd (ec_view c)) → writable (w_k w) (v_fd (ec_view c)) →
  0 < unsent c → wp (processSend T r : M _) (λ _ w', advances r c w w') w.
Proof.
  intros Hl Hh Hw Hp. unfold processSend. wpb (wp_drainWrite_flows r c w Hl Hh). intros [n err] w1 (c1 & [K1 (Q1 & Q2 & Q3) He _ Hs]). cbn [snd] in He.
  pose proof (kp_live _ _ _ _ _ _ _ _ K1) as L1. specialize (Hs Hw Hp). assert (v_fd (ec_view c1) = v_fd (ec_view c)) as Efd by apply K1.
  rewrite bool_decide_false by (intros [[e ->] ?]; by destruct He).
  apply wp_bind, (wp_conn r c1); [apply L1|]. apply wp_bind, wp_loop. rewrite pending_view, (Fd_view c1), Q2, Efd by apply L1. fold (unsent c1).
  destruct ((unsent c1 =? 0) && _) eqn:Eb.
  - apply andb_true_iff in Eb as [E0 Ed]. apply bool_decide_eq_true in Ed.
    wpc (wp_closeConn r c1 w1 (Some CLOSE_BY_USER_LAND) L1). intros ? w2 Hg. left. split; [done|]. by apply (kept_gone _ _ _ _ _ _ _ _ _ _ _ K1 Hg).
  - wpc (wp_updateWriteFd r c1 w1 L1). intros _ w2 (K2 & D2 & W2). right. exists c1. split_and!; [by apply (kept_trans _ _ _ _ _ _ _ _ _ _ _ _ _ K1 K2)|done|congruence|done|].
    intros Hin. rewrite bool_decide_true, andb_true_r in Eb by done. apply Z.eqb_neq in Eb. unfold unsent in *. lia.
Qed.

Lemma wp_write_event r c w : live r c w → healthy K (v_fd (ec_view c)) → writable (w_k w) (v_fd (ec_view c)) →
  0 < unsent c → wp (dispatch T range_keys (v_fd (ec_view c)) EventWrite : M _) (λ _ w', advances r c w w') w.
Proof.
  intros Hl Hh Hw Hp. unfold dispatch. rewrite (proj2 (Z.eqb_neq _ _) (lv_fd _ _ _ Hl)).
  wpb (wp_connByFD_live r c w Hl). intros ? ? [-> ->]. cbn [negb Z.land EventWrite EventErr EventRead Z.eqb Pos.land].
  apply wp_bind, (wp_conn r c); [apply Hl|]. cbn. apply wp_bind, wp_bind. wpc (wp_processSend_advances r c w Hl Hh Hw Hp).
  intros ? w1 Ha. assert (∃ c', w_conns w1 !! r = Some c') as [c' Hc].
  { destruct Ha as [[_ Hg]|(c' & Hk & _)]; [destruct (gn_conn _ _ _ _ _ _ Hg) as (c' & Hc & _); eauto|exists c'; apply Hk]. }
  apply wp_bind, (wp_conn r c'); [done|]. apply wp_ret. by destruct (_ =? 0).
Qed.

(** [n] write events of a descriptor, the kernel moving on before each. *)
Fixpoint write_events (acks : nat → K → K) (n : nat) (fd : Z) (w : World) : option World :=
  match n with
  | O => Some w
  | Datatypes.S n =>
      '(_, w) ← dispatch T range_keys fd EventWrite
        (mkW (w_pool w) (acks 0%nat (w_k w)) (w_app w) (w_conns w) (w_table w) (w_l w) (w_trace w));
      write_events (λ i, acks (Datatypes.S i)) n fd w
  end.

Lemma write_event_run acks r c w : live r c w → healthy K (v_fd (ec_view c)) → acks_ok acks (v_fd (ec_view c)) → 0 < unsent c →
  ∃ w1, advances r c w w1 ∧
    ∀ n, write_events acks (Datatypes.S n) (v_fd (ec_view c)) w =
      write_events (λ i, acks (Datatypes.S i)) n (v_fd (ec_view c)) w1.
Proof.
  intros Hl Hh [Hst Hwr] Hp. pose proof (kept_k r c w (acks 0%nat (w_k w)) Hl (Hst 0%nat (w_k w))) as K0.
  set (w0 := mkW _ (acks 0%nat (w_k w)) _ _ _ _ _) in K0.
  destruct (wp_run _ _ _ (wp_write_event r c w0 (kp_live _ _ _ _ _ _ _ _ K0) Hh (Hwr 0%nat (w_k w)) Hp)) as (x & w1 & E & Ha).
  exists w1. split; [|intros n; cbn [write_events]; fold w0; by rewrite E].
  destruct Ha as [[Hin Hg]|(c1 & K1 & Hr)]; [left|right].
  - split; [done|]. exact (kept_gone _ _ _ _ _ _ _ _ _ _ _ K0 Hg).
  - exists c1. split; [exact (kept_trans _ _ _ _ _ _ _ _ _ _ _ _ _ K0 K1)|done].
Qed.

(** What is reached when the queue has been sent. *)
Definition drained r c w w' : Prop :=
  if decide (v_fd (ec_view c) ∈ l_closeOnDrain (w_l w)) then gone r c w w' [] (Some CLOSE_BY_USER_LAND)
  else ∃ c', kept r c w c' w' [] [] [] ∧ v_unsent (ec_view c') = [] ∧
    ec_sent (w_k w') c' = ec_sent (w_k w) c ++ v_unsent (ec_view c) ∧ v_fd (ec_view c) ∉ l_writeFds (w_l w').

Lemma drained_kept r c w c1 w1 w' : kept r c w c1 w1 [] [] [] → l_closeOnDrain (w_l w1) = l_closeOnDrain (w_l w) →
  drained r c1 w1 w' → drained r c w w'.
Proof.
  intros Hk Hd. unfold drained. assert (v_fd (ec_view c1) = v_fd (ec_view c)) as -> by apply Hk. rewrite Hd.
  destruct (decide _); [intros Hg; exact (kept_gone _ _ _ _ _ _ _ _ _ _ _ Hk Hg)|].
  intros (c' & K' & Hu & Hs & Hw). exists c'. split_and!; [exact (kept_trans _ _ _ _ _ _ _ _ _ _ _ _ _ Hk K')|done| |done].
  by rewrite Hs, (kp_out _ _ _ _ _ _ _ _ Hk), app_nil_r.
Qed.

Lemma advances_drained r c w c1 w1 : kept r c w c1 w1 [] [] [] → registered c1 w1 →
  (v_fd (ec_view c) ∈ l_closeOnDrain (w_l w) → 0 < unsent c1) → unsent c1 = 0 → drained r c w w1.
Proof.
  intros Hk Hr Hd Hz. unfold drained. rewrite decide_False by (intros Hin; specialize (Hd Hin); lia).
  assert (v_unsent (ec_view c1) = []) as Hu by (apply length_zero_iff_nil; unfold unsent in Hz; lia).
  exists c1. split_and!; [done..| |].
  - rewrite <- (app_nil_r (ec_sent (w_k w1) c1)), <- Hu at 1. by rewrite (kp_out _ _ _ _ _ _ _ _ Hk), app_nil_r.
  - assert (v_fd (ec_view c1) = v_fd (ec_view c)) as <- by apply Hk. intros Hin. by apply Hr in Hin.
Qed.

End Loop.

(** ** Witnesses *)

#[local] Existing Instances test_Allocator test_AllocatorLaws test_EngineConn test_EngineConnLaws test_Net test_Host.
#[local] Existing Instance test_Handler.
#[local] Instance test_FlushProgress : FlushProgress BytesAlloctor TestEpoll TConn := Conn_FlushProgress (λ c n, n) (g_conn initial_globals).

(** Three bytes wait on descriptor 7, and the loop asks for its write events. *)
Definition waiting_c : TConn := Conn_with_base test_c (Base_set_wq (c_base test_c) test_wq).

Definition waiting_world (asked : bool) : World BytesAlloctor TestEpoll unit TConn :=
  let l := set_writeFds {[7]} test_loop in
  mkW test_pool (mkTE (mkTK 0 0 [] [] []) {[ 7 := 7 ]}) tt {[ 0%nat := waiting_c ]}
    (<[7%nat := Some 0%nat]> (replicate 16 None)) (if asked then set_closeOnDrain {[7]} l else l) [].

(** Before event [i] the kernel makes room for [i + 1] bytes. *)
Definition test_acks (i : nat) (k : TestEpoll) : TestEpoll :=
  let t := te_k k in mkTE (mkTK (Datatypes.S i) 0 (tk_inp t) (tk_out t) (tk_got t)) (te_set k).

Lemma test_acks_ok : acks_ok test_acks 7.
Proof.
  split; [done|]. intros i k bs Hne. eexists _, _. cbn [sys_writev TE_Kernel TK_Kernel tk_send te_k tk_calls tk_win test_acks Nat.odd negb Nat.even].
  split; [reflexivity|]. destruct (concat bs); [done|]. cbn [take firstn length]. lia.
Qed.

Lemma waiting_live asked : live 0%nat waiting_c (waiting_world asked).
Proof.
  split; try (by destruct asked).
  - split; [apply test_pool_inv|]. by destruct asked; vm_compute.
  - split; [vm_compute; discriminate|by right|by repeat constructor|reflexivity].
Qed.


(** The run of the witness: one byte, then two; the loop asks for read events only. *)
Example drain_run :
  (w ← write_events (g_loop initial_globals) (λ _ s, elements s) test_acks 2 7 (waiting_world false);
   Some (tk_out (te_k (w_k w)), te_set (w_k w) !! 7, elements (l_writeFds (w_l w)), w_trace w))
  = Some ([(7, [2]); (7, [3; 4])], Some 3, [], []).
Proof. vm_compute. reflexivity. Qed.

(** When the application has asked to close: the same bytes, then [OnClosed]. *)
Example drain_then_close :
  (w ← write_events (g_loop initial_globals) (λ _ s, elements s) test_acks 2 7 (waiting_world true);
   Some (tk_out (te_k (w_k w)), te_set (w_k w) !! 7, w_trace w))
  = Some ([(7, [2]); (7, [3; 4])], None, [EvClosed 0%nat (Some CLOSE_BY_USER_LAND)]).
Proof. vm_compute. reflexivity. Qed.
