(* ===== verification/Wrapper.v ===== *)
(** * wrapper/wrapper.go: the hooks of the application for log messages and metrics

    Every other package logs and counts through these functions.  The application may set a logger
    and a metrics sink; a call goes to the hook that is set at that time.  [Fatal] and
    [Panic] end the process, but without a logger only their formatting forms do. *)

From S2P Require Import Prelude.

Section Wrapper.
(** Formatted arguments, and the strings of keys and formats. *)
Context {Any Str : Type}.

Inductive level := LDebug | LInfo | LWarn | LError | LFatal | LPanic.

(** A call of a method of [IMetrics] or [ILogger], with its arguments. *)
Inductive call :=
| CGauge (k : Str) (v : Z)
| CIncrement (k : Str)
| CCount (k : Str) (v : Z)
| CTiming (k : Str) (d : Z)
| CLog (lv : level) (v : list Any)
| CLogf (lv : level) (format : Str) (v : list Any)
| CFlush.

(** How a function ends: it returns, the process exits, or a hook panics. *)
Inductive ending := Returns | Exits (code : Z) | Panics.

(** A hook is what a method does: [true] when it returns, [false] when it panics. *)
Definition hook : Type := call → bool.

Record wrapper := mkWrapper { gMetrics : option hook; glogger : option hook }.

Definition SetLogger (w : wrapper) (logger : option hook) : wrapper := mkWrapper (gMetrics w) logger.
Definition SetMetrics (w : wrapper) (metrics : option hook) : wrapper := mkWrapper metrics (glogger w).

(** The calls made, whether something was printed to the standard output, and the end. *)
Record effect := mkEffect { ef_calls : list call; ef_stdout : option (Str * list Any); ef_end : ending }.

Definition nothing : effect := mkEffect [] None Returns.

(** A call of a hook, and then the end [k]. *)
Definition via (h : hook) (c : call) (k : ending) : effect := mkEffect [c] None (if h c then k else Panics).

Definition metric (w : wrapper) (c : call) : effect := match gMetrics w with Some m => via m c Returns | None => nothing end.

Definition Gauge (w : wrapper) (k : Str) (v : Z) : effect := metric w (CGauge k v).
Definition Increment (w : wrapper) (k : Str) : effect := metric w (CIncrement k).
Definition Count (w : wrapper) (k : Str) (v : Z) : effect := metric w (CCount k v).
Definition Timing (w : wrapper) (k : Str) (d : Z) : effect := metric w (CTiming k d).

(** [if glogger == nil { return }] and then the method. *)
Definition log (w : wrapper) (c : call) : effect := match glogger w with None => nothing | Some l => via l c Returns end.

Definition Debugf (w : wrapper) (format : Str) (v : list Any) : effect := log w (CLogf LDebug format v).
Definition Infof (w : wrapper) (format : Str) (v : list Any) : effect := log w (CLogf LInfo format v).
Definition Warnf (w : wrapper) (format : Str) (v : list Any) : effect := log w (CLogf LWarn format v).
Definition Errorf (w : wrapper) (format : Str) (v : list Any) : effect := log w (CLogf LError format v).
Definition Debug_ (w : wrapper) (v : list Any) : effect := log w (CLog LDebug v).
Definition Info_ (w : wrapper) (v : list Any) : effect := log w (CLog LInfo v).
Definition Warn (w : wrapper) (v : list Any) : effect := log w (CLog LWarn v).
Definition Error (w : wrapper) (v : list Any) : effect := log w (CLog LError v).

Definition Panicf (w : wrapper) (format : Str) (v : list Any) : effect :=
  match glogger w with
  | None => mkEffect [] (Some (format, v)) (Exits 1)
  | Some l => via l (CLogf LPanic format v) (Exits 1)
  end.

Definition Fatalf (w : wrapper) (format : Str) (v : list Any) : effect :=
  match glogger w with
  | None => mkEffect [] (Some (format, v)) (Exits 1)
  | Some l => via l (CLogf LFatal format v) (Exits 1)
  end.

Definition Panic_ (w : wrapper) (v : list Any) : effect :=
  match glogger w with None => nothing | Some l => via l (CLog LPanic v) (Exits 1) end.

Definition Fatal (w : wrapper) (v : list Any) : effect :=
  match glogger w with None => nothing | Some l => via l (CLog LFatal v) (Exits 1) end.

Definition Flush (w : wrapper) : effect := match glogger w with Some l => via l CFlush Returns | None => nothing end.

(** The functions of the package, each by the call it makes. *)
Definition issue (w : wrapper) (c : call) : effect :=
  match c with
  | CGauge k v => Gauge w k v
  | CIncrement k => Increment w k
  | CCount k v => Count w k v
  | CTiming k d => Timing w k d
  | CLog LDebug v => Debug_ w v
  | CLog LInfo v => Info_ w v
  | CLog LWarn v => Warn w v
  | CLog LError v => Error w v
  | CLog LFatal v => Fatal w v
  | CLog LPanic v => Panic_ w v
  | CLogf LDebug f v => Debugf w f v
  | CLogf LInfo f v => Infof w f v
  | CLogf LWarn f v => Warnf w f v
  | CLogf LError f v => Errorf w f v
  | CLogf LFatal f v => Fatalf w f v
  | CLogf LPanic f v => Panicf w f v
  | CFlush => Flush w
  end.

(** The hook a call goes to, and whether its function is one that ends the process. *)
Definition target (w : wrapper) (c : call) : option hook :=
  match c with CGauge _ _ | CIncrement _ | CCount _ _ | CTiming _ _ => gMetrics w | _ => glogger w end.

Definition deadly (c : call) : bool :=
  match c with CLog LFatal _ | CLog LPanic _ | CLogf LFatal _ _ | CLogf LPanic _ _ => true | _ => false end.

Fixpoint issue_all (w : wrapper) (cs : list call) : list call * ending :=
  match cs with
  | [] => ([], Returns)
  | c :: cs =>
      let e := issue w c in
      match ef_end e with
      | Returns => let '(seen, k) := issue_all w cs in (ef_calls e ++ seen, k)
      | k => (ef_calls e, k)
      end
  end.

(** Hooks that return see the calls that are meant for them, each once, in order and with its
    arguments; without a hook nothing happens; and no metric or message below [Fatal] ever
    ends the process. *)
Theorem hooks_are_transparent w cs : (∀ h c, target w c = Some h → h c = true) → Forall (λ c, deadly c = false) cs →
  issue_all w cs = (filter (λ c, is_Some (target w c)) cs, Returns).
Proof.
  intros Hh Hd. induction Hd as [|c cs Hc _ IH]; [done|]. cbn [issue_all]. rewrite list.filter_cons, IH.
  assert (issue w c = match target w c with Some h => via h c Returns | None => nothing end) as ->.
  { destruct c as [| | | |[]|[]|]; try done; unfold issue, metric, log; cbn; unfold Gauge, Increment, Count, Timing, metric, Flush; by destruct (gMetrics w), (glogger w). }
  destruct (target w c) as [h|] eqn:Et; [|by rewrite decide_False by (intros [? [=]])].
  rewrite decide_True by (by eexists). unfold via. cbn. by rewrite (Hh h c Et).
Qed.

(** Without a logger [Panicf] and [Fatalf] end the process and [Panic] and [Fatal] do not. *)
Lemma fatal_without_logger m f v : let w := mkWrapper m None in
  ef_end (Panicf w f v) = Exits 1 ∧ ef_end (Fatalf w f v) = Exits 1 ∧ ef_end (Panic_ w v) = Returns ∧ ef_end (Fatal w v) = Returns.
Proof. done. Qed.
End Wrapper.
