(* ===== verification/Net.v ===== *)
(** * Addresses, deadlines, locks and the probe of kernel TLS

    internal/socktoaddr.go, the addresses of connections as text (connection/{conn,tlsconn}.go), the
    rest of [fdConn] (connection/fdconn.go) and of [tlsBufferConn], internal/spinlock.go and
    internal/ktls_support_linux.go. *)

From stdpp Require Import strings relations.
From S2P Require Import Prelude Pool Tuning WriteQueue RingBuffer Conn Text TlsConn.

(** ** internal/socktoaddr.go *)

Inductive Sockaddr := SockaddrInet4 (port : Z) (addr : list Z) | SockaddrInet6 (port zone : Z) (addr : list Z) | SockaddrUnix (name : string) | SockaddrOther.
Inductive NetAddr := TCPAddr (ip : list Z) (port : Z) (zone : string) | UnixAddr (net name : string).

(** [ifname] is [net.InterfaceByIndex]; the bytes of the address are copied. *)
Definition SockaddrToAddr (ifname : Z → option string) (sa : Sockaddr) : option NetAddr :=
  match sa with
  | SockaddrInet4 port addr => Some (TCPAddr addr port "")
  | SockaddrInet6 port zoneid addr =>
      let zone := if negb (zoneid =? 0) then match ifname zoneid with Some name => name | None => ""%string end else ""%string in
      Some (TCPAddr addr port zone)
  | SockaddrUnix name => Some (UnixAddr "unix" name)
  | SockaddrOther => None
  end.

(** ** Addresses as text *)

(** The operations on the addresses of a connection of type [C]: two for each end. *)
Class AddrConn (C A : Type) := {
  ac_remote : C → option A * string;      (* the address and its text, as they are kept *)
  ac_local : C → option A * string;
  ac_SetRemote : C → option A → C;
  ac_SetLocal : C → option A → C;
  ac_GetRemoteAddr : C → C * string;
  ac_GetLocalAddr : C → C * string;
}.

(** What an operation does to the pair of an address and its text. *)
Definition get_text {A} (String : A → string) (p : option A * string) : (option A * string) * string :=
  match p.1 with
  | None => (p, ""%string)
  | Some a => let s := if String.eqb p.2 "" then String a else p.2 in ((p.1, s), s)
  end.

Class AddrLaws (C A : Type) (String : A → string) `{AddrConn C A} : Prop := {
  ac_sr c a : ac_remote (ac_SetRemote c a) = (a, ""%string) ∧ ac_local (ac_SetRemote c a) = ac_local c;
  ac_sl c a : ac_local (ac_SetLocal c a) = (a, ""%string) ∧ ac_remote (ac_SetLocal c a) = ac_remote c;
  ac_gr c : let '(c', s) := ac_GetRemoteAddr c in (ac_remote c', s) = get_text String (ac_remote c) ∧ ac_local c' = ac_local c;
  ac_gl c : let '(c', s) := ac_GetLocalAddr c in (ac_local c', s) = get_text String (ac_local c) ∧ ac_remote c' = ac_remote c;
}.

Inductive addr_op (A : Type) := OSetRemote (a : option A) | OSetLocal (a : option A) | OGetRemote | OGetLocal.
Arguments OSetRemote {A}. Arguments OSetLocal {A}. Arguments OGetRemote {A}. Arguments OGetLocal {A}.

Section AddrText.
Context {C A : Type} (String : A → string) `{AL : !AddrConn C A, !AddrLaws C A String}.

Definition addr_step (c : C) (op : addr_op A) : C * option string :=
  match op with
  | OSetRemote a => (ac_SetRemote c a, None)
  | OSetLocal a => (ac_SetLocal c a, None)
  | OGetRemote => let '(c, s) := ac_GetRemoteAddr c in (c, Some s)
  | OGetLocal => let '(c, s) := ac_GetLocalAddr c in (c, Some s)
  end.

Fixpoint addr_run (c : C) (ops : list (addr_op A)) : list (option string) :=
  match ops with [] => [] | op :: ops => let '(c, out) := addr_step c op in out :: addr_run c ops end.

(** The specification: the two addresses, and their text made anew each time. *)
Definition spec_step (st : option A * option A) (op : addr_op A) : (option A * option A) * option string :=
  let text a := default ""%string (String <$> a) in
  match op with
  | OSetRemote a => ((a, st.2), None)
  | OSetLocal a => ((st.1, a), None)
  | OGetRemote => (st, Some (text st.1))
  | OGetLocal => (st, Some (text st.2))
  end.

Fixpoint spec_run (st : option A * option A) (ops : list (addr_op A)) : list (option string) :=
  match ops with [] => [] | op :: ops => let '(st, out) := spec_step st op in out :: spec_run st ops end.

(** The text that is kept is none, or that of the address. *)
Definition text_ok (p : option A * string) : Prop := p.2 = ""%string ∨ Some p.2 = String <$> p.1.

Lemma get_text_ok p : text_ok p → let '(p', s) := get_text String p in text_ok p' ∧ p'.1 = p.1 ∧ s = default ""%string (String <$> p.1).
Proof.
  destruct p as [[a|] s]; unfold text_ok, get_text; cbn; [|done]. intros [->|[= ->]]; cbn; [by split; [right|]|].
  destruct (String.eqb_spec (String a) "") as [E|E]; by split; [right|].
Qed.

(** The text of an address is that of the address the connection has, whatever was set and asked
    for before: a text that is kept is dropped with its address. *)
Theorem address_text_is_current ops : ∀ c, text_ok (ac_remote c) → text_ok (ac_local c) →
  addr_run c ops = spec_run ((ac_remote c).1, (ac_local c).1) ops.
Proof.
  induction ops as [|op ops IH]; intros c Hr Hl; [done|]. destruct op as [a|a| |]; cbn [addr_run addr_step spec_run spec_step fst snd].
  - destruct (ac_sr c a) as [E1 E2]. rewrite IH; rewrite ?E1, ?E2; [done|by left|done].
  - destruct (ac_sl c a) as [E1 E2]. rewrite IH; rewrite ?E1, ?E2; [done|done|by left].
  - pose proof (ac_gr c) as Hg. destruct (ac_GetRemoteAddr c) as [c' s]. destruct Hg as [E1 E2].
    pose proof (get_text_ok _ Hr) as Ht. rewrite <- E1 in Ht. destruct Ht as (Ht & Ha & ->). by rewrite IH, Ha, E2; rewrite ?E2.
  - pose proof (ac_gl c) as Hg. destruct (ac_GetLocalAddr c) as [c' s]. destruct Hg as [E1 E2].
    pose proof (get_text_ok _ Hl) as Ht. rewrite <- E1 in Ht. destruct Ht as (Ht & Ha & ->). by rewrite IH, Ha, E2; rewrite ?E2.
Qed.
End AddrText.

(** *** Plain connections *)

Section ConnAddr.
Context {H A X : Type} (String : A → string).

#[export] Instance Conn_AddrConn : AddrConn (Conn H A X) A := {
  ac_remote c := (b_remote (c_base c), b_remoteAddr (c_base c));
  ac_local c := (b_local (c_base c), b_localAddr (c_base c));
  ac_SetRemote := Conn_SetRemote;
  ac_SetLocal := Conn_SetLocal;
  ac_GetRemoteAddr := Conn_GetRemoteAddr String;
  ac_GetLocalAddr := Conn_GetLocalAddr String;
}.

#[export] Instance Conn_AddrLaws : AddrLaws (Conn H A X) A String.
Proof.
  split; try done; intros c; cbn; unfold Conn_GetRemoteAddr, Conn_GetLocalAddr, get_text; cbn.
  - by destruct (b_remote (c_base c)) eqn:E; cbn; rewrite ?E.
  - by destruct (b_local (c_base c)) eqn:E; cbn; rewrite ?E.
Qed.
End ConnAddr.

(** *** TLS connections *)

Section AtlsAddr.
Context {H A X N E : Type} (String : A → string).
Implicit Types (c : ATLSConn H A X N E).

Definition ATLSConn_GetLocalAddr c : ATLSConn H A X N E * string :=
  let b := a_base c in
  match b_local b with
  | None => (c, ""%string)
  | Some a =>
      let s := if String.eqb (b_localAddr b) "" then String a else b_localAddr b in
      (a_set_base c (Base_set_addrs b (b_local b) (b_remote b) s (b_remoteAddr b)), s)
  end.

Definition ATLSConn_GetRemoteAddr c : ATLSConn H A X N E * string :=
  let b := a_base c in
  match b_remote b with
  | None => (c, ""%string)
  | Some a =>
      let s := if String.eqb (b_remoteAddr b) "" then String a else b_remoteAddr b in
      (a_set_base c (Base_set_addrs b (b_local b) (b_remote b) (b_localAddr b) s), s)
  end.

#[export] Instance ATLS_AddrConn : AddrConn (ATLSConn H A X N E) A := {
  ac_remote c := (b_remote (a_base c), b_remoteAddr (a_base c));
  ac_local c := (b_local (a_base c), b_localAddr (a_base c));
  ac_SetRemote := ATLSConn_SetRemote;
  ac_SetLocal := ATLSConn_SetLocal;
  ac_GetRemoteAddr := ATLSConn_GetRemoteAddr;
  ac_GetLocalAddr := ATLSConn_GetLocalAddr;
}.

#[export] Instance ATLS_AddrLaws : AddrLaws (ATLSConn H A X N E) A String.
Proof.
  split; try done; intros c; cbn; unfold ATLSConn_GetRemoteAddr, ATLSConn_GetLocalAddr, get_text; cbn.
  - by destruct (b_remote (a_base c)) eqn:Er; cbn; rewrite ?Er.
  - by destruct (b_local (a_base c)) eqn:El; cbn; rewrite ?El.
Qed.
End AtlsAddr.

(** ** Deadlines and close of the connection a handshake runs on *)

(** Times in nanoseconds; the zero [time.Time] is [None].  [timeval] is a pair of seconds and microseconds. *)
Definition timeval : Type := Z * Z.

Class SockOpt (K : Type) := { sys_setsockopt_timeval : K → Z → Z → timeval → K * option errno }.

Definition SO_RCVTIMEO : Z := 20.
Definition SO_SNDTIMEO : Z := 21.
Definition ENOTCONN : errno := EOTHER 107.

Section FdConn.
Context {K A : Type} `{!Kernel K, !SockOpt K}.
(** [unix.NsecToTimeval] *)
Variable NsecToTimeval : Z → timeval.

Record fdConn := mkFdConn { fc_fd : Z; fc_local : option A; fc_remote : option A }.

Definition newFDConn (fd : Z) (local remote : option A) : fdConn := mkFdConn fd local remote.
Definition fdConn_LocalAddr (c : fdConn) : option A := fc_local c.
Definition fdConn_RemoteAddr (c : fdConn) : option A := fc_remote c.

Definition fdConn_Close (k : K) (c : fdConn) : K * option errno :=
  let '(k, err) := sys_shutdown k (fc_fd c) in
  if bool_decide (err = Some ENOTCONN ∨ err = Some EINVAL) then (k, None) else (k, err).

(** The timeout for a deadline [t] at the time [now]. *)
Definition deadline_timeval (now : Z) (t : option Z) : timeval :=
  match t with
  | None => (0, 0)
  | Some t => let d := t - now in NsecToTimeval (if d <=? 0 then 1000 else d)
  end.

Definition setSocketDeadline (k : K) (fd opt now : Z) (t : option Z) : K * option errno :=
  sys_setsockopt_timeval k fd opt (deadline_timeval now t).

Definition fdConn_SetReadDeadline (k : K) (c : fdConn) (now : Z) (t : option Z) := setSocketDeadline k (fc_fd c) SO_RCVTIMEO now t.
Definition fdConn_SetWriteDeadline (k : K) (c : fdConn) (now : Z) (t : option Z) := setSocketDeadline k (fc_fd c) SO_SNDTIMEO now t.

Definition fdConn_SetDeadline (k : K) (c : fdConn) (now : Z) (t : option Z) : K * option errno :=
  let '(k, err) := fdConn_SetReadDeadline k c now t in
  match err with Some e => (k, Some e) | None => fdConn_SetWriteDeadline k c now t end.

(** A deadline is never turned into the timeout zero, which waits for ever, not even one that has
    passed; only the zero time is.  The conversion rounds up to a microsecond. *)
Lemma deadline_is_a_timeout now t : (∀ ns s us, 0 < ns → NsecToTimeval ns = (s, us) → ns ≤ s * 1000000000 + us * 1000) →
  deadline_timeval now t = (0, 0) ↔ t = None.
Proof.
  intros Hn. split; [|by intros ->]. destruct t as [t|]; [|done]. unfold deadline_timeval. intros E.
  destruct (Z.leb_spec (t - now) 0) as [Hd|Hd]; apply Hn in E; lia.
Qed.
End FdConn.
Arguments fdConn : clear implicits.

(** [tlsBufferConn] hands everything to the socket of the handshake while it has one. *)
Class NetMeta (N A : Type) := {
  nm_Close : N → N * option errno;
  nm_LocalAddr : N → option A;
  nm_RemoteAddr : N → option A;
  nm_SetDeadline : N → option Z → N * option errno;
  nm_SetReadDeadline : N → option Z → N * option errno;
  nm_SetWriteDeadline : N → option Z → N * option errno;
}.

Section TlsBuffer.
Context {N A : Type} `{!NetMeta N A}.
Implicit Types (b : tlsBufferConn N A).

Definition getDirect b : option N := tb_direct b.

(** The socket, which the caller had, and the buffers without it. *)
Definition tlsBufferConn_Close b : tlsBufferConn N A * option N * option errno :=
  match getDirect b with
  | Some direct => let '(direct, err) := nm_Close direct in (clearDirect b, Some direct, err)
  | None => (clearDirect b, None, None)
  end.

Definition tlsBufferConn_LocalAddr b : option A := match getDirect b with Some d => nm_LocalAddr d | None => tb_local b end.
Definition tlsBufferConn_RemoteAddr b : option A := match getDirect b with Some d => nm_RemoteAddr d | None => tb_remote b end.

Definition delegate (f : N → N * option errno) b : tlsBufferConn N A * option errno :=
  match getDirect b with Some d => let '(d, err) := f d in (tb_setDirect b (Some d), err) | None => (b, None) end.

Definition tlsBufferConn_SetDeadline b (t : option Z) := delegate (λ d, nm_SetDeadline d t) b.
Definition tlsBufferConn_SetReadDeadline b (t : option Z) := delegate (λ d, nm_SetReadDeadline d t) b.
Definition tlsBufferConn_SetWriteDeadline b (t : option Z) := delegate (λ d, nm_SetWriteDeadline d t) b.

(** Closing the buffers a second time does not close the socket again. *)
Lemma tlsBufferConn_Close_once b : let '(b', _, _) := tlsBufferConn_Close b in tlsBufferConn_Close b' = (b', None, None).
Proof. unfold tlsBufferConn_Close, getDirect. destruct (tb_direct b) as [d|]; [destruct (nm_Close d)|]; done. Qed.
End TlsBuffer.

(** ** internal/spinlock.go *)

(** Where a goroutine is: outside, in the loop of [Lock], or past it. *)
Inductive spin_pc := SpOut | SpTrying | SpIn.

#[export] Instance spin_pc_eq : EqDecision spin_pc.
Proof. solve_decision. Defined.

Record SpinSys := mkSpin { sp_lock : Z; sp_threads : list spin_pc }.

Definition CompareAndSwap (lock old new : Z) : Z * bool := if lock =? old then (new, true) else (lock, false).

Inductive spin_step : SpinSys → SpinSys → Prop :=
| SS_lock s i : sp_threads s !! i = Some SpOut → spin_step s (mkSpin (sp_lock s) (<[i := SpTrying]> (sp_threads s)))
| SS_cas s i lock ok : sp_threads s !! i = Some SpTrying → CompareAndSwap (sp_lock s) 0 1 = (lock, ok) →
    spin_step s (mkSpin lock (<[i := if ok then SpIn else SpTrying]> (sp_threads s)))
| SS_unlock s i : sp_threads s !! i = Some SpIn → spin_step s (mkSpin 0 (<[i := SpOut]> (sp_threads s))).

Definition spin_inv (s : SpinSys) : Prop :=
  (sp_lock s = 0 ∧ ∀ i, sp_threads s !! i ≠ Some SpIn) ∨
  (sp_lock s = 1 ∧ ∃ i, sp_threads s !! i = Some SpIn ∧ ∀ j, sp_threads s !! j = Some SpIn → j = i).

Lemma spin_step_inv s s' : spin_inv s → spin_step s s' → spin_inv s'.
Proof.
  intros HI H. unfold spin_inv in *. destruct H as [s i Hi|s i lock ok Hi Hc|s i Hi]; cbn.
  - setoid_rewrite list_lookup_insert_Some. destruct HI as [[-> Hn]|[-> (k & Hk & Hu)]]; [left|right]; (split; [done|]).
    + intros j [(_ & [=] & _)|(_ & ?)]. by eapply Hn.
    + exists k. split; [right; split; [congruence|done]|]. intros j [(_ & [=] & _)|(_ & ?)]. auto.
  - unfold CompareAndSwap in Hc. setoid_rewrite list_lookup_insert_Some. pose proof (lookup_lt_Some _ _ _ Hi).
    destruct HI as [[El Hn]|[El (k & Hk & Hu)]]; rewrite El in Hc; injection Hc as <- <-; right; (split; [done|]).
    + exists i. split; [by left|]. intros j [(-> & _)|(_ & Hj)]; [done|]. by apply Hn in Hj.
    + exists k. split; [right; split; [congruence|done]|]. intros j [(_ & [=] & _)|(_ & ?)]. auto.
  - destruct HI as [[_ Hn]|[_ (k & Hk & Hu)]]; [by apply Hn in Hi|]. left. split; [done|]. intros j Hj.
    apply list_lookup_insert_Some in Hj as [(_ & [=] & _)|(Hne & Hj)]. apply Hne. transitivity k; [by apply Hu|symmetry; by apply Hu].
Qed.

(** At most one goroutine is between [Lock] and [Unlock], and when none is, one that tries gets in
    at its next attempt. *)
Theorem spinlock_exclusive n s : rtc spin_step (mkSpin 0 (replicate n SpOut)) s →
  (∀ i j, sp_threads s !! i = Some SpIn → sp_threads s !! j = Some SpIn → i = j) ∧
  ((∀ i, sp_threads s !! i ≠ Some SpIn) → ∀ i, sp_threads s !! i = Some SpTrying →
     spin_step s (mkSpin 1 (<[i := SpIn]> (sp_threads s)))).
Proof.
  intros Hr. assert (spin_inv s) as HI.
  { assert (spin_inv (mkSpin 0 (replicate n SpOut))) as H0 by (left; split; [done|]; intros i Hi; by apply lookup_replicate in Hi as [[=] _]).
    revert H0. induction Hr as [|x y z Hxy _ IH]; [done|]. intros Hx. by eapply IH, spin_step_inv. }
  destruct HI as [[El Hn]|[El (k & Hk & Hu)]]; split; intros.
  - by exfalso; eapply Hn.
  - apply (SS_cas s i 1 true); [done|]. by rewrite El.
  - by rewrite (Hu i), (Hu j).
  - exfalso. naive_solver.
Qed.

(** ** internal/ktls_support_linux.go *)

(** What the calls of the probe return: [None] is success. *)
Record Probe := mkProbe {
  pr_stat : option errno; pr_listen : option errno; pr_accept : option errno; pr_dial : option errno;
  pr_isTCP : bool; pr_raw : option errno; pr_control : option errno; pr_ulp : option errno;
}.

(** How far the goroutine that accepts is when the probe reaches its select: it has sent
    nothing for two seconds, it has sent on the first channel it sends on, or it is done. *)
Inductive progress := GNone | GFirst | GDone.

Inductive ProbeErr := ErrKTLSUnsupported | ErrSys (e : errno) | ErrAcceptClosed | ErrAcceptTimeout | ErrNotTCP.

Definition ENOPROTOOPT : errno := EOTHER 92.
Definition EOPNOTSUPP : errno := EOTHER 95.

(** The select: [inl] ends the probe.  With both channels ready either case may run; [pick] says
    that it is that of [acceptErr]. *)
Definition probe_select (p : Probe) (g : progress) (pick : bool) : ProbeErr + unit :=
  match g with
  | GNone => inl ErrAcceptTimeout
  | GFirst => match pr_accept p with Some e => inl (ErrSys e) | None => inr tt end
  | GDone => match pr_accept p with Some e => inl (ErrSys e) | None => if pick then inl ErrAcceptClosed else inr tt end
  end.

Definition SystemSupportKTLS (p : Probe) (g : progress) (pick : bool) : bool * option ProbeErr :=
  match pr_stat p, pr_listen p, pr_dial p with
  | Some e, _, _ | None, Some e, _ | None, None, Some e => (false, Some (ErrSys e))
  | None, None, None =>
      match probe_select p g pick with
      | inl e => (false, Some e)
      | inr _ =>
          if negb (pr_isTCP p) then (false, Some ErrNotTCP)
          else match pr_raw p, pr_control p with
          | Some e, _ | None, Some e => (false, Some (ErrSys e))
          | None, None =>
              match pr_ulp p with
              | Some e => if bool_decide (e = EOPNOTSUPP ∨ e = ENOPROTOOPT ∨ e = EINVAL) then (false, Some ErrKTLSUnsupported) else (false, Some (ErrSys e))
              | None => (true, None)
              end
          end
      end
  end.

(** On systems other than Linux. *)
Definition SystemSupportKTLS_other : bool * option ProbeErr := (false, Some ErrKTLSUnsupported).

Definition all_fine (p : Probe) : bool :=
  bool_decide (pr_stat p = None ∧ pr_listen p = None ∧ pr_accept p = None ∧ pr_dial p = None ∧ pr_raw p = None ∧ pr_control p = None ∧ pr_ulp p = None) && pr_isTCP p.

(** The probe answers yes exactly when every call succeeds, if the select takes the channel of
    [accepted]; an answer of no always comes with an error. *)
Lemma probe_exact p g pick : g ≠ GNone → (g = GDone → pick = false) →
  (SystemSupportKTLS p g pick).1 = all_fine p ∧ ((SystemSupportKTLS p g pick).1 = false ↔ (SystemSupportKTLS p g pick).2 ≠ None).
Proof.
  intros Hg Hp. unfold SystemSupportKTLS, probe_select, all_fine.
  destruct (pr_stat p), (pr_listen p), (pr_dial p), (pr_accept p), (pr_isTCP p), (pr_raw p), (pr_control p), (pr_ulp p); destruct g; try done;
    rewrite ?(Hp eq_refl); cbn; repeat case_bool_decide; cbn; try done; naive_solver.
Qed.

(** When the goroutine has finished before the select, the probe may answer no although every call
    succeeded. *)
Example probe_races : let p := mkProbe None None None None true None None None in
  SystemSupportKTLS p GDone true = (false, Some ErrAcceptClosed) ∧ SystemSupportKTLS p GDone false = (true, None).
Proof. done. Qed.

(** ** The rest of connection/{base,conn,tlsconn}.go *)

Section BaseRest.
Context {H A X N E : Type}.
Implicit Types (b : Base H A X).

Definition Base_SetAcceptAddr b (addr : string) : Base H A X :=
  mkBase (b_ctx b) (b_fd b) (b_id b) (b_loopID b) (b_h b) (b_recvbuf b) (b_local b) (b_remote b) (b_localAddr b) (b_remoteAddr b)
    addr (b_Client b) (b_ep b) (b_recv b) (b_send b) (b_lastRecv b) (b_wq b).
Definition Base_AcceptAddr b : string := b_acceptAddr b.

Definition Base_SetListenerEndpoint b (ep : option X) : Base H A X :=
  mkBase (b_ctx b) (b_fd b) (b_id b) (b_loopID b) (b_h b) (b_recvbuf b) (b_local b) (b_remote b) (b_localAddr b) (b_remoteAddr b)
    (b_acceptAddr b) (b_Client b) ep (b_recv b) (b_send b) (b_lastRecv b) (b_wq b).
Definition Base_GetListenerEndpoint b : option X := b_ep b.

Definition Conn_SetCloseCB (c : Conn H A X) (cb : bool) : Conn H A X := mkConn (c_base c) cb (c_opencb c).
Definition Conn_SetOpenCB (c : Conn H A X) (cb : bool) : Conn H A X := mkConn (c_base c) (c_closecb c) cb.

Definition ATLSConn_SetCloseCB (c : ATLSConn H A X N E) (cb : bool) : ATLSConn H A X N E :=
  mkATLS (a_base c) cb (a_opencb c) (a_Conn c) (a_buf c) (a_ktls c) (a_ktlsRX c) (a_preRead c) (a_preReadOff c) (a_acceptLoopID c).
Definition ATLSConn_SetOpenCB (c : ATLSConn H A X N E) (cb : bool) : ATLSConn H A X N E :=
  mkATLS (a_base c) (a_closecb c) cb (a_Conn c) (a_buf c) (a_ktls c) (a_ktlsRX c) (a_preRead c) (a_preReadOff c) (a_acceptLoopID c).

(** The argument of the call of [OnOpen], when there is one. *)
Definition Conn_Open (c : Conn H A X) : option (option X) := if c_opencb c then Some (b_ctx (c_base c)) else None.
Definition ATLSConn_Open (c : ATLSConn H A X N E) : option (option X) := if a_opencb c then Some (b_ctx (a_base c)) else None.

(** [ParsePacket] and [OnData] go to the packet handler that is set at that time; [None] is the
    panic of a call without one. *)
Definition Base_ParsePacket {R} (ParsePacket : H → list Z → R) b (inp : list Z) : option R := h ← b_h b; Some (ParsePacket h inp).
Definition Base_OnData {R} (OnData : H → list Z → R) b (inp : list Z) : option R := h ← b_h b; Some (OnData h inp).

(** [SetPktHandler] keeps a handler that is set already; a later call has an effect only through [UpdatePktHandler]. *)
Lemma first_handler_stays {R} (f : H → list Z → R) b h h' inp : b_h b = None →
  Base_ParsePacket f (Base_SetPktHandler (Base_SetPktHandler b h) h') inp = Some (f h inp) ∧
  Base_ParsePacket f (Base_UpdatePktHandler (Base_SetPktHandler b h) h') inp = Some (f h' inp).
Proof. intros Hn. unfold Base_ParsePacket, Base_SetPktHandler. by rewrite Hn. Qed.
End BaseRest.

(** ** pool/pool.go: ObjectPool *)

(** The objects that were put back; [sync.Pool] may hand out any of them, or drop them. *)
Record ObjectPool (T : Type) := mkObjects { op_bag : list T; op_New : nat → T }.
Arguments mkObjects {T}. Arguments op_bag {T}. Arguments op_New {T}.

Section ObjectPool.
Context {T : Type}.
Implicit Types (p : ObjectPool T).

Definition NewObjectPool (newFn : nat → T) : ObjectPool T := mkObjects [] newFn.

(** [pick] is the object the pool hands out, [n] the number of objects made so far. *)
Definition ObjectPool_Get p (pick n : nat) : ObjectPool T * T :=
  match op_bag p !! pick with
  | Some v => (mkObjects (delete pick (op_bag p)) (op_New p), v)
  | None => (p, op_New p n)
  end.

Definition ObjectPool_Put p (v : option T) : ObjectPool T :=
  match v with None => p | Some v => mkObjects (v :: op_bag p) (op_New p) end.

(** An object in use is not handed out again: what [Get] returns is not in the pool any more. *)
Lemma ObjectPool_Get_takes p pick n : let '(p', v) := ObjectPool_Get p pick n in
  op_bag p ≡ₚ v :: op_bag p' ∨ (op_bag p' = op_bag p ∧ v = op_New p n).
Proof.
  unfold ObjectPool_Get. destruct (op_bag p !! pick) as [v|] eqn:E; [left|by right]. by apply delete_Permutation.
Qed.
End ObjectPool.

(** ** eventloop/tlsworker.go: the names of the metrics of a handshake *)

Definition tlsHandshakeStateMetric (didResume : bool) : list Z :=
  if didResume then str "connaxis.tls.handshake.resumed" else str "connaxis.tls.handshake.full".

(** [err] is the text of the error, [None] for nil. *)
Definition tlsHandshakeErrorReason (err : option (list Z)) : list Z :=
  match err with
  | None => str "unknown"
  | Some text =>
      let msg := lower <$> text in
      if Contains msg (str "connection reset by peer") then str "reset"
      else if Contains msg (str "unknown certificate") then str "unknown_certificate"
      else if Contains msg (str "unsupported versions") then str "unsupported_version"
      else if Contains msg (str "bad certificate") then str "bad_certificate"
      else if Contains msg (str "first record does not look like a tls handshake") then str "not_tls"
      else if Contains msg (str "closed") || Contains msg (str "use of closed network connection") then str "closed"
      else str "other"
  end.

(** The set of reasons is fixed, whatever a peer makes the error say: there are eight counters. *)
Lemma error_reasons_fixed err : tlsHandshakeErrorReason err ∈
  [str "unknown"; str "reset"; str "unknown_certificate"; str "unsupported_version"; str "bad_certificate"; str "not_tls"; str "closed"; str "other"].
Proof. unfold tlsHandshakeErrorReason. destruct err as [text|]; [|left]. cbn zeta. repeat case_match; set_solver. Qed.
