(* ===== verification/Examples.v ===== *)
(** * examples/{httpws,tcphttpws,fasthttp,websocket,prometheus}: the applications that come with the library

    Three of the examples answer HTTP requests in goroutines of their own, which take jobs from one
    shared channel.  [DispatchHTTP] waits for a place in the channel, except in tcphttpws, where
    it answers at once that the server is busy.  The goroutines interleave in any order, which is a
    list of events.  The echo handlers are in Service.v. *)

From stdpp Require Import strings gmap sorting.
From S2P Require Import Prelude Text HttpUtil Http.

(** [workers] of [Start] *)
Definition start_workers (workers gomaxprocs : Z) : Z :=
  let workers := if workers <=? 0 then gomaxprocs else workers in
  if workers <? 1 then 1 else workers.

(** What the workers and [DispatchHTTP] of tcphttpws send. *)
Definition answer (order : Header → list (list Z * list (list Z))) (code : Z) (body : list Z) : list Z :=
  (rw_Bytes order (rw_Write (rw_WriteHeader rw_Init code) body)).2.

Definition ok_answer order : list Z := answer order 200 (str "ok").
Definition busy_answer order : list Z := answer order 503 (str "busy").

(** [OnUserData] of the websocket examples *)
Definition echo_OnUserData {U} (u : U) (id : Z) (data : list Z) : U * option (list Z) := (u, Some data).

(** ** The channel and its workers *)

Record JobPool (J : Type) := mkJobs {
  jp_queue : list J; jp_cap : Z;
  jp_busy : list (option J);          (* the job each worker is at *)
  jp_out : list (J * bool);           (* the answers, in order: [true] is ok, [false] busy *)
}.
Arguments mkJobs {J}. Arguments jp_queue {J}. Arguments jp_cap {J}. Arguments jp_busy {J}. Arguments jp_out {J}.

Inductive JEvent (J : Type) :=
| JDispatch (j : J)
| JTake (i : nat)
| JAnswer (i : nat).
Arguments JDispatch {J}. Arguments JTake {J}. Arguments JAnswer {J}.

Section Jobs.
Context {J : Type}.
(** Whether a full channel is answered at once; otherwise the caller waits, and the event is one
    that cannot happen yet. *)
Variable refuse : bool.
Implicit Types (p : JobPool J).

Definition new_jobs (workers gomaxprocs queueSize : Z) : JobPool J :=
  mkJobs [] queueSize (replicate (Z.to_nat (start_workers workers gomaxprocs)) None) [].

(** A worker waits at the channel: it is idle, and nothing is there to take. *)
Definition waiting p : bool := (len (jp_queue p) =? 0) && existsb (λ b, match b with None => true | Some _ => false end) (jp_busy p).

Definition jstep p (e : JEvent J) : JobPool J :=
  match e with
  | JDispatch j =>
      if (len (jp_queue p) <? jp_cap p) || waiting p then mkJobs (jp_queue p ++ [j]) (jp_cap p) (jp_busy p) (jp_out p)
      else if refuse then mkJobs (jp_queue p) (jp_cap p) (jp_busy p) (jp_out p ++ [(j, false)])
      else p
  | JTake i =>
      match jp_queue p, jp_busy p !! i with
      | j :: q, Some None => mkJobs q (jp_cap p) (<[i := Some j]> (jp_busy p)) (jp_out p)
      | _, _ => p
      end
  | JAnswer i =>
      match jp_busy p !! i with
      | Some (Some j) => mkJobs (jp_queue p) (jp_cap p) (<[i := None]> (jp_busy p)) (jp_out p ++ [(j, true)])
      | _ => p
      end
  end.

(** The jobs of the calls of [DispatchHTTP] that have returned. *)
Fixpoint jrun p (evs : list (JEvent J)) : JobPool J * list J :=
  match evs with
  | [] => (p, [])
  | e :: evs =>
      let p' := jstep p e in
      let accepted := match e with
                      | JDispatch j => if (len (jp_queue p) <? jp_cap p) || waiting p || refuse then [j] else []
                      | _ => []
                      end in
      let '(q, js) := jrun p' evs in (q, accepted ++ js)
  end.

Definition at_work p : list J := omap id (jp_busy p).

(** Every job a pool knows of: answered, with a worker, or in the channel. *)
Definition known p : list J := (fst <$> jp_out p) ++ at_work p ++ jp_queue p.

Lemma at_work_take (l : list (option J)) i j : l !! i = Some None → omap id (<[i := Some j]> l) ≡ₚ j :: omap id l.
Proof.
  revert i. induction l as [|x l IH]; intros [|i] Hi; cbn in *; simplify_eq; [done|]. destruct x; cbn; rewrite (IH i Hi); [apply Permutation_swap|done].
Qed.

Lemma at_work_answer (l : list (option J)) i j : l !! i = Some (Some j) → omap id l ≡ₚ j :: omap id (<[i := None]> l).
Proof.
  revert i. induction l as [|x l IH]; intros [|i] Hi; cbn in *; simplify_eq; [done|]. destruct x; cbn; rewrite (IH i Hi); [apply Permutation_swap|done].
Qed.

Lemma idle_work n : omap id (replicate n (None : option J)) = [].
Proof. by induction n. Qed.

Lemma jstep_known p e : known (jstep p e) ≡ₚ known p ++
  match e with JDispatch j => if (len (jp_queue p) <? jp_cap p) || waiting p || refuse then [j] else [] | _ => [] end.
Proof.
  unfold known, at_work. destruct e as [j|i|i]; cbn [jstep].
  - destruct ((len (jp_queue p) <? jp_cap p) || waiting p); cbn; [by rewrite !app_assoc|]. destruct refuse; cbn; [|by rewrite app_nil_r].
    rewrite fmap_app. cbn. solve_Permutation.
  - rewrite app_nil_r. destruct (jp_queue p) as [|j q] eqn:Eq; [by rewrite Eq|].
    destruct (jp_busy p !! i) as [[?|]|] eqn:E; [by rewrite Eq| |by rewrite Eq]. cbn.
    rewrite (at_work_take _ _ _ E). cbn. solve_Permutation.
  - rewrite app_nil_r. destruct (jp_busy p !! i) as [[j|]|] eqn:E; try done. cbn. rewrite fmap_app, (at_work_answer _ _ _ E). cbn. solve_Permutation.
Qed.

(** Every request that was taken on is answered once, or waits in the channel or with a worker; and
    nothing else is answered. *)
Theorem jobs_answered_once workers gomaxprocs queueSize evs :
  let '(p, accepted) := jrun (new_jobs workers gomaxprocs queueSize) evs in accepted ≡ₚ known p.
Proof.
  assert (∀ p, let '(q, js) := jrun p evs in known q ≡ₚ known p ++ js) as H.
  { induction evs as [|e evs IH]; intros p; cbn [jrun]; [by rewrite app_nil_r|]. specialize (IH (jstep p e)).
    destruct (jrun (jstep p e) evs) as [q js]. by rewrite IH, jstep_known, app_assoc. }
  specialize (H (new_jobs workers gomaxprocs queueSize)). destruct (jrun _ evs) as [p acc]. rewrite H.
  unfold known, at_work, new_jobs. cbn [jp_out jp_busy jp_queue]. by rewrite idle_work.
Qed.
End Jobs.

Section OneWorker.
Context {J : Type}.

(** With one worker and a channel that makes the caller wait, the answers come in the order of the
    requests. *)
Theorem one_worker_in_order gomaxprocs queueSize evs :
  let '(p, accepted) := jrun false (new_jobs (J := J) 1 gomaxprocs queueSize) evs in accepted = known p.
Proof.
  assert (∀ p : JobPool J, length (jp_busy p) = 1%nat → let '(q, js) := jrun false p evs in known q = known p ++ js) as H.
  { induction evs as [|e evs IH]; intros p Hp; cbn [jrun]; [by rewrite app_nil_r|]. specialize (IH (jstep false p e)).
    destruct (jrun false (jstep false p e) evs) as [q js]. destruct p as [qu cap [|b [|]] out]; try done. unfold known, at_work in *.
    destruct e as [j|i|i]; cbn [jstep jp_queue jp_cap jp_busy jp_out] in *.
    - rewrite orb_false_r. destruct (_ || _); (rewrite IH; [|done]); cbn; by rewrite <-?app_assoc, ?app_nil_r, <-?app_assoc.
    - destruct qu as [|j qu]; [by rewrite IH|]. destruct i as [|i], b; cbn [lookup list_lookup] in *; rewrite IH; done.
    - destruct i as [|i], b as [j|]; cbn [lookup list_lookup] in *; rewrite IH; try done. cbn. rewrite fmap_app. cbn. by rewrite <-!app_assoc. }
  specialize (H (new_jobs 1 gomaxprocs queueSize) eq_refl). destruct (jrun _ _ evs) as [p acc]. by rewrite H.
Qed.
End OneWorker.

(** With two workers the second request of a connection can be answered first, and in tcphttpws a
    request that finds the channel full is answered before those in it: HTTP wants the
    responses in the order of the requests. *)
Example answers_overtake :
  jp_out (jrun false (new_jobs 2 8 1024) [JDispatch 1; JTake 0; JDispatch 2; JTake 1; JAnswer 1; JAnswer 0]).1 = [(2, true); (1, true)] ∧
  jp_out (jrun true (new_jobs 1 8 1) [JDispatch 1; JTake 0; JDispatch 2; JDispatch 3; JAnswer 0; JTake 0; JAnswer 0]).1 = [(3, false); (1, true); (2, true)].
Proof. done. Qed.

Example busy_text :
  busy_answer (λ h, map_to_list h) = str "HTTP/1.1 503 Service Unavailable" ++ [13; 10] ++ str "Content-Length: 4" ++ [13; 10; 13; 10] ++ str "busy".
Proof. vm_compute. reflexivity. Qed.

(** ** examples/prometheus *)

(** The metrics registered under a name, and the panic of [MustRegister] for a name that is taken. *)
Record promMetrics := mkProm { pm_counters : gmap (list Z) Z; pm_gauges : gmap (list Z) Z }.

Definition prom_name (k : list Z) : list Z := (λ c, if c =? 46 then 95 else c) <$> k.

Definition getCounter (p : promMetrics) (k : list Z) : option (promMetrics * list Z) :=
  let name := prom_name k in
  if bool_decide (is_Some (pm_counters p !! name)) then Some (p, name)
  else if bool_decide (is_Some (pm_gauges p !! name)) then None
  else Some (mkProm (<[name := 0]> (pm_counters p)) (pm_gauges p), name).

Definition getGauge (p : promMetrics) (k : list Z) : option (promMetrics * list Z) :=
  let name := prom_name k in
  if bool_decide (is_Some (pm_gauges p !! name)) then Some (p, name)
  else if bool_decide (is_Some (pm_counters p !! name)) then None
  else Some (mkProm (pm_counters p) (<[name := 0]> (pm_gauges p)), name).

Definition prom_Gauge (p : promMetrics) (k : list Z) (v : Z) : option promMetrics :=
  '(p, name) ← getGauge p k; Some (mkProm (pm_counters p) (<[name := v]> (pm_gauges p))).
(** A counter panics when it is to be decreased. *)
Definition prom_Count (p : promMetrics) (k : list Z) (v : Z) : option promMetrics :=
  '(p, name) ← getCounter p k; if v <? 0 then None else Some (mkProm (alter (Z.add v) name (pm_counters p)) (pm_gauges p)).
Definition prom_Increment (p : promMetrics) (k : list Z) : option promMetrics := prom_Count p k 1.
Definition prom_Timing (p : promMetrics) (k : list Z) (d : Z) : option promMetrics := Some p.

(** Counters and gauges are apart as long as no name is used for both; a metric of one kind never
    changes one of the other. *)
Lemma prom_kinds_apart p k v p' : prom_Gauge p k v = Some p' → pm_counters p' = pm_counters p ∧ pm_gauges p' !! prom_name k = Some v ∧
  ∀ n, n ≠ prom_name k → pm_gauges p' !! n = pm_gauges p !! n.
Proof.
  unfold prom_Gauge, getGauge. case_bool_decide; [|case_bool_decide; [done|]]; intros [= <-]; cbn; (split; [done|]);
    (split; [by rewrite lookup_insert_eq|]); intros n Hn; by rewrite !lookup_insert_ne.
Qed.

(** [a.b] and [a_b] are one metric. *)
Example prom_names_collide : prom_name (str "conn.read") = prom_name (str "conn_read").
Proof. done. Qed.
