(* ===== verification/WsMux.v ===== *)
(** * The switch from HTTP to websocket, with the websocket handler

    [HttpWs.v] uses the websocket handler through the class [WsEngine]; here it is the one of
    [Message.v], with the clients by connection id. *)

From stdpp Require Import strings gmap.
From S2P Require Import Prelude Pool Tuning Utf8 Cipher Sha1 Pmd WsClient Handshake Frame Message.
From S2P Require Import Text HttpUtil Http HttpWs.

Section Engine.
Context {P F UD U C : Type} `{!Allocator P, !Flate F}.
Context (ws : WSKnobs) (big : bool) (fuel : nat) (OnUserData : U → Z → list Z → U * option (list Z)) (conn_ID : C → Z).

(** The allocator, the application and the clients. *)
Record WsState := mkWs { wm_pool : P; wm_app : U; wm_clis : gmap Z (WsClient F UD) }.

(** [&websocket.WsClient{Upgraded: false, Cid: c.ID()}] *)
Definition new_client (id : Z) : WsClient F UD := WsHandler_OnConnected false id.

Definition engine_new (w : WsState) (c : C) : WsState :=
  mkWs (wm_pool w) (wm_app w) (<[conn_ID c := new_client (conn_ID c)]> (wm_clis w)).

(** A context that is not a client is a panic. *)
Definition engine_ParsePacket (w : WsState) (c : C) (inp : list Z) : option (WsState * (Z * Z)) :=
  cli ← wm_clis w !! conn_ID c;
  '(cli, res) ← WsHandler_ParsePacket ws cli inp;
  Some (mkWs (wm_pool w) (wm_app w) (<[conn_ID c := cli]> (wm_clis w)), res).

Definition engine_OnData (w : WsState) (c : C) (inp : list Z) : option (WsState * (list Z * bool)) :=
  cli ← wm_clis w !! conn_ID c;
  '((pool, u, cli), (out, close)) ← WsHandler_OnData ws big fuel OnUserData (wm_pool w, wm_app w, cli) inp;
  Some (mkWs pool u (<[conn_ID c := cli]> (wm_clis w)), (default [] out, close)).

Definition engine_OnClosed (w : WsState) (c : C) : WsState :=
  match wm_clis w !! conn_ID c with
  | Some cli => let '(pool, cli) := WsHandler_OnClosed (wm_pool w) cli in mkWs pool (wm_app w) (delete (conn_ID c) (wm_clis w))
  | None => w
  end.

Definition Ws_Engine : WsEngine WsState C :=
  {| we_new := engine_new; we_ParsePacket := engine_ParsePacket; we_OnData := engine_OnData; we_OnClosed := engine_OnClosed |}.

Section Upgrade.
Context {X A R TS : Type} `{!Wildcat X} `{!TcpProto TS C}.
Context (url_Parse : list Z → option R) (RemoteAddr : C → list Z) (dispatch : option (A → C → Request R → A)).

#[local] Existing Instance Ws_Engine.


End Upgrade.
End Engine.

(** ** Witness: the handshake of RFC 6455, section 1.2 *)

#[local] Existing Instances test_Allocator toy_Wildcat toy_Tcp.

Definition rfc_parser : HTTPParser Z :=
  mkHP (str "GET") (str "/chat") (str "HTTP/1.1")
    [(Some (str "Host"), str "server.example.com"); (Some (str "Upgrade"), str "websocket"); (Some (str "Connection"), str "Upgrade");
     (Some (str "sec-websocket-key"), str "dGhlIHNhbXBsZSBub25jZQ=="); (Some (str "Sec-WebSocket-Version"), str "13")] 5 0.

Definition rfc_mux : Mux Z (list Z) Z (WsState (P := BytesAlloctor) (F := TestFlate) (UD := unit) (U := unit)) unit :=
  mkMux {[ 5 := 5 ]} ∅ 1 0 ∅ 0 {[ 5 := PktHttpWs ]} (mkHttp {[ 5 := CtxParser rfc_parser ]} [] []) (mkWs test_pool tt ∅) tt.

Definition rfc_req : Request (list Z) := request_of (λ c, []) 5 rfc_parser (str "http://" ++ str "h" ++ str "/chat") [].


(** The run of the witness: the answer has the accept key of the RFC. *)
Example rfc_run :
  (λ r, r.2.1) <$> HttpWs_OnData (WsEngine0 := Ws_Engine default_ws false 10 (λ u _ d, (u, Some d)) (λ c, c)) (λ u, Some u) (λ c, c) (λ c, []) (Some toy_dispatch) true
      rfc_mux 5 rfc_request = Some (response101 (str "dGhlIHNhbXBsZSBub25jZQ==") false).
Proof. vm_compute. reflexivity. Qed.
