(* ===== verification/Bsd.v ===== *)
(** * internal/poll_bsd.go, dial_bsd.go, timer/timesource_{bsd,linux}.go: kqueue and the time sources

    The poller of the BSD systems, over the class [Kqueue] of single changes; the output of a
    dialled connection there, which writes buffer by buffer; the ticker that drives the timer
    wheels on BSD, and the timerfd one on Linux, over the class [Timerfd]. *)

From stdpp Require Import gmap sets.
From S2P Require Import Prelude Conn Poller Dialer.

(** ** kqueue *)

Definition EVFILT_READ : Z := -1.
Definition EVFILT_WRITE : Z := -2.

Inductive kflag := EV_ADD | EV_DELETE.

Record kchange := mkChange { kc_ident : Z; kc_flag : kflag; kc_filter : Z }.

(** One change of a kqueue; [k_filter k kq fd f] says that [fd] is registered with the filter [f]. *)
Class Kqueue (K : Type) := {
  sys_kchange : K → Z → kchange → K * option errno;
  k_filter : K → Z → Z → Z → bool;
}.

(** What [kevent(2)] promises of a change: one that succeeds is made, one that fails changes nothing, others
    are not touched; a filter that is not registered cannot be deleted. *)
Class KqueueLaws (K : Type) `{Kqueue K} : Prop := {
  kchange_other k kq c fd f : (fd, f) ≠ (kc_ident c, kc_filter c) →
    k_filter (fst (sys_kchange k kq c)) kq fd f = k_filter k kq fd f;
  kchange_this k kq c : let '(k', e) := sys_kchange k kq c in
    k_filter k' kq (kc_ident c) (kc_filter c) =
      match e with
      | None => match kc_flag c with EV_ADD => true | EV_DELETE => false end
      | Some _ => k_filter k kq (kc_ident c) (kc_filter c)
      end;
  kchange_delete k kq c : kc_flag c = EV_DELETE → k_filter k kq (kc_ident c) (kc_filter c) = false →
    snd (sys_kchange k kq c) = Some ENOENT;
}.

(** [kevent] with a list of changes and no room for events: it returns at the first error. *)
Fixpoint sys_kevent {K} `{Kqueue K} (k : K) (kq : Z) (cs : list kchange) : K * option errno :=
  match cs with
  | [] => (k, None)
  | c :: cs => let '(k, e) := sys_kchange k kq c in match e with Some e => (k, Some e) | None => sys_kevent k kq cs end
  end.

(** [wait] is the timeout in seconds and nanoseconds, [None] for none. *)
Record BsdPoll := mkBsdPoll { bp_id : Z; bp_fd : Z; bp_wait : option (Z * Z) }.

Definition Bsd_SetPollWait (p : BsdPoll) (msec : Z) : BsdPoll :=
  mkBsdPoll (bp_id p) (bp_fd p) (if msec <? 0 then None else Some (Z.quot msec 1000, Z.rem msec 1000 * 1000)).

Section BsdPoll.
Context {K : Type} `{!Kqueue K}.
Implicit Types (k : K) (p : BsdPoll).

Definition Bsd_AddRead k p (fd : Z) : K * option errno := sys_kevent k (bp_fd p) [mkChange fd EV_ADD EVFILT_READ].
Definition Bsd_AddReadWrite k p (fd : Z) : K * option errno :=
  sys_kevent k (bp_fd p) [mkChange fd EV_ADD EVFILT_READ; mkChange fd EV_ADD EVFILT_WRITE].
Definition Bsd_ModRead k p (fd : Z) : K * option errno := sys_kevent k (bp_fd p) [mkChange fd EV_DELETE EVFILT_WRITE].
Definition Bsd_ModReadWrite k p (fd : Z) : K * option errno := sys_kevent k (bp_fd p) [mkChange fd EV_ADD EVFILT_WRITE].
Definition Bsd_Del k p (fd : Z) : K * option errno :=
  sys_kevent k (bp_fd p) [mkChange fd EV_DELETE EVFILT_WRITE; mkChange fd EV_DELETE EVFILT_READ].

End BsdPoll.

(** An event: the descriptor, the filter, [EV_ERROR] or [EV_EOF], and the data of a user event. *)
Record kevent := mkKevent { ke_ident : Z; ke_filter : Z; ke_err : bool; ke_data : Z }.

Definition bsd_decode (e : kevent) : Z :=
  let r := 0 in
  let r := if ke_err e then Z.lor r EventErr else r in
  let r := if ke_filter e =? EVFILT_WRITE then Z.lor r EventWrite else r in
  if ke_filter e =? EVFILT_READ then Z.lor r EventRead else r.

(** The callbacks made for the events of one [Kevent]; [true] when the poller stops. *)
Fixpoint bsd_batch (evs : list kevent) : list (Z * Z) * bool :=
  match evs with
  | [] => ([], false)
  | e :: evs =>
      if negb (ke_ident e =? 0) then let '(cbs, stop) := bsd_batch evs in ((ke_ident e, bsd_decode e) :: cbs, stop)
      else if Z.land (ke_data e) 255 =? 0 then ([(0, EventStop)], true)
      else let '(cbs, stop) := bsd_batch evs in ((0, EventNone) :: cbs, stop)
  end.

(** ** dial_bsd.go: flushVec, a write per buffer *)

Section BsdFlush.
Context {K : Type} `{!Kernel K}.
Implicit Types (k : K) (d : Dialer).

(** The loop: where it stopped and what the last write returned, or the error. *)
Fixpoint write_bufs k (fd : Z) (bufs : list (list Z)) (pos lastsend : Z) : K * ((Z * Z) + errno) :=
  match bufs with
  | [] => (k, inl (pos, lastsend))
  | b :: bufs =>
      let '(k, n, err) := sys_write k fd b in
      match err with
      | Some e => if bool_decide (e = EAGAIN) then (k, inl (pos, n)) else (k, inr e)
      | None => if n <? len b then (k, inl (pos, n)) else write_bufs k fd bufs (pos + 1) n
      end
  end.

(** [None] is a panic of [d.bufs[pos]] or of the slice. *)
Definition Bsd_flushVec k d (now : Z) : option (K * Dialer * option errno) :=
  let cnt := Z.min 512 (len (d_bufs d)) in
  let '(k, res) := write_bufs k (d_fd d) (take (Z.to_nat cnt) (d_bufs d)) 0 0 in
  match res with
  | inr e => Some (k, d, Some e)
  | inl (pos, lastsend) =>
      b ← index (d_bufs d) pos;
      bufs ← (if lastsend <? len b then b ← slice b lastsend (len b); store (d_bufs d) pos b else Some (d_bufs d));
      bufs ← slice bufs pos (len bufs);
      Some (k, d_set d bufs (len bufs) now, None)
  end.

End BsdFlush.

(** ** timer/timesource_bsd.go *)

Record BsdTimeSource := mkBsdTS {
  bts_interval : Z; bts_seq : Z;
  bts_twMap : gmap Z Z;               (* the wheels, by their interval *)
  bts_pet : gmap Z Z;                 (* when each was served last, in milliseconds *)
}.

Definition BsdTS_Open (ts : BsdTimeSource) (msec : Z) : BsdTimeSource :=
  mkBsdTS (if msec <? 100 then 100 else msec) (bts_seq ts) (bts_twMap ts) (bts_pet ts).

Definition BsdTS_Stop (ts : BsdTimeSource) : BsdTimeSource :=
  mkBsdTS (bts_interval ts) (bts_seq ts) ∅ (filter (λ p, bts_twMap ts !! p.1 = None) (bts_pet ts)).

Definition BsdTS_AddTimerWheel (ts : BsdTimeSource) (interval nowMs : Z) : BsdTimeSource * Z :=
  let id := wrapU 32 (bts_seq ts + 1) in
  (mkBsdTS (bts_interval ts) id (<[id := interval]> (bts_twMap ts)) (<[id := nowMs]> (bts_pet ts)), id).

Definition BsdTS_DelTimerWheel (ts : BsdTimeSource) (fd : Z) : BsdTimeSource :=
  let id := wrapU 32 fd in
  mkBsdTS (bts_interval ts) (bts_seq ts) (delete id (bts_twMap ts)) (delete id (bts_pet ts)).

(** Whether a wheel is served at the time [ms]. *)
Definition due (ts : BsdTimeSource) (ms id last : Z) : bool :=
  match bts_twMap ts !! id with Some interval => interval <=? ms - last | None => false end.

(** A tick of [poll]: the wheels whose [OnTimeOut] is called, and the new times. *)
Definition BsdTS_tick (ts : BsdTimeSource) (ms : Z) : BsdTimeSource * gset Z :=
  (mkBsdTS (bts_interval ts) (bts_seq ts) (bts_twMap ts)
     (map_imap (λ id last, match bts_twMap ts !! id with
                           | None => None
                           | Some _ => Some (if due ts ms id last then ms else last)
                           end) (bts_pet ts)),
   dom (filter (λ p, due ts ms p.1 p.2 = true) (bts_pet ts))).

(** ** timer/timesource_linux.go *)

Class Timerfd (K : Type) := {
  sys_timerfd_create : K → K * (Z + errno);
  sys_timerfd_settime : K → Z → (Z * Z) → (Z * Z) → K * option errno;   (* value, interval *)
}.

Record TimeSource (W : Type) := mkTS { ts_poll : Poll; ts_twMap : gmap Z W }.
Arguments mkTS {W}. Arguments ts_poll {W}. Arguments ts_twMap {W}.

Section TimeSource.
Context {K W : Type} `{!Kernel K, !Epoll K, !Timerfd K}.
(** A wheel: its interval in nanoseconds, its descriptor and its [OnTimeOut]. *)
Context (GetInterval : W → Z) (SetFD : W → Z → W) (GetFD : W → Z) (OnTimeOut : W → W).
Implicit Types (k : K) (ts : TimeSource W).

Definition nanos (interval : Z) : Z * Z := (Z.quot interval 1000000000, Z.rem interval 1000000000).

Definition AddTimerWheel k ts (tw : W) : K * TimeSource W * (Z + errno) :=
  let '(k, r) := sys_timerfd_create k in
  match r with
  | inr e => (k, ts, inr e)
  | inl fd =>
      let spec := nanos (GetInterval tw) in
      let '(k, err) := sys_timerfd_settime k fd spec spec in
      match err with
      | Some e => (k, ts, inr e)
      | None =>
          let '(k, err) := Poll_AddRead k (ts_poll ts) fd in
          match err with
          | Some e => (k, ts, inr e)
          | None => (k, mkTS (ts_poll ts) (<[fd := SetFD tw fd]> (ts_twMap ts)), inl fd)
          end
      end
  end.

Definition DelTimerWheel k ts (tw : W) : K * TimeSource W :=
  let fd := GetFD tw in
  let '(k, _) := Poll_Del k (ts_poll ts) fd in (k, mkTS (ts_poll ts) (delete fd (ts_twMap ts))).

(** Every descriptor is taken out of the poller and of the map. *)
Definition drop_wheels k ts : K * TimeSource W :=
  foldl (λ st fd, let '(k, ts) := st in let '(k, _) := Poll_Del k (ts_poll ts) fd in (k, mkTS (ts_poll ts) (delete fd (ts_twMap ts))))
    (k, ts) (fst <$> map_to_list (ts_twMap ts)).

Definition TimeSource_Stop k ts : K * TimeSource W * option errno :=
  let '(k, ts) := drop_wheels k ts in
  let '(k, p, err) := Poll_Close k (ts_poll ts) in (k, mkTS p (ts_twMap ts), err).

(** The callback of the poller; [None] is the panic of a call on a nil wheel. *)
Definition TimeSource_handler k ts (fd event : Z) : option (K * TimeSource W) :=
  if negb (fd =? 0) then
    let '(k, _, _, _) := sys_read k fd 8 in
    match ts_twMap ts !! fd with
    | Some tw => Some (k, mkTS (ts_poll ts) (<[fd := OnTimeOut tw]> (ts_twMap ts)))
    | None => let '(k, _) := Poll_Del k (ts_poll ts) fd in None
    end
  else if event =? EventStop then Some (drop_wheels k ts)
  else Some (k, ts).

End TimeSource.

(** ** kqueue registration *)

Section BsdFacts.
Context {K : Type} `{KQ : KqueueLaws K}.
Implicit Types (k : K) (p : BsdPoll).

Definition registered k p (fd : Z) : bool * bool := (k_filter k (bp_fd p) fd EVFILT_READ, k_filter k (bp_fd p) fd EVFILT_WRITE).

Lemma registered_change k p c e k' : sys_kchange k (bp_fd p) c = (k', e) →
  (∀ fd, fd ≠ kc_ident c → registered k' p fd = registered k p fd) ∧
  (kc_filter c = EVFILT_READ → registered k' p (kc_ident c) =
     (match e with None => match kc_flag c with EV_ADD => true | EV_DELETE => false end | Some _ => (registered k p (kc_ident c)).1 end, (registered k p (kc_ident c)).2)) ∧
  (kc_filter c = EVFILT_WRITE → registered k' p (kc_ident c) =
     ((registered k p (kc_ident c)).1, match e with None => match kc_flag c with EV_ADD => true | EV_DELETE => false end | Some _ => (registered k p (kc_ident c)).2 end)).
Proof.
  intros E. pose proof (kchange_this k (bp_fd p) c) as Ht. pose proof (kchange_other k (bp_fd p) c) as Ho. rewrite E in Ht, Ho. cbn [fst] in Ho. unfold registered.
  split_and!.
  - intros fd Hne. rewrite !Ho by congruence. done.
  - intros Hf. rewrite Hf in Ht. rewrite Ht, Ho by (rewrite Hf; unfold EVFILT_READ, EVFILT_WRITE; congruence). cbn [fst snd]. done.
  - intros Hf. rewrite Hf in Ht. rewrite Ht, Ho by (rewrite Hf; unfold EVFILT_READ, EVFILT_WRITE; congruence). cbn [fst snd]. done.
Qed.

(** On BSD, [AddReadWrite] that succeeds registers both filters of the descriptor and [Del] that
    succeeds removes both, and no call touches another descriptor.  But [Del] of a descriptor that is only
    read from fails, with [ENOENT], and leaves it registered: the change of the write filter comes
    first, and fails. *)
Theorem bsd_registration k p fd :
  (let '(k', e) := Bsd_AddReadWrite k p fd in
   (e = None → registered k' p fd = (true, true)) ∧ (∀ fd', fd' ≠ fd → registered k' p fd' = registered k p fd')) ∧
  (let '(k', e) := Bsd_Del k p fd in
   (e = None → registered k' p fd = (false, false)) ∧ (∀ fd', fd' ≠ fd → registered k' p fd' = registered k p fd') ∧
   (registered k p fd = (true, false) → e = Some ENOENT ∧ registered k' p fd = (true, false))).
Proof.
  split.
  - unfold Bsd_AddReadWrite. cbn [sys_kevent]. destruct (sys_kchange k (bp_fd p) _) as [k1 e1] eqn:E1. destruct (registered_change _ _ _ _ _ E1) as (O1 & R1 & _).
    cbn [kc_ident kc_filter kc_flag] in O1, R1. specialize (R1 eq_refl). destruct e1 as [e1|]; [by split|].
    destruct (sys_kchange k1 (bp_fd p) _) as [k2 e2] eqn:E2. destruct (registered_change _ _ _ _ _ E2) as (O2 & _ & W2). cbn [kc_ident kc_filter kc_flag] in O2, W2. specialize (W2 eq_refl).
    destruct e2 as [e2|]; (split; [|intros fd' Hne; by rewrite O2, O1]); [done|]. intros _. rewrite W2, R1. done.
  - unfold Bsd_Del. cbn [sys_kevent]. pose proof (kchange_delete k (bp_fd p) (mkChange fd EV_DELETE EVFILT_WRITE) eq_refl) as Hdel. cbn [kc_ident kc_filter] in Hdel.
    destruct (sys_kchange k (bp_fd p) _) as [k1 e1] eqn:E1. destruct (registered_change _ _ _ _ _ E1) as (O1 & _ & W1). cbn [kc_ident kc_filter kc_flag] in O1, W1. specialize (W1 eq_refl).
    destruct e1 as [e1|].
    + split; [done|]. split; [done|]. intros Hr. rewrite W1, Hr. split; [|done]. cbn [snd] in Hdel. apply Hdel. by injection Hr.
    + destruct (sys_kchange k1 (bp_fd p) _) as [k2 e2] eqn:E2. destruct (registered_change _ _ _ _ _ E2) as (O2 & R2 & _). cbn [kc_ident kc_filter kc_flag] in O2, R2. specialize (R2 eq_refl).
      assert (registered k p fd ≠ (true, false)) as Hnr by (intros Hr; cbn [snd] in Hdel; discriminate (Hdel ltac:(by injection Hr))).
      destruct e2 as [e2|]; (split; [|split; [intros fd' Hne; by rewrite O2, O1|done]]); [done|]. intros _. rewrite R2, W1. done.
Qed.

End BsdFacts.

(** A poll wait of 100 milliseconds is a timeout of 100 microseconds. *)
Example bsd_poll_wait : bp_wait (Bsd_SetPollWait (mkBsdPoll 0 3 None) 100) = Some (0, 100000).
Proof. reflexivity. Qed.

(** The idle event of the Linux poller is never given. *)
Lemma bsd_no_idle evs : Forall (λ cb, cb.1 = 0 → cb.2 ≠ EventIdle) (bsd_batch evs).1.
Proof.
  induction evs as [|e evs IH]; cbn [bsd_batch]; [constructor|]. destruct (Z.eqb_spec (ke_ident e) 0); cbn [negb].
  - destruct (Z.land (ke_data e) 255 =? 0); [by repeat constructor|]. destruct (bsd_batch evs). by constructor.
  - destruct (bsd_batch evs). constructor; [done|exact IH].
Qed.

(** ** The vectored flush on BSD *)

Section BsdFlushFacts.
Context {K : Type} `{KL : KernelLaws K}.
Implicit Types (k : K) (d : Dialer).

(** A socket that takes every buffer as a whole. *)
Definition takes_all (k : K) (fd : Z) (bufs : list (list Z)) : Prop :=
  ∀ pos last, ∃ k' last', write_bufs k fd bufs pos last = (k', inl (pos + len bufs, last')).

Lemma flushVec_full_panics k d now : (length (d_bufs d) ≤ 512)%nat → takes_all k (d_fd d) (d_bufs d) → Bsd_flushVec k d now = None.
Proof.
  intros Hl Ht. unfold Bsd_flushVec. rewrite take_ge by lia. destruct (Ht 0 0) as (k' & last' & ->). cbn [Z.add].
  unfold index. rewrite Z.add_0_l. replace (0 <=? len (d_bufs d)) with true by lia. rewrite Nat2Z.id, lookup_ge_None_2 by lia. done.
Qed.

(** A socket that is full on the first write. *)
Lemma flushVec_again_panics k d now b bufs k' n : d_bufs d = b :: bufs → sys_write k (d_fd d) b = (k', n, Some EAGAIN) → Bsd_flushVec k d now = None.
Proof.
  intros Hb Hw. pose proof (sys_write_ok k (d_fd d) b) as Hk. rewrite Hw in Hk. destruct Hk as (_ & _ & -> & _). unfold Bsd_flushVec. rewrite Hb.
  replace (Z.to_nat (Z.min 512 (len (b :: bufs)))) with (S (Z.to_nat (Z.min 512 (len (b :: bufs))) - 1)) by (cbn [length]; lia).
  cbn [take write_bufs]. rewrite Hw, bool_decide_eq_true_2 by done. change (index (b :: bufs) 0) with (Some b). cbn [mbind option_bind].
  destruct (Z.ltb_spec (-1) (len b)); [done|lia].
Qed.

End BsdFlushFacts.

(** ** The time sources *)

(** A tick of the BSD time source serves exactly the wheels that are registered and due, and notes
    the time for these only; wheels that were removed are forgotten. *)
Theorem bsd_tick_serves_due ts ms id :
  let '(ts', fired) := BsdTS_tick ts ms in
  (id ∈ fired ↔ ∃ last interval, bts_pet ts !! id = Some last ∧ bts_twMap ts !! id = Some interval ∧ interval ≤ ms - last) ∧
  bts_pet ts' !! id = match bts_pet ts !! id, bts_twMap ts !! id with
                      | Some last, Some interval => Some (if interval <=? ms - last then ms else last)
                      | _, _ => None
                      end.
Proof.
  cbn [BsdTS_tick]. split.
  - rewrite elem_of_dom. split.
    + intros [last E]. apply map_lookup_filter_Some in E as [E Hd]. unfold due in Hd. cbn in Hd. destruct (bts_twMap ts !! id) as [iv|]; [|done].
      exists last, iv. split; [done|]. split; [done|lia].
    + intros (last & iv & E & Et & Hd). exists last. apply map_lookup_filter_Some. split; [done|]. unfold due. cbn. rewrite Et. lia.
  - cbn. rewrite map_lookup_imap. unfold due. destruct (bts_pet ts !! id) as [last|], (bts_twMap ts !! id) as [iv|]; done.
Qed.

(** A wheel of a second: on Linux its interval is in nanoseconds, and here it is compared
    with milliseconds, so that it is not served within a day. *)
Example bsd_interval_unit :
  let '(ts, id) := BsdTS_AddTimerWheel (mkBsdTS 100 0 ∅ ∅) 1000000000 0 in (BsdTS_tick ts 86400000).2 = ∅.
Proof. vm_compute. reflexivity. Qed.

Lemma nanos_spec interval : 0 ≤ interval → let '(s, ns) := nanos interval in s * 1000000000 + ns = interval ∧ 0 ≤ ns < 1000000000.
Proof.
  intros Hi. unfold nanos. rewrite Z.quot_div_nonneg, Z.rem_mod_nonneg by lia. pose proof (Z.div_mod interval 1000000000 ltac:(lia)).
  pose proof (Z.mod_pos_bound interval 1000000000 ltac:(lia)). lia.
Qed.

Section TimeSourceFacts.
Context {K W : Type} `{!Kernel K, !Epoll K, !Timerfd K} (GetFD : W → Z) (OnTimeOut : W → W).

(** An event of a wheel that was removed in the same round of the poller is a call on nil. *)
Lemma removed_wheel_panics (k k' : K) (ts : TimeSource W) (tw : W) ev : GetFD tw ≠ 0 →
  TimeSource_handler OnTimeOut k' (DelTimerWheel GetFD k ts tw).2 (GetFD tw) ev = None.
Proof.
  intros Hne. unfold DelTimerWheel. destruct (Poll_Del _ _ _) as [k1 e1]. unfold TimeSource_handler. replace (GetFD tw =? 0) with false by lia. cbn [negb snd ts_twMap ts_poll].
  destruct (sys_read _ _ _) as [[[k2 d2] n2] e2]. rewrite lookup_delete_eq. by destruct (Poll_Del _ _ _).
Qed.

End TimeSourceFacts.

(** ** Witness: a kqueue as the set of its filters *)

#[local] Instance test_Kqueue : Kqueue (gset (Z * Z)) := {
  sys_kchange k kq c :=
    match kc_flag c with
    | EV_ADD => ({[ (kc_ident c, kc_filter c) ]} ∪ k, None)
    | EV_DELETE => if bool_decide ((kc_ident c, kc_filter c) ∈ k) then (k ∖ {[ (kc_ident c, kc_filter c) ]}, None) else (k, Some ENOENT)
    end;
  k_filter k kq fd f := bool_decide ((fd, f) ∈ k);
}.

#[local] Instance test_KqueueLaws : KqueueLaws (gset (Z * Z)).
Proof.
  split.
  - intros k kq c fd f Hne. cbn. apply bool_decide_ext. destruct (kc_flag c); [set_solver|]. case_bool_decide; set_solver.
  - intros k kq c. cbn. destruct (kc_flag c); [apply bool_decide_eq_true; set_solver|]. case_bool_decide as E; [apply bool_decide_eq_false; set_solver|].
    by apply bool_decide_eq_false.
  - intros k kq c Hf Hn. cbn in *. by rewrite Hf, Hn.
Defined.

Lemma bsd_registration_witness :
  let k : gset (Z * Z) := {[ (5, EVFILT_READ) ]} in
  let p := mkBsdPoll 0 3 None in
  (let '(k', e) := Bsd_AddReadWrite k p 5 in
   (e = None → registered k' p 5 = (true, true)) ∧ (∀ fd', fd' ≠ 5 → registered k' p fd' = registered k p fd')) ∧
  (let '(k', e) := Bsd_Del k p 5 in
   (e = None → registered k' p 5 = (false, false)) ∧ (∀ fd', fd' ≠ 5 → registered k' p fd' = registered k p fd') ∧
   (registered k p 5 = (true, false) → e = Some ENOENT ∧ registered k' p 5 = (true, false))).
Proof. intros k p. apply (bsd_registration k p 5). Defined.
