(* ===== verification/BsdPoll.v ===== *)
(** * internal/poll_bsd.go: opening, running and stopping a poller on kqueue

    [Trigger] and [Close] wake the poller with a user event, which carries the command in its data.
    There is one such event: a trigger that comes before the poller has collected the last one
    replaces its data.  The goroutine in [Poll] and those that call [Trigger] and [Close] are
    steps that interleave, as in PollLoop.v. *)

From stdpp Require Import relations.
From S2P Require Import Prelude Pool Tuning WriteQueue RingBuffer Conn Poller Dialer Bsd.

Definition EVFILT_USER : Z := -10.
Definition CmdStop : Z := 0.

Section Open.
Context {K : Type} `{!Kernel K, !Kqueue K}.

(** [kq] is the answer of kqueue(2); [None] is nil. *)
Definition Bsd_OpenPoll (k : K) (id : Z) (kq : Z + errno) : K * option BsdPoll :=
  match kq with
  | inr _ => (k, None)
  | inl fd =>
      let '(k, err) := sys_kevent k fd [mkChange 0 EV_ADD EVFILT_USER] in
      match err with
      | Some _ => ((sys_close k fd).1, None)
      | None => (k, Some (mkBsdPoll id fd None))
      end
  end.
End Open.

(** ** Running and stopping *)

Inductive bsd_pc := BWait | BBatch (evs : list kevent) (n : Z) | BDone.
Inductive bsd_close := BIdle | BWaiting | BReturned.

Record BsdSys := mkBS {
  bs_pc : bsd_pc; bs_close : bsd_close;
  bs_user : option Z;                     (* the data of the user event, while it is triggered *)
  bs_size : Z; bs_full : Z;               (* the length of [evs], and [full] *)
  bs_cbs : list (Z * Z);                  (* the callbacks so far *)
  bs_open : bool;                         (* the descriptor is open *)
}.

Definition bs_init : BsdSys := mkBS BWait BIdle None PollInitSize 0 [] true.

Definition user_event (data : Z) : kevent := mkKevent 0 EVFILT_USER false data.

(** What [Kevent] answers: at most as many events as fit; among them the user event, with its data
    and once, exactly if it is triggered. *)
Definition kevent_answer (s : BsdSys) (evs : list kevent) : Prop :=
  len evs ≤ bs_size s ∧ filter (λ e, ke_ident e = 0) evs = match bs_user s with Some d => [user_event d] | None => [] end.

(** A step of the goroutine of [Poll]; the user event is cleared when it is collected. *)
Inductive bsd_step : BsdSys → BsdSys → Prop :=
| BS_wait s evs : bs_pc s = BWait → kevent_answer s evs →
    bsd_step s (mkBS (BBatch evs (len evs)) (bs_close s) None (bs_size s) (bs_full s) (bs_cbs s) (bs_open s))
| BS_event s e evs n : bs_pc s = BBatch (e :: evs) n → ke_ident e ≠ 0 →
    bsd_step s (mkBS (BBatch evs n) (bs_close s) (bs_user s) (bs_size s) (bs_full s) (bs_cbs s ++ [(ke_ident e, bsd_decode e)]) (bs_open s))
| BS_wake s e evs n : bs_pc s = BBatch (e :: evs) n → ke_ident e = 0 → Z.land (ke_data e) 255 ≠ CmdStop →
    bsd_step s (mkBS (BBatch evs n) (bs_close s) (bs_user s) (bs_size s) (bs_full s) (bs_cbs s ++ [(0, EventNone)]) (bs_open s))
| BS_stop s e evs n : bs_pc s = BBatch (e :: evs) n → ke_ident e = 0 → Z.land (ke_data e) 255 = CmdStop →
    bsd_step s (mkBS BDone (bs_close s) (bs_user s) (bs_size s) (bs_full s) (bs_cbs s ++ [(0, EventStop)]) false)
| BS_next s n : bs_pc s = BBatch [] n →
    bsd_step s (mkBS BWait (bs_close s) (bs_user s) (poll_resize (bs_size s) (bs_full s) n).1 (poll_resize (bs_size s) (bs_full s) n).2
      (bs_cbs s) (bs_open s)).

(** A wait that collects nothing: interrupted, or failed. *)
Inductive bsd_unlucky : BsdSys → BsdSys → Prop :=
| BU_intr s : bs_pc s = BWait →
    bsd_unlucky s (mkBS (BBatch [] (-1)) (bs_close s) (bs_user s) (bs_size s) (bs_full s) (bs_cbs s) (bs_open s))
| BU_error s : bs_pc s = BWait → bsd_unlucky s s.

Definition Bsd_Trigger (s : BsdSys) (cmd : Z) : BsdSys :=
  mkBS (bs_pc s) (bs_close s) (if bs_open s then Some cmd else bs_user s) (bs_size s) (bs_full s) (bs_cbs s) (bs_open s).

Definition bs_set_close (s : BsdSys) (c : bsd_close) : BsdSys :=
  mkBS (bs_pc s) c (bs_user s) (bs_size s) (bs_full s) (bs_cbs s) (bs_open s).

(** [Trigger] as the loops call it, and [Close]: the trigger, which fails once the descriptor is closed, and
    the wait for the poller. *)
Inductive bsd_other : BsdSys → BsdSys → Prop :=
| BO_trigger s : bsd_other s (Bsd_Trigger s CmdUser)
| BO_close s : bs_close s = BIdle → bsd_other s (bs_set_close (Bsd_Trigger s CmdStop) (if bs_open s then BWaiting else BReturned))
| BO_return s : bs_close s = BWaiting → bs_pc s = BDone → bsd_other s (bs_set_close s BReturned).

Definition bsd_sys_step (s s' : BsdSys) : Prop := bsd_step s s' ∨ bsd_unlucky s s' ∨ bsd_other s s'.

(** ** Callbacks of a batch *)

(** The steps through a batch make the callbacks of [bsd_batch]. *)
Lemma bsd_batch_steps evs : ∀ s n, bs_pc s = BBatch evs n →
  ∃ s', rtc bsd_step s s' ∧ bs_cbs s' = bs_cbs s ++ (bsd_batch evs).1 ∧ bs_close s' = bs_close s ∧
    bs_pc s' = if (bsd_batch evs).2 then BDone else BBatch [] n.
Proof.
  induction evs as [|e evs IH]; intros s n Hpc; cbn [bsd_batch].
  { exists s. split; [done|]. by rewrite app_nil_r. }
  destruct (Z.eqb_spec (ke_ident e) 0) as [He|He]; cbn [negb].
  - destruct (Z.eqb_spec (Z.land (ke_data e) 255) 0) as [Hd|Hd].
    { eexists. split; [by eapply rtc_once, BS_stop|]. done. }
    destruct (IH (mkBS (BBatch evs n) (bs_close s) (bs_user s) (bs_size s) (bs_full s) (bs_cbs s ++ [(0, EventNone)]) (bs_open s)) n eq_refl)
      as (s' & Hs & Hc & Hk & Hp). destruct (bsd_batch evs) as [cbs stop]. exists s'. split; [by eapply rtc_l; [by eapply BS_wake|]|].
    cbn in *. by rewrite Hc, <-app_assoc.
  - destruct (IH (mkBS (BBatch evs n) (bs_close s) (bs_user s) (bs_size s) (bs_full s) (bs_cbs s ++ [(ke_ident e, bsd_decode e)]) (bs_open s)) n eq_refl)
      as (s' & Hs & Hc & Hk & Hp). destruct (bsd_batch evs) as [cbs stop]. exists s'. split; [by eapply rtc_l; [by eapply BS_event|]|].
    cbn in *. by rewrite Hc, <-app_assoc.
Qed.

(** ** Stopping *)

Definition is_stop (e : kevent) : bool := (ke_ident e =? 0) && (Z.land (ke_data e) 255 =? CmdStop).

(** The stop is on its way: triggered, or collected and not reached yet, or done. *)
Definition triggered (s : BsdSys) : bool := match bs_user s with Some d => Z.land d 255 =? CmdStop | None => false end.
Definition collected (pc : bsd_pc) : bool := match pc with BBatch evs _ => existsb is_stop evs | BDone => true | BWait => false end.
Definition stopping (s : BsdSys) : bool := triggered s || collected (bs_pc s).

Lemma answer_stop s evs : kevent_answer s evs → existsb is_stop evs = triggered s.
Proof.
  intros [_ Ha]. unfold triggered. transitivity (existsb is_stop (filter (λ e, ke_ident e = 0) evs)).
  - clear Ha. induction evs as [|e evs IH]; [done|]. rewrite list.filter_cons. cbn [existsb]. unfold is_stop at 1.
    destruct (Z.eqb_spec (ke_ident e) 0) as [He|He]; cbn [andb]; case_decide; try done. cbn [existsb]. unfold is_stop at 2.
    by rewrite He, IH.
  - rewrite Ha. destruct (bs_user s) as [d|]; [|done]. cbn. by rewrite orb_false_r.
Qed.

(** The poller itself neither loses a stop nor makes one up. *)
Lemma bsd_step_stopping s s' : bsd_step s s' → stopping s' = stopping s.
Proof.
  unfold stopping, triggered. destruct 1 as [s evs E Ha|s e evs n E He|s e evs n E He Hd|s e evs n E He Hd|s n E]; rewrite E; cbn.
  - rewrite (answer_stop _ _ Ha), orb_false_r. done.
  - unfold is_stop at 2. by rewrite (proj2 (Z.eqb_neq _ _) He).
  - unfold is_stop at 2. by rewrite (proj2 (Z.eqb_neq _ _) Hd), andb_false_r.
  - unfold is_stop at 1. rewrite He, Hd. cbn. by rewrite !orb_true_r.
  - done.
Qed.

(** The steps left once the stop is on its way. *)
Definition to_stop (s : BsdSys) : Z :=
  match bs_pc s with
  | BDone => 0
  | BBatch evs _ => len evs + if existsb is_stop evs then 0 else PollMaxSize + 2
  | BWait => PollMaxSize + 1
  end.

Lemma size_max (z : Z) : z ∈ [1024; 2048; 4096; 8192] → z ≤ PollMaxSize.
Proof. unfold PollMaxSize. set_unfold. lia. Qed.

Lemma bsd_step_size s s' : bsd_step s s' → bs_size s ∈ [1024; 2048; 4096; 8192] → bs_size s' ∈ [1024; 2048; 4096; 8192].
Proof. destruct 1; cbn; try done. apply poll_resize_bounds. Qed.

Lemma bsd_step_closer s s' : bsd_step s s' → bs_size s ∈ [1024; 2048; 4096; 8192] → stopping s = true → 0 ≤ to_stop s' < to_stop s.
Proof.
  intros H Hsz%size_max Hs. unfold to_stop, stopping, PollMaxSize in *.
  destruct H as [s evs E Ha|s e evs n E He|s e evs n E He Hd|s e evs n E He Hd|s n E]; rewrite E in *; cbn [bs_pc].
  - rewrite (answer_stop _ _ Ha). cbn [collected] in Hs. rewrite orb_false_r in Hs. rewrite Hs. destruct Ha as [Hl _]. lia.
  - cbn [existsb length]. assert (is_stop e = false) as -> by (unfold is_stop; by rewrite (proj2 (Z.eqb_neq _ _) He)). cbn [orb].
    destruct (existsb is_stop evs); lia.
  - cbn [existsb length]. assert (is_stop e = false) as -> by (unfold is_stop; by rewrite (proj2 (Z.eqb_neq _ _) Hd), andb_false_r). cbn [orb].
    destruct (existsb is_stop evs); lia.
  - cbn [existsb length]. case_match; lia.
  - cbn. lia.
Qed.

(** A stop that is on its way ends the poller, if no other wake comes in between: the goroutine of
    [Poll] can always go on until it has returned, it makes at most [PollMaxSize] steps
    per event array plus a few until then, and its last callback is [EventStop]. *)
Theorem bsd_stop_ends_poller n s s' : stopping s = true → bs_size s ∈ [1024; 2048; 4096; 8192] → nsteps bsd_step n s s' →
  Z.of_nat n ≤ to_stop s ∧ (bs_pc s' = BDone ∨ ∃ s'', bsd_step s' s'') ∧
  (bs_pc s' = BDone → (0 < n)%nat → ∃ cbs, bs_cbs s' = cbs ++ [(0, EventStop)]).
Proof.
  intros Hs Hz Hn. assert (Z.of_nat n + to_stop s' ≤ to_stop s ∧ stopping s' = true ∧ bs_size s' ∈ [1024; 2048; 4096; 8192] ∧ 0 ≤ to_stop s') as (Hb & Hs' & Hz' & H0).
  { clear - Hs Hz Hn. induction Hn as [s|n s1 s2 s3 H12 _ IH].
    - split_and!; try done. unfold to_stop, PollMaxSize. destruct (bs_pc s); [lia| |lia]. destruct (existsb _ _); lia.
    - pose proof (bsd_step_closer _ _ H12 Hz Hs). destruct IH as (Hb & ? & ? & ?); [by rewrite (bsd_step_stopping _ _ H12)|by eapply bsd_step_size|].
      split_and!; try done. lia. }
  split; [lia|]. split.
  - destruct (bs_pc s') as [|[|e evs] k|] eqn:E; [right| |right|by left].
    + pose proof (size_max _ Hz') as Hm. exists (mkBS (BBatch (match bs_user s' with Some d => [user_event d] | None => [] end)
        (len (match bs_user s' with Some d => [user_event d] | None => [] end))) (bs_close s') None (bs_size s') (bs_full s') (bs_cbs s') (bs_open s')).
      apply BS_wait; [done|]. split; [|by destruct (bs_user s')]. assert (1024 ≤ bs_size s') by (clear -Hz'; set_unfold; lia).
      destruct (bs_user s'); cbn; lia.
    + right. eexists. by eapply BS_next.
    + destruct (Z.eq_dec (ke_ident e) 0) as [He|He]; [|eexists; by eapply BS_event].
      destruct (Z.eq_dec (Z.land (ke_data e) 255) CmdStop); eexists; [by eapply BS_stop|by eapply BS_wake].
  - intros E Hpos. destruct n as [|n]; [lia|]. apply nsteps_inv_r in Hn as (s1 & _ & H1).
    destruct H1; cbn in E; try congruence. by eexists.
Qed.

(** The stop is lost: [Close] waits, and no stop is on its way. *)
Definition stop_lost (s : BsdSys) : Prop := bs_close s = BWaiting ∧ stopping s = false.

Lemma lost_stays s s' : stop_lost s → bsd_sys_step s s' → stop_lost s'.
Proof.
  intros [Hc Hs] [H|[H|H]].
  - split; [by destruct H|]. by rewrite (bsd_step_stopping _ _ H).
  - unfold stop_lost, stopping, triggered in *. by destruct H as [s E|s E]; rewrite ?E in *.
  - unfold stop_lost, stopping, triggered in *. destruct H as [s|s E|s E Ed]; [|congruence|rewrite Ed, orb_true_r in Hs; done].
    split; [done|]. cbn. destruct (bs_open s); [|done]. by apply orb_false_iff in Hs as [_ ->].
Qed.

(** A wake of another goroutine that comes after that of [Close] and before the poller collects it
    replaces the stop: [Close] never returns, and the poller never ends. *)
Theorem bsd_close_can_hang : ∃ s, rtc bsd_sys_step bs_init s ∧ bs_close s = BWaiting ∧
  ∀ s', rtc bsd_sys_step s s' → bs_close s' = BWaiting ∧ bs_pc s' ≠ BDone.
Proof.
  exists (mkBS BWait BWaiting (Some CmdUser) PollInitSize 0 [] true). split_and!; [|done|].
  - eapply rtc_l; [right; right; apply (BO_close bs_init eq_refl)|]. eapply rtc_once. right. right. apply BO_trigger.
  - intros s' Hs. assert (stop_lost s') as [Hc Hl].
    { assert (stop_lost (mkBS BWait BWaiting (Some CmdUser) PollInitSize 0 [] true)) as H0 by done.
      revert H0. induction Hs as [|x y z Hxy _ IH]; [done|]. intros Hx. by eapply IH, lost_stays. }
    split; [done|]. intros E. unfold stopping in Hl. rewrite E, orb_true_r in Hl. done.
Qed.

(** ** Witness *)

Lemma bsd_stop_ends_poller_witness :
  let s := Bsd_Trigger bs_init CmdStop in
  ∃ s', nsteps bsd_step 2 s s' ∧ Z.of_nat 2 ≤ to_stop s ∧ (bs_pc s' = BDone ∨ ∃ s'', bsd_step s' s'') ∧
    (bs_pc s' = BDone → (0 < 2)%nat → ∃ cbs, bs_cbs s' = cbs ++ [(0, EventStop)]).
Proof.
  intros s. assert (∃ s', nsteps bsd_step 2 s s') as [s' Hs].
  { eexists. eapply nsteps_l; [apply (BS_wait s [user_event CmdStop] eq_refl); by split; vm_compute|].
    eapply nsteps_l; [by eapply BS_stop|]. constructor. }
  exists s'. split; [exact Hs|]. apply (bsd_stop_ends_poller 2 s s'); [reflexivity|vm_compute; by left|exact Hs].
Defined.
