(* ===== verification/Ktlscheck.v ===== *)
(** * cmd/ktlscheck: the end-to-end check of kernel TLS

    The loops of the tool that move bytes over a connection, written against the interface
    [EngineConn], and the two sides of its conversation once the connection is set up.  A loop
    that waits for the socket takes fuel: [Wait] says that it is still waiting.  The
    certificate, the set-up of the sockets and what is printed are not modelled, times and
    percentiles neither. *)

From stdpp Require Import strings.
From S2P Require Import Prelude Text Pool Tuning WriteQueue RingBuffer Conn EngineConn.

(** ** The tool's effects *)

Inductive CheckErr := Errno (e : errno) | Stalled | PayloadMismatch | ReplyMismatch | NotTls.

Inductive res (A : Type) := Wait | Failed (e : CheckErr) | Done (a : A).
Arguments Wait {A}. Arguments Failed {A} _. Arguments Done {A} _.

Section Tool.
Context {P K C : Type} `{!EngineConn P K C}.

Notation world := (P * K * C)%type.

(** [None] is a panic. *)
Definition tool (A : Type) : Type := world → option (world * res A).

#[global] Instance tool_ret : MRet tool := λ A a w, Some (w, Done a).
#[global] Instance tool_bind : MBind tool := λ A B f m w,
  match m w with
  | None => None
  | Some (w, Wait) => Some (w, Wait)
  | Some (w, Failed e) => Some (w, Failed e)
  | Some (w, Done a) => f a w
  end.

Definition wait {A} : tool A := λ w, Some (w, Wait).
Definition fail {A} (e : CheckErr) : tool A := λ w, Some (w, Failed e).
Definition of_opt {A} (o : option A) : tool A := λ w, a ← o; Some (w, Done a).

Definition Read (n : Z) : tool (list Z * Z * option errno) := λ '(pool, k, c),
  let '(k, c, d, (n, e)) := ec_Read k c n in Some ((pool, k, c), Done (d, n, e)).
Definition Write (b : list Z) : tool (Z * option errno) := λ '(pool, k, c),
  let '(k, c, (n, e)) := ec_Write k c b in Some ((pool, k, c), Done (n, e)).
Definition FlushN (m : Z) : tool (Z * option errno) := λ '(pool, k, c),
  '(pool, k, c, (n, e)) ← ec_FlushN pool k c m; Some ((pool, k, c), Done (n, e)).
Definition PendingWrite : tool Z := λ '(pool, k, c), Some ((pool, k, c), Done (ec_PendingWrite c)).

(** ** Reading and writing *)

(** [for c.PendingWrite() > 0] *)
Fixpoint flush_pending (fuel : nat) (max : Z) : tool unit :=
  match fuel with
  | O => wait
  | S fuel =>
      p ← PendingWrite;
      if p <=? 0 then mret tt
      else
        '(nf, ferr) ← FlushN max;
        match ferr with
        | Some EAGAIN => flush_pending fuel max
        | Some e => fail (Errno e)
        | None => if nf =? 0 then fail Stalled else flush_pending fuel max
        end
  end.

Fixpoint writeFully_loop (fuel : nat) (data : list Z) (written : Z) : tool unit :=
  match fuel with
  | O => wait
  | S fuel =>
      if len data <=? written then mret tt
      else
        b ← of_opt (slice data written (len data));
        '(n, err) ← Write b;
        match err with
        | Some EAGAIN => writeFully_loop fuel data written
        | Some e => fail (Errno e)
        | None =>
            let written := if 0 <? n then written + n else written in
            flush_pending fuel (len data - written);;
            writeFully_loop fuel data written
        end
  end.

Definition writeFully (fuel : nat) (data : list Z) : tool unit := writeFully_loop fuel data 0.
Definition writeAll (fuel : nat) (data : list Z) : tool unit := writeFully fuel data.

Fixpoint writeN_loop (fuel : nat) (remaining : Z) (chunk : list Z) : tool unit :=
  match fuel with
  | O => wait
  | S fuel' =>
      if remaining <=? 0 then mret tt
      else
        let size := if remaining <? len chunk then remaining else len chunk in
        b ← of_opt (slice chunk 0 size);
        writeFully fuel b;;
        writeN_loop fuel' (remaining - size) chunk
  end.

Definition writeN (fuel : nat) (total : Z) (chunk : list Z) : tool unit := writeN_loop fuel total chunk.

(** The buffer comes back with what was read into it. *)
Fixpoint readN_loop (fuel : nat) (remaining : Z) (buf : list Z) : tool (list Z) :=
  match fuel with
  | O => wait
  | S fuel =>
      if remaining <=? 0 then mret buf
      else
        let toRead := if remaining <? len buf then remaining else len buf in
        b ← of_opt (slice buf 0 toRead);
        '(d, n, err) ← Read (len b);
        buf ← of_opt (copy_at buf 0 d);
        match err with
        | Some EAGAIN => readN_loop fuel remaining buf
        | Some e => fail (Errno e)
        | None => if n =? 0 then readN_loop fuel remaining buf else readN_loop fuel (remaining - n) buf
        end
  end.

Definition readN (fuel : nat) (total : Z) (buf : list Z) : tool (list Z) := readN_loop fuel total buf.

Fixpoint readFull_loop (fuel : nat) (dst : list Z) (off : Z) : tool (list Z) :=
  match fuel with
  | O => wait
  | S fuel =>
      if len dst <=? off then mret dst
      else
        b ← of_opt (slice dst off (len dst));
        '(d, n, err) ← Read (len b);
        dst ← of_opt (copy_at dst off d);
        match err with
        | Some EAGAIN => readFull_loop fuel dst off
        | Some e => fail (Errno e)
        | None => if n =? 0 then readFull_loop fuel dst off else readFull_loop fuel dst (off + n)
        end
  end.

Definition readFull (fuel : nat) (dst : list Z) : tool (list Z) := readFull_loop fuel dst 0.

(** ** The conversation *)

Record benchConfig := mkBench { b_enabled : bool; b_bytes : Z; b_chunk : Z; b_iters : Z; b_msgSize : Z }.

Definition bytes_repeat (b n : Z) : list Z := replicate (Z.to_nat n) b.

Definition serverThroughput (fuel : nat) (bench : benchConfig) : tool unit :=
  if (b_bytes bench <=? 0) || (b_chunk bench <=? 0) then mret tt
  else readN fuel (b_bytes bench) (bytes_repeat 0 (b_chunk bench));; mret tt.

Definition clientThroughput (fuel : nat) (bench : benchConfig) : tool unit :=
  if (b_bytes bench <=? 0) || (b_chunk bench <=? 0) then mret tt
  else writeN fuel (b_bytes bench) (bytes_repeat 116 (b_chunk bench)).

Fixpoint server_rounds (fuel iters : nat) (buf : list Z) : tool unit :=
  match iters with
  | O => mret tt
  | S iters => buf ← readFull fuel buf; writeAll fuel buf;; server_rounds fuel iters buf
  end.

Definition serverLatency (fuel : nat) (bench : benchConfig) : tool unit :=
  if (b_iters bench <=? 0) || (b_msgSize bench <=? 0) then mret tt
  else server_rounds fuel (Z.to_nat (b_iters bench)) (bytes_repeat 0 (b_msgSize bench)).

Fixpoint client_rounds (fuel iters : nat) (msg resp : list Z) : tool unit :=
  match iters with
  | O => mret tt
  | S iters => writeAll fuel msg;; resp ← readFull fuel resp; client_rounds fuel iters msg resp
  end.

Definition clientLatency (fuel : nat) (bench : benchConfig) : tool unit :=
  if (b_iters bench <=? 0) || (b_msgSize bench <=? 0) then mret tt
  else client_rounds fuel (Z.to_nat (b_iters bench)) (bytes_repeat 108 (b_msgSize bench)) (bytes_repeat 0 (b_msgSize bench)).

(** Up to the first zero byte. *)
Definition normalizeSockoptString (s : list Z) : list Z :=
  let idx := IndexByte s 0 in if 0 <=? idx then take (Z.to_nat idx) s else s.

Fixpoint charsToString (ca : list Z) : list Z :=
  match ca with
  | [] => []
  | x :: ca => if x =? 0 then [] else wrapU 8 x :: charsToString ca
  end.

(** [ulp] is what getsockopt answers. *)
Definition checkULP (ulp : errno + list Z) : tool unit :=
  match ulp with
  | inl e => fail (Errno e)
  | inr s => if bool_decide (normalizeSockoptString s = str "tls") then mret tt else fail NotTls
  end.

(** The conversation of [runServer], on a connection that is set up. *)
Definition runServer (fuel : nat) (ulp : errno + list Z) (payload reply : list Z) (bench : benchConfig) : tool unit :=
  checkULP ulp;;
  buf ← readFull fuel (bytes_repeat 0 (len payload));
  if negb (bool_decide (buf = payload)) then fail PayloadMismatch
  else
    writeAll fuel reply;;
    if b_enabled bench then serverThroughput fuel bench;; serverLatency fuel bench else mret tt.

Definition runClient (fuel : nat) (ulp : errno + list Z) (payload reply : list Z) (bench : benchConfig) : tool unit :=
  checkULP ulp;;
  writeAll fuel payload;;
  buf ← readFull fuel (bytes_repeat 0 (len reply));
  if negb (bool_decide (buf = reply)) then fail ReplyMismatch
  else if b_enabled bench then clientThroughput fuel bench;; clientLatency fuel bench else mret tt.
End Tool.

(** ** What the loops do to the streams *)

Section Spec.
Context {P K C : Type} `{AL : AllocatorLaws P, !Kernel K, !EngineConn P K C, !EngineConnLaws P K C}.

Notation world := (P * K * C)%type.
Notation tool := (tool (P := P) (K := K) (C := C)).

(** An open connection with an empty write queue. *)
Definition good (w : world) : Prop :=
  let '(pool, k, c) := w in al_inv pool ∧ ec_wf c ∧ v_fd (ec_view c) ≠ 0 ∧ v_unsent (ec_view c) = [].

(** [io w w' s g]: [s] was sent and [g] received on the connection, and nothing on others. *)
Record io (w w' : world) (s g : list Z) : Prop := {
  io_good : good w';
  io_step : conn_step w.1.2 w.2 w'.1.2 w'.2 (ec_view w.2) s g;
}.

Lemma io_refl w : good w → io w w [] [].
Proof. destruct w as [[pool k] c]. intros Hg. split; [done|]. destruct Hg as (_ & Hwf & _). split; cbn; try done; by rewrite app_nil_r. Qed.

Lemma io_trans w w1 w2 s1 g1 s2 g2 : io w w1 s1 g1 → io w1 w2 s2 g2 → io w w2 (s1 ++ s2) (g1 ++ g2).
Proof.
  intros [G1 [W1 V1 S1 R1 O1]] [G2 [W2 V2 S2 R2 O2]]. split; [done|]. split; [done | by rewrite V2 | | | ].
  - by rewrite S2, S1, app_assoc.
  - by rewrite R2, R1, app_assoc.
  - intros d Hd. rewrite V1 in O2. destruct (O1 d Hd) as [<- <-]. by apply O2.
Qed.

(** The call returns, and [Q] holds of its result and of the bytes sent and received. *)
Definition spec {A} (m : tool A) (w : world) (Q : res A → list Z → list Z → Prop) : Prop :=
  ∃ w' r s g, m w = Some (w', r) ∧ io w w' s g ∧ Q r s g.

Lemma spec_pure {A} (m : tool A) w r Q : m w = Some (w, r) → good w → Q r [] [] → spec m w Q.
Proof. intros E Hg HQ. exists w, r, [], []. split_and!; [done | by apply io_refl | done]. Qed.

Lemma spec_mono {A} (m : tool A) w (Q Q' : res A → list Z → list Z → Prop) :
  spec m w Q → (∀ r s g, Q r s g → Q' r s g) → spec m w Q'.
Proof. intros (w' & r & s & g & E & Hi & HQ) HQ'. exists w', r, s, g. auto. Qed.

(** A result that ends a sequence of calls. *)
Definition stop {A} (o : option CheckErr) : res A := match o with None => Wait | Some e => Failed e end.

Lemma stop_done {A} o (a : A) : stop o ≠ Done a.
Proof. by destruct o. Qed.

Lemma spec_bind {A B} (m : tool A) (f : A → tool B) w Q1 (Q : res B → list Z → list Z → Prop) :
  spec m w Q1 → (∀ o s g, Q1 (stop o) s g → Q (stop o) s g) →
  (∀ a s g w', good w' → Q1 (Done a) s g → spec (f a) w' (λ r s' g', Q r (s ++ s') (g ++ g'))) →
  spec (m ≫= f) w Q.
Proof.
  intros (w1 & r & s & g & E & Hi & HQ) Hs Hd. unfold mbind, tool_bind. destruct r as [|e|a].
  - exists w1, Wait, s, g. rewrite E. split_and!; [done.. | by apply (Hs None)].
  - exists w1, (Failed e), s, g. rewrite E. split_and!; [done.. | by apply (Hs (Some e))].
  - destruct (Hd a s g w1) as (w2 & r & s' & g' & E' & Hi' & HQ'); [apply Hi | done |].
    exists w2, r, (s ++ s'), (g ++ g'). rewrite E. split_and!; [done | by eapply io_trans | done].
Qed.

Lemma spec_opt {A B} (o : option A) (a : A) (f : A → tool B) w Q : o = Some a → spec (f a) w Q → spec (of_opt o ≫= f) w Q.
Proof. by intros ->. Qed.

(** Reads and writes that always make progress. *)
Definition live : Prop := ∀ k c, ec_wf c → v_fd (ec_view c) ≠ 0 →
  (∀ n, 0 < n → let '(_, _, d, (_, e)) := ec_Read k c n in e = None ∧ d ≠ []) ∧
  (∀ b, b ≠ [] → let '(_, _, (n, e)) := ec_Write k c b in e = None ∧ 0 < n).

Lemma spec_Read w n : good w → spec (Read n) w (λ r s g, ∃ d n' e, r = Done (d, n', e) ∧ s = [] ∧ g = d ∧
  match e with None => n' = len d ∧ len d ≤ Z.max 0 n | Some _ => d = [] end ∧ (live → 0 < n → e = None ∧ d ≠ [])).
Proof.
  destruct w as [[pool k] c]. intros (Hp & Hwf & Hfd & Hu). pose proof (ec_Read_ok k c n Hwf Hfd) as Hc.
  assert (HL : live → 0 < n → let '(_, _, d, (_, e)) := ec_Read k c n in e = None ∧ d ≠ []) by (intros HL; by apply HL).
  unfold spec, Read. destruct (ec_Read k c n) as [[[k' c'] d] [n' e]]. destruct Hc as [Hs He].
  exists (pool, k', c'), (Done (d, n', e)), [], d. split; [done|]. split.
  - split; [|done]. destruct Hs as [W V _ _ _]. cbn. by rewrite V.
  - exists d, n', e. destruct e; naive_solver.
Qed.

Lemma spec_Write w b : good w → spec (Write b) w (λ r s g, ∃ n e, r = Done (n, e) ∧ s = take (Z.to_nat n) b ∧ g = [] ∧ n ≤ len b ∧
  match e with None => 0 ≤ n | Some _ => n ≤ 0 end ∧ (live → b ≠ [] → e = None ∧ 0 < n)).
Proof.
  destruct w as [[pool k] c]. intros (Hp & Hwf & Hfd & Hu). pose proof (ec_Write_ok k c b Hwf Hfd) as Hc.
  assert (HL : live → b ≠ [] → let '(_, _, (n, e)) := ec_Write k c b in e = None ∧ 0 < n) by (intros HL; by apply HL).
  unfold spec, Write. destruct (ec_Write k c b) as [[k' c'] [n e]]. destruct Hc as (Hs & Hn & He).
  exists (pool, k', c'), (Done (n, e)), (take (Z.to_nat n) b), []. split; [done|]. split.
  - split; [|done]. destruct Hs as [W V _ _ _]. cbn. by rewrite V.
  - by exists n, e.
Qed.

(** With an empty queue there is nothing to flush. *)
Lemma spec_flush w fuel m : good w → spec (flush_pending fuel m) w (λ r s g, s = [] ∧ g = [] ∧ r = match fuel with O => Wait | S _ => Done tt end).
Proof.
  intros Hg. destruct fuel as [|fuel]; [by eapply spec_pure|]. pose proof Hg as Hg'. destruct w as [[pool k] c].
  destruct Hg as (Hp & Hwf & Hfd & Hu). destruct (ec_observe c Hwf) as (_ & _ & _ & _ & _ & _ & Hpend).
  eapply spec_pure; [|done|done]. cbn. unfold mbind, tool_bind. cbn. by rewrite Hpend, Hu.
Qed.

(** [sends b fuel]: a prefix of [b] is sent, all of it when the loop is done, which it is when the
    writes make progress and the fuel exceeds the length. *)
Definition sends (b : list Z) (fuel : nat) (r : res unit) (s g : list Z) : Prop :=
  g = [] ∧ s `prefix_of` b ∧ (r = Done tt → s = b) ∧ (live → len b < Z.of_nat fuel → r = Done tt).

Lemma sends_more b n fuel fuel' r s g : sends (drop n b) fuel' r s g →
  (live → len b < Z.of_nat fuel → len (drop n b) < Z.of_nat fuel') → sends b fuel r (take n b ++ s) g.
Proof.
  intros (Hg & Hp & Hd & HL) Hf. split_and!; [done | | | ].
  - rewrite <- (take_drop n b) at 2. by apply prefix_app.
  - intros ->. by rewrite (Hd eq_refl), take_drop.
  - intros Hl Hlen. auto.
Qed.

Lemma sends_nothing b fuel r : r ≠ Done tt → (live → Z.of_nat fuel ≤ len b) → sends b fuel r [] [].
Proof. intros Hr HL. split_and!; [done | apply prefix_nil | done | intros Hl; specialize (HL Hl); lia]. Qed.

Lemma writeFully_loop_spec fuel data : ∀ written w, good w → 0 ≤ written ≤ len data →
  spec (writeFully_loop fuel data written) w (sends (drop (Z.to_nat written) data) fuel).
Proof.
  induction fuel as [|fuel IH]; intros written w Hg Hw; cbn [writeFully_loop].
  { eapply spec_pure; [done..|]. apply sends_nothing; [done | lia]. }
  destruct (Z.leb_spec (len data) written) as [Hle|Hlt].
  { eapply spec_pure; [done..|]. rewrite drop_ge by lia. by split_and!. }
  eapply spec_opt; [apply slice_Some; lia|]. rewrite sub_suffix by lia. set (b := drop (Z.to_nat written) data).
  assert (Hb : len b = len data - written) by (unfold b; rewrite length_drop; lia).
  eapply spec_bind; [by apply spec_Write | intros [] ? ?; naive_solver |]. intros [n e] s g w1 Hg1 (? & ? & [= <- <-] & -> & -> & Hn & He & HL).
  assert (Hlive : live → e = None ∧ 0 < n) by (intros Hl; apply HL; [done|]; intros E; rewrite E in Hb; cbn in Hb; lia).
  destruct e as [e|].
  - assert (HF : ∀ e', spec (fail e') w1 (λ r s' g', sends b (S fuel) r (take (Z.to_nat n) b ++ s') ([] ++ g'))).
    { intros e'. eapply spec_pure; [done..|]. replace (Z.to_nat n) with 0%nat by lia. apply sends_nothing; [done | naive_solver]. }
    destruct e; [ | exact (HF _)..]. eapply spec_mono; [by apply IH|]. intros r s g Hr. apply (sends_more _ _ _ fuel); [|naive_solver].
    by replace (Z.to_nat n) with 0%nat by lia.
  - eapply spec_bind; [by apply spec_flush | |].
    + intros o s g (-> & -> & E). destruct fuel; [|by destruct (stop_done o tt)]. rewrite E. rewrite app_nil_r. split_and!; [done | by apply prefix_take | done|].
      intros Hl. destruct b; [cbn in Hb; lia|]. cbn. lia.
    + intros [] s g w2 Hg2 (-> & -> & E). replace (if 0 <? n then written + n else written) with (written + n) by (destruct (Z.ltb_spec 0 n); lia).
      eapply spec_mono; [apply IH; [done | lia]|]. intros r s g Hr. cbn [app] in *. apply (sends_more _ _ _ fuel).
      * unfold b. rewrite drop_drop. by replace (Z.to_nat written + Z.to_nat n)%nat with (Z.to_nat (written + n)) by lia.
      * intros Hl Hf. destruct (Hlive Hl). rewrite length_drop. lia.
Qed.

Lemma writeFully_spec fuel data w : good w → spec (writeFully fuel data) w (sends data fuel).
Proof. intros Hg. apply (writeFully_loop_spec fuel data 0); [done | lia]. Qed.

(** [receives pre n fuel]: at most [n] bytes are received; the loop is done exactly with [n], its
    buffer then holds [pre] and the bytes received, and it is done when the reads make progress. *)
Definition receives (pre : list Z) (n : Z) (fuel : nat) (r : res (list Z)) (s g : list Z) : Prop :=
  s = [] ∧ len g ≤ n ∧ (∀ buf, r = Done buf → buf = pre ++ g ∧ len g = n) ∧ (live → n < Z.of_nat fuel → ∃ buf, r = Done buf).

Lemma receives_more pre d n fuel fuel' r s g : receives (pre ++ d) (n - len d) fuel' r s g →
  (live → n < Z.of_nat fuel → n - len d < Z.of_nat fuel') → receives pre n fuel r s (d ++ g).
Proof.
  intros (Hs & Hg & Hd & HL) Hf. split_and!; [done | rewrite length_app; lia | | naive_solver].
  intros buf E. destruct (Hd buf E) as [-> Hlen]. rewrite length_app, (assoc_L (++)). split; [done | lia].
Qed.

Lemma receives_nothing pre n fuel r : (∀ buf, r ≠ Done buf) → 0 ≤ n → (live → Z.of_nat fuel ≤ n) → receives pre n fuel r [] [].
Proof. intros Hr Hn HL. split_and!; [done | done | naive_solver | intros Hl; specialize (HL Hl); lia]. Qed.

Lemma readFull_loop_spec fuel : ∀ dst off w, good w → 0 ≤ off ≤ len dst →
  spec (readFull_loop fuel dst off) w (receives (take (Z.to_nat off) dst) (len dst - off) fuel).
Proof.
  induction fuel as [|fuel IH]; intros dst off w Hg Hoff; cbn [readFull_loop].
  { eapply spec_pure; [done..|]. apply receives_nothing; [done | lia..]. }
  destruct (Z.leb_spec (len dst) off) as [Hle|Hlt].
  { eapply spec_pure; [done..|]. rewrite take_ge by lia. split_and!; [done | cbn; lia | | naive_solver].
    intros buf [= <-]. rewrite app_nil_r. split; [done | cbn; lia]. }
  eapply spec_opt; [apply slice_Some; lia|]. rewrite sub_suffix, length_drop by lia.
  eapply spec_bind; [by apply spec_Read | intros [] ? ?; naive_solver |]. intros [[d n] e] s g w1 Hg1 (? & ? & ? & [= <- <- <-] & -> & -> & He & HL).
  eapply spec_opt; [apply copy_at_Some; lia|].
  assert (Hd : len d ≤ len dst - off) by (destruct e; [subst d; cbn; lia | lia]).
  assert (Hblit : blit dst off d = take (Z.to_nat off) dst ++ d ++ drop (length d) (drop (Z.to_nat off) dst)).
  { rewrite <- (take_drop (Z.to_nat off) dst) at 1. rewrite <- blit_app by (rewrite length_drop; lia). f_equal. rewrite length_take. lia. }
  assert (Hlen : len (blit dst off d) = len dst) by (rewrite length_blit; lia).
  assert (Hnext : take (Z.to_nat (off + len d)) (blit dst off d) = take (Z.to_nat off) dst ++ d).
  { rewrite Hblit, (assoc_L (++)). apply take_app_length'. rewrite length_app, length_take. lia. }
  assert (Hstep : spec (readFull_loop fuel (blit dst off d) (off + len d)) w1
    (λ r s' g', receives (take (Z.to_nat off) dst) (len dst - off) (S fuel) r s' (d ++ g'))).
  { eapply spec_mono; [apply IH; [done | lia]|]. rewrite Hnext, Hlen. intros r s g Hr. apply (receives_more _ _ _ _ fuel).
    - by replace (len dst - off - len d) with (len dst - (off + len d)) by lia.
    - intros Hl Hf. destruct (HL Hl) as [_ Hne]; [lia|]. destruct d; [done|]. cbn in *. lia. }
  destruct e as [e|].
  - subst d. assert (HF : ∀ e', spec (fail e') w1 (λ r s' g', receives (take (Z.to_nat off) dst) (len dst - off) (S fuel) r s' ([] ++ g'))).
    { intros e'. eapply spec_pure; [done..|]. apply receives_nothing; [done | lia |]. intros Hl. destruct (HL Hl); [lia | done]. }
    destruct e; [ | exact (HF _)..]. by rewrite Z.add_0_r in Hstep.
  - destruct He as [-> _]. destruct (Z.eqb_spec (len d) 0) as [E|]; [|exact Hstep]. by rewrite E, Z.add_0_r in Hstep.
Qed.

Lemma readFull_spec fuel dst w : good w → spec (readFull fuel dst) w (receives [] (len dst) fuel).
Proof. intros Hg. eapply spec_mono; [apply (readFull_loop_spec fuel dst 0); [done | lia]|]. intros r s g. by rewrite Z.sub_0_r. Qed.

(** [readN]: the same without the contents, which it overwrites. *)
Definition reads (n : Z) (fuel : nat) (r : res (list Z)) (s g : list Z) : Prop :=
  s = [] ∧ len g ≤ Z.max 0 n ∧ (∀ buf, r = Done buf → len g = Z.max 0 n) ∧ (live → Z.max 0 n < Z.of_nat fuel → ∃ buf, r = Done buf).

Lemma reads_more d n fuel fuel' r s g : len d ≤ n → reads (n - len d) fuel' r s g →
  (live → n < Z.of_nat fuel → n - len d < Z.of_nat fuel') → reads n fuel r s (d ++ g).
Proof.
  intros Hn (Hs & Hg & Hd & HL) Hf. split_and!; [done | rewrite length_app; lia | | intros Hl Hb; apply HL; [done | specialize (Hf Hl); lia]].
  intros buf E. specialize (Hd buf E). rewrite length_app. lia.
Qed.

Lemma readN_spec fuel : ∀ remaining buf w, good w → buf ≠ [] → spec (readN fuel remaining buf) w (reads remaining fuel).
Proof.
  unfold readN. induction fuel as [|fuel IH]; intros remaining buf w Hg Hbuf; cbn [readN_loop].
  { eapply spec_pure; [done..|]. split_and!; [done | cbn; lia | done | lia]. }
  destruct (Z.leb_spec remaining 0) as [Hle|Hlt].
  { eapply spec_pure; [done..|]. split_and!; [done | cbn; lia | | naive_solver]. cbn. lia. }
  assert (Hb : 0 < len buf) by (destruct buf; [done | cbn; lia]).
  set (m := if remaining <? len buf then remaining else len buf).
  assert (Hm : 0 < m ≤ remaining ∧ m ≤ len buf) by (unfold m; destruct (Z.ltb_spec remaining (len buf)); lia).
  eapply spec_opt; [apply slice_Some; lia|]. rewrite length_sub, Z.sub_0_r by lia.
  eapply spec_bind; [by apply spec_Read | intros [] ? ?; naive_solver |]. intros [[d n] e] s g w1 Hg1 (? & ? & ? & [= <- <- <-] & -> & -> & He & HL).
  eapply spec_opt; [apply copy_at_Some; lia|].
  assert (Hd : len d ≤ remaining) by (destruct e; [subst d; cbn; lia | lia]).
  assert (Hnew : blit buf 0 d ≠ []) by (intros E; pose proof (length_blit buf 0 d ltac:(lia)) as HB; rewrite E in HB; cbn in HB; lia).
  assert (Hstep : spec (readN_loop fuel (remaining - len d) (blit buf 0 d)) w1 (λ r s' g', reads remaining (S fuel) r s' (d ++ g'))).
  { eapply spec_mono; [by apply IH|]. intros r s g Hr. apply (reads_more _ _ _ fuel); [done.. |].
    intros Hl Hf. destruct (HL Hl) as [_ Hne]; [lia|]. destruct d; [done|]. cbn in *. lia. }
  destruct e as [e|].
  - subst d. assert (HF : ∀ e', spec (fail e') w1 (λ r s' g', reads remaining (S fuel) r s' ([] ++ g'))).
    { intros e'. eapply spec_pure; [done..|]. split_and!; [done | cbn; lia | done |]. intros Hl. destruct (HL Hl); [lia | done]. }
    destruct e; [ | exact (HF _)..]. by rewrite Z.sub_0_r in Hstep.
  - destruct He as [-> _]. destruct (Z.eqb_spec (len d) 0) as [E|]; [|exact Hstep]. by rewrite E, Z.sub_0_r in Hstep.
Qed.

(** [writeN] sends the first [total] bytes of the chunk repeated. *)
Definition cyclic (chunk : list Z) (n : Z) : list Z := take (Z.to_nat n) (concat (replicate (Z.to_nat n) chunk)).

Lemma cyclic_more chunk n : chunk ≠ [] → len chunk ≤ n → cyclic chunk n = chunk ++ cyclic chunk (n - len chunk).
Proof.
  intros Hc Hn. unfold cyclic. assert (0 < len chunk) by (destruct chunk; [done | cbn; lia]).
  replace (Z.to_nat n) with (S (Z.to_nat n - 1)) at 2 by lia. cbn [replicate concat]. rewrite take_app_ge by lia. f_equal.
  replace (Z.to_nat n - length chunk)%nat with (Z.to_nat (n - len chunk)) by lia.
  assert (Hlen : ∀ m, length (concat (replicate m chunk)) = (m * length chunk)%nat)
    by (induction m as [|m IHm]; cbn; [done | rewrite length_app, IHm; done]).
  replace (Z.to_nat n - 1)%nat with (Z.to_nat (n - len chunk) + (length chunk - 1))%nat by lia.
  rewrite replicate_add, concat_app, take_app_le by (rewrite Hlen; nia). done.
Qed.

Lemma cyclic_step chunk n : chunk ≠ [] → 0 < n →
  let size := if n <? len chunk then n else len chunk in cyclic chunk n = take (Z.to_nat size) chunk ++ cyclic chunk (n - size).
Proof.
  intros Hc Hn. cbn. destruct (Z.ltb_spec n (len chunk)).
  - rewrite Z.sub_diag. unfold cyclic at 2. rewrite app_nil_r. unfold cyclic.
    replace (Z.to_nat n) with (S (Z.to_nat n - 1)) at 2 by lia. cbn [replicate concat]. by rewrite take_app_le by lia.
  - rewrite cyclic_more by done. by rewrite take_ge by lia.
Qed.

Lemma sends_app (m m2 : tool unit) w b1 b2 f1 f2 fuel : spec m w (sends b1 f1) → (∀ w', good w' → spec m2 w' (sends b2 f2)) →
  (live → len b1 + len b2 < Z.of_nat fuel → len b1 < Z.of_nat f1 ∧ len b2 < Z.of_nat f2) → spec (m;; m2) w (sends (b1 ++ b2) fuel).
Proof.
  intros H1 H2 Hf.
  assert (Hstop : ∀ r s g, r ≠ Done tt → sends b1 f1 r s g → sends (b1 ++ b2) fuel r s g).
  { intros r s g Hr (Hg & Hp & Hd & HL). split_and!; [done | by apply prefix_app_r | done |].
    intros Hl Hlen. rewrite length_app in Hlen. apply HL; [done|]. apply Hf; [done | lia]. }
  eapply spec_bind; [exact H1 | intros; apply Hstop; [apply stop_done | done] |]. intros [] s g w' Hg (-> & Hp & Hd & HL). rewrite (Hd eq_refl).
  eapply spec_mono; [by apply H2|]. intros r s' g' (Hg' & Hp' & Hd' & HL').
  split_and!; [done | by apply prefix_app | by intros ->%Hd' |].
  intros Hl Hlen. rewrite length_app in Hlen. apply HL'; [done|]. apply Hf; [done | lia].
Qed.

Lemma writeN_spec fuel : ∀ remaining chunk w, good w → chunk ≠ [] → spec (writeN fuel remaining chunk) w (sends (cyclic chunk remaining) fuel).
Proof.
  unfold writeN. induction fuel as [|fuel IH]; intros remaining chunk w Hg Hc; cbn [writeN_loop].
  { eapply spec_pure; [done..|]. apply sends_nothing; [done | lia]. }
  destruct (Z.leb_spec remaining 0) as [Hle|Hlt].
  { eapply spec_pure; [done..|]. unfold cyclic. rewrite Z2Nat.nonpos by done. by split_and!. }
  rewrite cyclic_step by done. set (size := if _ <? _ then _ else _).
  assert (Hb : 0 < len chunk) by (destruct chunk; [done | cbn; lia]).
  assert (Hm : 0 < size ≤ len chunk) by (unfold size; destruct (Z.ltb_spec remaining (len chunk)); lia).
  eapply spec_opt; [apply slice_Some; lia|]. rewrite sub_prefix.
  eapply sends_app; [by apply writeFully_spec | intros w' Hg'; by apply IH |].
  intros _. rewrite length_take. lia.
Qed.

(** ** The two sides *)

(** The server of the latency test sends back what it receives. *)
Lemma server_rounds_spec fuel iters : ∀ buf w, good w → spec (server_rounds fuel iters buf) w (λ r s g,
  s `prefix_of` g ∧ (r = Done tt → s = g ∧ len g = Z.of_nat iters * len buf) ∧ (live → len buf < Z.of_nat fuel → r = Done tt)).
Proof.
  induction iters as [|iters IH]; intros buf w Hg; cbn [server_rounds].
  { eapply spec_pure; [done..|]. by split_and!. }
  eapply spec_bind; [by apply readFull_spec | |].
  - intros o s g (-> & _ & _ & HL). split_and!; [apply prefix_nil | by intros ?%stop_done |]. intros Hl Hf. by destruct (HL Hl Hf) as [? ?%stop_done].
  - intros buf' s g w1 Hg1 (-> & _ & Hd & _). destruct (Hd _ eq_refl) as [-> Hlen]. cbn [app].
    eapply spec_bind; [by apply writeFully_spec | |].
    + intros o s' g' (-> & Hp & _ & HL). rewrite app_nil_r. split_and!; [done | by intros ?%stop_done |]. intros Hl Hf. apply HL; [done | lia].
    + intros [] s' g' w2 Hg2 (-> & _ & Hs & _). rewrite (Hs eq_refl). eapply spec_mono; [by apply IH|].
      intros r s2 g2 (Hp & Hd2 & HL). cbn [app]. split_and!; [by apply prefix_app | | intros Hl Hf; apply HL; [done | lia]].
      intros E. destruct (Hd2 E) as [-> Hl2]. split; [done|]. rewrite length_app. lia.
Qed.

Lemma client_rounds_spec fuel iters msg : ∀ resp w, good w → spec (client_rounds fuel iters msg resp) w (λ r s g,
  (r = Done tt → s = concat (replicate iters msg) ∧ len g = Z.of_nat iters * len resp) ∧
  (live → len msg < Z.of_nat fuel → len resp < Z.of_nat fuel → r = Done tt)).
Proof.
  induction iters as [|iters IH]; intros resp w Hg; cbn [client_rounds].
  { by eapply spec_pure. }
  eapply spec_bind; [by apply writeFully_spec | |].
  - intros o s g (-> & _ & _ & HL). split; [by intros ?%stop_done|]. intros Hl Hf _. by apply HL.
  - intros [] s g w1 Hg1 (-> & _ & Hs & _). rewrite (Hs eq_refl). eapply spec_bind; [by apply readFull_spec | |].
    + intros o s' g' (-> & _ & _ & HL). split; [by intros ?%stop_done|]. intros Hl _ Hf. by destruct (HL Hl Hf) as [? ?%stop_done].
    + intros buf s' g' w2 Hg2 (-> & _ & Hd & _). destruct (Hd _ eq_refl) as [-> Hlen]. eapply spec_mono; [by apply IH|].
      intros r s2 g2 (Hd2 & HL). split; [|intros Hl Hf Hf2; apply HL; [done | done | cbn; lia]].
      intros E. destruct (Hd2 E) as [-> Hl2]. cbn [app replicate concat] in *. split; [done|]. rewrite !length_app. lia.
Qed.

(** The bytes of the two tests, from client to server; those of the second come back. *)
Definition throughput_data (bench : benchConfig) : list Z :=
  if b_enabled bench && negb ((b_bytes bench <=? 0) || (b_chunk bench <=? 0)) then cyclic (bytes_repeat 116 (b_chunk bench)) (b_bytes bench) else [].
Definition latency_data (bench : benchConfig) : list Z :=
  if b_enabled bench && negb ((b_iters bench <=? 0) || (b_msgSize bench <=? 0))
  then concat (replicate (Z.to_nat (b_iters bench)) (bytes_repeat 108 (b_msgSize bench))) else [].

Lemma length_concat_replicate {A} n (l : list A) : length (concat (replicate n l)) = (n * length l)%nat.
Proof. induction n as [|n IH]; cbn; [done | by rewrite length_app, IH]. Qed.

Lemma length_cyclic chunk n : chunk ≠ [] → length (cyclic chunk n) = Z.to_nat n.
Proof. intros Hc. unfold cyclic. rewrite length_take, length_concat_replicate. destruct chunk; [done|]. cbn. lia. Qed.

Lemma bytes_repeat_ne b n : 0 < n → bytes_repeat b n ≠ [].
Proof. intros Hn. unfold bytes_repeat. by replace (Z.to_nat n) with (S (Z.to_nat n - 1)) by lia. Qed.

Lemma len_bytes_repeat b n : length (bytes_repeat b n) = Z.to_nat n.
Proof. apply length_replicate. Qed.

Definition enough (fuel : nat) (payload reply : list Z) (bench : benchConfig) : Prop :=
  len payload < Z.of_nat fuel ∧ len reply < Z.of_nat fuel ∧ b_bytes bench < Z.of_nat fuel ∧ b_msgSize bench < Z.of_nat fuel.

Lemma server_tests_spec fuel bench w : good w →
  spec (if b_enabled bench then serverThroughput fuel bench;; serverLatency fuel bench else mret tt) w (λ r s g,
    (r = Done tt → ∃ t, g = t ++ s ∧ len t = len (throughput_data bench) ∧ len s = len (latency_data bench)) ∧
    (live → b_bytes bench < Z.of_nat fuel → b_msgSize bench < Z.of_nat fuel → r = Done tt)).
Proof.
  intros Hg. unfold throughput_data, latency_data. destruct (b_enabled bench); [|eapply spec_pure; [done..|]; split; [|done]; intros _; by exists []].
  cbn [andb]. eapply (spec_bind _ _ _ (λ r s g, s = [] ∧
    (r = Done tt → len g = len (if negb ((b_bytes bench <=? 0) || (b_chunk bench <=? 0)) then cyclic (bytes_repeat 116 (b_chunk bench)) (b_bytes bench) else [])) ∧
    (live → b_bytes bench < Z.of_nat fuel → r = Done tt))).
  - unfold serverThroughput. destruct (_ || _) eqn:E; [by eapply spec_pure|]. apply orb_false_iff in E as [E1%Z.leb_gt E2%Z.leb_gt]. cbn [negb].
    eapply spec_bind; [apply readN_spec; [done | by apply bytes_repeat_ne] | |].
    + intros o s g (-> & _ & _ & HL). split_and!; [done | by intros ?%stop_done |]. intros Hl Hf. destruct (HL Hl) as [? ?%stop_done]; [lia | done].
    + intros buf s g w' Hg' (-> & _ & Hd & _). eapply spec_pure; [done..|]. rewrite !app_nil_r. split_and!; [done | | done].
      intros _. rewrite (Hd _ eq_refl), length_cyclic by (by apply bytes_repeat_ne). lia.
  - intros o s g (-> & _ & HL). split; [by intros ?%stop_done|]. intros Hl Hf _. by apply HL.
  - intros [] s g w' Hg' (-> & Hd & HL). specialize (Hd eq_refl). unfold serverLatency. destruct (_ || _) eqn:E in |- *.
    + eapply spec_pure; [done..|]. split; [|done]. intros _. exists g. by rewrite !app_nil_r.
    + apply orb_false_iff in E as [E1%Z.leb_gt E2%Z.leb_gt]. cbn [negb]. eapply spec_mono; [by apply server_rounds_spec|].
      intros r s2 g2 (_ & Hd2 & HL2). rewrite len_bytes_repeat in *. split; [|intros Hl _ Hf; apply HL2; [done | lia]].
      intros Er. destruct (Hd2 Er) as [-> Hl2]. exists g. split_and!; [done..|]. cbn [app].
      rewrite length_concat_replicate, len_bytes_repeat. lia.
Qed.

Lemma client_tests_spec fuel bench w : good w →
  spec (if b_enabled bench then clientThroughput fuel bench;; clientLatency fuel bench else mret tt) w (λ r s g,
    (r = Done tt → s = throughput_data bench ++ latency_data bench ∧ len g = len (latency_data bench)) ∧
    (live → b_bytes bench < Z.of_nat fuel → b_msgSize bench < Z.of_nat fuel → 0 < Z.of_nat fuel → r = Done tt)).
Proof.
  intros Hg. unfold throughput_data, latency_data. destruct (b_enabled bench); [|by eapply spec_pure].
  cbn [andb]. set (td := if negb ((b_bytes bench <=? 0) || (b_chunk bench <=? 0)) then _ else _).
  eapply (spec_bind _ _ _ (λ r s g, g = [] ∧ (r = Done tt → s = td) ∧ (live → b_bytes bench < Z.of_nat fuel → 0 < Z.of_nat fuel → r = Done tt))).
  - unfold clientThroughput, td. destruct (_ || _) eqn:E; [by eapply spec_pure|]. apply orb_false_iff in E as [E1%Z.leb_gt E2%Z.leb_gt]. cbn [negb].
    eapply spec_mono; [apply writeN_spec; [done | by apply bytes_repeat_ne]|]. intros r s g (-> & _ & Hd & HL). split_and!; [done..|].
    intros Hl Hf H0. apply HL; [done|]. rewrite length_cyclic by (by apply bytes_repeat_ne). lia.
  - intros o s g (-> & _ & HL). split; [by intros ?%stop_done|]. intros Hl Hf _. by apply HL.
  - intros [] s g w' Hg' (-> & Hd & HL). rewrite (Hd eq_refl). unfold clientLatency. destruct (_ || _) eqn:E in |- *.
    + eapply spec_pure; [done..|]. by rewrite !app_nil_r.
    + apply orb_false_iff in E as [E1%Z.leb_gt E2%Z.leb_gt]. cbn [negb]. eapply spec_mono; [by apply client_rounds_spec|].
      intros r s2 g2 (Hd2 & HL2). rewrite !len_bytes_repeat in *. split; [|intros Hl _ Hf _; apply HL2; [done | lia..]].
      intros Er. destruct (Hd2 Er) as [-> Hl2]. split; [done|]. cbn [app]. rewrite length_concat_replicate, len_bytes_repeat. lia.
Qed.

Definition ulp_tls (ulp : errno + list Z) : Prop := ∃ s, ulp = inr s ∧ normalizeSockoptString s = str "tls".

Lemma checkULP_spec ulp w : good w → spec (checkULP ulp) w (λ r s g, s = [] ∧ g = [] ∧ (r = Done tt ↔ ulp_tls ulp) ∧ ∃ o, r = stop o ∨ r = Done tt).
Proof.
  intros Hg. destruct ulp as [e|s]; cbn [checkULP]; [|case_bool_decide]; (eapply spec_pure; [done..|]).
  - split_and!; [done | done | split; [done | by intros (? & ? & _)] | by exists (Some (Errno e)); left].
  - split_and!; [done | done | split; [by exists s | done] | by exists None; right].
  - split_and!; [done | done | split; [done | by intros (? & [= <-] & ?)] | by exists (Some NotTls); left].
Qed.

(** The server reports success only if the ULP is tls and it received the payload; it has then
    answered the reply and echoed the latency test.  It comes to an end if the socket does. *)
Lemma runServer_spec fuel ulp payload reply bench w : good w → spec (runServer fuel ulp payload reply bench) w (λ r s g,
  (r = Done tt → ulp_tls ulp ∧ ∃ t l, g = payload ++ t ++ l ∧ s = reply ++ l ∧ len t = len (throughput_data bench) ∧ len l = len (latency_data bench)) ∧
  (live → enough fuel payload reply bench → ulp_tls ulp → r = Done tt ∨ r = Failed PayloadMismatch)).
Proof.
  intros Hg. eapply spec_bind; [by apply checkULP_spec | |].
  { intros o s g (-> & -> & Hu & _). split; [by intros ?%stop_done|]. intros _ _ Hy%Hu. by destruct (stop_done o tt). }
  intros [] s g w1 Hg1 (-> & -> & Hu & _). apply proj1 in Hu. specialize (Hu eq_refl).
  eapply spec_bind; [by apply readFull_spec | |].
  { intros o s g (-> & _ & _ & HL). split; [by intros ?%stop_done|]. intros Hl (Hf & _) _. rewrite len_bytes_repeat in HL. destruct (HL Hl) as [? ?%stop_done]; [lia | done]. }
  intros buf s g w2 Hg2 (-> & _ & Hd & _). destruct (Hd _ eq_refl) as [-> Hlen]. cbn [app].
  case_bool_decide as Hp; [subst g|]; cbn [negb]; [|eapply spec_pure; [done..|]; split; [done | by right]].
  eapply spec_bind; [by apply writeFully_spec | |].
  { intros o s g (-> & _ & _ & HL). split; [by intros ?%stop_done|]. intros Hl (_ & Hf & _) _. left. by apply HL. }
  intros [] s g w3 Hg3 (-> & _ & Hs & _). rewrite (Hs eq_refl). eapply spec_mono; [by apply server_tests_spec|].
  intros r s2 g2 (Hd2 & HL2). split; [|intros Hl (_ & _ & Hf & Hf2) _; left; by apply HL2].
  intros Er. split; [done|]. destruct (Hd2 Er) as (t & -> & Ht & Hl). by exists t, s2.
Qed.

Lemma runClient_spec fuel ulp payload reply bench w : good w → spec (runClient fuel ulp payload reply bench) w (λ r s g,
  (r = Done tt → ulp_tls ulp ∧ ∃ l, s = payload ++ throughput_data bench ++ latency_data bench ∧ g = reply ++ l ∧ len l = len (latency_data bench)) ∧
  (live → enough fuel payload reply bench → ulp_tls ulp → r = Done tt ∨ r = Failed ReplyMismatch)).
Proof.
  intros Hg. eapply spec_bind; [by apply checkULP_spec | |].
  { intros o s g (-> & -> & Hu & _). split; [by intros ?%stop_done|]. intros _ _ Hy%Hu. by destruct (stop_done o tt). }
  intros [] s g w1 Hg1 (-> & -> & Hu & _). apply proj1 in Hu. specialize (Hu eq_refl).
  eapply spec_bind; [by apply writeFully_spec | |].
  { intros o s g (-> & _ & _ & HL). split; [by intros ?%stop_done|]. intros Hl (Hf & _) _. left. by apply HL. }
  intros [] s g w2 Hg2 (-> & _ & Hs & _). rewrite (Hs eq_refl). eapply spec_bind; [by apply readFull_spec | |].
  { intros o s' g (-> & _ & _ & HL). split; [by intros ?%stop_done|]. intros Hl (_ & Hf & _) _. rewrite len_bytes_repeat in HL. destruct (HL Hl) as [? ?%stop_done]; [lia | done]. }
  intros buf s' g w3 Hg3 (-> & _ & Hd & _). destruct (Hd _ eq_refl) as [-> Hlen]. cbn [app].
  case_bool_decide as Hp; [subst g|]; cbn [negb]; [|eapply spec_pure; [done..|]; split; [done | by right]].
  eapply spec_mono; [by apply client_tests_spec|].
  intros r s2 g2 (Hd2 & HL2). split; [|intros Hl (Hf0 & _ & Hf & Hf2) _; left; apply HL2; try done; lia].
  intros Er. split; [done|]. destruct (Hd2 Er) as [-> Hl2]. by exists g2.
Qed.

(** When both sides report success, whatever the network did, each side received every byte the
    other sent, the payload and the reply at the front, and the latency test came back as it was sent. *)
Theorem check_ok_means_intact fuel fuel' ulp ulp' payload reply bench w w1 v v1 : good w → good v →
  runServer fuel ulp payload reply bench w = Some (w1, Done tt) →
  runClient fuel' ulp' payload reply bench v = Some (v1, Done tt) →
  ∃ s g s' g', io w w1 s g ∧ io v v1 s' g' ∧ ulp_tls ulp ∧ ulp_tls ulp' ∧
    (g `prefix_of` s' → g' `prefix_of` s →
     g = s' ∧ g' = s ∧ g = payload ++ throughput_data bench ++ latency_data bench ∧ s = reply ++ latency_data bench).
Proof.
  intros Hw Hv Es Ec.
  destruct (runServer_spec fuel ulp payload reply bench w Hw) as (w2 & r & s & g & E & Hi & Hd & _). rewrite Es in E. simplify_eq.
  destruct (runClient_spec fuel' ulp' payload reply bench v Hv) as (v2 & r & s' & g' & E & Hi' & Hd' & _). rewrite Ec in E. simplify_eq.
  destruct (Hd eq_refl) as (Hu & t & l & -> & -> & Ht & Hl). destruct (Hd' eq_refl) as (Hu' & l' & -> & -> & Hl').
  eexists _, _, _, _. do 4 (split; [done|]). intros [k Ek] [k' Ek'].
  assert (k = []) as -> by (apply (f_equal length) in Ek; rewrite !length_app in Ek; destruct k; [done | cbn in Ek; lia]).
  assert (k' = []) as -> by (apply (f_equal length) in Ek'; rewrite !length_app in Ek'; destruct k'; [done | cbn in Ek'; lia]).
  rewrite app_nil_r in Ek, Ek'. apply app_inv_head in Ek, Ek'. apply app_inj_1 in Ek as [<- <-]; [by subst l' | lia].
Qed.
End Spec.

(** The end of the stream must be an error, as it is for TLS connections: when a read returns no bytes
    and no error for ever, as at the end of a plain connection, [readFull] does not return. *)
Lemma readFull_spins_at_end {P K C} `{!EngineConn P K C} (pool : P) (k : K) (c : C) fuel dst : dst ≠ [] →
  (∀ n, ec_Read k c n = (k, c, [], (0, None))) → readFull fuel dst (pool, k, c) = Some ((pool, k, c), Wait).
Proof.
  intros Hd He. assert (0 < len dst) by (destruct dst; [done | cbn; lia]). unfold readFull.
  induction fuel as [|fuel IH]; [done|]. cbn [readFull_loop]. zb. rewrite slice_Some by lia.
  unfold mbind, tool_bind, of_opt. cbn. rewrite He. cbn. rewrite copy_at_Some by lia. cbn.
  replace (blit dst 0 []) with dst; [done|]. by rewrite blit_front by (cbn; lia).
Qed.

(** Both ways to cut a C string agree on bytes. *)
Lemma c_string s : bytes_wf s → charsToString s = normalizeSockoptString s.
Proof.
  unfold normalizeSockoptString. induction s as [|x s IH]; [done|]. intros Hb. inversion_clear Hb as [|? ? Hx Hs]. specialize (IH Hs). cbn.
  destruct (Z.eqb_spec x 0); [done|]. rewrite IH, (wrapU_small 8 x) by (unfold byte_wf in Hx; lia).
  destruct (Z.ltb_spec (IndexByte s 0) 0), (Z.leb_spec 0 (IndexByte s 0)); try lia; cbn; [done|].
  destruct (Z.leb_spec 0 (IndexByte s 0 + 1)); [|lia]. by replace (Z.to_nat (IndexByte s 0 + 1)) with (S (Z.to_nat (IndexByte s 0))) by lia.
Qed.

(** ** A run of both sides on a socket that takes four bytes at a time *)

#[local] Existing Instances test_Allocator test_AllocatorLaws.
#[local] Instance check_EngineConn : EngineConn BytesAlloctor TestKernel (Conn unit unit unit) := Conn_EngineConn (λ c n, n) (g_conn initial_globals).
#[local] Instance check_EngineConnLaws : EngineConnLaws BytesAlloctor TestKernel (Conn unit unit unit) := Conn_EngineConnLaws (λ c n, n) (g_conn initial_globals).

Definition check_bench : benchConfig := mkBench true 5 3 2 2.
Definition check_world (inp : list Z) : BytesAlloctor * TestKernel * Conn unit unit unit := (test_pool, mkTK 4 0 inp [] [], ec_accepted (P := BytesAlloctor) (K := TestKernel) 7).
Definition check_sent (r : option (BytesAlloctor * TestKernel * Conn unit unit unit * res unit)) : list Z := match r with Some (_, k, _, _) => k_out k 7 | None => [] end.
Definition check_after (r : option (BytesAlloctor * TestKernel * Conn unit unit unit * res unit)) : BytesAlloctor * TestKernel * Conn unit unit unit :=
  match r with Some (w, _) => w | None => check_world [] end.

Definition tls0 : errno + list Z := inr [116; 108; 115; 0; 0].
Definition server_run := runServer 40 tls0 [97; 97; 97] [98; 98; 98; 98; 98] check_bench (check_world [97; 97; 97; 116; 116; 116; 116; 116; 108; 108; 108; 108]).
Definition client_run := runClient 40 tls0 [97; 97; 97] [98; 98; 98; 98; 98] check_bench (check_world [98; 98; 98; 98; 98; 108; 108; 108; 108]).

Lemma check_ok_means_intact_witness : k_in (check_after server_run).1.2 7 = check_sent client_run ∧ k_in (check_after client_run).1.2 7 = check_sent server_run.
Proof.
  assert (Hgood : ∀ inp, good (check_world inp)) by (intros inp; split_and!; [apply test_pool_inv | apply (ec_accepted_ok 7) | done | done]).
  destruct (check_ok_means_intact 40 40 tls0 tls0 [97; 97; 97] [98; 98; 98; 98; 98] check_bench
    (check_world [97; 97; 97; 116; 116; 116; 116; 116; 108; 108; 108; 108]) (check_after server_run)
    (check_world [98; 98; 98; 98; 98; 108; 108; 108; 108]) (check_after client_run) (Hgood _) (Hgood _))
    as (s & g & s' & g' & [_ I] & [_ I'] & _ & _ & HE); [vm_compute; reflexivity | vm_compute; reflexivity |].
  pose proof (cs_sent _ _ _ _ _ _ _ I) as S1. pose proof (cs_got _ _ _ _ _ _ _ I) as G1.
  pose proof (cs_sent _ _ _ _ _ _ _ I') as S2. pose proof (cs_got _ _ _ _ _ _ _ I') as G2.
  vm_compute in S1, G1, S2, G2. destruct HE as (E1 & E2 & _); [by rewrite <- G1, <- S2 | by rewrite <- G2, <- S1 |].
  subst s' g'. split; [transitivity g | transitivity s]; try (symmetry; assumption); assumption.
Defined.
